(* ===== verification/_CoqProject ===== *)
-Q . S2P
Prelude.v
Utf8.v
GoBytes.v
Json.v
JsonFacts.v
JsonRender.v
Sha256.v
Canon.v
Sse.v
Request.v
Assistant.v
AssistantStream.v
Metrics.v
Store.v
Session.v
Collector.v
DoneWatch.v
Pool.v
NetUrl.v
UrlFacts.v
GoNum.v
Config.v
Proxy.v
Outbound.v
Gateway.v
GatewaySafety.v
Provenance.v
EndToEnd.v
Affinity.v
Table.v
Refinement.v
Lifecycle.v
Smoke.v
Shutdown.v
