(* ===== verification/Prelude.v ===== *)
(** * OPGate: a verified model of the gateway

    OPGate (src/, Go 1.24) is a reverse proxy in front of an OpenAI-compatible
    chat API.  For every chat request it decides which session the conversation
    belongs to: it hashes the canonical form of the conversation so far, looks the
    hash up in Redis, adds an [X-Opencode-Session] header and forwards the request;
    while the answer streams back it is collected in pages, rebuilt as an assistant
    message, and the hash of the conversation with that answer is stored for the
    next request.  This library models that program and proves what makes it
    correct: that a session found was stored for the same client and the same
    conversation, that the answer it was stored under is exactly what the upstream
    sent, that nothing of the caching can block or be lost unnoticed - and where
    the code does not live up to that, what happens instead.

    ** The parts and their files

    The language and its standard library, as far as the source uses them:
    - Prelude.v: byte strings, Go's results with errors, 64-bit integers, tactics
      and lemmas shared by all files;
    - Utf8.v: runes; GoBytes.v: bytes, strings, strconv; Json.v: the decoder of
      encoding/json with raw texts, the Go values, [json.Marshal]; JsonFacts.v and
      JsonRender.v: locality of the parser, rendering and re-parsing;
    - Sha256.v: SHA-256 and hex; NetUrl.v: parsing, escaping and queries of net/url
      (Go 1.24.0); UrlFacts.v: that they are inverse to each other; GoNum.v: float64, [strconv.ParseFloat], [time.ParseDuration].

    The program:
    - Canon.v: internal/canon (canonical JSON, state hashes);
    - Sse.v: internal/sse (the event-stream scanner);
    - Request.v, Assistant.v: internal/openai (requests and responses, rebuilding
      the assistant message); AssistantStream.v: theorems about whole streams;
    - Metrics.v: internal/metrics (what is counted, as a sequence of events);
    - Store.v: internal/store, the two storage interfaces as classes with the
      contract their clients rely on, and their Redis implementation over a client
      given by its laws ([redis_laws], [redis_persistent], [redis_reliable];
      [MemRedis] satisfies all three);
    - Session.v: internal/session (which session a request gets);
    - Collector.v: the operations of internal/collector; DoneWatch.v: its sentinel
      watcher; Pool.v: the page pool, with every interleaving of the goroutines
      that write, flush and finalize ([exec], and as a relation [pool_step]);
    - Config.v: internal/config; Proxy.v: the operations of internal/proxy;
      Outbound.v: [NewHandler] and what its reverse proxy sends upstream;
    - Gateway.v: handler, collectors and pool composed into one transition system
      ([gexec]); GatewaySafety.v and Provenance.v: its invariants and theorems;
      EndToEnd.v: two turns of a conversation through all of it; Affinity.v: that
      the mapping is there in time, in every interleaving;
    - Table.v: the abstract specification of the whole, a table from conversations
      to sessions ([table_exec]; with losses, [table_step]); Refinement.v: the
      simulation of the gateway by that table;
    - Lifecycle.v: cmd/ocgate/main.go up to serving, and its routes; Shutdown.v: its
      graceful shutdown around the running gateway ([sexec]);
    - Smoke.v: scripts/smoke, the test program around the gateway: its mock
      upstream, configuration, requests and checks.

    Go functions keep their names.  A function that suspends is cut where it does:
    [Collector.Write] at its callback ([write_begin], [write_end]), [Finalize] at
    its wait ([finalize_check], [finalize_read]), a page worker between taking a
    job, writing it ([worker_put]) and settling it ([worker_settle]), a finalizer
    before it stores its mapping ([putMapping]).  A step of a transition system is
    what one goroutine does between two such points; runs are lists of steps, so a
    theorem about all runs is about all interleavings.  A mutex, an atomic or a
    channel operation is one step, and the operations in between touch only the
    goroutine's own data.  A finalizer's reading and deleting of its pages, two Redis
    commands, are one step ([finalize_read]): they use the request's own key, and
    after the wait no worker holds a page of it.

    ** What the theorems show

    - Names: canonical text names the content of a message (Canon.v:
      [Canonicalize_same_iff], [Canonicalize_idempotent], [CanonicalValue_emit]),
      equal state hashes mean equal conversations or an
      explicit SHA-256 collision ([HistoryHash_separates]).
    - Streams: the scanner implements a list of events (Sse.v); a message streamed
      in deltas is rebuilt as the message ([AssistantFromSSE_stream],
      [AssistantFromSSE_text_echo], [AssistantFromMessage_fixpoint]), its tool calls
      put together per index and listed by index ([mergeDelta_tools]); the watcher
      fires exactly on a complete sentinel line however the bytes were cut
      ([watchDone_chunks]) and early enough ([watchDone_early]).
    - Storage: what is read was written for that key ([GetSession_history]); what
      resolving a session counts ([Resolve_metrics]).
    - The page pool, in every interleaving: bounds ([pool_bounds]), what a
      finalizer reads is what was written unless the cache failed
      ([finalize_exact]), waits end while workers live
      ([wait_ends]); and the limits of that: whatever page is lost during the wait,
      the finalizer builds its message from the rest ([finalize_misses_lost_page]), a retried finalization has lost the
      RAM tail ([retry_without_tail]), after [Stop] a wait may never end
      ([wait_blocks_after_stop]).
    - The handler: what the upstream receives and where the request goes
      ([upstream_request], [upstream_target]), JSON bodies
      ([json_body_finalized]), the largest body limit ([ServeHTTP_limit_wraps]).
    - The whole as a refinement: what can be seen of a run is a run of the table of
      conversations, up to misses and losses over a Redis whose commands may fail but
      whose pages do not expire during the run ([redis_persistent]; [gateway_table]), exactly over one that answers and forgets nothing ([gateway_table_exact]),
      and so a conversation is a thread of one session, whatever comes in between
      ([conversation_thread]).
    - The promise of the whole: a conversation keeps its session, from the streamed
      answer to the client's next, re-serialized request
      ([conversation_continues]); and the mapping is stored before the client has
      the end of the answer, whatever else runs ([session_affinity]), so the
      smoke test passes under every schedule ([smoke_passes]).
    - The running gateway: every run of it is a run of the pool
      ([gateway_refines_pool]), at most one answer per request and the right one
      ([answers_exact_once]), every resolved session goes back to an earlier
      request of the same client and conversation ([resolved_session_origin]).
    - Its life: what [main] starts with ([main_serves]), finalizers get on while the workers run ([finalizer_progress]),
      [Stop] returns ([stop_returns]), a shutdown without time-outs loses nothing
      and comes to its end ([clean_shutdown], [shutdown_completes]); which requests
      the mux gives to the gateway, to the local pages under any percent-encoding, or
      redirects ([route_gateway]); and the configuration's durations ([Duration_values]).

    ** Bounds, fuel, assumptions

    - The JSON parser has fuel of two more than twice its input's length
      ([fuel]; [parse_fuel_enough]: more changes nothing) and Go's nesting limit of
      10000.  The loops over lines ([scan_loop], [watch_loop]) have the length of
      their buffer, [duration_loop] that of its text, each pass consuming a byte
      or more; the theorems about them are proved for that fuel, so running out of
      it is excluded.  [udec] writes up to 20 digits, enough for 64 bits.
      Everything else is structurally recursive.
    - [int] and [int64] are [Z] with the wrap-around written out ([wrap64]) where
      values are not bounded by the length of something in memory.  A collector
      takes no step that would number a page beyond 2^63 - 1.
    - A collision is always an explicit pair of distinct byte strings with equal
      SHA-256 ([collides]): no theorem assumes there is none.
    - Request IDs of a run are distinct, as UUIDs are, and Redis holds no pages
      under them and no sessions at the start ([fresh_run]).
    - Redis may fail any command and forget any key; the laws say only that what
      it returns was stored, and (persistence) that a command that succeeded
      stored it and that no page expires during the run.  The theorems that need the
      second name it.  The theorems
      [session_affinity], [gateway_table_exact], [conversation_thread] and
      [smoke_passes] are about a Redis that answers and forgets nothing
      ([redis_reliable]).

    ** Not modelled

    - The HTTP server and transport, the go-redis client, the YAML decoder, the file
      system and the Prometheus registry are not part of src/: they are arguments,
      parameters with laws, or events.  Of [httputil.ReverseProxy] the rewriting
      of a request is modelled (Outbound.v), its copying of responses is the
      events of Gateway.v.  [NewResolver] only stores its arguments.
    - Time.  A time-out makes an operation fail (Store.v) or ends a wait of [main]
      (Shutdown.v); which it does is a choice of the environment.  The operation
      and finalize time-outs of contexts are among those failures.
    - What the [http.ServeMux] answers to CONNECT, whose paths it does not clean
      ([route] gives [None]); the text of the server's and the mux's own replies.
    - Logging, except for the level chosen.
    - In scripts/smoke, starting and stopping processes, sleeping and printing. *)

From stdpp Require Export base tactics list numbers strings gmap sorting.

#[global] Open Scope Z_scope.

(** ** Bytes and Go strings

    A Go [string] or [[]byte] is a list of 8-bit integers, kept as [Z]. *)
Abbreviation bytes := (list Z).

Definition is_byte (b : Z) : Prop := 0 <= b < 256.

(** [str "abc"] is the byte sequence of an ASCII literal. *)
Fixpoint str (s : string) : bytes :=
  match s with
  | EmptyString => []
  | String c s => Z.of_N (Ascii.N_of_ascii c) :: str s
  end.

(** [js "{'a':1}"] is the literal with every apostrophe read as a double quote:
    JSON texts without escaping. *)
Definition js (s : string) : bytes :=
  (λ b, if b =? 39 then 34 else b) <$> str s.

(** ** Go's (value, error) pairs *)
Inductive result (E A : Type) : Type :=
| Ok (a : A)
| Err (e : E).
Arguments Ok {E A} a.
Arguments Err {E A} e.

#[global] Instance result_ret {E} : MRet (result E) := λ A a, Ok a.
#[global] Instance result_bind {E} : MBind (result E) := λ A B f r,
  match r with Ok a => f a | Err e => Err e end.
#[global] Instance result_fmap {E} : FMap (result E) := λ A B f r,
  match r with Ok a => Ok (f a) | Err e => Err e end.

Definition is_ok {E A} (r : result E A) : bool :=
  match r with Ok _ => true | Err _ => false end.

#[global] Instance Ok_inj {E A} : Inj (=) (=) (@Ok E A).
Proof. by intros a a' [= ->]. Qed.
#[global] Instance Err_inj {E A} : Inj (=) (=) (@Err E A).
Proof. by intros e e' [= ->]. Qed.

#[global] Instance result_eq_dec {E A} `{EqDecision E, EqDecision A} :
  EqDecision (result E A).
Proof. solve_decision. Defined.

(** ** Machine integers *)
Definition wrap64 (z : Z) : Z := (z + 2 ^ 63) mod 2 ^ 64 - 2 ^ 63.
Definition in_int64 (z : Z) : bool := (- 2 ^ 63 <=? z) && (z <? 2 ^ 63).

Lemma wrap64_range z : - 2 ^ 63 <= wrap64 z < 2 ^ 63.
Proof. unfold wrap64. pose proof (Z.mod_pos_bound (z + 2 ^ 63) (2 ^ 64)). lia. Qed.

Lemma wrap64_id z : - 2 ^ 63 <= z < 2 ^ 63 → wrap64 z = z.
Proof. intros H. unfold wrap64. rewrite Z.mod_small; lia. Qed.

(** ** Automation *)

(** Case analysis on every boolean comparison of integers in sight. *)
Ltac zcase :=
  match goal with
  | |- context [?a =? ?b] => destruct (Z.eqb_spec a b)
  | |- context [?a <=? ?b] => destruct (Z.leb_spec a b)
  | |- context [?a <? ?b] => destruct (Z.ltb_spec a b)
  | H : context [?a =? ?b] |- _ => destruct (Z.eqb_spec a b)
  | H : context [?a <=? ?b] |- _ => destruct (Z.leb_spec a b)
  | H : context [?a <? ?b] |- _ => destruct (Z.ltb_spec a b)
  end.

(** Rewrite a boolean test of the goal to the value arithmetic gives it. *)
Ltac btrue b := replace b with true by lia.
Ltac bfalse b := replace b with false by lia.

(** The first step of a computation in the option monad that succeeded. *)
Ltac bind_some x E :=
  lazymatch goal with
  | |- mbind _ ?o = Some _ → _ => destruct o as [x|] eqn:E; cbn [mbind option_bind]; [|done]
  end.

(** Right-associate concatenations; arithmetic on the lengths of lists. *)
Ltac norm_app := repeat first [rewrite <-app_assoc | progress cbn [app]].
Ltac norm_app_in H := repeat first [rewrite <-app_assoc in H | progress cbn [app] in H].
Ltac len :=
  repeat first [rewrite length_app in * | rewrite length_drop in * | progress cbn [length] in *]; lia.

Create HintDb opgate.

(** ** Lists *)
Lemma length_drop_lt {A} (l : list A) n :
  (0 < n)%nat → l ≠ [] → (length (drop n l) < length l)%nat.
Proof. intros Hn Hl. rewrite length_drop. destruct l; [done|simpl; lia]. Qed.

Lemma drop_S_cons {A} (x : A) l n : drop (S n) (x :: l) = drop n l.
Proof. done. Qed.

Lemma Forall_is_byte_str s : Forall is_byte (str s).
Proof.
  induction s as [|c s IH]; simpl; constructor; [|done].
  unfold is_byte. pose proof (Ascii.N_ascii_bounded c). lia.
Qed.

(** Without repetitions a sorted list of integers is strictly increasing. *)
Lemma StronglySorted_lt (l : list Z) : StronglySorted Z.le l → NoDup l → StronglySorted Z.lt l.
Proof.
  induction 1 as [|x l Hl IH Hx]; intros Hnd; constructor; apply NoDup_cons in Hnd as [Hin Hnd]; [auto|].
  rewrite Forall_forall in *. intros y Hy. specialize (Hx y Hy). assert (x ≠ y) by congruence. lia.
Qed.

(** The sum of a list when one element changes. *)
Lemma sum_list_insert (l : list nat) i x y : l !! i = Some x → (sum_list (<[i := y]> l) + x = sum_list l + y)%nat.
Proof.
  revert i. induction l as [|a l IH]; intros [|i] Hl; try done.
  - injection Hl as ->. cbn. lia.
  - pose proof (IH i Hl) as E. change (a + sum_list (<[i := y]> l) + x = a + sum_list l + y)%nat. lia.
Qed.

(** A computation known to succeed, by its default. *)
Definition succeeds {A} (o : option A) : bool := match o with Some _ => true | None => false end.
Lemma succeeds_default {A} (d : A) o : succeeds o = true → o = Some (default d o).
Proof. by destruct o. Qed.

(** Induction on the length of a list. *)
Lemma list_length_ind {A} (P : list A → Prop) :
  (∀ l, (∀ l', (length l' < length l)%nat → P l') → P l) → ∀ l, P l.
Proof.
  intros H l. remember (length l) as n eqn:En. revert l En.
  induction n as [n IH] using lt_wf_ind. intros l ->. apply H. intros l' Hl'. by apply (IH (length l')).
Qed.
