(* ===== verification/Utf8.v ===== *)
(** * Runes and UTF-8

    Go's [unicode/utf8] as the source uses it: [DecodeRune], [EncodeRune]
    ([bytes.Buffer.WriteRune]) and the [for _, r := range s] loop over a
    string.  The decoder rejects overlong forms, surrogates and values above
    U+10FFFF, and an invalid byte decodes to U+FFFD with width 1. *)
From S2P Require Import Prelude.

Definition RuneError : Z := 0xFFFD.

Definition scalar (r : Z) : Prop :=
  0 <= r < 0xD800 ∨ 0xE000 <= r <= 0x10FFFF.

Definition cont (b : Z) : bool := (0x80 <=? b) && (b <=? 0xBF).

Definition EncodeRune (r : Z) : bytes :=
  if (0 <=? r) && (r <? 0x80) then [r]
  else if (0x80 <=? r) && (r <? 0x800) then [0xC0 + r / 64; 0x80 + r mod 64]
  else if (r <? 0) || (0x10FFFF <? r) || ((0xD800 <=? r) && (r <? 0xE000)) then
    [0xEF; 0xBF; 0xBD]
  else if r <? 0x10000 then
    [0xE0 + r / 4096; 0x80 + r / 64 mod 64; 0x80 + r mod 64]
  else [0xF0 + r / 262144; 0x80 + r / 4096 mod 64; 0x80 + r / 64 mod 64; 0x80 + r mod 64].

(** The rune at the front of [s] and the number of bytes it takes. *)
Definition DecodeRune (s : bytes) : Z * nat :=
  match s with
  | [] => (RuneError, 0%nat)
  | b0 :: s1 =>
    if (0 <=? b0) && (b0 <? 0x80) then (b0, 1%nat)
    else if (0xC2 <=? b0) && (b0 <=? 0xDF) then
      match s1 with
      | b1 :: _ => if cont b1 then ((b0 - 0xC0) * 64 + (b1 - 0x80), 2%nat)
                   else (RuneError, 1%nat)
      | _ => (RuneError, 1%nat)
      end
    else if (0xE0 <=? b0) && (b0 <=? 0xEF) then
      match s1 with
      | b1 :: b2 :: _ =>
        if ((if b0 =? 0xE0 then 0xA0 else 0x80) <=? b1)
           && (b1 <=? (if b0 =? 0xED then 0x9F else 0xBF)) && cont b2
        then ((b0 - 0xE0) * 4096 + (b1 - 0x80) * 64 + (b2 - 0x80), 3%nat)
        else (RuneError, 1%nat)
      | _ => (RuneError, 1%nat)
      end
    else if (0xF0 <=? b0) && (b0 <=? 0xF4) then
      match s1 with
      | b1 :: b2 :: b3 :: _ =>
        if ((if b0 =? 0xF0 then 0x90 else 0x80) <=? b1)
           && (b1 <=? (if b0 =? 0xF4 then 0x8F else 0xBF)) && cont b2 && cont b3
        then ((b0 - 0xF0) * 262144 + (b1 - 0x80) * 4096 + (b2 - 0x80) * 64 + (b3 - 0x80), 4%nat)
        else (RuneError, 1%nat)
      | _ => (RuneError, 1%nat)
      end
    else (RuneError, 1%nat)
  end.

(** [for _, r := range s]: the runes met.  [skip] counts the bytes of the
    current rune still to pass, which keeps the recursion structural. *)
Fixpoint runes_from (skip : nat) (s : bytes) : list Z :=
  match s with
  | [] => []
  | _ :: s' =>
    match skip with
    | S k => runes_from k s'
    | O => let '(r, w) := DecodeRune s in r :: runes_from (pred w) s'
    end
  end.
Definition runes (s : bytes) : list Z := runes_from 0 s.

(** A string with every invalid byte replaced by U+FFFD. *)
Definition ToValid (s : bytes) : bytes := runes s ≫= EncodeRune.

Definition valid_utf8 (s : bytes) : Prop := ToValid s = s.

#[global] Instance valid_utf8_dec s : Decision (valid_utf8 s).
Proof. unfold valid_utf8. apply _. Defined.

Lemma scalar_RuneError : scalar RuneError.
Proof. unfold scalar, RuneError. lia. Qed.

Ltac utf8_cases :=
  repeat match goal with
  | |- context [if ?b then _ else _] => destruct b eqn:?
  | |- context [match ?l with [] => _ | _ :: _ => _ end] => destruct l
  end; simpl.

Lemma DecodeRune_scalar s : s ≠ [] → scalar (DecodeRune s).1.
Proof.
  intros Hs. destruct s as [|b0 s1]; [done|]. unfold DecodeRune, cont, scalar, RuneError.
  utf8_cases; lia.
Qed.

Lemma DecodeRune_width s : s ≠ [] → (1 <= (DecodeRune s).2 <= 4)%nat.
Proof.
  intros Hs. destruct s as [|b0 s1]; [done|]. unfold DecodeRune. utf8_cases; lia.
Qed.

(** ** The three multi-byte forms *)
Lemma DecodeRune_2 q m s : 2 <= q < 32 → 0 <= m < 64 →
  DecodeRune (0xC0 + q :: 0x80 + m :: s) = (q * 64 + m, 2%nat).
Proof.
  intros Hq Hm. simpl. unfold cont.
  bfalse ((0 <=? 192 + q) && (192 + q <? 128)).
  btrue ((194 <=? 192 + q) && (192 + q <=? 223)).
  btrue ((128 <=? 128 + m) && (128 + m <=? 191)).
  f_equal. lia.
Qed.

Lemma DecodeRune_3 q1 q2 m s :
  0 <= q1 < 16 → 0 <= q2 < 64 → 0 <= m < 64 →
  0x800 <= q1 * 4096 + q2 * 64 + m → scalar (q1 * 4096 + q2 * 64 + m) →
  DecodeRune (0xE0 + q1 :: 0x80 + q2 :: 0x80 + m :: s) = (q1 * 4096 + q2 * 64 + m, 3%nat).
Proof.
  intros Hq1 Hq2 Hm Hlo Hsc. unfold scalar in Hsc. simpl. unfold cont.
  bfalse ((0 <=? 224 + q1) && (224 + q1 <? 128)).
  bfalse ((194 <=? 224 + q1) && (224 + q1 <=? 223)).
  btrue ((224 <=? 224 + q1) && (224 + q1 <=? 239)).
  destruct (Z.eqb_spec (224 + q1) 224), (Z.eqb_spec (224 + q1) 237);
    (match goal with |- (if ?b then _ else _) = _ => btrue b end; f_equal; lia).
Qed.

Lemma DecodeRune_4 q0 q1 q2 m s :
  0 <= q0 < 5 → 0 <= q1 < 64 → 0 <= q2 < 64 → 0 <= m < 64 →
  0x10000 <= q0 * 262144 + q1 * 4096 + q2 * 64 + m <= 0x10FFFF →
  DecodeRune (0xF0 + q0 :: 0x80 + q1 :: 0x80 + q2 :: 0x80 + m :: s)
  = (q0 * 262144 + q1 * 4096 + q2 * 64 + m, 4%nat).
Proof.
  intros Hq0 Hq1 Hq2 Hm Hr. simpl. unfold cont.
  bfalse ((0 <=? 240 + q0) && (240 + q0 <? 128)).
  bfalse ((194 <=? 240 + q0) && (240 + q0 <=? 223)).
  bfalse ((224 <=? 240 + q0) && (240 + q0 <=? 239)).
  btrue ((240 <=? 240 + q0) && (240 + q0 <=? 244)).
  destruct (Z.eqb_spec (240 + q0) 240), (Z.eqb_spec (240 + q0) 244);
    (match goal with |- (if ?b then _ else _) = _ => btrue b end; f_equal; lia).
Qed.

(** ** Shape of an encoding *)
Inductive encoding : Z → bytes → Prop :=
| enc1 r : 0 <= r < 0x80 → encoding r [r]
| enc2 q m : 2 <= q < 32 → 0 <= m < 64 → encoding (q * 64 + m) [0xC0 + q; 0x80 + m]
| enc3 q1 q2 m : 0 <= q1 < 16 → 0 <= q2 < 64 → 0 <= m < 64 →
    0x800 <= q1 * 4096 + q2 * 64 + m → scalar (q1 * 4096 + q2 * 64 + m) →
    encoding (q1 * 4096 + q2 * 64 + m) [0xE0 + q1; 0x80 + q2; 0x80 + m]
| enc4 q0 q1 q2 m : 0 <= q0 < 5 → 0 <= q1 < 64 → 0 <= q2 < 64 → 0 <= m < 64 →
    0x10000 <= q0 * 262144 + q1 * 4096 + q2 * 64 + m <= 0x10FFFF →
    encoding (q0 * 262144 + q1 * 4096 + q2 * 64 + m)
      [0xF0 + q0; 0x80 + q1; 0x80 + q2; 0x80 + m].

Lemma EncodeRune_encoding r : scalar r → encoding r (EncodeRune r).
Proof.
  intros Hr. unfold scalar in Hr. unfold EncodeRune.
  pose proof (Z.div_mod r 64). pose proof (Z.mod_pos_bound r 64).
  pose proof (Z.div_mod (r / 64) 64). pose proof (Z.mod_pos_bound (r / 64) 64).
  pose proof (Z.div_mod (r / 4096) 64). pose proof (Z.mod_pos_bound (r / 4096) 64).
  assert (r / 64 / 64 = r / 4096) by (by rewrite Z.div_div by lia).
  assert (r / 4096 / 64 = r / 262144) by (by rewrite Z.div_div by lia).
  assert (0 <= r / 64 ∧ 0 <= r / 4096 ∧ 0 <= r / 262144) as (?&?&?)
    by (split_and!; apply Z.div_pos; lia).
  destruct ((0 <=? r) && (r <? 128)) eqn:E1; [apply enc1; lia|].
  destruct ((128 <=? r) && (r <? 2048)) eqn:E2.
  { replace r with (r / 64 * 64 + r mod 64) at 1 by lia. apply enc2; lia. }
  bfalse ((r <? 0) || (1114111 <? r) || ((55296 <=? r) && (r <? 57344))).
  destruct (r <? 65536) eqn:E3.
  - assert (Hr' : r = r / 4096 * 4096 + r / 64 mod 64 * 64 + r mod 64) by lia.
    rewrite Hr' at 1. apply enc3; unfold scalar; lia.
  - assert (Hr' : r = r / 262144 * 262144 + r / 4096 mod 64 * 4096
      + r / 64 mod 64 * 64 + r mod 64) by lia.
    rewrite Hr' at 1. apply enc4; lia.
Qed.

Lemma encoding_decode r e s : encoding r e → DecodeRune (e ++ s) = (r, length e).
Proof.
  destruct 1; simpl app; simpl length.
  - simpl. btrue ((0 <=? r) && (r <? 128)). done.
  - by apply DecodeRune_2.
  - by apply DecodeRune_3.
  - by apply DecodeRune_4.
Qed.

Lemma DecodeRune_EncodeRune r s : scalar r →
  DecodeRune (EncodeRune r ++ s) = (r, length (EncodeRune r)).
Proof. intros Hr. by apply encoding_decode, EncodeRune_encoding. Qed.

(** An encoding is its ASCII byte, or starts with a byte above 0xC1. *)
Lemma encoding_cons r e : encoding r e →
  ∃ b t, e = b :: t ∧ (0 <= r < 0x80 ∧ b = r ∧ t = [] ∨ 0x80 <= r ∧ 0xC2 <= b < 0xF8).
Proof.
  intros He. destruct He; do 2 eexists; (split; [done|]); first [right; lia | left; split_and!; done || lia].
Qed.

Lemma encoding_bytes r e : encoding r e → Forall is_byte e.
Proof. destruct 1; repeat constructor; unfold is_byte; lia. Qed.

Lemma EncodeRune_not_nil r : EncodeRune r ≠ [].
Proof. unfold EncodeRune. utf8_cases; done. Qed.

Lemma EncodeRune_ascii r : 0 <= r < 0x80 → EncodeRune r = [r].
Proof. intros H. unfold EncodeRune. by btrue ((0 <=? r) && (r <? 128)). Qed.

(** ** The range loop *)
Lemma runes_from_drop k s : runes_from k s = runes (drop k s).
Proof.
  revert k. induction s as [|b s IH]; intros [|k]; try done. apply IH.
Qed.

Lemma runes_cons s : s ≠ [] →
  runes s = (DecodeRune s).1 :: runes (drop (DecodeRune s).2 s).
Proof.
  intros Hs. pose proof (DecodeRune_width s Hs). destruct s as [|b s]; [done|].
  unfold runes at 1. cbn [runes_from].
  destruct (DecodeRune (b :: s)) as [r w]; simpl in *.
  rewrite runes_from_drop. by destruct w; [lia|].
Qed.

Lemma runes_EncodeRune r s : scalar r → runes (EncodeRune r ++ s) = r :: runes s.
Proof.
  intros Hr. rewrite runes_cons by (pose proof (EncodeRune_not_nil r); by destruct (EncodeRune r)).
  rewrite DecodeRune_EncodeRune by done. simpl. by rewrite drop_app_length.
Qed.

Lemma runes_scalar s : Forall scalar (runes s).
Proof.
  induction s as [s IH] using list_length_ind.
  destruct (decide (s = [])) as [->|Hs]; [constructor|].
  rewrite runes_cons by done. pose proof (DecodeRune_width s Hs).
  constructor; [by apply DecodeRune_scalar|]. apply IH, length_drop_lt; [lia|done].
Qed.

Lemma runes_encode rs s : Forall scalar rs → runes ((rs ≫= EncodeRune) ++ s) = rs ++ runes s.
Proof.
  induction 1 as [|r rs Hr Hrs IH]; [done|]. rewrite bind_cons, <-app_assoc.
  rewrite runes_EncodeRune by done. by rewrite IH.
Qed.

Lemma runes_encode_nil rs : Forall scalar rs → runes (rs ≫= EncodeRune) = rs.
Proof. intros Hrs. pose proof (runes_encode rs [] Hrs) as H. by rewrite !app_nil_r in H. Qed.

Lemma runes_ToValid s : runes (ToValid s) = runes s.
Proof. apply runes_encode_nil, runes_scalar. Qed.

Lemma ToValid_valid s : valid_utf8 (ToValid s).
Proof. unfold valid_utf8. unfold ToValid at 1. by rewrite runes_ToValid. Qed.

Lemma encode_valid rs : Forall scalar rs → valid_utf8 (rs ≫= EncodeRune).
Proof.
  intros Hrs. unfold valid_utf8, ToValid. by rewrite runes_encode_nil.
Qed.

Lemma valid_utf8_iff s : valid_utf8 s ↔ ∃ rs, Forall scalar rs ∧ s = rs ≫= EncodeRune.
Proof.
  split; [|intros (rs&?&->); by apply encode_valid].
  intros Hs. exists (runes s). split; [apply runes_scalar|]. symmetry. apply Hs.
Qed.

Lemma valid_utf8_app s t : valid_utf8 s → valid_utf8 t → valid_utf8 (s ++ t).
Proof.
  rewrite !valid_utf8_iff. intros (rs&?&->) (ts&?&->). exists (rs ++ ts).
  by rewrite bind_app, Forall_app.
Qed.

Lemma valid_utf8_nil : valid_utf8 [].
Proof. done. Qed.

Lemma valid_utf8_ascii s : Forall (λ b, 0 <= b < 0x80) s → valid_utf8 s.
Proof.
  intros Hs. apply valid_utf8_iff. exists s. split.
  - eapply Forall_impl; [done|]. unfold scalar. simpl. lia.
  - induction Hs as [|b s Hb Hs IH]; [done|]. simpl. rewrite EncodeRune_ascii by done. simpl. by f_equal.
Qed.

Lemma valid_utf8_bytes s : valid_utf8 s → Forall is_byte s.
Proof.
  rewrite valid_utf8_iff. intros (rs&Hrs&->). induction Hrs as [|r rs Hr Hrs IH]; [constructor|].
  simpl. apply Forall_app. split; [|done]. by eapply encoding_bytes, EncodeRune_encoding.
Qed.

#[global] Arguments EncodeRune : simpl never.
#[global] Arguments DecodeRune : simpl never.

#[export] Hint Resolve ToValid_valid valid_utf8_app valid_utf8_nil encode_valid
  runes_scalar scalar_RuneError : opgate.

(** Worked instances: an overlong form, a surrogate and a truncated sequence
    are invalid, and each bad byte becomes one U+FFFD. *)
Example runes_invalid : runes [0xC0; 0x80; 0x41] = [RuneError; RuneError; 0x41].
Proof. reflexivity. Qed.
Example runes_surrogate : runes [0xED; 0xA0; 0x80] = [RuneError; RuneError; RuneError].
Proof. reflexivity. Qed.
Example runes_han : runes [0xE4; 0xBD; 0xA0; 0xE5; 0xA5; 0xBD] = [0x4F60; 0x597D].
Proof. reflexivity. Qed.
