(* ===== verification/GoBytes.v ===== *)
(** * The [bytes], [strings] and [strconv] functions the source uses

    Byte-sequence searching and trimming, with Go's behaviour at the edges:
    [IndexByte] reports absence, [TrimPrefix]/[TrimSuffix] leave a
    non-matching input unchanged, [TrimSpace] removes every Unicode white-space
    rune (not only the ASCII ones). *)
From S2P Require Import Prelude Utf8.

(** ** Prefixes and suffixes *)
Fixpoint strip_prefix (p s : bytes) : option bytes :=
  match p, s with
  | [], _ => Some s
  | a :: p', b :: s' => if a =? b then strip_prefix p' s' else None
  | _ :: _, [] => None
  end.

Definition HasPrefix (s p : bytes) : bool :=
  match strip_prefix p s with Some _ => true | None => false end.
Definition TrimPrefix (s p : bytes) : bytes := default s (strip_prefix p s).
Definition HasSuffix (s p : bytes) : bool := HasPrefix (reverse s) (reverse p).
Definition TrimSuffix (s p : bytes) : bytes :=
  match strip_prefix (reverse p) (reverse s) with Some r => reverse r | None => s end.

(** [strings.Contains]. *)
Fixpoint Contains (s sub : bytes) : bool :=
  HasPrefix s sub || match s with [] => false | _ :: s' => Contains s' sub end.

(** [bytes.IndexByte]: [None] is Go's -1. *)
Fixpoint IndexByte (s : bytes) (c : Z) : option nat :=
  match s with
  | [] => None
  | b :: s' => if b =? c then Some O else S <$> IndexByte s' c
  end.

(** [bytes.Join]. *)
Fixpoint Join (l : list bytes) (sep : bytes) : bytes :=
  match l with
  | [] => []
  | [x] => x
  | x :: l' => x ++ sep ++ Join l' sep
  end.

(** ** Decimal integers *)

Fixpoint digits_value (acc : Z) (s : bytes) : option Z :=
  match s with
  | [] => Some acc
  | c :: s' =>
    if (48 <=? c) && (c <=? 57) then digits_value (acc * 10 + (c - 48)) s' else None
  end.

(** [strconv.ParseInt(s, 10, 64)] and, on 64-bit platforms, [strconv.Atoi]:
    an optional sign, at least one digit, a value in the int64 range. *)
Definition ParseInt (s : bytes) : option Z :=
  '(neg, ds) ← match s with
    | [] => None
    | c :: s' => if c =? 45 then Some (true, s') else if c =? 43 then Some (false, s') else Some (false, s)
    end;
  match ds with
  | [] => None
  | _ =>
    n ← digits_value 0 ds;
    let v := if neg : bool then - n else n in
    if in_int64 v then Some v else None
  end.

(** [strconv.Itoa]; the fuel bounds the number of digits (20 are enough for
    64 bits, [digits_value_udec]). *)
Fixpoint udec (fuel : nat) (n : Z) (acc : bytes) : bytes :=
  match fuel with
  | O => acc
  | S fuel =>
    let acc := (48 + n mod 10) :: acc in
    if n / 10 =? 0 then acc else udec fuel (n / 10) acc
  end.
Definition Itoa (n : Z) : bytes := if n <? 0 then 45 :: udec 20 (- n) [] else udec 20 n [].

(** [fmt.Sprintf("%06d", n)] for a non-negative [n]. *)
Definition Sprintf_06d (n : Z) : bytes :=
  let d := Itoa n in replicate (6 - length d) 48 ++ d.

(** ** White space *)

(** The UTF-8 encodings of the runes [unicode.IsSpace] accepts. *)
Definition space_seqs : list bytes :=
  (EncodeRune <$> [0x09; 0x0A; 0x0B; 0x0C; 0x0D; 0x20; 0x85; 0xA0; 0x1680;
     0x2000; 0x2001; 0x2002; 0x2003; 0x2004; 0x2005; 0x2006; 0x2007; 0x2008;
     0x2009; 0x200A; 0x2028; 0x2029; 0x202F; 0x205F; 0x3000]).

(** The width of the white-space rune at the front of [s], 0 if there is none. *)
Fixpoint seq_width (seqs : list bytes) (s : bytes) : nat :=
  match seqs with
  | [] => O
  | e :: seqs' => if HasPrefix s e then length e else seq_width seqs' s
  end.

Fixpoint trim_left_from (seqs : list bytes) (skip : nat) (s : bytes) : bytes :=
  match s with
  | [] => []
  | _ :: s' =>
    match skip with
    | S k => trim_left_from seqs k s'
    | O => match seq_width seqs s with O => s | S k => trim_left_from seqs k s' end
    end
  end.

Definition TrimLeftSpace (s : bytes) : bytes := trim_left_from space_seqs 0 s.
Definition TrimRightSpace (s : bytes) : bytes :=
  reverse (trim_left_from (reverse <$> space_seqs) 0 (reverse s)).
Definition TrimSpace (s : bytes) : bytes := TrimRightSpace (TrimLeftSpace s).

(** ** Facts about prefixes *)
Lemma strip_prefix_Some p s t : strip_prefix p s = Some t ↔ s = p ++ t.
Proof.
  revert s. induction p as [|a p IH]; intros s; simpl.
  - naive_solver.
  - destruct s as [|b s]; [naive_solver|].
    destruct (Z.eqb_spec a b); [subst; rewrite IH; naive_solver|naive_solver].
Qed.

Lemma strip_prefix_app p t : strip_prefix p (p ++ t) = Some t.
Proof. by apply strip_prefix_Some. Qed.

Lemma HasPrefix_true s p : HasPrefix s p = true ↔ ∃ t, s = p ++ t.
Proof.
  unfold HasPrefix. destruct (strip_prefix p s) as [t|] eqn:E.
  - apply strip_prefix_Some in E. naive_solver.
  - split; [done|]. intros [t Ht%strip_prefix_Some]. congruence.
Qed.

Lemma HasPrefix_app p t : HasPrefix (p ++ t) p = true.
Proof. apply HasPrefix_true. eauto. Qed.

Lemma HasSuffix_true s p : HasSuffix s p = true ↔ ∃ t, s = t ++ p.
Proof.
  unfold HasSuffix. rewrite HasPrefix_true. split; intros [t Ht].
  - exists (reverse t). rewrite <-(reverse_involutive s), Ht, reverse_app. by rewrite reverse_involutive.
  - exists (reverse t). by rewrite Ht, reverse_app.
Qed.

Lemma TrimPrefix_app p t : TrimPrefix (p ++ t) p = t.
Proof. unfold TrimPrefix. by rewrite strip_prefix_app. Qed.

Lemma TrimSuffix_app t p : TrimSuffix (t ++ p) p = t.
Proof. unfold TrimSuffix. by rewrite reverse_app, strip_prefix_app, reverse_involutive. Qed.

Lemma TrimSuffix_none s p : (∀ t, s ≠ t ++ p) → TrimSuffix s p = s.
Proof.
  intros Hs. unfold TrimSuffix. destruct (strip_prefix _ _) as [r|] eqn:E; [|done].
  apply strip_prefix_Some in E. destruct (Hs (reverse r)).
  rewrite <-(reverse_involutive s), E, reverse_app. by rewrite reverse_involutive.
Qed.

Lemma TrimSuffix_not_last s c x : x ≠ c → TrimSuffix (s ++ [x]) [c] = s ++ [x].
Proof. intros Hx. apply TrimSuffix_none. intros t Ht. apply app_inj_tail in Ht. naive_solver. Qed.

(** ** Searching *)
Lemma IndexByte_None s c : IndexByte s c = None ↔ c ∉ s.
Proof.
  induction s as [|b s IH]; simpl; [set_solver|].
  destruct (Z.eqb_spec b c) as [->|Hne]; [set_solver|].
  destruct (IndexByte s c); simpl; set_solver.
Qed.

Lemma IndexByte_Some s c i :
  IndexByte s c = Some i ↔ c ∉ take i s ∧ s !! i = Some c.
Proof.
  revert i. induction s as [|b s IH]; intros i; simpl.
  { rewrite lookup_nil. naive_solver. }
  destruct (Z.eqb_spec b c) as [->|Hne].
  - destruct i as [|i]; simpl; [set_solver|]. split; [done|]. set_solver.
  - destruct i as [|i]; simpl.
    + destruct (IndexByte s c); simpl; naive_solver.
    + rewrite not_elem_of_cons, <-(and_assoc (c ≠ b)), <-IH.
      destruct (IndexByte s c); simpl; naive_solver.
Qed.

Lemma IndexByte_app s c t : c ∉ s → IndexByte (s ++ c :: t) c = Some (length s).
Proof.
  intros Hs. apply IndexByte_Some. rewrite take_app_length, list_lookup_middle by done. done.
Qed.

(** ** Decimal integers are read back *)

Lemma udec_spec fuel n acc : 0 <= n < 10 ^ Z.of_nat fuel → (0 < fuel)%nat →
  ∃ ds, udec fuel n acc = ds ++ acc ∧ Forall (λ c, 48 <= c <= 57) ds ∧
    (n = 0 ∧ ds = [48] ∨ 0 < n ∧ ∃ c t, ds = c :: t ∧ c ≠ 48) ∧
    ∃ k, 0 <= k ∧ ∀ a s, digits_value a (ds ++ s) = digits_value (a * 10 ^ k + n) s.
Proof.
  revert n acc. induction fuel as [|fuel IH]; intros n acc Hn Hf; [lia|]. cbn [udec].
  assert (0 <= n mod 10 < 10) as Hm by (apply Z.mod_pos_bound; lia).
  assert (∀ a s, digits_value a ([48 + n mod 10] ++ s) = digits_value (a * 10 + n mod 10) s) as Hd.
  { intros a s. cbn [digits_value app]. btrue ((48 <=? 48 + n mod 10) && (48 + n mod 10 <=? 57)). f_equal. lia. }
  destruct (Z.eqb_spec (n / 10) 0) as [E|E].
  - exists [48 + n mod 10]. rewrite Z.mod_small in * by (Z.div_mod_to_equations; lia). split_and!; [done|repeat constructor; lia| |].
    + destruct (decide (n = 0)) as [->|]; [by left|right]. split; [lia|]. do 2 eexists. split; [done|lia].
    + exists 1. split; [lia|]. intros a s. by rewrite Hd.
  - assert (0 < n / 10) by (Z.div_mod_to_equations; lia).
    destruct (IH (n / 10) ((48 + n mod 10) :: acc)) as (ds&->&Hds&Hhd&k&Hk&Hv).
    { rewrite Nat2Z.inj_succ, Z.pow_succ_r in Hn by lia. Z.div_mod_to_equations; lia. }
    { destruct fuel; [|lia]. cbn in Hn. Z.div_mod_to_equations; lia. }
    exists (ds ++ [48 + n mod 10]). split_and!.
    + by norm_app.
    + apply Forall_app. split; [done|]. repeat constructor; lia.
    + right. split; [Z.div_mod_to_equations; lia|]. destruct Hhd as [[? _]|[_ (c&t&->&Hc)]]; [lia|].
      exists c, (t ++ [48 + n mod 10]). done.
    + exists (k + 1). split; [lia|]. intros a s. rewrite <-app_assoc, Hv, Hd. f_equal.
      rewrite Z.pow_add_r by lia. pose proof (Z.div_mod n 10). nia.
Qed.

Lemma digits_value_zeros m s : digits_value 0 (replicate m 48 ++ s) = digits_value 0 s.
Proof. by induction m. Qed.

Lemma ParseInt_digits ds n : Forall (λ c, 48 <= c <= 57) ds → ds ≠ [] →
  digits_value 0 ds = Some n → - 2 ^ 63 <= n < 2 ^ 63 → ParseInt ds = Some n.
Proof.
  intros Hds Hne Hv Hn. unfold ParseInt. destruct Hds as [|c ds Hc Hds]; [done|].
  bfalse (c =? 45). bfalse (c =? 43). cbn [mbind option_bind]. rewrite Hv. cbn.
  unfold in_int64. by btrue ((- 2 ^ 63 <=? n) && (n <? 2 ^ 63)).
Qed.

(** The decimal digits of a non-negative number. *)
Lemma Itoa_digits n : 0 <= n < 10 ^ 20 → ∃ c t, Itoa n = c :: t ∧
  Forall (λ c, 48 <= c <= 57) (Itoa n) ∧ digits_value 0 (Itoa n) = Some n ∧ (c = 48 → t = []).
Proof.
  intros Hn. unfold Itoa. bfalse (n <? 0).
  destruct (udec_spec 20 n []) as (ds&->&Hds&Hhd&k&Hk&Hv); [done|lia|]. rewrite app_nil_r.
  specialize (Hv 0 []). rewrite app_nil_r in Hv.
  destruct Hhd as [[-> ->]|[_ (c&t&->&Hc)]]; do 2 eexists; (split_and!; [done|done|by rewrite Hv; cbn; f_equal; lia|done]).
Qed.

Lemma ParseInt_Itoa n : - 2 ^ 63 <= n < 2 ^ 63 → ParseInt (Itoa n) = Some n.
Proof.
  intros Hn. destruct (Z.ltb_spec n 0) as [Hneg|Hpos].
  - destruct (Itoa_digits (- n)) as (c&t&E&_&Hv&_); [lia|].
    assert (Itoa n = 45 :: Itoa (- n)) as -> by (unfold Itoa; btrue (n <? 0); by bfalse (- n <? 0)).
    unfold ParseInt. rewrite E in *. cbn [Z.eqb Pos.eqb mbind option_bind]. rewrite Hv. cbn [mbind option_bind].
    unfold in_int64. rewrite Z.opp_involutive. by btrue ((- 2 ^ 63 <=? n) && (n <? 2 ^ 63)).
  - destruct (Itoa_digits n) as (c&t&E&Hds&Hv&_); [lia|]. apply ParseInt_digits; [done|by rewrite E|done|done].
Qed.

Lemma ParseInt_Sprintf n : 0 <= n < 2 ^ 63 → ParseInt (Sprintf_06d n) = Some n.
Proof.
  intros Hn. destruct (Itoa_digits n) as (c&t&E&Hds&Hv&_); [lia|]. unfold Sprintf_06d.
  apply ParseInt_digits; [|by rewrite E; destruct (6 - _)%nat| |lia].
  - apply Forall_app. split; [|done]. by apply Forall_replicate.
  - by rewrite digits_value_zeros.
Qed.

Example Sprintf_ex : Sprintf_06d 42 = str "000042" ∧ Sprintf_06d 1234567 = str "1234567".
Proof. vm_compute. done. Qed.

(** ** White space at the ends of a text *)

(** A printable ASCII byte starts (and ends) no white-space rune. *)
Lemma seq_width_zero l b s :
  Forall (λ e, ∃ x e', e = x :: e' ∧ (x < 0x21 ∨ 0x80 <= x)) l →
  0x21 <= b < 0x80 → seq_width l (b :: s) = O.
Proof.
  intros Hl Hb. induction Hl as [|e l (x&e'&->&Hx) Hl IH]; [done|].
  simpl. unfold HasPrefix. simpl. by bfalse (x =? b).
Qed.

Lemma space_seqs_heads :
  Forall (λ e, ∃ x e', e = x :: e' ∧ (x < 0x21 ∨ 0x80 <= x)) space_seqs ∧
  Forall (λ e, ∃ x e', e = x :: e' ∧ (x < 0x21 ∨ 0x80 <= x)) (reverse <$> space_seqs).
Proof.
  split; vm_compute; repeat constructor; do 2 eexists; (split; [done|]);
    ((by left) || (right; by vm_compute)).
Qed.

Lemma trim_left_visible b s : 0x21 <= b < 0x80 → TrimLeftSpace (b :: s) = b :: s.
Proof.
  intros Hb. unfold TrimLeftSpace. cbn [trim_left_from].
  by rewrite seq_width_zero by (done || apply space_seqs_heads).
Qed.

Lemma trim_right_visible b s : 0x21 <= b < 0x80 → TrimRightSpace (s ++ [b]) = s ++ [b].
Proof.
  intros Hb. unfold TrimRightSpace. rewrite reverse_snoc. cbn [trim_left_from].
  rewrite seq_width_zero by (done || apply space_seqs_heads).
  by rewrite reverse_cons, reverse_involutive.
Qed.

(** A text that starts and ends with printable ASCII is left alone. *)
Lemma TrimSpace_visible s :
  (∃ b t, s = b :: t ∧ 0x21 <= b < 0x80) → (∃ b t, s = t ++ [b] ∧ 0x21 <= b < 0x80) →
  TrimSpace s = s.
Proof.
  intros (b&t&->&Hb) (e&u&Hu&He). unfold TrimSpace. rewrite trim_left_visible, Hu by done.
  by apply trim_right_visible.
Qed.

Example TrimSpace_ex : TrimSpace (str "  a b " ++ [10; 0xC2; 0xA0]) = str "a b".
Proof. reflexivity. Qed.
