(* ===== verification/Json.v ===== *)
(** * [encoding/json] as the source uses it

    The decoder: a byte-level parser with the scanner's rules (white space,
    escapes, number syntax, nesting limit 10000) whose tree keeps the raw text
    of every element ([json.RawMessage]); the Go values ([any]) it decodes to
    with [UseNumber]; [json.Marshal] for the values the gateway builds.
    [Decode] reads one value and ignores what follows, [Unmarshal] accepts only
    white space after the value. *)
From S2P Require Import Prelude Utf8 GoBytes.

(** ** Values *)

(** A parsed JSON text. Every element and member carries its raw text. *)
Inductive json : Type :=
| JNull
| JBool (b : bool)
| JNum (lex : bytes)
| JStr (s : bytes)
| JArr (es : list (bytes * json))
| JObj (ms : list (bytes * (bytes * json))).

(** The Go values of interface type the program handles.  A [map[string]any]
    is an association list without repeated keys; its order stands for Go's
    unspecified iteration order.  [AOther] is any other dynamic type. *)
Inductive any : Type :=
| ANull
| ABool (b : bool)
| ANum (lex : bytes)
| AStr (s : bytes)
| AArr (es : list any)
| AMap (m : list (bytes * any))
| AOther.

(** [m[k] = v] on an association list. *)
Fixpoint map_set {A} (k : bytes) (v : A) (m : list (bytes * A)) : list (bytes * A) :=
  match m with
  | [] => [(k, v)]
  | (k', v') :: m' =>
    if decide (k = k') then (k, v) :: m' else (k', v') :: map_set k v m'
  end.

Fixpoint map_get {A} (k : bytes) (m : list (bytes * A)) : option A :=
  match m with
  | [] => None
  | (k', v') :: m' => if decide (k = k') then Some v' else map_get k m'
  end.

(** The map built by setting the pairs of a list from left to right. *)
Definition map_of {A} (l : list (bytes * A)) : list (bytes * A) :=
  foldl (λ m p, map_set p.1 p.2 m) [] l.

(** Decoding into [any] (with [UseNumber]): a repeated key keeps the last value. *)
Fixpoint to_any (j : json) : any :=
  match j with
  | JNull => ANull
  | JBool b => ABool b
  | JNum l => ANum l
  | JStr s => AStr s
  | JArr es => AArr (map (λ '(_, e), to_any e) es)
  | JObj ms => AMap (map_of (map (λ '(k, (_, e)), (k, to_any e)) ms))
  end.

(** ** Scanner: white space, strings, numbers *)

Definition is_ws (c : Z) : bool := (c =? 32) || (c =? 9) || (c =? 10) || (c =? 13).

Fixpoint skip_ws (s : bytes) : bytes :=
  match s with
  | c :: s' => if is_ws c then skip_ws s' else s
  | [] => []
  end.

Definition is_digit (c : Z) : bool := (48 <=? c) && (c <=? 57).

Definition hex_val (c : Z) : option Z :=
  if is_digit c then Some (c - 48)
  else if (97 <=? c) && (c <=? 102) then Some (c - 87)
  else if (65 <=? c) && (c <=? 70) then Some (c - 55)
  else None.

(** The code unit of a [\uXXXX] escape at the front of [s] ([getu4]). *)
Definition getu4 (s : bytes) : option Z :=
  match s with
  | c0 :: c1 :: h1 :: h2 :: h3 :: h4 :: _ =>
    if (c0 =? 92) && (c1 =? 117) then
      x1 ← hex_val h1; x2 ← hex_val h2; x3 ← hex_val h3; x4 ← hex_val h4;
      Some (x1 * 4096 + x2 * 256 + x3 * 16 + x4)
    else None
  | _ => None
  end.

Definition is_surrogate (r : Z) : bool := (0xD800 <=? r) && (r <? 0xE000).

(** [utf16.DecodeRune]: [None] when the two units are no valid pair. *)
Definition surrogate_pair (r1 r2 : Z) : option Z :=
  if (0xD800 <=? r1) && (r1 <? 0xDC00) && (0xDC00 <=? r2) && (r2 <? 0xE000)
  then Some ((r1 - 0xD800) * 1024 + (r2 - 0xDC00) + 0x10000) else None.

Definition simple_escape (e : Z) : option Z :=
  if (e =? 34) || (e =? 92) || (e =? 47) then Some e
  else if e =? 98 then Some 8
  else if e =? 102 then Some 12
  else if e =? 110 then Some 10
  else if e =? 114 then Some 13
  else if e =? 116 then Some 9
  else None.

(** One character of a string literal: the bytes it decodes to and the number
    of input bytes after the first that belong to it. *)
Definition lex_char (s : bytes) : option (bytes * nat) :=
  match s with
  | [] => None
  | c :: s1 =>
    if c =? 92 then
      match s1 with
      | [] => None
      | e :: _ =>
        if e =? 117 then
          r ← getu4 s;
          if is_surrogate r then
            match getu4 (drop 6 s) ≫= surrogate_pair r with
            | Some r' => Some (EncodeRune r', 11%nat)
            | None => Some (EncodeRune RuneError, 5%nat)
            end
          else Some (EncodeRune r, 5%nat)
        else b ← simple_escape e; Some ([b], 1%nat)
      end
    else if c <? 32 then None
    else if c <? 128 then Some ([c], O)
    else let '(r, w) := DecodeRune s in Some (EncodeRune r, pred w)
  end.

(** The rest of a string literal after its opening quote: the decoded value
    and the input after the closing quote. *)
Fixpoint parse_string (skip : nat) (s : bytes) : option (bytes * bytes) :=
  match s with
  | [] => None
  | c :: s' =>
    match skip with
    | S k => parse_string k s'
    | O =>
      if c =? 34 then Some ([], s')
      else
        '(out, k) ← lex_char s;
        '(v, rest) ← parse_string k s';
        Some (out ++ v, rest)
    end
  end.

Fixpoint take_digits (s : bytes) : bytes * bytes :=
  match s with
  | c :: s' => if is_digit c then let '(ds, r) := take_digits s' in (c :: ds, r) else ([], s)
  | [] => ([], [])
  end.

Definition digits1 (s : bytes) : option (bytes * bytes) :=
  match take_digits s with ([], _) => None | p => Some p end.

Definition scan_int (s : bytes) : option (bytes * bytes) :=
  match s with
  | c :: s' => if c =? 48 then Some ([48], s') else digits1 s
  | [] => None
  end.

Definition scan_frac (s : bytes) : option (bytes * bytes) :=
  match s with
  | c :: s' => if c =? 46 then '(ds, r) ← digits1 s'; Some (46 :: ds, r) else Some ([], s)
  | [] => Some ([], [])
  end.

Definition scan_exp (s : bytes) : option (bytes * bytes) :=
  match s with
  | c :: s' =>
    if (c =? 101) || (c =? 69) then
      match s' with
      | g :: s'' =>
        if (g =? 43) || (g =? 45)
        then '(ds, r) ← digits1 s''; Some (c :: g :: ds, r)
        else '(ds, r) ← digits1 s'; Some (c :: ds, r)
      | [] => None
      end
    else Some ([], s)
  | [] => Some ([], [])
  end.

Definition scan_unsigned (s : bytes) : option (bytes * bytes) :=
  '(i, r1) ← scan_int s;
  '(f, r2) ← scan_frac r1;
  '(e, r3) ← scan_exp r2;
  Some (i ++ f ++ e, r3).

Definition scan_number (s : bytes) : option (bytes * bytes) :=
  match s with
  | c :: s' => if c =? 45 then '(l, r) ← scan_unsigned s'; Some (45 :: l, r) else scan_unsigned s
  | [] => None
  end.

(** ** Parser *)

Definition max_depth : Z := 10000.

(** The text consumed between [s] and its suffix [rest]. *)
Definition raw_of (s rest : bytes) : bytes := take (length s - length rest) s.

Fixpoint parse_value (n : nat) (d : Z) (s : bytes) : option (json * bytes) :=
  match n with
  | O => None
  | S n =>
    match skip_ws s with
    | [] => None
    | c :: s' =>
      if c =? 123 then
        if d <=? 0 then None else
        match skip_ws s' with
        | [] => None
        | c1 :: s1 =>
          if c1 =? 125 then Some (JObj [], s1)
          else '(ms, r) ← parse_members n (d - 1) (c1 :: s1); Some (JObj ms, r)
        end
      else if c =? 91 then
        if d <=? 0 then None else
        match skip_ws s' with
        | [] => None
        | c1 :: s1 =>
          if c1 =? 93 then Some (JArr [], s1)
          else '(es, r) ← parse_elems n (d - 1) (c1 :: s1); Some (JArr es, r)
        end
      else if c =? 34 then '(t, r) ← parse_string 0 s'; Some (JStr t, r)
      else if c =? 116 then r ← strip_prefix (str "rue") s'; Some (JBool true, r)
      else if c =? 102 then r ← strip_prefix (str "alse") s'; Some (JBool false, r)
      else if c =? 110 then r ← strip_prefix (str "ull") s'; Some (JNull, r)
      else '(l, r) ← scan_number (c :: s'); Some (JNum l, r)
    end
  end
with parse_elems (n : nat) (d : Z) (s : bytes) : option (list (bytes * json) * bytes) :=
  match n with
  | O => None
  | S n =>
    '(v, r) ← parse_value n d (skip_ws s);
    match skip_ws r with
    | [] => None
    | c :: r' =>
      let e := (raw_of (skip_ws s) r, v) in
      if c =? 44 then '(es, r'') ← parse_elems n d r'; Some (e :: es, r'')
      else if c =? 93 then Some ([e], r') else None
    end
  end
with parse_members (n : nat) (d : Z) (s : bytes) :
    option (list (bytes * (bytes * json)) * bytes) :=
  match n with
  | O => None
  | S n =>
    match skip_ws s with
    | [] => None
    | c :: s1 =>
      if c =? 34 then
        '(k, s2) ← parse_string 0 s1;
        match skip_ws s2 with
        | [] => None
        | c2 :: s3 =>
          if c2 =? 58 then
            '(v, r) ← parse_value n d (skip_ws s3);
            match skip_ws r with
            | [] => None
            | c4 :: r' =>
              let m := (k, (raw_of (skip_ws s3) r, v)) in
              if c4 =? 44 then '(ms, r'') ← parse_members n d r'; Some (m :: ms, r'')
              else if c4 =? 125 then Some ([m], r') else None
            end
          else None
        end
      else None
    end
  end.

(** Fuel: every two calls consume a byte ([parse_fuel_enough] below). *)
Definition fuel (s : bytes) : nat := S (S (2 * length s)).

(** [dec.UseNumber(); dec.Decode(&v)] on a reader over [s]. *)
Definition Decode (s : bytes) : option any :=
  '(j, _) ← parse_value (fuel s) max_depth s; Some (to_any j).

(** The tree of a complete JSON text ([json.Unmarshal]'s first pass). *)
Definition parse (s : bytes) : option json :=
  '(j, r) ← parse_value (fuel s) max_depth s;
  match skip_ws r with [] => Some j | _ => None end.

(** ** Typed decoding of the simple targets *)

(** [json.Unmarshal(raw, &s)] for a [string] target: null leaves it empty,
    any other kind is a type error. *)
Definition unmarshal_string (raw : bytes) : option bytes :=
  j ← parse raw;
  match j with JStr s => Some s | JNull => Some [] | _ => None end.

(** Into [map[string]json.RawMessage]. *)
Definition unmarshal_raw_map (raw : bytes) : option (list (bytes * bytes)) :=
  j ← parse raw;
  match j with
  | JObj ms => Some (map_of (map (λ '(k, (r, _)), (k, r)) ms))
  | JNull => Some []
  | _ => None
  end.

(** Into [[]json.RawMessage]. *)
Definition unmarshal_raw_slice (raw : bytes) : option (list bytes) :=
  j ← parse raw;
  match j with
  | JArr es => Some (es.*1)
  | JNull => Some []
  | _ => None
  end.

(** ** Field names *)

(** [foldName]: struct fields match object keys up to simple case folding.
    The only non-ASCII runes that fold to an ASCII letter are U+017F (s) and
    U+212A (k). *)
Definition fold_rune (r : Z) : Z :=
  if (97 <=? r) && (r <=? 122) then r - 32
  else if r =? 0x17F then 83
  else if r =? 0x212A then 75
  else r.
Definition fold_name (s : bytes) : list Z := fold_rune <$> runes s.
Definition field_is (name key : bytes) : bool := bool_decide (fold_name key = fold_name name).

(** ** Encoder *)

Definition hex_digit (v : Z) : Z := if v <? 10 then 48 + v else 87 + v.

(** [fmt]'s and [json]'s [\u00XX] for a code below 0x100. *)
Definition u00 (r : Z) : bytes := [92; 117; 48; 48; hex_digit (r / 16); hex_digit (r mod 16)].

(** [json.Marshal]'s rendering of one rune of width [w] (HTML escaping on). *)
Definition marshal_rune (r : Z) (w : nat) : bytes :=
  if r <? 128 then
    if (r =? 34) || (r =? 92) then [92; r]
    else if r =? 8 then [92; 98]
    else if r =? 12 then [92; 102]
    else if r =? 10 then [92; 110]
    else if r =? 13 then [92; 114]
    else if r =? 9 then [92; 116]
    else if (r <? 32) || (r =? 60) || (r =? 62) || (r =? 38) then u00 r
    else [r]
  else if (r =? RuneError) && (w =? 1)%nat then str "\ufffd"
  else if r =? 0x2028 then str "\u2028"
  else if r =? 0x2029 then str "\u2029"
  else EncodeRune r.

Fixpoint marshal_string_from (skip : nat) (s : bytes) : bytes :=
  match s with
  | [] => []
  | _ :: s' =>
    match skip with
    | S k => marshal_string_from k s'
    | O => let '(r, w) := DecodeRune s in marshal_rune r w ++ marshal_string_from (pred w) s'
    end
  end.
Definition marshal_string (s : bytes) : bytes := 34 :: marshal_string_from 0 s ++ [34].

(** Byte order on keys ([sort.Strings], [strings.Compare]). *)
Fixpoint bytes_leb (a b : bytes) : bool :=
  match a, b with
  | [], _ => true
  | _ :: _, [] => false
  | x :: a', y :: b' => if x =? y then bytes_leb a' b' else x <? y
  end.
Definition bytes_le (a b : bytes) : Prop := bytes_leb a b = true.
#[global] Instance bytes_le_dec : RelDecision bytes_le.
Proof. intros a b. unfold bytes_le. apply _. Defined.

Definition entry_le {A} (p q : bytes * A) : Prop := bytes_le p.1 q.1.
#[global] Instance entry_le_dec {A} : RelDecision (@entry_le A).
Proof. intros p q. unfold entry_le. apply _. Defined.

Definition sort_entries {A} (m : list (bytes * A)) : list (bytes * A) := merge_sort entry_le m.

(** A compact rendering with sorted keys, for a given rendering of strings. *)
Fixpoint render (quote : bytes → bytes) (v : any) : bytes :=
  match v with
  | ANull => str "null"
  | ABool true => str "true"
  | ABool false => str "false"
  | ANum l => l
  | AStr s => quote s
  | AArr es => [91] ++ Join (map (render quote) es) [44] ++ [93]
  | AMap m =>
    [123] ++ Join (map (λ '(k, t), quote k ++ 58 :: t)
                       (sort_entries (map (λ '(k, e), (k, render quote e)) m))) [44] ++ [125]
  | AOther => []
  end.

(** [json.Marshal] of a value without [AOther]. *)
Definition valid_number (l : bytes) : Prop := scan_number l = Some (l, []).
#[global] Instance valid_number_dec l : Decision (valid_number l).
Proof. unfold valid_number. apply _. Defined.

Fixpoint marshalable (v : any) : bool :=
  match v with
  | ANum l => bool_decide (valid_number l)
  | AArr es => forallb marshalable es
  | AMap m => forallb (λ '(_, e), marshalable e) m
  | AOther => false
  | _ => true
  end.

Definition Marshal (v : any) : option bytes :=
  if marshalable v then Some (render marshal_string v) else None.

(** ** Worked instances *)
Example decode_ex : Decode (js " {'b':1, 'a':[true,null,'x\n'], 'b':2.50e1 } rest")
  = Some (AMap [(str "b", ANum (str "2.50e1"));
                (str "a", AArr [ABool true; ANull; AStr [120; 10]])]).
Proof. vm_compute. reflexivity. Qed.
Example decode_surrogates : Decode (js "'\ud83d\ude00\ud83dx'")
  = Some (AStr ([0xF0; 0x9F; 0x98; 0x80] ++ [0xEF; 0xBF; 0xBD; 120])).
Proof. vm_compute. reflexivity. Qed.
Example decode_bad : Decode (js "{'a':01}") = None ∧ Decode (js "{'a':1,}") = None
  ∧ Decode (js "tru") = None ∧ Decode (js "'a") = None.
Proof. vm_compute. done. Qed.
Example parse_trailing : parse (js "1 2") = None ∧ Decode (js "1 2") = Some (ANum (str "1")).
Proof. vm_compute. done. Qed.
Example marshal_ex : Marshal (AMap [(str "z", AStr (str "<a>")); (str "c", ANull)])
  = Some (js "{'c':null,'z':'\u003ca\u003e'}").
Proof. vm_compute. reflexivity. Qed.
