(* ===== verification/JsonFacts.v ===== *)
(** * Facts about the JSON decoder

    Locality (what the parser reads is what it consumes, so the raw text of an
    element parses on its own to the same tree), fuel adequacy, monotonicity in
    the nesting allowance. *)
From S2P Require Import Prelude Utf8 GoBytes Json.

(** ** White space *)
Definition all_ws (w : bytes) : Prop := Forall (λ c, is_ws c = true) w.
Definition head_visible (s : bytes) : Prop := ∃ c t, s = c :: t ∧ is_ws c = false.

Lemma skip_ws_app w s : all_ws w → skip_ws (w ++ s) = skip_ws s.
Proof. induction 1 as [|c w Hc Hw IH]; [done|]. simpl. by rewrite Hc. Qed.

Lemma skip_ws_split s : ∃ w, all_ws w ∧ s = w ++ skip_ws s.
Proof.
  induction s as [|c s (w&Hw&E)]; [exists []; split; [constructor|done]|]. simpl.
  destruct (is_ws c) eqn:Ec.
  - exists (c :: w). split; [by constructor|]. simpl. by rewrite <-E.
  - exists []. split; [constructor|done].
Qed.

Lemma skip_ws_visible s : head_visible s → skip_ws s = s.
Proof. intros (c&t&->&Hc). simpl. by rewrite Hc. Qed.

Lemma skip_ws_cons_visible s c t : skip_ws s = c :: t → is_ws c = false.
Proof.
  induction s as [|b s IH]; simpl; [done|]. destruct (is_ws b) eqn:Eb; [done|].
  intros [= -> ->]. done.
Qed.

Lemma skip_ws_idem s : skip_ws (skip_ws s) = skip_ws s.
Proof.
  destruct (skip_ws s) as [|c t] eqn:E; [done|]. apply skip_ws_visible.
  exists c, t. split; [done|]. by eapply skip_ws_cons_visible.
Qed.

Lemma skip_ws_length s : (length (skip_ws s) <= length s)%nat.
Proof. destruct (skip_ws_split s) as (w&_&E). rewrite E at 2. rewrite length_app. lia. Qed.

Lemma skip_ws_decomp s c t :
  skip_ws s = c :: t → ∃ w, all_ws w ∧ s = w ++ c :: t ∧ is_ws c = false.
Proof.
  intros E. destruct (skip_ws_split s) as (w&Hw&E'). exists w. rewrite E in E'.
  split_and!; [done..|]. by eapply skip_ws_cons_visible.
Qed.

Lemma skip_ws_app_cons w c t : all_ws w → is_ws c = false → skip_ws (w ++ c :: t) = c :: t.
Proof. intros Hw Hc. rewrite skip_ws_app by done. simpl. by rewrite Hc. Qed.

(** ** Strings *)
Definition prep (out : bytes) (o : option (bytes * bytes)) : option (bytes * bytes) :=
  '(v, rest) ← o; Some (out ++ v, rest).

Lemma parse_string_drop k s : parse_string k s = parse_string 0 (drop k s).
Proof.
  revert k. induction s as [|c s IH]; intros k; [by destruct k|].
  destruct k as [|k]; [done|]. simpl drop. cbn [parse_string]. apply IH.
Qed.

Lemma parse_string_lex c s out k :
  c ≠ 34 → lex_char (c :: s) = Some (out, k) →
  parse_string 0 (c :: s) = prep out (parse_string 0 (drop k s)).
Proof.
  intros Hc E. cbn [parse_string]. destruct (Z.eqb_spec c 34); [done|].
  rewrite E. simpl. by rewrite parse_string_drop.
Qed.

Lemma getu4_local u t t' : getu4 (u ++ 34 :: t) = getu4 (u ++ 34 :: t').
Proof.
  assert (hex_val 34 = None) as H34 by done.
  destruct u as [|c0 [|c1 [|h1 [|h2 [|h3 [|h4 u]]]]]]; cbn [app getu4]; [..|done].
  all: unfold getu4; repeat (case_match; try done);
    repeat match goal with |- context [hex_val ?h ≫= _] => destruct (hex_val h); [|done]; cbn end;
    try done; simplify_eq; cbn in *; try lia.
  all: try (match goal with H : (_ && _) = true |- _ => apply andb_true_iff in H as [??] end; lia).
Qed.

Lemma DecodeRune_local c u t t' : DecodeRune (c :: u ++ 34 :: t) = DecodeRune (c :: u ++ 34 :: t').
Proof.
  destruct u as [|u1 [|u2 [|u3 u]]]; unfold DecodeRune; cbn [app];
    repeat (case_match; try done); simplify_eq; unfold cont in *; lia.
Qed.

Lemma lex_char_local c u t t' out k :
  lex_char (c :: u ++ 34 :: t) = Some (out, k) → (k <= length u)%nat →
  lex_char (c :: u ++ 34 :: t') = Some (out, k).
Proof.
  intros E Hk. unfold lex_char in *. destruct (c =? 92) eqn:Ec.
  - destruct u as [|e u]; cbn [app] in *.
    { cbn in E. simplify_eq. simpl in Hk. lia. }
    destruct (e =? 117) eqn:Ee.
    + change (c :: e :: u ++ 34 :: t') with ((c :: e :: u) ++ 34 :: t').
      change (c :: e :: u ++ 34 :: t) with ((c :: e :: u) ++ 34 :: t) in E.
      rewrite (getu4_local _ t' t). destruct (getu4 ((c :: e :: u) ++ 34 :: t)) as [r|]; [|done].
      cbn in *. destruct (is_surrogate r); [|done].
      assert (5 <= S (length u))%nat as Hlen.
      { destruct (getu4 _ ≫= _); simplify_eq; lia. }
      rewrite !drop_app_le in * by (simpl; lia). by rewrite (getu4_local _ t' t).
    + done.
  - destruct (c <? 32); [done|]. destruct (c <? 128); [done|]. by rewrite (DecodeRune_local c u t' t).
Qed.

Lemma parse_string_local s v rest :
  parse_string 0 s = Some (v, rest) →
  ∃ body, s = body ++ 34 :: rest ∧ ∀ rest', parse_string 0 (body ++ 34 :: rest') = Some (v, rest').
Proof.
  revert v rest. induction s as [s IH] using list_length_ind. intros v rest E.
  destruct s as [|c s]; [done|]. destruct (decide (c = 34)) as [->|Hc].
  { cbn in E. simplify_eq. by exists []. }
  destruct (lex_char (c :: s)) as [[out k]|] eqn:El.
  2:{ cbn [parse_string] in E. destruct (Z.eqb_spec c 34); [done|]. by rewrite El in E. }
  rewrite (parse_string_lex c s out k) in E by done.
  destruct (parse_string 0 (drop k s)) as [[v1 r1]|] eqn:E1; [|done]. cbn in E. simplify_eq.
  destruct (IH (drop k s)) with v1 rest as (body&Hb&Hl); [rewrite length_drop; simpl; lia|done|].
  assert (k <= length s)%nat.
  { apply (f_equal length) in Hb. rewrite length_drop, length_app in Hb. simpl in Hb. lia. }
  exists (c :: take k s ++ body). split.
  { simpl. f_equal. by rewrite <-app_assoc, <-Hb, take_drop. }
  intros rest'. cbn [app]. rewrite <-app_assoc.
  rewrite (parse_string_lex c (take k s ++ body ++ 34 :: rest') out k).
  - rewrite drop_app_length' by (by rewrite length_take_le). by rewrite Hl.
  - done.
  - rewrite app_assoc. eapply lex_char_local with rest.
    + by rewrite <-app_assoc, <-Hb, take_drop.
    + rewrite length_app, length_take_le by done. lia.
Qed.

(** Decoded strings are valid UTF-8, whatever the input. *)
Lemma lex_char_valid s out k : lex_char s = Some (out, k) → valid_utf8 out.
Proof.
  assert (∀ r, valid_utf8 (EncodeRune r)) as Hr.
  { intros r. destruct (decide (scalar r)) as [Hs|Hs].
    - apply valid_utf8_iff. exists [r]. split; [by constructor|]. by rewrite bind_cons, app_nil_r.
    - unfold scalar in Hs. unfold EncodeRune. bfalse ((0 <=? r) && (r <? 128)).
      bfalse ((128 <=? r) && (r <? 2048)).
      btrue ((r <? 0) || (1114111 <? r) || ((55296 <=? r) && (r <? 57344))). done. }
  destruct s as [|c s]; [done|]. unfold lex_char.
  destruct (c =? 92).
  - destruct s as [|e s]; [done|]. destruct (e =? 117).
    + destruct (getu4 (c :: e :: s)) as [r|]; cbn; [|done]. destruct (is_surrogate r).
      * destruct (getu4 _ ≫= _); intros; simplify_eq; apply Hr.
      * intros; simplify_eq; apply Hr.
    + destruct (simple_escape e) as [b|] eqn:Eb; cbn; [|done]. intros [= <- <-].
      apply valid_utf8_ascii, Forall_singleton. unfold simple_escape in Eb.
      repeat case_match; simplify_eq; lia.
  - destruct (Z.ltb_spec c 32); [done|]. destruct (Z.ltb_spec c 128).
    + intros; simplify_eq. apply valid_utf8_ascii, Forall_singleton. lia.
    + destruct (DecodeRune _). intros; simplify_eq. apply Hr.
Qed.

Lemma parse_string_valid s v rest : parse_string 0 s = Some (v, rest) → valid_utf8 v.
Proof.
  revert v rest. induction s as [s IH] using list_length_ind. intros v rest E.
  destruct s as [|c s]; [done|]. destruct (decide (c = 34)) as [->|Hc].
  { cbn in E. simplify_eq. auto with opgate. }
  destruct (lex_char (c :: s)) as [[out k]|] eqn:El.
  2:{ cbn [parse_string] in E. destruct (Z.eqb_spec c 34); [done|]. by rewrite El in E. }
  rewrite (parse_string_lex c s out k) in E by done.
  destruct (parse_string 0 (drop k s)) as [[v1 r1]|] eqn:E1; [|done]. cbn in E. simplify_eq.
  apply valid_utf8_app; [by eapply lex_char_valid|].
  eapply IH; [|done]. rewrite length_drop. simpl. lia.
Qed.

(** ** Numbers *)

(** The byte after a number literal does not continue it. *)
Definition num_end (s : bytes) : Prop :=
  match s with
  | [] => True
  | c :: _ => is_digit c = false ∧ c ≠ 46 ∧ c ≠ 101 ∧ c ≠ 69
  end.

Definition no_digit (s : bytes) : Prop :=
  match s with [] => True | c :: _ => is_digit c = false end.

Lemma num_end_no_digit s : num_end s → no_digit s.
Proof. destruct s; simpl; naive_solver. Qed.

Lemma take_digits_local s ds r : take_digits s = (ds, r) →
  s = ds ++ r ∧ no_digit r ∧ ∀ r', no_digit r' → take_digits (ds ++ r') = (ds, r').
Proof.
  revert ds r. induction s as [|c s IH]; simpl; intros ds r E.
  { simplify_eq. split_and!; [done..|]. intros [|c' r'] Hr'; simpl in *; [done|]. by rewrite Hr'. }
  destruct (is_digit c) eqn:Ec.
  - destruct (take_digits s) as [ds1 r1]. simplify_eq.
    destruct (IH _ _ eq_refl) as (->&?&Hl). split_and!; [done..|]. intros r' Hr'. simpl.
    by rewrite Ec, Hl.
  - simplify_eq. simpl. split_and!; [done..|]. intros [|c' r'] Hr'; simpl in *; [done|]. by rewrite Hr'.
Qed.

Lemma digits1_local s ds r : digits1 s = Some (ds, r) →
  s = ds ++ r ∧ ds ≠ [] ∧ no_digit r ∧ ∀ r', no_digit r' → digits1 (ds ++ r') = Some (ds, r').
Proof.
  unfold digits1. destruct (take_digits s) as [ds1 r1] eqn:E. intros H.
  apply take_digits_local in E as (->&?&Hl). destruct ds1; simplify_eq.
  split_and!; [done..|]. intros r' Hr'. by rewrite Hl.
Qed.

Lemma scan_int_local s i r : scan_int s = Some (i, r) →
  s = i ++ r ∧ i ≠ [] ∧ ∀ r', no_digit r' → scan_int (i ++ r') = Some (i, r').
Proof.
  destruct s as [|c s]; [done|]. unfold scan_int. destruct (Z.eqb_spec c 48) as [->|Hc].
  - intros [= <- <-]. done.
  - intros (E&Hne&_&Hl)%digits1_local.
    destruct i as [|c' i]; [done|]. injection E as -> ->. split_and!; [done..|].
    intros r' Hr'. cbn [app]. destruct (Z.eqb_spec c' 48); [done|]. by apply Hl.
Qed.

Lemma scan_frac_local s f r : scan_frac s = Some (f, r) →
  s = f ++ r ∧
  (f = [] ∧ (∀ r', (∀ c t, r' = c :: t → c ≠ 46) → scan_frac r' = Some ([], r')) ∨
   (∃ f', f = 46 :: f') ∧ ∀ r', no_digit r' → scan_frac (f ++ r') = Some (f, r')).
Proof.
  assert (∀ r', (∀ c t, r' = c :: t → c ≠ 46) → scan_frac r' = Some ([], r')) as Hnil.
  { intros [|c t] Hr'; [done|]. simpl. destruct (Z.eqb_spec c 46); [naive_solver|done]. }
  destruct s as [|c s]; unfold scan_frac at 1; [intros [= <- <-]; auto|].
  destruct (Z.eqb_spec c 46) as [->|Hc]; [|intros [= <- <-]; auto].
  destruct (digits1 s) as [[ds r1]|] eqn:E; cbn; [|done]. intros [= <- <-].
  apply digits1_local in E as (->&Hne&_&Hl). split; [done|]. right. split; [eauto|].
  intros r' Hr'. simpl. by rewrite Hl.
Qed.

Lemma scan_exp_local s e r : scan_exp s = Some (e, r) →
  s = e ++ r ∧
  (e = [] ∧ (∀ r', (∀ c t, r' = c :: t → c ≠ 101 ∧ c ≠ 69) → scan_exp r' = Some ([], r')) ∨
   (∃ c e', e = c :: e' ∧ (c = 101 ∨ c = 69)) ∧
   ∀ r', no_digit r' → scan_exp (e ++ r') = Some (e, r')).
Proof.
  assert (∀ r', (∀ c t, r' = c :: t → c ≠ 101 ∧ c ≠ 69) → scan_exp r' = Some ([], r')) as Hnil.
  { intros [|c t] Hr'; [done|]. destruct (Hr' c t eq_refl). simpl.
    by bfalse ((c =? 101) || (c =? 69)). }
  destruct s as [|c s]; unfold scan_exp at 1; [intros [= <- <-]; auto|].
  destruct ((c =? 101) || (c =? 69)) eqn:Hc; [|intros [= <- <-]; auto].
  destruct s as [|g s]; [done|]. destruct ((g =? 43) || (g =? 45)) eqn:Hg.
  - destruct (digits1 s) as [[ds r1]|] eqn:E; cbn; [|done]. intros [= <- <-].
    apply digits1_local in E as (->&Hne&_&Hl). split; [done|]. right. split.
    { do 2 eexists; split; [done|lia]. }
    intros r' Hr'. simpl. rewrite Hc, Hg. by rewrite Hl.
  - destruct (digits1 (g :: s)) as [[ds r1]|] eqn:E; cbn; [|done]. intros [= <- <-].
    apply digits1_local in E as (E&Hne&_&Hl). destruct ds as [|g' ds]; [done|].
    injection E as <- ->. split; [done|]. right. split.
    { do 2 eexists; split; [done|lia]. }
    intros r' Hr'. specialize (Hl r' Hr'). cbn [app] in *. simpl. by rewrite Hc, Hg, Hl.
Qed.

Lemma scan_unsigned_local s l r : scan_unsigned s = Some (l, r) →
  s = l ++ r ∧ l ≠ [] ∧ ∀ r', num_end r' → scan_unsigned (l ++ r') = Some (l, r').
Proof.
  unfold scan_unsigned. destruct (scan_int s) as [[i r1]|] eqn:E1; cbn; [|done].
  destruct (scan_frac r1) as [[f r2]|] eqn:E2; cbn; [|done].
  destruct (scan_exp r2) as [[e r3]|] eqn:E3; cbn; [|done]. intros [= <- <-].
  apply scan_int_local in E1 as (->&Hne&Hi). apply scan_frac_local in E2 as (->&Hf).
  apply scan_exp_local in E3 as (->&He).
  split_and!; [by rewrite !app_assoc|by destruct i|]. intros r' Hr'.
  rewrite <-!app_assoc. rewrite Hi; cbn.
  2:{ destruct Hf as [[-> _]|[(f'&->) _]]; [|done].
      destruct He as [[-> _]|[(c&e'&->&Hc) _]]; [by apply num_end_no_digit|].
      simpl. unfold is_digit. lia. }
  assert (scan_frac (f ++ e ++ r') = Some (f, e ++ r')) as ->; cbn.
  { destruct Hf as [[-> Hf]|[_ Hf]]; apply Hf.
    - destruct He as [[-> _]|[(c&e'&->&Hc) _]].
      + intros c t [= ->]. simpl in Hr'. naive_solver.
      + intros c1 t [= <- _]. lia.
    - destruct He as [[-> _]|[(c&e'&->&Hc) _]]; [by apply num_end_no_digit|].
      simpl. unfold is_digit. lia. }
  assert (scan_exp (e ++ r') = Some (e, r')) as ->; [|done].
  destruct He as [[-> He]|[_ He]]; apply He.
  - intros c t [= ->]. simpl in Hr'. naive_solver.
  - by apply num_end_no_digit.
Qed.

Lemma scan_number_local s l r : scan_number s = Some (l, r) →
  s = l ++ r ∧ l ≠ [] ∧ ∀ r', num_end r' → scan_number (l ++ r') = Some (l, r').
Proof.
  destruct s as [|c s]; [done|]. unfold scan_number at 1. destruct (Z.eqb_spec c 45) as [->|Hc].
  - destruct (scan_unsigned s) as [[l1 r1]|] eqn:E; cbn; [|done]. intros [= <- <-].
    apply scan_unsigned_local in E as (->&Hne&Hl). split_and!; [done..|].
    intros r' Hr'. simpl. by rewrite Hl.
  - intros (E&Hne&Hl)%scan_unsigned_local. destruct l as [|c' l]; [done|].
    injection E as <- ->. split_and!; [done..|]. intros r' Hr'. simpl.
    destruct (Z.eqb_spec c 45); [done|]. by apply (Hl r').
Qed.

Lemma scan_number_valid s l r : scan_number s = Some (l, r) → valid_number l.
Proof. intros (_&_&Hl)%scan_number_local. specialize (Hl [] I). by rewrite app_nil_r in Hl. Qed.

(** ** The parser *)
#[global] Arguments scan_number : simpl never.
#[global] Arguments lex_char : simpl never.
#[global] Arguments raw_of : simpl never.

Lemma raw_of_app pre r : raw_of (pre ++ r) r = pre.
Proof.
  unfold raw_of. rewrite length_app. replace (length pre + length r - length r)%nat with (length pre) by lia.
  apply take_app_length.
Qed.

Lemma num_end_ws w c t : all_ws w → (c = 44 ∨ c = 93 ∨ c = 125) → num_end (w ++ c :: t).
Proof.
  intros Hw Hc. destruct w as [|b w]; simpl.
  - unfold is_digit. lia.
  - apply Forall_cons in Hw as [Hb _]. unfold is_ws, is_digit in *. lia.
Qed.

Lemma head_visible_app a b : head_visible a → head_visible (a ++ b).
Proof. intros (c&t&->&Hc). exists c, (t ++ b). done. Qed.

(** What each parsing function consumes, as a text [pre] that gives the same
    result in any continuation that does not extend it, with enough fuel. *)
Definition value_local (n : nat) : Prop := ∀ d s v r,
  parse_value n d s = Some (v, r) →
  ∃ pre, skip_ws s = pre ++ r ∧ head_visible pre ∧
  ∀ m d' s' r', skip_ws s' = pre ++ r' → num_end r' ∨ r' = r → d <= d' →
    (2 * length (pre ++ r') + 1 <= m)%nat → parse_value m d' s' = Some (v, r').

Definition elems_local (n : nat) : Prop := ∀ d s es r,
  parse_elems n d s = Some (es, r) →
  ∃ pre, skip_ws s = pre ++ r ∧ head_visible pre ∧
  ∀ m d' s' r', skip_ws s' = pre ++ r' → d <= d' →
    (2 * length (pre ++ r') + 2 <= m)%nat → parse_elems m d' s' = Some (es, r').

Definition members_local (n : nat) : Prop := ∀ d s ms r,
  parse_members n d s = Some (ms, r) →
  ∃ pre, skip_ws s = pre ++ r ∧ head_visible pre ∧
  ∀ m d' s' r', skip_ws s' = pre ++ r' → d <= d' →
    (2 * length (pre ++ r') + 2 <= m)%nat → parse_members m d' s' = Some (ms, r').

(** The scalar values: everything but objects and arrays. *)
Definition parse_scalar (c : Z) (s' : bytes) : option (json * bytes) :=
  if c =? 34 then '(t, r) ← parse_string 0 s'; Some (JStr t, r)
  else if c =? 116 then r ← strip_prefix (str "rue") s'; Some (JBool true, r)
  else if c =? 102 then r ← strip_prefix (str "alse") s'; Some (JBool false, r)
  else if c =? 110 then r ← strip_prefix (str "ull") s'; Some (JNull, r)
  else '(l, r) ← scan_number (c :: s'); Some (JNum l, r).

Lemma parse_value_scalar n d s c s' : skip_ws s = c :: s' → c ≠ 123 → c ≠ 91 →
  parse_value (S n) d s = parse_scalar c s'.
Proof.
  intros E H1 H2. cbn [parse_value]. rewrite E.
  destruct (Z.eqb_spec c 123); [done|]. destruct (Z.eqb_spec c 91); [done|]. done.
Qed.

Lemma parse_scalar_local c s' v r : parse_scalar c s' = Some (v, r) →
  ∃ pre, s' = pre ++ r ∧
  ∀ r', num_end r' ∨ r' = r → parse_scalar c (pre ++ r') = Some (v, r').
Proof.
  assert (∀ lit v0, (r ← strip_prefix lit s'; Some (v0, r)) = Some (v, r) →
    ∃ pre, s' = pre ++ r ∧ ∀ r', (r ← strip_prefix lit (pre ++ r'); Some (v0, r)) = Some (v, r')) as Hlit.
  { intros lit v0. destruct (strip_prefix lit s') as [r1|] eqn:E; cbn; [|done]. intros [= <- <-].
    apply strip_prefix_Some in E. exists lit. split; [done|]. intros r'. by rewrite strip_prefix_app. }
  unfold parse_scalar. destruct (c =? 34).
  { destruct (parse_string 0 s') as [[t r1]|] eqn:E; cbn; [|done]. intros [= <- <-].
    apply parse_string_local in E as (body&->&Hl). exists (body ++ [34]).
    rewrite <-app_assoc. split; [done|]. intros r' _. rewrite <-app_assoc. cbn [app]. by rewrite Hl. }
  destruct (c =? 116); [intros (pre&?&?)%Hlit; eauto|].
  destruct (c =? 102); [intros (pre&?&?)%Hlit; eauto|].
  destruct (c =? 110); [intros (pre&?&?)%Hlit; eauto|].
  destruct (scan_number (c :: s')) as [[l r1]|] eqn:E; cbn; [|done]. intros [= <- <-].
  pose proof E as E0. apply scan_number_local in E as (E&Hne&Hl). destruct l as [|c' l]; [done|].
  injection E as <- ->. exists l. split; [done|]. intros r' Hr'.
  assert (scan_number (c :: l ++ r') = Some (c :: l, r')) as Hn.
  { destruct Hr' as [Hr'| ->]; [by apply (Hl r')|done]. }
  by rewrite Hn.
Qed.

Lemma elems_step n : value_local n → elems_local n → elems_local (S n).
Proof.
  intros Hv He d s es r E. cbn [parse_elems] in E.
  destruct (parse_value n d (skip_ws s)) as [[v r1]|] eqn:E1; cbn in E; [|done].
  destruct (skip_ws r1) as [|c r2] eqn:E2; [done|].
  apply Hv in E1 as (pv&Epv&Hpv&Lv). rewrite skip_ws_idem in Epv. rewrite Epv, raw_of_app in E.
  apply skip_ws_decomp in E2 as (w&Hw&->&Hc).
  destruct (Z.eqb_spec c 44) as [->|Hc44].
  - destruct (parse_elems n d r2) as [[es1 r3]|] eqn:E3; cbn in E; [|done]. simplify_eq.
    apply He in E3 as (pe&Epe&Hpe&Le). destruct (skip_ws_split r2) as (w2&Hw2&Er2).
    rewrite Epe in Er2. subst r2.
    exists (pv ++ w ++ 44 :: w2 ++ pe). norm_app. split_and!; [done|by apply head_visible_app|].
    intros m d' s' r' Es' Hd Hm. destruct m as [|m]; [len|]. norm_app_in Es'. cbn [parse_elems].
    rewrite (Lv m d' (skip_ws s') (w ++ 44 :: w2 ++ pe ++ r')); cbn;
      [|by rewrite skip_ws_idem|by left; apply num_end_ws; auto|done|len].
    rewrite skip_ws_app_cons, Es', raw_of_app, Z.eqb_refl by done.
    rewrite (Le m d' _ r'); [done| |done|len].
    rewrite skip_ws_app by done. by apply skip_ws_visible, head_visible_app.
  - destruct (Z.eqb_spec c 93) as [->|]; [|done]. simplify_eq.
    exists (pv ++ w ++ [93]). norm_app. split_and!; [done|by apply head_visible_app|].
    intros m d' s' r' Es' Hd Hm. destruct m as [|m]; [len|]. norm_app_in Es'. cbn [parse_elems].
    rewrite (Lv m d' (skip_ws s') (w ++ 93 :: r')); cbn;
      [|by rewrite skip_ws_idem|by left; apply num_end_ws; auto|done|len].
    by rewrite skip_ws_app_cons, Es', raw_of_app by done.
Qed.

Lemma members_step n : value_local n → members_local n → members_local (S n).
Proof.
  intros Hv He d s ms r E. cbn [parse_members] in E.
  destruct (skip_ws s) as [|c s1] eqn:Es; [done|].
  destruct (Z.eqb_spec c 34) as [->|]; [|done].
  destruct (parse_string 0 s1) as [[k s2]|] eqn:Ek; cbn in E; [|done].
  destruct (skip_ws s2) as [|c2 s3] eqn:E2; [done|].
  destruct (Z.eqb_spec c2 58) as [->|]; [|done].
  destruct (parse_value n d (skip_ws s3)) as [[v r1]|] eqn:E1; cbn in E; [|done].
  destruct (skip_ws r1) as [|c r2] eqn:E3; [done|].
  apply parse_string_local in Ek as (key&->&Lk).
  apply skip_ws_decomp in E2 as (w1&Hw1&->&_).
  apply Hv in E1 as (pv&Epv&Hpv&Lv). rewrite skip_ws_idem in Epv. rewrite Epv, raw_of_app in E.
  destruct (skip_ws_split s3) as (w2&Hw2&Es3). rewrite Epv in Es3. subst s3.
  apply skip_ws_decomp in E3 as (w3&Hw3&->&Hc).
  destruct (Z.eqb_spec c 44) as [->|Hc44].
  - destruct (parse_members n d r2) as [[ms1 r3]|] eqn:E4; cbn in E; [|done]. simplify_eq.
    apply He in E4 as (pe&Epe&Hpe&Le). destruct (skip_ws_split r2) as (w4&Hw4&Er2).
    rewrite Epe in Er2. subst r2.
    exists (34 :: key ++ 34 :: w1 ++ 58 :: w2 ++ pv ++ w3 ++ 44 :: w4 ++ pe). norm_app.
    split_and!; [done|by do 2 eexists|].
    intros m d' s' r' Es' Hd Hm. destruct m as [|m]; [len|]. norm_app_in Es'. cbn [parse_members].
    rewrite Es', Z.eqb_refl, Lk; cbn. rewrite skip_ws_app_cons, Z.eqb_refl by done.
    assert (∀ x, skip_ws (w2 ++ pv ++ x) = pv ++ x) as Hx.
    { intros x. rewrite skip_ws_app by done. by apply skip_ws_visible, head_visible_app. }
    rewrite Hx, (Lv m d' _ (w3 ++ 44 :: w4 ++ pe ++ r')); cbn;
      [|by apply skip_ws_visible, head_visible_app|by left; apply num_end_ws; auto|done|len].
    rewrite skip_ws_app_cons, raw_of_app, Z.eqb_refl by done.
    rewrite (Le m d' _ r'); [done| |done|len].
    rewrite skip_ws_app by done. by apply skip_ws_visible, head_visible_app.
  - destruct (Z.eqb_spec c 125) as [->|]; [|done]. simplify_eq.
    exists (34 :: key ++ 34 :: w1 ++ 58 :: w2 ++ pv ++ w3 ++ [125]). norm_app.
    split_and!; [done|by do 2 eexists|].
    intros m d' s' r' Es' Hd Hm. destruct m as [|m]; [len|]. norm_app_in Es'. cbn [parse_members].
    rewrite Es', Z.eqb_refl, Lk; cbn. rewrite skip_ws_app_cons, Z.eqb_refl by done.
    rewrite skip_ws_app, skip_ws_visible by (done || by apply head_visible_app).
    rewrite (Lv m d' _ (w3 ++ 125 :: r')); cbn;
      [|by apply skip_ws_visible, head_visible_app|by left; apply num_end_ws; auto|done|len].
    by rewrite skip_ws_app_cons, raw_of_app by done.
Qed.

Lemma object_step n d s s1 v r : members_local n →
  skip_ws s = 123 :: s1 → parse_value (S n) d s = Some (v, r) →
  ∃ pre, skip_ws s = pre ++ r ∧ head_visible pre ∧
  ∀ m d' s' r', skip_ws s' = pre ++ r' → num_end r' ∨ r' = r → d <= d' →
    (2 * length (pre ++ r') + 1 <= m)%nat → parse_value m d' s' = Some (v, r').
Proof.
  intros Hm Es E. cbn [parse_value] in E. rewrite Es in E |- *. cbn in E.
  destruct (Z.leb_spec d 0); [done|]. destruct (skip_ws s1) as [|c1 s2] eqn:E1; [done|].
  apply skip_ws_decomp in E1 as (w&Hw&->&Hc1).
  destruct (Z.eqb_spec c1 125) as [->|Hne]; simplify_eq.
  - exists (123 :: w ++ [125]). norm_app. split_and!; [done|by do 2 eexists|].
    intros m d' s' r' Es' _ Hd Hlen. destruct m as [|m]; [len|]. norm_app_in Es'.
    cbn [parse_value]. rewrite Es'. cbn. destruct (Z.leb_spec d' 0); [lia|].
    by rewrite skip_ws_app_cons by done.
  - destruct (parse_members n (d - 1) (c1 :: s2)) as [[ms r1]|] eqn:E2; cbn in E; [|done]. simplify_eq.
    apply Hm in E2 as (pm&Epm&Hpm&Lm). rewrite skip_ws_visible in Epm by (by do 2 eexists).
    rewrite Epm. exists (123 :: w ++ pm). norm_app. split_and!; [done|by do 2 eexists|].
    intros m d' s' r' Es' _ Hd Hlen. destruct m as [|m]; [len|]. norm_app_in Es'.
    cbn [parse_value]. rewrite Es'. cbn. destruct (Z.leb_spec d' 0); [lia|].
    destruct Hpm as (c2&t2&->&Hc2). injection Epm as <- Epm. cbn [app].
    rewrite skip_ws_app_cons by done. destruct (Z.eqb_spec c1 125); [done|].
    rewrite (Lm m (d' - 1) _ r'); [done| |lia|len]. apply skip_ws_visible. by do 2 eexists.
Qed.

Lemma array_step n d s s1 v r : elems_local n →
  skip_ws s = 91 :: s1 → parse_value (S n) d s = Some (v, r) →
  ∃ pre, skip_ws s = pre ++ r ∧ head_visible pre ∧
  ∀ m d' s' r', skip_ws s' = pre ++ r' → num_end r' ∨ r' = r → d <= d' →
    (2 * length (pre ++ r') + 1 <= m)%nat → parse_value m d' s' = Some (v, r').
Proof.
  intros He Es E. cbn [parse_value] in E. rewrite Es in E |- *. cbn in E.
  destruct (Z.leb_spec d 0); [done|]. destruct (skip_ws s1) as [|c1 s2] eqn:E1; [done|].
  apply skip_ws_decomp in E1 as (w&Hw&->&Hc1).
  destruct (Z.eqb_spec c1 93) as [->|Hne]; simplify_eq.
  - exists (91 :: w ++ [93]). norm_app. split_and!; [done|by do 2 eexists|].
    intros m d' s' r' Es' _ Hd Hlen. destruct m as [|m]; [len|]. norm_app_in Es'.
    cbn [parse_value]. rewrite Es'. cbn. destruct (Z.leb_spec d' 0); [lia|].
    by rewrite skip_ws_app_cons by done.
  - destruct (parse_elems n (d - 1) (c1 :: s2)) as [[es r1]|] eqn:E2; cbn in E; [|done]. simplify_eq.
    apply He in E2 as (pm&Epm&Hpm&Lm). rewrite skip_ws_visible in Epm by (by do 2 eexists).
    rewrite Epm. exists (91 :: w ++ pm). norm_app. split_and!; [done|by do 2 eexists|].
    intros m d' s' r' Es' _ Hd Hlen. destruct m as [|m]; [len|]. norm_app_in Es'.
    cbn [parse_value]. rewrite Es'. cbn. destruct (Z.leb_spec d' 0); [lia|].
    destruct Hpm as (c2&t2&->&Hc2). injection Epm as <- Epm. cbn [app].
    rewrite skip_ws_app_cons by done. destruct (Z.eqb_spec c1 93); [done|].
    rewrite (Lm m (d' - 1) _ r'); [done| |lia|len]. apply skip_ws_visible. by do 2 eexists.
Qed.

Lemma value_step n : elems_local n → members_local n → value_local (S n).
Proof.
  intros He Hm d s v r E. destruct (skip_ws s) as [|c s1] eqn:Es.
  { cbn [parse_value] in E. by rewrite Es in E. }
  pose proof (skip_ws_cons_visible _ _ _ Es) as Hc.
  destruct (decide (c = 123)) as [->|H1]; [rewrite <-Es; by eapply object_step|].
  destruct (decide (c = 91)) as [->|H2]; [rewrite <-Es; by eapply array_step|].
  rewrite (parse_value_scalar n d s c s1) in E by done.
  apply parse_scalar_local in E as (pre&->&L). exists (c :: pre). norm_app.
  split_and!; [done|by do 2 eexists|]. intros m d' s' r' Es' Hr' _ Hlen.
  destruct m as [|m]; [len|]. norm_app_in Es'.
  rewrite (parse_value_scalar m d' s' c (pre ++ r')) by done. by apply L.
Qed.

Lemma parse_local n : value_local n ∧ elems_local n ∧ members_local n.
Proof.
  induction n as [|n (Hv&He&Hm)]; [by repeat split|].
  split_and!; [by apply value_step|by apply elems_step|by apply members_step].
Qed.

(** The parser consumes a non-empty text and nothing but that text matters. *)
Lemma parse_value_local n d s v r : parse_value n d s = Some (v, r) →
  ∃ pre, skip_ws s = pre ++ r ∧ head_visible pre ∧
  ∀ m d' s' r', skip_ws s' = pre ++ r' → num_end r' ∨ r' = r → d <= d' →
    (2 * length (pre ++ r') + 1 <= m)%nat → parse_value m d' s' = Some (v, r').
Proof. apply parse_local. Qed.

(** Any fuel that gives a result gives the result of [fuel s]: [fuel] is enough. *)
Lemma parse_fuel_enough n d s x : parse_value n d s = Some x → parse_value (fuel s) d s = Some x.
Proof.
  destruct x as [v r]. intros (pre&E&_&L)%parse_value_local. apply (L _ d s r); [done|by right|done|].
  rewrite <-E. unfold fuel. pose proof (skip_ws_length s). lia.
Qed.

(** The raw text of an element is a complete JSON text of the same tree. *)
Lemma parse_raw n d s v r : parse_value n d s = Some (v, r) → d <= max_depth →
  parse (raw_of (skip_ws s) r) = Some v.
Proof.
  intros (pre&E&Hpre&L)%parse_value_local Hd. rewrite E, raw_of_app. unfold parse.
  rewrite (L (fuel pre) max_depth pre []); [done| |by left|done|].
  - rewrite app_nil_r. by apply skip_ws_visible.
  - rewrite app_nil_r. unfold fuel. lia.
Qed.

Lemma parse_Decode s j : parse s = Some j → Decode s = Some (to_any j).
Proof.
  unfold parse, Decode. destruct (parse_value _ _ s) as [[j' r]|]; cbn; [|done].
  destruct (skip_ws r); [|done]. by intros [= ->].
Qed.

(** Every element of a parsed array or object parses on its own. *)
Lemma parse_elems_raw n d s es r : parse_elems n d s = Some (es, r) → d <= max_depth →
  Forall (λ e, parse e.1 = Some e.2) es.
Proof.
  revert s es r. induction n as [|n IH]; [done|]. intros s es r E Hd. cbn [parse_elems] in E.
  destruct (parse_value n d (skip_ws s)) as [[v r1]|] eqn:E1; cbn in E; [|done].
  apply parse_raw in E1; [|done]. rewrite skip_ws_idem in E1.
  destruct (skip_ws r1) as [|c r2]; [done|]. destruct (c =? 44).
  - destruct (parse_elems n d r2) as [[es1 r3]|] eqn:E3; cbn in E; [|done]. simplify_eq.
    constructor; [done|]. by eapply IH.
  - destruct (c =? 93); [|done]. simplify_eq. by constructor.
Qed.

Lemma parse_members_raw n d s ms r : parse_members n d s = Some (ms, r) → d <= max_depth →
  Forall (λ m, parse m.2.1 = Some m.2.2) ms.
Proof.
  revert s ms r. induction n as [|n IH]; [done|]. intros s ms r E Hd. cbn [parse_members] in E.
  destruct (skip_ws s) as [|c s1]; [done|]. destruct (c =? 34); [|done].
  destruct (parse_string 0 s1) as [[k s2]|]; cbn in E; [|done].
  destruct (skip_ws s2) as [|c2 s3]; [done|]. destruct (c2 =? 58); [|done].
  destruct (parse_value n d (skip_ws s3)) as [[v r1]|] eqn:E1; cbn in E; [|done].
  apply parse_raw in E1; [|done]. rewrite skip_ws_idem in E1.
  destruct (skip_ws r1) as [|c4 r2]; [done|]. destruct (c4 =? 44).
  - destruct (parse_members n d r2) as [[ms1 r3]|] eqn:E3; cbn in E; [|done]. simplify_eq.
    constructor; [done|]. by eapply IH.
  - destruct (c4 =? 125); [|done]. simplify_eq. by constructor.
Qed.

(** The elements of a tree, one level down. *)
Definition children_ok (j : json) : Prop :=
  match j with
  | JArr es => Forall (λ e, parse e.1 = Some e.2) es
  | JObj ms => Forall (λ m, parse m.2.1 = Some m.2.2) ms
  | _ => True
  end.

Lemma parse_scalar_leaf c s v r : parse_scalar c s = Some (v, r) → children_ok v.
Proof.
  assert (∀ A (o : option A) (f : A → option (json * bytes)),
    (∀ a x, f a = Some x → children_ok x.1) → o ≫= f = Some (v, r) → children_ok v) as Ho.
  { intros A [a|] f Hf E; [|done]. exact (Hf a _ E). }
  unfold parse_scalar. repeat case_match; apply Ho; try (intros [] ? [= <-]; done).
  all: by intros ? ? [= <-].
Qed.

Lemma parse_value_children n d s v r : parse_value n d s = Some (v, r) → d <= max_depth →
  children_ok v.
Proof.
  destruct n as [|n]; [done|]. destruct (skip_ws s) as [|c s1] eqn:Es.
  { cbn [parse_value]. by rewrite Es. }
  destruct (decide (c = 123)) as [->|H1]; [|destruct (decide (c = 91)) as [->|H2]].
  - cbn [parse_value]. rewrite Es. cbn. destruct (d <=? 0); [done|].
    destruct (skip_ws s1) as [|c1 s2]; [done|]. destruct (c1 =? 125); [intros [= <- <-] _; constructor|].
    destruct (parse_members n (d - 1) _) as [[ms r1]|] eqn:E; cbn; [|done].
    intros [= <- <-] Hd. eapply parse_members_raw; [done|lia].
  - cbn [parse_value]. rewrite Es. cbn. destruct (d <=? 0); [done|].
    destruct (skip_ws s1) as [|c1 s2]; [done|]. destruct (c1 =? 93); [intros [= <- <-] _; constructor|].
    destruct (parse_elems n (d - 1) _) as [[es r1]|] eqn:E; cbn; [|done].
    intros [= <- <-] Hd. eapply parse_elems_raw; [done|lia].
  - rewrite (parse_value_scalar n d s c s1) by done. intros E _. by eapply parse_scalar_leaf.
Qed.

Lemma parse_children s v : parse s = Some v → children_ok v.
Proof.
  unfold parse. destruct (parse_value _ _ s) as [[j r]|] eqn:E; cbn; [|done].
  destruct (skip_ws r); [|done]. intros [= <-]. by eapply parse_value_children.
Qed.
