(* ===== verification/JsonRender.v ===== *)
(** * Rendering and re-parsing

    A compact rendering with sorted keys parses back to the value with its maps
    sorted ([parse_render]), for every string quoting the parser undoes; two
    values have the same rendering exactly when they are equal up to the
    iteration order of their maps ([render_inj]). *)
From S2P Require Import Prelude Utf8 GoBytes Json JsonFacts.

(** ** Induction, well-formedness, depth *)
Section any_ind.
Context (P : any → Prop).
Context (Hnull : P ANull) (Hbool : ∀ b, P (ABool b)) (Hnum : ∀ l, P (ANum l))
  (Hstr : ∀ s, P (AStr s)) (Harr : ∀ es, Forall P es → P (AArr es))
  (Hmap : ∀ m, Forall (λ p, P p.2) m → P (AMap m)) (Hother : P AOther).

Fixpoint any_ind' (v : any) : P v :=
  match v with
  | ANull => Hnull
  | ABool b => Hbool b
  | ANum l => Hnum l
  | AStr s => Hstr s
  | AArr es => Harr es ((fix go l : Forall P l :=
      match l with [] => Forall_nil_2 P | e :: l => Forall_cons_2 P e l (any_ind' e) (go l) end) es)
  | AMap m => Hmap m ((fix go l : Forall (λ p, P p.2) l :=
      match l with
      | [] => Forall_nil_2 _
      | (k, e) :: l => Forall_cons_2 (λ p, P p.2) (k, e) l (any_ind' e) (go l)
      end) m)
  | AOther => Hother
  end.
End any_ind.

(** The values a JSON text can denote. *)
Inductive any_wf : any → Prop :=
| wf_null : any_wf ANull
| wf_bool b : any_wf (ABool b)
| wf_num l : valid_number l → any_wf (ANum l)
| wf_str s : valid_utf8 s → any_wf (AStr s)
| wf_arr es : Forall any_wf es → any_wf (AArr es)
| wf_map m : NoDup m.*1 → Forall (λ p, valid_utf8 p.1 ∧ any_wf p.2) m → any_wf (AMap m).

Fixpoint any_depth (v : any) : Z :=
  match v with
  | AArr es => 1 + foldr Z.max 0 (map any_depth es)
  | AMap m => 1 + foldr Z.max 0 (map (λ '(_, e), any_depth e) m)
  | _ => 0
  end.

(** Equality up to the iteration order of maps. *)
Inductive any_eqv : any → any → Prop :=
| eqv_null : any_eqv ANull ANull
| eqv_bool b : any_eqv (ABool b) (ABool b)
| eqv_num l : any_eqv (ANum l) (ANum l)
| eqv_str s : any_eqv (AStr s) (AStr s)
| eqv_arr es es' : Forall2 any_eqv es es' → any_eqv (AArr es) (AArr es')
| eqv_map m m' m'' :
    Forall2 (λ p q, p.1 = q.1 ∧ any_eqv p.2 q.2) m m'' → m'' ≡ₚ m' →
    any_eqv (AMap m) (AMap m')
| eqv_other : any_eqv AOther AOther.

(** The representative with every map in key order. *)
Fixpoint norm (v : any) : any :=
  match v with
  | AArr es => AArr (map norm es)
  | AMap m => AMap (sort_entries (map (λ '(k, e), (k, norm e)) m))
  | v => v
  end.

(** ** Sorting by key *)
Lemma bytes_leb_total a b : bytes_leb a b = true ∨ bytes_leb b a = true.
Proof.
  revert b. induction a as [|x a IH]; intros [|y b]; simpl; auto.
  destruct (Z.eqb_spec x y), (Z.eqb_spec y x); try lia; auto.
Qed.

Lemma bytes_leb_antisym a b : bytes_leb a b = true → bytes_leb b a = true → a = b.
Proof.
  revert b. induction a as [|x a IH]; intros [|y b]; simpl; try done.
  destruct (Z.eqb_spec x y), (Z.eqb_spec y x); try lia; intros; subst; f_equal; auto.
Qed.

Lemma bytes_leb_trans a b c : bytes_leb a b = true → bytes_leb b c = true → bytes_leb a c = true.
Proof.
  revert b c. induction a as [|x a IH]; intros [|y b] [|z c]; simpl; try done.
  destruct (Z.eqb_spec x y), (Z.eqb_spec y z), (Z.eqb_spec x z); try lia; eauto.
Qed.

#[export] Instance bytes_le_total : Total bytes_le.
Proof. intros a b. apply bytes_leb_total. Qed.
#[export] Instance bytes_le_trans : Transitive bytes_le.
Proof. intros a b c. apply bytes_leb_trans. Qed.
#[export] Instance bytes_le_antisymm : AntiSymm (=) bytes_le.
Proof. intros a b. apply bytes_leb_antisym. Qed.
#[export] Instance entry_le_total {A} : Total (@entry_le A).
Proof. intros p q. apply bytes_leb_total. Qed.
#[export] Instance entry_le_trans {A} : Transitive (@entry_le A).
Proof. intros p q r. apply bytes_leb_trans. Qed.

Lemma sort_entries_perm {A} (m : list (bytes * A)) : sort_entries m ≡ₚ m.
Proof. apply merge_sort_Permutation. Qed.

Lemma sort_entries_sorted {A} (m : list (bytes * A)) : Sorted entry_le (sort_entries m).
Proof. apply Sorted_merge_sort, _. Qed.

Lemma NoDup_fst_inj {A} (m : list (bytes * A)) p q :
  NoDup m.*1 → p ∈ m → q ∈ m → p.1 = q.1 → p = q.
Proof.
  induction m as [|x m IH]; [set_solver|]. cbn. intros [Hx Hm]%NoDup_cons Hp Hq E.
  apply elem_of_cons in Hp as [->|Hp], Hq as [->|Hq]; [done|..|by apply IH].
  - destruct Hx. rewrite E. by apply list_elem_of_fmap_2.
  - destruct Hx. rewrite <-E. by apply list_elem_of_fmap_2.
Qed.

(** With distinct keys there is one sorted arrangement. *)
Lemma sorted_entries_unique {A} (l1 l2 : list (bytes * A)) :
  Sorted entry_le l1 → Sorted entry_le l2 → l1 ≡ₚ l2 → NoDup l1.*1 → l1 = l2.
Proof.
  intros H1 H2 Hp Hnd. eapply (Sorted_unique_strong entry_le); try done.
  intros p q Hpin Hq Hle Hge. apply (NoDup_fst_inj l1); [done..| |].
  - by rewrite Hp.
  - by apply (anti_symm bytes_le).
Qed.

Lemma sort_entries_eq {A} (m l : list (bytes * A)) :
  NoDup m.*1 → l ≡ₚ m → Sorted entry_le l → sort_entries m = l.
Proof.
  intros Hnd Hp Hs. apply sorted_entries_unique; [apply sort_entries_sorted|done| |].
  - by rewrite sort_entries_perm, Hp.
  - by rewrite sort_entries_perm.
Qed.

(** ** Mapping the values of a map *)
Definition map_vals {A B} (f : A → B) (m : list (bytes * A)) : list (bytes * B) :=
  map (λ '(k, e), (k, f e)) m.

Lemma map_vals_keys {A B} (f : A → B) m : (map_vals f m).*1 = m.*1.
Proof. induction m as [|[k e] m IH]; [done|]. cbn. f_equal. exact IH. Qed.

Lemma map_vals_perm {A B} (f : A → B) m m' : m ≡ₚ m' → map_vals f m ≡ₚ map_vals f m'.
Proof. intros H. by apply (Permutation_map _). Qed.

Lemma map_vals_sorted {A B} (f : A → B) m : Sorted entry_le m → Sorted entry_le (map_vals f m).
Proof.
  induction 1 as [|[k e] m Hm IH Hhd]; constructor; [done|].
  destruct Hhd as [|[k' e'] m Hle]; constructor. done.
Qed.

Lemma map_vals_compose {A B C} (f : A → B) (g : B → C) m :
  map_vals g (map_vals f m) = map_vals (λ x, g (f x)) m.
Proof. unfold map_vals. rewrite map_map. apply map_ext. by intros [k e]. Qed.

Lemma map_vals_ext {A B} (f g : A → B) m :
  Forall (λ p, f p.2 = g p.2) m → map_vals f m = map_vals g m.
Proof. induction 1 as [|[k e] m He Hm IH]; [done|]. cbn in *. rewrite He. f_equal. exact IH. Qed.

(** Sorting by key commutes with mapping the values. *)
Lemma sort_map_vals {A B} (f : A → B) m : NoDup m.*1 →
  sort_entries (map_vals f m) = map_vals f (sort_entries m).
Proof.
  intros Hnd. apply sort_entries_eq.
  - by rewrite map_vals_keys.
  - apply map_vals_perm, sort_entries_perm.
  - apply map_vals_sorted, sort_entries_sorted.
Qed.

Lemma sort_entries_perm_eq {A} (m m' : list (bytes * A)) : NoDup m.*1 →
  m ≡ₚ m' → sort_entries m = sort_entries m'.
Proof.
  intros Hnd Hp. apply sort_entries_eq; [done| |apply sort_entries_sorted].
  by rewrite sort_entries_perm.
Qed.

Lemma sort_entries_idem {A} (m : list (bytes * A)) : NoDup m.*1 →
  sort_entries (sort_entries m) = sort_entries m.
Proof.
  intros Hnd. symmetry. apply sort_entries_perm_eq; [done|]. by rewrite sort_entries_perm.
Qed.

Lemma render_map q m :
  render q (AMap m) = [123] ++ Join (map (λ '(k, t), q k ++ 58 :: t)
    (sort_entries (map_vals (render q) m))) [44] ++ [125].
Proof. done. Qed.

Lemma norm_map m : norm (AMap m) = AMap (sort_entries (map_vals norm m)).
Proof. done. Qed.

Lemma NoDup_sort_entries {A} (m : list (bytes * A)) : NoDup m.*1 → NoDup (sort_entries m).*1.
Proof. by rewrite sort_entries_perm. Qed.

(** Sorting the maps changes neither the rendering nor well-formedness. *)
Lemma render_norm q v : any_wf v → render q (norm v) = render q v.
Proof.
  induction v as [| | | |es IH|m IH|] using any_ind'; intros Hwf; try done; inversion Hwf; subst.
  - cbn. do 3 f_equal. rewrite map_map. apply map_ext_in.
    intros e He%list_elem_of_In. rewrite Forall_forall in IH, H0. by apply IH, H0.
  - rewrite norm_map, !render_map. do 4 f_equal.
    rewrite sort_map_vals by (by apply NoDup_sort_entries; rewrite map_vals_keys).
    rewrite sort_entries_idem by (by rewrite map_vals_keys).
    rewrite <-sort_map_vals by (by rewrite map_vals_keys). f_equal.
    rewrite map_vals_compose. apply map_vals_ext.
    apply Forall_forall. intros p Hp. rewrite Forall_forall in IH, H1. by apply IH, H1.
Qed.

Lemma norm_wf v : any_wf v → any_wf (norm v).
Proof.
  induction v as [| | | |es IH|m IH|] using any_ind'; intros Hwf; try done; inversion Hwf; subst.
  - cbn. constructor. rewrite Forall_forall in *. intros e He.
    apply list_elem_of_In, in_map_iff in He as (e'&<-&He%list_elem_of_In). auto.
  - rewrite norm_map. constructor.
    { apply NoDup_sort_entries. by rewrite map_vals_keys. }
    rewrite sort_entries_perm. rewrite Forall_forall in *. intros p Hp.
    apply list_elem_of_In, in_map_iff in Hp as ([k e]&<-&Hp%list_elem_of_In).
    specialize (H1 _ Hp) as [??]. specialize (IH _ Hp). cbn in *. auto.
Qed.

(** ** Equality up to iteration order *)
Lemma any_eqv_refl v : any_eqv v v.
Proof.
  induction v as [| | | |es IH|m IH|] using any_ind'; try by constructor.
  - constructor. induction IH; by constructor.
  - apply (eqv_map m m m); [|done]. induction IH; by constructor.
Qed.

Lemma any_eqv_norm v : any_eqv v (norm v).
Proof.
  induction v as [| | | |es IH|m IH|] using any_ind'; try by constructor.
  - cbn. constructor. induction IH; by constructor.
  - rewrite norm_map. apply (eqv_map m _ (map_vals norm m)); [|symmetry; apply sort_entries_perm].
    induction IH as [|[k e] m He Hm IH]; constructor; done.
Qed.

Lemma any_eqv_norm_eq v v' : any_wf v → any_eqv v v' → norm v = norm v'.
Proof.
  revert v'. induction v as [| | | |es IH|m IH|] using any_ind'; intros v' Hwf E;
    inversion E as [| | | |? es' Hall|? m' m'' Hall Hp|]; subst; try done; inversion Hwf; subst.
  - cbn. f_equal. clear E Hwf. revert es' Hall. induction IH as [|e es He IH IHes]; intros es' Hall.
    + by inversion Hall.
    + inversion Hall; subst. inversion H0; subst. cbn. f_equal; auto.
  - rewrite !norm_map. f_equal.
    assert (map_vals norm m = map_vals norm m'') as Eq.
    { clear E Hwf H0 Hp. revert m'' Hall. induction IH as [|[k e] m He IH IHm]; intros m'' Hall.
      - by inversion Hall.
      - inversion Hall as [|? [k' e'] ? ? [Hk Hee]]; subst. inversion H1 as [|??[_ ?]]; subst.
        cbn in *. subst k'. rewrite (He e') by done. f_equal. by apply IHm. }
    rewrite Eq. apply sort_entries_perm_eq; [|by apply map_vals_perm].
    rewrite <-Eq. by rewrite map_vals_keys.
Qed.

#[export] Instance any_eqv_reflexive : Reflexive any_eqv.
Proof. intros v. apply any_eqv_refl. Qed.

Lemma any_eqv_sym v v' : any_eqv v v' → any_eqv v' v.
Proof.
  revert v'. induction v as [| | | |es IH|m IH|] using any_ind'; intros v' E;
    inversion E as [| | | |? es' Hall|? m' m'' Hall Hp|]; subst; try by constructor.
  - constructor. clear E. revert es' Hall. induction IH; intros es' Hall; inversion Hall; subst;
      constructor; auto.
  - assert (Forall2 (λ p q, p.1 = q.1 ∧ any_eqv p.2 q.2) m'' m) as Hs.
    { clear E Hp. revert m'' Hall. induction IH as [|p m Hx IH IHm]; intros m'' Hall;
        inversion Hall as [|? q ? ? [??]]; subst; constructor; auto. }
    destruct (Permutation_Forall2 Hp Hs) as (m2&Hm2&Hall2). by apply (eqv_map m' m m2).
Qed.

Lemma any_eqv_trans v1 v2 v3 : any_eqv v1 v2 → any_eqv v2 v3 → any_eqv v1 v3.
Proof.
  revert v2 v3. induction v1 as [| | | |es IH|m IH|] using any_ind'; intros v2 v3 E1 E2;
    inversion E1 as [| | | |? es' Hall|? m' m'' Hall Hp|]; subst; try done.
  - inversion E2 as [| | | |? es2 Hall2| |]; subst. constructor. clear E1 E2.
    revert es' es2 Hall Hall2. induction IH; intros es' es2 Hall Hall2; inversion Hall; subst;
      inversion Hall2; subst; constructor; eauto.
  - inversion E2 as [| | | | |? m2 m2'' Hall2 Hp2|]; subst.
    destruct (Permutation_Forall2 (symmetry Hp) Hall2) as (m3&Hm3&Hall3).
    apply (eqv_map m m2 m3); [|by rewrite <-Hm3, Hp2]. clear E1 E2 Hp Hp2 Hall2 Hm3.
    revert m'' m3 Hall Hall3. induction IH as [|p m Hx IH IHm]; intros m'' m3 Hall Hall3;
      inversion Hall as [|? q ? ? [??]]; subst; inversion Hall3 as [|? q' ? ? [??]]; subst;
      constructor; [|by eapply IHm]. split; [congruence|eauto].
Qed.

#[export] Instance any_eqv_equivalence : Equivalence any_eqv.
Proof.
  split; [apply _|intros ??; apply any_eqv_sym|intros ???; apply any_eqv_trans].
Qed.

Lemma norm_eq_iff v v' : any_wf v → norm v = norm v' ↔ any_eqv v v'.
Proof.
  intros Hwf. split; [|by apply any_eqv_norm_eq].
  intros E. rewrite (any_eqv_norm v), E. symmetry. apply any_eqv_norm.
Qed.

(** ** Parsing a rendering *)

Lemma map_set_fresh {A} k (x : A) m : k ∉ m.*1 → map_set k x m = m ++ [(k, x)].
Proof.
  induction m as [|[k' x'] m IH]; [done|]. cbn. intros Hk.
  rewrite decide_False by set_solver. f_equal. apply IH. set_solver.
Qed.

Lemma map_of_app_fresh {A} (l m : list (bytes * A)) : NoDup (m ++ l).*1 →
  foldl (λ m p, map_set p.1 p.2 m) m l = m ++ l.
Proof.
  revert m. induction l as [|[k x] l IH]; intros m Hnd; cbn; [by rewrite app_nil_r|].
  rewrite fmap_app in Hnd. cbn in Hnd. rewrite map_set_fresh.
  - rewrite IH; [by rewrite <-app_assoc|]. by rewrite !fmap_app, <-app_assoc.
  - apply NoDup_app in Hnd as (_&Hd&_). intros Hin. apply (Hd k Hin). set_solver.
Qed.

Lemma map_of_id {A} (l : list (bytes * A)) : NoDup l.*1 → map_of l = l.
Proof. intros Hnd. by apply (map_of_app_fresh l []). Qed.

(** Quoting the parser undoes on valid UTF-8. *)
Definition good_quote (q : bytes → bytes) : Prop := ∀ s, valid_utf8 s →
  ∃ t, q s = 34 :: t ∧ ∀ rest, parse_string 0 (t ++ rest) = Some (s, rest).

(** The first byte of a rendering is visible and closes no bracket. *)
Lemma valid_number_head l : valid_number l → ∃ c t, l = c :: t ∧ (c = 45 ∨ 48 <= c <= 57).
Proof.
  intros Hl. destruct l as [|c t]; [done|]. exists c, t. split; [done|].
  unfold valid_number, scan_number in Hl. destruct (Z.eqb_spec c 45); [by left|]. right.
  unfold scan_unsigned, scan_int in Hl. destruct (Z.eqb_spec c 48); [lia|].
  unfold digits1 in Hl. cbn in Hl. unfold is_digit in Hl.
  destruct ((48 <=? c) && (c <=? 57)) eqn:E; [lia|done].
Qed.

Lemma render_head q v : good_quote q → any_wf v →
  ∃ c t, render q v = c :: t ∧ is_ws c = false ∧ c ≠ 93.
Proof.
  intros Hq. destruct 1 as [|[]|l Hl|s Hs|es Hes|m Hm]; try by (do 2 eexists).
  - apply valid_number_head in Hl as (c&t&->&Hc). exists c, t. unfold is_ws.
    split_and!; [done|lia..].
  - destruct (Hq s Hs) as (t&E&_). exists 34, t. by cbn.
Qed.

Lemma foldr_max_nonneg l : 0 <= foldr Z.max 0 l.
Proof. induction l; cbn; lia. Qed.

Lemma foldr_max_perm l l' : l ≡ₚ l' → foldr Z.max 0 l = foldr Z.max 0 l'.
Proof. induction 1; cbn; lia. Qed.

(** ** The tree of a rendering *)
Fixpoint tree (q : bytes → bytes) (v : any) : json :=
  match v with
  | ANull | AOther => JNull
  | ABool b => JBool b
  | ANum l => JNum l
  | AStr s => JStr s
  | AArr es => JArr (map (λ e, (render q e, tree q e)) es)
  | AMap m => JObj (sort_entries (map (λ '(k, e), (k, (render q e, tree q e))) m))
  end.

Lemma tree_map q m : tree q (AMap m) = JObj (sort_entries (map_vals (λ e, (render q e, tree q e)) m)).
Proof. done. Qed.

Lemma to_any_tree q v : any_wf v → to_any (tree q v) = norm v.
Proof.
  induction v as [| | | |es IH|m IH|] using any_ind'; intros Hwf; inversion Hwf as [| | | |? Hes|? Hnd Hm]; subst; try done.
  - cbn [tree to_any norm]. f_equal. rewrite map_map. clear Hwf.
    induction IH as [|e es He _ IHe]; [done|]. apply Forall_cons in Hes as [? ?]. cbn. f_equal; auto.
  - rewrite tree_map, norm_map, !sort_map_vals by done. cbn [to_any]. f_equal.
    assert (map (λ '(k, (_, e)), (k, to_any e)) (map_vals (λ e, (render q e, tree q e)) (sort_entries m))
      = map_vals norm (sort_entries m)) as ->.
    { unfold map_vals. rewrite map_map. apply map_ext_in. intros [k e] Hin%list_elem_of_In.
      rewrite sort_entries_perm in Hin. do 2 f_equal. rewrite Forall_forall in *. by apply (IH (k, e)), (Hm (k, e)). }
    apply map_of_id. rewrite map_vals_keys. by apply NoDup_sort_entries.
Qed.

Section parse_render.
Context (q : bytes → bytes) (Hq : good_quote q).

(** What one value promises; [d] is the nesting allowance. *)
Let renders (v : any) : Prop := ∀ d rest, any_depth v <= d → num_end rest →
  ∀ n, (2 * length (render q v ++ rest) + 1 <= n)%nat →
    parse_value n d (render q v ++ rest) = Some (tree q v, rest).

Lemma render_leaf v c t :
  render q v = c :: t → is_ws c = false → c ≠ 123 → c ≠ 91 →
  (∀ rest, num_end rest → parse_scalar c (t ++ rest) = Some (tree q v, rest)) → renders v.
Proof.
  intros E Hc H1 H2 Hp d rest _ Hrest n Hn.
  destruct n as [|n]; [lia|]. rewrite E. cbn [app].
  rewrite (parse_value_scalar n d _ c (t ++ rest)); [by apply Hp| |done..].
  apply skip_ws_visible. by do 2 eexists.
Qed.

Lemma render_number l : valid_number l → renders (ANum l).
Proof.
  intros Hl. destruct (valid_number_head l Hl) as (c&t&->&Hc).
  apply (render_leaf _ c t); [done|unfold is_ws; lia|lia..|].
  intros rest Hrest. unfold parse_scalar.
  bfalse (c =? 34). bfalse (c =? 116). bfalse (c =? 102). bfalse (c =? 110).
  apply scan_number_local in Hl as (_&_&Hl).
  assert (scan_number (c :: t ++ rest) = Some (c :: t, rest)) as -> by by apply (Hl rest).
  done.
Qed.

Lemma render_elems es d rest : Forall renders es → Forall any_wf es → es ≠ [] →
  foldr Z.max 0 (map any_depth es) <= d →
  ∀ n, (2 * length (Join (map (render q) es) [44%Z] ++ 93%Z :: rest) + 2 <= n)%nat →
    parse_elems n d (Join (map (render q) es) [44] ++ 93 :: rest)
    = Some (map (λ e, (render q e, tree q e)) es, rest).
Proof.
  induction 1 as [|e es He Hes IH]; intros Hwf Hne Hd; [done|]. apply Forall_cons in Hwf as [Hwe Hwf].
  cbn in Hd. destruct (render_head q e Hq Hwe) as (c&t&Ec&Hc&_).
  assert (∀ x, skip_ws (render q e ++ x) = render q e ++ x) as Hskip.
  { intros x. apply skip_ws_visible. rewrite Ec. by do 2 eexists. }
  destruct es as [|e' es].
  - assert (Hp := He d (93 :: rest)). specialize (Hp ltac:(cbn in Hd; lia) ltac:(done)). intros n Hn.
    destruct n as [|n]; [lia|]. cbn [map Join] in *. cbn [parse_elems].
    rewrite Hskip, Hp by lia. cbn. by rewrite raw_of_app.
  - specialize (IH ltac:(done) ltac:(done) ltac:(cbn in *; lia)).
    set (more := Join (map (render q) (e' :: es)) [44] ++ 93 :: rest) in *.
    assert (Hp := He d (44 :: more)). specialize (Hp ltac:(lia) ltac:(done)). intros n Hn.
    assert (Join (map (render q) (e :: e' :: es)) [44] ++ 93 :: rest
            = render q e ++ 44 :: more) as Ejoin.
    { unfold more. cbn [map Join]. by norm_app. }
    rewrite Ejoin in Hn |- *. destruct n as [|n]; [lia|]. cbn [parse_elems].
    rewrite Hskip, Hp by lia. cbn. rewrite raw_of_app, IH; [done|]. clearbody more. len.
Qed.

Let member (p : bytes * any) : bytes := q p.1 ++ 58 :: render q p.2.

Lemma render_members ms d rest :
  Forall (λ p, renders p.2) ms → Forall (λ p, valid_utf8 p.1 ∧ any_wf p.2) ms → ms ≠ [] →
  foldr Z.max 0 (map (λ '(_, e), any_depth e) ms) <= d →
  ∀ n, (2 * length (Join (map member ms) [44%Z] ++ 125%Z :: rest) + 2 <= n)%nat →
    parse_members n d (Join (map member ms) [44] ++ 125 :: rest)
    = Some (map_vals (λ e, (render q e, tree q e)) ms, rest).
Proof.
  induction 1 as [|[k e] ms He Hms IH]; intros Hwf Hne Hd; [done|].
  apply Forall_cons in Hwf as [[Hk Hwe] Hwf]. cbn in Hd, Hk, Hwe, He.
  destruct (Hq k Hk) as (tk&Etk&Hpk). destruct (render_head q e Hq Hwe) as (c&t&Ec&Hc&_).
  assert (∀ x, skip_ws (render q e ++ x) = render q e ++ x) as Hskip.
  { intros x. apply skip_ws_visible. rewrite Ec. by do 2 eexists. }
  destruct ms as [|p' ms].
  - assert (Hp := He d (125 :: rest)). specialize (Hp ltac:(lia) ltac:(done)). intros n Hn.
    cbn [map Join] in *. unfold member in *. cbn [fst snd] in *. rewrite Etk in *. norm_app. norm_app_in Hn.
    destruct n as [|n]; [lia|]. cbn [parse_members skip_ws]. cbn.
    rewrite Hpk. cbn. rewrite Hskip, Hp by len. cbn. by rewrite raw_of_app.
  - specialize (IH ltac:(done) ltac:(done) ltac:(cbn in *; lia)).
    set (more := Join (map member (p' :: ms)) [44] ++ 125 :: rest) in *.
    assert (Hp := He d (44 :: more)). specialize (Hp ltac:(lia) ltac:(done)). intros n Hn.
    assert (Join (map member ((k, e) :: p' :: ms)) [44] ++ 125 :: rest
            = 34 :: tk ++ 58 :: render q e ++ 44 :: more) as Ejoin.
    { unfold more. cbn [map Join]. unfold member at 1. cbn [fst snd]. rewrite Etk. by norm_app. }
    rewrite Ejoin in Hn |- *. clearbody more. destruct n as [|n]; [lia|].
    cbn [parse_members skip_ws]. cbn. rewrite Hpk. cbn. rewrite Hskip, Hp by len. cbn.
    rewrite raw_of_app, IH; [done|len].
Qed.

Lemma render_object m : Forall (λ p, renders p.2) m → any_wf (AMap m) → renders (AMap m).
Proof.
  intros Hm Hwf d rest Hd Hrest. inversion Hwf as [| | | | |? Hnd Hall]; subst.
  assert (render q (AMap m) = 123 :: Join (map member (sort_entries m)) [44] ++ [125]) as E.
  { rewrite render_map, sort_map_vals by done. unfold map_vals. rewrite map_map. cbn [app].
    do 3 f_equal. apply map_ext. by intros [k e]. }
  rewrite E. norm_app. cbn in Hd. destruct (decide (m = [])) as [->|Hne].
  { intros n Hn. destruct n as [|n]; [lia|]. cbn.
    by destruct (Z.leb_spec d 0); [cbn in Hd; lia|]. }
  assert (Hmax : foldr Z.max 0 (map (λ '(_, e), any_depth e) (sort_entries m)) <= d - 1).
  { enough (foldr Z.max 0 (map (λ '(_, e), any_depth e) (sort_entries m))
            = foldr Z.max 0 (map (λ '(_, e), any_depth e) m)) by lia.
    apply foldr_max_perm, Permutation_map, sort_entries_perm. }
  assert (Hp := render_members (sort_entries m) (d - 1) rest).
  specialize (Hp ltac:(by rewrite sort_entries_perm) ltac:(by rewrite sort_entries_perm)).
  assert (sort_entries m ≠ []) as Hs.
  { intros Hs. apply Hne. apply Permutation_nil. by rewrite <-Hs, sort_entries_perm. }
  specialize (Hp Hs Hmax).
  rewrite tree_map, sort_map_vals by done.
  intros n Hn. destruct n as [|n]; [lia|]. cbn [parse_value skip_ws]. cbn.
  pose proof (foldr_max_nonneg (map (λ '(_, e), any_depth e) (sort_entries m))).
  destruct (Z.leb_spec d 0); [lia|].
  destruct (sort_entries m) as [|p ms] eqn:Es.
  { destruct Hne. apply Permutation_nil. by rewrite <-Es, sort_entries_perm. }
  assert (∃ t, Join (map member (p :: ms)) [44] ++ 125 :: rest = 34 :: t) as (t&Et).
  { destruct (Hq p.1) as (tk&Etk&_).
    { apply (proj1 (Forall_forall _ _) Hall p). rewrite <-(sort_entries_perm m), Es. set_solver. }
    destruct ms; cbn [map Join]; unfold member at 1; rewrite Etk; by eexists. }
  rewrite Et in *. cbn. rewrite Hp by len. done.
Qed.

Lemma render_array es : Forall renders es → any_wf (AArr es) → renders (AArr es).
Proof.
  intros Hes Hwf d rest Hd Hrest. inversion Hwf; subst.
  cbn [render]. norm_app. cbn [any_depth] in Hd.
  pose proof (foldr_max_nonneg (map any_depth es)).
  destruct es as [|e es].
  { intros n Hn. destruct n as [|n]; [lia|]. cbn.
    by destruct (Z.leb_spec d 0); [lia|]. }
  assert (Hp := render_elems (e :: es) (d - 1) rest). specialize (Hp ltac:(done) ltac:(done) ltac:(done) ltac:(lia)).
  assert (∃ c t, Join (map (render q) (e :: es)) [44] ++ 93 :: rest = c :: t
    ∧ is_ws c = false ∧ c ≠ 93) as (c&t&Et&Hc&Hc93).
  { destruct (render_head q e Hq) as (c&t&Et&?&?); [by apply Forall_inv in H0|].
    destruct es; cbn [map Join]; rewrite Et; by do 2 eexists. }
  rewrite Et in *. intros n Hn. destruct n as [|n]; [lia|].
  cbn [parse_value]. rewrite skip_ws_visible by (by do 2 eexists). cbn -[skip_ws].
  destruct (Z.leb_spec d 0); [lia|]. rewrite skip_ws_visible by (by do 2 eexists). destruct (Z.eqb_spec c 93); [done|].
  rewrite Hp by len. done.
Qed.

Lemma render_renders v : any_wf v → renders v.
Proof.
  induction v as [|[]|l|s|es IH|m IH|] using any_ind'; intros Hwf; inversion Hwf; subst.
  - by apply (render_leaf _ 110 (str "ull")).
  - by apply (render_leaf _ 116 (str "rue")).
  - by apply (render_leaf _ 102 (str "alse")).
  - by apply render_number.
  - destruct (Hq s) as (t&Et&Hp); [done|]. apply (render_leaf _ 34 t); try done.
    intros rest _. unfold parse_scalar. cbn. by rewrite Hp.
  - apply render_array; [|done]. rewrite Forall_forall in *. auto.
  - apply render_object; [|done]. rewrite Forall_forall in *. intros p Hp. by apply IH, H1.
Qed.
End parse_render.

(** A rendering parses to its tree. *)
Lemma parse_render q v : good_quote q → any_wf v → any_depth v <= max_depth →
  parse (render q v) = Some (tree q v).
Proof.
  intros Hq Hwf Hd. pose proof (render_renders q Hq v Hwf max_depth [] Hd I) as Hp.
  rewrite !app_nil_r in Hp. unfold parse, fuel. by rewrite Hp by lia.
Qed.

(** It decodes to the value with its maps in key order. *)
Lemma Decode_render q v : good_quote q → any_wf v → any_depth v <= max_depth →
  Decode (render q v) = Some (norm v).
Proof.
  intros Hq Hwf Hd. rewrite <-(to_any_tree q) by done. by apply parse_Decode, parse_render.
Qed.

(** The rendering separates values up to iteration order. *)
Lemma render_inj q v v' : good_quote q → any_wf v → any_wf v' →
  render q v = render q v' ↔ any_eqv v v'.
Proof.
  intros Hq Hv Hv'. rewrite <-norm_eq_iff by done. split.
  - intros E. set (d := Z.max (any_depth v) (any_depth v')).
    assert (Hp := render_renders q Hq v Hv d []). assert (Hp' := render_renders q Hq v' Hv' d []).
    specialize (Hp ltac:(lia) ltac:(done)). specialize (Hp' ltac:(lia) ltac:(done)).
    rewrite <-E in Hp'. specialize (Hp _ (le_n _)). specialize (Hp' _ (le_n _)).
    rewrite <-!(to_any_tree q) by done. congruence.
  - intros E. rewrite <-(render_norm q v), <-(render_norm q v'), E by done. done.
Qed.

(** ** What the decoder produces *)

Lemma map_set_keys {A} k (x : A) m y : y ∈ (map_set k x m).*1 ↔ y = k ∨ y ∈ m.*1.
Proof.
  induction m as [|[k' x'] m IH]; cbn; [set_solver|].
  case_decide; subst; cbn; [set_solver|]. rewrite !elem_of_cons, IH. tauto.
Qed.

Lemma map_set_NoDup {A} k (x : A) m : NoDup m.*1 → NoDup (map_set k x m).*1.
Proof.
  induction m as [|[k' x'] m IH]; cbn; [intros; repeat constructor; set_solver|].
  intros [Hk Hm]%NoDup_cons. case_decide; subst; cbn; [by constructor|].
  constructor; [|by apply IH]. rewrite map_set_keys. naive_solver.
Qed.

Lemma map_set_Forall {A} (P : bytes * A → Prop) k x m :
  P (k, x) → Forall P m → Forall P (map_set k x m).
Proof.
  intros Hx. induction 1 as [|[k' x'] m Hk Hm IH]; cbn; [by constructor|].
  case_decide; subst; by constructor.
Qed.

Lemma foldl_map_set_ok {A} (P : bytes * A → Prop) l m :
  Forall P l → Forall P m → NoDup m.*1 →
  let m' := foldl (λ m p, map_set p.1 p.2 m) m l in Forall P m' ∧ NoDup m'.*1.
Proof.
  intros Hl. revert m. induction Hl as [|[k x] l Hx Hl IH]; intros m Hm Hnd; [done|].
  cbn. apply IH; [by apply map_set_Forall|by apply map_set_NoDup].
Qed.

Lemma map_of_ok {A} (P : bytes * A → Prop) l :
  Forall P l → Forall P (map_of l) ∧ NoDup (map_of l).*1.
Proof. intros Hl. apply (foldl_map_set_ok P l []); [done|constructor..]. Qed.

Lemma map_set_get {A} k k' (x : A) m :
  map_get k' (map_set k x m) = if decide (k' = k) then Some x else map_get k' m.
Proof.
  induction m as [|[k1 x1] m IH]; cbn; [done|].
  repeat case_decide; subst; cbn; repeat case_decide; subst; try done.
Qed.

(** Well-formed, within a nesting allowance. *)
Definition wf_within (d : Z) (v : any) : Prop := any_wf v ∧ any_depth v <= Z.max 0 d.

Lemma foldr_max_le l k : 0 <= k → Forall (λ x, x <= k) l → foldr Z.max 0 l <= k.
Proof. intros Hk. induction 1; cbn; lia. Qed.

Lemma wf_within_arr d es : 0 < d → Forall (wf_within (d - 1)) es → wf_within d (AArr es).
Proof.
  intros Hd Hes. split.
  - constructor. eapply Forall_impl; [done|]. by intros ? [].
  - cbn. enough (foldr Z.max 0 (map any_depth es) <= d - 1) by lia.
    apply foldr_max_le; [lia|]. apply Forall_forall. intros x Hx.
    apply list_elem_of_In, in_map_iff in Hx as (e&<-&He%list_elem_of_In).
    rewrite Forall_forall in Hes. destruct (Hes e He). lia.
Qed.

Lemma wf_within_map d m : 0 < d → NoDup m.*1 →
  Forall (λ p, valid_utf8 p.1 ∧ wf_within (d - 1) p.2) m → wf_within d (AMap m).
Proof.
  intros Hd Hnd Hm. split.
  - constructor; [done|]. eapply Forall_impl; [done|]. by intros ? [? []].
  - cbn. enough (foldr Z.max 0 (map (λ '(_, e), any_depth e) m) <= d - 1) by lia.
    apply foldr_max_le; [lia|]. apply Forall_forall. intros x Hx.
    apply list_elem_of_In, in_map_iff in Hx as ([k e]&<-&He%list_elem_of_In).
    rewrite Forall_forall in Hm. destruct (Hm _ He) as [_ [_ ?]]. cbn in *. lia.
Qed.

Lemma wf_within_leaf d v : any_wf v → any_depth v = 0 → wf_within d v.
Proof. intros Hv Hd. split; [done|lia]. Qed.

Lemma parse_scalar_wf c s v r d : parse_scalar c s = Some (v, r) → wf_within d (to_any v).
Proof.
  unfold parse_scalar. intros E.
  destruct (c =? 34).
  { destruct (parse_string 0 s) as [[t r1]|] eqn:Es; cbn in E; [|done]. simplify_eq.
    apply wf_within_leaf; [|done]. constructor. by eapply parse_string_valid. }
  destruct (c =? 116).
  { destruct (strip_prefix _ s); cbn in E; [|done]. simplify_eq. by apply wf_within_leaf; [constructor|]. }
  destruct (c =? 102).
  { destruct (strip_prefix _ s); cbn in E; [|done]. simplify_eq. by apply wf_within_leaf; [constructor|]. }
  destruct (c =? 110).
  { destruct (strip_prefix _ s); cbn in E; [|done]. simplify_eq. by apply wf_within_leaf; [constructor|]. }
  destruct (scan_number (c :: s)) as [[l r1]|] eqn:El; cbn in E; [|done]. simplify_eq.
  apply wf_within_leaf; [|done]. constructor. by eapply scan_number_valid.
Qed.

Definition value_wf (n : nat) : Prop := ∀ d s v r,
  parse_value n d s = Some (v, r) → wf_within d (to_any v).
Definition elems_wf (n : nat) : Prop := ∀ d s es r,
  parse_elems n d s = Some (es, r) → Forall (λ e, wf_within d (to_any e.2)) es.
Definition members_wf (n : nat) : Prop := ∀ d s ms r,
  parse_members n d s = Some (ms, r) → Forall (λ m, valid_utf8 m.1 ∧ wf_within d (to_any m.2.2)) ms.

Lemma value_wf_step n : elems_wf n → members_wf n → value_wf (S n).
Proof.
  intros He Hm d s v r E. destruct (skip_ws s) as [|c s1] eqn:Es.
  { cbn [parse_value] in E. by rewrite Es in E. }
  destruct (decide (c = 123)) as [->|H1]; [|destruct (decide (c = 91)) as [->|H2]].
  + cbn [parse_value] in E. rewrite Es in E. cbn in E. destruct (Z.leb_spec d 0); [done|].
    destruct (skip_ws s1) as [|c1 s2]; [done|]. destruct (c1 =? 125); simplify_eq.
    { apply wf_within_map; [done|constructor|constructor]. }
    destruct (parse_members n (d - 1) _) as [[ms r1]|] eqn:E1; cbn in E; [|done]. simplify_eq.
    apply Hm in E1. cbn [to_any].
    enough (Forall (λ p, valid_utf8 p.1 ∧ wf_within (d - 1) p.2)
      (map (λ '(k, (_, e)), (k, to_any e)) ms)) as [Hok Hnd]%map_of_ok by by apply wf_within_map.
    apply Forall_forall. intros x Hx. apply list_elem_of_In, in_map_iff in Hx as ([k [raw e]]&<-&Hx).
    apply list_elem_of_In in Hx. rewrite Forall_forall in E1. by apply (E1 _ Hx).
  + cbn [parse_value] in E. rewrite Es in E. cbn in E. destruct (Z.leb_spec d 0); [done|].
    destruct (skip_ws s1) as [|c1 s2]; [done|]. destruct (c1 =? 93); simplify_eq.
    { apply wf_within_arr; [done|constructor]. }
    destruct (parse_elems n (d - 1) _) as [[es r1]|] eqn:E1; cbn in E; [|done]. simplify_eq.
    apply He in E1. cbn. apply wf_within_arr; [done|].
    apply Forall_forall. intros x Hx. apply list_elem_of_In, in_map_iff in Hx as ([raw e]&<-&Hx).
    apply list_elem_of_In in Hx. rewrite Forall_forall in E1. by apply (E1 _ Hx).
  + rewrite (parse_value_scalar n d s c s1) in E by done. by eapply parse_scalar_wf.
Qed.

Lemma elems_wf_step n : value_wf n → elems_wf n → elems_wf (S n).
Proof.
  intros Hv He d s es r E. cbn [parse_elems] in E.
  destruct (parse_value n d (skip_ws s)) as [[v r1]|] eqn:E1; cbn in E; [|done]. apply Hv in E1.
  destruct (skip_ws r1) as [|c r2]; [done|]. destruct (c =? 44).
  + destruct (parse_elems n d r2) as [[es1 r3]|] eqn:E3; cbn in E; [|done]. simplify_eq.
    constructor; [done|]. by eapply He.
  + destruct (c =? 93); [|done]. simplify_eq. by constructor.
Qed.

Lemma members_wf_step n : value_wf n → members_wf n → members_wf (S n).
Proof.
  intros Hv Hm d s ms r E. cbn [parse_members] in E.
  destruct (skip_ws s) as [|c s1]; [done|]. destruct (c =? 34); [|done].
  destruct (parse_string 0 s1) as [[k s2]|] eqn:Ek; cbn in E; [|done]. apply parse_string_valid in Ek.
  destruct (skip_ws s2) as [|c2 s3]; [done|]. destruct (c2 =? 58); [|done].
  destruct (parse_value n d (skip_ws s3)) as [[v r1]|] eqn:E1; cbn in E; [|done]. apply Hv in E1.
  destruct (skip_ws r1) as [|c4 r2]; [done|]. destruct (c4 =? 44).
  + destruct (parse_members n d r2) as [[ms1 r3]|] eqn:E3; cbn in E; [|done]. simplify_eq.
    constructor; [done|]. by eapply Hm.
  + destruct (c4 =? 125); [|done]. simplify_eq. by constructor.
Qed.

Lemma parse_wf n : value_wf n ∧ elems_wf n ∧ members_wf n.
Proof.
  induction n as [|n (Hv&He&Hm)]; [done|].
  auto using value_wf_step, elems_wf_step, members_wf_step.
Qed.

Lemma Decode_wf s v : Decode s = Some v → any_wf v ∧ any_depth v <= max_depth.
Proof.
  unfold Decode. destruct (parse_value _ _ s) as [[j r]|] eqn:E; cbn; [|done]. intros [= <-].
  by apply parse_wf in E as [? ?].
Qed.
