(* ===== verification/Sha256.v ===== *)
(** * SHA-256 and hexadecimal encoding

    [crypto/sha256.Sum256] and [encoding/hex.EncodeToString] on byte lists:
    32-bit words are integers below 2^32, with the wrap-around of additions and
    rotations written out. *)
From S2P Require Import Prelude.

Definition w32 (z : Z) : Z := z mod 2 ^ 32.
Definition rotr (x n : Z) : Z := Z.lor (Z.shiftr x n) (w32 (Z.shiftl x (32 - n))).

(** The constants are the first 32 bits of the fractional parts of the cube
    roots (round constants) and square roots (initial state) of the first
    primes; [root k n x] is the integer [k]-th root of [x] on [n] bits. *)
Fixpoint root (k : Z) (n : nat) (x acc : Z) : Z :=
  match n with
  | O => acc
  | S n =>
    let acc' := acc + 2 ^ Z.of_nat n in
    root k n x (if acc' ^ k <=? x then acc' else acc)
  end.

Definition primes : list Z :=
  base.filter (λ p, forallb (λ d, negb (p mod d =? 0)) (seqZ 2 (p - 2)) = true) (seqZ 2 310).

Definition sha_K : list Z := Eval vm_compute in
  (λ p, root 3 40 (Z.shiftl p 96) 0 mod 2 ^ 32) <$> take 64 primes.
Definition sha_H0 : list Z := Eval vm_compute in
  (λ p, root 2 40 (Z.shiftl p 64) 0 mod 2 ^ 32) <$> take 8 primes.

Definition ssig0 (x : Z) : Z := Z.lxor (Z.lxor (rotr x 7) (rotr x 18)) (Z.shiftr x 3).
Definition ssig1 (x : Z) : Z := Z.lxor (Z.lxor (rotr x 17) (rotr x 19)) (Z.shiftr x 10).
Definition bsig0 (x : Z) : Z := Z.lxor (Z.lxor (rotr x 2) (rotr x 13)) (rotr x 22).
Definition bsig1 (x : Z) : Z := Z.lxor (Z.lxor (rotr x 6) (rotr x 11)) (rotr x 25).
Definition sha_ch (x y z : Z) : Z := Z.lxor (Z.land x y) (Z.land (Z.lxor x (2 ^ 32 - 1)) z).
Definition sha_maj (x y z : Z) : Z :=
  Z.lxor (Z.lxor (Z.land x y) (Z.land x z)) (Z.land y z).

(** Padding: 0x80, zeros up to 56 modulo 64, the bit length on 8 bytes. *)
Definition be64 (z : Z) : bytes :=
  (λ i, Z.shiftr z (8 * i) mod 256) <$> [7; 6; 5; 4; 3; 2; 1; 0].
Definition sha_pad (msg : bytes) : bytes :=
  let n := Z.of_nat (length msg) in
  msg ++ 0x80 :: replicate (Z.to_nat ((55 - n) mod 64)) 0 ++ be64 (8 * n).

(** Big-endian words of a block. *)
Fixpoint be_words (n : nat) (s : bytes) : list Z :=
  match n, s with
  | S n, a :: b :: c :: d :: s' => (a * 2 ^ 24 + b * 2 ^ 16 + c * 2 ^ 8 + d) :: be_words n s'
  | _, _ => []
  end.

(** The message schedule, latest word first. *)
Fixpoint sha_extend (n : nat) (rw : list Z) : list Z :=
  match n with
  | O => rw
  | S n =>
    let w i := nth i rw 0 in
    sha_extend n (w32 (ssig1 (w 1%nat) + w 6%nat + ssig0 (w 14%nat) + w 15%nat) :: rw)
  end.
Definition sha_schedule (block : bytes) : list Z :=
  reverse (sha_extend 48 (reverse (be_words 16 block))).

Definition sha_round (st : list Z) (kw : Z * Z) : list Z :=
  match st with
  | [a; b; c; d; e; f; g; h] =>
    let t1 := h + bsig1 e + sha_ch e f g + kw.1 + kw.2 in
    let t2 := bsig0 a + sha_maj a b c in
    [w32 (t1 + t2); a; b; c; w32 (d + t1); e; f; g]
  | _ => st
  end.

Definition sha_block (st : list Z) (block : bytes) : list Z :=
  zip_with (λ x y, w32 (x + y)) st (foldl sha_round st (zip sha_K (sha_schedule block))).

Fixpoint sha_blocks (n : nat) (st : list Z) (s : bytes) : list Z :=
  match n with
  | O => st
  | S n => sha_blocks n (sha_block st (take 64 s)) (drop 64 s)
  end.

Definition be32 (w : Z) : bytes :=
  (λ i, Z.shiftr w (8 * i) mod 256) <$> [3; 2; 1; 0].

Definition Sum256 (msg : bytes) : bytes :=
  let p := sha_pad msg in
  sha_blocks (length p / 64) sha_H0 p ≫= be32.

Definition hex_char (v : Z) : Z := if v <? 10 then 48 + v else 87 + v.
Definition EncodeToString (s : bytes) : bytes :=
  s ≫= λ b, [hex_char (b / 16); hex_char (b mod 16)].

(** ** Shape of a digest *)

Lemma sha_round_length st kw : length (sha_round st kw) = length st.
Proof. unfold sha_round. by repeat case_match. Qed.

Lemma sha_block_length st block : length (sha_block st block) = length st.
Proof.
  unfold sha_block. rewrite length_zip_with.
  assert (∀ l st, length (foldl sha_round st l) = length st) as Hl.
  { induction l as [|kw l IH]; intros st'; cbn; [done|]. by rewrite IH, sha_round_length. }
  rewrite Hl. lia.
Qed.

Lemma sha_blocks_length n st s : length (sha_blocks n st s) = length st.
Proof.
  revert st s. induction n as [|n IH]; intros st s; cbn; [done|]. by rewrite IH, sha_block_length.
Qed.

Lemma Forall_be32 w : Forall is_byte (be32 w).
Proof. unfold be32, is_byte. cbn. repeat constructor; apply Z.mod_pos_bound; lia. Qed.

Lemma Sum256_bytes msg : Forall is_byte (Sum256 msg).
Proof. apply Forall_bind, Forall_forall. intros w _. apply Forall_be32. Qed.

Lemma bind_length {A B} (f : A → list B) k l :
  (∀ x, length (f x) = k) → length (l ≫= f) = (length l * k)%nat.
Proof. intros Hf. induction l as [|x l IH]; [done|]. rewrite bind_cons, length_app, Hf, IH. done. Qed.

Lemma Sum256_length msg : length (Sum256 msg) = 32%nat.
Proof. unfold Sum256. rewrite (bind_length _ 4) by done. by rewrite sha_blocks_length. Qed.

(** The characters of a lower-case hexadecimal text. *)
Definition is_hex (c : Z) : Prop := 48 <= c <= 57 ∨ 97 <= c <= 102.

Lemma EncodeToString_length s : length (EncodeToString s) = (2 * length s)%nat.
Proof. unfold EncodeToString. rewrite (bind_length _ 2) by done. lia. Qed.

Lemma EncodeToString_hex s : Forall is_byte s → Forall is_hex (EncodeToString s).
Proof.
  intros Hs. apply Forall_bind. eapply Forall_impl; [done|]. intros b Hb. unfold is_byte in Hb.
  assert (∀ v, 0 <= v < 16 → is_hex (hex_char v)) as Hh.
  { intros v Hv. unfold hex_char, is_hex. zcase; lia. }
  constructor; [|constructor; [|constructor]]; apply Hh.
  - split; [apply Z.div_pos|apply Z.div_lt_upper_bound]; lia.
  - apply Z.mod_pos_bound; lia.
Qed.

Lemma EncodeToString_inj s t : Forall is_byte s → Forall is_byte t →
  EncodeToString s = EncodeToString t → s = t.
Proof.
  assert (∀ x y, 0 <= x < 16 → 0 <= y < 16 → hex_char x = hex_char y → x = y) as Hh.
  { intros x y Hx Hy. unfold hex_char. repeat zcase; lia. }
  intros Hs. revert t. induction Hs as [|b s Hb Hs IH]; intros t Ht E; destruct Ht as [|c t Hc Ht]; try done.
  unfold EncodeToString in E. rewrite !bind_cons in E. cbn [app] in E. injection E as E1 E2 E3.
  unfold is_byte in *. f_equal; [|by apply IH].
  apply Hh in E1; [|Z.div_mod_to_equations; lia..]. apply Hh in E2; [|apply Z.mod_pos_bound; lia..].
  rewrite (Z.div_mod b 16), (Z.div_mod c 16) by lia. by rewrite E1, E2.
Qed.

(** ** Test vectors *)
Example sha_abc : EncodeToString (Sum256 (str "abc"))
  = str "ba7816bf8f01cfea414140de5dae2223b00361a396177a9cb410ff61f20015ad".
Proof. vm_compute. reflexivity. Qed.
Example sha_empty : EncodeToString (Sum256 [])
  = str "e3b0c44298fc1c149afbf4c8996fb92427ae41e4649b934ca495991b7852b855".
Proof. vm_compute. reflexivity. Qed.
Example sha_two_blocks : EncodeToString (Sum256 (str "abcdbcdecdefdefgefghfghighijhijkijkljklmklmnlmnomnopnopq"))
  = str "248d6a61d20638b8e5c026930c3e6039a33ce45964ff2167f6ecedd419db06c1".
Proof. vm_compute. reflexivity. Qed.
