(* ===== verification/Canon.v ===== *)
(** * [internal/canon]: canonical JSON and state hashes

    [Canonicalize], [CanonicalValue], [emit] and [WriteString] of canon.go and
    the hashing functions of hash.go.  The abstract content of a message is the
    Go value its JSON text decodes to, up to the iteration order of maps
    ([any_eqv]); the canonical text is a faithful name for that content. *)
From S2P Require Import Prelude Utf8 GoBytes Json JsonFacts JsonRender Sha256.

(** ** canon.go *)

Inductive canon_error : Type := canon_decode | canon_marshal | canon_unsupported.

(** [fmt.Fprintf(b, `\u%04x`, r)] *)
Definition Fprintf_u04x (r : Z) : bytes :=
  [92; 117; hex_digit (r / 4096 mod 16); hex_digit (r / 256 mod 16);
   hex_digit (r / 16 mod 16); hex_digit (r mod 16)].

Definition write_rune (r : Z) : bytes :=
  if r =? 34 then [92; 34]
  else if r =? 92 then [92; 92]
  else if r =? 10 then [92; 110]
  else if r =? 13 then [92; 114]
  else if r =? 9 then [92; 116]
  else if r =? 8 then [92; 98]
  else if r =? 12 then [92; 102]
  else if r <? 0x20 then Fprintf_u04x r
  else EncodeRune r.

Definition WriteString (s : bytes) : bytes := [34] ++ (runes s ≫= write_rune) ++ [34].

(** [sort.Strings]: byte order. *)
Definition sort_Strings (l : list bytes) : list bytes := merge_sort bytes_le l.

(** The loop over an array; [i] is the loop index. *)
Fixpoint emit_elems (i : nat) (l : list (result canon_error bytes)) : result canon_error bytes :=
  match l with
  | [] => Ok []
  | e :: l' =>
    t ← e; rest ← emit_elems (S i) l';
    Ok ((if (0 <? i)%nat then [44] else []) ++ t ++ rest)
  end.

(** The loop over the sorted keys; a key absent from the map reads as nil. *)
Fixpoint emit_members (i : nat) (x : list (bytes * result canon_error bytes)) (keys : list bytes) :
    result canon_error bytes :=
  match keys with
  | [] => Ok []
  | k :: keys' =>
    t ← match map_get k x with Some t => t | None => Ok (str "null") end; rest ← emit_members (S i) x keys';
    Ok ((if (0 <? i)%nat then [44] else []) ++ WriteString k ++ [58] ++ t ++ rest)
  end.

(** The type switch of [emit]; the text it appends to the buffer. *)
Fixpoint emit (v : any) : result canon_error bytes :=
  match v with
  | ANull => Ok (str "null")
  | ABool x => Ok (if x then str "true" else str "false")
  | ANum x => Ok x
  | AStr x => Ok (WriteString x)
  | AArr x => t ← emit_elems 0 (map emit x); Ok ([91] ++ t ++ [93])
  | AMap x =>
    let keys := sort_Strings (x.*1) in
    t ← emit_members 0 (map (λ '(k, e), (k, emit e)) x) keys; Ok ([123] ++ t ++ [125])
  | AOther => Err canon_unsupported
  end.

Definition Canonicalize (raw : bytes) : result canon_error bytes :=
  match Decode raw with
  | None => Err canon_decode
  | Some v => emit v
  end.

Definition CanonicalValue (v : any) : result canon_error bytes :=
  match Marshal v with
  | None => Err canon_marshal
  | Some b => Canonicalize b
  end.

(** ** hash.go *)

Definition HashBytes (data : bytes) : bytes := EncodeToString (Sum256 data).

Fixpoint message_loop (i : nat) (msgs : list bytes) : bytes :=
  match msgs with
  | [] => []
  | m :: msgs' => (if (0 <? i)%nat then [44] else []) ++ m ++ message_loop (S i) msgs'
  end.

Definition MessageArray (msgs : list bytes) : bytes := [91] ++ message_loop 0 msgs ++ [93].

Definition HistoryHash (msgs : list bytes) : bytes := HashBytes (MessageArray msgs).

Definition FullState (msgs : list bytes) (assistant : bytes) : bytes :=
  MessageArray (msgs ++ [assistant]).

Definition Short (s : bytes) : bytes := if (12 <? length s)%nat then take 12 s else s.

(** ** String quoting *)

Lemma parse_piece c t out rest : c ≠ 34 → lex_char (c :: t ++ rest) = Some (out, length t) →
  parse_string 0 (c :: t ++ rest) = prep out (parse_string 0 rest).
Proof. intros Hc E. rewrite (parse_string_lex c _ out (length t)) by done. by rewrite drop_app_length. Qed.

Lemma hex_val_digit v : 0 <= v < 16 → hex_val (hex_digit v) = Some v.
Proof.
  intros Hv. unfold hex_digit, hex_val, is_digit.
  destruct (Z.ltb_spec v 10).
  - btrue ((48 <=? 48 + v) && (48 + v <=? 57)). f_equal. lia.
  - bfalse ((48 <=? 87 + v) && (87 + v <=? 57)). btrue ((97 <=? 87 + v) && (87 + v <=? 102)).
    f_equal. lia.
Qed.

(** A [\uXXXX] escape of an ASCII code decodes to that code. *)
Lemma parse_u_escape r h1 h2 h3 h4 rest : 0 <= r < 0xD800 →
  hex_val h1 = Some (r / 4096 mod 16) → hex_val h2 = Some (r / 256 mod 16) →
  hex_val h3 = Some (r / 16 mod 16) → hex_val h4 = Some (r mod 16) →
  parse_string 0 (92 :: [117; h1; h2; h3; h4] ++ rest) = prep (EncodeRune r) (parse_string 0 rest).
Proof.
  intros Hr H1 H2 H3 H4. apply parse_piece; [done|].
  unfold lex_char. cbn [app]. change (92 =? 92) with true. change (117 =? 117) with true. cbv iota beta.
  assert (getu4 (92 :: 117 :: h1 :: h2 :: h3 :: h4 :: rest) = Some r) as ->.
  { unfold getu4. cbn [Z.eqb Pos.eqb andb]. rewrite H1, H2, H3, H4. cbn. f_equal.
    Z.div_mod_to_equations. lia. }
  cbn [mbind option_bind]. unfold is_surrogate. bfalse ((0xD800 <=? r) && (r <? 0xE000)). done.
Qed.

(** A rune written as itself. *)
Lemma parse_plain r rest : scalar r → 0x20 <= r → r ≠ 34 → r ≠ 92 →
  parse_string 0 (EncodeRune r ++ rest) = prep (EncodeRune r) (parse_string 0 rest).
Proof.
  intros Hr H20 H34 H92. pose proof (EncodeRune_encoding r Hr) as He.
  destruct (encoding_cons _ _ He) as (b&t&E&Hb). rewrite E. cbn [app]. apply parse_piece; [lia|].
  unfold lex_char. bfalse (b =? 92). bfalse (b <? 32). destruct Hb as [(?&->&->)|[? ?]].
  - by btrue (r <? 128).
  - bfalse (b <? 128). change (b :: t ++ rest) with ((b :: t) ++ rest). rewrite <-E.
    rewrite DecodeRune_EncodeRune by done. by rewrite E.
Qed.

Lemma parse_simple r e rest : 0 <= r < 128 → simple_escape e = Some r → e ≠ 117 →
  parse_string 0 (92 :: e :: rest) = prep (EncodeRune r) (parse_string 0 rest).
Proof.
  intros Hr He Hu. rewrite EncodeRune_ascii by done. apply (parse_piece 92 [e]); [done|].
  unfold lex_char. cbn [app]. change (92 =? 92) with true. cbv iota.
  destruct (Z.eqb_spec e 117); [done|]. by rewrite He.
Qed.

Lemma parse_write_rune r rest : scalar r →
  parse_string 0 (write_rune r ++ rest) = prep (EncodeRune r) (parse_string 0 rest).
Proof.
  intros Hr. unfold write_rune.
  repeat (match goal with |- context [r =? ?x] => destruct (Z.eqb_spec r x) as [->|] end;
    [by apply parse_simple|]).
  destruct (Z.ltb_spec r 32).
  - unfold Fprintf_u04x. unfold scalar in Hr. cbn [app].
    apply parse_u_escape; [lia|apply hex_val_digit, Z.mod_pos_bound; lia..].
  - by apply parse_plain.
Qed.

(** A rune-wise quoting whose pieces parse back is undone by the parser. *)
Lemma parse_runes (w : Z → bytes) rs rest :
  (∀ r rest, scalar r → parse_string 0 (w r ++ rest) = prep (EncodeRune r) (parse_string 0 rest)) →
  Forall scalar rs →
  parse_string 0 ((rs ≫= w) ++ 34 :: rest) = Some (rs ≫= EncodeRune, rest).
Proof.
  intros Hw. induction 1 as [|r rs Hr Hrs IH]; [done|].
  rewrite !bind_cons, <-app_assoc, Hw, IH by done. done.
Qed.

(** Whatever the bytes, reading a written string gives its valid form. *)
Lemma parse_WriteString s rest :
  parse_string 0 ((runes s ≫= write_rune) ++ 34 :: rest) = Some (ToValid s, rest).
Proof. apply parse_runes; [apply parse_write_rune|apply runes_scalar]. Qed.

Lemma good_WriteString : good_quote WriteString.
Proof.
  intros s Hs. eexists. split; [reflexivity|]. intros rest. norm_app.
  rewrite parse_WriteString. by rewrite Hs.
Qed.

(** [json.Marshal]'s quoting is undone as well. *)
Lemma parse_marshal_rune r w rest : scalar r → w = length (EncodeRune r) →
  parse_string 0 (marshal_rune r w ++ rest) = prep (EncodeRune r) (parse_string 0 rest).
Proof.
  intros Hr Hw. unfold marshal_rune. destruct (Z.ltb_spec r 128).
  - destruct ((r =? 34) || (r =? 92)) eqn:E1.
    { cbn [app]. apply parse_simple; [unfold scalar in Hr; lia| |lia].
      unfold simple_escape. by btrue ((r =? 34) || (r =? 92) || (r =? 47)). }
    do 5 (match goal with |- context [r =? ?x] => destruct (Z.eqb_spec r x) as [->|] end;
      [by apply parse_simple|]).
    destruct ((r <? 32) || (r =? 60) || (r =? 62) || (r =? 38)) eqn:E2.
    + unfold scalar in Hr. unfold u00. cbn [app].
      apply (parse_u_escape r 48 48 (hex_digit (r / 16)) (hex_digit (r mod 16)) rest); [lia|..].
      * replace (r / 4096) with 0 by (symmetry; apply Z.div_small; lia). done.
      * replace (r / 256) with 0 by (symmetry; apply Z.div_small; lia). done.
      * rewrite hex_val_digit by (Z.div_mod_to_equations; lia). f_equal. symmetry.
        apply Z.mod_small. Z.div_mod_to_equations; lia.
      * apply hex_val_digit, Z.mod_pos_bound. lia.
    + rewrite <-(EncodeRune_ascii r) at 1 by (unfold scalar in Hr; lia). apply parse_plain; [done|lia..].
  - destruct ((r =? RuneError) && (w =? 1)%nat) eqn:E1.
    { exfalso. apply andb_true_iff in E1 as [E1%Z.eqb_eq E2%Nat.eqb_eq]. subst. done. }
    do 2 (match goal with |- context [r =? ?x] => destruct (Z.eqb_spec r x) as [->|] end;
      [by apply (parse_u_escape _ _ _ _ _ rest)|]).
    apply parse_plain; [done|lia..].
Qed.

Lemma marshal_string_drop k s : marshal_string_from k s = marshal_string_from 0 (drop k s).
Proof. revert k. induction s as [|b s IH]; intros [|k]; try done. apply IH. Qed.

Lemma marshal_string_encode r s : scalar r →
  marshal_string_from 0 (EncodeRune r ++ s)
  = marshal_rune r (length (EncodeRune r)) ++ marshal_string_from 0 s.
Proof.
  intros Hr. pose proof (DecodeRune_EncodeRune r s Hr) as E.
  pose proof (EncodeRune_not_nil r). destruct (EncodeRune r) as [|b t] eqn:Er; [done|].
  cbn [app marshal_string_from] in *. rewrite E. f_equal.
  rewrite marshal_string_drop. cbn. by rewrite drop_app_length.
Qed.

Lemma marshal_string_runes rs : Forall scalar rs →
  marshal_string_from 0 (rs ≫= EncodeRune) = rs ≫= λ r, marshal_rune r (length (EncodeRune r)).
Proof.
  induction 1 as [|r rs Hr Hrs IH]; [done|]. rewrite !bind_cons, marshal_string_encode by done.
  by rewrite IH.
Qed.

Lemma good_marshal_string : good_quote marshal_string.
Proof.
  intros s Hs. eexists. split; [reflexivity|]. intros rest. norm_app.
  assert (Hr : Forall scalar (runes s)) by apply runes_scalar.
  replace (marshal_string_from 0 s) with (marshal_string_from 0 (ToValid s)) by (by rewrite Hs).
  unfold ToValid. rewrite marshal_string_runes by done.
  rewrite parse_runes; [do 2 f_equal; exact Hs| |done]. intros r rest' Hsc. by apply parse_marshal_rune.
Qed.

(** ** [emit] is the sorted rendering *)

Lemma Join_cons x l sep : Join (x :: l) sep = x ++ match l with [] => [] | _ => sep ++ Join l sep end.
Proof. destruct l; [by rewrite app_nil_r|done]. Qed.

Lemma emit_elems_ok i ts : emit_elems (S i) (Ok <$> ts)
  = Ok (match ts with [] => [] | _ => 44 :: Join ts [44] end).
Proof.
  revert i. induction ts as [|t ts IH]; intros i; [done|]. cbn [fmap list_fmap emit_elems].
  rewrite IH. cbn [mbind result_bind]. f_equal. rewrite Join_cons. by destruct ts.
Qed.

Lemma emit_elems_ok0 ts : emit_elems 0 (Ok <$> ts) = Ok (Join ts [44]).
Proof.
  destruct ts as [|t ts]; [done|]. cbn [fmap list_fmap emit_elems]. rewrite emit_elems_ok.
  cbn [mbind result_bind]. rewrite Join_cons. by destruct ts.
Qed.

Definition member_text (p : bytes * bytes) : bytes := WriteString p.1 ++ 58 :: p.2.

Lemma emit_members_ok i x l :
  Forall (λ p, map_get p.1 x = Some (Ok p.2)) l →
  emit_members (S i) x (l.*1) = Ok (match l with [] => [] | _ => 44 :: Join (map member_text l) [44] end).
Proof.
  intros Hl. revert i. induction Hl as [|[k t] l Hk Hl IH]; intros i; [done|].
  cbn [fmap list_fmap emit_members fst]. cbn in Hk. rewrite Hk. cbn [mbind result_bind]. rewrite IH.
  cbn [mbind result_bind map]. rewrite Join_cons. change (member_text (k, t)) with (WriteString k ++ 58 :: t).
  f_equal. destruct l; cbn [map]; norm_app; by rewrite ?app_nil_r.
Qed.

Lemma emit_members_ok0 x l :
  Forall (λ p, map_get p.1 x = Some (Ok p.2)) l →
  emit_members 0 x (l.*1) = Ok (Join (map member_text l) [44]).
Proof.
  intros Hl. destruct Hl as [|[k t] l Hk Hl]; [done|].
  cbn [fmap list_fmap emit_members fst]. cbn in Hk. rewrite Hk. cbn [mbind result_bind].
  rewrite (emit_members_ok 0 x l Hl). cbn [mbind result_bind map]. rewrite Join_cons.
  change (member_text (k, t)) with (WriteString k ++ 58 :: t).
  f_equal. destruct l; cbn [map]; norm_app; by rewrite ?app_nil_r.
Qed.

Lemma map_get_elem {A} k (x : A) m : NoDup m.*1 → (k, x) ∈ m → map_get k m = Some x.
Proof.
  induction m as [|[k' x'] m IH]; [set_solver|]. cbn. intros [Hk Hm]%NoDup_cons Hin.
  apply elem_of_cons in Hin as [[= -> ->]|Hin]; [by rewrite decide_True|].
  rewrite decide_False; [by apply IH|]. intros ->. destruct Hk. by apply (list_elem_of_fmap_2 fst _ (k', x)).
Qed.

Lemma sort_Strings_keys {A} (m : list (bytes * A)) : NoDup m.*1 →
  sort_Strings m.*1 = (sort_entries m).*1.
Proof.
  intros Hnd. eapply (Sorted_unique bytes_le); [apply Sorted_merge_sort, _| |].
  - pose proof (sort_entries_sorted m) as Hs. induction Hs as [|p l Hl IH Hhd]; cbn; constructor; [done|].
    destruct Hhd; cbn; by constructor.
  - etrans; [apply merge_sort_Permutation|]. by rewrite sort_entries_perm.
Qed.

Lemma emit_render v : any_wf v → emit v = Ok (render WriteString v).
Proof.
  induction v as [|[]|l|s|es IH|m IH|] using any_ind'; intros Hwf; inversion Hwf as [| | | |? Hes|? Hnd Hm]; subst; try done.
  - cbn [emit]. assert (map emit es = Ok <$> (map (render WriteString) es)) as ->.
    { clear Hwf. induction IH as [|e es He IH IHe]; [done|]. apply Forall_cons in Hes as [? ?].
      cbn. rewrite He by done. f_equal. by apply IHe. }
    rewrite emit_elems_ok0. done.
  - cbn [emit]. assert (map (λ '(k, e), (k, emit e)) m = map_vals Ok (map_vals (render WriteString) m)) as ->.
    { rewrite map_vals_compose. apply (map_vals_ext emit). rewrite Forall_forall in *.
      intros p Hp. by apply IH, Hm. }
    set (x := map_vals (render WriteString) m).
    assert (NoDup x.*1) as Hx by (unfold x; by rewrite map_vals_keys).
    assert (m.*1 = x.*1) as -> by (unfold x; by rewrite map_vals_keys).
    rewrite sort_Strings_keys by done. rewrite emit_members_ok0.
    + cbn [mbind result_bind]. rewrite render_map. fold x. do 4 f_equal. apply map_ext. by intros [k t].
    + apply Forall_forall. intros [k t] Hin. rewrite sort_entries_perm in Hin. cbn.
      apply map_get_elem; [by rewrite map_vals_keys|].
      unfold map_vals. apply list_elem_of_In, in_map_iff. exists (k, t). by rewrite <-list_elem_of_In.
Qed.

(** ** What canonicalization promises *)

Lemma Canonicalize_ok raw v : Decode raw = Some v →
  Canonicalize raw = Ok (render WriteString v) ∧ any_wf v ∧ any_depth v <= max_depth.
Proof.
  intros E. pose proof (Decode_wf _ _ E) as [Hwf Hd]. unfold Canonicalize. rewrite E.
  by rewrite emit_render.
Qed.

Lemma Canonicalize_inv raw c : Canonicalize raw = Ok c →
  ∃ v, Decode raw = Some v ∧ c = render WriteString v ∧ any_wf v ∧ any_depth v <= max_depth.
Proof.
  destruct (Decode raw) as [v|] eqn:E; [|unfold Canonicalize; by rewrite E].
  destruct (Canonicalize_ok _ _ E) as (->&?&?). intros [= <-]. by exists v.
Qed.

Lemma marshalable_wf v : any_wf v → marshalable v = true.
Proof.
  induction v as [| |l| |es IH|m IH|] using any_ind'; intros Hwf;
    inversion Hwf as [| | | |? Hes|? Hnd Hm]; subst; try done.
  - by apply bool_decide_eq_true.
  - apply forallb_forall. intros e He%list_elem_of_In. rewrite Forall_forall in *. by apply IH, Hes.
  - apply forallb_forall. intros [k e] He%list_elem_of_In. rewrite Forall_forall in *.
    by apply (IH (k, e)), (Hm (k, e)).
Qed.

Lemma CanonicalValue_render v : any_wf v → any_depth v <= max_depth →
  CanonicalValue v = Ok (render WriteString v).
Proof.
  intros Hwf Hd. unfold CanonicalValue, Marshal. rewrite marshalable_wf by done.
  pose proof (Decode_render marshal_string v good_marshal_string Hwf Hd) as E.
  destruct (Canonicalize_ok _ _ E) as (->&_). by rewrite render_norm.
Qed.

(** The canonical text of a value decodes to that value. *)
Lemma Decode_canonical raw c v : Decode raw = Some v → Canonicalize raw = Ok c →
  Decode c = Some (norm v).
Proof.
  intros E Ec. destruct (Canonicalize_inv _ _ Ec) as (v'&E'&->&Hwf&Hd).
  rewrite E in E'. injection E' as <-. by apply Decode_render; [apply good_WriteString|..].
Qed.

(** Joining canonical texts into an array loses nothing. *)
Lemma canonical_idempotent raw c : Canonicalize raw = Ok c → Canonicalize c = Ok c.
Proof.
  intros Ec. destruct (Canonicalize_inv _ _ Ec) as (v&E&->&Hwf&Hd).
  destruct (Canonicalize_ok _ _ (Decode_canonical _ _ _ E Ec)) as (->&_&_).
  by rewrite render_norm.
Qed.

Lemma message_loop_Join i ts :
  message_loop (S i) ts = match ts with [] => [] | _ => 44 :: Join ts [44] end.
Proof.
  revert i. induction ts as [|t ts IH]; intros i; [done|]. cbn [message_loop].
  rewrite IH, Join_cons. by destruct ts.
Qed.

Lemma MessageArray_Join ts : MessageArray ts = [91] ++ Join ts [44] ++ [93].
Proof.
  destruct ts as [|t ts]; [done|]. unfold MessageArray. cbn [message_loop].
  rewrite message_loop_Join, Join_cons. by destruct ts.
Qed.

(** The texts canonicalization produces. *)
Definition canonical_text (m : bytes) : Prop := ∃ v, any_wf v ∧ m = render WriteString v.

Lemma Canonicalize_text raw c : Canonicalize raw = Ok c → canonical_text c.
Proof. intros (v&_&->&Hwf&_)%Canonicalize_inv. by exists v. Qed.

Lemma canonical_texts ms : Forall canonical_text ms →
  ∃ vs, ms = map (render WriteString) vs ∧ Forall any_wf vs.
Proof.
  induction 1 as [|m ms (v&Hv&->) Hms (vs&->&Hvs)]; [by exists []|].
  exists (v :: vs). split; [done|by constructor].
Qed.

Lemma MessageArray_render vs :
  MessageArray (map (render WriteString) vs) = render WriteString (AArr vs).
Proof. by rewrite MessageArray_Join. Qed.

Lemma render_inj_list vs vs' : Forall any_wf vs → Forall any_wf vs' → Forall2 any_eqv vs vs' →
  map (render WriteString) vs = map (render WriteString) vs'.
Proof.
  intros Hvs Hvs' Hall. induction Hall as [|v v' vs vs' Hv Hall IH]; [done|].
  apply Forall_cons in Hvs as [Hw Hvs], Hvs' as [Hw' Hvs']. cbn. f_equal; [|by apply IH].
  by apply render_inj; [apply good_WriteString|..].
Qed.

Lemma MessageArray_inj ms ms' : Forall canonical_text ms → Forall canonical_text ms' →
  MessageArray ms = MessageArray ms' → ms = ms'.
Proof.
  intros (vs&->&Hvs)%canonical_texts (vs'&->&Hvs')%canonical_texts E.
  rewrite !MessageArray_render, render_inj in E; [|apply good_WriteString|by constructor..].
  inversion E as [| | | |? ? Hall| |]; subst. by apply render_inj_list.
Qed.

Lemma FullState_HistoryHash ms a : HashBytes (FullState ms a) = HistoryHash (ms ++ [a]).
Proof. done. Qed.

(** Two texts that differ but have the same digest. *)
Definition collides (x y : bytes) : Prop := x ≠ y ∧ Sum256 x = Sum256 y.

Lemma HashBytes_inj x y : HashBytes x = HashBytes y → x = y ∨ collides x y.
Proof.
  intros E. destruct (decide (x = y)); [by left|]. right. split; [done|].
  apply EncodeToString_inj; [apply Sum256_bytes..|done].
Qed.

Lemma HistoryHash_inj ms ms' : Forall canonical_text ms → Forall canonical_text ms' →
  HistoryHash ms = HistoryHash ms' → ms = ms' ∨ collides (MessageArray ms) (MessageArray ms').
Proof. intros Hms Hms' [E|Hc]%HashBytes_inj; [left|by right]. by apply MessageArray_inj. Qed.

Lemma canonical_all_texts ms : Forall (λ m, ∃ raw, Canonicalize raw = Ok m) ms → Forall canonical_text ms.
Proof. intros Hl. eapply Forall_impl; [exact Hl|]. intros m [raw Hm]. by eapply Canonicalize_text. Qed.

(** Equivalent values are both well formed. *)
Lemma any_eqv_wf v v' : any_eqv v v' → any_wf v → any_wf v'.
Proof.
  revert v'. induction v as [| | | |es IH|m IH|] using any_ind'; intros v' E Hwf;
    inversion E as [| | | |? es' Hall|? m' m'' Hall Hp|]; subst; try done;
    inversion Hwf as [| | | |? Hes|? Hnd Hm]; subst.
  - constructor. clear E Hwf. revert es' Hall Hes. induction IH; intros es' Hall Hes;
      inversion Hall; subst; [constructor|]. apply Forall_cons in Hes as [? ?]. constructor; eauto.
  - assert (m''.*1 = m.*1) as Ek.
    { clear -Hall. induction Hall as [|p q m m'' [Hk _] Hall IH]; [done|]. cbn. by rewrite Hk, IH. }
    constructor; [by rewrite <-Hp, Ek|]. rewrite <-Hp. clear E Hwf Hp Hnd Ek. revert m'' Hall.
    induction IH as [|p m Hx IH IHm]; intros m'' Hall; inversion Hall as [|? q ? ? [Hk He]]; subst;
      [constructor|]. apply Forall_cons in Hm as [[Hu Hw] Hm]. constructor; [|by apply IHm].
    rewrite <-Hk. eauto.
Qed.

(** ** Clean text: valid UTF-8 without control bytes *)
Definition clean (t : bytes) : Prop := valid_utf8 t ∧ Forall (λ b, 0x20 <= b) t.

Lemma clean_app s t : clean s → clean t → clean (s ++ t).
Proof. intros [??] [??]. split; [by apply valid_utf8_app|by apply Forall_app]. Qed.

Lemma clean_ascii s : Forall (λ b, 0x20 <= b < 0x80) s → clean s.
Proof.
  intros Hs. split; [apply valid_utf8_ascii|]; eapply Forall_impl; try done; intros; cbn in *; lia.
Qed.

Lemma clean_cons b t : 0x20 <= b < 0x80 → clean t → clean (b :: t).
Proof. intros Hb Ht. apply (clean_app [b]); [|done]. by apply clean_ascii, Forall_singleton. Qed.

Lemma clean_write_rune r : scalar r → clean (write_rune r).
Proof.
  intros Hr. unfold write_rune.
  repeat (match goal with |- context [r =? ?x] => destruct (Z.eqb_spec r x) as [->|] end;
    [by apply clean_ascii; repeat constructor|]).
  destruct (Z.ltb_spec r 32).
  - apply clean_ascii. unfold Fprintf_u04x.
    assert (∀ v, 0 <= v < 16 → 0x20 <= hex_digit v < 0x80) as Hh.
    { intros v Hv. unfold hex_digit. zcase; lia. }
    repeat (constructor; [try lia; apply Hh, Z.mod_pos_bound; lia|]). constructor.
  - split.
    + apply valid_utf8_iff. exists [r]. split; [by constructor|]. by rewrite bind_cons, app_nil_r.
    + pose proof (EncodeRune_encoding r Hr) as He. clear Hr. destruct He; repeat constructor; lia.
Qed.

Lemma clean_WriteString s : clean (WriteString s).
Proof.
  apply clean_cons; [lia|]. apply clean_app; [|by apply clean_ascii; repeat constructor].
  pose proof (runes_scalar s) as Hs. induction Hs as [|r rs Hr Hrs IH]; [by repeat constructor|].
  rewrite bind_cons. apply clean_app; [by apply clean_write_rune|done].
Qed.

Lemma clean_Join ts : Forall clean ts → clean (Join ts [44]).
Proof.
  induction 1 as [|t ts Ht Hts IH]; [by repeat constructor|]. rewrite Join_cons.
  apply clean_app; [done|]. destruct ts; [by repeat constructor|]. by apply clean_cons.
Qed.

Lemma take_digits_ascii s : Forall (λ b, 0x20 <= b < 0x80) (take_digits s).1.
Proof.
  induction s as [|c s IH]; cbn; [constructor|]. unfold is_digit.
  destruct ((48 <=? c) && (c <=? 57)) eqn:E; [|constructor].
  destruct (take_digits s). cbn in *. constructor; [lia|done].
Qed.

Lemma digits1_ascii s ds r : digits1 s = Some (ds, r) → Forall (λ b, 0x20 <= b < 0x80) ds.
Proof.
  unfold digits1. pose proof (take_digits_ascii s) as H. destruct (take_digits s) as [[|]]; [done|].
  by intros [= <- <-].
Qed.

Definition ascii_part (o : option (bytes * bytes)) : Prop :=
  ∀ l r, o = Some (l, r) → Forall (λ b, 0x20 <= b < 0x80) l.

Lemma ascii_part_bind o (f : bytes → bytes) :
  ascii_part o → (∀ l, Forall (λ b, 0x20 <= b < 0x80) l → Forall (λ b, 0x20 <= b < 0x80) (f l)) →
  ascii_part ('(l, r) ← o; Some (f l, r)).
Proof.
  intros Ho Hf l r. destruct o as [[l' r']|]; cbn; [|done]. intros [= <- <-]. by eapply Hf, Ho.
Qed.

Lemma scan_int_ascii s : ascii_part (scan_int s).
Proof.
  intros l r. destruct s as [|c s]; [done|]. unfold scan_int. destruct (c =? 48).
  - intros [= <- <-]. by repeat constructor.
  - apply digits1_ascii.
Qed.

Lemma scan_frac_ascii s : ascii_part (scan_frac s).
Proof.
  destruct s as [|c s]; unfold scan_frac; [intros l r [= <- <-]; constructor|].
  destruct (c =? 46); [|intros l r [= <- <-]; constructor].
  apply (ascii_part_bind _ (cons 46)); [intros l r; apply digits1_ascii|by constructor].
Qed.

Lemma scan_exp_ascii s : ascii_part (scan_exp s).
Proof.
  destruct s as [|c s]; unfold scan_exp; [intros l r [= <- <-]; constructor|].
  destruct ((c =? 101) || (c =? 69)) eqn:Hc; [|intros l r [= <- <-]; constructor].
  destruct s as [|g s]; [intros l r; done|]. destruct ((g =? 43) || (g =? 45)) eqn:Hg.
  - apply (ascii_part_bind _ (λ ds, c :: g :: ds)); [intros l r; apply digits1_ascii|].
    intros l Hl. constructor; [lia|]. constructor; [lia|done].
  - apply (ascii_part_bind _ (cons c)); [intros l r; apply digits1_ascii|].
    intros l Hl. constructor; [lia|done].
Qed.

Lemma scan_unsigned_ascii s : ascii_part (scan_unsigned s).
Proof.
  intros l r. unfold scan_unsigned.
  destruct (scan_int s) as [[i r1]|] eqn:E1; cbn; [|done].
  destruct (scan_frac r1) as [[f r2]|] eqn:E2; cbn; [|done].
  destruct (scan_exp r2) as [[e r3]|] eqn:E3; cbn; [|done]. intros [= <- <-].
  rewrite !Forall_app. split_and!; [by eapply scan_int_ascii|by eapply scan_frac_ascii|by eapply scan_exp_ascii].
Qed.

Lemma valid_number_ascii l : valid_number l → Forall (λ b, 0x20 <= b < 0x80) l.
Proof.
  unfold valid_number, scan_number. destruct l as [|c s]; [done|]. destruct (Z.eqb_spec c 45) as [->|].
  - destruct (scan_unsigned s) as [[l r]|] eqn:E; cbn; [|done]. intros [= -> ->].
    constructor; [lia|]. by eapply scan_unsigned_ascii.
  - intros E. by eapply scan_unsigned_ascii.
Qed.

Lemma clean_render v : any_wf v → clean (render WriteString v).
Proof.
  induction v as [|[]|l|s|es IH|m IH|] using any_ind'; intros Hwf;
    inversion Hwf as [| | | |? Hes|? Hnd Hm]; subst; try by (apply clean_ascii; repeat constructor).
  - by apply clean_ascii, valid_number_ascii.
  - apply clean_WriteString.
  - cbn [render]. apply clean_cons; [lia|]. apply clean_app; [|by apply clean_ascii; repeat constructor].
    apply clean_Join, Forall_forall. intros t (e&<-&He%list_elem_of_In)%list_elem_of_In%in_map_iff.
    rewrite Forall_forall in *. by apply IH, Hes.
  - rewrite render_map. apply clean_cons; [lia|].
    apply clean_app; [|by apply clean_ascii; repeat constructor].
    apply clean_Join, Forall_forall. intros t ([k e]&<-&He)%list_elem_of_In%in_map_iff.
    apply list_elem_of_In in He. rewrite sort_entries_perm in He.
    apply list_elem_of_In, in_map_iff in He as ([k' e']&[= <- <-]&He%list_elem_of_In).
    apply clean_app; [apply clean_WriteString|]. apply clean_cons; [lia|].
    rewrite Forall_forall in *. by apply (IH (k', e')), (Hm (k', e')).
Qed.

(** ** Properties *)

(** [C25] Canonicalization is idempotent: the canonical text of a JSON text is
    accepted again and is its own canonical text, so a message hashes the same
    however often it has been canonicalized. *)
Theorem Canonicalize_idempotent raw c : Canonicalize raw = Ok c → Canonicalize c = Ok c.
Proof. apply canonical_idempotent. Qed.

Definition sample_raw : bytes := js " {'role': 'user', 'n':1.50, 'content':'a\u0001<\u00e9>', 'role':null}".

Lemma Canonicalize_idempotent_witness :
  Canonicalize sample_raw = Ok (js "{'content':'a\u0001<" ++ [0xC3; 0xA9] ++ js ">','n':1.50,'role':null}") ∧
  Canonicalize (js "{'content':'a\u0001<" ++ [0xC3; 0xA9] ++ js ">','n':1.50,'role':null}")
  = Ok (js "{'content':'a\u0001<" ++ [0xC3; 0xA9] ++ js ">','n':1.50,'role':null}").
Proof.
  split; [vm_compute; reflexivity|].
  apply (Canonicalize_idempotent sample_raw). vm_compute. reflexivity.
Defined.

(** [C18] Two JSON texts have the same canonical text exactly when they decode
    to the same Go value up to the iteration order of maps: white space, key
    order and escaping never matter, and every difference of content
    (null against absent, number spelling, array order) always does. *)
Theorem Canonicalize_same_iff r1 r2 v1 v2 : Decode r1 = Some v1 → Decode r2 = Some v2 →
  Canonicalize r1 = Canonicalize r2 ↔ any_eqv v1 v2.
Proof.
  intros E1 E2. destruct (Canonicalize_ok _ _ E1) as (->&W1&_).
  destruct (Canonicalize_ok _ _ E2) as (->&W2&_).
  rewrite <-(render_inj WriteString) by (done || apply good_WriteString).
  split; congruence.
Qed.

Lemma Canonicalize_same_iff_witness :
  Canonicalize (js "{'a':1,'b':null}") = Canonicalize (js "{ 'b' : null, 'a' : 1 }") ↔
  any_eqv (AMap [(str "a", ANum (str "1")); (str "b", ANull)])
          (AMap [(str "b", ANull); (str "a", ANum (str "1"))]).
Proof. apply Canonicalize_same_iff; vm_compute; reflexivity. Defined.

(** Canonicalization fails exactly when the text does not start with a
    JSON value; the unsupported-type error of [emit] never occurs on decoded
    input. *)
Lemma Canonicalize_error_iff raw e :
  Canonicalize raw = Err e ↔ Decode raw = None ∧ e = canon_decode.
Proof.
  destruct (Decode raw) as [v|] eqn:E.
  - destruct (Canonicalize_ok _ _ E) as (->&_). naive_solver.
  - unfold Canonicalize. rewrite E. naive_solver.
Qed.

(** The text [emit] writes does not depend on Go's map iteration order:
    values equal up to the order of their maps, at any depth, give the same
    bytes. *)
Lemma emit_iteration_order v v' : any_wf v → any_eqv v v' → emit v = emit v'.
Proof.
  intros Hwf E. pose proof (any_eqv_wf _ _ E Hwf) as Hwf'. rewrite !emit_render by done.
  f_equal. by apply render_inj; [apply good_WriteString|..].
Qed.

(** [C26] The detour of [CanonicalValue] through [json.Marshal] (HTML escaping,
    sorted keys) and the decoder is invisible: the result is what [emit] writes
    for the value itself. *)
Theorem CanonicalValue_emit v : any_wf v → any_depth v <= max_depth →
  CanonicalValue v = emit v ∧ is_ok (emit v) = true.
Proof.
  intros Hwf Hd. rewrite (emit_render v), CanonicalValue_render by done. done.
Qed.

Lemma CanonicalValue_emit_witness :
  let v := AMap [(str "role", AStr (str "assistant")); (str "content", AStr (str "<b>&" ++ [0xE2; 0x80; 0xA8]))] in
  CanonicalValue v = emit v ∧ is_ok (emit v) = true.
Proof.
  apply CanonicalValue_emit;
    apply (Decode_wf (js "{'role':'assistant','content':'<b>&\u2028'}")); vm_compute; reflexivity.
Defined.

(** [C19] Equal state hashes mean equal conversation states: if two lists of
    canonical messages have the same [HistoryHash], they are the same list, or
    the two arrays are an explicit SHA-256 collision.  The array framing itself
    never confuses two conversations. *)
Theorem HistoryHash_separates ms ms' :
  Forall (λ m, ∃ raw, Canonicalize raw = Ok m) ms →
  Forall (λ m, ∃ raw, Canonicalize raw = Ok m) ms' →
  HistoryHash ms = HistoryHash ms' →
  ms = ms' ∨ (MessageArray ms ≠ MessageArray ms' ∧ Sum256 (MessageArray ms) = Sum256 (MessageArray ms')).
Proof. intros Hms Hms'. apply HistoryHash_inj; by apply canonical_all_texts. Qed.

Lemma HistoryHash_separates_witness :
  let m := js "{'role':'user'}" in
  [m] = [m] ∨ (MessageArray [m] ≠ MessageArray [m] ∧ Sum256 (MessageArray [m]) = Sum256 (MessageArray [m])).
Proof.
  apply HistoryHash_separates; [| |reflexivity];
    (constructor; [exists (js "{'role':'user'}"); vm_compute; reflexivity|constructor]).
Defined.

(** A hash is 64 lower-case hexadecimal characters, whatever the data; in
    particular it never contains the ':' that separates the parts of a key. *)
Lemma HashBytes_shape data :
  length (HashBytes data) = 64%nat ∧ Forall is_hex (HashBytes data) ∧ 58 ∉ HashBytes data.
Proof.
  assert (Forall is_hex (HashBytes data)) as Hh by apply EncodeToString_hex, Sum256_bytes.
  split_and!; [|done|].
  - unfold HashBytes. rewrite EncodeToString_length, Sum256_length. done.
  - intros Hin. rewrite Forall_forall in Hh. destruct (Hh _ Hin); lia.
Qed.

(** Canonical text is valid UTF-8 and contains no byte below 0x20, even
    when the input has invalid UTF-8 or escaped control characters. *)
Lemma Canonicalize_clean raw c : Canonicalize raw = Ok c →
  valid_utf8 c ∧ Forall (λ b, 0x20 <= b) c.
Proof. intros (v&_&->&Hwf&_)%Canonicalize_inv. by apply clean_render. Qed.

Lemma Canonicalize_clean_witness :
  valid_utf8 (js "'\u0000" ++ [0xEF; 0xBF; 0xBD; 34]) ∧
  Forall (λ b, 0x20 <= b) (js "'\u0000" ++ [0xEF; 0xBF; 0xBD; 34]).
Proof.
  apply (Canonicalize_clean (js "'\u0000" ++ [0xFF; 34])). vm_compute. reflexivity.
Defined.
