(* ===== verification/Sse.v ===== *)
(** * [internal/sse]: the event-stream scanner

    [Scan] walks over a raw payload and calls a function on every complete
    event.  The callback's captured variables are an explicit state [st]; the
    Boolean it returns says whether the scan goes on.  The abstract
    specification is [events]: the list of event payloads of a byte stream;
    [Scan] is a fold with early exit over that list ([Scan_refines_events]). *)
From S2P Require Import Prelude GoBytes.

(** ** sse.go *)

Record Event : Type := { Data : bytes }.

Section Scan.
Context {S : Type} (fn : S → Event → S * bool).

(** The [dispatch] closure on the collected data lines. *)
Definition dispatch (data : list bytes) (st : S) : list bytes * S * bool :=
  match data with
  | [] => (data, st, true)
  | _ =>
    let '(st', c) := fn st {| Data := Join data [10] |} in ([], st', c)
  end.

(** The line at the front of the payload and the rest after its newline. *)
Definition next_line (payload : bytes) : bytes * bytes :=
  match IndexByte payload 10 with
  | None => (payload, [])
  | Some j => (take j payload, drop (Datatypes.S j) payload)
  end.

(** The [switch] on one line. *)
Definition scan_line (line : bytes) (data : list bytes) (st : S) : list bytes * S * bool :=
  let line := TrimSuffix line [13] in
  match line with
  | [] => dispatch data st
  | c :: _ =>
    if c =? 58 then (data, st, true)
    else if HasPrefix line (str "data:") then
      let v := drop 5 line in (data ++ [TrimPrefix v [32]], st, true)
    else (data, st, true)
  end.

Fixpoint scan_loop (fuel : nat) (payload : bytes) (data : list bytes) (st : S) : S :=
  match fuel, payload with
  | O, _ => st
  | _, [] => (dispatch data st).1.2
  | Datatypes.S fuel, _ =>
    let '(line, rest) := next_line payload in
    let '(data', st', c) := scan_line line data st in
    if c then scan_loop fuel rest data' st' else st'
  end.

Definition Scan (payload : bytes) (st : S) : S :=
  scan_loop (Datatypes.S (length payload)) payload [] st.
End Scan.

(** ** Abstract specification *)

(** The lines of a stream; a trailing line without newline counts. *)
Fixpoint lines_from (cur : bytes) (s : bytes) : list bytes :=
  match s with
  | [] => match cur with [] => [] | _ => [cur] end
  | c :: s' => if c =? 10 then cur :: lines_from [] s' else lines_from (cur ++ [c]) s'
  end.
Definition lines (s : bytes) : list bytes := lines_from [] s.

Inductive line_kind : Type := Blank | DataLine (v : bytes) | Ignored.

Definition classify (line : bytes) : line_kind :=
  match TrimSuffix line [13] with
  | [] => Blank
  | l => match strip_prefix (str "data:") l with
         | Some v => DataLine (TrimPrefix v [32])
         | None => Ignored
         end
  end.

Definition flush (data : list bytes) : list bytes :=
  match data with [] => [] | _ => [Join data [10]] end.

Fixpoint events_of (data : list bytes) (ls : list bytes) : list bytes :=
  match ls with
  | [] => flush data
  | l :: ls' =>
    match classify l with
    | Blank => flush data ++ events_of [] ls'
    | DataLine v => events_of (data ++ [v]) ls'
    | Ignored => events_of data ls'
    end
  end.

Definition events (payload : bytes) : list bytes := events_of [] (lines payload).

(** Feed events to a callback until it returns false. *)
Fixpoint feed {S} (fn : S → Event → S * bool) (evs : list bytes) (st : S) : S :=
  match evs with
  | [] => st
  | e :: evs' => let '(st', c) := fn st {| Data := e |} in if c then feed fn evs' st' else st'
  end.

(** ** The scanner implements the specification *)

Lemma lines_from_line cur l s : 10 ∉ l → lines_from cur (l ++ 10 :: s) = (cur ++ l) :: lines s.
Proof.
  revert cur. induction l as [|c l IH]; intros cur Hl; cbn [app lines_from].
  - rewrite Z.eqb_refl. by rewrite app_nil_r.
  - apply not_elem_of_cons in Hl as [Hc Hl]. destruct (Z.eqb_spec c 10); [congruence|].
    rewrite IH by done. by rewrite <-app_assoc.
Qed.

Lemma lines_from_last cur s : 10 ∉ s → lines_from cur s = match cur ++ s with [] => [] | l => [l] end.
Proof.
  revert cur. induction s as [|c s IH]; intros cur Hs; cbn [lines_from].
  - rewrite app_nil_r. by destruct cur.
  - apply not_elem_of_cons in Hs as [Hc Hs]. destruct (Z.eqb_spec c 10); [congruence|].
    rewrite IH by done. by rewrite <-app_assoc.
Qed.

Lemma lines_next payload line rest : payload ≠ [] → next_line payload = (line, rest) →
  lines payload = line :: lines rest ∧ (length rest < length payload)%nat.
Proof.
  intros Hne. unfold next_line. destruct (IndexByte payload 10) as [j|] eqn:E; intros [= <- <-].
  - apply IndexByte_Some in E as [Hn Hj]. split; [|apply length_drop_lt; [lia|done]].
    unfold lines. rewrite <-(take_drop_middle payload j 10) at 1 by done.
    by rewrite lines_from_line.
  - apply IndexByte_None in E. unfold lines at 1. rewrite lines_from_last by done.
    destruct payload; [done|]. split; [done|simpl; lia].
Qed.

Lemma scan_line_classify {S} fn line data (st : S) :
  scan_line fn line data st =
  match classify line with
  | Blank => dispatch fn data st
  | DataLine v => (data ++ [v], st, true)
  | Ignored => (data, st, true)
  end.
Proof.
  unfold scan_line, classify. destruct (TrimSuffix line [13]) as [|c l] eqn:E; [done|].
  unfold HasPrefix. destruct (Z.eqb_spec c 58) as [->|Hc]; [done|].
  destruct (strip_prefix (str "data:") (c :: l)) as [v|] eqn:Ep; [|done].
  apply strip_prefix_Some in Ep. by rewrite Ep.
Qed.

Lemma scan_loop_feed {S} fn fuel payload data (st : S) : (length payload < fuel)%nat →
  scan_loop fn fuel payload data st = feed fn (events_of data (lines payload)) st.
Proof.
  revert payload data st. induction fuel as [|fuel IH]; intros payload data st Hf; [lia|].
  destruct (decide (payload = [])) as [->|Hne].
  - cbn. destruct data; [done|]. cbn. by destruct (fn st _) as [st' []].
  - assert (scan_loop fn (Datatypes.S fuel) payload data st =
      let '(line, rest) := next_line payload in
      let '(data', st', c) := scan_line fn line data st in
      if c then scan_loop fn fuel rest data' st' else st') as -> by (by destruct payload).
    destruct (next_line payload) as [line rest] eqn:El.
    destruct (lines_next _ _ _ Hne El) as [-> Hlt]. rewrite scan_line_classify. cbn [events_of].
    destruct (classify line) as [|v|]; [|apply IH; lia..].
    destruct data as [|d data]; cbn [dispatch flush app]; [apply IH; lia|].
    cbn [feed]. destruct (fn st _) as [st' []]; [|done]. apply IH. lia.
Qed.

(** ** Events of encoded streams *)

(** A line without newline that does not end in a carriage return. *)
Definition line_ok (l : bytes) : Prop := 10 ∉ l ∧ ∀ t, l ≠ t ++ [13].

Definition data_line (l : bytes) : bytes := str "data: " ++ l ++ [10].

(** An event of several data lines, closed by a blank line. *)
Definition encode_event (ls : list bytes) : bytes := (ls ≫= data_line) ++ [10].

Lemma classify_data l : line_ok l → classify (str "data: " ++ l) = DataLine l.
Proof.
  intros [_ Hl]. unfold classify. rewrite TrimSuffix_none.
  - cbn [str app]. rewrite <-(TrimPrefix_app [32] l) at 2. done.
  - intros t Ht. destruct l as [|x l] using rev_ind.
    + apply (f_equal last) in Ht. rewrite last_snoc in Ht. done.
    + rewrite app_assoc in Ht. apply app_inj_tail in Ht as [_ ->]. by apply (Hl l).
Qed.

Lemma lines_cons_nl s : lines (10 :: s) = [] :: lines s.
Proof. done. Qed.

Lemma lines_data_line l s : line_ok l → lines (data_line l ++ s) = (str "data: " ++ l) :: lines s.
Proof.
  intros [Hl _]. unfold lines.
  replace (data_line l ++ s) with ((str "data: " ++ l) ++ 10 :: s) by (unfold data_line; by norm_app).
  rewrite lines_from_line; [done|]. intros [Hin|Hin]%elem_of_app; [|done].
  vm_compute in Hin. repeat (apply elem_of_cons in Hin as [?|Hin]; [done|]). by apply elem_of_nil in Hin.
Qed.

Lemma events_of_encode ls data s : Forall line_ok ls → data ++ ls ≠ [] →
  events_of data (lines (encode_event ls ++ s)) = Join (data ++ ls) [10] :: events s.
Proof.
  intros Hls. revert data. induction Hls as [|l ls Hl Hls IH]; intros data Hne.
  - unfold encode_event. cbn [mbind list_bind app]. rewrite lines_cons_nl. cbn. rewrite app_nil_r in *.
    by destruct data.
  - unfold encode_event in *. rewrite bind_cons. rewrite <-!app_assoc. rewrite lines_data_line by done.
    cbn [events_of]. rewrite classify_data by done. rewrite <-app_assoc in IH.
    specialize (IH (data ++ [l])). rewrite <-app_assoc in IH. apply IH. by destruct data.
Qed.

Lemma events_encode evs s : Forall (λ ls, ls ≠ [] ∧ Forall line_ok ls) evs →
  events ((evs ≫= encode_event) ++ s) = map (λ ls, Join ls [10]) evs ++ events s.
Proof.
  induction 1 as [|ls evs [Hne Hls] Hevs IH]; [done|]. rewrite bind_cons, <-app_assoc.
  unfold events at 1. rewrite events_of_encode by done. cbn [app map]. by rewrite IH.
Qed.

(** ** Carriage returns *)

(** The stream with every newline written as CR LF. *)
Definition crlf (s : bytes) : bytes := s ≫= λ c, if c =? 10 then [13; 10] else [c].

Lemma classify_cr l : 13 ∉ l → classify (l ++ [13]) = classify l.
Proof.
  intros Hl. unfold classify. rewrite TrimSuffix_app, TrimSuffix_none; [done|].
  intros t ->. apply Hl. set_solver.
Qed.

Lemma lines_crlf cur s : 13 ∉ cur ++ s →
  Forall2 (λ l l', classify l = classify l') (lines_from cur s) (lines_from cur (crlf s)).
Proof.
  revert cur. induction s as [|c s IH]; intros cur Hs; cbn [lines_from].
  - unfold crlf. cbn [mbind list_bind lines_from]. destruct cur; by repeat constructor.
  - unfold crlf. rewrite bind_cons. fold (crlf s).
    destruct (Z.eqb_spec c 10) as [->|Hc]; cbn [app lines_from].
    + change (13 =? 10) with false. change (10 =? 10) with true. cbv iota.
      constructor; [|apply IH; set_solver]. symmetry. apply classify_cr. set_solver.
    + destruct (Z.eqb_spec c 10); [done|]. apply IH. by rewrite <-app_assoc.
Qed.

Lemma events_of_classify data ls ls' :
  Forall2 (λ l l', classify l = classify l') ls ls' → events_of data ls = events_of data ls'.
Proof.
  intros H. revert data. induction H as [|l l' ls ls' Hl H IH]; intros data; [done|].
  cbn [events_of]. rewrite Hl. destruct (classify l'); by rewrite IH.
Qed.

(** ** Properties *)

(** [C30] [Scan] calls its function on exactly the events of the payload, in
    order, until the function returns false: the index loop with its reused
    buffer is a fold with early exit over [events]. *)
Theorem Scan_refines_events {S} (fn : S → Event → S * bool) payload st :
  Scan fn payload st = feed fn (events payload) st.
Proof. unfold Scan. rewrite scan_loop_feed by lia. done. Qed.

(** Scanning an encoded stream gives back its events: each event's data
    lines joined by newlines, for any events whose lines contain no newline
    and do not end in a carriage return. *)
Lemma Scan_encoded {S} (fn : S → Event → S * bool) evs st :
  Forall (λ ls, ls ≠ [] ∧ Forall line_ok ls) evs →
  Scan fn (evs ≫= encode_event) st = feed fn (map (λ ls, Join ls [10]) evs) st.
Proof.
  intros Hevs. unfold Scan. rewrite scan_loop_feed by lia. f_equal.
  rewrite <-(app_nil_r (evs ≫= encode_event)). fold (events ((evs ≫= encode_event) ++ [])).
  rewrite events_encode by done. apply app_nil_r.
Qed.

(** Collect the payloads met. *)
Definition collect (acc : list bytes) (e : Event) : list bytes * bool := (acc ++ [Data e], true).

(** Line endings do not matter: [Scan] does the same on a stream without
    carriage returns and on the same stream with CR LF line endings. *)
Lemma Scan_line_endings {S} (fn : S → Event → S * bool) s st : 13 ∉ s →
  Scan fn (crlf s) st = Scan fn s st.
Proof.
  intros Hs. unfold Scan. rewrite !scan_loop_feed by lia. f_equal. symmetry.
  by apply events_of_classify, lines_crlf.
Qed.

Lemma Scan_line_endings_witness :
  Scan collect (crlf (str "data: a" ++ [10; 10] ++ str "data: b")) []
  = Scan collect (str "data: a" ++ [10; 10] ++ str "data: b") [].
Proof. apply Scan_line_endings. vm_compute. set_solver. Defined.

(** Worked instances: comments and other fields are ignored, one space after
    the colon is optional, a trailing event is dispatched. *)
Example scan_other : Scan collect
  (str ": keep-alive" ++ [10] ++ str "event: msg" ++ [10] ++ str "data:real" ++ [13; 10; 13; 10] ++ str "data: last") []
  = [str "real"; str "last"].
Proof. vm_compute. reflexivity. Qed.
