(* ===== verification/Request.v ===== *)
(** * [internal/openai/request.go]

    Extraction of the messages array from a chat request and of
    choices[0].message from a completion response. *)
From S2P Require Import Prelude Utf8 GoBytes Json JsonFacts JsonRender Canon.

#[global] Arguments parse : simpl never.
#[global] Arguments Decode : simpl never.
#[global] Arguments parse_string : simpl never.

(** A decoder into a Go struct field: [None] is a saved type error, which makes
    the whole [json.Unmarshal] fail. *)
Definition decoder (A : Type) : Type := json → A → option A.

(** A slice keeps the elements beyond its length that its backing array still
    holds: decoding an array again reuses them. *)
Record slice (A : Type) : Type := { s_elems : list A; s_stale : list A }.
Arguments s_elems {A}.
Arguments s_stale {A}.
Arguments Build_slice {A}.
Definition nil_slice {A} : slice A := {| s_elems := []; s_stale := [] |}.

Fixpoint decode_into {A} (dec : decoder A) (zero : A) (es : list (bytes * json)) (olds : list A) :
    option (list A) :=
  match es with
  | [] => Some []
  | (_, e) :: es' =>
    x ← dec e (match olds with o :: _ => o | [] => zero end);
    xs ← decode_into dec zero es' (tail olds);
    Some (x :: xs)
  end.

Definition dec_slice {A} (dec : decoder A) (zero : A) : decoder (slice A) := λ j old,
  match j with
  | JNull => Some nil_slice
  | JArr [] => Some nil_slice
  | JArr es =>
    let olds := s_elems old ++ s_stale old in
    xs ← decode_into dec zero es olds;
    Some {| s_elems := xs; s_stale := drop (length es) olds |}
  | _ => None
  end.

(** The members of an object, each decoded into the field its key names. *)
Fixpoint dec_members {A} (field : bytes → bytes → decoder A) (ms : list (bytes * (bytes * json))) (x : A) :
    option A :=
  match ms with
  | [] => Some x
  | (k, (raw, e)) :: ms' => x' ← field k raw e x; dec_members field ms' x'
  end.

Definition dec_struct {A} (field : bytes → bytes → decoder A) : decoder A := λ j x,
  match j with
  | JNull => Some x
  | JObj ms => dec_members field ms x
  | _ => None
  end.

(** ** ParseChatRequest *)

(** [Some msgs] is (msgs, true), [None] is (nil, false). *)
Definition ParseChatRequest (body : bytes) : option (list bytes) :=
  match unmarshal_raw_map body with
  | None => None
  | Some top =>
    match map_get (str "messages") top with
    | None => None
    | Some raw =>
      match unmarshal_raw_slice raw with
      | None => None
      | Some arr => Some arr
      end
    end
  end.

(** ** ParseCompletionResponse *)

(** One element of CompletionResponse.Choices: its raw message, empty when
    absent. *)
Record completion_choice : Type := { Message : bytes }.
Record CompletionResponse : Type := { Choices : slice completion_choice }.

Definition dec_completion_choice : decoder completion_choice :=
  dec_struct (λ k raw _ x, if field_is (str "message") k then Some {| Message := raw |} else Some x).

Definition dec_CompletionResponse : decoder CompletionResponse :=
  dec_struct (λ k _ e x,
    if field_is (str "choices") k
    then cs ← dec_slice dec_completion_choice {| Message := [] |} e (Choices x); Some {| Choices := cs |}
    else Some x).

Inductive request_error : Type := req_decode | req_no_message.

Definition ParseCompletionResponse (body : bytes) : result request_error bytes :=
  match j ← parse body; dec_CompletionResponse j {| Choices := nil_slice |} with
  | None => Err req_decode
  | Some resp =>
    match s_elems (Choices resp) with
    | [] => Err req_no_message
    | c :: _ => match Message c with [] => Err req_no_message | m => Ok m end
    end
  end.

(** ** Facts *)

Lemma unmarshal_raw_map_ok raw m : unmarshal_raw_map raw = Some m →
  Forall (λ p, is_Some (parse p.2)) m.
Proof.
  unfold unmarshal_raw_map. destruct (parse raw) as [j|] eqn:E; cbn; [|done].
  apply parse_children in E. destruct j; try done; intros [= <-]; [constructor|].
  apply map_of_ok, Forall_forall. intros p ([k [r e]]&<-&Hin)%list_elem_of_In%in_map_iff.
  apply list_elem_of_In in Hin. cbn in E. rewrite Forall_forall in E. specialize (E _ Hin).
  cbn in *. eauto.
Qed.

Lemma unmarshal_raw_slice_ok raw l : unmarshal_raw_slice raw = Some l →
  Forall (λ m, is_Some (parse m)) l.
Proof.
  unfold unmarshal_raw_slice. destruct (parse raw) as [j|] eqn:E; cbn; [|done].
  apply parse_children in E. destruct j; try done; intros [= <-]; [constructor|].
  apply Forall_fmap. eapply Forall_impl; [done|]. intros [r e] He. cbn in *. eauto.
Qed.

Lemma map_get_In {A} k (x : A) m : map_get k m = Some x → (k, x) ∈ m.
Proof.
  induction m as [|[k' x'] m IH]; cbn; [done|]. case_decide; subst.
  - intros [= ->]. set_solver.
  - set_solver.
Qed.

Lemma ParseChatRequest_ok body msgs : ParseChatRequest body = Some msgs →
  Forall (λ m, is_Some (parse m)) msgs.
Proof.
  unfold ParseChatRequest. destruct (unmarshal_raw_map body) as [top|]; [|done].
  destruct (map_get _ top) as [raw|]; [|done].
  destruct (unmarshal_raw_slice raw) as [arr|] eqn:E; [|done]. intros [= <-].
  by eapply unmarshal_raw_slice_ok.
Qed.

Lemma parse_Canonicalize m : is_Some (parse m) → is_ok (Canonicalize m) = true.
Proof. intros [j Hj]. by destruct (Canonicalize_ok _ _ (parse_Decode _ _ Hj)) as (->&_). Qed.

Lemma ParseChatRequest_canonical body msgs : ParseChatRequest body = Some msgs →
  Forall (λ m, is_ok (Canonicalize m) = true) msgs.
Proof.
  intros Hm%ParseChatRequest_ok. eapply Forall_impl; [exact Hm|]. apply parse_Canonicalize.
Qed.

(** ** Invariants of typed decoding *)

(** A tree that some text parses to. *)
Definition parsed (j : json) : Prop := ∃ raw, parse raw = Some j.

Lemma parsed_str s : parsed (JStr s) → valid_utf8 s.
Proof. intros [raw E]. apply parse_Decode, Decode_wf in E as [Hwf _]. by inversion Hwf. Qed.

Lemma parsed_arr es : parsed (JArr es) → Forall (λ e, parsed e.2) es.
Proof.
  intros [raw E]. apply parse_children in E. eapply Forall_impl; [exact E|]. intros e He. by exists e.1.
Qed.

Lemma parsed_obj ms : parsed (JObj ms) → Forall (λ m, parsed m.2.2) ms.
Proof.
  intros [raw E]. apply parse_children in E. eapply Forall_impl; [exact E|]. intros m Hm. by exists m.2.1.
Qed.

(** Decoding a parsed tree into a target with [P] leaves a target with [P]. *)
Definition preserves {A} (P : A → Prop) (dec : decoder A) : Prop :=
  ∀ j x x', parsed j → P x → dec j x = Some x' → P x'.

Section preserves.
Context {A : Type} (P : A → Prop).

(** The field decoder is given the member's raw text and its tree. *)
Lemma dec_struct_raw (field : bytes → bytes → decoder A) :
  (∀ k raw j x x', parse raw = Some j → P x → field k raw j x = Some x' → P x') →
  preserves P (dec_struct field).
Proof.
  intros Hf [| | | | |ms] x x' [raw0 Hj] Hx; cbn; try done; [by intros [= <-]|].
  apply parse_children in Hj. revert x Hx.
  induction Hj as [|[k [raw e]] ms He Hms IH]; intros x Hx; cbn.
  - by intros [= <-].
  - destruct (field k raw e x) as [x1|] eqn:E; [|done]. cbn. apply IH. by eapply Hf.
Qed.

Lemma dec_struct_preserves (field : bytes → bytes → decoder A) :
  (∀ k raw, preserves P (field k raw)) → preserves P (dec_struct field).
Proof. intros Hf. apply dec_struct_raw. intros k raw j x x' Hj. apply (Hf k raw). by exists raw. Qed.

Lemma decode_into_preserves (dec : decoder A) zero es olds ys : preserves P dec → P zero →
  Forall (λ e, parsed e.2) es → Forall P olds → decode_into dec zero es olds = Some ys → Forall P ys.
Proof.
  intros Hd Hz Hes. revert olds ys. induction Hes as [|[raw e] es He Hes IH]; intros olds ys Ho; cbn.
  - intros [= <-]. constructor.
  - destruct (dec e _) as [y|] eqn:E; [|done]. cbn.
    destruct (decode_into dec zero es (tail olds)) as [ys1|] eqn:E1; [|done]. intros [= <-].
    constructor; [|eapply IH, E1; by destruct Ho]. eapply Hd; [done| |done]. by destruct Ho.
Qed.

Definition slice_all (s : slice A) : Prop := Forall P (s_elems s ++ s_stale s).

Lemma dec_slice_preserves (dec : decoder A) zero : preserves P dec → P zero →
  preserves slice_all (dec_slice dec zero).
Proof.
  intros Hd Hz [| | | |es|] x x' Hj Hx; try done; cbn [dec_slice]; [by intros [= <-]; constructor|].
  destruct es as [|e es]; [by intros [= <-]; constructor|].
  destruct (decode_into _ _ _ _) as [ys|] eqn:E; [|done]. intros [= <-]. unfold slice_all. cbn [s_elems s_stale].
  apply Forall_app. split; [|by apply Forall_drop].
  eapply decode_into_preserves; [exact Hd|exact Hz|by apply parsed_arr|exact Hx|exact E].
Qed.
End preserves.

(** A choice's message is absent or a complete JSON text. *)
Definition choice_raw_ok (c : completion_choice) : Prop := Message c = [] ∨ is_Some (parse (Message c)).

Lemma dec_completion_choice_preserves : preserves choice_raw_ok dec_completion_choice.
Proof.
  apply dec_struct_raw. intros k raw j x x' Hj Hx. destruct (field_is _ k); intros [= <-]; [|done].
  right. by exists j.
Qed.

(** ** Properties *)

(** Every message of an accepted request has a canonical form: the raw
    texts [ParseChatRequest] returns are complete JSON values within the nesting
    limit, so canonicalization cannot fail on them. *)
Lemma ParseChatRequest_canonicalizes body msgs i m :
  ParseChatRequest body = Some msgs → msgs !! i = Some m →
  ∃ c, Canonicalize m = Ok c ∧ Canonicalize c = Ok c.
Proof.
  intros Hm%ParseChatRequest_canonical Hi. eapply Forall_lookup_1 in Hm; [|exact Hi].
  destruct (Canonicalize m) as [c|] eqn:E; [|done]. exists c. split; [done|].
  by eapply canonical_idempotent.
Qed.

(** The message of a complete response that [ParseCompletionResponse]
    returns is a complete JSON value. *)
Lemma ParseCompletionResponse_json body m : ParseCompletionResponse body = Ok m → is_Some (parse m).
Proof.
  unfold ParseCompletionResponse. destruct (parse body) as [j|] eqn:Ej; cbn; [|done].
  destruct (dec_CompletionResponse j _) as [resp|] eqn:E; [|done].
  assert (slice_all choice_raw_ok (Choices resp)) as [Hc _]%Forall_app.
  { revert E. apply (dec_struct_preserves (λ r, slice_all choice_raw_ok (Choices r))); [|by exists body|constructor].
    intros k raw e x x' He Hx. destruct (field_is _ k); [|by intros [= <-]].
    destruct (dec_slice _ _ e _) as [cs|] eqn:Ec; cbn; [|done]. intros [= <-]. cbn.
    eapply (dec_slice_preserves choice_raw_ok dec_completion_choice {| Message := [] |});
      [apply dec_completion_choice_preserves|by left|exact He|exact Hx|done]. }
  destruct Hc as [|c l [Hc|Hc] _]; [done|by rewrite Hc|]. destruct (Message c); [done|]. intros [= <-]. done.
Qed.

Lemma ParseCompletionResponse_json_witness : is_Some (parse (js "{'content':'x'}")).
Proof.
  apply (ParseCompletionResponse_json (js "{'choices':[{'message':{'content':'x'} }]}")).
  vm_compute. reflexivity.
Defined.

(** ** Worked instances *)
Example parse_chat_ex :
  ParseChatRequest (js "{'model':'m','messages':[ {'role':'user'} , 1 ],'x':0}")
  = Some [js "{'role':'user'}"; str "1"].
Proof. vm_compute. reflexivity. Qed.
Example parse_chat_null : ParseChatRequest (js "{'messages':null}") = Some []
  ∧ ParseChatRequest (js "null") = None ∧ ParseChatRequest (js "{'Messages':[]}") = None.
Proof. vm_compute. done. Qed.
Example parse_completion_ex :
  ParseCompletionResponse (js "{'CHOICES':[{'message': {'content':'x'} },{'message':1}]}")
  = Ok (js "{'content':'x'}").
Proof. vm_compute. reflexivity. Qed.
Example parse_completion_dup :
  ParseCompletionResponse (js "{'choices':[{'message':1}],'choices':[{'a':2}]}") = Ok (str "1").
Proof. vm_compute. reflexivity. Qed.
