(* ===== verification/Assistant.v ===== *)
(** * [internal/openai/assistant.go]

    Reconstruction of the assistant message from a streamed or a complete
    upstream response.  The decoding of a chunk follows [encoding/json]: field
    names match up to case folding, [null] clears a pointer or a slice and
    leaves a scalar or a struct alone, a repeated key decodes into what the
    earlier one left, and any type error makes the whole event be skipped.
    [int] is 64 bits wide. *)
From S2P Require Import Prelude Utf8 GoBytes Json JsonFacts JsonRender Canon Sse Request.

(** ** Data *)

Inductive assistant_error : Type :=
| ErrComplexContent
| ErrNoAssistantContent
| err_decode_message
| err_decode_tool_calls
| err_canon (e : canon_error).

#[global] Instance assistant_error_eq_dec : EqDecision assistant_error.
Proof. unfold EqDecision, Decision. repeat decide equality. Defined.

Record toolCallState : Type := {
  ID : bytes;
  Type_ : bytes;
  Name : bytes;
  Arguments_ : bytes;
}.
Definition zero_toolCallState : toolCallState := {| ID := []; Type_ := []; Name := []; Arguments_ := [] |}.

Record accumulator : Type := {
  text : bytes;
  textSeen : bool;
  nullSeen : bool;
  complex : bool;
  tools : gmap Z toolCallState;
  toolOrder : list Z;
}.
Definition zero_accumulator : accumulator :=
  {| text := []; textSeen := false; nullSeen := false; complex := false; tools := ∅; toolOrder := [] |}.

(** [Function] is an embedded anonymous struct: its two pointers. *)
Record toolCallDelta : Type := {
  Index : option Z;
  d_ID : bytes;
  d_Type : bytes;
  Function_Name : option bytes;
  Function_Arguments : option bytes;
}.
Definition zero_toolCallDelta : toolCallDelta :=
  {| Index := None; d_ID := []; d_Type := []; Function_Name := None; Function_Arguments := None |}.

Record deltaLike : Type := {
  Content : bytes;
  ToolCalls : slice toolCallDelta;
  ReasoningContent : option bytes;
  Reasoning : option bytes;
}.
Definition zero_deltaLike : deltaLike :=
  {| Content := []; ToolCalls := nil_slice; ReasoningContent := None; Reasoning := None |}.

Record stream_choice : Type := {
  c_Index : option Z;
  Delta : option deltaLike;
  c_Message : option deltaLike;
  Text : option bytes;
}.
Definition zero_stream_choice : stream_choice :=
  {| c_Index := None; Delta := None; c_Message := None; Text := None |}.

Record streamChunk : Type := { sc_Choices : slice stream_choice }.

(** ** Decoding a chunk *)

Definition dec_string : decoder bytes := λ j old,
  match j with JNull => Some old | JStr s => Some s | _ => None end.

Definition dec_int : decoder Z := λ j old,
  match j with JNull => Some old | JNum l => ParseInt l | _ => None end.

(** A pointer: [null] makes it nil; a pointee that exists is decoded into. *)
Definition dec_ptr {A} (dec : decoder A) (zero : A) : decoder (option A) := λ j old,
  match j with
  | JNull => Some None
  | _ => x ← dec j (default zero old); Some (Some x)
  end.

Definition dec_function : decoder toolCallDelta :=
  dec_struct (λ k _ e x,
    if field_is (str "name") k then
      p ← dec_ptr dec_string [] e (Function_Name x);
      Some {| Index := Index x; d_ID := d_ID x; d_Type := d_Type x;
              Function_Name := p; Function_Arguments := Function_Arguments x |}
    else if field_is (str "arguments") k then
      p ← dec_ptr dec_string [] e (Function_Arguments x);
      Some {| Index := Index x; d_ID := d_ID x; d_Type := d_Type x;
              Function_Name := Function_Name x; Function_Arguments := p |}
    else Some x).

Definition dec_toolCallDelta : decoder toolCallDelta :=
  dec_struct (λ k _ e x,
    if field_is (str "index") k then
      p ← dec_ptr dec_int 0 e (Index x);
      Some {| Index := p; d_ID := d_ID x; d_Type := d_Type x;
              Function_Name := Function_Name x; Function_Arguments := Function_Arguments x |}
    else if field_is (str "id") k then
      s ← dec_string e (d_ID x);
      Some {| Index := Index x; d_ID := s; d_Type := d_Type x;
              Function_Name := Function_Name x; Function_Arguments := Function_Arguments x |}
    else if field_is (str "type") k then
      s ← dec_string e (d_Type x);
      Some {| Index := Index x; d_ID := d_ID x; d_Type := s;
              Function_Name := Function_Name x; Function_Arguments := Function_Arguments x |}
    else if field_is (str "function") k then dec_function e x
    else Some x).

Definition dec_deltaLike : decoder deltaLike :=
  dec_struct (λ k raw e x,
    if field_is (str "content") k then
      Some {| Content := raw; ToolCalls := ToolCalls x;
              ReasoningContent := ReasoningContent x; Reasoning := Reasoning x |}
    else if field_is (str "tool_calls") k then
      l ← dec_slice dec_toolCallDelta zero_toolCallDelta e (ToolCalls x);
      Some {| Content := Content x; ToolCalls := l;
              ReasoningContent := ReasoningContent x; Reasoning := Reasoning x |}
    else if field_is (str "reasoning_content") k then
      p ← dec_ptr dec_string [] e (ReasoningContent x);
      Some {| Content := Content x; ToolCalls := ToolCalls x;
              ReasoningContent := p; Reasoning := Reasoning x |}
    else if field_is (str "reasoning") k then
      p ← dec_ptr dec_string [] e (Reasoning x);
      Some {| Content := Content x; ToolCalls := ToolCalls x;
              ReasoningContent := ReasoningContent x; Reasoning := p |}
    else Some x).

Definition dec_stream_choice : decoder stream_choice :=
  dec_struct (λ k _ e x,
    if field_is (str "index") k then
      p ← dec_ptr dec_int 0 e (c_Index x);
      Some {| c_Index := p; Delta := Delta x; c_Message := c_Message x; Text := Text x |}
    else if field_is (str "delta") k then
      p ← dec_ptr dec_deltaLike zero_deltaLike e (Delta x);
      Some {| c_Index := c_Index x; Delta := p; c_Message := c_Message x; Text := Text x |}
    else if field_is (str "message") k then
      p ← dec_ptr dec_deltaLike zero_deltaLike e (c_Message x);
      Some {| c_Index := c_Index x; Delta := Delta x; c_Message := p; Text := Text x |}
    else if field_is (str "text") k then
      p ← dec_ptr dec_string [] e (Text x);
      Some {| c_Index := c_Index x; Delta := Delta x; c_Message := c_Message x; Text := p |}
    else Some x).

Definition dec_streamChunk : decoder streamChunk :=
  dec_struct (λ k _ e x,
    if field_is (str "choices") k then
      l ← dec_slice dec_stream_choice zero_stream_choice e (sc_Choices x);
      Some {| sc_Choices := l |}
    else Some x).

(** ** The accumulator *)

(** [a.tool(idx)]: the call state of an index, created on first use. *)
Definition tool (a : accumulator) (idx : Z) : accumulator * toolCallState :=
  match tools a !! idx with
  | Some st => (a, st)
  | None =>
    let st := zero_toolCallState in
    ({| text := text a; textSeen := textSeen a; nullSeen := nullSeen a; complex := complex a;
        tools := <[idx := st]> (tools a); toolOrder := toolOrder a ++ [idx] |}, st)
  end.

(** Writing through the pointer [tool] returned. *)
Definition set_tool (a : accumulator) (idx : Z) (st : toolCallState) : accumulator :=
  {| text := text a; textSeen := textSeen a; nullSeen := nullSeen a; complex := complex a;
     tools := <[idx := st]> (tools a); toolOrder := toolOrder a |}.

Definition see_null (a : accumulator) : accumulator :=
  {| text := text a; textSeen := textSeen a; nullSeen := true; complex := complex a;
     tools := tools a; toolOrder := toolOrder a |}.
Definition see_complex (a : accumulator) : accumulator :=
  {| text := text a; textSeen := textSeen a; nullSeen := nullSeen a; complex := true;
     tools := tools a; toolOrder := toolOrder a |}.
Definition write_text (a : accumulator) (s : bytes) : accumulator :=
  {| text := text a ++ s; textSeen := true; nullSeen := nullSeen a; complex := complex a;
     tools := tools a; toolOrder := toolOrder a |}.

Definition nonempty (s : bytes) : bool := match s with [] => false | _ => true end.

(** The first half of [mergeDelta]: the content. *)
Definition merge_content (a : accumulator) (content : bytes) : accumulator :=
  if nonempty content then
    let trimmed := TrimSpace content in
    if decide (trimmed = str "null") then see_null a
    else match unmarshal_string content with
         | None => see_complex a
         | Some s => write_text a s
         end
  else a.

(** The updates of one call state by one streamed fragment. *)
Definition merge_tool_state (st : toolCallState) (tc : toolCallDelta) : toolCallState :=
  {| ID := if nonempty (d_ID tc) && negb (nonempty (ID st)) then d_ID tc else ID st;
     Type_ := if nonempty (d_Type tc) && negb (nonempty (Type_ st)) then d_Type tc else Type_ st;
     Name := match Function_Name tc with
             | Some n =>
               if nonempty n then
                 if negb (nonempty (Name st)) then n
                 else if decide (n ≠ Name st) then Name st ++ n else Name st
               else Name st
             | None => Name st
             end;
     Arguments_ := match Function_Arguments tc with
                   | Some s => Arguments_ st ++ s
                   | None => Arguments_ st
                   end |}.

Definition merge_tool (a : accumulator) (tc : toolCallDelta) : accumulator :=
  let idx := default 0 (Index tc) in
  let '(a', st) := tool a idx in
  set_tool a' idx (merge_tool_state st tc).

Definition mergeDelta (a : accumulator) (d : deltaLike) : accumulator :=
  foldl merge_tool (merge_content a (Content d)) (s_elems (ToolCalls d)).

Definition empty (a : accumulator) : bool :=
  negb (textSeen a) && negb (nullSeen a) && negb (complex a) && bool_decide (tools a = ∅).

(** One element of the "tool_calls" array. *)
Definition call_value (tc : toolCallState) : any :=
  let fn := [(str "arguments", AStr (Arguments_ tc))] in
  let fn := if nonempty (Name tc) then map_set (str "name") (AStr (Name tc)) fn else fn in
  let call := [(str "function", AMap fn)] in
  let call := if nonempty (ID tc) then map_set (str "id") (AStr (ID tc)) call else call in
  let call := if nonempty (Type_ tc) then map_set (str "type") (AStr (Type_ tc)) call else call in
  AMap call.

(** [sort.Ints] on the order; an index is looked up in the map for each entry. *)
Definition sorted_calls (a : accumulator) : list any :=
  map (λ idx, call_value (default zero_toolCallState (tools a !! idx))) (merge_sort Z.le (toolOrder a)).

Definition message_value (a : accumulator) : any :=
  let m := [(str "role", AStr (str "assistant"))] in
  let m := if textSeen a then map_set (str "content") (AStr (text a)) m
           else if nullSeen a then map_set (str "content") ANull m else m in
  let m := if bool_decide (tools a = ∅) then m
           else map_set (str "tool_calls") (AArr (sorted_calls a)) m in
  AMap m.

Definition canonical (a : accumulator) : result assistant_error bytes :=
  if complex a then Err ErrComplexContent
  else if empty a then Err ErrNoAssistantContent
  else match CanonicalValue (message_value a) with
       | Ok c => Ok c
       | Err e => Err (err_canon e)
       end.

(** ** AssistantFromSSE *)

(** The body of the loop over the choices of a chunk. *)
Definition merge_choice (root : accumulator) (c : stream_choice) : accumulator :=
  if negb (default 0 (c_Index c) =? 0) then root
  else
    let root := match Delta c with Some d => mergeDelta root d | None => root end in
    let root := match c_Message c with Some d => mergeDelta root d | None => root end in
    match Text c with
    | Some t => if nonempty t then write_text root t else root
    | None => root
    end.

(** The callback given to [sse.Scan] on its captured variables. *)
Definition on_event (st : accumulator * bool) (ev : Event) : accumulator * bool * bool :=
  let '(root, sawDone) := st in
  let data := TrimSpace (Data ev) in
  if decide (data = str "[DONE]") then (root, true, false)
  else match j ← parse data; dec_streamChunk j {| sc_Choices := nil_slice |} with
       | None => (root, sawDone, true)
       | Some ch => (foldl merge_choice root (s_elems (sc_Choices ch)), sawDone, true)
       end.

Definition AssistantFromSSE (payload : bytes) : result assistant_error bytes * bool :=
  let '(root, sawDone) := Scan on_event payload (zero_accumulator, false) in
  (canonical root, sawDone).

(** ** AssistantFromMessage *)

(** The assignments of one complete tool call. *)
Definition assign_tool_state (st : toolCallState) (tc : toolCallDelta) : toolCallState :=
  {| ID := if nonempty (d_ID tc) then d_ID tc else ID st;
     Type_ := if nonempty (d_Type tc) then d_Type tc else Type_ st;
     Name := default (Name st) (Function_Name tc);
     Arguments_ := default (Arguments_ st) (Function_Arguments tc) |}.

Fixpoint assign_tools (i : nat) (a : accumulator) (arr : list toolCallDelta) : accumulator :=
  match arr with
  | [] => a
  | tc :: arr' =>
    let '(a', st) := tool a (Z.of_nat i) in
    assign_tools (S i) (set_tool a' (Z.of_nat i) (assign_tool_state st tc)) arr'
  end.

Definition AssistantFromMessage (raw : bytes) : result assistant_error bytes :=
  match unmarshal_raw_map raw with
  | None => Err err_decode_message
  | Some m =>
    let a := match map_get (str "content") m with
             | Some c => mergeDelta zero_accumulator
                 {| Content := c; ToolCalls := nil_slice; ReasoningContent := None; Reasoning := None |}
             | None => zero_accumulator
             end in
    match map_get (str "tool_calls") m with
    | None => canonical a
    | Some tcRaw =>
      match j ← parse tcRaw; dec_slice dec_toolCallDelta zero_toolCallDelta j nil_slice with
      | None => Err err_decode_tool_calls
      | Some arr => canonical (assign_tools 0 a (s_elems arr))
      end
    end
  end.

(** ** Decoded chunks hold valid strings *)

Definition opt_all {A} (P : A → Prop) (o : option A) : Prop := from_option P True o.

#[export] Instance opt_all_dec {A} (P : A → Prop) `{∀ x, Decision (P x)} o : Decision (opt_all P o).
Proof. destruct o; cbn; apply _. Defined.

Lemma dec_string_preserves : preserves valid_utf8 dec_string.
Proof. intros [] x x' Hj Hx; try done; cbn; intros [= <-]; [done|]. by apply parsed_str. Qed.

Lemma dec_ptr_preserves {A} (P : A → Prop) dec zero : preserves P dec → P zero →
  preserves (opt_all P) (dec_ptr dec zero).
Proof.
  intros Hd Hz j x x' Hj Hx. unfold dec_ptr.
  assert (P (default zero x)) as H0 by (by destruct x).
  assert (∀ o, dec j (default zero x) = o → (y ← o; Some (Some y)) = Some x' → opt_all P x') as H1.
  { intros [y|] E; [|done]. intros [= <-]. by eapply Hd. }
  destruct j; try (by eapply H1). by intros [= <-].
Qed.

Definition tool_delta_ok (tc : toolCallDelta) : Prop :=
  valid_utf8 (d_ID tc) ∧ valid_utf8 (d_Type tc) ∧
  opt_all valid_utf8 (Function_Name tc) ∧ opt_all valid_utf8 (Function_Arguments tc).
#[export] Instance tool_delta_ok_dec tc : Decision (tool_delta_ok tc).
Proof. unfold tool_delta_ok. apply _. Defined.
Definition delta_ok (d : deltaLike) : Prop := slice_all tool_delta_ok (ToolCalls d).
Definition choice_ok (c : stream_choice) : Prop :=
  opt_all delta_ok (Delta c) ∧ opt_all delta_ok (c_Message c) ∧ opt_all valid_utf8 (Text c).

(** The fields of a struct decoder, one after another. *)
Ltac dec_fields :=
  repeat match goal with
  | |- context [if field_is ?n ?k then _ else _] => destruct (field_is n k)
  | |- (_ ← ?o; _) = Some _ → _ =>
      let E := fresh "E" in destruct o eqn:E; cbn [mbind option_bind]; [|done]
  | |- Some _ = Some _ → _ => intros [= <-]
  end.

Lemma dec_function_preserves : preserves tool_delta_ok dec_function.
Proof.
  apply dec_struct_preserves. intros k raw j x x' Hj (?&?&Hn&Ha).
  dec_fields; split_and!; cbn; try done;
    (eapply (dec_ptr_preserves valid_utf8 dec_string []); [apply dec_string_preserves|done|exact Hj| |eassumption]; done).
Qed.

Lemma dec_toolCallDelta_preserves : preserves tool_delta_ok dec_toolCallDelta.
Proof.
  apply dec_struct_preserves. intros k raw j x x' Hj Hx. pose proof Hx as (?&?&Hn&Ha).
  dec_fields; [| | |by apply dec_function_preserves|]; split_and!; cbn; try done;
    (eapply dec_string_preserves; [exact Hj| |eassumption]; done).
Qed.

Lemma dec_deltaLike_preserves : preserves delta_ok dec_deltaLike.
Proof.
  apply dec_struct_preserves. intros k raw j x x' Hj Hx. unfold delta_ok in *.
  dec_fields; cbn; try done.
  eapply (dec_slice_preserves tool_delta_ok dec_toolCallDelta zero_toolCallDelta);
    [apply dec_toolCallDelta_preserves|done|exact Hj|exact Hx|done].
Qed.

Lemma dec_stream_choice_preserves : preserves choice_ok dec_stream_choice.
Proof.
  apply dec_struct_preserves. intros k raw j x x' Hj (Hd&Hm&Ht).
  dec_fields; split_and!; cbn; try done.
  - eapply (dec_ptr_preserves delta_ok dec_deltaLike zero_deltaLike); [apply dec_deltaLike_preserves|constructor|exact Hj|exact Hd|done].
  - eapply (dec_ptr_preserves delta_ok dec_deltaLike zero_deltaLike); [apply dec_deltaLike_preserves|constructor|exact Hj|exact Hm|done].
  - eapply (dec_ptr_preserves valid_utf8 dec_string []); [apply dec_string_preserves|done|exact Hj|exact Ht|done].
Qed.

Lemma dec_streamChunk_ok j ch : parsed j → dec_streamChunk j {| sc_Choices := nil_slice |} = Some ch →
  Forall choice_ok (s_elems (sc_Choices ch)).
Proof.
  intros Hj E. assert (slice_all choice_ok (sc_Choices ch)) as H%Forall_app; [|apply H].
  revert E. apply (dec_struct_preserves (λ ch, slice_all choice_ok (sc_Choices ch))); [|done|constructor].
  intros k raw e x x' He Hx. dec_fields; cbn; try done.
  eapply (dec_slice_preserves choice_ok dec_stream_choice zero_stream_choice);
    [apply dec_stream_choice_preserves|done|exact He|exact Hx|done].
Qed.

(** ** The accumulator's invariant *)

Definition call_ok (st : toolCallState) : Prop :=
  valid_utf8 (ID st) ∧ valid_utf8 (Type_ st) ∧ valid_utf8 (Name st) ∧ valid_utf8 (Arguments_ st).

(** The order slice lists each index of the map exactly once. *)
Definition order_ok (a : accumulator) : Prop :=
  NoDup (toolOrder a) ∧ ∀ i, i ∈ toolOrder a ↔ is_Some (tools a !! i).

Record acc_ok (a : accumulator) : Prop := {
  acc_text : valid_utf8 (text a);
  acc_calls : map_Forall (λ _, call_ok) (tools a);
  acc_order : order_ok a;
}.

Lemma zero_order_ok : order_ok zero_accumulator.
Proof.
  split; [constructor|]. intros i. cbn. rewrite lookup_empty.
  split; [by intros ?%elem_of_nil|by intros [? ?]].
Qed.

Lemma zero_acc_ok : acc_ok zero_accumulator.
Proof. split; [done|apply map_Forall_empty|apply zero_order_ok]. Qed.

(** Updating the state of one index, as [tool] followed by stores does. *)
Definition update_tool (f : toolCallState → toolCallState) (idx : Z) (a : accumulator) : accumulator :=
  let '(a', st) := tool a idx in set_tool a' idx (f st).

Lemma update_tool_lookup f idx a i :
  tools (update_tool f idx a) !! i =
  if decide (i = idx) then Some (f (default zero_toolCallState (tools a !! idx))) else tools a !! i.
Proof.
  unfold update_tool, tool. destruct (tools a !! idx) as [st|] eqn:E; cbn; case_decide; subst;
    by rewrite ?insert_insert_eq, ?lookup_insert_eq, ?lookup_insert_ne by done.
Qed.

Lemma update_tool_order f idx a :
  toolOrder (update_tool f idx a) = toolOrder a ++ match tools a !! idx with Some _ => [] | None => [idx] end.
Proof.
  unfold update_tool, tool. destruct (tools a !! idx); cbn; by rewrite ?app_nil_r.
Qed.

Lemma update_tool_rest f idx a : let a' := update_tool f idx a in
  text a' = text a ∧ textSeen a' = textSeen a ∧ nullSeen a' = nullSeen a ∧ complex a' = complex a.
Proof. unfold update_tool, tool. by destruct (tools a !! idx). Qed.

Lemma call_ok_zero : call_ok zero_toolCallState.
Proof. done. Qed.

Lemma update_tool_order_ok f idx a : order_ok a → order_ok (update_tool f idx a).
Proof.
  intros [Ho Hd]. split.
  - rewrite update_tool_order. destruct (tools a !! idx) as [st|] eqn:E; [by rewrite app_nil_r|].
    apply NoDup_app. split_and!; [done| |apply NoDup_singleton]. intros i Hi Heq%list_elem_of_singleton.
    subst i. apply Hd in Hi as [? Hi]. congruence.
  - intros i. rewrite update_tool_order, update_tool_lookup, elem_of_app, Hd.
    destruct (tools a !! idx) as [st|] eqn:E; case_decide as Hi; subst; rewrite ?E.
    + split; [eauto|]. intros _. left. eauto.
    + split; [|eauto]. intros [?|?%elem_of_nil]; done.
    + split; [eauto|]. intros _. right. set_solver.
    + split; [|eauto]. by intros [?|?%list_elem_of_singleton].
Qed.

Lemma update_tool_ok f idx a : (∀ st, call_ok st → call_ok (f st)) → acc_ok a → acc_ok (update_tool f idx a).
Proof.
  intros Hf [Ht Hc Ho]. split; [|intros i st|by apply update_tool_order_ok].
  - by destruct (update_tool_rest f idx a) as (->&_).
  - rewrite update_tool_lookup. case_decide as Hi; [|by apply Hc]. intros [= <-]. apply Hf.
    destruct (tools a !! idx) as [st'|] eqn:E; [by eapply Hc|apply call_ok_zero].
Qed.

Lemma merge_tool_update a tc : merge_tool a tc = update_tool (λ st, merge_tool_state st tc) (default 0 (Index tc)) a.
Proof. done. Qed.

Lemma merge_tool_state_ok st tc : tool_delta_ok tc → call_ok st → call_ok (merge_tool_state st tc).
Proof.
  intros (Hi&Ht&Hn&Ha) (?&?&?&?). unfold merge_tool_state. split_and!; cbn.
  - by case_match.
  - by case_match.
  - destruct (Function_Name tc) as [n|]; [|done]. cbn in Hn. repeat case_match; try done; by apply valid_utf8_app.
  - destruct (Function_Arguments tc) as [n|]; [|done]. by apply valid_utf8_app.
Qed.

Lemma write_text_ok a s : valid_utf8 s → acc_ok a → acc_ok (write_text a s).
Proof. intros Hs []. split; cbn; [by apply valid_utf8_app|done..]. Qed.

Lemma merge_content_ok a c : acc_ok a → acc_ok (merge_content a c).
Proof.
  intros Ha. unfold merge_content. destruct (nonempty c); [|done]. case_decide; [by destruct Ha|].
  unfold unmarshal_string. destruct (parse c) as [j|] eqn:E; [|by destruct Ha]. cbn.
  destruct j; try (by destruct Ha); (apply write_text_ok; [|done]); [done|].
  apply parsed_str. by exists c.
Qed.

Lemma mergeDelta_ok a d : delta_ok d → acc_ok a → acc_ok (mergeDelta a d).
Proof.
  intros [Hd _]%Forall_app Ha. unfold mergeDelta. apply (merge_content_ok _ (Content d)) in Ha.
  revert Ha. generalize (merge_content a (Content d)) as b. clear a.
  induction Hd as [|tc l Htc Hl IH]; intros a Ha; [done|]. cbn [foldl]. apply IH.
  rewrite merge_tool_update. apply update_tool_ok; [|done]. intros st. by apply merge_tool_state_ok.
Qed.

Lemma merge_choice_ok a c : choice_ok c → acc_ok a → acc_ok (merge_choice a c).
Proof.
  intros (Hd&Hm&Ht) Ha. unfold merge_choice. destruct (negb _); [done|].
  assert (∀ o b, opt_all delta_ok o → acc_ok b → acc_ok match o with Some d => mergeDelta b d | None => b end) as Hstep.
  { intros [d|] b Hod Hb; [by apply mergeDelta_ok|done]. }
  apply (Hstep (Delta c)), (Hstep (c_Message c)) in Ha; [|done..].
  destruct (Text c) as [t|]; [|done]. destruct (nonempty t); [|done]. by apply write_text_ok.
Qed.

Lemma on_event_ok st ev : acc_ok st.1 → acc_ok (on_event st ev).1.1.
Proof.
  destruct st as [root sawDone]. intros Ha. cbn in Ha. unfold on_event. case_decide; [done|].
  destruct (parse _) as [j|] eqn:E; cbn; [|done].
  destruct (dec_streamChunk j _) as [ch|] eqn:Ec; cbn; [|done].
  apply dec_streamChunk_ok in Ec; [|by eexists]. revert root Ha.
  induction Ec as [|c l Hc Hl IH]; intros root Ha; [done|]. cbn. by apply IH, merge_choice_ok.
Qed.

(** An invariant of the callback's state is an invariant of the scan. *)
Lemma Scan_invariant {S} (P : S → Prop) (fn : S → Event → S * bool) payload st :
  (∀ st ev, P st → P (fn st ev).1) → P st → P (Scan fn payload st).
Proof.
  intros Hf. unfold Scan. rewrite scan_loop_feed by lia. generalize (events_of [] (lines payload)) as evs.
  intros evs. revert st. induction evs as [|e evs IH]; intros st Hst; [done|]. cbn.
  specialize (Hf st {| Data := e |} Hst). destruct (fn st _) as [st' []]; [by apply IH|done].
Qed.

Lemma Scan_acc_ok payload : acc_ok (Scan on_event payload (zero_accumulator, false)).1.
Proof.
  apply (Scan_invariant (λ st, acc_ok st.1)); [|apply zero_acc_ok].
  intros st ev. apply on_event_ok.
Qed.

(** ** The canonical message *)

(** Well-formedness of an object with literal keys. *)
Ltac wf_object :=
  repeat first
    [ assumption
    | apply wf_map; [apply (bool_decide_unpack _); vm_compute; exact I|]
    | apply wf_null
    | apply wf_str
    | apply Forall_nil_2
    | apply Forall_cons_2
    | match goal with |- valid_utf8 _ ∧ _ => split; cbn [fst snd] end
    | match goal with |- valid_utf8 _ => vm_compute; reflexivity end ].

(** The fields the gateway keeps, in insertion order. *)
Definition opt_field (b : bool) (k : bytes) (v : any) : list (bytes * any) := if b then [(k, v)] else [].

Lemma call_value_eq st : call_value st = AMap ((str "function",
    AMap ((str "arguments", AStr (Arguments_ st)) :: opt_field (nonempty (Name st)) (str "name") (AStr (Name st)))) ::
  opt_field (nonempty (ID st)) (str "id") (AStr (ID st)) ++
  opt_field (nonempty (Type_ st)) (str "type") (AStr (Type_ st))).
Proof. unfold call_value. by destruct (nonempty (Name st)), (nonempty (ID st)), (nonempty (Type_ st)). Qed.

Definition message_fields (a : accumulator) : list (bytes * any) :=
  (str "role", AStr (str "assistant")) ::
  opt_field (textSeen a || nullSeen a) (str "content") (if textSeen a then AStr (text a) else ANull) ++
  opt_field (negb (bool_decide (tools a = ∅))) (str "tool_calls") (AArr (sorted_calls a)).

Lemma message_value_eq a : message_value a = AMap (message_fields a).
Proof. unfold message_value, message_fields. by destruct (textSeen a), (nullSeen a), (bool_decide _). Qed.

Lemma call_value_wf st : call_ok st → any_wf (call_value st) ∧ any_depth (call_value st) = 2.
Proof.
  intros (?&?&?&?). rewrite call_value_eq.
  destruct (nonempty (Name st)), (nonempty (ID st)), (nonempty (Type_ st)); cbn -[str]; (split; [|done]).
  all: wf_object.
Qed.

Lemma sorted_calls_wf a : acc_ok a →
  Forall (λ v, any_wf v ∧ any_depth v = 2) (sorted_calls a).
Proof.
  intros Ha. unfold sorted_calls. apply Forall_map, Forall_true. intros i. apply call_value_wf.
  destruct (tools a !! i) as [st|] eqn:E; [|apply call_ok_zero]. by eapply acc_calls.
Qed.

Lemma message_value_wf a : acc_ok a →
  any_wf (message_value a) ∧ any_depth (message_value a) <= max_depth.
Proof.
  intros Ha. pose proof (acc_text a Ha) as Ht. pose proof (sorted_calls_wf a Ha) as Hs.
  assert (any_wf (AArr (sorted_calls a)) ∧ 0 <= any_depth (AArr (sorted_calls a)) <= 3) as [Hw Hd].
  { split; [constructor; eapply Forall_impl; [exact Hs|by intros ? []]|]. cbn.
    induction Hs as [|v l [_ Hv] _ IH]; cbn in *; lia. }
  rewrite message_value_eq. unfold message_fields. generalize dependent (AArr (sorted_calls a)). intros calls Hw Hd. unfold max_depth.
  destruct (textSeen a), (nullSeen a), (bool_decide _); cbn -[str];
    (split; [wf_object|lia]).
Qed.

Lemma canonical_spec a : acc_ok a → canonical a =
  if complex a then Err ErrComplexContent
  else if empty a then Err ErrNoAssistantContent
  else Ok (render WriteString (message_value a)).
Proof.
  intros Ha. unfold canonical. destruct (complex a); [done|]. destruct (empty a); [done|].
  destruct (message_value_wf a Ha) as [Hw Hd]. by rewrite CanonicalValue_render.
Qed.

Lemma map_get_perm {A} k (m m' : list (bytes * A)) : NoDup m.*1 → m ≡ₚ m' → map_get k m = map_get k m'.
Proof.
  intros Hnd Hp. assert (NoDup m'.*1) as Hnd' by (by rewrite <-Hp).
  destruct (map_get k m) as [x|] eqn:E.
  - symmetry. apply map_get_elem; [done|]. rewrite <-Hp. by apply map_get_In.
  - destruct (map_get k m') as [x|] eqn:E'; [|done].
    rewrite (map_get_elem k x m) in E; [done|done|]. rewrite Hp. by apply map_get_In.
Qed.

Lemma any_wf_keys m : any_wf (AMap m) → NoDup m.*1.
Proof. by inversion 1. Qed.

(** ** Tool-call fragments *)

Definition fragments (ds : list deltaLike) : list toolCallDelta := ds ≫= λ d, s_elems (ToolCalls d).
Definition for_index (idx : Z) (fs : list toolCallDelta) : list toolCallDelta :=
  filter (λ tc, default 0 (Index tc) = idx) fs.

(** The state of one index after its fragments. *)
Definition merged (o : option toolCallState) (fs : list toolCallDelta) : option toolCallState :=
  match fs with [] => o | _ => Some (foldl merge_tool_state (default zero_toolCallState o) fs) end.

Lemma merged_app o fs gs : merged (merged o fs) gs = merged o (fs ++ gs).
Proof. destruct fs as [|f fs], gs as [|g gs]; cbn; by rewrite ?app_nil_r, ?foldl_app. Qed.

Lemma merge_tools_lookup fs a idx :
  tools (foldl merge_tool a fs) !! idx = merged (tools a !! idx) (for_index idx fs).
Proof.
  revert a. induction fs as [|f fs IH]; intros a; [done|]. cbn [foldl]. rewrite IH, merge_tool_update.
  rewrite update_tool_lookup. unfold for_index. rewrite filter_cons.
  destruct (decide (idx = default 0 (Index f))) as [->|Hne].
  - rewrite decide_True by done. exact (merged_app _ [f] _).
  - by rewrite decide_False by congruence.
Qed.

Lemma merge_content_tools a c : tools (merge_content a c) = tools a ∧ toolOrder (merge_content a c) = toolOrder a.
Proof. unfold merge_content. by repeat case_match. Qed.

Lemma mergeDeltas_lookup ds a idx :
  tools (foldl mergeDelta a ds) !! idx = merged (tools a !! idx) (for_index idx (fragments ds)).
Proof.
  revert a. induction ds as [|d ds IH]; intros a; [done|]. cbn [foldl]. rewrite IH. unfold mergeDelta.
  rewrite merge_tools_lookup. destruct (merge_content_tools a (Content d)) as [-> _].
  rewrite merged_app. unfold fragments. rewrite bind_cons. unfold for_index. by rewrite <-filter_app.
Qed.

Lemma mergeDeltas_order_ok ds a : order_ok a → order_ok (foldl mergeDelta a ds).
Proof.
  revert a. induction ds as [|d ds IH]; intros a Ha; [done|]. cbn [foldl]. apply IH. unfold mergeDelta.
  assert (order_ok (merge_content a (Content d))) as Hb.
  { unfold order_ok. by destruct (merge_content_tools a (Content d)) as [-> ->]. }
  revert Hb. generalize (merge_content a (Content d)) (s_elems (ToolCalls d)). clear. intros a l. revert a.
  induction l as [|f l IH]; intros a Ha; [done|]. cbn. apply IH. rewrite merge_tool_update.
  by apply update_tool_order_ok.
Qed.

(** The call the fragments of one index, in arrival order, stand for: the first
    non-empty id and type, all arguments, and the name fragments put together - a
    fragment that repeats the name so far adds nothing. *)
Definition first_nonempty (ss : list bytes) : bytes := default [] (head (filter (λ s, s ≠ []) ss)).
Definition add_name (name n : bytes) : bytes := if decide (n = name) then name else name ++ n.
Definition assembled (fs : list toolCallDelta) : toolCallState := {|
  ID := first_nonempty (d_ID <$> fs);
  Type_ := first_nonempty (d_Type <$> fs);
  Name := foldl add_name [] (omap Function_Name fs);
  Arguments_ := concat (omap Function_Arguments fs) |}.

Lemma foldl_merge_state st fs : foldl merge_tool_state st fs = {|
  ID := first_nonempty (ID st :: (d_ID <$> fs));
  Type_ := first_nonempty (Type_ st :: (d_Type <$> fs));
  Name := foldl add_name (Name st) (omap Function_Name fs);
  Arguments_ := Arguments_ st ++ concat (omap Function_Arguments fs) |}.
Proof.
  unfold first_nonempty. revert st. induction fs as [|f fs IH]; intros st.
  - destruct st as [id ty name args]. cbn -[filter]. rewrite app_nil_r, !filter_cons. by destruct id, ty.
  - cbn [foldl]. rewrite IH. f_equal.
    + cbn [fmap list_fmap]. rewrite !filter_cons. cbn [merge_tool_state ID]. by destruct (ID st), (d_ID f).
    + cbn [fmap list_fmap]. rewrite !filter_cons. cbn [merge_tool_state Type_]. by destruct (Type_ st), (d_Type f).
    + cbn. destruct (Function_Name f) as [n|]; cbn; [|done]. f_equal. unfold add_name.
      destruct n as [|c n], (Name st) as [|c' n']; cbn; rewrite ?app_nil_r; repeat case_decide; done.
    + cbn. destruct (Function_Arguments f); cbn; by rewrite <-?app_assoc.
Qed.

Lemma merged_assembled fs : merged None fs = if decide (fs = []) then None else Some (assembled fs).
Proof. destruct fs as [|f fs]; [done|]. cbn [merged default]. by rewrite foldl_merge_state. Qed.

Lemma mergeDeltas_ok ds a : Forall delta_ok ds → acc_ok a → acc_ok (foldl mergeDelta a ds).
Proof. intros Hds. revert a. induction Hds as [|d ds Hd _ IH]; intros a Ha; [done|]. by apply IH, mergeDelta_ok. Qed.

(** The calls rendered: those of the indices named, lowest first. *)
Lemma sorted_calls_indices ds : let a := foldl mergeDelta zero_accumulator ds in
  ∃ idxs, StronglySorted Z.lt idxs ∧ (∀ idx, idx ∈ idxs ↔ for_index idx (fragments ds) ≠ []) ∧
    sorted_calls a = map (λ idx, call_value (assembled (for_index idx (fragments ds)))) idxs ∧
    (tools a = ∅ ↔ idxs = []).
Proof.
  intros a. assert (order_ok a) as [Hnd Hdom] by apply mergeDeltas_order_ok, zero_order_ok.
  assert (∀ idx, tools a !! idx = merged None (for_index idx (fragments ds))) as E by (intros; apply mergeDeltas_lookup).
  assert (∀ idx, idx ∈ merge_sort Z.le (toolOrder a) ↔ for_index idx (fragments ds) ≠ []) as Hin.
  { intros idx. rewrite (merge_sort_Permutation Z.le), Hdom, E, merged_assembled.
    by case_decide; split; try done; intros []. }
  exists (merge_sort Z.le (toolOrder a)). split_and!; [|done| |].
  - apply StronglySorted_lt; [apply StronglySorted_merge_sort, _; exact Z.le_trans|]. by rewrite (merge_sort_Permutation Z.le).
  - unfold sorted_calls. apply map_ext_in. intros idx Hi%list_elem_of_In%Hin. by rewrite E, merged_assembled, decide_False.
  - split.
    + intros Ht. apply elem_of_nil_inv. intros idx Hi%Hin. specialize (E idx). rewrite Ht, lookup_empty, merged_assembled in E. by case_decide.
    + intros Hnil. apply map_empty. intros idx. rewrite E, merged_assembled. case_decide as Hi; [done|].
      apply Hin in Hi. rewrite Hnil in Hi. by apply elem_of_nil in Hi.
Qed.

Lemma message_calls a : map_get (str "tool_calls") (message_fields a) =
  if bool_decide (tools a = ∅) then None else Some (AArr (sorted_calls a)).
Proof. unfold message_fields. by destruct (textSeen a), (nullSeen a), (bool_decide _). Qed.

(** What is read back from the canonical text of an accumulator. *)
Lemma canonical_decode a c : acc_ok a → canonical a = Ok c → Canonicalize c = Ok c ∧
  ∃ m, Decode c = Some (AMap m) ∧ ∀ k, map_get k m = norm <$> map_get k (message_fields a).
Proof.
  intros Ha. rewrite canonical_spec by done. destruct (complex a); [done|]. destruct (empty a); [done|]. intros Hc.
  assert (c = render WriteString (message_value a)) as -> by congruence. clear Hc.
  destruct (message_value_wf a Ha) as [Hw Hd].
  pose proof (Decode_render WriteString _ good_WriteString Hw Hd) as E. split.
  - destruct (Canonicalize_ok _ _ E) as (->&_). by rewrite render_norm.
  - rewrite E. rewrite message_value_eq in *. rewrite norm_map. eexists; split; [done|]. intros k.
    rewrite <-(map_get_perm _ (map_vals norm (message_fields a)));
      [|by rewrite map_vals_keys; apply any_wf_keys|by rewrite sort_entries_perm].
    clear. induction (message_fields a) as [|[k1 v] m IH]; cbn; [done|]. case_decide; [done|]. exact IH.
Qed.

(** ** Properties *)

(** [C28] Whatever bytes the upstream sent, [AssistantFromSSE] either reports
    one of its two errors or returns a canonical message of the assistant role:
    canonicalization of the rebuilt message never fails, and the text returned
    is its own canonical text. *)
Theorem AssistantFromSSE_result payload :
  match (AssistantFromSSE payload).1 with
  | Ok c => Canonicalize c = Ok c ∧
      ∃ m, Decode c = Some (AMap m) ∧ map_get (str "role") m = Some (AStr (str "assistant"))
  | Err e => e = ErrComplexContent ∨ e = ErrNoAssistantContent
  end.
Proof.
  pose proof (Scan_acc_ok payload) as Ha. unfold AssistantFromSSE.
  destruct (Scan _ _ _) as [a d]. cbn in *. destruct (canonical a) as [c|e] eqn:E.
  - destruct (canonical_decode a c Ha E) as (?&m&?&Hm). split; [done|]. exists m. split; [done|]. by rewrite Hm.
  - rewrite canonical_spec in E by done. destruct (complex a), (empty a); naive_solver.
Qed.

(** [C27] Tool-call fragments are assembled per index, however they are
    interleaved, and the canonical message lists the calls by increasing index: its
    "tool_calls" are the calls of exactly the indices some fragment names (no index
    means 0), each once, lowest first whatever the order of arrival; each call has
    its fragments' arguments concatenated, their first non-empty id and type, and
    the name their name fragments make up ([assembled]).  Without fragments there is
    no such field. *)
Theorem mergeDelta_tools ds : Forall delta_ok ds →
  let a := foldl mergeDelta zero_accumulator ds in
  let fs := fragments ds in
  ∃ idxs, StronglySorted Z.lt idxs ∧ (∀ idx, idx ∈ idxs ↔ for_index idx fs ≠ []) ∧
    sorted_calls a = map (λ idx, call_value (assembled (for_index idx fs))) idxs ∧
    ∀ c, canonical a = Ok c → ∃ m, Decode c = Some (AMap m) ∧
      match map_get (str "tool_calls") m with
      | None => idxs = []
      | Some v => idxs ≠ [] ∧ any_eqv v (AArr (map (λ idx, call_value (assembled (for_index idx fs))) idxs))
      end.
Proof.
  intros Hds a fs. assert (acc_ok a) as Ha by (apply mergeDeltas_ok; [done|apply zero_acc_ok]).
  destruct (sorted_calls_indices ds) as (idxs&Hs&Hin&E&Hnone). exists idxs. split_and!; [done..|]. intros c Hc.
  destruct (canonical_decode a c Ha Hc) as (_&m&Hm&Hget). exists m. split; [done|]. unfold fs. rewrite <-E, Hget, message_calls.
  fold a in Hnone. case_bool_decide as Ht; cbn; [by apply Hnone|]. split; [naive_solver|]. symmetry. apply any_eqv_norm.
Qed.

(** Fragments of index 1 before those of index 0, the arguments of 1 in two parts. *)
Definition sample_call (idx : option Z) (name : option bytes) (args : bytes) : toolCallDelta :=
  {| Index := idx; d_ID := []; d_Type := []; Function_Name := name; Function_Arguments := Some args |}.
Definition sample_deltas : list deltaLike := map (λ tc, {| Content := []; ToolCalls := {| s_elems := [tc]; s_stale := [] |};
    ReasoningContent := None; Reasoning := None |})
  [sample_call (Some 1) (Some (str "g")) (str "{"); sample_call None (Some (str "f")) []; sample_call (Some 1) None (str "}")].

Lemma mergeDelta_tools_witness : Forall delta_ok sample_deltas ∧
  let a := foldl mergeDelta zero_accumulator sample_deltas in
  let fs := fragments sample_deltas in
  ∃ idxs, StronglySorted Z.lt idxs ∧ (∀ idx, idx ∈ idxs ↔ for_index idx fs ≠ []) ∧
    sorted_calls a = map (λ idx, call_value (assembled (for_index idx fs))) idxs ∧
    ∀ c, canonical a = Ok c → ∃ m, Decode c = Some (AMap m) ∧
      match map_get (str "tool_calls") m with
      | None => idxs = []
      | Some v => idxs ≠ [] ∧ any_eqv v (AArr (map (λ idx, call_value (assembled (for_index idx fs))) idxs))
      end.
Proof.
  assert (Forall delta_ok sample_deltas) as Hds by (apply (bool_decide_unpack _); vm_compute; exact I).
  split; [exact Hds|exact (mergeDelta_tools sample_deltas Hds)].
Defined.

Example sample_deltas_ex : canonical (foldl mergeDelta zero_accumulator sample_deltas) =
  Ok (js "{'role':'assistant','tool_calls':[{'function':{'arguments':'','name':'f'}},{'function':{'arguments':'{}','name':'g'}}]}").
Proof. vm_compute. reflexivity. Qed.

(** A name fragment equal to the name accumulated so far is dropped: a name
    streamed as "go" and "go" is rebuilt as "go". *)
Lemma name_fragment_dropped :
  let f := {| Index := None; d_ID := []; d_Type := []; Function_Name := Some (str "go"); Function_Arguments := None |} in
  Name (foldl merge_tool_state zero_toolCallState [f; f]) = str "go".
Proof. reflexivity. Qed.

(** ** Worked instances *)
Definition ex_stream : bytes :=
  js "data: {'choices':[{'index':0,'delta':{'role':'assistant','content':''}}]}" ++ [10; 10] ++
  js "data: {'choices':[{'index':1,'delta':{'content':'no'}}]}" ++ [10; 10] ++
  js "data: {'choices':[{'Delta':{'content':'Hi'}}]}" ++ [10; 10] ++
  js "data: not json" ++ [10; 10] ++
  js "data: {'choices':[{'delta':{'tool_calls':[{'index':1,'id':'b','function':{'name':'g','arguments':'{'}}]}}]}" ++ [10; 10] ++
  js "data: {'choices':[{'delta':{'tool_calls':[{'index':1,'function':{'arguments':'}'}},{'index':0,'function':{'name':'f','arguments':''}}]}}]}" ++ [10; 10] ++
  js "data: [DONE]" ++ [10; 10] ++
  js "data: {'choices':[{'delta':{'content':'late'}}]}" ++ [10; 10].
Example AssistantFromSSE_ex : AssistantFromSSE ex_stream =
  (Ok (js "{'content':'Hi','role':'assistant','tool_calls':[{'function':{'arguments':'','name':'f'}},{'function':{'arguments':'{}','name':'g'},'id':'b'}]}"), true).
Proof. vm_compute. reflexivity. Qed.
Example AssistantFromMessage_ex :
  AssistantFromMessage (js "{'role':'assistant','content':null,'tool_calls':[{'id':'c','type':'function','function':{'name':'f','arguments':'{}'}}],'x':1}")
  = Ok (js "{'content':null,'role':'assistant','tool_calls':[{'function':{'arguments':'{}','name':'f'},'id':'c','type':'function'}]}").
Proof. vm_compute. reflexivity. Qed.
