(* ===== verification/AssistantStream.v ===== *)
(** * Streams of deltas: what [AssistantFromSSE] rebuilds

    An upstream sends a message as events whose data line is a chunk with one
    choice and its delta.  [chunk_value] is such a chunk; [AssistantFromSSE] on
    the encoded stream is the accumulator run over the deltas
    ([AssistantFromSSE_stream]), so the framing, the JSON and the typed decoding
    lose nothing; and a canonical message is a fixed point of
    [AssistantFromMessage] ([AssistantFromMessage_fixpoint]). *)
From S2P Require Import Prelude Utf8 GoBytes Json JsonFacts JsonRender Canon Sse Request Assistant.

(** ** Encoding deltas *)

Lemma take_digits_all ds : Forall (λ c, 48 <= c <= 57) ds → take_digits ds = (ds, []).
Proof.
  induction 1 as [|c ds Hc Hds IH]; [done|]. cbn. unfold is_digit.
  btrue ((48 <=? c) && (c <=? 57)). by rewrite IH.
Qed.

Lemma scan_unsigned_digits c t : Forall (λ c, 48 <= c <= 57) (c :: t) → (c = 48 → t = []) →
  scan_unsigned (c :: t) = Some (c :: t, []).
Proof.
  intros Hds Hz. unfold scan_unsigned, scan_int. destruct (Z.eqb_spec c 48) as [->|Hc].
  - by rewrite Hz.
  - unfold digits1. rewrite take_digits_all by done. cbn. by rewrite app_nil_r.
Qed.

Lemma Itoa_valid_number n : - 2 ^ 63 <= n < 2 ^ 63 → valid_number (Itoa n).
Proof.
  intros Hn. unfold valid_number, scan_number. destruct (Z.ltb_spec n 0) as [Hneg|Hpos].
  - destruct (Itoa_digits (- n)) as (c&t&E&Hds&_&Hz); [lia|].
    assert (Itoa n = 45 :: Itoa (- n)) as -> by (unfold Itoa; btrue (n <? 0); by bfalse (- n <? 0)).
    rewrite E in *. cbn [Z.eqb Pos.eqb]. by rewrite scan_unsigned_digits.
  - destruct (Itoa_digits n) as (c&t&E&Hds&_&Hz); [lia|]. rewrite E in *.
    assert (48 <= c <= 57) by (by inversion Hds). bfalse (c =? 45). by apply scan_unsigned_digits.
Qed.

Definition opt_value {A} (f : A → any) (k : bytes) (o : option A) : list (bytes * any) :=
  match o with Some x => [(k, f x)] | None => [] end.

(** A tool-call fragment with the fields it has; the empty id and type are
    left out. *)
Definition frag_value (tc : toolCallDelta) : any :=
  AMap (opt_value (λ i, ANum (Itoa i)) (str "index") (Index tc) ++
    opt_field (nonempty (d_ID tc)) (str "id") (AStr (d_ID tc)) ++
    opt_field (nonempty (d_Type tc)) (str "type") (AStr (d_Type tc)) ++
    [(str "function", AMap (opt_value AStr (str "name") (Function_Name tc) ++
        opt_value AStr (str "arguments") (Function_Arguments tc)))]).

Record delta_spec : Type := { ds_content : option bytes; ds_tools : list toolCallDelta }.

Definition delta_value (ds : delta_spec) : any :=
  AMap (opt_value AStr (str "content") (ds_content ds) ++
        [(str "tool_calls", AArr (map frag_value (ds_tools ds)))]).
Definition choice_value (ds : delta_spec) : any := AMap [(str "delta", delta_value ds)].
Definition chunk_value (ds : delta_spec) : any :=
  AMap [(str "choices", AArr (map choice_value [ds]))].

(** The delta the chunk stands for. *)
Definition delta_of (ds : delta_spec) : deltaLike :=
  {| Content := from_option WriteString [] (ds_content ds);
     ToolCalls := {| s_elems := ds_tools ds; s_stale := [] |};
     ReasoningContent := None; Reasoning := None |}.

Definition spec_ok (ds : delta_spec) : Prop :=
  opt_all valid_utf8 (ds_content ds) ∧
  Forall (λ tc, tool_delta_ok tc ∧ opt_all (λ i, - 2 ^ 63 <= i < 2 ^ 63) (Index tc)) (ds_tools ds).

#[export] Instance spec_ok_dec ds : Decision (spec_ok ds).
Proof. unfold spec_ok. apply _. Defined.

Definition encode_chunk (ds : delta_spec) : bytes := encode_event [render WriteString (chunk_value ds)].
Definition done_event : bytes := encode_event [str "[DONE]"].

(** ** Decoding what was encoded *)

Section decode.
Context (q : bytes → bytes).

Lemma dec_frag tc : opt_all (λ i, - 2 ^ 63 <= i < 2 ^ 63) (Index tc) →
  dec_toolCallDelta (tree q (frag_value tc)) zero_toolCallDelta = Some tc.
Proof.
  destruct tc as [i id ty name args]. unfold frag_value. cbn [Index d_ID d_Type Function_Name Function_Arguments].
  destruct i as [i|]; cbn [opt_all from_option opt_value].
  - intros Hi%ParseInt_Itoa. generalize dependent (Itoa i). intros l Hl.
    destruct id as [|b id], ty as [|b' ty], name as [name|], args as [args|]; lazy -[ParseInt]; by rewrite Hl.
  - intros _. destruct id as [|b id], ty as [|b' ty], name as [name|], args as [args|]; vm_compute; reflexivity.
Qed.

Lemma decode_into_fresh {A B} (dec : decoder A) zero (f : B → any) (g : B → A) xs :
  Forall (λ x, dec (tree q (f x)) zero = Some (g x)) xs →
  decode_into dec zero (map (λ e, (render q e, tree q e)) (map f xs)) [] = Some (map g xs).
Proof.
  induction 1 as [|x xs Hx Hxs IH]; [done|]. cbn [map decode_into tail]. rewrite Hx. cbn. by rewrite IH.
Qed.

(** An array decoded into an empty slice. *)
Lemma dec_slice_fresh {A B} (dec : decoder A) zero (f : B → any) (g : B → A) xs :
  Forall (λ x, dec (tree q (f x)) zero = Some (g x)) xs →
  dec_slice dec zero (tree q (AArr (map f xs))) nil_slice = Some {| s_elems := map g xs; s_stale := [] |}.
Proof.
  intros Hxs%decode_into_fresh. destruct xs as [|x xs]; [done|].
  cbn [tree]. unfold dec_slice. revert Hxs. generalize (map g (x :: xs)). cbn [map]. intros ys Hxs.
  cbn [s_elems s_stale nil_slice app]. rewrite Hxs. by rewrite drop_nil.
Qed.
End decode.

(** Decode an object of literal keys, field by field. *)
Ltac fields :=
  cbn [dec_struct dec_members];
  repeat match goal with |- context [field_is ?a ?b] =>
    let v := eval vm_compute in (field_is a b) in change (field_is a b) with v end;
  cbv iota.

Lemma tree_singleton q k v : tree q (AMap [(k, v)]) = JObj [(k, (render q v, tree q v))].
Proof. done. Qed.

Lemma dec_delta ds : spec_ok ds →
  dec_deltaLike (tree WriteString (delta_value ds)) zero_deltaLike = Some (delta_of ds).
Proof.
  intros [_ Ht]. unfold delta_value, delta_of. destruct ds as [c tcs]. cbn [ds_content ds_tools] in *.
  assert (E : dec_slice dec_toolCallDelta zero_toolCallDelta (tree WriteString (AArr (map frag_value tcs))) nil_slice
    = Some {| s_elems := tcs; s_stale := [] |}).
  { rewrite (dec_slice_fresh _ _ _ _ id), map_id; [done|]. eapply Forall_impl; [exact Ht|]. intros tc [_ Hi]. by apply dec_frag. }
  generalize dependent (AArr (map frag_value tcs)). intros v Hv.
  assert (tree WriteString (AMap (opt_value AStr (str "content") c ++ [(str "tool_calls", v)]))
    = JObj (from_option (λ s, [(str "content", (WriteString s, JStr s))]) [] c ++
        [(str "tool_calls", (render WriteString v, tree WriteString v))])) as -> by by destruct c.
  unfold dec_deltaLike. destruct c as [c|]; cbn [from_option app]; fields;
    cbn [mbind option_bind dec_members]; fields; cbn [ToolCalls zero_deltaLike]; by rewrite Hv.
Qed.

Definition choice_of (ds : delta_spec) : stream_choice :=
  {| c_Index := None; Delta := Some (delta_of ds); c_Message := None; Text := None |}.

Lemma dec_choice ds : spec_ok ds →
  dec_stream_choice (tree WriteString (choice_value ds)) zero_stream_choice = Some (choice_of ds).
Proof.
  intros Hds. pose proof (dec_delta ds Hds) as E. unfold choice_value. rewrite tree_singleton.
  unfold dec_stream_choice. fields. unfold dec_ptr.
  change (default zero_deltaLike (Delta zero_stream_choice)) with zero_deltaLike. rewrite E. done.
Qed.

Lemma dec_chunk ds : spec_ok ds →
  dec_streamChunk (tree WriteString (chunk_value ds)) {| sc_Choices := nil_slice |}
  = Some {| sc_Choices := {| s_elems := [choice_of ds]; s_stale := [] |} |}.
Proof.
  intros Hds. unfold chunk_value. rewrite tree_singleton. unfold dec_streamChunk. fields.
  cbn [sc_Choices]. rewrite (dec_slice_fresh _ _ _ _ choice_of); [done|].
  by repeat constructor; apply dec_choice.
Qed.

(** ** The chunk as a value *)

Lemma frag_value_wf tc : tool_delta_ok tc → opt_all (λ i, - 2 ^ 63 <= i < 2 ^ 63) (Index tc) →
  any_wf (frag_value tc) ∧ 0 <= any_depth (frag_value tc) <= 2.
Proof.
  intros (?&?&Hn&Ha) Hi. unfold frag_value.
  assert (any_wf (AMap (opt_value AStr (str "name") (Function_Name tc) ++
    opt_value AStr (str "arguments") (Function_Arguments tc)))) as Hf.
  { destruct (Function_Name tc), (Function_Arguments tc); cbn -[str] in *; wf_object. }
  destruct (Index tc) as [i|]; cbn [opt_value opt_all from_option] in *;
    destruct (nonempty (d_ID tc)), (nonempty (d_Type tc)); (split;
    [cbn [app opt_field]; wf_object; try (by apply wf_num, Itoa_valid_number)
    |destruct (Function_Name tc), (Function_Arguments tc); cbn; lia]).
Qed.

Lemma chunk_value_wf ds : spec_ok ds → any_wf (chunk_value ds) ∧ any_depth (chunk_value ds) <= max_depth.
Proof.
  intros [Hc Ht]. assert (Forall (λ v, any_wf v ∧ 0 <= any_depth v <= 2) (map frag_value (ds_tools ds))) as Hf.
  { apply Forall_fmap. eapply Forall_impl; [exact Ht|]. intros tc []. by apply frag_value_wf. }
  assert (any_wf (AArr (map frag_value (ds_tools ds))) ∧ 0 <= any_depth (AArr (map frag_value (ds_tools ds))) <= 3) as [Hw Hd].
  { split; [constructor; eapply Forall_impl; [exact Hf|by intros ? []]|]. cbn.
    induction Hf as [|v l [_ Hv] _ IH]; cbn in *; lia. }
  unfold chunk_value, choice_value, delta_value. cbn [map].
  generalize dependent (AArr (map frag_value (ds_tools ds))). intros calls Hw Hd. unfold max_depth.
  destruct (ds_content ds) as [c|]; cbn [opt_value opt_all from_option app] in *;
    (split; [wf_object; apply wf_arr; wf_object|cbn; lia]).
Qed.

(** ** The stream *)

Lemma clean_line_ok l : Forall (λ b, 0x20 <= b) l → line_ok l.
Proof.
  intros Hl. rewrite Forall_forall in Hl. split.
  - intros Hin%Hl. lia.
  - intros t ->. specialize (Hl 13). assert (0x20 <= 13) by (apply Hl; set_solver). lia.
Qed.

Lemma render_line_ok v : any_wf v → line_ok (render WriteString v).
Proof. intros Hv. apply clean_line_ok. by apply clean_render. Qed.

Lemma TrimSpace_object m : TrimSpace (render WriteString (AMap m)) = render WriteString (AMap m).
Proof.
  rewrite render_map. apply TrimSpace_visible.
  - do 2 eexists. split; [done|lia].
  - eexists 125, _. split; [|lia]. by rewrite (app_assoc [123] _ [125]).
Qed.

Lemma on_event_chunk root d ds : spec_ok ds →
  on_event (root, d) {| Data := render WriteString (chunk_value ds) |} = (mergeDelta root (delta_of ds), d, true).
Proof.
  intros Hds. destruct (chunk_value_wf ds Hds) as [Hw Hd]. unfold on_event. cbn [Data].
  assert (TrimSpace (render WriteString (chunk_value ds)) = render WriteString (chunk_value ds)) as -> by apply TrimSpace_object.
  rewrite decide_False; [|unfold chunk_value; by rewrite render_map].
  rewrite parse_render by (done || apply good_WriteString). cbn [mbind option_bind].
  by rewrite dec_chunk.
Qed.

Lemma feed_chunks root d dss evs : Forall spec_ok dss →
  feed on_event (map (λ ds, render WriteString (chunk_value ds)) dss ++ evs) (root, d)
  = feed on_event evs (foldl mergeDelta root (map delta_of dss), d).
Proof.
  intros Hdss. revert root. induction Hdss as [|ds dss Hds Hdss IH]; intros root; [done|].
  cbn [map app feed foldl]. rewrite on_event_chunk by done. apply IH.
Qed.

(** The events of encoded chunks, whatever comes after them. *)
Lemma events_chunks dss s : Forall spec_ok dss →
  events ((dss ≫= encode_chunk) ++ s) = map (λ ds, render WriteString (chunk_value ds)) dss ++ events s.
Proof.
  intros Hdss.
  assert (dss ≫= encode_chunk = map (λ ds, [render WriteString (chunk_value ds)]) dss ≫= encode_event) as ->.
  { clear Hdss. induction dss as [|ds dss IH]; [done|]. rewrite map_cons, !bind_cons. by rewrite IH. }
  rewrite events_encode; [by rewrite map_map|].
  apply Forall_fmap. eapply Forall_impl; [exact Hdss|]. intros ds Hds. unfold compose. split; [done|].
  constructor; [by apply render_line_ok, chunk_value_wf|constructor].
Qed.

Lemma encoded_events dss tail : Forall spec_ok dss →
  events ((dss ≫= encode_chunk) ++ done_event ++ tail)
  = map (λ ds, render WriteString (chunk_value ds)) dss ++ str "[DONE]" :: events tail.
Proof. intros Hdss. by rewrite events_chunks. Qed.

Lemma stream_accumulates dss tail : Forall spec_ok dss →
  AssistantFromSSE ((dss ≫= encode_chunk) ++ done_event ++ tail)
  = (canonical (foldl mergeDelta zero_accumulator (map delta_of dss)), true).
Proof.
  intros Hdss. unfold AssistantFromSSE. unfold Scan. rewrite scan_loop_feed by lia.
  fold (events ((dss ≫= encode_chunk) ++ done_event ++ tail)). rewrite encoded_events by done.
  rewrite feed_chunks by done. cbn [feed]. done.
Qed.

(** ** Text *)

Lemma merge_content_text a s : valid_utf8 s → merge_content a (WriteString s) = write_text a s.
Proof.
  intros Hs. unfold merge_content. change (nonempty (WriteString s)) with true. cbv iota.
  rewrite TrimSpace_visible.
  - rewrite decide_False by done. unfold unmarshal_string.
    pose proof (parse_render WriteString (AStr s) good_WriteString) as E. cbn [render tree] in E.
    rewrite E; [done|by constructor|done].
  - do 2 eexists. split; [done|lia].
  - eexists 34, _. split; [|lia]. unfold WriteString. by rewrite (app_assoc [34] _ [34]).
Qed.

Definition text_piece (s : bytes) : delta_spec := {| ds_content := Some s; ds_tools := [] |}.

Lemma text_pieces_fold ss a : Forall valid_utf8 ss → ss ≠ [] →
  foldl mergeDelta a (map delta_of (map text_piece ss))
  = {| text := text a ++ concat ss; textSeen := true; nullSeen := nullSeen a; complex := complex a;
       tools := tools a; toolOrder := toolOrder a |}.
Proof.
  intros Hss Hne. revert a. induction Hss as [|s ss Hs Hss IH]; intros a; [done|].
  cbn [map foldl concat]. unfold mergeDelta at 2. cbn [delta_of text_piece ds_content ds_tools Content ToolCalls s_elems from_option foldl].
  rewrite merge_content_text by done. destruct ss as [|s' ss]; [cbn; by rewrite app_nil_r|].
  rewrite IH by done. cbn [write_text text nullSeen complex tools toolOrder]. by rewrite <-app_assoc.
Qed.

Lemma text_specs_ok ss : Forall valid_utf8 ss → Forall spec_ok (map text_piece ss).
Proof. induction 1; cbn; constructor; [|done]. split; [done|constructor]. Qed.

(** ** Reading a canonical message back *)

(** The raw members of a rendered object. *)
Lemma unmarshal_raw_map_render m : any_wf (AMap m) → any_depth (AMap m) <= max_depth →
  unmarshal_raw_map (render WriteString (AMap m)) = Some (sort_entries (map_vals (render WriteString) m)).
Proof.
  intros Hw Hd. unfold unmarshal_raw_map. rewrite parse_render by (done || apply good_WriteString).
  cbn [mbind option_bind tree]. f_equal. pose proof (any_wf_keys m Hw) as Hnd.
  fold (map_vals (λ e, (render WriteString e, tree WriteString e)) m).
  rewrite (sort_map_vals (λ e, (render WriteString e, tree WriteString e))), (sort_map_vals (render WriteString)) by done.
  assert (map (λ '(k, (r, _)), (k, r)) (map_vals (λ e, (render WriteString e, tree WriteString e)) (sort_entries m))
    = map_vals (render WriteString) (sort_entries m)) as ->.
  { unfold map_vals. rewrite map_map. apply map_ext. by intros [k e]. }
  apply map_of_id. rewrite map_vals_keys. by apply NoDup_sort_entries.
Qed.

(** A tool call as a delta without index. *)
Definition call_delta (st : toolCallState) : toolCallDelta :=
  {| Index := None; d_ID := ID st; d_Type := Type_ st;
     Function_Name := if nonempty (Name st) then Some (Name st) else None;
     Function_Arguments := Some (Arguments_ st) |}.

Lemma dec_call q st : dec_toolCallDelta (tree q (call_value st)) zero_toolCallDelta = Some (call_delta st).
Proof.
  destruct st as [id ty name args]. unfold call_value, call_delta. cbn [ID Type_ Name Arguments_].
  destruct id, ty, name; vm_compute; reflexivity.
Qed.

Lemma assign_call_delta st : assign_tool_state zero_toolCallState (call_delta st) = st.
Proof. destruct st as [id ty name args]. by destruct id, ty, name. Qed.

(** The accumulator after the calls of a message have been assigned. *)
Lemma assign_tools_spec arr i a :
  (∀ k, (i <= k)%nat → tools a !! Z.of_nat k = None) →
  let a' := assign_tools i a arr in
  toolOrder a' = toolOrder a ++ (Z.of_nat <$> seq i (length arr)) ∧
  (∀ k, tools a' !! k = if decide (Z.of_nat i <= k < Z.of_nat (i + length arr))
     then assign_tool_state zero_toolCallState <$> arr !! (Z.to_nat k - i)%nat else tools a !! k) ∧
  text a' = text a ∧ textSeen a' = textSeen a ∧ nullSeen a' = nullSeen a ∧ complex a' = complex a.
Proof.
  revert i a. induction arr as [|tc arr IH]; intros i a Ha; cbn [assign_tools].
  - cbn. rewrite app_nil_r. split_and!; try done. intros k. rewrite decide_False by lia. done.
  - unfold tool. rewrite (Ha i) by lia.
    set (a1 := set_tool _ _ _). destruct (IH (S i) a1) as (Ho&Hl&?&?&?&?).
    { intros k Hk. cbn. rewrite !lookup_insert_ne by lia. apply Ha. lia. }
    split_and!; try done.
    + rewrite Ho. cbn. by rewrite <-app_assoc.
    + intros k. rewrite Hl. cbn [length]. destruct (decide (k = Z.of_nat i)) as [->|Hki].
      * rewrite decide_False by lia. rewrite decide_True by lia. cbn. rewrite lookup_insert_eq.
        by replace (Z.to_nat (Z.of_nat i) - i)%nat with O by lia.
      * destruct (decide (Z.of_nat i <= k < Z.of_nat (i + S (length arr)))) as [Hk|Hk].
        -- rewrite decide_True by lia. replace (Z.to_nat k - i)%nat with (S (Z.to_nat k - S i))%nat by lia. done.
        -- rewrite decide_False by lia. cbn. by rewrite !lookup_insert_ne by lia.
Qed.

Lemma seq_sorted i n : merge_sort Z.le (Z.of_nat <$> seq i n) = Z.of_nat <$> seq i n.
Proof.
  apply (Sorted_unique Z.le); [apply Sorted_merge_sort, _| |apply (merge_sort_Permutation Z.le)].
  revert i. induction n as [|n IH]; intros i; [constructor|]. cbn. constructor; [apply IH|].
  destruct n; cbn; constructor. lia.
Qed.

Lemma assigned_calls sts a : tools a = ∅ → toolOrder a = [] →
  sorted_calls (assign_tools 0 a (map call_delta sts)) = map call_value sts.
Proof.
  intros Ht Ho. destruct (assign_tools_spec (map call_delta sts) 0 a) as (Ho'&Hl&_).
  { intros k _. by rewrite Ht. }
  unfold sorted_calls. rewrite Ho', Ho. cbn [app]. rewrite seq_sorted, length_map.
  apply list_eq. intros k. rewrite !(list_lookup_fmap _ _ k).
  destruct (decide (k < length sts)%nat) as [Hk|Hk].
  - rewrite lookup_seq_lt by done. cbn [fmap option_fmap option_map Nat.add].
    rewrite Hl, length_map. rewrite decide_True by lia. rewrite Nat2Z.id, Nat.sub_0_r.
    change (map call_delta sts) with (call_delta <$> sts). rewrite list_lookup_fmap. destruct (lookup_lt_is_Some_2 sts k Hk) as [st ->].
    cbn. by rewrite assign_call_delta.
  - rewrite lookup_seq_ge by lia. by rewrite (lookup_ge_None_2 sts k) by lia.
Qed.

Lemma merge_content_null a : merge_content a (str "null") = see_null a.
Proof. reflexivity. Qed.

(** The states of the calls in the order they are rendered. *)
Definition sorted_states (a : accumulator) : list toolCallState :=
  map (λ idx, default zero_toolCallState (tools a !! idx)) (merge_sort Z.le (toolOrder a)).

Lemma sorted_calls_states a : sorted_calls a = map call_value (sorted_states a).
Proof. unfold sorted_calls, sorted_states. by rewrite map_map. Qed.

(** The accumulator [AssistantFromMessage] starts the tool calls with. *)
Definition content_acc (a : accumulator) : accumulator :=
  if textSeen a then write_text zero_accumulator (text a)
  else if nullSeen a then see_null zero_accumulator else zero_accumulator.

Lemma canonical_ext a a' : complex a' = false → empty a' = empty a → complex a = false →
  message_value a' = message_value a → canonical a' = canonical a.
Proof. unfold canonical. by intros -> -> -> ->. Qed.

Lemma tools_empty_order a : order_ok a → tools a = ∅ → toolOrder a = [].
Proof.
  intros [_ Hd] E. destruct (toolOrder a) as [|i l]; [done|]. destruct (proj1 (Hd i)) as [x Hx]; [set_solver|].
  rewrite E in Hx. by apply lookup_empty_Some in Hx.
Qed.

Lemma message_field_content a : map_get (str "content") (map_vals (render WriteString) (message_fields a)) =
  if textSeen a || nullSeen a then Some (render WriteString (if textSeen a then AStr (text a) else ANull)) else None.
Proof. unfold message_fields. by destruct (textSeen a), (nullSeen a), (bool_decide _). Qed.

Lemma message_field_calls a : map_get (str "tool_calls") (map_vals (render WriteString) (message_fields a)) =
  if bool_decide (tools a = ∅) then None else Some (render WriteString (AArr (sorted_calls a))).
Proof. unfold message_fields. by destruct (textSeen a), (nullSeen a), (bool_decide _). Qed.

Lemma parse_calls a : acc_ok a →
  parse (render WriteString (AArr (sorted_calls a))) = Some (tree WriteString (AArr (sorted_calls a))).
Proof.
  intros Ha. pose proof (sorted_calls_wf a Ha) as Hs. apply parse_render; [apply good_WriteString| |].
  - constructor. eapply Forall_impl; [exact Hs|by intros ? []].
  - transitivity 3; [|done]. cbn. induction Hs as [|v l [_ Hv] _ IH]; cbn in *; lia.
Qed.

Lemma read_content a : acc_ok a →
  match map_get (str "content") (map_vals (render WriteString) (message_fields a)) with
  | Some c => mergeDelta zero_accumulator
      {| Content := c; ToolCalls := nil_slice; ReasoningContent := None; Reasoning := None |}
  | None => zero_accumulator
  end = content_acc a.
Proof.
  intros [Ht _ _]. rewrite message_field_content. unfold content_acc, mergeDelta.
  destruct (textSeen a); [|by destruct (nullSeen a)]. cbn [orb foldl Content ToolCalls s_elems nil_slice].
  by apply merge_content_text.
Qed.

Lemma message_value_assigned a : acc_ok a → bool_decide (tools a = ∅) = false →
  let a' := assign_tools 0 (content_acc a) (map call_delta (sorted_states a)) in
  message_value a' = message_value a ∧ complex a' = false ∧ empty a' = false.
Proof.
  intros Ha Ht a'.
  assert (tools (content_acc a) = ∅ ∧ toolOrder (content_acc a) = [] ∧ complex (content_acc a) = false) as (E1&E2&E3).
  { unfold content_acc. by destruct (textSeen a), (nullSeen a). }
  destruct (assign_tools_spec (map call_delta (sorted_states a)) 0 (content_acc a)) as (Ho&Hl&_&Hts&Hns&Hc).
  { intros k _. by rewrite E1. }
  fold a' in Ho, Hl, Hts, Hns, Hc.
  assert (bool_decide (tools a' = ∅) = false) as Ht'.
  { apply bool_decide_eq_false in Ht. apply bool_decide_eq_false. intros E.
    destruct (map_choose _ Ht) as (i&st&Hi).
    assert (i ∈ merge_sort Z.le (toolOrder a)) as Hin.
    { rewrite (merge_sort_Permutation Z.le). apply (acc_order a Ha). eauto. }
    specialize (Hl 0). rewrite E, lookup_empty, decide_True in Hl.
    - unfold sorted_states in Hl. by destruct (merge_sort Z.le (toolOrder a)); [apply elem_of_nil in Hin|].
    - unfold sorted_states. rewrite !length_map. destruct (merge_sort Z.le (toolOrder a)); [by apply elem_of_nil in Hin|].
      cbn. lia. }
  split_and!.
  - rewrite !message_value_eq. unfold message_fields. rewrite Ht, Ht', Hts, Hns.
    assert (text a' = text (content_acc a)) as Htext by apply (assign_tools_spec _ 0 (content_acc a) ltac:(intros k _; by rewrite E1)).
    unfold a' at 2. rewrite assigned_calls, <-sorted_calls_states by done. rewrite Htext. unfold content_acc.
    by destruct (textSeen a), (nullSeen a).
  - by rewrite Hc.
  - unfold empty. by rewrite Ht', !andb_false_r.
Qed.

Lemma fixpoint_acc a c : acc_ok a → canonical a = Ok c → AssistantFromMessage c = Ok c.
Proof.
  intros Ha Hc. pose proof Hc as Hc'. rewrite canonical_spec in Hc by done.
  destruct (complex a) eqn:Ecx; [done|]. destruct (empty a) eqn:Ee; [done|]. assert (c = render WriteString (message_value a)) as -> by congruence.
  destruct (message_value_wf a Ha) as [Hw Hd]. rewrite <-Hc'. unfold AssistantFromMessage.
  rewrite message_value_eq in *. rewrite unmarshal_raw_map_render by done.
  assert (∀ k, map_get k (sort_entries (map_vals (render WriteString) (message_fields a)))
    = map_get k (map_vals (render WriteString) (message_fields a))) as Eg.
  { intros k. apply map_get_perm; [|apply sort_entries_perm].
    apply NoDup_sort_entries. rewrite map_vals_keys. by apply any_wf_keys. }
  rewrite !Eg, read_content, message_field_calls by done.
  destruct (bool_decide (tools a = ∅)) eqn:Et.
  - apply bool_decide_eq_true in Et. unfold empty in Ee. rewrite Ecx, bool_decide_true in Ee by done.
    apply canonical_ext; [by unfold content_acc; destruct (textSeen a), (nullSeen a)| |done|].
    + unfold empty, content_acc. rewrite Ecx, (bool_decide_true (tools a = ∅)) by done.
      by destruct (textSeen a), (nullSeen a).
    + rewrite !message_value_eq. unfold message_fields, content_acc. rewrite (bool_decide_true (tools a = ∅)) by done.
      by destruct (textSeen a), (nullSeen a).
  - rewrite parse_calls by done. cbn [mbind option_bind].
    rewrite sorted_calls_states, (dec_slice_fresh _ _ _ _ call_delta).
    + cbn [s_elems]. destruct (message_value_assigned a Ha Et) as (?&?&?).
      apply canonical_ext; [done|by rewrite Ee|done..].
    + apply Forall_forall. intros st _. apply dec_call.
Qed.

(** ** Properties *)

(** [C21] Streamed deltas are rebuilt exactly: for any sequence of deltas with
    text pieces and tool-call fragments, sent one chunk per event and closed by
    [DONE], [AssistantFromSSE] is the accumulator run over those very deltas, it
    reports the sentinel, and whatever follows the sentinel is ignored. *)
Theorem AssistantFromSSE_stream dss tail : Forall spec_ok dss →
  AssistantFromSSE ((dss ≫= encode_chunk) ++ done_event ++ tail)
  = (canonical (foldl mergeDelta zero_accumulator (map delta_of dss)), true).
Proof. apply stream_accumulates. Qed.

Lemma AssistantFromSSE_stream_witness :
  let f i a := {| Index := Some i; d_ID := []; d_Type := []; Function_Name := None; Function_Arguments := Some (str a) |} in
  let dss := [text_piece (str "Hi"); {| ds_content := None; ds_tools := [f 1 "{"; f 0 "{}"] |};
              {| ds_content := None; ds_tools := [f 1 "}"] |}] in
  AssistantFromSSE ((dss ≫= encode_chunk) ++ done_event ++ str "data: junk")
  = (Ok (js "{'content':'Hi','role':'assistant','tool_calls':[{'function':{'arguments':'{}'}},{'function':{'arguments':'{}'}}]}"), true).
Proof.
  intros f dss. rewrite (AssistantFromSSE_stream dss); [vm_compute; reflexivity|].
  apply (bool_decide_unpack _). vm_compute. exact I.
Defined.

(** The content of a plain answer. *)
Definition text_message (text : bytes) : any := AMap [(str "role", AStr (str "assistant")); (str "content", AStr text)].

Lemma text_message_wf text : valid_utf8 text → any_wf (text_message text).
Proof.
  intros Ht. constructor; [apply (bool_decide_unpack _); vm_compute; exact I|].
  repeat constructor; [apply (bool_decide_unpack _); vm_compute; exact I..|done].
Qed.

Lemma text_canonical ss : Forall valid_utf8 ss → ss ≠ [] →
  canonical (foldl mergeDelta zero_accumulator (map delta_of (map text_piece ss)))
  = Ok (render WriteString (text_message (concat ss))).
Proof.
  intros Hss Hne. rewrite text_pieces_fold by done.
  set (a := {| text := _ |}). change (canonical a) with (match CanonicalValue (text_message (concat ss)) with
    | Ok c => Ok c | Err e => Err (err_canon e) end).
  rewrite CanonicalValue_render; [done| |by vm_compute]. apply text_message_wf.
  clear -Hss. induction Hss; [by vm_compute|]. by apply valid_utf8_app.
Qed.

Lemma echo_canonical echo v text : Decode echo = Some v → any_eqv v (text_message text) →
  Canonicalize echo = Ok (render WriteString (text_message text)).
Proof.
  intros Hv Heq. destruct (Canonicalize_ok _ _ Hv) as (->&Hwf&_). f_equal.
  pose proof (any_eqv_wf _ _ Heq Hwf). by apply render_inj; [apply good_WriteString|..].
Qed.

(** [C11] A text answer streamed in pieces is rebuilt as the message the client
    will send back: any JSON text that decodes to the assistant role with the
    concatenation of the pieces as content has the rebuilt text as its canonical
    form, so both give the same state hash. *)
Theorem AssistantFromSSE_text_echo ss tail echo v : Forall valid_utf8 ss → ss ≠ [] →
  Decode echo = Some v → any_eqv v (text_message (concat ss)) →
  ∃ c, AssistantFromSSE ((map text_piece ss ≫= encode_chunk) ++ done_event ++ tail) = (Ok c, true) ∧
       Canonicalize echo = Ok c.
Proof.
  intros Hss Hne Hv Heq. eexists. split; [|by eapply echo_canonical].
  by rewrite stream_accumulates, text_canonical by (done || by apply text_specs_ok).
Qed.

Lemma AssistantFromSSE_text_echo_witness : ∃ c,
  AssistantFromSSE ((map text_piece [str "Hel"; str "lo"] ≫= encode_chunk) ++ done_event ++ []) = (Ok c, true) ∧
  Canonicalize (js "{ 'content' : 'Hello', 'role':'assistant' }") = Ok c.
Proof.
  eapply AssistantFromSSE_text_echo; [apply (bool_decide_unpack _); vm_compute; exact I|done|vm_compute; reflexivity|].
  eapply eqv_map; [|apply perm_swap]. repeat constructor.
Defined.

(** What [AssistantFromMessage] returns comes from an accumulator with the
    invariant. *)
Lemma AssistantFromMessage_acc raw c : AssistantFromMessage raw = Ok c →
  ∃ a, acc_ok a ∧ canonical a = Ok c.
Proof.
  unfold AssistantFromMessage. destruct (unmarshal_raw_map raw) as [m|]; [|done].
  set (a0 := match map_get (str "content") m with Some _ => _ | None => _ end).
  assert (acc_ok a0) as Ha0.
  { unfold a0. destruct (map_get (str "content") m); [|apply zero_acc_ok].
    apply mergeDelta_ok; [constructor|apply zero_acc_ok]. }
  clearbody a0. destruct (map_get (str "tool_calls") m) as [tcRaw|]; [|by exists a0].
  destruct (parse tcRaw) as [j|] eqn:Ej; cbn; [|done].
  destruct (dec_slice _ _ j nil_slice) as [arr|] eqn:E; [|done]. intros Hc. eexists. split; [|exact Hc].
  assert (Forall tool_delta_ok (s_elems arr)) as Harr.
  { assert (slice_all tool_delta_ok arr) as H%Forall_app; [|apply H].
    refine (dec_slice_preserves tool_delta_ok dec_toolCallDelta zero_toolCallDelta _ _ j nil_slice arr _ _ E);
      [apply dec_toolCallDelta_preserves|done|by exists tcRaw|constructor]. }
  clear - Ha0 Harr. revert a0 Ha0. generalize O.
  induction Harr as [|tc l (?&?&Hn&Hg) Hl IH]; intros i a Ha; [done|]. cbn [assign_tools].
  enough (acc_ok (update_tool (λ st, assign_tool_state st tc) (Z.of_nat i) a)) as Hu.
  { unfold update_tool in Hu. destruct (tool a (Z.of_nat i)) as [a1 st]. by apply IH. }
  apply update_tool_ok; [|done]. intros st (?&?&?&?). unfold assign_tool_state. split_and!; cbn.
  - by destruct (nonempty (d_ID tc)).
  - by destruct (nonempty (d_Type tc)).
  - by destruct (Function_Name tc).
  - by destruct (Function_Arguments tc).
Qed.

(** Rebuilt messages are canonical texts. *)
Lemma canonical_acc_text a c : acc_ok a → canonical a = Ok c → canonical_text c.
Proof.
  intros Ha. rewrite canonical_spec by done. destruct (complex a); [done|]. destruct (empty a); [done|].
  intros [= <-]. exists (message_value a). split; [by apply message_value_wf|done].
Qed.

Lemma AssistantFromSSE_text payload c d : AssistantFromSSE payload = (Ok c, d) → canonical_text c.
Proof.
  pose proof (Scan_acc_ok payload) as Ha. unfold AssistantFromSSE. destruct (Scan _ _ _) as [a d'].
  intros E%(f_equal fst). by eapply canonical_acc_text.
Qed.

Lemma AssistantFromMessage_text raw c : AssistantFromMessage raw = Ok c → canonical_text c.
Proof. intros (a&Ha&Hc)%AssistantFromMessage_acc. by eapply canonical_acc_text. Qed.

(** [C29] The streaming and the non-streaming path agree: a message rebuilt from
    a stream, or extracted from a complete response, is returned unchanged by
    [AssistantFromMessage]; a client that received it either way sends back the
    same canonical message. *)
Theorem AssistantFromMessage_fixpoint c :
  (∃ payload sawDone, AssistantFromSSE payload = (Ok c, sawDone)) ∨ (∃ raw, AssistantFromMessage raw = Ok c) →
  AssistantFromMessage c = Ok c.
Proof.
  intros [(payload&d&E)|[raw E]].
  - pose proof (Scan_acc_ok payload) as Ha. unfold AssistantFromSSE in E.
    destruct (Scan _ _ _) as [a d']. injection E as E _. by eapply fixpoint_acc.
  - apply AssistantFromMessage_acc in E as (a&Ha&Hc). by eapply fixpoint_acc.
Qed.

Lemma AssistantFromMessage_fixpoint_witness :
  let c := js "{'content':'Hi','role':'assistant','tool_calls':[{'function':{'arguments':'','name':'f'}},{'function':{'arguments':'{}','name':'g'},'id':'b'}]}" in
  AssistantFromMessage c = Ok c.
Proof. apply AssistantFromMessage_fixpoint. left. exists ex_stream, true. vm_compute. reflexivity. Defined.
