(* ===== verification/Metrics.v ===== *)
(** * [internal/metrics]: the counters and histograms of the gateway

    The Prometheus library is outside the sources: a metric is identified by
    its field of [Metrics] (with its label, for the vectors), and what the
    program does to the metrics is the sequence of its [Inc] and [Observe]
    calls.  Components reach the shared [*Metrics] through the class
    [Metered]. *)
From S2P Require Import Prelude GoBytes.

(** ** The metrics *)

Inductive counter : Type :=
| Requests (kind : bytes)
| SessionResolveHit
| SessionResolveMiss
| SessionClientSupplied
| SessionStoreError (op : bytes)
| StreamCompleted
| StreamAborted
| PageFlushSuccess
| PageFlushError
| FinalizeSuccess
| FinalizeError
| SessionMappingCreated
| SessionMappingError.

Inductive histogram : Type :=
| StreamDuration
| ResponseBytes
| PageCount
| RedisLatency (op : bytes)
| FinalizeDuration.

#[global] Instance counter_eq_dec : EqDecision counter.
Proof. solve_decision. Defined.
#[global] Instance histogram_eq_dec : EqDecision histogram.
Proof. solve_decision. Defined.

(** One call on a metric.  The values of the duration histograms are times and
    are not modelled. *)
Inductive metric_event : Type :=
| Inc (c : counter)
| Observe (h : histogram) (v : Z)
| ObserveSeconds (h : histogram).

#[global] Instance metric_event_eq_dec : EqDecision metric_event.
Proof. solve_decision. Defined.

(** How often a counter was incremented. *)
Definition count (c : counter) (l : list metric_event) : nat :=
  length (filter (λ e, e = Inc c) l).

Lemma count_app c l l' : count c (l ++ l') = (count c l + count c l')%nat.
Proof. unfold count. by rewrite filter_app, length_app. Qed.

(** A state that records metric calls. *)
Class Metered (S : Type) : Type := {
  record : metric_event → S → S;
  recorded : S → list metric_event;
  recorded_record e s : recorded (record e s) = recorded s ++ [e];
}.

Definition SessionStoreErrorInc {S} `{Metered S} (op : bytes) (s : S) : S :=
  record (Inc (SessionStoreError op)) s.

(** ** [New]: what is registered *)

(** Name, label names and buckets (in units of 10^-4). *)
Record metric_desc : Type := { m_name : bytes; m_labels : list bytes; m_buckets : list Z }.

Definition CounterDesc (name : bytes) (labels : list bytes) : metric_desc :=
  {| m_name := name; m_labels := labels; m_buckets := [] |}.
Definition HistogramDesc (name : bytes) (labels : list bytes) (buckets : list Z) : metric_desc :=
  {| m_name := name; m_labels := labels; m_buckets := buckets |}.

(** The metrics in registration order. *)
Definition New : list metric_desc := [
  CounterDesc (str "opgate_requests_total") [str "kind"];
  CounterDesc (str "opgate_session_resolve_hit_total") [];
  CounterDesc (str "opgate_session_resolve_miss_total") [];
  CounterDesc (str "opgate_session_client_supplied_total") [];
  CounterDesc (str "opgate_session_store_error_total") [str "op"];
  CounterDesc (str "opgate_stream_completed_total") [];
  CounterDesc (str "opgate_stream_aborted_total") [];
  CounterDesc (str "opgate_page_flush_success_total") [];
  CounterDesc (str "opgate_page_flush_error_total") [];
  CounterDesc (str "opgate_finalize_success_total") [];
  CounterDesc (str "opgate_finalize_error_total") [];
  CounterDesc (str "opgate_session_mapping_created_total") [];
  CounterDesc (str "opgate_session_mapping_error_total") [];
  HistogramDesc (str "opgate_stream_duration_seconds") []
    [1000; 5000; 10000; 20000; 50000; 100000; 300000; 600000; 1200000; 3000000; 6000000; 18000000; 36000000];
  HistogramDesc (str "opgate_response_bytes") []
    (map (Z.mul 10000) [10000; 100000; 1000000; 4000000; 10000000; 50000000; 100000000; 500000000; 1000000000]);
  HistogramDesc (str "opgate_page_count") []
    (map (Z.mul 10000) [1; 2; 4; 8; 16; 32; 64; 128; 256; 512; 1024; 4096]);
  HistogramDesc (str "opgate_redis_latency_seconds") [str "op"]
    [5; 10; 25; 50; 100; 250; 500; 1000; 2500; 5000; 10000; 25000; 50000];
  HistogramDesc (str "opgate_finalize_duration_seconds") []
    [50; 100; 500; 1000; 2500; 5000; 10000; 25000; 50000; 100000; 300000; 600000]
].

(** The characters of a Prometheus metric name. *)
Definition name_char (c : Z) : bool :=
  ((97 <=? c) && (c <=? 122)) || ((48 <=? c) && (c <=? 57)) || (c =? 95).

Fixpoint increasing (l : list Z) : bool :=
  match l with
  | a :: ((b :: _) as l') => (a <? b) && increasing l'
  | _ => true
  end.

(** ** Properties *)

(** The registration of [New] is consistent: all names are distinct, share
    the "opgate_" name space and use only metric-name characters, and the
    buckets of every histogram are strictly increasing. *)
Lemma New_consistent :
  NoDup (m_name <$> New) ∧
  ∀ d, d ∈ New → HasPrefix (m_name d) (str "opgate_") = true ∧ forallb name_char (m_name d) = true ∧
    increasing (m_buckets d) = true.
Proof.
  split; [apply (bool_decide_unpack _); vm_compute; exact I|].
  intros d Hd. assert (Forall (λ d, HasPrefix (m_name d) (str "opgate_") = true ∧
    forallb name_char (m_name d) = true ∧ increasing (m_buckets d) = true) New) as HF.
  { apply (bool_decide_unpack _). vm_compute. exact I. }
  rewrite Forall_forall in HF. by apply HF.
Qed.
