(* ===== verification/Store.v ===== *)
(** * [internal/store]: the storage interfaces and their Redis implementation

    store.go's two interfaces are classes of operations on a state.  What their
    clients rely on are further classes: [StoreSpec], that what is read was
    written for exactly that key, though anything may be missing (expiry, lost
    data, failed operations); [PersistentPages] and [PersistentSessions], that
    what a successful operation stored is there until something removes it.
    redis.go implements them over a Redis client.  The client is outside the
    sources: it is a parameter ([redis]) with the documented behaviour of the
    commands as laws ([redis_laws], [redis_persistent], and for a Redis that
    answers and forgets nothing [redis_reliable], which makes the store a
    [ReliableStore]); [MemRedis] is a concrete instance of all three.  The
    time-out a store keeps only makes operations fail and is not modelled. *)
From S2P Require Import Prelude GoBytes Metrics.

(** ** store.go *)

Inductive store_error : Type := store_failed.

Class SessionStore (S : Type) : Type := {
  GetSession : bytes → bytes → S → S * result store_error (option bytes);
  PutSession : bytes → bytes → bytes → Z → S → S * result store_error unit;
}.

Class TempPageStore (S : Type) : Type := {
  PutPage : bytes → Z → bytes → Z → S → S * result store_error unit;
  GetPages : bytes → S → S * result store_error (gmap Z bytes);
  DeletePages : bytes → S → S * result store_error unit;
}.

(** A hash contains no colon. *)
Definition colon_free (h : bytes) : Prop := 58 ∉ h.
(** Page numbers are positive and fit an int. *)
Definition page_seq (n : Z) : Prop := 0 <= n < 2 ^ 63.

(** The contract of both interfaces over one state, by what can be read later. *)
Class StoreSpec (S : Type) `{SessionStore S, TempPageStore S, Metered S} : Type := {
  session_at : S → bytes → bytes → option bytes;
  (** [page_at s r n d]: page [n] of request [r] may be read as [d]. *)
  page_at : S → bytes → Z → bytes → Prop;

  GetSession_found c h s s' id : GetSession c h s = (s', Ok (Some id)) → session_at s c h = Some id;
  GetSession_keeps c h s c' h' x :
    session_at (GetSession c h s).1 c' h' = Some x → session_at s c' h' = Some x;
  PutSession_keeps c h id ttl s c' h' x : colon_free c → colon_free c' →
    session_at (PutSession c h id ttl s).1 c' h' = Some x →
    (c' = c ∧ h' = h ∧ x = id) ∨ session_at s c' h' = Some x;
  PutSession_ok c h id ttl s s' x : PutSession c h id ttl s = (s', Ok tt) →
    session_at s' c h = Some x → x = id;
  page_ops_sessions r n d ttl s c h x :
    session_at (PutPage r n d ttl s).1 c h = Some x ∨ session_at (GetPages r s).1 c h = Some x ∨
    session_at (DeletePages r s).1 c h = Some x → session_at s c h = Some x;

  GetPages_found r s s' m n d : GetPages r s = (s', Ok m) → m !! n = Some d → page_at s r n d;
  GetPages_keeps r s r' n d : page_at (GetPages r s).1 r' n d → page_at s r' n d;
  PutPage_keeps r n d ttl s r' n' d' : page_seq n → page_at (PutPage r n d ttl s).1 r' n' d' →
    (r' = r ∧ n' = n ∧ d' = d) ∨ page_at s r' n' d';
  DeletePages_keeps r s r' n d : page_at (DeletePages r s).1 r' n d → page_at s r' n d;
  session_ops_pages c h id ttl s r n d :
    page_at (GetSession c h s).1 r n d ∨ page_at (PutSession c h id ttl s).1 r n d → page_at s r n d;

  record_spec e s : session_at (record e s) = session_at s ∧ page_at (record e s) = page_at s;
}.

(** A store from which nothing expires or is evicted while a request runs: a
    page put successfully is found until its entry is deleted. *)
Class PersistentPages (S : Type) `{SessionStore S, TempPageStore S, Metered S} : Type := {
  held : S → bytes → Z → Prop;
  PutPage_held r n d ttl s : page_seq n → 0 < ttl → (PutPage r n d ttl s).2 = Ok tt → held (PutPage r n d ttl s).1 r n;
  PutPage_holds r' n' d ttl s r n : 0 < ttl → held s r n → held (PutPage r' n' d ttl s).1 r n;
  GetPages_holds r' s r n : held s r n → held (GetPages r' s).1 r n;
  DeletePages_holds r' s r n : r ≠ r' → held s r n → held (DeletePages r' s).1 r n;
  session_ops_hold c h id ttl s r n : held s r n →
    held (GetSession c h s).1 r n ∧ held (PutSession c h id ttl s).1 r n;
  record_holds e s r n : held s r n → held (record e s) r n;
  GetPages_held r s m n : page_seq n → (GetPages r s).2 = Ok m → held s r n → is_Some (m !! n);
}.

(** Nor does a session: what was stored successfully is what the next look-up
    that answers returns. *)
Class PersistentSessions (S : Type) `{StoreSpec S} : Prop := {
  PutSession_stored c h id ttl s : 0 < ttl → (PutSession c h id ttl s).2 = Ok tt →
    session_at (PutSession c h id ttl s).1 c h = Some id;
  GetSession_answer c h s r : (GetSession c h s).2 = Ok r → r = session_at s c h;
}.

(** ** Runs of operations *)

Inductive store_op : Type :=
| OpGetSession (c h : bytes)
| OpPutSession (c h id : bytes) (ttl : Z)
| OpPutPage (r : bytes) (n : Z) (d : bytes) (ttl : Z)
| OpGetPages (r : bytes)
| OpDeletePages (r : bytes)
| OpRecord (e : metric_event).

Definition op_ok (o : store_op) : Prop :=
  match o with
  | OpGetSession c _ | OpPutSession c _ _ _ => colon_free c
  | OpPutPage _ n _ _ => page_seq n
  | _ => True
  end.

Section ops.
Context {S : Type} `{SessionStore S, TempPageStore S, Metered S}.

Definition run_op (o : store_op) (s : S) : S :=
  match o with
  | OpGetSession c h => (GetSession c h s).1
  | OpPutSession c h id ttl => (PutSession c h id ttl s).1
  | OpPutPage r n d ttl => (PutPage r n d ttl s).1
  | OpGetPages r => (GetPages r s).1
  | OpDeletePages r => (DeletePages r s).1
  | OpRecord e => record e s
  end.

End ops.

(** A store whose operations succeed and which loses no session. *)
Class ReliableStore (S : Type) `{StoreSpec S} : Type := {
  reliable : S → Prop;
  reliable_op o s : reliable s → reliable (run_op o s);
  reliable_GetSession c h s : reliable s → is_ok (GetSession c h s).2 = true;
  reliable_PutSession c h id ttl s : reliable s → (PutSession c h id ttl s).2 = Ok tt;
  reliable_GetPages r s : reliable s → is_ok (GetPages r s).2 = true;
  reliable_session o s c h : reliable s → is_Some (session_at s c h) → is_Some (session_at (run_op o s) c h);
}.

(** ** redis.go: keys *)

Definition KeyVersion : bytes := str "oc:v1".
Definition SessionKey (clientHash stateHash : bytes) : bytes :=
  KeyVersion ++ str ":session:" ++ clientHash ++ str ":" ++ stateHash.
Definition TempKey (requestID : bytes) : bytes := KeyVersion ++ str ":tmp:" ++ requestID.
Definition PageField (seq : Z) : bytes := Sprintf_06d seq.

(** ** The Redis client *)

Inductive redis_cmd : Type :=
| GET (k : bytes)
| SET (k v : bytes) (ttl : Z)
| HSET (k f v : bytes)
| EXPIRE (k : bytes) (ttl : Z)
| HGETALL (k : bytes)
| DEL (k : bytes)
| PING.

Inductive redis_reply : Type := RStatus | RString (v : bytes) | RHash (m : gmap bytes bytes).

(** [redis.Nil] and every other error (network, time-out, server). *)
Inductive redis_err : Type := Nil | RedisErr.

(** The client sends a command, or a pipeline of commands in one round trip.
    [str_at] and [hash_at] are what the server holds under a key. *)
Class redis (W : Type) : Type := {
  send : list redis_cmd → W → W * result redis_err redis_reply;
  close : W → W * result redis_err unit;
  str_at : W → bytes → option bytes;
  hash_at : W → bytes → gmap bytes bytes;
}.

(** Documented behaviour.  A key may expire at any time; a command that reports
    an error may or may not have been executed. *)
Class redis_laws (W : Type) `{redis W} : Prop := {
  send_str cmds w k x : str_at (send cmds w).1 k = Some x →
    (∃ ttl, SET k x ttl ∈ cmds) ∨ str_at w k = Some x;
  send_hash cmds w k f x : hash_at (send cmds w).1 k !! f = Some x →
    HSET k f x ∈ cmds ∨ hash_at w k !! f = Some x;
  send_GET k w w' v : send [GET k] w = (w', Ok (RString v)) → str_at w k = Some v;
  send_HGETALL k w w' m : send [HGETALL k] w = (w', Ok (RHash m)) → m ⊆ hash_at w k;
  send_SET k v ttl w w' x r : send [SET k v ttl] w = (w', Ok r) → str_at w' k = Some x → x = v;
}.

(** The commands after which a key may be gone: EXPIRE deletes at once when
    its time to live is not positive. *)
Definition removes (k : bytes) (c : redis_cmd) : bool :=
  match c with
  | DEL k' | SET k' _ _ => bool_decide (k' = k)
  | EXPIRE k' ttl => bool_decide (k' = k) && (ttl <=? 0)
  | _ => false
  end.

(** Without expiry a field stays until its key is deleted or overwritten. *)
Class redis_persistent (W : Type) `{redis W} : Prop := {
  send_HSET_held k f v ttl w w' r : 0 < ttl → send [HSET k f v; EXPIRE k ttl] w = (w', Ok r) →
    is_Some (hash_at w' k !! f);
  send_holds cmds w k f : is_Some (hash_at w k !! f) → (∀ c, c ∈ cmds → removes k c = false) →
    is_Some (hash_at (send cmds w).1 k !! f);
  send_HGETALL_held k w w' r : send [HGETALL k] w = (w', Ok r) → r = RHash (hash_at w k);
  send_SET_stored k v ttl w w' r : 0 < ttl → send [SET k v ttl] w = (w', Ok r) → str_at w' k = Some v;
  send_GET_missing k w w' : send [GET k] w = (w', Err Nil) → str_at w k = None;
}.

(** A Redis that can be reached, answers, and lets nothing expire, as long as the
    run lasts. *)
Definition deletes (k : bytes) (c : redis_cmd) : bool :=
  match c with
  | DEL k' => bool_decide (k' = k)
  | EXPIRE k' ttl => bool_decide (k' = k) && (ttl <=? 0)
  | _ => false
  end.
Class redis_reliable (W : Type) `{redis W} : Type := {
  healthy : W → Prop;
  healthy_send cmds w : healthy w → healthy (send cmds w).1;
  healthy_GET k w : healthy w →
    (send [GET k] w).2 = match str_at w k with Some v => Ok (RString v) | None => Err Nil end;
  healthy_SET k v ttl w : healthy w → is_ok (send [SET k v ttl] w).2 = true;
  healthy_HGETALL k w : healthy w → (send [HGETALL k] w).2 = Ok (RHash (hash_at w k));
  healthy_keeps cmds w k : healthy w → is_Some (str_at w k) → (∀ c, c ∈ cmds → deletes k c = false) →
    is_Some (str_at (send cmds w).1 k);
}.

(** ** redis.go: the store *)

(** [m] is the shared [*Metrics]. *)
Record RedisStore (W : Type) : Type := { rdb : W; m : list metric_event }.
Arguments rdb {W}.
Arguments m {W}.

#[export] Instance RedisStore_metered W : Metered (RedisStore W) := {
  record e s := {| rdb := rdb s; m := m s ++ [e] |};
  recorded s := m s;
  recorded_record e s := eq_refl;
}.

(** The client's options that [NewRedisStore] sets; [NewClient] is the library's
    constructor, which connects when the first command is sent. *)
Record Options : Type := { Addr : bytes; DB : Z; DialTimeout : Z; ReadTimeout : Z; WriteTimeout : Z }.
Definition NewRedisStore {W} (NewClient : Options → W) (addr : bytes) (db timeout : Z) (m : list metric_event) : RedisStore W := {|
  rdb := NewClient {| Addr := addr; DB := db; DialTimeout := timeout; ReadTimeout := timeout; WriteTimeout := timeout |};
  m := m |}.

Section RedisStore.
Context {W : Type} `{redis W}.
Implicit Types (s : RedisStore W).

(** [s.observe(op, start, err)] *)
Definition observe (op : bytes) (err : option redis_err) s : RedisStore W :=
  let s := record (ObserveSeconds (RedisLatency op)) s in
  match err with
  | Some RedisErr => SessionStoreErrorInc op s
  | Some Nil => s
  | None => s
  end.

Definition error_of {A} (r : result redis_err A) : option redis_err :=
  match r with Ok _ => None | Err e => Some e end.

(** One round trip, observed under a label. *)
Definition round_trip (op : bytes) (cmds : list redis_cmd) s : RedisStore W * result redis_err redis_reply :=
  let '(w, r) := send cmds (rdb s) in
  (observe op (error_of r) {| rdb := w; m := m s |}, r).

Definition redis_GetSession (clientHash stateHash : bytes) s : RedisStore W * result store_error (option bytes) :=
  let '(s, r) := round_trip (str "session_get") [GET (SessionKey clientHash stateHash)] s in
  (s, match r with
      | Err Nil => Ok None
      | Err RedisErr => Err store_failed
      | Ok (RString v) => Ok (Some v)
      | Ok _ => Err store_failed
      end).

Definition unit_result {A} (r : result redis_err A) : result store_error unit :=
  match r with Ok _ => Ok tt | Err _ => Err store_failed end.

Definition redis_PutSession (clientHash stateHash sessionID : bytes) (ttl : Z) s : RedisStore W * result store_error unit :=
  let '(s, r) := round_trip (str "session_put") [SET (SessionKey clientHash stateHash) sessionID ttl] s in
  (s, unit_result r).

(** HSET and EXPIRE in one pipeline. *)
Definition redis_PutPage (requestID : bytes) (seq : Z) (data : bytes) (ttl : Z) s : RedisStore W * result store_error unit :=
  let key := TempKey requestID in
  let '(s, r) := round_trip (str "page_put") [HSET key (PageField seq) data; EXPIRE key ttl] s in
  (s, unit_result r).

(** The loop over the fields; one that is no number is ignored. *)
Definition page_of (f v : bytes) (out : gmap Z bytes) : gmap Z bytes :=
  match ParseInt f with
  | None => out
  | Some seq => <[seq := v]> out
  end.

Definition redis_GetPages (requestID : bytes) s : RedisStore W * result store_error (gmap Z bytes) :=
  let '(s, r) := round_trip (str "page_get") [HGETALL (TempKey requestID)] s in
  (s, match r with
      | Err _ => Err store_failed
      | Ok (RHash vals) => Ok (map_fold page_of ∅ vals)
      | Ok _ => Err store_failed
      end).

Definition redis_DeletePages (requestID : bytes) s : RedisStore W * result store_error unit :=
  let '(s, r) := round_trip (str "page_del") [DEL (TempKey requestID)] s in
  (s, unit_result r).

(** [Ping] is not observed. *)
Definition redis_Ping s : RedisStore W * result redis_err unit :=
  let '(w, r) := send [PING] (rdb s) in
  ({| rdb := w; m := m s |}, match r with Ok _ => Ok tt | Err e => Err e end).

Definition redis_Close s : RedisStore W * result redis_err unit :=
  let '(w, r) := close (rdb s) in ({| rdb := w; m := m s |}, r).

(** What the store holds, through its keys. *)
Definition redis_session_at s (c h : bytes) : option bytes := str_at (rdb s) (SessionKey c h).
Definition redis_page_at s (r : bytes) (n : Z) (d : bytes) : Prop :=
  ∃ f, ParseInt f = Some n ∧ hash_at (rdb s) (TempKey r) !! f = Some d.

#[export] Instance RedisStore_sessions : SessionStore (RedisStore W) :=
  {| GetSession := redis_GetSession; PutSession := redis_PutSession |}.
#[export] Instance RedisStore_pages : TempPageStore (RedisStore W) :=
  {| PutPage := redis_PutPage; GetPages := redis_GetPages; DeletePages := redis_DeletePages |}.

(** ** Keys *)

Lemma app_sep_inj (c c' h h' : bytes) : colon_free c → colon_free c' →
  c ++ 58 :: h = c' ++ 58 :: h' → c = c' ∧ h = h'.
Proof.
  intros Hc Hc' E. pose proof (IndexByte_app c 58 h Hc) as Hi. rewrite E, IndexByte_app in Hi by done.
  injection Hi as Hl. apply app_inj_1 in E as [-> [=]]; done.
Qed.

Lemma key_inj c c' h h' : colon_free c → colon_free c' →
  SessionKey c h = SessionKey c' h' → c = c' ∧ h = h'.
Proof.
  intros Hc Hc' E. unfold SessionKey in E. apply app_inv_head, app_inv_head in E.
  by apply (app_sep_inj c c' h h').
Qed.

Lemma TempKey_inj r r' : TempKey r = TempKey r' → r = r'.
Proof. intros E. by apply app_inv_head, app_inv_head in E. Qed.

(** ** The contract holds *)

Context `{!redis_laws W}.

Lemma observe_rdb op err s : rdb (observe op err s) = rdb s.
Proof. by destruct err as [[]|]. Qed.

Lemma round_trip_rdb op cmds s : rdb (round_trip op cmds s).1 = (send cmds (rdb s)).1 ∧
  (round_trip op cmds s).2 = (send cmds (rdb s)).2.
Proof. unfold round_trip. destruct (send cmds (rdb s)) as [w r]. cbn. by rewrite observe_rdb. Qed.

(** Sending reads only, or only touches hashes, or only strings. *)
Lemma round_trip_sessions op cmds s c h x :
  redis_session_at (round_trip op cmds s).1 c h = Some x →
  (∃ ttl, SET (SessionKey c h) x ttl ∈ cmds) ∨ redis_session_at s c h = Some x.
Proof. unfold redis_session_at. destruct (round_trip_rdb op cmds s) as [-> _]. apply send_str. Qed.

Lemma round_trip_pages op cmds s r n d :
  redis_page_at (round_trip op cmds s).1 r n d →
  (∃ f, ParseInt f = Some n ∧ HSET (TempKey r) f d ∈ cmds) ∨ redis_page_at s r n d.
Proof.
  unfold redis_page_at. destruct (round_trip_rdb op cmds s) as [-> _].
  intros (f&Hf&[?|?]%send_hash); [left|right]; by exists f.
Qed.

Lemma fold_pages vals n d : map_fold page_of ∅ vals !! n = Some d →
  ∃ f, ParseInt f = Some n ∧ vals !! f = Some d.
Proof.
  revert n d. apply (map_fold_weak_ind (λ out vals, ∀ n d, out !! n = Some d → ∃ f, ParseInt f = Some n ∧ vals !! f = Some d)).
  - intros n d. by rewrite lookup_empty.
  - intros f v vals' out Hf IH n d. unfold page_of. destruct (ParseInt f) as [seq|] eqn:E.
    + destruct (decide (n = seq)) as [->|Hne].
      * rewrite lookup_insert_eq. intros [= ->]. exists f. by rewrite lookup_insert_eq.
      * rewrite lookup_insert_ne by done. intros (f'&Hp&Hv)%IH. exists f'. split; [done|].
        rewrite lookup_insert_ne; [done|]. intros ->. congruence.
    + intros (f'&Hp&Hv)%IH. exists f'. split; [done|]. rewrite lookup_insert_ne; [done|]. intros ->. congruence.
Qed.

Lemma op_fst op cmds s {A} (f : result redis_err redis_reply → A) :
  (let '(s', r) := round_trip op cmds s in (s', f r)) = ((round_trip op cmds s).1, f (round_trip op cmds s).2).
Proof. by destruct (round_trip op cmds s). Qed.

(** A command list without writes of a kind keeps what is read of that kind. *)
Ltac no_write H :=
  destruct H as [(?&H)|H]; [|exact H]; exfalso;
  repeat (apply elem_of_cons in H as [H|H]; [done|]); by apply elem_of_nil in H.
Ltac no_page_write H :=
  destruct H as [(?&?&H)|H]; [|exact H]; exfalso;
  repeat (apply elem_of_cons in H as [H|H]; [done|]); by apply elem_of_nil in H.

#[export] Instance RedisStore_spec : StoreSpec (RedisStore W).
Proof.
  refine {| session_at := redis_session_at; page_at := redis_page_at |};
    cbn [GetSession PutSession PutPage GetPages DeletePages RedisStore_sessions RedisStore_pages];
    unfold redis_GetSession, redis_PutSession, redis_PutPage, redis_GetPages, redis_DeletePages.
  - intros c h s s' id. rewrite op_fst. intros E%(f_equal snd). cbn [snd] in E.
    destruct (round_trip_rdb (str "session_get") [GET (SessionKey c h)] s) as [_ E2].
    rewrite E2 in E. destruct (send _ (rdb s)) as [w [[]|[]]] eqn:Es; cbn in E; try done.
    injection E as ->. by apply send_GET in Es.
  - intros c h s c' h' x. rewrite op_fst. cbn [fst]. intros H1%round_trip_sessions. no_write H1.
  - intros c h id ttl s c' h' x Hc Hc'. rewrite op_fst. cbn [fst].
    intros [[ttl' [= Hk -> _]%list_elem_of_singleton]|H1]%round_trip_sessions; [left|by right].
    by apply app_sep_inj in Hk as [-> ->].
  - intros c h id ttl s s' x. rewrite op_fst. intros E. pose proof (f_equal fst E) as Es'. apply (f_equal snd) in E.
    cbn [fst snd] in *. unfold redis_session_at. rewrite <-Es'.
    destruct (round_trip_rdb (str "session_put") [SET (SessionKey c h) id ttl] s) as [-> E2].
    rewrite E2 in E. destruct (send _ (rdb s)) as [w [r|e]] eqn:Es; [|done]. cbn. by apply (send_SET _ _ _ _ _ _ _ Es).
  - intros r n d ttl s c h x. rewrite !op_fst. cbn [fst].
    intros [H1%round_trip_sessions|[H1%round_trip_sessions|H1%round_trip_sessions]]; no_write H1.
  - intros r s s' m n d. rewrite op_fst. intros E%(f_equal snd) Hm. cbn [snd] in E.
    destruct (round_trip_rdb (str "page_get") [HGETALL (TempKey r)] s) as [_ E2].
    rewrite E2 in E. destruct (send _ (rdb s)) as [w [[| |vals]|]] eqn:Es; cbn in E; try done.
    injection E as <-. apply fold_pages in Hm as (f&Hp&Hv). exists f. split; [done|].
    apply send_HGETALL in Es. by eapply lookup_weaken.
  - intros r s r' n d. rewrite op_fst. cbn [fst]. intros H1%round_trip_pages. no_page_write H1.
  - intros r n d ttl s r' n' d' Hn. rewrite op_fst. cbn [fst].
    intros [(f&Hp&Hin)|H1]%round_trip_pages; [left|by right].
    apply elem_of_cons in Hin as [Hin|[=]%list_elem_of_singleton].
    assert (TempKey r' = TempKey r ∧ f = PageField n ∧ d' = d) as (Hk&->&->) by (split_and!; congruence).
    unfold PageField in Hp. rewrite ParseInt_Sprintf in Hp by done. injection Hp as ->.
    by apply TempKey_inj in Hk.
  - intros r s r' n d. rewrite op_fst. cbn [fst]. intros H1%round_trip_pages. no_page_write H1.
  - intros c h id ttl s r n d. rewrite !op_fst. cbn [fst].
    intros [H1%round_trip_pages|H1%round_trip_pages]; no_page_write H1.
  - done.
Defined.

(** ** Without expiry *)

Context `{!redis_persistent W}.

Definition redis_held s (r : bytes) (n : Z) : Prop :=
  is_Some (hash_at (rdb s) (TempKey r) !! PageField n).

Lemma round_trip_holds op cmds s r n : Forall (λ c, removes (TempKey r) c = false) cmds →
  redis_held s r n → redis_held (round_trip op cmds s).1 r n.
Proof.
  unfold redis_held. destruct (round_trip_rdb op cmds s) as [-> _]. rewrite Forall_forall. intros Hd Hh. by apply send_holds.
Qed.

(** Every field that reads as a number yields a page of that number. *)
Lemma fold_pages_some vals f n : ParseInt f = Some n → is_Some (vals !! f) →
  is_Some (map_fold page_of ∅ vals !! n).
Proof.
  intros Hp. apply (map_fold_weak_ind (λ out vals, is_Some (vals !! f) → is_Some (out !! n))).
  - rewrite lookup_empty. by intros [].
  - intros f' v vals' out Hf IH. unfold page_of. destruct (decide (f' = f)) as [->|Hne].
    + rewrite Hp. intros _. rewrite lookup_insert_eq. eauto.
    + rewrite lookup_insert_ne by done. intros Hs%IH. destruct (ParseInt f') as [k|]; [|done].
      destruct (decide (k = n)) as [->|]; [rewrite lookup_insert_eq; eauto|by rewrite lookup_insert_ne].
Qed.

#[export] Instance RedisStore_persistent : PersistentPages (RedisStore W).
Proof.
  refine {| held := redis_held |};
    cbn [GetSession PutSession PutPage GetPages DeletePages RedisStore_sessions RedisStore_pages];
    unfold redis_GetSession, redis_PutSession, redis_PutPage, redis_GetPages, redis_DeletePages.
  - intros r n d ttl s Hn Ht. rewrite op_fst. cbn [fst snd]. unfold redis_held.
    destruct (round_trip_rdb (str "page_put") [HSET (TempKey r) (PageField n) d; EXPIRE (TempKey r) ttl] s) as [-> ->].
    destruct (send _ (rdb s)) as [w [rep|e]] eqn:E; [|done]. intros _. by eapply send_HSET_held.
  - intros r' n' d ttl s r n Ht Hh. rewrite op_fst. apply round_trip_holds; [|done].
    constructor; [done|]. constructor; [|constructor]. cbn. bfalse (ttl <=? 0). apply andb_false_r.
  - intros r' s r n Hh. rewrite op_fst. apply round_trip_holds; [by repeat constructor|done].
  - intros r' s r n Hne Hh. rewrite op_fst. apply round_trip_holds; [|done]. constructor; [|constructor].
    apply bool_decide_eq_false. intros E%TempKey_inj. congruence.
  - intros c h id ttl s r n Hh. rewrite !op_fst. split; apply round_trip_holds; try done; constructor; try done; constructor.
  - done.
  - intros r s m n Hn. rewrite op_fst. cbn [snd]. unfold redis_held.
    destruct (round_trip_rdb (str "page_get") [HGETALL (TempKey r)] s) as [_ ->].
    destruct (send _ (rdb s)) as [w [rep|e]] eqn:E; [|by destruct e]. cbn.
    pose proof (send_HGETALL_held _ _ _ _ E) as ->. intros [= <-] Hh.
    eapply fold_pages_some; [|exact Hh]. unfold PageField. by apply ParseInt_Sprintf.
Qed.

#[export] Instance RedisStore_persistent_sessions : PersistentSessions (RedisStore W).
Proof.
  split; cbn [GetSession PutSession RedisStore_sessions session_at RedisStore_spec];
    unfold redis_GetSession, redis_PutSession, redis_session_at.
  - intros c h id ttl s Ht. rewrite op_fst. cbn [fst snd].
    destruct (round_trip_rdb (str "session_put") [SET (SessionKey c h) id ttl] s) as [-> ->].
    destruct (send _ (rdb s)) as [w [r|e]] eqn:E; [|done]. intros _. by eapply send_SET_stored.
  - intros c h s r. rewrite op_fst. cbn [snd].
    destruct (round_trip_rdb (str "session_get") [GET (SessionKey c h)] s) as [_ ->].
    destruct (send _ (rdb s)) as [w [[|v|mp]|[]]] eqn:E; cbn; try done; intros [= <-]; symmetry.
    + by eapply send_GET.
    + by eapply send_GET_missing.
Qed.

(** ** A store that can be relied on *)

Context `{!redis_reliable W}.

Lemma session_not_temp c h r : SessionKey c h ≠ TempKey r.
Proof. by intros E%app_inv_head. Qed.

Lemma round_trip_healthy op cmds s : healthy (rdb s) → healthy (rdb (round_trip op cmds s).1).
Proof. destruct (round_trip_rdb op cmds s) as [-> _]. apply healthy_send. Qed.

Lemma round_trip_session op cmds s c h : healthy (rdb s) → Forall (λ cmd, deletes (SessionKey c h) cmd = false) cmds →
  is_Some (redis_session_at s c h) → is_Some (redis_session_at (round_trip op cmds s).1 c h).
Proof.
  unfold redis_session_at. destruct (round_trip_rdb op cmds s) as [-> _]. rewrite Forall_forall. intros Hh Hd Hs. by apply healthy_keeps.
Qed.

#[export] Instance RedisStore_reliable : ReliableStore (RedisStore W).
Proof.
  refine {| reliable := λ s, healthy (rdb s) |};
    cbn [GetSession PutSession PutPage GetPages DeletePages RedisStore_sessions RedisStore_pages session_at RedisStore_spec];
    unfold redis_GetSession, redis_PutSession, redis_PutPage, redis_GetPages, redis_DeletePages.
  - intros o s Hs. destruct o as [c h|c h id ttl|r n d ttl|r|r|e]; cbn -[round_trip]; [..|done];
      unfold redis_GetSession, redis_PutSession, redis_PutPage, redis_GetPages, redis_DeletePages; rewrite op_fst; by apply round_trip_healthy.
  - intros c h s Hs. rewrite op_fst. cbn [snd]. destruct (round_trip_rdb (str "session_get") [GET (SessionKey c h)] s) as [_ ->].
    rewrite healthy_GET by done. by destruct (str_at _ _).
  - intros c h id ttl s Hs. rewrite op_fst. cbn [snd]. destruct (round_trip_rdb (str "session_put") [SET (SessionKey c h) id ttl] s) as [_ ->].
    pose proof (healthy_SET (SessionKey c h) id ttl _ Hs) as Hok. by destruct (send _ _).2.
  - intros r s Hs. rewrite op_fst. cbn [snd]. destruct (round_trip_rdb (str "page_get") [HGETALL (TempKey r)] s) as [_ ->].
    by rewrite healthy_HGETALL.
  - assert (∀ c h r, bool_decide (TempKey r = SessionKey c h) = false) as Hk.
    { intros c h r. apply bool_decide_eq_false. intros E. by apply (session_not_temp c h r). }
    intros o s c h Hs Hat. destruct o as [c' h'|c' h' id ttl|r n d ttl|r|r|e]; cbn -[round_trip]; [..|done];
      unfold redis_GetSession, redis_PutSession, redis_PutPage, redis_GetPages, redis_DeletePages; rewrite op_fst; apply round_trip_session;
      try done; repeat constructor; cbn [deletes]; by rewrite Hk.
Defined.
End RedisStore.

Lemma surjective_pairing_2 {A B} (p : A * B) b : p.2 = b → p = (p.1, b).
Proof. intros <-. apply surjective_pairing. Qed.

(** ** Histories of a store *)

Section history.
Context {S : Type} `{StoreSpec S}.

Definition run (ops : list store_op) (s : S) : S := foldl (λ s o, run_op o s) s ops.

(** One operation makes a session readable only by storing it. *)
Lemma run_op_session o s c h x : op_ok o → colon_free c →
  session_at (run_op o s) c h = Some x →
  (∃ ttl, o = OpPutSession c h x ttl) ∨ session_at s c h = Some x.
Proof.
  intros Ho Hc. destruct o as [c' h'|c' h' id ttl|r n d ttl|r|r|e]; cbn [run_op op_ok] in *.
  - intros Hx. right. by eapply GetSession_keeps.
  - intros [(->&->&->)|Hx]%PutSession_keeps; [left; by eexists|by right|done|done].
  - intros Hx. right. apply (page_ops_sessions r n d ttl s). by left.
  - intros Hx. right. apply (page_ops_sessions r 0 [] 0 s). by (right; left).
  - intros Hx. right. apply (page_ops_sessions r 0 [] 0 s). by right; right.
  - destruct (record_spec e s) as [-> _]. by right.
Qed.

Lemma run_op_page o s r n d : op_ok o → page_at (run_op o s) r n d →
  (∃ ttl, o = OpPutPage r n d ttl) ∨ page_at s r n d.
Proof.
  intros Ho. destruct o as [c' h'|c' h' id ttl|r' n' d' ttl|r'|r'|e]; cbn [run_op op_ok] in *.
  - intros Hx. right. apply (session_ops_pages c' h' [] 0 s). by left.
  - intros Hx. right. apply (session_ops_pages c' h' id ttl s). by right.
  - intros [(->&->&->)|Hx]%PutPage_keeps; [left; by eexists|by right|done].
  - intros Hx. right. by eapply GetPages_keeps.
  - intros Hx. right. by eapply DeletePages_keeps.
  - destruct (record_spec e s) as [_ ->]. by right.
Qed.

(** [id] was stored for [c] and [h], and no later store on them succeeded. *)
Definition last_put (ops : list store_op) (s0 : S) (c h id : bytes) : Prop :=
  ∃ before after ttl, ops = before ++ OpPutSession c h id ttl :: after ∧
    ∀ mid id' ttl' rest, after = mid ++ OpPutSession c h id' ttl' :: rest →
      (PutSession c h id' ttl' (run (before ++ OpPutSession c h id ttl :: mid) s0)).2 = Ok tt → id' = id.

Lemma session_history ops s0 c h id : Forall op_ok ops → colon_free c →
  (∀ c h, session_at s0 c h = None) → session_at (run ops s0) c h = Some id →
  last_put ops s0 c h id.
Proof.
  intros Hops Hc Hs0. induction ops as [|o ops IH] using rev_ind; intros Hid.
  { cbn in Hid. by rewrite Hs0 in Hid. }
  apply Forall_app in Hops as [Hops Ho%Forall_inv]. unfold run in Hid. rewrite foldl_app in Hid. cbn [foldl] in Hid.
  fold (run ops s0) in Hid. destruct (run_op_session _ _ _ _ _ Ho Hc Hid) as [[ttl ->]|Hold].
  - exists ops, [], ttl. split; [done|]. intros mid id' ttl' rest E. by destruct mid.
  - destruct (IH Hops Hold) as (before&after&ttl&->&Hlast).
    exists before, (after ++ [o]), ttl. split; [by norm_app|]. intros mid id' ttl' rest E Hok.
    destruct rest as [|o' rest _] using rev_ind.
    + apply app_inj_tail in E as [-> ->]. cbn [run_op] in Hid.
      destruct (PutSession c h id' ttl' _) as [s' r] eqn:Ep. cbn in Hok, Hid. subst r.
      symmetry. by eapply PutSession_ok.
    + rewrite app_comm_cons, app_assoc in E. apply app_inj_tail in E as [-> ->]. by eapply Hlast.
Qed.

Lemma page_history ops s0 r n d : Forall op_ok ops → (∀ r n d, ¬ page_at s0 r n d) →
  page_at (run ops s0) r n d → ∃ ttl, OpPutPage r n d ttl ∈ ops.
Proof.
  intros Hops Hs0. induction ops as [|o ops IH] using rev_ind; intros Hp.
  { by destruct (Hs0 r n d). }
  apply Forall_app in Hops as [Hops Ho%Forall_inv]. unfold run in Hp. rewrite foldl_app in Hp. cbn [foldl] in Hp.
  fold (run ops s0) in Hp. destruct (run_op_page _ _ _ _ _ Ho Hp) as [[ttl ->]|Hold].
  - exists ttl. set_solver.
  - destruct (IH Hops Hold) as [ttl ?]. exists ttl. set_solver.
Qed.
End history.

(** ** A concrete Redis *)

(** Every round trip takes the next entry of [plan]: false makes it fail without
    effect; an exhausted plan never fails.  Nothing expires. *)
Record MemRedis : Type := { strs : gmap bytes bytes; hashes : gmap bytes (gmap bytes bytes); plan : list bool }.
Definition mem_empty (plan : list bool) : MemRedis := {| strs := ∅; hashes := ∅; plan := plan |}.

Definition mem_hash (w : MemRedis) (k : bytes) : gmap bytes bytes := default ∅ (hashes w !! k).

Definition mem_exec (w : MemRedis) (c : redis_cmd) : MemRedis :=
  match c with
  | SET k v _ => {| strs := <[k := v]> (strs w); hashes := delete k (hashes w); plan := plan w |}
  | HSET k f v => {| strs := strs w; hashes := <[k := <[f := v]> (mem_hash w k)]> (hashes w); plan := plan w |}
  | DEL k => {| strs := delete k (strs w); hashes := delete k (hashes w); plan := plan w |}
  | EXPIRE k ttl =>
    if ttl <=? 0 then {| strs := delete k (strs w); hashes := delete k (hashes w); plan := plan w |} else w
  | GET _ | HGETALL _ | PING => w
  end.

Definition mem_reply (w : MemRedis) (c : redis_cmd) : result redis_err redis_reply :=
  match c with
  | GET k => match strs w !! k with Some v => Ok (RString v) | None => Err Nil end
  | HGETALL k => Ok (RHash (mem_hash w k))
  | _ => Ok RStatus
  end.

#[export] Instance mem_redis : redis MemRedis := {|
  send cmds w :=
    let w' := {| strs := strs w; hashes := hashes w; plan := tail (plan w) |} in
    match plan w with
    | false :: _ => (w', Err RedisErr)
    | _ => (foldl mem_exec w' cmds, match last cmds with Some c => mem_reply w c | None => Err RedisErr end)
    end;
  close w := (w, Ok tt);
  str_at w k := strs w !! k;
  hash_at := mem_hash;
|}.

Lemma mem_exec_str w c k x : strs (mem_exec w c) !! k = Some x →
  (∃ ttl, c = SET k x ttl) ∨ strs w !! k = Some x.
Proof.
  destruct c as [|k' v ttl| |k' ttl| |k'|]; cbn; try by right.
  - rewrite lookup_insert_Some. intros [[-> ->]|[_ ?]]; [left; by eexists|by right].
  - destruct (ttl <=? 0); [|by right]. cbn. rewrite lookup_delete_Some. intros [_ ?]. by right.
  - rewrite lookup_delete_Some. intros [_ ?]. by right.
Qed.

Lemma mem_hash_delete w (k k' f x : bytes) :
  default ∅ (delete k' (hashes w) !! k) !! f = Some x → mem_hash w k !! f = Some x.
Proof.
  unfold mem_hash. destruct (decide (k = k')) as [->|]; [|by rewrite lookup_delete_ne].
  rewrite lookup_delete_eq. cbn. by rewrite lookup_empty.
Qed.

Lemma mem_exec_hash w c k f x : mem_hash (mem_exec w c) k !! f = Some x →
  c = HSET k f x ∨ mem_hash w k !! f = Some x.
Proof.
  destruct c as [|k' v ttl|k' f' v|k' ttl| |k'|]; cbn; try by right.
  - intros Hx. right. by eapply mem_hash_delete.
  - unfold mem_hash. cbn. destruct (decide (k = k')) as [->|]; [|rewrite lookup_insert_ne by done; by right].
    rewrite lookup_insert_eq. cbn. rewrite lookup_insert_Some. intros [[-> ->]|[_ ?]]; [by left|by right].
  - destruct (ttl <=? 0); [|by right]. intros Hx. right. by eapply mem_hash_delete.
  - intros Hx. right. by eapply mem_hash_delete.
Qed.

Lemma mem_send_str cmds w k x : strs (foldl mem_exec w cmds) !! k = Some x →
  (∃ ttl, SET k x ttl ∈ cmds) ∨ strs w !! k = Some x.
Proof.
  revert w. induction cmds as [|c cmds IH]; intros w; cbn; [by right|].
  intros [[ttl ?]|[[ttl ->]|?]%mem_exec_str]%IH; [left; exists ttl; set_solver|left; exists ttl; set_solver|by right].
Qed.

Lemma mem_send_hash cmds w k f x : mem_hash (foldl mem_exec w cmds) k !! f = Some x →
  HSET k f x ∈ cmds ∨ mem_hash w k !! f = Some x.
Proof.
  revert w. induction cmds as [|c cmds IH]; intros w; cbn; [by right|].
  intros [?|[->|?]%mem_exec_hash]%IH; [left; set_solver|left; set_solver|by right].
Qed.

#[export] Instance mem_redis_laws : redis_laws MemRedis.
Proof.
  split; cbn.
  - intros cmds w k x. destruct (plan w) as [|[] l]; cbn; (by right) || (intros Hx%mem_send_str; exact Hx).
  - intros cmds w k f x. destruct (plan w) as [|[] l]; cbn; (by right) || (intros Hx%mem_send_hash; exact Hx).
  - intros k w w' v. destruct (plan w) as [|[] l]; cbn; try done; destruct (strs w !! k); try done; by intros [= _ ->].
  - intros k w w' m'. destruct (plan w) as [|[] l]; cbn; try done; by intros [= _ ->].
  - intros k v ttl w w' x r. destruct (plan w) as [|[] l]; cbn; try done; intros [= <- _]; cbn;
      rewrite lookup_insert_eq; by intros [= ->].
Qed.

Lemma mem_exec_holds w c k f : is_Some (mem_hash w k !! f) → removes k c = false →
  is_Some (mem_hash (mem_exec w c) k !! f).
Proof.
  unfold mem_hash. destruct c as [|k' v ttl|k' f' v|k' ttl| |k'|]; cbn; try done.
  - intros Hh Hk%bool_decide_eq_false. by rewrite lookup_delete_ne.
  - intros Hh _. destruct (decide (k' = k)) as [->|]; [|by rewrite lookup_insert_ne].
    rewrite lookup_insert_eq. cbn. destruct (decide (f' = f)) as [->|]; [rewrite lookup_insert_eq; eauto|].
    by rewrite lookup_insert_ne.
  - intros Hh Hk. destruct (ttl <=? 0); [|done]. rewrite andb_true_r in Hk. apply bool_decide_eq_false in Hk.
    cbn. by rewrite lookup_delete_ne.
  - intros Hh Hk%bool_decide_eq_false. by rewrite lookup_delete_ne.
Qed.

#[export] Instance mem_redis_persistent : redis_persistent MemRedis.
Proof.
  split; cbn [send mem_redis hash_at].
  - intros k f v ttl w w' r Ht. destruct (plan w) as [|[] l]; try done; cbn; intros [= <- _];
      destruct (Z.leb_spec ttl 0); try lia; unfold mem_hash; cbn; rewrite lookup_insert_eq; cbn;
      rewrite lookup_insert_eq; eauto.
  - intros cmds w k f Hh Hc. set (w' := {| strs := _ |}). assert (is_Some (mem_hash w' k !! f)) as Hh' by exact Hh.
    clearbody w'. assert (is_Some (mem_hash (foldl mem_exec w' cmds) k !! f)) as Hf.
    { clear Hh. revert w' Hh'. induction cmds as [|c cmds IH]; intros w' Hh'; [done|]. cbn.
      apply IH; [intros c' Hc'; apply Hc; by right|]. apply mem_exec_holds; [done|]. apply Hc. by left. }
    by destruct (plan w) as [|[] l].
  - intros k w w' r. destruct (plan w) as [|[] l]; try done; cbn; by intros [= _ <-].
  - intros k v ttl w w' r _. destruct (plan w) as [|[] l]; try done; cbn; intros [= <- _]; cbn; by rewrite lookup_insert_eq.
  - intros k w w'. destruct (plan w) as [|[] l]; cbn; try done; by destruct (strs w !! k).
Qed.

(** Without failures planned it can be relied on. *)
#[export] Instance mem_redis_reliable : redis_reliable MemRedis.
Proof.
  refine {| healthy := λ w, plan w = [] |}; cbn [send mem_redis str_at hash_at].
  - intros cmds w Hw. rewrite Hw. cbn [fst]. set (w' := {| strs := _ |}). assert (plan w' = []) as Hp by (cbn; by rewrite ?Hw).
    clearbody w'. revert w' Hp. induction cmds as [|c cmds IH]; intros w' Hp; [done|]. cbn. apply IH.
    destruct c as [|k v ttl| |k ttl| |k|]; try done. cbn. by destruct (ttl <=? 0).
  - intros k w Hw. by rewrite Hw.
  - intros k v ttl w Hw. by rewrite Hw.
  - intros k w Hw. by rewrite Hw.
  - intros cmds w k Hw H0 H1. rewrite Hw. cbn [fst]. set (w' := {| strs := _ |}). assert (is_Some (strs w' !! k)) as Hs by exact H0.
    clearbody w'. revert w' Hs. induction cmds as [|c cmds IH]; intros w' Hs; [done|]. cbn. apply IH; [intros c' Hc'; apply H1; by right|].
    pose proof (H1 c ltac:(left)) as Hd. destruct c as [|k' v ttl| |k' ttl| |k'|]; cbn in *; try done.
    + destruct (decide (k' = k)) as [->|]; [rewrite lookup_insert_eq; eauto|by rewrite lookup_insert_ne].
    + destruct (ttl <=? 0); [|done]. rewrite andb_true_r in Hd. apply bool_decide_eq_false in Hd. cbn. by rewrite lookup_delete_ne.
    + apply bool_decide_eq_false in Hd. by rewrite lookup_delete_ne.
Defined.

Definition mem_store_with (plan : list bool) : RedisStore MemRedis := {| rdb := mem_empty plan; m := [] |}.
Definition mem_store : RedisStore MemRedis := mem_store_with [].

(** ** Properties *)

(** [C22] A session the Redis store returns was stored for exactly this client
    and this conversation state, by the latest successful [PutSession] for them
    or a later one: whatever sequence of session and page operations ran, and
    whichever of them failed, no session of another client, of another
    conversation, or an overwritten one is returned. *)
Theorem GetSession_history {W} `{redis_laws W} (s0 : RedisStore W) ops c h id :
  (∀ k, str_at (rdb s0) k = None) → Forall op_ok ops → colon_free c →
  (redis_GetSession c h (run ops s0)).2 = Ok (Some id) →
  ∃ before after ttl, ops = before ++ OpPutSession c h id ttl :: after ∧
    ∀ mid id' ttl' rest, after = mid ++ OpPutSession c h id' ttl' :: rest →
      (redis_PutSession c h id' ttl' (run (before ++ OpPutSession c h id ttl :: mid) s0)).2 = Ok tt → id' = id.
Proof.
  intros Hs0 Hops Hc E. destruct (session_history ops s0 c h id Hops Hc) as (before&after&ttl&->&Hlast).
  - intros c' h'. apply Hs0.
  - eapply GetSession_found. exact (surjective_pairing_2 _ _ E).
  - exists before, after, ttl. split; [done|exact Hlast].
Qed.

Definition sample_ops : list store_op :=
  [OpPutSession (str "c1") (str "h") (str "A") 60; OpPutPage (str "r") 1 (str "page") 60;
   OpPutSession (str "c2") (str "h") (str "B") 60; OpPutSession (str "c1") (str "h") (str "C") 60].

Lemma GetSession_history_witness :
  ∃ before after ttl, sample_ops = before ++ OpPutSession (str "c1") (str "h") (str "C") ttl :: after ∧
    ∀ mid id' ttl' rest, after = mid ++ OpPutSession (str "c1") (str "h") id' ttl' :: rest →
      (redis_PutSession (str "c1") (str "h") id' ttl'
        (run (before ++ OpPutSession (str "c1") (str "h") (str "C") ttl :: mid) mem_store)).2 = Ok tt →
      id' = str "C".
Proof.
  eapply (GetSession_history mem_store sample_ops (str "c1") (str "h") (str "C")).
  - done.
  - unfold sample_ops, op_ok, colon_free, page_seq. repeat constructor; try done; vm_compute; set_solver.
  - unfold colon_free. vm_compute. set_solver.
  - vm_compute. reflexivity.
Defined.

(** Every page [GetPages] returns was put for exactly this request and this
    page number: the zero-padded field names are read back to the numbers they
    were made from, and pages of other requests are never mixed in. *)
Lemma GetPages_history {W} `{redis_laws W} (s0 : RedisStore W) ops r pages n d :
  (∀ k, hash_at (rdb s0) k = ∅) → Forall op_ok ops →
  (redis_GetPages r (run ops s0)).2 = Ok pages → pages !! n = Some d →
  ∃ ttl, OpPutPage r n d ttl ∈ ops.
Proof.
  intros Hs0 Hops E Hn. apply (page_history ops s0 r n d Hops).
  - intros r' n' d' (f&_&Hf). by rewrite Hs0, lookup_empty in Hf.
  - eapply GetPages_found; [exact (surjective_pairing_2 _ _ E)|done].
Qed.

(** Keys never collide: two session keys are equal only for the same client
    hash and state hash, two temporary keys only for the same request, and no
    session key is a temporary key. *)
Lemma keys_injective c h c' h' r r' : colon_free c → colon_free c' →
  (SessionKey c h = SessionKey c' h' ↔ c = c' ∧ h = h') ∧
  (TempKey r = TempKey r' ↔ r = r') ∧ SessionKey c h ≠ TempKey r.
Proof.
  intros Hc Hc'. split_and!.
  - split; [by apply key_inj|by intros [-> ->]].
  - split; [apply TempKey_inj|by intros ->].
  - done.
Qed.

Lemma keys_injective_witness :
  (SessionKey (str "ab") (str "c") = SessionKey (str "a") (str "bc") ↔ str "ab" = str "a" ∧ str "c" = str "bc") ∧
  (TempKey (str "r") = TempKey (str "r") ↔ str "r" = str "r") ∧ SessionKey (str "ab") (str "c") ≠ TempKey (str "r").
Proof. apply keys_injective; unfold colon_free; vm_compute; set_solver. Defined.
