(* ===== verification/Session.v ===== *)
(** * [internal/session/resolver.go]: which session a request belongs to

    [Resolve] over any state with the storage interface.  The UUID the resolver
    would generate is an argument; the logger and the look-up time-out have no
    effect on the outcome other than a failing look-up. *)
From S2P Require Import Prelude GoBytes Json Sha256 Canon Metrics Store.

(** ** The resolver *)

Inductive Source : Type := SourceClient | SourceResolved | SourceNew.
#[export] Instance Source_eq_dec : EqDecision Source.
Proof. solve_decision. Defined.

Record Decision_ : Type := {
  SessionID : bytes;
  source : Source;
  HistoryHash_ : bytes;
}.

(** [canonMsgs[:len(canonMsgs)-1]] *)
Definition but_last (l : list bytes) : list bytes := take (length l - 1) l.

Section Resolve.
Context {S : Type} `{SessionStore S, Metered S}.

Definition Resolve (uuid clientHash : bytes) (canonMsgs : list bytes) (clientSession : bytes) (s : S) :
    S * Decision_ :=
  match clientSession with
  | _ :: _ =>
    (record (Inc SessionClientSupplied) s,
     {| SessionID := clientSession; source := SourceClient; HistoryHash_ := [] |})
  | [] =>
    if (1 <? length canonMsgs)%nat then
      let histHash := HistoryHash (but_last canonMsgs) in
      let '(s, r) := GetSession clientHash histHash s in
      match r with
      | Err _ =>
        (SessionStoreErrorInc (str "session_get") s,
         {| SessionID := uuid; source := SourceNew; HistoryHash_ := histHash |})
      | Ok (Some id) =>
        (record (Inc SessionResolveHit) s,
         {| SessionID := id; source := SourceResolved; HistoryHash_ := histHash |})
      | Ok None =>
        (record (Inc SessionResolveMiss) s,
         {| SessionID := uuid; source := SourceNew; HistoryHash_ := histHash |})
      end
    else (s, {| SessionID := uuid; source := SourceNew; HistoryHash_ := [] |})
  end.

(** The outcome as a function of what the look-up answers. *)
Definition resolution (uuid clientSession : bytes) (canonMsgs : list bytes)
    (reply : result store_error (option bytes)) : Decision_ :=
  if decide (clientSession ≠ []) then {| SessionID := clientSession; source := SourceClient; HistoryHash_ := [] |}
  else
    let h := if (1 <? length canonMsgs)%nat then HistoryHash (but_last canonMsgs) else [] in
    match reply with
    | Ok (Some id) =>
      if (1 <? length canonMsgs)%nat
      then {| SessionID := id; source := SourceResolved; HistoryHash_ := h |}
      else {| SessionID := uuid; source := SourceNew; HistoryHash_ := h |}
    | _ => {| SessionID := uuid; source := SourceNew; HistoryHash_ := h |}
    end.

Lemma Resolve_resolution uuid c msgs cs s :
  (Resolve uuid c msgs cs s).2 = resolution uuid cs msgs (GetSession c (HistoryHash (but_last msgs)) s).2.
Proof.
  unfold Resolve, resolution. destruct cs as [|b cs]; [|done]. rewrite decide_False by (by intros []).
  destruct (1 <? length msgs)%nat.
  - destruct (GetSession _ _ s) as [s' [[id|]|e]]; done.
  - by destruct (GetSession _ _ s).2 as [[id|]|e].
Qed.
End Resolve.

Section effects.
Context {S : Type} `{StoreSpec S}.

Lemma record_session_at e s c h : session_at (record e s) c h = session_at s c h.
Proof. by destruct (record_spec e s) as [-> _]. Qed.

(** Resolving stores nothing. *)
Lemma Resolve_keeps uuid c msgs cs s c' h x :
  session_at (Resolve uuid c msgs cs s).1 c' h = Some x → session_at s c' h = Some x.
Proof.
  unfold Resolve. destruct cs as [|b cs]; [|cbn; by rewrite record_session_at].
  destruct (1 <? length msgs)%nat; [|done].
  destruct (GetSession c _ s) as [s' r] eqn:E.
  assert (session_at s' c' h = Some x → session_at s c' h = Some x) as Hk.
  { intros Hx. apply (GetSession_keeps c (HistoryHash (but_last msgs)) s). by rewrite E. }
  by destruct r as [[id|]|e]; cbn; unfold SessionStoreErrorInc; rewrite ?record_session_at.
Qed.
End effects.

(** ** Properties *)

(** The session a request gets is the client's own when it sent one;
    otherwise it is one stored earlier for the same client under the hash of
    this very conversation history, and only for a request with at least two
    messages; otherwise it is the fresh one.  No failure of the store changes
    this, and a decision is always made. *)
Lemma Resolve_origin {W} `{redis_laws W} (s0 : RedisStore W) ops uuid c msgs cs :
  (∀ k, str_at (rdb s0) k = None) → Forall op_ok ops → colon_free c →
  let d := (Resolve uuid c msgs cs (run ops s0)).2 in
  (cs ≠ [] ∧ source d = SourceClient ∧ SessionID d = cs) ∨
  (cs = [] ∧ source d = SourceResolved ∧ (1 < length msgs)%nat ∧
   HistoryHash_ d = HistoryHash (but_last msgs) ∧
   last_put ops s0 c (HistoryHash (but_last msgs)) (SessionID d)) ∨
  (cs = [] ∧ source d = SourceNew ∧ SessionID d = uuid).
Proof.
  intros Hs0 Hops Hc d. unfold d. rewrite Resolve_resolution. unfold resolution.
  case_decide as Hcs; [by left|]. right. assert (cs = []) as -> by (by destruct cs; [|destruct Hcs]).
  destruct (GetSession c (HistoryHash (but_last msgs)) (run ops s0)) as [s' r] eqn:E. cbn [snd].
  destruct r as [[id|]|e]; [|by right|by right].
  destruct (Nat.ltb_spec 1 (length msgs)); [left|by right]. split_and!; [done..|]. cbn.
  apply session_history; [done..|intros c' h'; apply Hs0|]. by eapply GetSession_found.
Qed.

(** [C34] What one resolution counts on the Redis store: nothing but the
    client-supplied counter, or one look-up with its latency and a hit or a miss;
    a failed look-up is counted twice, once by the store and once by the
    resolver. *)
Theorem Resolve_metrics {W} `{redis W} (s : RedisStore W) uuid c msgs cs :
  let '(s', d) := Resolve uuid c msgs cs s in
  m s' = m s ++
    if decide (cs ≠ []) then [Inc SessionClientSupplied]
    else if (1 <? length msgs)%nat then
      ObserveSeconds (RedisLatency (str "session_get")) ::
      match (GetSession c (HistoryHash (but_last msgs)) s).2 with
      | Ok (Some _) => [Inc SessionResolveHit]
      | Ok None => [Inc SessionResolveMiss]
      | Err _ =>
        match (send [GET (SessionKey c (HistoryHash (but_last msgs)))] (rdb s)).2 with
        | Err _ => [Inc (SessionStoreError (str "session_get")); Inc (SessionStoreError (str "session_get"))]
        | Ok _ => [Inc (SessionStoreError (str "session_get"))]
        end
      end
    else [].
Proof.
  unfold Resolve. destruct cs as [|b cs]; [|done]. rewrite decide_False by (by intros []).
  destruct (1 <? length msgs)%nat; [|by rewrite app_nil_r].
  cbn [GetSession RedisStore_sessions]. unfold redis_GetSession, round_trip.
  destruct (send _ (rdb s)) as [w [[|v|mp]|[]]]; cbn; unfold SessionStoreErrorInc; cbn; by rewrite <-?app_assoc.
Qed.
