(* ===== verification/Collector.v ===== *)
(** * [internal/collector/collector.go]: the operations

    The response collector of one request and the shared page pool.  The bounded
    channel is a list of jobs with a capacity; the wait group is its counter;
    atomics are fields.  [Write] runs a callback ([onDone]) in its middle, so it
    is given as the part before and the part after it.  How the operations of
    the copy goroutine, the page workers and the finalizers interleave is the
    subject of Pool.v.  There [finalize_read] is one step though it is two Redis
    commands: both use the request's own key.  Logging is left out. *)
From S2P Require Import Prelude GoBytes Json Canon Assistant Metrics Store.

(** ** Data *)

(** Sizes in bytes, times in nanoseconds. *)
Record Config : Type := { PageSize : Z; TTL : Z; OpTimeout : Z; MaxPendingPages : Z }.

(** [owner] names the collector the job belongs to. *)
Record pageJob : Type := { requestID : bytes; seq : Z; data : bytes; owner : nat }.

Record Stats : Type := { Pages : Z; Bytes : Z }.

(** [onDone] says whether a callback was given. *)
Record Collector : Type := {
  c_requestID : bytes;
  pageSize : Z;
  tail : bytes;
  c_seq : Z;
  inflight : Z;
  failed : bool;
  onDone : bool;
  scanBuf : bytes;
  sawDone : bool;
  sealed : bool;
}.

Inductive collector_error : Type :=
| ErrCacheFailed
| ErrStreamIncomplete
| ErrNoAssistantMessage
| err_read_pages
| err_assistant (e : assistant_error).
#[export] Instance collector_error_eq_dec : EqDecision collector_error.
Proof. solve_decision. Defined.

Definition NewCollector (cfg : Config) (rid : bytes) (hasOnDone : bool) : Collector := {|
  c_requestID := rid; pageSize := PageSize cfg; tail := []; c_seq := 0; inflight := 0; failed := false;
  onDone := hasOnDone; scanBuf := []; sawDone := false; sealed := false |}.

(** Field updates. *)
Definition set_tail (c : Collector) (t : bytes) : Collector := {|
  c_requestID := c_requestID c; pageSize := pageSize c; tail := t; c_seq := c_seq c; inflight := inflight c;
  failed := failed c; onDone := onDone c; scanBuf := scanBuf c; sawDone := sawDone c; sealed := sealed c |}.
Definition set_inflight (c : Collector) (n : Z) : Collector := {|
  c_requestID := c_requestID c; pageSize := pageSize c; tail := tail c; c_seq := c_seq c; inflight := n;
  failed := failed c; onDone := onDone c; scanBuf := scanBuf c; sawDone := sawDone c; sealed := sealed c |}.
Definition incr_seq (c : Collector) : Collector := {|
  c_requestID := c_requestID c; pageSize := pageSize c; tail := tail c; c_seq := c_seq c + 1; inflight := inflight c;
  failed := failed c; onDone := onDone c; scanBuf := scanBuf c; sawDone := sawDone c; sealed := sealed c |}.
Definition set_scanBuf (c : Collector) (b : bytes) : Collector := {|
  c_requestID := c_requestID c; pageSize := pageSize c; tail := tail c; c_seq := c_seq c; inflight := inflight c;
  failed := failed c; onDone := onDone c; scanBuf := b; sawDone := sawDone c; sealed := sealed c |}.
Definition seal (c : Collector) : Collector := {|
  c_requestID := c_requestID c; pageSize := pageSize c; tail := tail c; c_seq := c_seq c; inflight := inflight c;
  failed := failed c; onDone := onDone c; scanBuf := scanBuf c; sawDone := true; sealed := true |}.

(** [c.fail()]: the compare-and-swap leaves the flag set either way. *)
Definition fail_ (c : Collector) : Collector := {|
  c_requestID := c_requestID c; pageSize := pageSize c; tail := tail c; c_seq := c_seq c; inflight := inflight c;
  failed := true; onDone := onDone c; scanBuf := scanBuf c; sawDone := sawDone c; sealed := sealed c |}.

Definition Done (c : Collector) : bool := sawDone c.
Definition Failed (c : Collector) : bool := failed c.

(** ** submit *)

Definition submit (cfg : Config) (queue : list pageJob) (id : nat) (c : Collector) (page : bytes) :
    list pageJob * Collector :=
  let c := incr_seq c in
  let c := set_inflight c (inflight c + 1) in
  if Z.of_nat (length queue) <? MaxPendingPages cfg then
    (queue ++ [{| requestID := c_requestID c; seq := c_seq c; data := page; owner := id |}], c)
  else
    let c := set_inflight c (inflight c - 1) in
    (queue, fail_ c).

(** ** watchDone *)

Definition scan_cap : Z := Z.shiftl 1 20.

Definition done_line (line : bytes) : bool := bool_decide (TrimSpace line = str "data: [DONE]").

(** The loop over the complete lines of [scanBuf]; every round drops a line, so
    the length of the buffer is enough fuel.  The Boolean says whether the
    sentinel was met. *)
Fixpoint watch_loop (fuel : nat) (scanBuf : bytes) : bytes * bool :=
  match fuel with
  | O => (scanBuf, false)
  | S fuel =>
    match IndexByte scanBuf 10 with
    | None => (scanBuf, false)
    | Some i =>
      let line := TrimSuffix (take i scanBuf) [13] in
      let scanBuf := drop (S i) scanBuf in
      if done_line line then (scanBuf, true) else watch_loop fuel scanBuf
    end
  end.

(** [true] when [onDone] is called. *)
Definition watchDone (c : Collector) (p : bytes) : Collector * bool :=
  if negb (onDone c) || sawDone c then (c, false)
  else
    let buf := scanBuf c ++ p in
    let '(buf, hit) := watch_loop (length buf) buf in
    if hit then (seal (set_scanBuf c buf), true)
    else (set_scanBuf c (if scan_cap <? Z.of_nat (length buf) then [] else buf), false).

(** ** Write *)

(** Up to the call of [onDone].  [None] is the early return. *)
Definition write_begin (cfg : Config) (queue : list pageJob) (id : nat) (c : Collector) (p : bytes) :
    option (list pageJob * Collector * bool) :=
  if sealed c || failed c then None
  else
    let c := set_tail c (tail c ++ p) in
    let '(queue, c) :=
      if pageSize c <=? Z.of_nat (length (tail c)) then
        let '(queue, c) := submit cfg queue id c (tail c) in (queue, set_tail c [])
      else (queue, c) in
    let '(c, called) := watchDone c p in
    Some (queue, c, called).

(** After it. *)
Definition write_end (c : Collector) : Collector := if sealed c then set_tail c [] else c.

(** ** Finalize and the page workers *)

Section store.
Context {S : Type} `{SessionStore S, TempPageStore S, Metered S}.

(** The pages in the order of their numbers. *)
Definition assemble (pages : gmap Z bytes) (tl : bytes) : bytes :=
  concat (map (λ seq, default [] (pages !! seq)) (merge_sort Z.le (map_to_list pages).*1)) ++ tl.

Definition message_of (payload : bytes) : result collector_error bytes :=
  let '(asst, sawDone) := AssistantFromSSE payload in
  match asst with
  | Err ErrNoAssistantContent => Err ErrNoAssistantMessage
  | Err e => Err (err_assistant e)
  | Ok asst =>
    if negb sawDone then Err ErrStreamIncomplete
    else match asst with [] => Err ErrNoAssistantMessage | _ => Ok asst end
  end.

(** After [inflight.Wait()]. *)
Definition finalize_read (c : Collector) (s : S) : S * result collector_error bytes * Stats :=
  let '(s, r) := GetPages (c_requestID c) s in
  match r with
  | Err _ => (s, Err err_read_pages, {| Pages := c_seq c; Bytes := 0 |})
  | Ok pages =>
    let payload := assemble pages (tail c) in
    let '(s, _) := DeletePages (c_requestID c) s in
    (s, message_of payload, {| Pages := c_seq c; Bytes := Z.of_nat (length payload) |})
  end.

(** The check [Finalize] starts with. *)
Definition finalize_check (c : Collector) : option (collector_error * Stats) :=
  if failed c then Some (ErrCacheFailed, {| Pages := c_seq c; Bytes := 0 |}) else None.

(** [Finalize] of a collector without pages in flight (the wait returns at once). *)
Definition Finalize (c : Collector) (s : S) : S * result collector_error bytes * Stats :=
  match finalize_check c with
  | Some (e, st) => (s, Err e, st)
  | None => finalize_read c s
  end.

Definition Abort_ (c : Collector) (s : S) : S * Collector :=
  ((DeletePages (c_requestID c) s).1, fail_ c).

(** A worker's write of one job; [true] when it failed. *)
Definition worker_put (cfg : Config) (job : pageJob) (s : S) : S * bool :=
  let '(s, r) := PutPage (requestID job) (seq job) (data job) (TTL cfg) s in
  match r with
  | Err _ => (record (Inc PageFlushError) s, true)
  | Ok _ => (record (Inc PageFlushSuccess) s, false)
  end.

(** What the worker then does to the job's owner. *)
Definition worker_settle (err : bool) (c : Collector) : Collector :=
  let c := if err then fail_ c else c in
  set_inflight c (inflight c - 1).
End store.
