(* ===== verification/DoneWatch.v ===== *)
(** * The sentinel watcher of the collector

    [watchDone] keeps an incomplete line across writes and looks for a complete
    line [data: [DONE]].  It fires exactly when the bytes written so far contain
    such a line, however they were cut into writes, as long as no line exceeds
    its 1 MiB cap; and what has been collected when it fires already rebuilds
    the whole message. *)
From S2P Require Import Prelude Utf8 GoBytes Json JsonRender Canon Sse Request Assistant AssistantStream Metrics Store Collector.

(** ** Complete lines *)

(** The lines ended by a newline, and the unfinished rest. *)
Fixpoint split_from (cur s : bytes) : list bytes * bytes :=
  match s with
  | [] => ([], cur)
  | c :: s' =>
    if c =? 10 then let '(ls, p) := split_from [] s' in (cur :: ls, p) else split_from (cur ++ [c]) s'
  end.
Definition complete_lines (s : bytes) : list bytes := (split_from [] s).1.
Definition partial_line (s : bytes) : bytes := (split_from [] s).2.

Definition is_done (line : bytes) : bool := done_line (TrimSuffix line [13]).
Definition has_done (s : bytes) : bool := existsb is_done (complete_lines s).

Lemma split_from_app cur a b :
  split_from cur (a ++ b) =
  let '(ls, p) := split_from cur a in let '(ls', p') := split_from p b in (ls ++ ls', p').
Proof.
  revert cur. induction a as [|c a IH]; intros cur; cbn [app split_from]; [by destruct (split_from cur b)|].
  destruct (c =? 10); [|apply IH]. rewrite IH. destruct (split_from [] a) as [ls p].
  by destruct (split_from p b).
Qed.

Lemma split_from_none cur s : 10 ∉ s → split_from cur s = ([], cur ++ s).
Proof.
  revert cur. induction s as [|c s IH]; intros cur Hs; cbn; [by rewrite app_nil_r|].
  apply not_elem_of_cons in Hs as [Hc Hs]. destruct (Z.eqb_spec c 10); [congruence|].
  rewrite IH by done. by rewrite <-app_assoc.
Qed.

Lemma partial_no_newline cur s : 10 ∉ cur → 10 ∉ (split_from cur s).2.
Proof.
  revert cur. induction s as [|c s IH]; intros cur Hc; cbn; [done|].
  destruct (Z.eqb_spec c 10) as [->|Hne].
  - specialize (IH [] (not_elem_of_nil _)). by destruct (split_from [] s).
  - apply IH. set_solver.
Qed.

Lemma complete_lines_app a b :
  complete_lines (a ++ b) = complete_lines a ++ complete_lines (partial_line a ++ b) ∧
  partial_line (a ++ b) = partial_line (partial_line a ++ b).
Proof.
  unfold complete_lines, partial_line. rewrite split_from_app.
  pose proof (partial_no_newline [] a (not_elem_of_nil _)) as Hp.
  destruct (split_from [] a) as [ls p]. cbn in *. rewrite split_from_app, (split_from_none [] p) by done.
  cbn. by destruct (split_from p b).
Qed.

Lemma has_done_app a b : has_done (a ++ b) = has_done a || has_done (partial_line a ++ b).
Proof. unfold has_done. destruct (complete_lines_app a b) as [-> _]. apply existsb_app. Qed.

(** The loop finds a done line among the complete lines, or leaves the rest. *)
Lemma watch_loop_spec fuel buf : (length buf <= fuel)%nat →
  (watch_loop fuel buf).2 = has_done buf ∧
  (has_done buf = false → (watch_loop fuel buf).1 = partial_line buf).
Proof.
  revert buf. induction fuel as [|fuel IH]; intros buf Hf.
  { destruct buf; [done|cbn in Hf; lia]. }
  cbn [watch_loop]. destruct (IndexByte buf 10) as [i|] eqn:E.
  - apply IndexByte_Some in E as [Hn Hi].
    assert (buf = take i buf ++ 10 :: drop (S i) buf) as Eb by (symmetry; by apply take_drop_middle).
    assert (split_from [] buf = (take i buf :: complete_lines (drop (S i) buf), partial_line (drop (S i) buf))) as Es.
    { rewrite Eb at 1. rewrite split_from_app, split_from_none by done. cbn.
      unfold complete_lines, partial_line. by destruct (split_from [] (drop (S i) buf)). }
    assert (has_done buf = is_done (take i buf) || has_done (drop (S i) buf)) as Eh.
    { unfold has_done at 1, complete_lines at 1. by rewrite Es. }
    rewrite Eh. unfold is_done. destruct (done_line _) eqn:Ed; [done|]. cbn [orb].
    destruct (IH (drop (S i) buf)) as [IH1 IH2].
    { assert (length (drop (S i) buf) < length buf)%nat; [|lia]. apply length_drop_lt; [lia|]. by destruct buf. }
    split; [done|]. intros Hd. rewrite IH2 by done. unfold partial_line at 2. by rewrite Es.
  - apply IndexByte_None in E. unfold has_done, complete_lines, partial_line. by rewrite split_from_none.
Qed.

(** ** Chunks *)

(** The watcher on successive writes, up to the one on which it fires. *)
Fixpoint watch_chunks (c : Collector) (ps : list bytes) : Collector * bool :=
  match ps with
  | [] => (c, false)
  | p :: ps' => let '(c', hit) := watchDone c p in if hit then (c', true) else watch_chunks c' ps'
  end.

Definition short_lines (s : bytes) : Prop :=
  Forall (λ l, Z.of_nat (length l) <= scan_cap) (complete_lines s ++ [partial_line s]).

Lemma short_lines_app a b : short_lines (a ++ b) →
  Z.of_nat (length (partial_line a)) <= scan_cap ∧ short_lines (partial_line a ++ b).
Proof.
  unfold short_lines. destruct (complete_lines_app a b) as [-> ->].
  rewrite <-app_assoc. intros [_ H]%Forall_app. split; [|done].
  unfold complete_lines, partial_line in H |- *.
  pose proof (partial_no_newline [] a (not_elem_of_nil _)) as Hp. set (p := (split_from [] a).2) in *. clearbody p.
  clear a. rewrite split_from_app, split_from_none in H by done. cbn in H.
  assert (∀ b q, Forall (λ l, Z.of_nat (length l) <= scan_cap) ((split_from q b).1 ++ [(split_from q b).2]) →
    Z.of_nat (length q) <= scan_cap) as Hgen.
  { clear. intros b. induction b as [|c b IH]; intros q; cbn; [by intros ?%Forall_inv|].
    destruct (c =? 10).
    - destruct (split_from [] b). cbn. by intros ?%Forall_inv.
    - intros Hq%IH. rewrite length_app in Hq. cbn in Hq. lia. }
  apply (Hgen b). by destruct (split_from p b).
Qed.

(** The part before a cut has short lines too. *)
Lemma short_lines_prefix a b : short_lines (a ++ b) → short_lines a.
Proof.
  intros Hl. pose proof (short_lines_app _ _ Hl) as [Hcap _]. unfold short_lines in *.
  destruct (complete_lines_app a b) as [E _]. rewrite E in Hl.
  apply Forall_app. split; [|by constructor]. by apply Forall_app in Hl as [[Hl _]%Forall_app _].
Qed.

#[export] Instance short_lines_dec s : Decision (short_lines s).
Proof. unfold short_lines. apply _. Defined.

Lemma watchDone_step c p : onDone c = true → sawDone c = false →
  short_lines (scanBuf c ++ p) →
  (watchDone c p).2 = has_done (scanBuf c ++ p) ∧
  (has_done (scanBuf c ++ p) = false →
     (watchDone c p).1 = set_scanBuf c (partial_line (scanBuf c ++ p))) ∧
  (has_done (scanBuf c ++ p) = true → sealed (watchDone c p).1 = true).
Proof.
  intros Ho Hs Hl. unfold watchDone. rewrite Ho, Hs. cbn [negb orb].
  destruct (watch_loop_spec (length (scanBuf c ++ p)) (scanBuf c ++ p)) as [H1 H2]; [lia|].
  destruct (watch_loop _ _) as [buf hit]. cbn in H1, H2. subst hit.
  destruct (has_done (scanBuf c ++ p)); cbn; [split_and!; done|]. rewrite H2 by done. split_and!; [done| |done].
  intros _. apply Forall_app in Hl as [_ Hl%Forall_inv].
  by bfalse (scan_cap <? Z.of_nat (length (partial_line (scanBuf c ++ p)))).
Qed.

Lemma watch_chunks_spec c ps : onDone c = true → sawDone c = false →
  has_done (scanBuf c) = false → partial_line (scanBuf c) = scanBuf c → short_lines (scanBuf c ++ concat ps) →
  (watch_chunks c ps).2 = has_done (scanBuf c ++ concat ps).
Proof.
  revert c. induction ps as [|p ps IH]; intros c Ho Hs Hd Hp Hl; cbn [concat watch_chunks].
  { by rewrite app_nil_r. }
  cbn [concat] in Hl. rewrite app_assoc in Hl |- *. pose proof (short_lines_app _ _ Hl) as [Hcap Hl'].
  pose proof (short_lines_prefix _ _ Hl) as Hlp.
  destruct (watchDone_step c p Ho Hs Hlp) as (H1&H2&_). rewrite has_done_app.
  destruct (watchDone c p) as [c' hit]. cbn in H1, H2. subst hit.
  destruct (has_done (scanBuf c ++ p)) eqn:E; [done|]. cbn [orb]. specialize (H2 eq_refl). subst c'.
  assert (10 ∉ partial_line (scanBuf c ++ p)) as Hn by (apply partial_no_newline, not_elem_of_nil).
  apply IH; cbn; try done.
  - unfold has_done, complete_lines. by rewrite split_from_none.
  - unfold partial_line at 1. by rewrite split_from_none.
Qed.

(** ** Encoded streams *)

Lemma split_line l s : 10 ∉ l → complete_lines (l ++ 10 :: s) = l :: complete_lines s.
Proof.
  intros Hl. unfold complete_lines. rewrite split_from_app, split_from_none by done. cbn.
  by destruct (split_from [] s).
Qed.

Lemma data_line_not_done m : any_wf (AMap m) → is_done (str "data: " ++ render WriteString (AMap m)) = false.
Proof.
  intros Hw. pose proof (render_line_ok _ Hw) as [_ Hcr]. unfold is_done, done_line.
  rewrite TrimSuffix_none.
  - apply bool_decide_eq_false. rewrite TrimSpace_visible.
    + rewrite render_map. intros [=].
    + exists 100. eexists. split; [done|lia].
    + rewrite render_map. eexists 125, _. split; [|lia]. by rewrite (app_assoc [123] _ [125]), (app_assoc (str "data: ")).
  - intros t Ht. destruct t as [|x t _] using rev_ind.
    { discriminate Ht. }
    rewrite render_map in Ht. apply (f_equal last) in Ht. rewrite last_snoc in Ht.
    rewrite (app_assoc [123] _ [125]), (app_assoc (str "data: ")), last_snoc in Ht. done.
Qed.

Lemma has_done_chunk ds s : spec_ok ds → has_done (encode_chunk ds ++ s) = has_done s.
Proof.
  intros Hds. destruct (chunk_value_wf ds Hds) as [Hw _]. unfold encode_chunk, encode_event, data_line.
  rewrite bind_singleton. pose proof (render_line_ok _ Hw) as [Hn _].
  replace ((((str "data: " ++ render WriteString (chunk_value ds) ++ [10]) ++ [10]) ++ s))
    with ((str "data: " ++ render WriteString (chunk_value ds)) ++ 10 :: [] ++ 10 :: s) by by norm_app.
  unfold has_done. rewrite split_line, split_line; [|apply not_elem_of_nil|].
  - cbn [existsb]. unfold chunk_value in Hw |- *. rewrite data_line_not_done by done. done.
  - intros [Hin|Hin]%elem_of_app; [|done]. by vm_compute in Hin; set_solver.
Qed.

Lemma has_done_chunks dss s : Forall spec_ok dss → has_done ((dss ≫= encode_chunk) ++ s) = has_done s.
Proof.
  induction 1 as [|ds dss Hds Hdss IH]; [done|]. by rewrite bind_cons, <-app_assoc, has_done_chunk, IH.
Qed.

Lemma has_done_prefix a b : has_done a = true → has_done (a ++ b) = true.
Proof. intros H. by rewrite has_done_app, H. Qed.

(** The stream up to the sentinel text, without the newline that ends it. *)
Definition before_done (dss : list delta_spec) : bytes := (dss ≫= encode_chunk) ++ str "data: [DONE]".
Definition full_stream (dss : list delta_spec) : bytes := (dss ≫= encode_chunk) ++ done_event.

Lemma full_stream_eq dss : full_stream dss = before_done dss ++ [10; 10].
Proof. unfold full_stream, before_done. by rewrite <-app_assoc. Qed.

Lemma has_done_take dss k : Forall spec_ok dss → (k <= length (full_stream dss))%nat →
  has_done (take k (full_stream dss)) = bool_decide (length (before_done dss) < k)%nat.
Proof.
  intros Hdss Hk. case_bool_decide as Hlt.
  - rewrite full_stream_eq, take_app_ge by lia.
    assert (∃ r, take (k - length (before_done dss)) [10; 10] = 10 :: r) as [r ->].
    { destruct (k - length (before_done dss))%nat eqn:E; [lia|]. by eexists. }
    unfold before_done. rewrite <-app_assoc, has_done_chunks by done. unfold has_done.
    rewrite split_line; [done|]. intros Hin. vm_compute in Hin. set_solver.
  - destruct (has_done _) eqn:E; [|done]. exfalso. rewrite full_stream_eq, take_app_le in E by lia.
    apply (has_done_prefix _ (drop k (before_done dss))) in E. rewrite take_drop in E.
    unfold before_done in E. by rewrite has_done_chunks in E.
Qed.

Lemma collected_message dss k : Forall spec_ok dss → (length (before_done dss) < k)%nat →
  AssistantFromSSE (take k (full_stream dss))
  = (canonical (foldl mergeDelta zero_accumulator (map delta_of dss)), true).
Proof.
  intros Hdss Hk. rewrite full_stream_eq, take_app_ge by lia.
  assert (events (before_done dss ++ take (k - length (before_done dss)) [10; 10])
    = map (λ ds, render WriteString (chunk_value ds)) dss ++ [str "[DONE]"]) as E.
  { unfold before_done at 1. rewrite <-app_assoc.
    transitivity (events ((dss ≫= encode_chunk) ++ done_event ++ [])).
    - rewrite app_nil_r. rewrite !events_chunks by done. f_equal.
      destruct (k - length (before_done dss))%nat as [|[|n]] eqn:E; [lia|done|]. by destruct n.
    - by rewrite encoded_events. }
  unfold AssistantFromSSE, Scan. rewrite scan_loop_feed by lia.
  fold (events (before_done dss ++ take (k - length (before_done dss)) [10; 10])). rewrite E.
  by rewrite feed_chunks.
Qed.

(** ** Properties *)

(** [C31] The sentinel watcher fires exactly when the bytes written so far contain
    a complete line [data: [DONE]], whatever the boundaries of the writes, if no
    line is longer than 1 MiB. *)
Theorem watchDone_chunks cfg rid ps : short_lines (concat ps) →
  (watch_chunks (NewCollector cfg rid true) ps).2 = has_done (concat ps).
Proof. intros Hl. by apply watch_chunks_spec. Qed.

Lemma watchDone_chunks_witness :
  (watch_chunks (NewCollector {| PageSize := 4; TTL := 1; OpTimeout := 1; MaxPendingPages := 1 |} (str "r") true)
    [str "data: [DO"; str "NE]"; [13]; [10] ++ str "x"]).2 = true.
Proof.
  refine (eq_trans (watchDone_chunks _ _ _ _) _); [|vm_compute; reflexivity].
  apply (bool_decide_unpack _). vm_compute. exact I.
Defined.

(** [C15] Finalizing as soon as the watcher fires sees the whole message: while an
    encoded stream arrives in arbitrary writes, the watcher fires with the write
    that completes the sentinel line, not earlier, and the bytes collected by
    then already rebuild the complete message with the sentinel. *)
Theorem watchDone_early cfg rid dss ps k : Forall spec_ok dss →
  concat ps = take k (full_stream dss) → (k <= length (full_stream dss))%nat → short_lines (full_stream dss) →
  (watch_chunks (NewCollector cfg rid true) ps).2 = bool_decide (length (before_done dss) < k)%nat ∧
  ((watch_chunks (NewCollector cfg rid true) ps).2 = true →
   AssistantFromSSE (concat ps) = (canonical (foldl mergeDelta zero_accumulator (map delta_of dss)), true)).
Proof.
  intros Hdss E Hk Hl.
  assert ((watch_chunks (NewCollector cfg rid true) ps).2 = has_done (concat ps)) as Hw.
  { apply watch_chunks_spec; try done. cbn [scanBuf NewCollector app]. rewrite E.
    apply (short_lines_prefix _ (drop k (full_stream dss))). by rewrite take_drop. }
  rewrite Hw, E, has_done_take by done. split; [done|]. intros Hd%bool_decide_eq_true. by apply collected_message.
Qed.

Definition early_stream : list delta_spec := [text_piece (str "Hi"); text_piece (str "!")].
Definition early_writes : list bytes :=
  [take 30 (full_stream early_stream);
   drop 30 (take (S (length (before_done early_stream))) (full_stream early_stream))].

Lemma watchDone_early_witness :
  AssistantFromSSE (concat early_writes)
  = (canonical (foldl mergeDelta zero_accumulator (map delta_of early_stream)), true).
Proof.
  refine (proj2 (watchDone_early {| PageSize := 4; TTL := 1; OpTimeout := 1; MaxPendingPages := 1 |} (str "r")
    early_stream early_writes (S (length (before_done early_stream))) _ _ _ _) _).
  - apply (bool_decide_unpack _). vm_compute. exact I.
  - vm_compute. reflexivity.
  - apply Nat.leb_le. vm_compute. reflexivity.
  - apply (bool_decide_unpack _). vm_compute. exact I.
  - vm_compute. reflexivity.
Defined.
