(* ===== verification/Pool.v ===== *)
(** * The page pool: interleavings of writers, workers and finalizers

    A state holds the store, the bounded page queue, the jobs the workers have
    taken and the collectors of all requests; [exec] performs one atomic step of
    one goroutine.  Every collector of a run exists from the start (a collector
    does nothing before its first write) and request IDs are distinct, as UUIDs
    are.  [written] and [pages] are history variables: the bytes [Write]
    accepted and the pages handed to [submit].

    The theorems: the wait-group counters and the queue bound; what [Finalize]
    reads after its wait is exactly what was written, if the cache has not
    failed by then ([finalize_exact]); the check [Finalize] makes comes before
    the wait, so after any page lost during the wait the message of the remaining
    bytes is returned ([finalize_misses_lost_page]). *)
From S2P Require Import Prelude GoBytes Json Canon Sse Request Assistant AssistantStream Metrics Store Collector.

(** ** States and steps *)

(** A finalizer before its check, or waiting for the pages in flight. *)
Inductive fin_phase : Type := FinStart | FinWait.

(** The copy goroutine between two reads; inside [onDone]; after the body was
    closed, with the close-time finalizer; at the end. *)
Inductive phase : Type := Copying | AtDone (f : fin_phase) | AtClose (f : fin_phase) | Finished.

Record proc : Type := {
  coll : Collector;
  ph : phase;
  results : list (result collector_error bytes);
  written : bytes;
  pages : list bytes;
  deleted : bool;
}.

Definition set_coll (p : proc) (c : Collector) : proc :=
  {| coll := c; ph := ph p; results := results p; written := written p; pages := pages p; deleted := deleted p |}.
Definition set_phase (p : proc) (f : phase) : proc :=
  {| coll := coll p; ph := f; results := results p; written := written p; pages := pages p; deleted := deleted p |}.

Inductive event : Type :=
| EWrite (i : nat) (b : bytes)
| EClose (i : nat)
| ECheck (i : nat)
| ERead (i : nat)
| ETake
| EPut (k : nat)
| ESettle (k : nat)
| EStore (o : store_op)
| ECancel
| EExit.

Section pool.
Context {S : Type} `{SessionStore S, TempPageStore S, Metered S}.
Context (cfg : Config).

Record state : Type := {
  store : S;
  queue : list pageJob;
  busy : list (pageJob * option bool);
  workers : nat;
  cancelled : bool;
  procs : list proc;
}.

Definition set_proc (st : state) (i : nat) (p : proc) : state :=
  {| store := store st; queue := queue st; busy := busy st; workers := workers st;
     cancelled := cancelled st; procs := <[i := p]> (procs st) |}.
Definition set_store (st : state) (s : S) : state :=
  {| store := s; queue := queue st; busy := busy st; workers := workers st;
     cancelled := cancelled st; procs := procs st |}.
Definition set_queue (st : state) (q : list pageJob) : state :=
  {| store := store st; queue := q; busy := busy st; workers := workers st;
     cancelled := cancelled st; procs := procs st |}.
Definition set_busy (st : state) (b : list (pageJob * option bool)) : state :=
  {| store := store st; queue := queue st; busy := b; workers := workers st;
     cancelled := cancelled st; procs := procs st |}.

Definition new_proc (rid : bytes) (hasOnDone : bool) : proc :=
  {| coll := NewCollector cfg rid hasOnDone; ph := Copying; results := []; written := []; pages := []; deleted := false |}.

Definition init (s : S) (n : nat) (reqs : list (bytes * bool)) : state :=
  {| store := s; queue := []; busy := []; workers := n; cancelled := false;
     procs := map (λ '(rid, d), new_proc rid d) reqs |}.

(** The finalizer is done: the callback returns to [Write], or all is over. *)
Definition after_finalize (p : proc) (r : result collector_error bytes) (del : bool) : proc :=
  {| coll := match ph p with AtDone _ => write_end (coll p) | _ => coll p end;
     ph := match ph p with AtDone _ => Copying | _ => Finished end;
     results := results p ++ [r]; written := written p; pages := pages p;
     deleted := deleted p || del |}.

(** A page was submitted when the sequence number moved. *)
Definition after_write (p : proc) (b : bytes) (c : Collector) (called : bool) : proc :=
  {| coll := if called then c else write_end c;
     ph := if called then AtDone FinStart else Copying;
     results := results p; written := written p ++ b;
     pages := if c_seq c =? c_seq (coll p) then pages p else pages p ++ [tail (coll p) ++ b];
     deleted := deleted p |}.

Definition waiting (f : phase) : phase :=
  match f with AtDone _ => AtDone FinWait | AtClose _ => AtClose FinWait | f => f end.

(** [finalizeAtDone] succeeded. *)
Definition finalized (p : proc) : bool := existsb is_ok (results p).

Definition is_session_op (o : store_op) : bool :=
  match o with OpGetSession _ _ | OpPutSession _ _ _ _ | OpRecord _ => true | _ => false end.

Definition exec (e : event) (st : state) : option state :=
  match e with
  | EWrite i b =>
    p ← procs st !! i;
    match ph p with
    | Copying =>
      if c_seq (coll p) <? 2 ^ 63 - 1 then
        match write_begin cfg (queue st) i (coll p) b with
        | None => Some st
        | Some (q, c, called) => Some (set_proc (set_queue st q) i (after_write p b c called))
        end
      else None
    | _ => None
    end
  | EClose i =>
    p ← procs st !! i;
    match ph p with
    | Copying => Some (set_proc st i (set_phase p (if finalized p then Finished else AtClose FinStart)))
    | _ => None
    end
  | ECheck i =>
    p ← procs st !! i;
    match ph p with
    | AtDone FinStart | AtClose FinStart =>
      match finalize_check (coll p) with
      | Some (e, _) => Some (set_proc st i (after_finalize p (Err e) false))
      | None => Some (set_proc st i (set_phase p (waiting (ph p))))
      end
    | _ => None
    end
  | ERead i =>
    p ← procs st !! i;
    match ph p with
    | AtDone FinWait | AtClose FinWait =>
      if inflight (coll p) =? 0 then
        let '(s, r, _) := finalize_read (coll p) (store st) in
        Some (set_proc (set_store st s) i (after_finalize p r true))
      else None
    | _ => None
    end
  | ETake =>
    if (length (busy st) <? workers st)%nat then
      match queue st with
      | [] => None
      | job :: q => Some (set_busy (set_queue st q) (busy st ++ [(job, None)]))
      end
    else None
  | EPut k =>
    match busy st !! k with
    | Some (job, None) =>
      let '(s, err) := worker_put cfg job (store st) in
      Some (set_busy (set_store st s) (<[k := (job, Some err)]> (busy st)))
    | _ => None
    end
  | ESettle k =>
    match busy st !! k with
    | Some (job, Some err) =>
      p ← procs st !! owner job;
      Some (set_proc (set_busy st (delete k (busy st))) (owner job) (set_coll p (worker_settle err (coll p))))
    | _ => None
    end
  | EStore o => if is_session_op o then Some (set_store st (run_op o (store st))) else None
  | ECancel => Some {| store := store st; queue := queue st; busy := busy st; workers := workers st;
                       cancelled := true; procs := procs st |}
  | EExit =>
    if cancelled st && (length (busy st) <? workers st)%nat then
      Some {| store := store st; queue := queue st; busy := busy st; workers := pred (workers st);
              cancelled := true; procs := procs st |}
    else None
  end.

Fixpoint execs (es : list event) (st : state) : option state :=
  match es with
  | [] => Some st
  | e :: es' => st' ← exec e st; execs es' st'
  end.

Lemma execs_app es es' st : execs (es ++ es') st = st' ← execs es st; execs es' st'.
Proof. revert st. induction es as [|e es IH]; intros st; cbn; [done|]. destruct (exec e st); [apply IH|done]. Qed.

(** The same steps as a relation, a rule for each outcome: proofs go by these
    cases, witnesses by evaluating [exec]. *)
Inductive pool_step (st : state) : event → state → Prop :=
| step_refused i b p : procs st !! i = Some p → ph p = Copying → c_seq (coll p) < 2 ^ 63 - 1 →
    write_begin cfg (queue st) i (coll p) b = None → pool_step st (EWrite i b) st
| step_write i b p q c called : procs st !! i = Some p → ph p = Copying → c_seq (coll p) < 2 ^ 63 - 1 →
    write_begin cfg (queue st) i (coll p) b = Some (q, c, called) →
    pool_step st (EWrite i b) (set_proc (set_queue st q) i (after_write p b c called))
| step_close i p : procs st !! i = Some p → ph p = Copying →
    pool_step st (EClose i) (set_proc st i (set_phase p (if finalized p then Finished else AtClose FinStart)))
| step_check_failed i p e stats : procs st !! i = Some p → ph p = AtDone FinStart ∨ ph p = AtClose FinStart →
    finalize_check (coll p) = Some (e, stats) → pool_step st (ECheck i) (set_proc st i (after_finalize p (Err e) false))
| step_check i p : procs st !! i = Some p → ph p = AtDone FinStart ∨ ph p = AtClose FinStart →
    finalize_check (coll p) = None → pool_step st (ECheck i) (set_proc st i (set_phase p (waiting (ph p))))
| step_read i p s r stats : procs st !! i = Some p → ph p = AtDone FinWait ∨ ph p = AtClose FinWait →
    inflight (coll p) = 0 → finalize_read (coll p) (store st) = (s, r, stats) →
    pool_step st (ERead i) (set_proc (set_store st s) i (after_finalize p r true))
| step_take job q : (length (busy st) < workers st)%nat → queue st = job :: q →
    pool_step st ETake (set_busy (set_queue st q) (busy st ++ [(job, None)]))
| step_put k job s err : busy st !! k = Some (job, None) → worker_put cfg job (store st) = (s, err) →
    pool_step st (EPut k) (set_busy (set_store st s) (<[k := (job, Some err)]> (busy st)))
| step_settle k job err p : busy st !! k = Some (job, Some err) → procs st !! owner job = Some p →
    pool_step st (ESettle k)
      (set_proc (set_busy st (delete k (busy st))) (owner job) (set_coll p (worker_settle err (coll p))))
| step_store o : is_session_op o = true → pool_step st (EStore o) (set_store st (run_op o (store st)))
| step_cancel : pool_step st ECancel {| store := store st; queue := queue st; busy := busy st;
    workers := workers st; cancelled := true; procs := procs st |}
| step_exit : cancelled st = true → (length (busy st) < workers st)%nat →
    pool_step st EExit {| store := store st; queue := queue st; busy := busy st;
      workers := pred (workers st); cancelled := true; procs := procs st |}.

Lemma exec_step e st st' : exec e st = Some st' → pool_step st e st'.
Proof.
  destruct e as [i b|i|i|i| |k|k|o| |]; cbn [exec].
  1-4: bind_some p Hp; destruct (ph p) as [|[]|[]|] eqn:Eph; try done.
  - destruct (Z.ltb_spec (c_seq (coll p)) (2 ^ 63 - 1)); [|done].
    destruct (write_begin _ _ _ _ _) as [[[q c] called]|] eqn:Ew; intros [= <-]; [by econstructor|by eapply step_refused].
  - intros [= <-]. by constructor.
  - destruct (finalize_check _) as [[err stats]|] eqn:Ec; intros [= <-]; [eapply step_check_failed; eauto|].
    pose proof (step_check st i p Hp) as Hs. rewrite Eph in Hs. auto.
  - destruct (finalize_check _) as [[err stats]|] eqn:Ec; intros [= <-]; [eapply step_check_failed; eauto|].
    pose proof (step_check st i p Hp) as Hs. rewrite Eph in Hs. auto.
  - destruct (Z.eqb_spec (inflight (coll p)) 0); [|done]. destruct (finalize_read _ _) as [[s r] stats] eqn:Er; intros [= <-]. econstructor; eauto.
  - destruct (Z.eqb_spec (inflight (coll p)) 0); [|done]. destruct (finalize_read _ _) as [[s r] stats] eqn:Er; intros [= <-]. econstructor; eauto.
  - destruct (Nat.ltb_spec (length (busy st)) (workers st)); [|done]. destruct (queue st) as [|job q] eqn:Eq; [done|].
    intros [= <-]. by constructor.
  - destruct (busy st !! k) as [[job [err|]]|] eqn:Hk; try done. destruct (worker_put _ _ _) as [s err] eqn:Ew. intros [= <-]. by constructor.
  - destruct (busy st !! k) as [[job [err|]]|] eqn:Hk; try done. bind_some p Hp. intros [= <-]. by constructor.
  - destruct (is_session_op o) eqn:Ho; [|done]. intros [= <-]. by constructor.
  - intros [= <-]. constructor.
  - destruct (cancelled st) eqn:Hc; [|done]. destruct (Nat.ltb_spec (length (busy st)) (workers st)); [|done].
    intros [= <-]. by constructor.
Qed.

Lemma step_exec e st st' : pool_step st e st' → exec e st = Some st'.
Proof.
  intros [i b p Hp Hph Hb Hw|i b p q c called Hp Hph Hb Hw|i p Hp Hph|i p err stats Hp Hph Hc|i p Hp Hph Hc
    |i p s r stats Hp Hph Hin Hr|job q Hlt Hq|k job s err Hk Hw|k job err p Hk Hp|o Ho| |Hc Hlt]; cbn [exec];
    rewrite ?Hp; cbn [mbind option_bind].
  - rewrite Hph, Hw. by rewrite (proj2 (Z.ltb_lt _ _)).
  - rewrite Hph, Hw. by rewrite (proj2 (Z.ltb_lt _ _)).
  - by rewrite Hph.
  - rewrite Hc. by destruct Hph as [-> | ->].
  - rewrite Hc. by destruct Hph as [-> | ->].
  - rewrite Hin, Hr. by destruct Hph as [-> | ->].
  - rewrite (proj2 (Nat.ltb_lt _ _)), Hq by done. done.
  - rewrite Hk, Hw. done.
  - rewrite Hk. by rewrite Hp.
  - by rewrite Ho.
  - done.
  - by rewrite Hc, (proj2 (Nat.ltb_lt _ _)).
Qed.
End pool.

(** The cases of a step: its actor [a] with the collector [pa], the job, the
    guards. *)
Ltac step_cases H :=
  apply exec_step in H;
  destruct H as [a b pa Hp Hph Hb Hw|a b pa q c called Hp Hph Hb Hw|a pa Hp Hph|a pa err stats Hp Hph Hc|a pa Hp Hph Hc
    |a pa s r stats Hp Hph Hin Hr|job q Hlt Hq|k job s err Hk Hw|k job err pa Hk Hp|o Ho| |Hc Hlt].

(** ** The cases of a write *)

Definition scan_bounded (c : Collector) : Prop := Z.of_nat (length (scanBuf c)) <= scan_cap.

Lemma watchDone_frame c b : let '(c', called) := watchDone c b in
  c_requestID c' = c_requestID c ∧ c_seq c' = c_seq c ∧ inflight c' = inflight c ∧ failed c' = failed c ∧
  tail c' = tail c ∧ pageSize c' = pageSize c ∧ onDone c' = onDone c ∧ sealed c' = sealed c || called ∧
  (called = false → scan_bounded c → scan_bounded c').
Proof.
  unfold watchDone, scan_bounded. destruct (negb (onDone c) || sawDone c); [by rewrite orb_false_r|].
  destruct (watch_loop _ _) as [buf []]; cbn -[scan_cap]; rewrite ?orb_true_r, ?orb_false_r; split_and!; try done.
  intros _ _. destruct (Z.ltb_spec scan_cap (Z.of_nat (length buf))); [by vm_compute|lia].
Qed.

Inductive write_case (cfg : Config) (q : list pageJob) (i : nat) (c : Collector) (b : bytes) (c' : Collector) :
    list pageJob → Prop :=
| write_kept : c_seq c' = c_seq c → inflight c' = inflight c → failed c' = false →
    tail c' = tail c ++ b → Z.of_nat (length (tail c')) < pageSize c → write_case cfg q i c b c' q
| write_queued : c_seq c' = c_seq c + 1 → inflight c' = inflight c + 1 → failed c' = false → tail c' = [] →
    Z.of_nat (length q) < MaxPendingPages cfg →
    write_case cfg q i c b c'
      (q ++ [{| requestID := c_requestID c; seq := c_seq c + 1; data := tail c ++ b; owner := i |}])
| write_dropped : c_seq c' = c_seq c + 1 → inflight c' = inflight c → failed c' = true → tail c' = [] →
    MaxPendingPages cfg <= Z.of_nat (length q) → write_case cfg q i c b c' q.

Lemma write_begin_cases cfg q i c b q' c' called : write_begin cfg q i c b = Some (q', c', called) →
  sealed c = false ∧ failed c = false ∧ sealed c' = called ∧ c_requestID c' = c_requestID c ∧
  pageSize c' = pageSize c ∧ write_case cfg q i c b c' q' ∧
  (called = false → scan_bounded c → scan_bounded c').
Proof.
  unfold write_begin. destruct (sealed c) eqn:Es; [done|]. destruct (failed c) eqn:Ef; [done|]. cbn [orb].
  set (c1 := set_tail c (tail c ++ b)). destruct (Z.leb_spec (pageSize c1) (Z.of_nat (length (tail c1)))) as [Hp|Hp].
  - unfold submit. cbn. destruct (Z.ltb_spec (Z.of_nat (length q)) (MaxPendingPages cfg)) as [Hq|Hq];
      (match goal with |- context [watchDone ?d b] => pose proof (watchDone_frame d b) as Hw; destruct (watchDone d b) as [c2 h] end);
      cbn in Hw; rewrite ?Es, ?Ef in Hw; destruct Hw as (?&?&?&?&?&?&?&?&?); intros [= <- <- <-]; (split_and!; try done).
    + by apply write_queued.
    + apply write_dropped; try done. lia.
  - pose proof (watchDone_frame c1 b) as Hw; destruct (watchDone c1 b) as [c2 h].
    cbn in Hw. rewrite ?Es, ?Ef in Hw. destruct Hw as (?&?&?&?&Ht&?&?&?&?). intros [= <- <- <-]. split_and!; try done.
    apply write_kept; try done. rewrite Ht. exact Hp.
Qed.

(** ** The invariant *)

Section invariant.
Context {S : Type} `{StoreSpec S}.
Context (cfg : Config).
Implicit Types (st : @state S) (p : proc).

(** The jobs of a collector that are queued or being written. *)
Definition jobs st : list pageJob := queue st ++ (busy st).*1.
Definition owned (i : nat) (l : list pageJob) : list pageJob := filter (λ j, owner j = i) l.

(** The buffer still holds the end of what was written. *)
Definition intact p : Prop := match ph p with AtDone _ => True | _ => sealed (coll p) = false end.

(** The page with number [n]. *)
Definition page p (n : Z) : option bytes := pages p !! Z.to_nat (n - 1).

Definition job_ok p (j : pageJob) : Prop :=
  requestID j = c_requestID (coll p) ∧ 1 <= seq j <= c_seq (coll p) ∧ page p (seq j) = Some (data j).

Record proc_ok (i : nat) (l : list pageJob) (s : S) p : Prop := {
  po_seq : c_seq (coll p) = Z.of_nat (length (pages p)) ∧ c_seq (coll p) < 2 ^ 63;
  po_inflight : inflight (coll p) = Z.of_nat (length (owned i l));
  po_jobs : Forall (job_ok p) (owned i l);
  po_store : ∀ n d, page_at s (c_requestID (coll p)) n d → 1 <= n ∧ page p n = Some d;
  po_tail : intact p → concat (pages p) ++ tail (coll p) = written p;
  po_done : match ph p with AtDone _ => sealed (coll p) = true | _ => True end;
  po_room : ph p = Copying → Z.of_nat (length (tail (coll p))) < Z.max 1 (pageSize (coll p)) ∧
    (sealed (coll p) = false → scan_bounded (coll p));
  po_first : results p = [] → deleted p = false ∧ intact p;
}.

Record pool_ok st : Prop := {
  ok_queue : Z.of_nat (length (queue st)) <= Z.max 0 (MaxPendingPages cfg);
  ok_busy : (length (busy st) <= workers st)%nat;
  ok_rids : NoDup (map (λ p, c_requestID (coll p)) (procs st));
  ok_owner : Forall (λ j, (owner j < length (procs st))%nat) (jobs st);
  ok_procs : ∀ i p, procs st !! i = Some p → proc_ok i (jobs st) (store st) p;
}.

Lemma owned_app i l l' : owned i (l ++ l') = owned i l ++ owned i l'.
Proof. apply filter_app. Qed.

Lemma owned_cons i j l : owned i (j :: l) = if decide (owner j = i) then j :: owned i l else owned i l.
Proof. unfold owned. by rewrite filter_cons. Qed.

(** A job at the end of the queue. *)
Lemma owned_snoc i q j l : owned i ((q ++ [j]) ++ l) ≡ₚ owned i [j] ++ owned i (q ++ l).
Proof. rewrite !owned_app. rewrite (Permutation_app_comm (owned i q)), <-app_assoc. done. Qed.

#[export] Instance owned_proper i : Proper ((≡ₚ) ==> (≡ₚ)) (owned i).
Proof. intros l l' Hl. unfold owned. by rewrite Hl. Qed.

(** Only a collector's own jobs and pages matter to it. *)
Lemma proc_ok_frame i l l' s s' p : proc_ok i l s p → owned i l' ≡ₚ owned i l →
  (∀ n d, page_at s' (c_requestID (coll p)) n d → page_at s (c_requestID (coll p)) n d) →
  proc_ok i l' s' p.
Proof.
  intros [] El Hs. split; try done.
  - by rewrite El.
  - by rewrite El.
  - intros n d Hn%Hs. auto.
Qed.

Lemma session_op_page o s r n d : is_session_op o = true → page_at (run_op o s) r n d → page_at s r n d.
Proof.
  intros Ho Hp. destruct o as [c h|c h id ttl| | | |e]; try done; cbn in Hp.
  - apply (session_ops_pages c h [] 0 s). by left.
  - apply (session_ops_pages c h id ttl s). by right.
  - by destruct (record_spec e s) as [_ <-].
Qed.

Lemma record_page_at e s r n d : page_at (record e s) r n d → page_at s r n d.
Proof. by destruct (record_spec e s) as [_ ->]. Qed.

Lemma finalize_read_pages c s r n d : page_at (finalize_read c s).1.1 r n d → page_at s r n d.
Proof.
  unfold finalize_read. destruct (GetPages (c_requestID c) s) as [s1 [m|e]] eqn:E.
  - destruct (DeletePages (c_requestID c) s1) as [s2 x] eqn:E2. cbn. intros Hp.
    apply (GetPages_keeps (c_requestID c)). rewrite E. cbn [fst].
    apply (DeletePages_keeps (c_requestID c)). by rewrite E2.
  - cbn. intros Hp. apply (GetPages_keeps (c_requestID c)). by rewrite E.
Qed.

Lemma worker_put_pages j s r n d : page_seq (seq j) → page_at (worker_put cfg j s).1 r n d →
  (r = requestID j ∧ n = seq j ∧ d = data j) ∨ page_at s r n d.
Proof.
  intros Hj. unfold worker_put. destruct (PutPage _ _ _ _ s) as [s1 res] eqn:E. intros Hp.
  apply (PutPage_keeps _ _ (data j) (TTL cfg)); [done|]. rewrite E. cbn.
  destruct res; cbn in Hp; by apply record_page_at in Hp.
Qed.

(** Replacing a collector by one with the same request ID. *)
Lemma rids_insert st i p p' : procs st !! i = Some p → c_requestID (coll p') = c_requestID (coll p) →
  map (λ p, c_requestID (coll p)) (<[i := p']> (procs st)) = map (λ p, c_requestID (coll p)) (procs st).
Proof.
  intros Hp E. change (map ?f ?l) with (f <$> l). rewrite list_fmap_insert. apply list_insert_id.
  rewrite list_lookup_fmap, Hp. cbn. by rewrite E.
Qed.

Lemma rids_distinct st i j p q : pool_ok st → procs st !! i = Some p → procs st !! j = Some q →
  c_requestID (coll p) = c_requestID (coll q) → i = j.
Proof.
  intros Hst Hi Hj E. apply (NoDup_lookup _ i j (c_requestID (coll p)) (ok_rids st Hst)).
  - change (map ?f ?l) with (f <$> l). rewrite list_lookup_fmap, Hi. done.
  - change (map ?f ?l) with (f <$> l). rewrite list_lookup_fmap, Hj, E. done.
Qed.

(** One collector changes, the jobs of the others stay. *)
Lemma pool_ok_update st st' i p p' : pool_ok st → procs st !! i = Some p →
  procs st' = <[i := p']> (procs st) →
  Z.of_nat (length (queue st')) <= Z.max 0 (MaxPendingPages cfg) →
  (length (busy st') <= workers st')%nat →
  c_requestID (coll p') = c_requestID (coll p) →
  Forall (λ j, (owner j < length (procs st))%nat) (jobs st') →
  (∀ j, j ≠ i → owned j (jobs st') ≡ₚ owned j (jobs st)) →
  (∀ r n d, page_at (store st') r n d → page_at (store st) r n d) →
  proc_ok i (jobs st') (store st') p' →
  pool_ok st'.
Proof.
  intros Hst Hp Eprocs Hq Hb Hr Ho Hothers Hpages Hok. split; try done.
  - rewrite Eprocs. rewrite (rids_insert _ _ _ _ Hp Hr). apply (ok_rids st Hst).
  - rewrite Eprocs. by rewrite length_insert.
  - intros j q. rewrite Eprocs. destruct (decide (j = i)) as [->|Hne].
    + rewrite list_lookup_insert_eq by (by eapply lookup_lt_Some). by intros [= <-].
    + rewrite list_lookup_insert_ne by done. intros Hq'. eapply proc_ok_frame; [by apply (ok_procs st Hst)|auto|auto].
Qed.
(** ** Every step keeps the invariant *)

Lemma job_ok_extend p p' j : c_requestID (coll p') = c_requestID (coll p) → c_seq (coll p) <= c_seq (coll p') →
  (∃ ext, pages p' = pages p ++ ext) → job_ok p j → job_ok p' j.
Proof.
  intros Er Es [ext Ep] (?&?&Hj). split_and!; [congruence|lia|lia|].
  unfold page in *. rewrite Ep. by apply lookup_app_l_Some.
Qed.

Lemma page_extend p p' n d : (∃ ext, pages p' = pages p ++ ext) → page p n = Some d → page p' n = Some d.
Proof. unfold page. intros [ext ->] Hn. by apply lookup_app_l_Some. Qed.

(** What a write does to its process: the bytes go to the tail, or a page [ext]
    is made of it. *)
Record extends (p p' : proc) (b : bytes) (ext : list bytes) : Prop := {
  ex_rid : c_requestID (coll p') = c_requestID (coll p);
  ex_size : pageSize (coll p') = pageSize (coll p);
  ex_pages : pages p' = pages p ++ ext;
  ex_seq : c_seq (coll p') = c_seq (coll p) + Z.of_nat (length ext);
  ex_written : written p' = written p ++ b;
  ex_tail : concat ext ++ tail (coll p') = tail (coll p) ++ b;
  ex_fits : Z.of_nat (length (tail (coll p'))) < Z.max 1 (pageSize (coll p));
  ex_results : results p' = results p ∧ deleted p' = deleted p;
  ex_sealed : match ph p' with AtDone _ => sealed (coll p') = true | _ => sealed (coll p') = false end;
  ex_scan : ph p' = Copying → scan_bounded (coll p');
}.

Lemma extends_jobs p p' b ext l : extends p p' b ext → Forall (job_ok p) l → Forall (job_ok p') l.
Proof.
  intros [] Hl. eapply Forall_impl; [exact Hl|]. intros j. apply job_ok_extend; [done|lia|by eexists].
Qed.

Lemma extends_ok i l l' s p p' b ext : proc_ok i l s p → intact p → extends p p' b ext → c_seq (coll p') < 2 ^ 63 →
  inflight (coll p') = Z.of_nat (length (owned i l')) → Forall (job_ok p') (owned i l') → proc_ok i l' s p'.
Proof.
  intros [[Hseq _] _ _ Hpages Htail _ _ Hfirst] Hi [Er Ez Ep Es Ew Et Hfit [Ers Ed] Hsl Hsc] Hb Hin Hjobs.
  assert (intact p') as Hi' by (unfold intact; by destruct (ph p')).
  split; try done.
  - rewrite Ep, length_app, Es, Hseq. split; [lia|]. by rewrite <-Hseq, <-Es.
  - rewrite Er. intros n d [? Hn]%Hpages. split; [done|]. eapply page_extend, Hn. by eexists.
  - intros _. by rewrite Ep, concat_app, <-app_assoc, Et, app_assoc, Htail, Ew.
  - by destruct (ph p').
  - intros Hc. rewrite Ez. split; [done|auto].
  - rewrite Ers, Ed. intros Hr0. split; [by apply Hfirst|done].
Qed.

Lemma after_write_extends st i p b q c called : pool_ok st → procs st !! i = Some p → ph p = Copying →
  write_begin cfg (queue st) i (coll p) b = Some (q, c, called) →
  coll (after_write p b c called) = c ∧ intact p ∧
  extends p (after_write p b c called) b (if c_seq c =? c_seq (coll p) then [] else [tail (coll p) ++ b]).
Proof.
  intros Hst Hp Hph Hw. apply write_begin_cases in Hw as (Hs&Hf&Hsc&Hr&Hps&Hcase&Hscan).
  destruct (po_room _ _ _ _ (ok_procs st Hst i p Hp) Hph) as [_ Hroom2].
  assert (coll (after_write p b c called) = c) as Ec.
  { unfold after_write, write_end. cbn. destruct called; [done|]. by rewrite Hsc. }
  split; [done|]. split; [unfold intact; by rewrite Hph|].
  assert ((c_seq c = c_seq (coll p) ∧ tail c = tail (coll p) ++ b ∧ Z.of_nat (length (tail c)) < pageSize (coll p)) ∨
    (c_seq c = c_seq (coll p) + 1 ∧ tail c = [])) as Ht by (destruct Hcase; auto).
  split; rewrite ?Ec; try done; unfold after_write; cbn.
  - by destruct (_ =? _); rewrite ?app_nil_r.
  - destruct Ht as [(->&_)|(->&_)]; [rewrite Z.eqb_refl; cbn; lia|]. by bfalse (c_seq (coll p) + 1 =? c_seq (coll p)).
  - destruct Ht as [(->&->&_)|(->&->)]; [by rewrite Z.eqb_refl|].
    bfalse (c_seq (coll p) + 1 =? c_seq (coll p)). cbn. by rewrite !app_nil_r.
  - destruct Ht as [(_&_&?)|(_&->)]; [lia|cbn; lia].
  - by destruct called.
  - destruct called; [done|]. intros _. by apply Hscan, Hroom2.
Qed.

Lemma write_keeps st i p b q c called : pool_ok st → procs st !! i = Some p → ph p = Copying →
  c_seq (coll p) < 2 ^ 63 - 1 → write_begin cfg (queue st) i (coll p) b = Some (q, c, called) →
  pool_ok (set_proc (set_queue st q) i (after_write p b c called)).
Proof.
  intros Hst Hp Hph Hbound Hw. destruct (after_write_extends st i p b q c called Hst Hp Hph Hw) as (Ec&Hi&Hext).
  apply write_begin_cases in Hw as (_&_&_&Hr&_&Hcase&_).
  pose proof (ok_procs st Hst i p Hp) as Hok. pose proof Hok as [[Hseq _] Hin Hjobs _ _ _ _ _].
  pose proof (ok_queue st Hst) as Hql. pose proof (ok_owner st Hst) as Ho.
  set (p' := after_write p b c called) in *.
  assert (∀ j, j ∈ jobs (set_proc (set_queue st q) i p') → j ∈ jobs st ∨ owner j = i) as Hnew.
  { intros j. unfold jobs. cbn. inversion Hcase; subst q; [by left| |by left]. set_solver. }
  apply (pool_ok_update st _ i p p'); try done.
  - cbn. inversion Hcase; subst q; [done| |done]. rewrite length_app. cbn. lia.
  - apply Hst.
  - by rewrite Ec.
  - rewrite Forall_forall in Ho |- *. intros j [?| ->]%Hnew; [auto|]. by eapply lookup_lt_Some.
  - intros j Hj. unfold jobs. cbn [queue busy set_proc set_queue]. inversion Hcase; subst q; try done.
    rewrite owned_snoc, owned_cons, decide_False by (cbn; congruence). done.
  - assert (c_seq (coll p') < 2 ^ 63) as Hb' by (rewrite Ec; inversion Hcase; lia).
    pose proof (extends_jobs _ _ _ _ _ Hext Hjobs) as Hjobs'.
    inversion Hcase as [E1 E2 _ _ _|E1 E2 _ _ _|E1 E2 _ _ _]; subst q;
      (eapply (extends_ok i (jobs st)); [exact Hok|done|exact Hext|done|..]); rewrite ?Ec, ?E2; unfold jobs in *;
      cbn [queue busy set_proc set_queue]; try done; rewrite owned_snoc, owned_cons, decide_True by done; [cbn; lia|].
    apply Forall_app. split; [|done]. constructor; [|constructor].
    destruct Hext as [_ _ Ep _ _ _ _ _ _ _]. rewrite E1 in Ep. replace (c_seq (coll p) + 1 =? c_seq (coll p)) with false in Ep by lia.
    split_and!; cbn [requestID seq data]; rewrite ?Ec; [done|lia|lia|].
    unfold page. rewrite Ep, Hseq. replace (Z.to_nat (Z.of_nat (length (pages p)) + 1 - 1)) with (length (pages p)) by lia.
    by rewrite list_lookup_middle.
Qed.

(** Steps that only move jobs or touch the rest of the store. *)
Lemma pool_ok_same st st' : pool_ok st → procs st' = procs st → jobs st' ≡ₚ jobs st →
  Z.of_nat (length (queue st')) <= Z.max 0 (MaxPendingPages cfg) →
  (length (busy st') <= workers st')%nat →
  (∀ i p n d, procs st !! i = Some p → page_at (store st') (c_requestID (coll p)) n d →
     page_at (store st) (c_requestID (coll p)) n d ∨ 1 <= n ∧ page p n = Some d) →
  pool_ok st'.
Proof.
  intros Hst Ep Ej Hq Hb Hpages. split; try done; rewrite ?Ep, ?Ej; try apply Hst.
  intros i p Hp. pose proof (ok_procs st Hst i p Hp) as [].
  split; try done; rewrite ?Ej; try done. intros n d [?|?]%(Hpages i p n d Hp); auto.
Qed.

(** Steps of one collector that neither add nor remove jobs. *)
Lemma pool_ok_proc st st' i p p' : pool_ok st → procs st !! i = Some p →
  procs st' = <[i := p']> (procs st) → queue st' = queue st → busy st' = busy st → workers st' = workers st →
  c_requestID (coll p') = c_requestID (coll p) →
  (∀ r n d, page_at (store st') r n d → page_at (store st) r n d) →
  (∀ s, proc_ok i (jobs st) s p → proc_ok i (jobs st) s p') →
  pool_ok st'.
Proof.
  intros Hst Hp Ep Eq Eb Ew Er Hpages Hok. assert (jobs st' = jobs st) as Ej by (unfold jobs; by rewrite Eq, Eb).
  apply (pool_ok_update st st' i p p'); try done; rewrite ?Ej, ?Eq, ?Eb, ?Ew; try apply Hst; try done.
  apply Hok. eapply proc_ok_frame; [by apply (ok_procs st Hst)|done|]. intros n d. apply Hpages.
Qed.

Lemma after_finalize_ok i l s p r del : proc_ok i l s p → proc_ok i l s (after_finalize p r del).
Proof.
  intros [Hseq Hin Hjobs Hpages Htail Hdone Hroom Hfirst]. unfold after_finalize, write_end.
  destruct (ph p) as [|f|f|] eqn:Eph; try (split; try done; unfold intact in *; cbn; rewrite ?Eph in *; try done; by intros [_ ?]%app_eq_nil).
  rewrite Hdone. split; try done; unfold intact; cbn; rewrite ?Hdone; try done; [intros _; split; [lia|done]|].
  by intros [_ ?]%app_eq_nil.
Qed.

Lemma after_finalize_rid p r del : c_requestID (coll (after_finalize p r del)) = c_requestID (coll p).
Proof. unfold after_finalize, write_end. cbn. by destruct (ph p), (sealed (coll p)). Qed.

Lemma set_phase_ok i l s p f : proc_ok i l s p → f ≠ Copying →
  (match f with AtDone _ => (∃ g, ph p = AtDone g) | _ => (∀ g, ph p ≠ AtDone g) end) →
  proc_ok i l s (set_phase p f).
Proof.
  intros [Hseq Hin Hjobs Hpages Htail Hdone Hroom Hfirst] Hf Hph.
  assert (intact (set_phase p f) ↔ intact p) as Hi.
  { unfold intact. cbn. destruct f; [done|destruct Hph as [g ->]; done|..];
      destruct (ph p) as [|g|g|] eqn:E; try done; by destruct (Hph g). }
  split; try done.
  - intros Hi'%Hi. by apply Htail.
  - cbn. destruct f; try done. by destruct Hph as [g Hg]; rewrite Hg in Hdone.
  - intros Hr. rewrite Hi. by apply Hfirst.
Qed.

Lemma owned_elem i j l : j ∈ owned i l ↔ owner j = i ∧ j ∈ l.
Proof. unfold owned. rewrite list_elem_of_filter. done. Qed.

Lemma job_owner st j : pool_ok st → j ∈ jobs st → ∃ p, procs st !! owner j = Some p ∧ job_ok p j.
Proof.
  intros Hst Hj. pose proof (ok_owner st Hst) as Ho. rewrite Forall_forall in Ho.
  destruct (lookup_lt_is_Some_2 _ _ (Ho j Hj)) as [p Hp]. exists p. split; [done|].
  pose proof (po_jobs _ _ _ _ (ok_procs st Hst _ p Hp)) as Hjobs. rewrite Forall_forall in Hjobs.
  apply Hjobs, owned_elem. done.
Qed.

Lemma job_seq_bound st j : pool_ok st → j ∈ jobs st → page_seq (seq j).
Proof.
  intros Hst Hj. destruct (job_owner st j Hst Hj) as (p&Hp&_&Hs&_).
  pose proof (po_seq _ _ _ _ (ok_procs st Hst _ p Hp)). unfold page_seq. lia.
Qed.

Lemma busy_job st k j x : busy st !! k = Some (j, x) → j ∈ jobs st.
Proof.
  intros Hk. apply elem_of_app. right. apply list_elem_of_fmap. exists (j, x). split; [done|].
  by eapply list_elem_of_lookup_2.
Qed.

(** A job taken or stored is still among the jobs. *)
Lemma take_jobs st job q : queue st = job :: q → jobs (set_busy (set_queue st q) (busy st ++ [(job, None)])) ≡ₚ jobs st.
Proof.
  intros Eq. unfold jobs. cbn [queue busy set_busy set_queue]. rewrite Eq, fmap_app. cbn.
  by rewrite app_assoc, <-Permutation_cons_append.
Qed.

Lemma put_jobs st s k job err : busy st !! k = Some (job, None) →
  jobs (set_busy (set_store st s) (<[k := (job, Some err)]> (busy st))) = jobs st.
Proof.
  intros Hk. unfold jobs. cbn [queue busy set_busy set_store]. rewrite list_fmap_insert. cbn.
  rewrite list_insert_id; [done|]. by rewrite list_lookup_fmap, Hk.
Qed.

Lemma put_keeps st k job s err : pool_ok st → busy st !! k = Some (job, None) →
  worker_put cfg job (store st) = (s, err) →
  pool_ok (set_busy (set_store st s) (<[k := (job, Some err)]> (busy st))).
Proof.
  intros Hst Hk Hw. pose proof (busy_job st k job None Hk) as Hjob.
  apply (pool_ok_same st); try done; [| |cbn; rewrite length_insert|]; try apply Hst.
  - by rewrite put_jobs.
  - intros i p n d Hp. cbn. intros Hpage.
    assert (page_at (worker_put cfg job (store st)).1 (c_requestID (coll p)) n d) as Hpg by by rewrite Hw.
    apply worker_put_pages in Hpg as [(Er&->&->)|?]; [right|by left|by eapply job_seq_bound].
    destruct (job_owner st job Hst Hjob) as (p'&Hp'&Er'&Hs&Hd).
    assert (i = owner job) as -> by (eapply rids_distinct; [done..|]; congruence).
    rewrite Hp in Hp'. injection Hp' as ->. split; [lia|done].
Qed.

Lemma settle_ok i l l' s p job err : proc_ok i l s p → owned i l ≡ₚ job :: owned i l' →
  proc_ok i l' s (set_coll p (worker_settle err (coll p))).
Proof.
  intros [Hseq Hin Hjobs Hpages Htail Hdone Hroom Hfirst] El. rewrite El in Hjobs.
  apply Forall_cons in Hjobs as [_ Hjobs].
  assert (∀ c, c = worker_settle err (coll p) → c_requestID c = c_requestID (coll p) ∧ c_seq c = c_seq (coll p) ∧
    inflight c = inflight (coll p) - 1 ∧ tail c = tail (coll p) ∧ sealed c = sealed (coll p) ∧ pageSize c = pageSize (coll p) ∧
    scanBuf c = scanBuf (coll p)) as Hc.
  { intros c ->. unfold worker_settle. by destruct err. }
  specialize (Hc _ eq_refl) as (E1&E2&E3&E4&E5&E6&E7). set (c := worker_settle err (coll p)) in *.
  split; unfold intact, job_ok, scan_bounded in *; cbn [coll ph pages written results deleted set_coll];
    rewrite ?E1, ?E2, ?E3, ?E4, ?E5, ?E6, ?E7; try done.
  rewrite El in Hin. cbn in Hin. lia.
Qed.

Lemma settle_keeps st k job err p : pool_ok st → busy st !! k = Some (job, Some err) →
  procs st !! owner job = Some p →
  pool_ok (set_proc (set_busy st (delete k (busy st))) (owner job) (set_coll p (worker_settle err (coll p)))).
Proof.
  intros Hst Hk Hp.
  assert (jobs st ≡ₚ job :: jobs (set_busy st (delete k (busy st)))) as Ej.
  { unfold jobs. cbn [queue busy set_busy]. rewrite (delete_Permutation (busy st) k _ Hk) at 1. cbn.
    by rewrite Permutation_middle. }
  apply (pool_ok_update st _ (owner job) p (set_coll p (worker_settle err (coll p)))); try done; try apply Hst.
  - cbn. rewrite length_delete by by rewrite Hk. pose proof (ok_busy st Hst). lia.
  - by destruct err.
  - pose proof (ok_owner st Hst) as Ho. rewrite Ej in Ho. by apply Forall_cons in Ho as [_ Ho].
  - intros j Hj. rewrite Ej, owned_cons, decide_False by congruence. done.
  - eapply settle_ok; [by apply (ok_procs st Hst)|]. by rewrite Ej, owned_cons, decide_True.
Qed.

Lemma exec_keeps e st st' : pool_ok st → exec cfg e st = Some st' → pool_ok st'.
Proof.
  intros Hst E. step_cases E.
  - done.
  - by apply write_keeps.
  - apply (pool_ok_proc st _ a pa (set_phase pa (if finalized pa then Finished else AtClose FinStart))); try done.
    intros s Hok. apply set_phase_ok; [done|by destruct (finalized pa)|destruct (finalized pa); by rewrite Hph].
  - apply (pool_ok_proc st _ a pa (after_finalize pa (Err err) false)); try done; [apply after_finalize_rid|].
    intros s. apply after_finalize_ok.
  - apply (pool_ok_proc st _ a pa (set_phase pa (waiting (ph pa)))); try done.
    intros s Hok. destruct Hph as [Hph|Hph]; rewrite Hph; apply set_phase_ok; cbn; try done; rewrite ?Hph; eauto.
  - apply (pool_ok_proc st _ a pa (after_finalize pa r true)); try done; [apply after_finalize_rid| |intros s'; apply after_finalize_ok].
    intros r' n d. cbn. intros Hpg. apply (finalize_read_pages (coll pa)). by rewrite Hr.
  - apply (pool_ok_same st); try done; cbn.
    + by apply take_jobs.
    + pose proof (ok_queue st Hst) as Hq'. rewrite Hq in Hq'. cbn in Hq'. lia.
    + rewrite length_app. cbn. lia.
    + intros i p n d _ Hpg. by left.
  - by eapply put_keeps.
  - by eapply settle_keeps.
  - apply (pool_ok_same st); try done; try apply Hst. intros i p n d _ Hpg. left. by eapply session_op_page.
  - apply (pool_ok_same st); try done; try apply Hst. intros. by left.
  - apply (pool_ok_same st); try done; cbn; try apply Hst; try lia. intros. by left.
Qed.

Lemma execs_keep es st st' : pool_ok st → execs cfg es st = Some st' → pool_ok st'.
Proof.
  revert st. induction es as [|e es IH]; intros st Hst; cbn; [by intros [= <-]|].
  destruct (exec cfg e st) as [st1|] eqn:E; [|done]. cbn. apply IH. by eapply exec_keeps.
Qed.

(** A run starts with no pages of its requests stored. *)
Lemma init_ok s n reqs : NoDup reqs.*1 → (∀ rid, rid ∈ reqs.*1 → ∀ k d, ¬ page_at s rid k d) →
  pool_ok (init cfg s n reqs).
Proof.
  intros Hnd Hs. split; cbn.
  - lia.
  - lia.
  - rewrite map_map. rewrite (map_ext _ fst); [done|]. by intros [].
  - constructor.
  - intros i p Hp. change (map ?f ?l) with (f <$> l) in Hp. rewrite list_lookup_fmap in Hp.
    destruct (reqs !! i) as [[rid d]|] eqn:E; [|done]. injection Hp as <-.
    split; cbn; try done; try (by constructor).
    + intros k x Hk. exfalso. eapply Hs, Hk. apply list_elem_of_fmap. exists (rid, d). split; [done|].
      by eapply list_elem_of_lookup_2.
    + intros _. split; [lia|by intros _].
Qed.
End invariant.

(** ** No page is lost before the counter reaches zero *)

Section lossless.
Context {S : Type} `{StoreSpec S, !PersistentPages S}.
Context (cfg : Config) (Httl : 0 < TTL cfg).
Implicit Types (st : @state S) (p : proc).

(** Unless the cache failed, every page is stored or still in flight. *)
Definition proc_safe (i : nat) (l : list pageJob) (s : S) p : Prop :=
  failed (coll p) = false → deleted p = false →
  ∀ n, 1 <= n <= c_seq (coll p) → held s (c_requestID (coll p)) n ∨ ∃ j, j ∈ owned i l ∧ seq j = n.

(** A job a worker has stored, before its counter is decremented. *)
Definition busy_safe st : Prop := ∀ j p, (j, Some false) ∈ busy st →
  procs st !! owner j = Some p → deleted p = false → held (store st) (requestID j) (seq j).

Record pool_safe st : Prop := {
  safe_ok : pool_ok cfg st;
  safe_procs : ∀ i p, procs st !! i = Some p → proc_safe i (jobs st) (store st) p;
  safe_busy : busy_safe st;
}.

Lemma session_op_held o s r n : is_session_op o = true → held s r n → held (run_op o s) r n.
Proof.
  intros Ho Hh. destruct o as [c h|c h id ttl| | | |e]; try done; cbn.
  - by apply (session_ops_hold c h [] 0 s).
  - by apply (session_ops_hold c h id ttl s).
  - by apply record_holds.
Qed.

Lemma worker_put_holds j s r n : held s r n → held (worker_put cfg j s).1 r n.
Proof.
  intros Hh. unfold worker_put. pose proof (PutPage_holds (requestID j) (seq j) (data j) (TTL cfg) s r n Httl Hh) as Hp.
  destruct (PutPage _ _ _ _ s) as [s1 []]; by apply record_holds.
Qed.

Lemma worker_put_held j s : page_seq (seq j) → (worker_put cfg j s).2 = false →
  held (worker_put cfg j s).1 (requestID j) (seq j).
Proof.
  intros Hj. unfold worker_put. pose proof (PutPage_held (requestID j) (seq j) (data j) (TTL cfg) s Hj Httl) as Hp.
  destruct (PutPage _ _ _ _ s) as [s1 [[]|]]; [|done]. intros _. by apply record_holds, Hp.
Qed.

Lemma finalize_read_holds c s r n : r ≠ c_requestID c → held s r n → held (finalize_read c s).1.1 r n.
Proof.
  intros Hr Hh. unfold finalize_read. pose proof (GetPages_holds (c_requestID c) s r n Hh) as Hg.
  destruct (GetPages _ s) as [s1 [m|e]]; [|done].
  pose proof (DeletePages_holds (c_requestID c) s1 r n Hr Hg) as Hd. by destruct (DeletePages _ s1).
Qed.

(** What a step may do to a collector and its pages. *)
Definition proc_step st st' : Prop := ∀ i p', procs st' !! i = Some p' → ∃ p, procs st !! i = Some p ∧
  c_requestID (coll p') = c_requestID (coll p) ∧
  (failed (coll p') = false → failed (coll p) = false) ∧ (deleted p' = false → deleted p = false) ∧
  (failed (coll p') = false → ∀ n, n <= c_seq (coll p') →
     n <= c_seq (coll p) ∨ ∃ j, j ∈ owned i (jobs st') ∧ seq j = n) ∧
  (deleted p' = false → ∀ n, held (store st) (c_requestID (coll p)) n → held (store st') (c_requestID (coll p)) n).

Lemma pool_safe_frame st st' : pool_safe st → pool_ok cfg st' → proc_step st st' →
  (∀ i j p', j ∈ owned i (jobs st) → procs st' !! i = Some p' → failed (coll p') = false → deleted p' = false →
     j ∈ owned i (jobs st') ∨ held (store st') (c_requestID (coll p')) (seq j)) →
  busy_safe st' → pool_safe st'.
Proof.
  intros [Hok Hp Hb] Hok' Hprocs Hjobs Hb'. split; [done| |done].
  intros i p' Hp' Hf Hd n [Hn1 Hn2]. destruct (Hprocs i p' Hp') as (p&Hpi&Er&Hff&Hdd&Hs&Hh).
  destruct (Hs Hf n Hn2) as [Hn|?]; [|by right].
  destruct (Hp i p Hpi (Hff Hf) (Hdd Hd) n) as [?|(j&Hj&<-)]; [done|left; rewrite Er; auto|].
  destruct (Hjobs i j p' Hj Hp' Hf Hd); [right; eauto|by left].
Qed.

(** Steps that leave the collectors alone and keep what is held. *)
Lemma pool_safe_same st st' : pool_safe st → pool_ok cfg st' → procs st' = procs st →
  (∀ r n, held (store st) r n → held (store st') r n) → jobs st' ≡ₚ jobs st → busy_safe st' → pool_safe st'.
Proof.
  intros Hst Hok Ep Hh Ej Hb. apply (pool_safe_frame st); try done.
  - intros i p'. rewrite Ep. intros Hp. exists p'. split_and!; auto.
  - intros i j p' Hj _ _ _. left. by rewrite Ej.
Qed.

(** Steps of one collector on an unchanged store. *)
Lemma pool_safe_proc st i p p' : pool_safe st → procs st !! i = Some p → pool_ok cfg (set_proc st i p') →
  c_requestID (coll p') = c_requestID (coll p) → c_seq (coll p') = c_seq (coll p) →
  failed (coll p') = failed (coll p) → deleted p' = deleted p → pool_safe (set_proc st i p').
Proof.
  intros Hst Hp Hok Er Es Ef Ed.
  assert (∀ j q', procs (set_proc st i p') !! j = Some q' → ∃ q, procs st !! j = Some q ∧
    c_requestID (coll q') = c_requestID (coll q) ∧ c_seq (coll q') = c_seq (coll q) ∧
    failed (coll q') = failed (coll q) ∧ deleted q' = deleted q) as Hq.
  { intros j q'. cbn. destruct (decide (j = i)) as [->|Hne].
    - rewrite list_lookup_insert_eq by (by eapply lookup_lt_Some). intros [= <-]. by exists p.
    - rewrite list_lookup_insert_ne by done. intros Hq'. by exists q'. }
  apply (pool_safe_frame st); try done.
  - intros j q' (q&Hqj&E1&E2&E3&E4)%Hq. exists q. rewrite E1, E2, E3, E4. split_and!; auto.
  - intros j x q' Hx _ _ _. by left.
  - intros j q' Hj (q&Hqj&_&_&_&E4)%Hq. rewrite E4. by apply (safe_busy st Hst).
Qed.

Lemma set_proc_lookup st i p q j : procs st !! i = Some p →
  procs (set_proc st i q) !! j = if decide (j = i) then Some q else procs st !! j.
Proof.
  intros Hp. cbn. case_decide; subst; [apply list_lookup_insert_eq; by eapply lookup_lt_Some|].
  by apply list_lookup_insert_ne.
Qed.

Lemma write_safe st i p b q c called : pool_safe st → procs st !! i = Some p → ph p = Copying →
  c_seq (coll p) < 2 ^ 63 - 1 → write_begin cfg (queue st) i (coll p) b = Some (q, c, called) →
  pool_safe (set_proc (set_queue st q) i (after_write p b c called)).
Proof.
  intros Hst Hp Hph Hbound Hw. pose proof (write_keeps cfg st i p b q c called (safe_ok st Hst) Hp Hph Hbound Hw) as Hok.
  apply write_begin_cases in Hw as (Hs&Hf&Hsc&Hr&_&Hcase&_).
  assert (coll (after_write p b c called) = c) as Ec.
  { unfold after_write, write_end. cbn. by destruct called; rewrite ?Hsc. }
  assert (Hsub : ∀ j, j ∈ jobs st → j ∈ q ++ (busy st).*1).
  { intros j Hj. unfold jobs in Hj. inversion Hcase; subst q; set_solver. }
  assert (∀ j, procs (set_proc (set_queue st q) i (after_write p b c called)) !! j
    = if decide (j = i) then Some (after_write p b c called) else procs st !! j) as Hl.
  { intros j. by apply (set_proc_lookup (set_queue st q)) with (p := p). }
  apply (pool_safe_frame st); try done.
  - intros j q'. rewrite Hl. case_decide as Hj; [subst j|intros Hq; exists q'; split_and!; auto].
    intros [= <-]. exists p. rewrite Ec. split_and!; try done. intros Hfc n Hn.
    inversion Hcase as [E1 E2 E3|E1 E2 E3|E1 E2 E3]; [left; lia| |congruence].
    destruct (decide (n <= c_seq (coll p))); [by left|right]. eexists. split.
    + apply owned_elem. split; [|unfold jobs; cbn; apply elem_of_app; left; apply elem_of_app; right; apply list_elem_of_singleton; reflexivity].
      done.
    + cbn. lia.
  - intros j x q' [Ho Hx]%owned_elem _ _ _. left. apply owned_elem. split; [done|]. unfold jobs. cbn. by apply Hsub.
  - intros j q' Hj. rewrite Hl. cbn. case_decide as Hi.
    + intros [= <-]. cbn. apply (safe_busy st Hst j p); [done|]. by rewrite Hi.
    + by apply (safe_busy st Hst).
Qed.
Lemma settle_safe st k job err p : pool_safe st → busy st !! k = Some (job, Some err) →
  procs st !! owner job = Some p →
  pool_safe (set_proc (set_busy st (delete k (busy st))) (owner job) (set_coll p (worker_settle err (coll p)))).
Proof.
  intros Hst Hk Hp. set (p' := set_coll p (worker_settle err (coll p))).
  pose proof (settle_keeps cfg st k job err p (safe_ok st Hst) Hk Hp) as Hok.
  assert (busy st ≡ₚ (job, Some err) :: delete k (busy st)) as Eb by by apply delete_Permutation.
  assert (∀ j, procs (set_proc (set_busy st (delete k (busy st))) (owner job) p') !! j
    = if decide (j = owner job) then Some p' else procs st !! j) as Hl.
  { intros j. by apply (set_proc_lookup (set_busy st _)) with (p := p). }
  assert (c_requestID (coll p') = c_requestID (coll p) ∧ c_seq (coll p') = c_seq (coll p) ∧
    (failed (coll p') = false → failed (coll p) = false ∧ err = false)) as (E1&E2&E3).
  { unfold p', worker_settle. by destruct err. }
  apply (pool_safe_frame st); try done.
  - intros j q'. rewrite Hl. case_decide as Hj; [subst j|intros Hq; exists q'; split_and!; auto].
    intros [= <-]. exists p. rewrite E1, E2. split_and!; auto. intros Hf. by apply E3.
  - intros j x q' [Ho Hx]%owned_elem. rewrite Hl. unfold jobs in Hx. rewrite Eb in Hx. cbn in Hx.
    rewrite <-Permutation_middle in Hx. apply elem_of_cons in Hx as [->|Hx].
    + rewrite decide_True by done. intros [= <-] Hf Hd. right. destruct (E3 Hf) as [_ ->].
      destruct (job_owner cfg st job (safe_ok st Hst)) as (p2&Hp2&Er&_); [by eapply busy_job|].
      assert (p2 = p) as -> by congruence. rewrite E1, <-Er. cbn.
      apply (safe_busy st Hst job p); [|done|done]. by eapply list_elem_of_lookup_2.
    + intros _ _ _. left. apply owned_elem. split; [done|exact Hx].
  - intros j q' Hj. rewrite Hl. cbn in Hj |- *. case_decide as Hi.
    + intros [= <-]. cbn. intros Hd. apply (safe_busy st Hst j p); [|by rewrite Hi|done]. rewrite Eb. by right.
    + intros Hq Hd. apply (safe_busy st Hst j q'); [|done|done]. rewrite Eb. by right.
Qed.

Lemma put_safe st k job s err : pool_safe st → busy st !! k = Some (job, None) →
  worker_put cfg job (store st) = (s, err) →
  pool_safe (set_busy (set_store st s) (<[k := (job, Some err)]> (busy st))).
Proof.
  intros Hst Hk Hw. pose proof (busy_job st k job None Hk) as Hjob.
  apply (pool_safe_same st); try done; [by apply put_keeps; [apply Hst|..]| | |].
  - intros r n Hh. cbn. pose proof (worker_put_holds job (store st) r n Hh) as Hp. by rewrite Hw in Hp.
  - by rewrite put_jobs.
  - intros j p Hj Hp Hd. cbn in *. apply list_elem_of_lookup_1 in Hj as [k' Hj].
    destruct (decide (k' = k)) as [->|Hne].
    + rewrite list_lookup_insert_eq in Hj by (by eapply lookup_lt_Some). injection Hj as <- ->.
      pose proof (worker_put_held job (store st)) as Hh. rewrite Hw in Hh. apply Hh; [|done].
      by eapply (job_seq_bound cfg), Hjob; apply Hst.
    + rewrite list_lookup_insert_ne in Hj by done.
      pose proof (worker_put_holds job (store st) (requestID j) (seq j)) as Hh. rewrite Hw in Hh. apply Hh.
      apply (safe_busy st Hst j p); [|done|done]. by eapply list_elem_of_lookup_2.
Qed.

Lemma read_safe st i p s r stats : pool_safe st → procs st !! i = Some p →
  finalize_read (coll p) (store st) = (s, r, stats) →
  pool_ok cfg (set_proc (set_store st s) i (after_finalize p r true)) →
  pool_safe (set_proc (set_store st s) i (after_finalize p r true)).
Proof.
  intros Hst Hp Er Hok.
  assert (∀ j, procs (set_proc (set_store st s) i (after_finalize p r true)) !! j
    = if decide (j = i) then Some (after_finalize p r true) else procs st !! j) as Hl.
  { intros j. by apply (set_proc_lookup (set_store st s)) with (p := p). }
  assert (∀ j q, procs st !! j = Some q → j ≠ i → ∀ n, held (store st) (c_requestID (coll q)) n →
    held s (c_requestID (coll q)) n) as Hkeep.
  { intros j q Hq Hne n Hh. pose proof (finalize_read_holds (coll p) (store st) (c_requestID (coll q)) n) as Hr.
    rewrite Er in Hr. apply Hr; [|done]. intros E. apply Hne. by eapply (rids_distinct cfg); [apply Hst|..]. }
  assert (deleted (after_finalize p r true) = true) as Ed by (cbn; apply orb_true_r).
  assert (c_requestID (coll (after_finalize p r true)) = c_requestID (coll p) ∧
    c_seq (coll (after_finalize p r true)) = c_seq (coll p) ∧ failed (coll (after_finalize p r true)) = failed (coll p)) as (E1&E2&E3).
  { unfold after_finalize, write_end. cbn. by destruct (ph p), (sealed (coll p)). }
  apply (pool_safe_frame st); try done.
  - intros j q'. rewrite Hl. case_decide as Hj.
    + subst j. intros [= <-]. exists p. rewrite E1, E2, E3, Ed. split_and!; auto; done.
    + intros Hq. exists q'. split_and!; auto. intros _ n. by apply (Hkeep j).
  - intros j x q' Hx _ _ _. by left.
  - intros j q' Hj. rewrite Hl. cbn in Hj |- *. case_decide as Hi; [intros [= <-]; by rewrite Ed|].
    intros Hq Hd. pose proof (safe_busy st Hst j q' Hj Hq Hd) as Hh.
    destruct (job_owner cfg st j (safe_ok st Hst)) as (q&Hq2&Erq&_).
    { apply list_elem_of_lookup_1 in Hj as [k Hj]. by eapply busy_job. }
    assert (q = q') as -> by congruence. rewrite Erq in *. by apply (Hkeep (owner j)).
Qed.

Lemma exec_safe e st st' : pool_safe st → exec cfg e st = Some st' → pool_safe st'.
Proof.
  intros Hst E. pose proof (exec_keeps cfg e st st' (safe_ok st Hst) E) as Hok. step_cases E.
  - done.
  - by apply write_safe.
  - by apply (pool_safe_proc st a pa).
  - apply (pool_safe_proc st a pa); try done; unfold after_finalize, write_end; cbn;
      destruct Hph as [E|E]; rewrite ?E, ?orb_false_r; by destruct (sealed (coll pa)).
  - by apply (pool_safe_proc st a pa).
  - by eapply read_safe.
  - apply (pool_safe_same st); try done; [by apply take_jobs|].
    intros j p Hj. apply (safe_busy st Hst). cbn in Hj. by apply elem_of_app in Hj as [?|Hj%list_elem_of_singleton].
  - by eapply put_safe.
  - by eapply settle_safe.
  - apply (pool_safe_same st); try done; [intros r n; by apply session_op_held|].
    intros j p Hj Hp Hd. cbn. apply session_op_held; [done|]. by apply (safe_busy st Hst j p).
  - apply (pool_safe_same st); try done. apply (safe_busy st Hst).
  - apply (pool_safe_same st); try done. apply (safe_busy st Hst).
Qed.

Lemma execs_safe es st st' : pool_safe st → execs cfg es st = Some st' → pool_safe st'.
Proof.
  revert st. induction es as [|e es IH]; intros st Hst; cbn; [by intros [= <-]|].
  destruct (exec cfg e st) as [st1|] eqn:E; [|done]. cbn. apply IH. by eapply exec_safe.
Qed.

Lemma init_safe s n reqs : NoDup reqs.*1 → (∀ rid, rid ∈ reqs.*1 → ∀ k d, ¬ page_at s rid k d) →
  pool_safe (init cfg s n reqs).
Proof.
  intros Hnd Hs. pose proof (init_ok cfg s n reqs Hnd Hs) as Hok. split; [done| |].
  - intros i p Hp _ _ k Hk. pose proof (po_seq _ _ _ _ (ok_procs cfg _ Hok i p Hp)) as [Hseq _].
    cbn in Hp. change (map ?f ?l) with (f <$> l) in Hp. rewrite list_lookup_fmap in Hp.
    destruct (reqs !! i) as [[rid d]|] eqn:E; [|done]. injection Hp as <-. cbn in Hk. lia.
  - intros j p Hj%elem_of_nil. done.
Qed.
End lossless.

(** ** Assembling the pages *)

(** The pages a map holds under [n] numbers from [a] on, in their order. *)
Definition found (m : gmap Z bytes) (a n : Z) : list bytes := omap (λ k, m !! k) (seqZ a n).

Lemma seqZ_sorted a n : StronglySorted Z.le (seqZ a (Z.of_nat n)).
Proof.
  revert a. induction n as [|n IH]; intros a; [constructor|]. rewrite seqZ_cons by lia.
  replace (Z.pred (Z.of_nat (Datatypes.S n))) with (Z.of_nat n) by lia. constructor; [apply IH|].
  apply Forall_forall. intros k Hk%elem_of_seqZ. lia.
Qed.

Lemma StronglySorted_filter {A} (R : relation A) (P : A → Prop) `{∀ x, Decision (P x)} l :
  StronglySorted R l → StronglySorted R (filter P l).
Proof.
  induction 1 as [|x l Hl IH Hx]; [constructor|]. rewrite filter_cons. case_decide; [|done].
  constructor; [done|]. rewrite Forall_forall in *. intros y [_ Hy]%list_elem_of_filter. by apply Hx.
Qed.

Lemma filter_omap (m : gmap Z bytes) l : map (λ k, default [] (m !! k)) (filter (λ k, is_Some (m !! k)) l) = omap (λ k, m !! k) l.
Proof.
  induction l as [|k l IH]; [done|]. rewrite filter_cons. cbn [omap list_omap]. destruct (m !! k) as [d|] eqn:E.
  - rewrite decide_True by done. cbn. by rewrite E, IH.
  - rewrite decide_False by (by intros []). exact IH.
Qed.

(** The pages are put together in the order of their numbers; a number that is
    missing leaves no gap. *)
Lemma assemble_found (m : gmap Z bytes) n tl : (∀ k, is_Some (m !! k) → 1 <= k <= Z.of_nat n) →
  assemble m tl = concat (found m 1 (Z.of_nat n)) ++ tl.
Proof.
  intros Hdom. unfold assemble, found. do 2 f_equal. rewrite <-filter_omap. f_equal.
  apply (StronglySorted_unique Z.le);
    [apply StronglySorted_merge_sort, _; exact Z.le_trans|apply StronglySorted_filter, seqZ_sorted|].
  rewrite (merge_sort_Permutation Z.le). apply NoDup_Permutation; [apply NoDup_fst_map_to_list|apply NoDup_filter, NoDup_seqZ|].
  intros k. rewrite list_elem_of_filter, elem_of_seqZ. split.
  - intros ([k' d]&->&Hd%elem_of_map_to_list)%list_elem_of_fmap. cbn. assert (is_Some (m !! k')) as Hk by eauto.
    specialize (Hdom k' Hk). split; [done|lia].
  - intros ((d&Hd)&_). apply list_elem_of_fmap. exists (k, d). split; [done|]. by apply elem_of_map_to_list.
Qed.

(** Of the pages [ps], numbered from [a] on, all are found or bytes are missing. *)
Lemma found_pages (m : gmap Z bytes) a (ps : list bytes) :
  (∀ j d, m !! (a + Z.of_nat j) = Some d → ps !! j = Some d) →
  let n := Z.of_nat (length ps) in
  ((∀ k, a <= k < a + n → is_Some (m !! k)) → found m a n = ps) ∧
  (length (concat (found m a n)) <= length (concat ps))%nat ∧
  ∀ k, a <= k < a + n → m !! k = None → Forall (λ d, d ≠ []) ps →
    (length (concat (found m a n)) < length (concat ps))%nat.
Proof.
  cbn zeta. unfold found. revert a. induction ps as [|d ps IH]; intros a Hj; [split_and!; [done|done|cbn [length]; lia]|].
  destruct (IH (Z.succ a)) as (Hall&Hle&Hlt); clear IH.
  { intros j e He. apply (Hj (Datatypes.S j)). by replace (a + Z.of_nat (Datatypes.S j)) with (Z.succ a + Z.of_nat j) by lia. }
  cbn [length]. rewrite seqZ_cons by lia. replace (Z.pred (Z.of_nat (Datatypes.S (length ps)))) with (Z.of_nat (length ps)) by lia.
  cbn [omap list_omap]. specialize (Hj 0%nat). replace (a + Z.of_nat 0) with a in Hj by lia.
  destruct (m !! a) as [e|] eqn:Ea.
  - specialize (Hj e eq_refl). injection Hj as ->. cbn [concat]. rewrite !length_app. split_and!; [|lia|].
    + intros Hk. rewrite Hall; [done|]. intros k ?. apply Hk. lia.
    + intros k Hk Hm Hne%Forall_cons_1. enough (length (concat (omap (λ k, m !! k) (seqZ (Z.succ a) (Z.of_nat (length ps))))) < length (concat ps))%nat by lia.
      destruct (decide (k = a)) as [->|]; [congruence|]. apply (Hlt k); [lia|done|apply Hne].
  - cbn [concat]. rewrite length_app. split_and!; [|lia|].
    + intros Hk. destruct (Hk a) as [e He]; [lia|congruence].
    + intros k Hk _ [Hd _]%Forall_cons_1. destruct d; [done|]. cbn [length]. lia.
Qed.

(** The pages read are the request's own, in the order of their numbers. *)
Lemma read_found {S} `{StoreSpec S} cfg (st : @state S) i p m : pool_ok cfg st → procs st !! i = Some p →
  (GetPages (c_requestID (coll p)) (store st)).2 = Ok m →
  c_seq (coll p) = Z.of_nat (length (pages p)) ∧
  assemble m (tail (coll p)) = concat (found m 1 (c_seq (coll p))) ++ tail (coll p) ∧
  ∀ j d, m !! (1 + Z.of_nat j) = Some d → pages p !! j = Some d.
Proof.
  intros Hst Hp Hg. destruct (ok_procs cfg st Hst i p Hp) as [[Hseq _] _ _ Hpages _ _ _ _].
  assert (∀ n d, m !! n = Some d → 1 <= n ∧ page p n = Some d) as Hm.
  { intros n d Hn. apply Hpages. eapply GetPages_found; [|exact Hn]. by apply surjective_pairing_2. }
  split_and!; [done| |].
  - rewrite Hseq. apply assemble_found. intros n [d Hn]. destruct (Hm n d Hn) as [? Hpg%lookup_lt_Some]. lia.
  - intros j d [_ Hd]%Hm. unfold page in Hd. by replace (Z.to_nat (1 + Z.of_nat j - 1)) with j in Hd by lia.
Qed.

Section exact.
Context {S : Type} `{StoreSpec S, !PersistentPages S}.
Context (cfg : Config) (Httl : 0 < TTL cfg).

(** With nothing in flight and the cache not failed, every page is read. *)
Lemma read_complete (st : @state S) i p m k : pool_safe cfg st → procs st !! i = Some p →
  inflight (coll p) = 0 → failed (coll p) = false → results p = [] →
  (GetPages (c_requestID (coll p)) (store st)).2 = Ok m → 1 <= k <= c_seq (coll p) → is_Some (m !! k).
Proof.
  intros Hst Hp Hin Hf Hr Hg Hk. destruct (ok_procs cfg st (safe_ok cfg st Hst) i p Hp) as [[_ Hb] Hinf _ _ _ _ _ Hfirst].
  destruct (Hfirst Hr) as [Hd _]. assert (owned i (jobs st) = []) as Ho by (apply nil_length_inv; lia).
  destruct (safe_procs cfg st Hst i p Hp Hf Hd k Hk) as [Hh|(j&Hj&_)]; [|by rewrite Ho in Hj; apply elem_of_nil in Hj].
  eapply GetPages_held; [|exact Hg|exact Hh]. unfold page_seq. lia.
Qed.

(** So the payload is what was written. *)
Lemma read_exact (st : @state S) i p m : pool_safe cfg st → procs st !! i = Some p →
  inflight (coll p) = 0 → failed (coll p) = false → results p = [] →
  (GetPages (c_requestID (coll p)) (store st)).2 = Ok m →
  assemble m (tail (coll p)) = written p.
Proof.
  intros Hst Hp Hin Hf Hr Hg. destruct (read_found cfg st i p m (safe_ok cfg st Hst) Hp Hg) as (Hseq&->&Hj).
  destruct (ok_procs cfg st (safe_ok cfg st Hst) i p Hp) as [_ _ _ _ Htail _ _ Hfirst].
  rewrite <-(Htail (proj2 (Hfirst Hr))), Hseq. do 2 f_equal. apply (found_pages m 1 _ Hj).
  intros k Hk. eapply read_complete; [done..|lia].
Qed.
End exact.

(** ** Draining the queue *)

(** The steps of the page workers. *)
Definition worker_event (e : event) : Prop :=
  match e with ETake | EPut _ | ESettle _ => True | _ => False end.

Section drain.
Context {S : Type} `{StoreSpec S}.
Context (cfg : Config).

Lemma settle_one (st : @state S) k job err : pool_ok cfg st → busy st !! k = Some (job, Some err) →
  ∃ st', exec cfg (ESettle k) st = Some st' ∧ queue st' = queue st ∧ busy st' = delete k (busy st) ∧ workers st' = workers st.
Proof.
  intros Hst Hk. destruct (job_owner cfg st job Hst (busy_job _ _ _ _ Hk)) as (p&Hp&_).
  eexists. cbn. rewrite Hk. cbn. by rewrite Hp.
Qed.

(** A taken job can be written and settled. *)
Lemma finish_one (st : @state S) job err rest : pool_ok cfg st → busy st = (job, err) :: rest →
  ∃ es st', Forall worker_event es ∧ execs cfg es st = Some st' ∧
    queue st' = queue st ∧ busy st' = rest ∧ workers st' = workers st.
Proof.
  intros Hst Hb. destruct err as [err|].
  - destruct (settle_one st 0 job err Hst) as (st'&E&Hq&Hbs&Hw); [by rewrite Hb|].
    exists [ESettle 0], st'. cbn [execs]. rewrite E. split_and!; try done; [by repeat constructor|]. by rewrite Hbs, Hb.
  - destruct (worker_put cfg job (store st)) as [s e] eqn:Ew.
    set (st1 := set_busy (set_store st s) (<[0%nat := (job, Some e)]> (busy st))).
    assert (exec cfg (EPut 0) st = Some st1) as E1. { cbn. rewrite Hb. cbn. rewrite Ew. unfold st1. by rewrite Hb. }
    pose proof (exec_keeps cfg _ _ _ Hst E1) as Hst1.
    destruct (settle_one st1 0 job e Hst1) as (st'&E&Hq&Hbs&Hw); [unfold st1; cbn; by rewrite Hb|].
    exists [EPut 0; ESettle 0], st'. cbn [execs]. rewrite E1. cbn [mbind option_bind execs]. rewrite E.
    split_and!; try done; [by repeat constructor|]. rewrite Hbs. unfold st1. cbn. by rewrite Hb.
Qed.

Lemma finish_all (st : @state S) : pool_ok cfg st →
  ∃ es st', Forall worker_event es ∧ execs cfg es st = Some st' ∧
    queue st' = queue st ∧ busy st' = [] ∧ workers st' = workers st.
Proof.
  intros Hst. remember (busy st) as b eqn:Eb. revert st Hst Eb. induction b as [|[job err] b IH]; intros st Hst Eb.
  { by exists [], st. }
  destruct (finish_one st job err b Hst (eq_sym Eb)) as (es&st1&Hes1&E1&Hq1&Hb1&Hw1).
  destruct (IH st1) as (es2&st2&Hes2&E2&Hq2&Hb2&Hw2); [by eapply execs_keep|done|].
  exists (es ++ es2), st2. rewrite execs_app, E1. cbn. rewrite E2. split_and!; try congruence. by apply Forall_app.
Qed.

Lemma drain_all (st : @state S) : pool_ok cfg st → (0 < workers st)%nat →
  ∃ es st', Forall worker_event es ∧ execs cfg es st = Some st' ∧
    queue st' = [] ∧ busy st' = [] ∧ workers st' = workers st.
Proof.
  intros Hst Hw. remember (queue st) as q eqn:Eq. revert st Hst Hw Eq.
  induction q as [|job q IH]; intros st Hst Hw Eq; destruct (finish_all st Hst) as (es&st1&Hes1&E1&Hq1&Hb1&Hw1).
  { exists es, st1. split_and!; congruence || done. }
  pose proof (execs_keep cfg _ _ _ Hst E1) as Hst1.
  assert (exec cfg ETake st1 = Some (set_busy (set_queue st1 q) [(job, None)])) as E2.
  { unfold exec. rewrite Hb1, Hq1, <-Eq. cbn [length app]. destruct (Nat.ltb_spec 0 (workers st1)); [done|lia]. }
  destruct (IH (set_busy (set_queue st1 q) [(job, None)])) as (es3&st3&Hes3&E3&?&?&?);
    [by eapply exec_keeps|cbn; lia|done|].
  exists (es ++ ETake :: es3), st3. rewrite execs_app, E1. cbn [mbind option_bind execs]. rewrite E2.
  cbn [mbind option_bind]. rewrite E3. split_and!; try done; [|cbn in *; congruence].
  apply Forall_app. split; [done|]. by constructor.
Qed.
End drain.

(** ** Properties *)

Section redis.
Context {W : Type} `{redis W, !redis_laws W}.

(** The states a run over a Redis without pages of these requests reaches. *)
Definition reachable (cfg : Config) (s0 : RedisStore W) (n : nat) (reqs : list (bytes * bool)) (st : @state (RedisStore W)) : Prop :=
  NoDup reqs.*1 ∧ (∀ rid, rid ∈ reqs.*1 → hash_at (rdb s0) (TempKey rid) = ∅) ∧
  ∃ es, execs cfg es (init cfg s0 n reqs) = Some st.

Lemma no_pages (s0 : RedisStore W) (reqs : list (bytes * bool)) : (∀ rid, rid ∈ reqs.*1 → hash_at (rdb s0) (TempKey rid) = ∅) →
  ∀ rid, rid ∈ reqs.*1 → ∀ k d, ¬ page_at s0 rid k d.
Proof. intros Hs rid Hr k d (f&_&Hf). by rewrite Hs, lookup_empty in Hf. Qed.

Lemma reachable_ok cfg s0 n reqs st : reachable cfg s0 n reqs st → pool_ok cfg st.
Proof.
  intros (Hnd&Hs&es&E). eapply execs_keep; [|exact E]. apply init_ok; [done|by apply no_pages].
Qed.

Lemma reachable_safe `{!redis_persistent W} cfg s0 n reqs st : 0 < TTL cfg →
  reachable cfg s0 n reqs st → pool_safe cfg st.
Proof.
  intros Ht (Hnd&Hs&es&E). eapply execs_safe; [done| |exact E]. apply init_safe; [done|by apply no_pages].
Qed.
End redis.

(** [C9] The first finalization of a request sees exactly what was written: in
    every interleaving of writers, page workers and other requests over a Redis
    that does not expire pages, if no page of the request has failed when the
    pages are read, the outcome is that of the complete byte sequence accepted
    by [Write] (or reading the pages failed). *)
Theorem finalize_exact {W} `{redis_laws W, !redis_persistent W} cfg (s0 : RedisStore W) n reqs st st' i p :
  0 < TTL cfg → reachable cfg s0 n reqs st → procs st !! i = Some p → results p = [] →
  failed (coll p) = false → exec cfg (ERead i) st = Some st' →
  ∃ p', procs st' !! i = Some p' ∧
    (results p' = [message_of (written p)] ∨ results p' = [Err err_read_pages]).
Proof.
  intros Ht Hreach Hp Hr Hf. pose proof (reachable_safe cfg s0 n reqs st Ht Hreach) as Hsafe.
  cbn [exec]. rewrite Hp. cbn [mbind option_bind].
  assert (inflight (coll p) = 0 → finalize_read (coll p) (store st)
    = (let '(s, r, stats) := finalize_read (coll p) (store st) in (s, r, stats)) ∧
    ((finalize_read (coll p) (store st)).1.2 = message_of (written p) ∨
     (finalize_read (coll p) (store st)).1.2 = Err err_read_pages)) as Hread.
  { intros Hin. split; [by destruct (finalize_read _ _) as [[? ?] ?]|].
    pose proof (λ m, read_exact cfg st i p m Hsafe Hp Hin Hf Hr) as Hexact. unfold finalize_read.
    destruct (GetPages _ (store st)) as [s1 [m|e]]; [|by right]. left.
    rewrite (Hexact m eq_refl). by destruct (DeletePages _ s1). }
  intros E. assert (inflight (coll p) = 0) as Hin.
  { destruct (ph p) as [|[]|[]|]; try done; destruct (Z.eqb_spec (inflight (coll p)) 0); done. }
  destruct (Hread Hin) as [_ Hres]. rewrite Hin in E. cbn [Z.eqb] in E.
  destruct (finalize_read (coll p) (store st)) as [[s r] stats]. cbn [fst snd] in Hres.
  assert (st' = set_proc (set_store st s) i (after_finalize p r true)) as ->.
  { destruct (ph p) as [|[]|[]|]; by simplify_eq. }
  eexists. split; [apply list_lookup_insert_eq; by eapply lookup_lt_Some|].
  cbn. rewrite Hr. destruct Hres as [->| ->]; [by left|by right].
Qed.

Definition sample_cfg : Config := {| PageSize := 100; TTL := 1; OpTimeout := 1; MaxPendingPages := 4 |}.

(** A message in two pieces: the first fills a page, the second stays in RAM. *)
Definition piece1 : bytes := encode_chunk (text_piece (str "The quick brown fox jumps over the lazy dog. Pack my box with five dozen jugs. ")).
Definition piece2 : bytes := encode_chunk (text_piece (str "End.")) ++ str "data: [DONE]" ++ [10].

(** Both writes, the early finalizer's check, then the worker's write of the page. *)
Definition sample_events : list event :=
  [EWrite 0 piece1; EWrite 0 piece2; ECheck 0; ETake; EPut 0; ESettle 0].

Definition run_sample (plan : list bool) (es : list event) : @state (RedisStore MemRedis) :=
  default (init sample_cfg (mem_store_with plan) 1 []) (execs sample_cfg es (init sample_cfg (mem_store_with plan) 1 [(str "r", true)])).

Lemma sample_reachable plan es st : execs sample_cfg es (init sample_cfg (mem_store_with plan) 1 [(str "r", true)]) = Some st →
  reachable sample_cfg (mem_store_with plan) 1 [(str "r", true)] st.
Proof. intros E. split_and!; [apply NoDup_singleton|done|by exists es]. Qed.

Definition sample_proc (st : @state (RedisStore MemRedis)) : proc :=
  default (new_proc sample_cfg [] false) (procs st !! 0%nat).

Lemma finalize_exact_witness :
  let st := run_sample [] sample_events in
  let p := sample_proc st in
  ∃ p', procs (run_sample [] (sample_events ++ [ERead 0])) !! 0%nat = Some p' ∧
    (results p' = [message_of (written p)] ∨ results p' = [Err err_read_pages]).
Proof.
  refine (finalize_exact sample_cfg (mem_store_with []) 1 [(str "r", true)] (run_sample [] sample_events) _ 0
    (sample_proc (run_sample [] sample_events)) _ (sample_reachable [] sample_events _ _) _ _ _ _);
    vm_compute; reflexivity.
Defined.

(** [C23] Accounting and bounds in every reachable state: the queue never exceeds
    its capacity and no more pages are being written than there are workers; a
    collector's wait-group counter is exactly the number of its pages queued or
    being written, so it never becomes negative; and between two writes the RAM
    page is below the page size and the carried line below 1 MiB. *)
Theorem pool_bounds {W} `{redis_laws W} cfg (s0 : RedisStore W) n reqs st i p :
  reachable cfg s0 n reqs st → procs st !! i = Some p →
  Z.of_nat (length (queue st)) <= Z.max 0 (MaxPendingPages cfg) ∧ (length (busy st) <= workers st)%nat ∧
  inflight (coll p) = Z.of_nat (length (owned i (jobs st))) ∧
  (ph p = Copying → Z.of_nat (length (tail (coll p))) < Z.max 1 (pageSize (coll p)) ∧
    (sealed (coll p) = false → Z.of_nat (length (scanBuf (coll p))) <= scan_cap)).
Proof.
  intros Hst%reachable_ok Hp. pose proof (ok_procs cfg st Hst i p Hp) as [].
  split_and!; [apply Hst..|done|done].
Qed.

Lemma pool_bounds_witness :
  let st := run_sample [] (take 3 sample_events) in
  inflight (coll (sample_proc st)) = Z.of_nat (length (owned 0 (jobs st))) ∧ inflight (coll (sample_proc st)) = 1.
Proof.
  split; [|vm_compute; reflexivity].
  refine (proj1 (proj2 (proj2 (pool_bounds sample_cfg (mem_store_with []) 1 [(str "r", true)] _ 0 _
    (sample_reachable [] (take 3 sample_events) _ _) _)))); vm_compute; reflexivity.
Defined.

(** [C24] The wait of a finalizer ends: from every reachable state with a live
    worker, steps of the workers alone lead to a state in which nothing is
    queued or being written and every collector's counter is zero. *)
Theorem wait_ends {W} `{redis_laws W} cfg (s0 : RedisStore W) n reqs st :
  reachable cfg s0 n reqs st → (0 < workers st)%nat →
  ∃ es st', Forall worker_event es ∧ execs cfg es st = Some st' ∧ queue st' = [] ∧ busy st' = [] ∧
    ∀ i p, procs st' !! i = Some p → inflight (coll p) = 0.
Proof.
  intros Hst%reachable_ok Hw. destruct (drain_all cfg st Hst Hw) as (es&st'&Hes&E&Hq&Hb&_).
  exists es, st'. split_and!; [done..|]. intros i p Hp.
  pose proof (execs_keep cfg es st st' Hst E) as Hst'.
  rewrite (po_inflight _ _ _ _ (ok_procs cfg st' Hst' i p Hp)). unfold jobs. by rewrite Hq, Hb.
Qed.

Lemma wait_ends_witness : ∃ es st', Forall worker_event es ∧
  execs sample_cfg es (run_sample [] (take 3 sample_events)) = Some st' ∧ queue st' = [] ∧ busy st' = [] ∧
  ∀ i p, procs st' !! i = Some p → inflight (coll p) = 0.
Proof.
  refine (wait_ends sample_cfg (mem_store_with []) 1 [(str "r", true)] _
    (sample_reachable [] (take 3 sample_events) _ _) _); [vm_compute; reflexivity|].
  apply Nat.ltb_lt. vm_compute. reflexivity.
Defined.

(** The pages a finalizer reads are the request's own: with any failures and
    any expiry, what [GetPages] returns under a page number is the page this
    collector submitted under that number, never bytes of another request. *)
Lemma finalize_own_pages {W} `{redis_laws W} cfg (s0 : RedisStore W) n reqs st i p m k d :
  reachable cfg s0 n reqs st → procs st !! i = Some p →
  (redis_GetPages (c_requestID (coll p)) (store st)).2 = Ok m → m !! k = Some d →
  1 <= k ∧ pages p !! Z.to_nat (k - 1) = Some d.
Proof.
  intros Hst%reachable_ok Hp Hm Hk. apply (po_store _ _ _ _ (ok_procs cfg st Hst i p Hp)).
  eapply GetPages_found; [exact (surjective_pairing_2 _ _ Hm)|exact Hk].
Qed.

(** Pages are cut at the page size or above. *)
Definition full_pages (cfg : Config) (p : proc) : Prop :=
  pageSize (coll p) = PageSize cfg ∧ Forall (λ d, PageSize cfg <= Z.of_nat (length d)) (pages p).

Lemma write_begin_full cfg q i c b q' c' called : write_begin cfg q i c b = Some (q', c', called) →
  c_seq c' = c_seq c ∨ pageSize c <= Z.of_nat (length (tail c ++ b)).
Proof.
  unfold write_begin. destruct (sealed c || failed c); [done|]. cbn [set_tail pageSize tail].
  destruct (Z.leb_spec (pageSize c) (Z.of_nat (length (tail c ++ b)))); [by right|].
  match goal with |- context [watchDone ?d b] => pose proof (watchDone_frame d b) as Hw; destruct (watchDone d b) as [c2 h] end.
  destruct Hw as (_&Hs&_). intros [= _ <- _]. left. exact Hs.
Qed.

Lemma exec_full {S} `{SessionStore S, TempPageStore S, Metered S} cfg e (st st' : @state S) :
  Forall (full_pages cfg) (procs st) → exec cfg e st = Some st' → Forall (full_pages cfg) (procs st').
Proof.
  intros Hall E. pose proof (λ i p, proj1 (Forall_lookup _ _) Hall i p) as Hone.
  step_cases E; cbn; try done; apply Forall_insert; try done; destruct (Hone _ _ Hp) as [Hsz Hpg]; (split; [|try exact Hpg]).
  - apply write_begin_cases in Hw as (_&_&_&_&Hsz'&_). cbn. unfold write_end. destruct called, (sealed c); cbn; congruence.
  - apply write_begin_full in Hw. cbn. destruct (Z.eqb_spec (c_seq c) (c_seq (coll pa))) as [|Hne]; [done|].
    apply Forall_app. split; [done|]. apply Forall_singleton. destruct Hw; [done|lia].
  - exact Hsz.
  - cbn. unfold write_end. by destruct (ph pa), (sealed (coll pa)).
  - exact Hsz.
  - cbn. unfold write_end. by destruct (ph pa), (sealed (coll pa)).
  - by destruct err.
Qed.

(** An invariant of every step holds in every reachable state. *)
Lemma reachable_procs {W} `{redis W} cfg (s0 : RedisStore W) n reqs st (P : proc → Prop) :
  (∀ rid d, P (new_proc cfg rid d)) →
  (∀ e (st st' : @state (RedisStore W)), Forall P (procs st) → exec cfg e st = Some st' → Forall P (procs st')) →
  reachable cfg s0 n reqs st → Forall P (procs st).
Proof.
  intros Hnew Hstep (_&_&es&E). assert (Forall P (procs (init cfg s0 n reqs))) as Hall.
  { cbn. apply Forall_map, Forall_forall. intros [rid d] _. apply Hnew. }
  revert E Hall. generalize (init cfg s0 n reqs). induction es as [|e es IH]; intros st0; cbn [execs].
  - by intros [= <-].
  - bind_some st1 E. intros Es Hall. apply (IH st1 Es). by eapply Hstep.
Qed.

(** [C32] A page lost while [Finalize] waits goes unnoticed: [Finalize] looks at the
    failure flag before it waits for the pages in flight and not again after, and
    never compares what it reads with the number of pages.  In every run over a Redis
    that does not expire pages, whenever a first finalizer has got past the check,
    the wait is over and the pages read lack one that was cut, then the flag is set
    by now, yet the finalizer's outcome is the message of what is left: the pages
    found, in order and without a gap, and the RAM tail - strictly fewer bytes than
    were received. *)
Theorem finalize_misses_lost_page {W} `{redis_laws W, !redis_persistent W} cfg (s0 : RedisStore W) n reqs st i p m k :
  0 < TTL cfg → 0 < PageSize cfg → reachable cfg s0 n reqs st →
  procs st !! i = Some p → ph p = AtDone FinWait ∨ ph p = AtClose FinWait → inflight (coll p) = 0 → results p = [] →
  (redis_GetPages (c_requestID (coll p)) (store st)).2 = Ok m → 1 <= k <= c_seq (coll p) → m !! k = None →
  failed (coll p) = true ∧
  ∃ st' p', exec cfg (ERead i) st = Some st' ∧ procs st' !! i = Some p' ∧ written p' = written p ∧
    let payload := concat (omap (λ k, m !! k) (seqZ 1 (c_seq (coll p)))) ++ tail (coll p) in
    results p' = [message_of payload] ∧
    written p = concat (pages p) ++ tail (coll p) ∧ (∀ k d, m !! k = Some d → pages p !! Z.to_nat (k - 1) = Some d) ∧
    (length payload < length (written p))%nat.
Proof.
  intros Httl Hps Hst Hp Hph Hin Hr Hg Hk Hm. pose proof (reachable_safe cfg s0 n reqs st Httl Hst) as Hsafe.
  pose proof (safe_ok cfg st Hsafe) as Hok. split.
  { destruct (failed (coll p)) eqn:Hf; [done|].
    destruct (read_complete cfg st i p m k Hsafe Hp Hin Hf Hr Hg Hk) as [d Hd]. congruence. }
  destruct (read_found cfg st i p m Hok Hp Hg) as (Hseq&Hpay&Hj).
  pose proof (ok_procs cfg st Hok i p Hp) as [_ _ _ _ Htail _ _ Hfirst]. specialize (Htail (proj2 (Hfirst Hr))).
  assert (Forall (λ d, d ≠ []) (pages p)) as Hne.
  { pose proof (reachable_procs cfg s0 n reqs st (full_pages cfg)) as Hfull. rewrite Forall_lookup in Hfull.
    destruct (λ a b, Hfull a b Hst i p Hp) as [_ Hall]; [by split|intros e st1 st2; apply exec_full|].
    eapply Forall_impl; [exact Hall|]. cbn. intros d Hd ->. cbn in Hd. lia. }
  destruct (finalize_read (coll p) (store st)) as [[s r] stats] eqn:Er.
  assert (r = message_of (assemble m (tail (coll p)))) as ->.
  { change redis_GetPages with (@GetPages (RedisStore W) _) in Hg. unfold finalize_read in Er. destruct (GetPages _ (store st)) as [s1 x]. cbn in Hg. subst x.
    destruct (DeletePages _ s1) as [s2 y]. by injection Er. }
  eexists _, _. split; [apply step_exec; by eapply step_read|]. split; [apply list_lookup_insert_eq; by eapply lookup_lt_Some|].
  split; [done|]. cbn zeta. split_and!.
  - cbn. by rewrite Hr, Hpay.
  - done.
  - intros k' d Hd. by apply (finalize_own_pages cfg s0 n reqs st i p m k' d Hst Hp Hg Hd).
  - rewrite <-Htail, !length_app. enough (length (concat (found m 1 (c_seq (coll p)))) < length (concat (pages p)))%nat by (unfold found in *; lia).
    rewrite Hseq in Hk |- *. apply (found_pages m 1 (pages p) Hj) with (k := k); [lia|done|done].
Qed.

(** The worker's write fails after the check: a message is returned, and it is not
    the one that was streamed. *)
Lemma finalize_misses_lost_page_witness :
  let st := run_sample [false] sample_events in
  let p := sample_proc st in
  let asst := js "{'content':'End.','role':'assistant'}" in
  (is_ok (message_of (written p)) = true ∧ message_of (written p) ≠ Ok asst) ∧
  ∃ st' p', exec sample_cfg (ERead 0) st = Some st' ∧ procs st' !! 0%nat = Some p' ∧ results p' = [Ok asst] ∧ failed (coll p) = true.
Proof.
  intros st p asst. split; [split; vm_compute; done|].
  destruct (finalize_misses_lost_page sample_cfg (mem_store_with [false]) 1 [(str "r", true)] st 0 p ∅ 1)
    as (Hf&st'&p'&E&Hp'&_&Hr&_).
  1-2: vm_compute; reflexivity.
  - apply (sample_reachable [false] sample_events). vm_compute. reflexivity.
  - vm_compute. reflexivity.
  - left. vm_compute. reflexivity.
  - vm_compute. reflexivity.
  - vm_compute. reflexivity.
  - vm_compute. reflexivity.
  - split; vm_compute; discriminate.
  - reflexivity.
  - exists st', p'. split; [exact E|]. split; [exact Hp'|]. split; [rewrite Hr; vm_compute; reflexivity|exact Hf].
Defined.

(** A failed attempt at the sentinel leaves nothing in RAM. *)
Definition tail_dropped (p : proc) : Prop :=
  match ph p with
  | AtDone _ => sealed (coll p) = true
  | Finished => True
  | _ => (sealed (coll p) = true → tail (coll p) = []) ∧ (results p ≠ [] → sealed (coll p) = true)
  end.

Lemma after_finalize_dropped p r del : ph p ≠ Copying → tail_dropped p → tail_dropped (after_finalize p r del).
Proof.
  unfold tail_dropped, after_finalize, write_end. cbn. destruct (ph p); try done. intros _ Hs. rewrite Hs. by split.
Qed.

Lemma exec_dropped {S} `{SessionStore S, TempPageStore S, Metered S} cfg e (st st' : @state S) :
  Forall tail_dropped (procs st) → exec cfg e st = Some st' → Forall tail_dropped (procs st').
Proof.
  intros Hall E. pose proof (λ i p, proj1 (Forall_lookup _ _) Hall i p) as Hone.
  step_cases E; cbn; try done; apply Forall_insert; try done; pose proof (Hone _ _ Hp) as Ht; unfold tail_dropped in Ht |- *; cbn.
  - rewrite Hph in Ht. apply write_begin_cases in Hw as (Hs&_&Hsc&_). destruct called; [done|]. unfold write_end. rewrite Hsc. split; [congruence|].
    intros Hr. destruct Ht as [_ Ht]. rewrite Ht in Hs; done.
  - rewrite Hph in Ht. by destruct (finalized pa).
  - apply (after_finalize_dropped pa (Err err) false); [by destruct Hph as [-> | ->]|exact Ht].
  - by destruct Hph as [Hph|Hph]; rewrite Hph in Ht |- *.
  - apply (after_finalize_dropped pa r true); [by destruct Hph as [-> | ->]|exact Ht].
  - by destruct err, (ph pa).
Qed.

Lemma reachable_dropped {W} `{redis W} cfg (s0 : RedisStore W) n reqs st i p :
  reachable cfg s0 n reqs st → procs st !! i = Some p → tail_dropped p.
Proof.
  intros Hst. eapply Forall_lookup_1, (reachable_procs cfg s0 n reqs); [by split|intros e st1 st2; apply exec_dropped|done].
Qed.

(** [C40] The retry at close of a finalization that failed at the sentinel works on
    less than was received: whatever was still in RAM then is gone, and the
    message is sought in the stored pages alone. *)
Theorem retry_without_tail {W} `{redis_laws W} cfg (s0 : RedisStore W) n reqs st i p s r stats :
  reachable cfg s0 n reqs st → procs st !! i = Some p → ph p = AtClose FinWait → results p ≠ [] →
  finalize_read (coll p) (store st) = (s, r, stats) →
  r = Err err_read_pages ∨ ∃ m, (GetPages (c_requestID (coll p)) (store st)).2 = Ok m ∧ r = message_of (assemble m []).
Proof.
  intros Hst Hp Hph Hr. pose proof (reachable_dropped cfg s0 n reqs st i p Hst Hp) as Ht.
  unfold tail_dropped in Ht. rewrite Hph in Ht. destruct Ht as [Ht Hs]. unfold finalize_read. rewrite (Ht (Hs Hr)).
  destruct (GetPages _ (store st)) as [s1 [m|e]]; [|by intros [= _ <- _]; left].
  destruct (DeletePages _ s1) as [s2 x]. intros [= _ <- _]. right. by exists m.
Qed.

(** Redis fails once, when the pages are read at the sentinel; the retry reads
    them and finds no complete stream, though all of it was received. *)
Definition retry_events : list event := sample_events ++ [ERead 0; EClose 0; ECheck 0].
Definition retry_state : @state (RedisStore MemRedis) := run_sample [true; false] retry_events.
Definition retry_outcome : RedisStore MemRedis * result collector_error bytes * Stats :=
  finalize_read (coll (sample_proc retry_state)) (store retry_state).

Lemma retry_without_tail_witness :
  (retry_outcome.1.2 = Err ErrStreamIncomplete ∧ is_ok (message_of (written (sample_proc retry_state))) = true) ∧
  (retry_outcome.1.2 = Err err_read_pages ∨
   ∃ m, (GetPages (c_requestID (coll (sample_proc retry_state))) (store retry_state)).2 = Ok m ∧
     retry_outcome.1.2 = message_of (assemble m [])).
Proof.
  split; [split; vm_compute; reflexivity|].
  refine (retry_without_tail sample_cfg (mem_store_with [true; false]) 1 [(str "r", true)] retry_state 0
    (sample_proc retry_state) retry_outcome.1.1 retry_outcome.1.2 retry_outcome.2
    (sample_reachable [true; false] retry_events retry_state _) _ _ _ _).
  - vm_compute. reflexivity.
  - vm_compute. reflexivity.
  - vm_compute. reflexivity.
  - vm_compute. discriminate.
  - unfold retry_outcome. by destruct (finalize_read _ _) as [[? ?] ?].
Defined.

(** A finalizer waiting for pages nobody will write any more. *)
Record stuck {S} (i : nat) (p : proc) (st : @state S) : Prop := {
  stuck_workers : workers st = O;
  stuck_busy : busy st = [];
  stuck_proc : procs st !! i = Some p;
}.

(** Without workers nothing is taken. *)
Lemma no_workers {S} `{SessionStore S, TempPageStore S, Metered S} cfg e (st st' : @state S) :
  workers st = O → busy st = [] → exec cfg e st = Some st' → workers st' = O ∧ busy st' = [].
Proof.
  intros Ew Eb E. step_cases E; cbn; rewrite ?Ew, ?Eb in *; try done; cbn in *; lia.
Qed.

Lemma stuck_step {S} `{SessionStore S, TempPageStore S, Metered S} cfg i p (st st' : @state S) e :
  (ph p = AtDone FinWait ∨ ph p = AtClose FinWait) → inflight (coll p) ≠ 0 →
  stuck i p st → exec cfg e st = Some st' → stuck i p st'.
Proof.
  intros Hfp Hin0 [Ew Eb Ei] E. destruct (no_workers cfg e st st' Ew Eb E) as [Ew' Eb']. split; [done..|].
  step_cases E; cbn; rewrite ?Eb in *; try done;
    (rewrite list_lookup_insert_ne; [done|]); intros ->; rewrite Ei in Hp; injection Hp as <-; intuition congruence.
Qed.

Lemma stuck_forever {S} `{SessionStore S, TempPageStore S, Metered S} cfg i p (st : @state S) es st' :
  (ph p = AtDone FinWait ∨ ph p = AtClose FinWait) → inflight (coll p) ≠ 0 → stuck i p st →
  execs cfg es st = Some st' → exec cfg (ERead i) st' = None.
Proof.
  intros Hph Hin. revert st. induction es as [|e es IH]; intros st Hst; cbn [execs].
  - intros [= <-]. destruct Hst as [_ _ Hp]. cbn. rewrite Hp. cbn.
    destruct Hph as [-> | ->]; by destruct (Z.eqb_spec (inflight (coll p)) 0).
  - destruct (exec cfg e st) as [st1|] eqn:E; [|done]. cbn. apply IH. by eapply stuck_step.
Qed.

(** [C33] A finalizer that waits for pages when the pool has been stopped waits
    forever: once the workers have exited with one of its pages still queued, no
    sequence of steps ever lets it read the pages.  The wait is not bounded by
    the finalize time-out. *)
Theorem wait_blocks_after_stop {W} `{redis_laws W} cfg (s0 : RedisStore W) n reqs st i p es st' :
  reachable cfg s0 n reqs st → procs st !! i = Some p →
  (ph p = AtDone FinWait ∨ ph p = AtClose FinWait) → inflight (coll p) ≠ 0 → workers st = O →
  execs cfg es st = Some st' → exec cfg (ERead i) st' = None.
Proof.
  intros Hst%reachable_ok Hp Hph Hin Hw. apply stuck_forever with (p := p); [done..|].
  split; try done. pose proof (ok_busy cfg st Hst). apply nil_length_inv. lia.
Qed.

Lemma wait_blocks_after_stop_witness :
  exec sample_cfg (ERead 0) (run_sample [] (take 3 sample_events ++ [ECancel; EExit])) = None.
Proof.
  refine (wait_blocks_after_stop sample_cfg (mem_store_with []) 1 [(str "r", true)] _ 0
    (sample_proc (run_sample [] (take 3 sample_events ++ [ECancel; EExit]))) [] _
    (sample_reachable [] (take 3 sample_events ++ [ECancel; EExit]) _ _) _ _ _ _ eq_refl);
    [vm_compute; reflexivity|vm_compute; reflexivity|left; vm_compute; reflexivity| |vm_compute; reflexivity].
  vm_compute. discriminate.
Defined.
