(* ===== verification/UrlFacts.v ===== *)
(** * Facts about escaping, splitting and query strings

    Percent-encoding and -decoding are inverse, splitting undoes joining, and
    [ParseQuery] reads back what [Encode] writes. *)
From S2P Require Import Prelude Utf8 GoBytes Json NetUrl.

(** ** All bytes *)

Lemma all_bytes (P : Z → bool) : forallb P (Z.of_nat <$> List.seq 0 256) = true → ∀ c, is_byte c → P c = true.
Proof.
  rewrite forallb_forall. intros HP c Hc. apply HP. apply list_elem_of_In, list_elem_of_fmap.
  exists (Z.to_nat c). unfold is_byte in Hc. split; [lia|]. apply list_elem_of_In, in_seq. lia.
Qed.

Lemma hex_val_range c v : hex_val c = Some v → 0 <= v < 16.
Proof. unfold hex_val, Json.is_digit. intros. repeat case_match; simplify_eq; lia. Qed.

(** ** Decoding *)

Lemma unescape_app mode s1 s2 t1 : unescape mode s1 = Some t1 →
  unescape mode (s1 ++ s2) = (t2 ← unescape mode s2; Some (t1 ++ t2)).
Proof.
  revert t1. induction s1 as [s1 IH] using list_length_ind. intros t1.
  destruct s1 as [|c s1]; cbn [unescape app]; [intros [= <-]; by destruct (unescape mode s2)|].
  destruct (c =? 37).
  - destruct s1 as [|a [|b s1]]; [done|done|]. cbn [app].
    bind_some h1 E1. bind_some h2 E2. destruct (escape_allowed mode h1 h2); [|done].
    bind_some t E. intros [= <-]. rewrite (IH s1 ltac:(cbn; lia) t E). by destruct (unescape mode s2).
  - destruct (_ && _ && _); [done|]. bind_some t E. intros [= <-]. rewrite (IH s1 ltac:(cbn; lia) t E). by destruct (unescape mode s2).
Qed.

Lemma unescape_bytes mode s t : Forall is_byte s → unescape mode s = Some t → Forall is_byte t.
Proof.
  revert t. induction s as [s IH] using list_length_ind. intros t Hs.
  destruct s as [|c s]; cbn [unescape]; [by intros [= <-]|]. apply Forall_cons in Hs as [Hc Hs].
  destruct (c =? 37).
  - destruct s as [|a [|b s]]; [done|done|]. apply Forall_cons in Hs as [_ Hs]. apply Forall_cons in Hs as [_ Hs].
    bind_some h1 E1. bind_some h2 E2. destruct (escape_allowed mode h1 h2); [|done]. bind_some t' E. intros [= <-].
    apply hex_val_range in E1. apply hex_val_range in E2. constructor; [unfold is_byte; lia|]. apply (IH s); [cbn; lia|done..].
  - destruct (_ && _ && _); [done|]. bind_some t' E. intros [= <-].
    constructor; [by destruct (_ && _); [|done]|]. apply (IH s); [cbn; lia|done..].
Qed.

(** ** Encoding *)

(** The two modes the source escapes in. *)
Definition escaping (mode : encoding) : bool :=
  match mode with encodePath | encodeQueryComponent => true | _ => false end.

Lemma unescape_escape_byte mode c : escaping mode = true → is_byte c → unescape mode (escape_byte mode c) = Some [c].
Proof.
  intros Hm Hc. apply (bool_decide_eq_true_1 (unescape mode (escape_byte mode c) = Some [c])). revert c Hc.
  destruct mode; try done; apply all_bytes; by vm_compute.
Qed.

Lemma escape_app mode s1 s2 : escape mode (s1 ++ s2) = escape mode s1 ++ escape mode s2.
Proof. unfold escape. by rewrite bind_app. Qed.

Lemma unescape_escape mode s : escaping mode = true → Forall is_byte s → unescape mode (escape mode s) = Some s.
Proof.
  intros Hm. induction 1 as [|c s Hc Hs IH]; [done|]. change (escape mode (c :: s)) with (escape_byte mode c ++ escape mode s).
  rewrite (unescape_app _ _ _ [c]) by by apply unescape_escape_byte. by rewrite IH.
Qed.

(** What holds of the encodings of all bytes holds of an encoded text. *)
Lemma escape_forallb mode (P : Z → bool) s :
  forallb (λ c, forallb P (escape_byte mode c)) (Z.of_nat <$> List.seq 0 256) = true → Forall is_byte s →
  forallb P (escape mode s) = true.
Proof.
  intros HP. induction 1 as [|c s Hc Hs IH]; [done|]. change (escape mode (c :: s)) with (escape_byte mode c ++ escape mode s).
  rewrite forallb_app, IH, andb_true_r. by apply (all_bytes (λ c, forallb P (escape_byte mode c))).
Qed.

Lemma escape_valid s : Forall is_byte s → validEncoded_path (escape encodePath s) = true.
Proof. intros Hs. unfold validEncoded_path. apply escape_forallb; [by vm_compute|done]. Qed.

Lemma escape_free mode x s :
  forallb (λ c, forallb (λ y, negb (y =? x)) (escape_byte mode c)) (Z.of_nat <$> List.seq 0 256) = true →
  Forall is_byte s → x ∉ escape mode s.
Proof.
  intros Hx Hs Hin. pose proof (escape_forallb mode (λ y, negb (y =? x)) s Hx Hs) as Hf.
  rewrite forallb_forall in Hf. apply list_elem_of_In in Hin. specialize (Hf _ Hin). cbn in Hf. by rewrite Z.eqb_refl in Hf.
Qed.

(** ** Splitting *)

Lemma Split_from_app sep cur a s : sep ∉ a → Split_from sep cur (a ++ sep :: s) = (cur ++ a) :: Split_from sep [] s.
Proof.
  revert cur. induction a as [|c a IH]; intros cur Ha; cbn [app Split_from].
  - by rewrite Z.eqb_refl, app_nil_r.
  - apply not_elem_of_cons in Ha as [Hc Ha]. destruct (Z.eqb_spec c sep); [congruence|]. rewrite IH by done. by rewrite <-app_assoc.
Qed.

Lemma Split_from_last sep cur a : sep ∉ a → Split_from sep cur a = [cur ++ a].
Proof.
  revert cur. induction a as [|c a IH]; intros cur Ha; cbn [Split_from]; [by rewrite app_nil_r|].
  apply not_elem_of_cons in Ha as [Hc Ha]. destruct (Z.eqb_spec c sep); [congruence|]. rewrite IH by done. by rewrite <-app_assoc.
Qed.

Lemma Split_Join sep l : l ≠ [] → Forall (λ x, sep ∉ x) l → Split (Join l [sep]) sep = l.
Proof.
  intros Hne Hl. unfold Split. induction Hl as [|x l Hx Hl IH]; [done|]. destruct l as [|y l].
  - change (Join [x] [sep]) with x. by rewrite Split_from_last.
  - change (Join (x :: y :: l) [sep]) with (x ++ sep :: Join (y :: l) [sep]). rewrite Split_from_app by done. by rewrite IH.
Qed.

Lemma Split_from_free sep cur s : sep ∉ cur → Forall (λ x, sep ∉ x) (Split_from sep cur s).
Proof.
  revert cur. induction s as [|c s IH]; intros cur Hc; cbn; [by constructor|].
  destruct (Z.eqb_spec c sep) as [->|Hne]; [constructor; [done|apply IH, not_elem_of_nil]|]. apply IH. set_solver.
Qed.

Lemma Split_from_bytes sep cur s : Forall is_byte cur → Forall is_byte s → Forall (Forall is_byte) (Split_from sep cur s).
Proof.
  intros Hc Hs. revert cur Hc. induction Hs as [|c s Hb Hs IH]; intros cur Hc; cbn; [by constructor|].
  destruct (c =? sep); [by constructor; [|apply IH]|]. apply IH, Forall_app. by split; [|constructor].
Qed.

Lemma Cut_at s c t : c ∉ s → Cut (s ++ c :: t) c = (s, Some t).
Proof.
  intros Hs. unfold Cut. rewrite IndexByte_app, take_app_length by done.
  change (c :: t) with ([c] ++ t). by rewrite app_assoc, drop_app_length' by (rewrite length_app; cbn; lia).
Qed.

Lemma Cut_bytes s c : Forall is_byte s → Forall is_byte (Cut s c).1 ∧ Forall is_byte (default [] (Cut s c).2).
Proof.
  intros Hs. unfold Cut. destruct (IndexByte s c); cbn; [|by split]. by split; [apply Forall_take|apply Forall_drop].
Qed.

(** ** Queries *)

Lemma Contains_byte s c : Contains s [c] = false ↔ c ∉ s.
Proof.
  induction s as [|b s IH]; cbn [Contains]; [split; [intros _; apply not_elem_of_nil|done]|].
  rewrite orb_false_iff, IH, not_elem_of_cons. unfold HasPrefix. cbn.
  destruct (Z.eqb_spec c b) as [->|Hne]; [split; [by intros []|by intros [[]]]|tauto].
Qed.

Definition setting (k v : bytes) : bytes := QueryEscape k ++ [61] ++ QueryEscape v.

Lemma QueryEscape_free s x : Forall is_byte s → x ∈ [59; 61; 38] → x ∉ QueryEscape s.
Proof.
  intros Hs Hx. unfold QueryEscape.
  repeat (apply elem_of_cons in Hx as [->|Hx]; [by apply escape_free; [vm_compute|]|]).
  by apply not_elem_of_nil in Hx.
Qed.

Lemma setting_free k v x : Forall is_byte k → Forall is_byte v → x ∈ [59; 38] → x ∉ setting k v.
Proof.
  intros Hk Hv Hx. unfold setting. rewrite !elem_of_app, list_elem_of_singleton.
  assert (x ∈ [59; 61; 38]) as Hx' by (revert Hx; rewrite !elem_of_cons; tauto).
  pose proof (QueryEscape_free k x Hk Hx'). pose proof (QueryEscape_free v x Hv Hx').
  assert (x ≠ 61); [intros ->; rewrite !elem_of_cons, elem_of_nil in Hx; lia|tauto].
Qed.

Lemma parse_setting_setting k v : Forall is_byte k → Forall is_byte v → parse_setting (setting k v) = Some (k, v).
Proof.
  intros Hk Hv. unfold parse_setting. change (str ";") with [59].
  rewrite (proj2 (Contains_byte _ 59)) by (apply setting_free; [done|done|left]).
  rewrite bool_decide_false by (by intros [_ [=]]%app_eq_nil).
  unfold setting. cbn [app]. rewrite Cut_at by (apply QueryEscape_free; [done|right; left]). cbn [from_option id].
  unfold QueryEscape. cbn [id]. rewrite !unescape_escape by done. done.
Qed.

Definition add_setting (m : Values) (kv : bytes) : Values :=
  match parse_setting kv with Some (k, v) => values_add m k v | None => m end.

(** The values of a parsed query: bytes, and no key without a value. *)
Definition values_ok (m : Values) : Prop := ∀ k vs, m !! k = Some vs → vs ≠ [] ∧ Forall is_byte k ∧ Forall (Forall is_byte) vs.

Lemma parse_setting_bytes kv k v : Forall is_byte kv → parse_setting kv = Some (k, v) → Forall is_byte k ∧ Forall is_byte v.
Proof.
  intros Hb. unfold parse_setting. destruct (Contains kv (str ";")); [done|]. case_bool_decide; [done|].
  destruct (Cut_bytes kv 61 Hb) as [H1 H2]. destruct (Cut kv 61) as [k0 v0]. cbn [fst snd] in *.
  bind_some k' Ek. bind_some v' Ev. intros [= <- <-]. split; [by apply (unescape_bytes _ k0 _ H1 Ek)|by apply (unescape_bytes _ _ _ H2 Ev)].
Qed.

Lemma ParseQuery_ok q : Forall is_byte q → values_ok (ParseQuery q).
Proof.
  intros Hq. unfold ParseQuery. fold add_setting.
  assert (Forall (Forall is_byte) (Split q 38)) as Hs by (apply Split_from_bytes; [constructor|done]).
  assert (values_ok ∅) as H0 by (by intros k vs ?).
  revert Hs H0. generalize (∅ : Values). induction (Split q 38) as [|kv l IH]; intros m Hl Hm; [done|].
  apply Forall_cons in Hl as [Hkv Hl]. cbn [foldl]. apply IH; [done|]. unfold add_setting.
  destruct (parse_setting kv) as [[k v]|] eqn:E; [|done]. apply parse_setting_bytes in E as [Hk Hv]; [|done].
  unfold values_add. intros k' vs. rewrite lookup_insert_Some. intros [[<- <-]|[Hne Hl']]; [|by apply Hm].
  split_and!; [by destruct (default [] (m !! k))|done|]. apply Forall_app. split; [|by constructor].
  destruct (m !! k) as [vs|] eqn:El; cbn; [|constructor]. by apply (Hm k vs).
Qed.

(** Adding the settings of some distinct keys one after the other. *)
Lemma add_settings_key k vs m : Forall is_byte k → Forall (Forall is_byte) vs → vs ≠ [] →
  foldl add_setting m (setting k <$> vs) = <[k := default [] (m !! k) ++ vs]> m.
Proof.
  intros Hk Hvs Hne. induction vs as [|v vs IH] in m, Hvs, Hne |- *; [done|]. apply Forall_cons in Hvs as [Hv Hvs].
  cbn [fmap list_fmap foldl]. unfold add_setting at 2. rewrite parse_setting_setting by done. unfold values_add.
  destruct vs as [|v' vs]; [done|]. rewrite IH by done. rewrite lookup_insert_eq, insert_insert_eq. cbn [from_option id]. by rewrite <-app_assoc.
Qed.

Definition settings_of (m : Values) (k : bytes) : list bytes := setting k <$> default [] (m !! k).

Lemma add_settings_keys m ks acc : values_ok m → NoDup ks → (∀ k, k ∈ ks → is_Some (m !! k) ∧ acc !! k = None) →
  ∀ k, foldl add_setting acc (ks ≫= settings_of m) !! k = if decide (k ∈ ks) then m !! k else acc !! k.
Proof.
  intros Hm. induction ks as [|k0 ks IH] in acc |- *; intros Hnd Hks k; [by rewrite decide_False by apply not_elem_of_nil|].
  apply NoDup_cons in Hnd as [Hni Hnd]. change ((k0 :: ks) ≫= settings_of m) with (settings_of m k0 ++ (ks ≫= settings_of m)).
  rewrite foldl_app. destruct (Hks k0 ltac:(left)) as [[vs Hvs] Ha]. destruct (Hm k0 vs Hvs) as (Hne&Hb&Hbs).
  assert (settings_of m k0 = setting k0 <$> vs) as -> by (unfold settings_of; by rewrite Hvs). rewrite add_settings_key, Ha by done. cbn [from_option id app]. rewrite IH; [|done|].
  - destruct (decide (k = k0)) as [->|Hne'].
    + rewrite lookup_insert_eq, (decide_False (P := k0 ∈ ks)) by done. by rewrite decide_True by left.
    + rewrite lookup_insert_ne by done. by repeat case_decide; set_solver.
  - intros k' Hk'. destruct (Hks k' ltac:(by right)) as [??]. split; [done|]. rewrite lookup_insert_ne; [done|]. by intros ->.
Qed.

Lemma sorted_keys (m : Values) :
  NoDup (merge_sort bytes_le (map_to_list m).*1) ∧ ∀ k, k ∈ merge_sort bytes_le (map_to_list m).*1 ↔ is_Some (m !! k).
Proof.
  split; [rewrite (merge_sort_Permutation bytes_le); apply NoDup_fst_map_to_list|].
  intros k. rewrite (merge_sort_Permutation bytes_le), list_elem_of_fmap. split.
  - intros [[k' vs] [-> Hin%elem_of_map_to_list]]. cbn. eauto.
  - intros [vs Hk]. exists (k, vs). by rewrite elem_of_map_to_list.
Qed.

Lemma Encode_settings m : Encode m = Join (merge_sort bytes_le (map_to_list m).*1 ≫= settings_of m) [38].
Proof. done. Qed.

Lemma settings_Forall (P : bytes → Prop) m : values_ok m → (∀ k v, Forall is_byte k → Forall is_byte v → P (setting k v)) →
  ∀ ks, Forall P (ks ≫= settings_of m).
Proof.
  intros Hm HP ks. apply Forall_forall. intros s Hs. apply list_elem_of_bind in Hs as (k&Hs&Hk).
  unfold settings_of in Hs. apply list_elem_of_fmap in Hs as (v&->&Hv).
  destruct (m !! k) as [vs|] eqn:E; [|by apply not_elem_of_nil in Hv]. destruct (Hm k vs E) as (_&Hb&Hbs).
  apply HP; [done|]. rewrite Forall_forall in Hbs. by apply Hbs.
Qed.

Lemma ParseQuery_Encode m : values_ok m → ParseQuery (Encode m) = m.
Proof.
  intros Hm. destruct (sorted_keys m) as [Hnd Hin]. rewrite Encode_settings. set (ks := merge_sort _ _) in *.
  unfold ParseQuery. fold add_setting. assert (foldl add_setting ∅ (ks ≫= settings_of m) = m) as Hf.
  { apply map_eq. intros k. rewrite add_settings_keys; [|done..|].
    - case_decide as Hk; [done|]. rewrite Hin in Hk. rewrite lookup_empty. symmetry. by apply eq_None_not_Some.
    - intros k' Hk'. by split; [apply Hin|]. }
  destruct (ks ≫= settings_of m) as [|s l] eqn:El; [by rewrite <-Hf|]. rewrite Split_Join; [done..|]. rewrite <-El.
  apply settings_Forall; [done|]. intros. apply setting_free; [done|done|right; left].
Qed.

(** ** Paths *)

Lemma setPath_spec p path raw : Forall is_byte p → setPath p = Some (path, raw) →
  unescape encodePath p = Some path ∧ Forall is_byte path ∧ (raw = p ∨ raw = [] ∧ p = escape encodePath path).
Proof.
  intros Hp. unfold setPath. bind_some path' E. intros [= <- <-].
  split_and!; [done|by apply (unescape_bytes encodePath p)|]. case_bool_decide; [by right|by left].
Qed.

Lemma setPath_slash p path raw : setPath (47 :: p) = Some (path, raw) → ∃ path', path = 47 :: path'.
Proof.
  unfold setPath. change (unescape encodePath (47 :: p)) with (t ← unescape encodePath p; Some (47 :: t)).
  destruct (unescape encodePath p) as [path'|]; [|done]. intros [= <- _]. eauto.
Qed.

(** The encoded path, where it is not the one of [OPTIONS *]. *)
Lemma EscapedPath_spec u : Forall is_byte (Path u) → Path u ≠ str "*" →
  validEncoded_path (EscapedPath u) = true ∧ unescape encodePath (EscapedPath u) = Some (Path u).
Proof.
  intros Hb Hs. unfold EscapedPath. rewrite (bool_decide_false (Path u = str "*")) by done.
  destruct (_ && _ && _) eqn:E; [|by split; [apply escape_valid|apply unescape_escape]].
  apply andb_true_iff in E as [[_ Hv]%andb_true_iff Hu%bool_decide_eq_true]. done.
Qed.

Lemma EscapedPath_raw u : RawPath u ≠ [] → validEncoded_path (RawPath u) = true →
  unescape encodePath (RawPath u) = Some (Path u) → EscapedPath u = RawPath u.
Proof. intros H1 H2 H3. unfold EscapedPath. by rewrite H2, !bool_decide_true by done. Qed.

Lemma EscapedPath_default u : RawPath u = [] → Path u ≠ str "*" → EscapedPath u = escape encodePath (Path u).
Proof. intros H1 H2. unfold EscapedPath. by rewrite H1, (bool_decide_false (Path u = str "*")). Qed.

(** A path that was parsed is written as it was, if it was written with the bytes
    a path may have, and otherwise in the default encoding. *)
Lemma EscapedPath_parsed u p : Forall is_byte p → setPath p = Some (Path u, RawPath u) → Path u ≠ str "*" →
  EscapedPath u = if validEncoded_path p then p else escape encodePath (Path u).
Proof.
  intros Hp Hset Hs. destruct (setPath_spec _ _ _ Hp Hset) as (Hu&Hb&Hraw).
  assert (p = escape encodePath (Path u) → EscapedPath u = if validEncoded_path p then p else escape encodePath (Path u)) as Hdef.
  { intros ->. rewrite escape_valid by done. unfold EscapedPath. rewrite (bool_decide_false (Path u = str "*")) by done.
    destruct (_ && _ && _) eqn:E; [|done]. by destruct Hraw as [Hr|[Hr _]]; [|rewrite Hr in E]. }
  destruct Hraw as [Hraw|[_ Hraw]]; [|by apply Hdef].
  destruct (decide (p = [])) as [->|Hne]; [apply Hdef; cbn in Hu; by injection Hu as <-|].
  destruct (validEncoded_path p) eqn:Ev.
  - rewrite <-Hraw. apply EscapedPath_raw; by rewrite Hraw.
  - unfold EscapedPath. by rewrite Hraw, Ev, andb_false_r, (bool_decide_false (Path u = str "*")).
Qed.

(** A request target that is a path. *)
Lemma parse_target t u : HasPrefix t (str "/") = true → ParseRequestURI t = Some u →
  let '(p, force, q) := cut_query t in
  Scheme u = [] ∧ Opaque u = [] ∧ Host u = [] ∧ ForceQuery u = force ∧ RawQuery u = q ∧ setPath p = Some (Path u, RawPath u) ∧
  HasPrefix p (str "/") = true.
Proof.
  intros [t' ->]%HasPrefix_true. change (str "/" ++ t') with (47 :: t'). unfold ParseRequestURI, parse_url.
  destruct (stringContainsCTLByte _); [done|]. rewrite bool_decide_false by done. cbn [andb].
  rewrite bool_decide_false by done. change (getScheme (47 :: t')) with (Some ([] : bytes, 47 :: t')). cbn [mbind option_bind].
  assert (∃ p force q, cut_query (47 :: t') = (47 :: p, force, q)) as (p&force&q&->).
  { unfold cut_query. destruct (_ && _) eqn:E.
    - destruct t' as [|c t']; [by vm_compute in E|]. cbn [length Nat.sub take]. eauto.
    - unfold Cut. cbn [IndexByte]. bfalse (47 =? 63). destruct (IndexByte t' 63) as [i|]; cbn; eauto. }
  change (ToLower []) with ([] : bytes). assert (HasPrefix (47 :: p) (str "/") = true) as Hp by (by apply HasPrefix_true; exists p).
  rewrite Hp, (bool_decide_false (([] : bytes) ≠ [])) by tauto. cbn [negb andb orb mbind option_bind]. destruct (setPath (47 :: p)) as [[path raw]|] eqn:Es; [|done].
  cbn [mbind option_bind]. intros [= <-]. done.
Qed.

(** A URL with a host has a rooted path or none. *)
Lemma getScheme_suffix i raw s scheme rest : (∃ a, raw = a ++ s) → getScheme_from i raw s = Some (scheme, rest) → ∃ a, raw = a ++ rest.
Proof.
  revert i. induction s as [|c s IH]; intros i [a Ha]; cbn [getScheme_from]; [intros [= _ <-]; by exists []|].
  assert (∃ a', raw = a' ++ s) as Ha' by (exists (a ++ [c]); by rewrite <-app_assoc).
  destruct (is_alpha c); [by apply IH|]. destruct (is_digit c || one_of c "+-."); [destruct i; [intros [= _ <-]; by exists []|by apply IH]|].
  destruct (c =? 58); [destruct i; [done|by intros [= _ <-]]|]. intros [= _ <-]. by exists [].
Qed.

Lemma cut_query_bytes rest : Forall is_byte rest → Forall is_byte (cut_query rest).1.1 ∧ Forall is_byte (cut_query rest).2.
Proof.
  intros Hr. unfold cut_query. destruct (_ && _); cbn; [by split; [apply Forall_take|constructor]|].
  destruct (Cut_bytes rest 63 Hr) as [H1 H2]. by destruct (Cut rest 63).
Qed.

Lemma parse_url_host s via u : Forall is_byte s → parse_url s via = Some u → Host u ≠ [] →
  Forall is_byte (Path u) ∧ (Path u = [] ∨ ∃ p, Path u = 47 :: p).
Proof.
  intros Hs. unfold parse_url. destruct (stringContainsCTLByte s); [done|]. destruct (_ && via); [done|].
  case_bool_decide; [by intros [= <-]|]. destruct (getScheme s) as [[scheme rest]|] eqn:Esch; [|done]. cbn [mbind option_bind].
  apply getScheme_suffix in Esch as [a Ha]; [|by exists []].
  assert (Forall is_byte rest) as Hr by (rewrite Ha in Hs; by apply Forall_app in Hs as [_ ?]).
  destruct (cut_query_bytes rest Hr) as [Hc _]. destruct (cut_query rest) as [[r force] q]. cbn [fst snd] in Hc.
  destruct (negb _ && bool_decide _); [by intros [= <-]|]. destruct (_ && via); [done|]. destruct (_ && Contains _ _); [done|].
  destruct (_ && HasPrefix r (str "//")).
  - pose proof (Forall_drop is_byte 2 r Hc) as Hd. revert Hd. generalize (drop 2 r). intros au Hau.
    assert (∃ a0 r0, match IndexByte au 47 with Some i => (take i au, drop i au) | None => (au, []) end = (a0, r0) ∧
      Forall is_byte r0 ∧ (r0 = [] ∨ ∃ p, r0 = 47 :: p)) as (a0&r0&->&Hr0&Hp).
    { destruct (IndexByte au 47) as [i|] eqn:Ei; [|by eexists _, _; split_and!; [|constructor|left]].
      eexists _, _. split_and!; [done|by apply Forall_drop|]. right. apply IndexByte_Some in Ei as [_ Hi].
      apply drop_S in Hi. rewrite Hi. eauto. }
    destruct (parseAuthority a0) as [host|]; [|done]. cbn [mbind option_bind].
    destruct (setPath r0) as [[path raw]|] eqn:Ep; [|done]. cbn [mbind option_bind]. intros [= <-] _. cbn [Path].
    split; [by apply (setPath_spec r0 path raw)|]. destruct Hp as [->|[p ->]]; [left|right; by apply setPath_slash in Ep].
    unfold setPath in Ep. cbn in Ep. by injection Ep as <- _.
  - cbn [mbind option_bind]. destruct (setPath r) as [[path raw]|]; [|done]. cbn [mbind option_bind]. by intros [= <-].
Qed.

Lemma Parse_host s u : Forall is_byte s → Parse s = Some u → Host u ≠ [] → Forall is_byte (Path u) ∧ (Path u = [] ∨ ∃ p, Path u = 47 :: p).
Proof.
  intros Hs. unfold Parse. destruct (Cut_bytes s 35 Hs) as [H1 _]. destruct (Cut s 35) as [s' frag]. cbn [fst] in H1.
  bind_some u' E. bind_some x E2. intros [= <-]. by apply (parse_url_host s' false).
Qed.
