(* ===== verification/GoNum.v ===== *)
(** * [strconv.ParseFloat], float64 arithmetic and [time.ParseDuration]

    What the configuration needs of them: non-negative doubles, rounded to
    nearest even, decimal numerals made of digits and a point, and Go's duration
    strings.  Everything is computed on integers. *)
From S2P Require Import Prelude Utf8 GoBytes NetUrl.

(** ** Non-negative doubles *)

(** A finite value [m * 2^e]. *)
Record fl : Type := { fm : Z; fe : Z }.

(** [None] is infinity. *)
Abbreviation float64 := (option fl).

Definition overflows (f : fl) : bool :=
  if 0 <=? fe f then 2 ^ 1024 <=? Z.shiftl (fm f) (fe f) else false.

(** [n / 2^e / d], rounded half to even. *)
Definition round_at (n d e : Z) : Z :=
  let num := if e <? 0 then n * 2 ^ (- e) else n in
  let den := if e <? 0 then d else d * 2 ^ e in
  let q := num / den in
  let r := num mod den in
  if (den <? 2 * r) || ((den =? 2 * r) && Z.odd q) then q + 1 else q.

(** The exponent at which [n / d] has 53 bits, or that of the subnormals. *)
Definition exponent (n d : Z) : Z :=
  let e := Z.log2 n - Z.log2 d - 53 in
  let num := if e <? 0 then n * 2 ^ (- e) else n in
  let den := if e <? 0 then d else d * 2 ^ e in
  Z.max (-1074) (if 2 ^ 53 <=? num / den then e + 1 else e).

(** The double nearest to [n / d]. *)
Definition rnd (n d : Z) : float64 :=
  if n =? 0 then Some {| fm := 0; fe := 0 |}
  else
    let e := exponent n d in
    let f := {| fm := round_at n d e; fe := e |} in
    if overflows f then None else Some f.

(** The exact rational of a product or quotient, rounded. *)
Definition rnd_exp (n d e : Z) : float64 :=
  if e <? 0 then rnd n (d * 2 ^ (- e)) else rnd (n * 2 ^ e) d.

(** Products and quotients of non-negative doubles; the divisor is not zero.
    Zero times infinity does not occur. *)
Definition fmul (a b : float64) : float64 :=
  match a, b with
  | Some a, Some b => rnd_exp (fm a * fm b) 1 (fe a + fe b)
  | _, _ => None
  end.
Definition fdiv (a b : float64) : float64 :=
  match a, b with
  | Some a, Some b => rnd_exp (fm a) (fm b) (fe a - fe b)
  | Some _, None => Some {| fm := 0; fe := 0 |}
  | None, _ => None
  end.
Definition of_uint64 (n : Z) : float64 := rnd n 1.

(** The integer part. *)
Definition ftrunc (f : fl) : Z := if fe f <? 0 then fm f / 2 ^ (- fe f) else fm f * 2 ^ fe f.

(** ** Decimal numerals *)

(** [strconv.ParseFloat(s, 64)] on a string of digits and points: [None] is a
    syntax or range error. *)
Definition ParseFloat (s : bytes) : option fl :=
  let '(int, frac) := Cut s 46 in
  let frac := default [] frac in
  match int ++ frac with
  | [] => None
  | ds => n ← digits_value 0 ds; rnd n (10 ^ Z.of_nat (length frac))
  end.

(** ** [time.ParseDuration] *)

(** [leadingInt]: the digits at the front as a uint64, [None] on overflow. *)
Fixpoint leadingInt (x : Z) (s : bytes) : option (Z * bytes) :=
  match s with
  | [] => Some (x, [])
  | c :: s' =>
    if is_digit c then
      if 2 ^ 63 / 10 <? x then None
      else
        let x := x * 10 + (c - 48) in
        if 2 ^ 63 <? x then None else leadingInt x s'
    else Some (x, s)
  end.

Fixpoint leadingFraction (x : Z) (scale : float64) (overflow : bool) (s : bytes) : Z * float64 * bytes :=
  match s with
  | [] => (x, scale, [])
  | c :: s' =>
    if is_digit c then
      if overflow then leadingFraction x scale true s'
      else if (2 ^ 63 - 1) / 10 <? x then leadingFraction x scale true s'
      else
        let y := x * 10 + (c - 48) in
        if 2 ^ 63 <? y then leadingFraction x scale true s'
        else leadingFraction y (fmul scale (of_uint64 10)) false s'
    else (x, scale, s)
  end.

(** The unit at the front: everything up to a digit or a point. *)
Fixpoint take_unit (s : bytes) : bytes * bytes :=
  match s with
  | [] => ([], [])
  | c :: s' => if (c =? 46) || is_digit c then ([], s) else let '(u, r) := take_unit s' in (c :: u, r)
  end.

Definition unitMap : list (bytes * Z) := [
  (str "ns", 1); (str "us", 1000); ([194; 181; 115], 1000); ([206; 188; 115], 1000);
  (str "ms", 1000000); (str "s", 1000000000); (str "m", 60000000000); (str "h", 3600000000000)].

Definition unit_of (u : bytes) : option Z := snd <$> find (λ p, bool_decide (p.1 = u)) unitMap.
#[global] Arguments unit_of : simpl never.

(** One round of the loop: number, fraction and unit; the value of the term. *)
Definition duration_term (s : bytes) : option (Z * bytes) :=
  match s with
  | [] => None
  | c :: _ =>
    if negb ((c =? 46) || is_digit c) then None
    else
      '(v, r1) ← leadingInt 0 s;
      let pre := negb (length r1 =? length s)%nat in
      let '(f, scale, r2, post) :=
        match r1 with
        | 46 :: r => let '(f, scale, r2) := leadingFraction 0 (of_uint64 1) false r in
          (f, scale, r2, negb (length r2 =? length r)%nat)
        | _ => (0, of_uint64 1, r1, false)
        end in
      if negb pre && negb post then None
      else
        let '(u, rest) := take_unit r2 in
        match u with
        | [] => None
        | _ =>
          unit ← unit_of u;
          if 2 ^ 63 / unit <? v then None
          else
            let v := v * unit in
            if 0 <? f then
              let frac := match fmul (of_uint64 f) (fdiv (of_uint64 unit) scale) with Some x => ftrunc x | None => 0 end in
              let v := v + frac in
              if 2 ^ 63 <? v then None else Some (v, rest)
            else Some (v, rest)
        end
  end.

(** The sum is a uint64; every round consumes a character. *)
Fixpoint duration_loop (fuel : nat) (d : Z) (s : bytes) : option Z :=
  match s, fuel with
  | [], _ => Some d
  | _, O => None
  | _, S fuel =>
    '(v, rest) ← duration_term s;
    let d := (d + v) mod 2 ^ 64 in
    if 2 ^ 63 <? d then None else duration_loop fuel d rest
  end.

(** The sign and what follows it. *)
Definition duration_sign (s : bytes) : bool * bytes :=
  match s with
  | c :: s' => if (c =? 45) || (c =? 43) then (c =? 45, s') else (false, s)
  | [] => (false, [])
  end.

(** Nanoseconds, or [None] for an error. *)
Definition ParseDuration (s : bytes) : option Z :=
  let '(neg, s) := duration_sign s in
  if bool_decide (s = str "0") then Some 0
  else match s with
  | [] => None
  | _ =>
    d ← duration_loop (length s) 0 s;
    if neg then Some (- d) else if 2 ^ 63 - 1 <? d then None else Some d
  end.

(** ** Facts *)

(** Integers below 2^53 are represented exactly. *)
Lemma rnd_integer n : 0 <= n < 2 ^ 53 → ∃ f, rnd n 1 = Some f ∧ fe f <= 0 ∧ fm f = n * 2 ^ (- fe f).
Proof.
  intros Hn. unfold rnd. destruct (Z.eqb_spec n 0) as [->|Hne]; [by eexists|].
  assert (Z.log2 n < 53) as Hl by (apply Z.log2_lt_pow2; lia).
  pose proof (Z.log2_nonneg n) as Hl0.
  assert (-1074 <= exponent n 1 <= 0) as He.
  { unfold exponent. change (Z.log2 1) with 0. set (e := Z.log2 n - 0 - 53).
    destruct (2 ^ 53 <=? _); lia. }
  set (e := exponent n 1) in *. clearbody e.
  assert (round_at n 1 e = n * 2 ^ (- e)) as Er.
  { unfold round_at. assert ((if e <? 0 then n * 2 ^ (- e) else n) = n * 2 ^ (- e)) as ->.
    { destruct (Z.ltb_spec e 0); [done|]. replace e with 0 by lia. lia. }
    assert ((if e <? 0 then 1 else 1 * 2 ^ e) = 1) as ->.
    { destruct (Z.ltb_spec e 0); [done|]. by replace e with 0 by lia. }
    by rewrite Z.div_1_r, Z.mod_1_r. }
  rewrite Er. assert (overflows {| fm := n * 2 ^ (- e); fe := e |} = false) as ->.
  { unfold overflows. cbn [fe fm]. destruct (Z.leb_spec 0 e); [|done]. replace e with 0 by lia.
    rewrite Z.shiftl_0_r. apply Z.leb_gt. cbn [Z.opp Z.pow].
    assert (2 ^ 53 < 2 ^ 1024) by by vm_compute. lia. }
  eexists. split; [done|]. cbn. lia.
Qed.

Lemma leadingInt_digits x ds n rest : 0 <= x → digits_value x ds = Some n → n <= 2 ^ 63 →
  (∀ c r, rest = c :: r → is_digit c = false) → leadingInt x (ds ++ rest) = Some (n, rest).
Proof.
  revert x. induction ds as [|c ds IH]; intros x Hx Hd Hn Hr.
  - injection Hd as <-. cbn [app]. destruct rest as [|c r]; [done|]. cbn [leadingInt]. by rewrite (Hr c r eq_refl).
  - cbn [digits_value] in Hd. cbn [app leadingInt]. unfold is_digit.
    destruct ((48 <=? c) && (c <=? 57)) eqn:Ec; [|done].
    assert (x * 10 + (c - 48) <= n) as Hmono.
    { clear - Hd Hx Ec. assert (0 <= x * 10 + (c - 48)) as H0 by lia. revert Hd H0. generalize (x * 10 + (c - 48)).
      induction ds as [|c' ds IH]; intros y Hd Hy; cbn in Hd; [by injection Hd as <-|].
      destruct ((48 <=? c') && (c' <=? 57)) eqn:E'; [|done]. specialize (IH _ Hd). lia. }
    assert (x <= 2 ^ 63 / 10) by (apply Z.div_le_lower_bound; lia).
    bfalse (2 ^ 63 / 10 <? x). cbn iota. bfalse (2 ^ 63 <? x * 10 + (c - 48)). apply IH; [lia|done..].
Qed.

Definition no_digits (s : bytes) : Prop := Forall (λ c, (c =? 46) || is_digit c = false) s.
(** Nothing, or a new number. *)
Definition at_number (s : bytes) : Prop := ∀ c r, s = c :: r → is_digit c = true.

Lemma take_unit_app u rest : no_digits u → at_number rest → take_unit (u ++ rest) = (u, rest).
Proof.
  intros Hu Hr. induction Hu as [|c u Hc Hu IH]; cbn.
  - destruct rest as [|c r]; [done|]. cbn. by rewrite (Hr c r eq_refl), orb_true_r.
  - by rewrite Hc, IH.
Qed.

Lemma unit_of_spec u k : unit_of u = Some k → u ≠ [] ∧ no_digits u ∧ 0 < k.
Proof.
  unfold unit_of. intros ([u' k']&Hf&->)%fmap_Some. apply find_some in Hf as [Hin Eu].
  apply bool_decide_eq_true in Eu. cbn in Eu. subst u'.
  assert (Forall (λ p, p.1 ≠ [] ∧ no_digits p.1 ∧ 0 < p.2) unitMap) as HF.
  { apply (bool_decide_unpack _). vm_compute. exact I. }
  rewrite Forall_forall in HF. by apply (HF (u, k')), list_elem_of_In.
Qed.

Lemma Itoa_head n : 0 <= n <= 2 ^ 63 → ∃ c t, Itoa n = c :: t ∧ is_digit c = true ∧ digits_value 0 (Itoa n) = Some n.
Proof.
  intros Hn. destruct (Itoa_digits n) as (c&t&E&Hd&Hv&_); [lia|]. exists c, t. split_and!; [done| |done].
  rewrite E in Hd. apply Forall_inv in Hd. unfold is_digit. lia.
Qed.

Lemma duration_term_spec n u k rest : 0 <= n → unit_of u = Some k → n * k <= 2 ^ 63 → at_number rest →
  duration_term (Itoa n ++ u ++ rest) = Some (n * k, rest).
Proof.
  intros Hn Hu Hb Hr. destruct (unit_of_spec u k Hu) as (Hne&Hd&Hk).
  assert (n <= 2 ^ 63) as Hn63 by nia.
  destruct (Itoa_head n) as (c&t&E&Hcd&Hval); [lia|].
  assert (∀ c' r, u ++ rest = c' :: r → is_digit c' = false) as Hstop.
  { intros c' r E'. destruct u as [|c0 u]; [done|]. injection E' as <- _. apply Forall_inv in Hd. by apply orb_false_iff in Hd as [_ ?]. }
  unfold duration_term. rewrite E at 1. cbn [app]. rewrite Hcd, orb_true_r. cbn [negb].
  rewrite (leadingInt_digits 0 (Itoa n) n) by (done || by rewrite E). cbn [mbind option_bind].
  assert ((length (u ++ rest) =? length (Itoa n ++ u ++ rest))%nat = false) as ->.
  { apply Nat.eqb_neq. rewrite E. cbn. rewrite !length_app. lia. }
  destruct u as [|c0 u0] eqn:Eu; [done|]. rewrite <-Eu in *. cbn [app] in *.
  assert (match u ++ rest with
          | 46 :: r => let '(f, scale, r2) := leadingFraction 0 (of_uint64 1) false r in (f, scale, r2, negb (length r2 =? length r)%nat)
          | _ => (0, of_uint64 1, u ++ rest, false) end = (0, of_uint64 1, u ++ rest, false)) as ->.
  { rewrite Eu in Hd |- *. apply Forall_inv, orb_false_iff in Hd as [H46 _]. apply Z.eqb_neq in H46.
    cbn [app]. repeat case_match; congruence. }
  cbn [negb andb]. rewrite take_unit_app by done. cbn beta iota. rewrite Hu, Eu. cbn [mbind option_bind].
  assert (n <= 2 ^ 63 / k) by (apply Z.div_le_lower_bound; lia).
  by bfalse (2 ^ 63 / k <? n).
Qed.

(** A duration in several terms. *)
Definition render_terms (ts : list (Z * bytes)) : bytes := ts ≫= λ '(n, u), Itoa n ++ u.
Definition total (ts : list (Z * bytes)) : Z := foldr (λ '(n, u) t, n * default 0 (unit_of u) + t) 0 ts.
Definition terms_ok (ts : list (Z * bytes)) : Prop := Forall (λ '(n, u), 0 <= n ∧ is_Some (unit_of u)) ts.

Lemma total_cons n u k ts : unit_of u = Some k → total ((n, u) :: ts) = n * k + total ts.
Proof. intros Hk. unfold total at 1. cbn [foldr]. by rewrite Hk. Qed.

Lemma total_nonneg ts : terms_ok ts → 0 <= total ts.
Proof.
  induction 1 as [|[n u] ts [Hn [k Hk]] Hts IH]; [done|]. destruct (unit_of_spec u k Hk) as (_&_&?).
  rewrite (total_cons n u k) by done. nia.
Qed.

Lemma at_number_terms ts : terms_ok ts → total ts <= 2 ^ 63 → at_number (render_terms ts).
Proof.
  intros Hts Hb c r. destruct Hts as [|[n u] ts [Hn [k Hk]] Hts]; [done|].
  destruct (unit_of_spec u k Hk) as (_&_&?). pose proof (total_nonneg ts Hts). rewrite (total_cons n u k) in Hb by done.
  destruct (Itoa_head n) as (c'&t&E&Hc&_); [nia|]. unfold render_terms. rewrite bind_cons, E. cbn.
  by intros [= <- _].
Qed.

Lemma duration_loop_terms fuel d ts : terms_ok ts → 0 <= d → d + total ts < 2 ^ 63 →
  (length ts <= fuel)%nat → duration_loop fuel d (render_terms ts) = Some (d + total ts).
Proof.
  revert fuel d. induction ts as [|[n u] ts IH]; intros fuel d Hts Hd Hb Hf.
  { cbn. rewrite Z.add_0_r. by destruct fuel. }
  apply Forall_cons in Hts as [[Hn [k Hk]] Hts']. pose proof (total_nonneg ts Hts') as Ht.
  destruct (unit_of_spec u k Hk) as (_&_&Hkp). rewrite (total_cons n u k) in Hb |- * by done. destruct fuel as [|fuel]; [cbn in Hf; lia|].
  assert (0 <= n * k) by nia. destruct (Itoa_head n) as (c&t&E&_); [nia|].
  unfold render_terms. rewrite bind_cons. fold (render_terms ts). rewrite <-app_assoc, E. cbn [app duration_loop].
  rewrite app_comm_cons, <-E, (duration_term_spec n u k) by (done || lia || (apply at_number_terms; [done|lia])).
  cbn [mbind option_bind]. rewrite Z.mod_small by lia. bfalse (2 ^ 63 <? d + n * k).
  rewrite IH by (done || lia || (cbn in Hf; lia)). f_equal. lia.
Qed.

Lemma ParseDuration_terms ts : terms_ok ts → ts ≠ [] → total ts < 2 ^ 63 →
  ParseDuration (render_terms ts) = Some (total ts) ∧ ParseDuration (45 :: render_terms ts) = Some (- total ts).
Proof.
  intros Hts Hne Hb. destruct ts as [|[n u] ts'] eqn:Ets; [done|]. rewrite <-Ets in *.
  assert (∃ c t, render_terms ts = c :: t ∧ 48 <= c <= 57 ∧ render_terms ts ≠ str "0") as (c&t&E&Hc&H0).
  { assert (total ts <= 2 ^ 63) by lia. subst ts. apply Forall_cons in Hts as [[Hn [k Hk]] Hts'].
    destruct (unit_of_spec u k Hk) as (Hu&Hud&Hkp). pose proof (total_nonneg ts' Hts'). rewrite (total_cons n u k) in Hb by done.
    destruct (Itoa_head n) as (c&t&E&Hc&_); [nia|]. unfold render_terms. rewrite bind_cons, E. eexists _, _.
    split; [done|]. split; [unfold is_digit in Hc; lia|]. intros [= -> Hnil]. destruct t; [|done]. by destruct u. }
  assert ((length ts <= length (render_terms ts))%nat) as Hlen.
  { clear - Hts. induction Hts as [|[n u] ts [Hn [k Hk]] Hts IH]; [cbn; lia|].
    destruct (unit_of_spec u k Hk) as (Hu&_&_). unfold render_terms in *. rewrite bind_cons, !length_app.
    destruct u; [done|]. cbn [length]. lia. }
  pose proof (duration_loop_terms (length (render_terms ts)) 0 ts Hts (Z.le_refl 0) Hb Hlen) as Hl.
  assert (duration_sign (render_terms ts) = (false, render_terms ts)) as Hs.
  { unfold duration_sign. rewrite E. by bfalse ((c =? 45) || (c =? 43)). }
  assert (duration_sign (45 :: render_terms ts) = (true, render_terms ts)) as Hs' by done.
  rewrite E in Hs, Hs', Hl, H0 |- *. unfold ParseDuration. rewrite Hs, Hs', bool_decide_eq_false_2 by done.
  rewrite Hl. cbn [mbind option_bind]. by bfalse (2 ^ 63 - 1 <? 0 + total ts).
Qed.

(** ** Worked instances *)
Example duration_ex : ParseDuration (str "168h") = Some 604800000000000 ∧ ParseDuration (str "1h30m") = Some 5400000000000
  ∧ ParseDuration (str "-1.5s") = Some (-1500000000) ∧ ParseDuration (str ".5ms") = Some 500000 ∧ ParseDuration (str "5") = None
  ∧ ParseDuration (str "0.1h") = Some 360000000000 ∧ ParseDuration (str "1d") = None.
Proof. vm_compute. done. Qed.
Example float_ex : ParseFloat (str "0.1") = Some {| fm := 7205759403792794; fe := -56 |} ∧ ParseFloat (str ".") = None
  ∧ ParseFloat (str "1.2.3") = None.
Proof. vm_compute. done. Qed.
