(* ===== verification/Config.v ===== *)
(** * [internal/config/config.go]: the configuration

    The scalar types with their decoders, the defaults, loading and validation.
    The YAML decoder and the file system are outside the sources: a YAML node is
    its tag and its text, and [Load] takes the two of them as arguments.
    Durations are nanoseconds, sizes bytes, both 64 bits wide. *)
From S2P Require Import Prelude Utf8 GoBytes NetUrl GoNum.

(** ** Durations and sizes *)

Record Node : Type := { Tag : bytes; Value : bytes }.

(** A configuration error, by what it complains about. *)
Inductive config_error : Type :=
| invalid_duration | invalid_byte_size | unknown_suffix
| read_failed | parse_failed
| base_url_required | base_url_invalid | redis_addr_required | redis_timeout_positive | session_ttl_positive
| page_size_positive | cache_ttl_positive | workers_positive | max_pending_positive | max_request_body_positive.

Definition Duration_UnmarshalYAML (node : Node) : result config_error Z :=
  if bool_decide (Tag node = str "!!int") then
    match ParseInt (Value node) with
    | None => Err invalid_duration
    | Some secs => Ok (wrap64 (secs * 1000000000))
    end
  else
    match ParseDuration (TrimSpace (Value node)) with
    | None => Err invalid_duration
    | Some v => Ok v
    end.

(** [strings.ToUpper] as far as a suffix can tell: besides the ASCII letters, the
    dotless i and the long s are the runes with an ASCII upper case. *)
Fixpoint ToUpper (s : bytes) : bytes :=
  match s with
  | 196 :: 177 :: s' => 73 :: ToUpper s'
  | 197 :: 191 :: s' => 83 :: ToUpper s'
  | c :: s' => (if (97 <=? c) && (c <=? 122) then c - 32 else c) :: ToUpper s'
  | [] => []
  end.

(** The loop over [i]. *)
Fixpoint split_number (s : bytes) : bytes * bytes :=
  match s with
  | c :: s' => if is_digit c || (c =? 46) then let '(n, r) := split_number s' in (c :: n, r) else ([], s)
  | [] => ([], [])
  end.

(** The multiplier as a power of two. *)
Definition size_suffixes : list (bytes * Z) := [
  (str "", 0); (str "B", 0); (str "K", 10); (str "KB", 10); (str "KIB", 10);
  (str "M", 20); (str "MB", 20); (str "MIB", 20); (str "G", 30); (str "GB", 30); (str "GIB", 30);
  (str "T", 40); (str "TB", 40); (str "TIB", 40)].
Definition size_mult (suffix : bytes) : option Z :=
  snd <$> find (λ p, bool_decide (p.1 = suffix)) size_suffixes.
#[global] Arguments size_mult : simpl never.

Section bytesize.
(** What the platform's conversion of a double outside the int64 range gives. *)
Context (out_of_range : fl → Z).

Definition to_int64 (f : fl) : Z := if ftrunc f <? 2 ^ 63 then ftrunc f else out_of_range f.

Definition ByteSize_UnmarshalYAML (node : Node) : result config_error Z :=
  if bool_decide (Tag node = str "!!int") then
    match ParseInt (Value node) with
    | None => Err invalid_byte_size
    | Some v => Ok v
    end
  else
    let s := ToUpper (TrimSpace (Value node)) in
    let '(numStr, rest) := split_number s in
    match numStr with
    | [] => Err invalid_byte_size
    | _ =>
      match size_mult (TrimSpace rest) with
      | None => Err unknown_suffix
      | Some j =>
        match ParseFloat numStr with
        | None => Err invalid_byte_size
        | Some f => Ok (to_int64 {| fm := fm f; fe := fe f + j |})
        end
      end
    end.
End bytesize.

(** ** The configuration *)

Record Server : Type := { Listen : bytes }.
Record Upstream : Type := { BaseURL : bytes }.
Record Redis : Type := { Addr : bytes; DB : Z; Timeout : Z }.
Record Session : Type := { Session_TTL : Z }.
Record ResponseCache : Type := { PageSize : Z; Cache_TTL : Z; Workers : Z; MaxPendingPages : Z }.
Record Limits : Type := { MaxRequestBody : Z }.
Record Logging : Type := { Level : bytes }.

Record Config : Type := {
  server : Server;
  upstream : Upstream;
  redis_ : Redis;
  session_ : Session;
  response_cache : ResponseCache;
  limits : Limits;
  logging : Logging;
}.

Definition second : Z := 1000000000.

Definition Default : Config := {|
  server := {| Listen := str ":8080" |};
  upstream := {| BaseURL := [] |};
  redis_ := {| Addr := str "127.0.0.1:6379"; DB := 0; Timeout := 2 * second |};
  session_ := {| Session_TTL := 168 * 3600 * second |};
  response_cache := {| PageSize := Z.shiftl 4 20; Cache_TTL := 30 * 60 * second; Workers := 4; MaxPendingPages := 8 |};
  limits := {| MaxRequestBody := Z.shiftl 32 20 |};
  logging := {| Level := str "info" |};
|}.

(** [None] is success; the first check that fails reports. *)
Definition Validate (c : Config) : option config_error :=
  if bool_decide (TrimSpace (BaseURL (upstream c)) = []) then Some base_url_required
  else if match Parse (BaseURL (upstream c)) with
    | None => true
    | Some u => bool_decide (Scheme u ≠ str "http" ∧ Scheme u ≠ str "https") || bool_decide (Host u = [])
    end then Some base_url_invalid
  else if bool_decide (TrimSpace (Addr (redis_ c)) = []) then Some redis_addr_required
  else if Timeout (redis_ c) <=? 0 then Some redis_timeout_positive
  else if Session_TTL (session_ c) <=? 0 then Some session_ttl_positive
  else if PageSize (response_cache c) <=? 0 then Some page_size_positive
  else if Cache_TTL (response_cache c) <=? 0 then Some cache_ttl_positive
  else if Workers (response_cache c) <=? 0 then Some workers_positive
  else if MaxPendingPages (response_cache c) <=? 0 then Some max_pending_positive
  else if MaxRequestBody (limits c) <=? 0 then Some max_request_body_positive
  else None.

Section load.
(** [os.ReadFile] and [yaml.Unmarshal] into an existing configuration. *)
Context (ReadFile : bytes → option bytes) (Unmarshal : bytes → Config → option Config).

Definition Load (path : bytes) : result config_error Config :=
  match ReadFile path with
  | None => Err read_failed
  | Some raw =>
    match Unmarshal raw Default with
    | None => Err parse_failed
    | Some cfg => match Validate cfg with Some e => Err e | None => Ok cfg end
    end
  end.
End load.

(** ** Facts *)

(** What the components rely on. *)
Record valid (c : Config) : Prop := {
  valid_url : ∃ u, Parse (BaseURL (upstream c)) = Some u ∧ (Scheme u = str "http" ∨ Scheme u = str "https") ∧ Host u ≠ [];
  valid_timeout : 0 < Timeout (redis_ c);
  valid_session : 0 < Session_TTL (session_ c);
  valid_page : 0 < PageSize (response_cache c);
  valid_cache : 0 < Cache_TTL (response_cache c);
  valid_workers : 0 < Workers (response_cache c);
  valid_pending : 0 < MaxPendingPages (response_cache c);
  valid_limit : 0 < MaxRequestBody (limits c);
}.

Lemma Validate_valid c : Validate c = None → valid c.
Proof.
  unfold Validate. case_bool_decide; [done|].
  destruct (match Parse _ with None => true | Some u => _ end) eqn:Eu; [done|]. case_bool_decide; [done|].
  repeat (match goal with |- context [?a <=? 0] => destruct (Z.leb_spec a 0); [done|] end). intros _.
  split; try lia. destruct (Parse _) as [u|]; [|done]. apply orb_false_iff in Eu as [Es%bool_decide_eq_false Eh%bool_decide_eq_false].
  exists u. split; [done|]. split; [|done]. destruct (decide (Scheme u = str "http")), (decide (Scheme u = str "https")); tauto.
Qed.

Lemma Load_valid ReadFile Unmarshal path c : Load ReadFile Unmarshal path = Ok c → valid c.
Proof.
  unfold Load. destruct (ReadFile path) as [raw|]; [|done]. destruct (Unmarshal raw Default) as [c'|]; [|done].
  destruct (Validate c') as [e|] eqn:E; [done|]. intros [= <-]. by apply Validate_valid.
Qed.

Lemma ToUpper_digits ds s : Forall (λ c, is_digit c = true) ds → ToUpper (ds ++ s) = ds ++ ToUpper s.
Proof.
  induction 1 as [|c ds Hc Hds IH]; [done|]. unfold is_digit in Hc. cbn [app].
  assert (∀ t, ToUpper (c :: t) = c :: ToUpper t) as E; [|by rewrite E, IH].
  intros t. destruct (decide (c < 128)) as [Hl|]; [|lia].
  assert (ToUpper (c :: t) = (if (97 <=? c) && (c <=? 122) then c - 32 else c) :: ToUpper t) as ->.
  { clear IH Hds. cbn [ToUpper]. repeat (case_match; try lia; try reflexivity). }
  by bfalse ((97 <=? c) && (c <=? 122)).
Qed.

Lemma split_number_digits ds s : Forall (λ c, is_digit c = true) ds → no_digits s → split_number (ds ++ s) = (ds, s).
Proof.
  intros Hds Hs. induction Hds as [|c ds Hc Hds IH]; cbn.
  - destruct Hs as [|c s Hc Hs]; [done|]. cbn. rewrite orb_comm in Hc. by rewrite Hc.
  - by rewrite Hc, IH.
Qed.

Lemma Itoa_is_digits n : 0 <= n < 2 ^ 63 → Forall (λ c, is_digit c = true) (Itoa n) ∧ Itoa n ≠ [] ∧
  digits_value 0 (Itoa n) = Some n.
Proof.
  intros Hn. destruct (Itoa_digits n) as (c&t&E&Hd&Hv&_); [lia|]. split_and!; [|by rewrite E|done].
  eapply Forall_impl; [exact Hd|]. intros x Hx. cbn in Hx. unfold is_digit. lia.
Qed.

Lemma ParseFloat_integer n : 0 <= n < 2 ^ 53 →
  ∃ f, ParseFloat (Itoa n) = Some f ∧ fe f <= 0 ∧ fm f = n * 2 ^ (- fe f).
Proof.
  intros Hn. destruct (Itoa_is_digits n) as (Hd&Hne&Hv); [lia|]. destruct (rnd_integer n Hn) as (f&Ef&He&Hm).
  exists f. split; [|done]. unfold ParseFloat, Cut.
  assert (IndexByte (Itoa n) 46 = None) as ->.
  { apply IndexByte_None. rewrite Forall_forall in Hd. intros Hin%Hd. done. }
  cbn [default]. rewrite app_nil_r. destruct (Itoa n); [done|]. rewrite Hv. exact Ef.
Qed.

(** Scaling by a power of two and truncating is exact. *)
Lemma ftrunc_scaled n f j : 0 <= j → fe f <= 0 → fm f = n * 2 ^ (- fe f) →
  ftrunc {| fm := fm f; fe := fe f + j |} = n * 2 ^ j.
Proof.
  intros Hj He Hm. unfold ftrunc. cbn [fm fe]. rewrite Hm. destruct (Z.ltb_spec (fe f + j) 0).
  - replace (- fe f) with (j + - (fe f + j)) by lia. rewrite Z.pow_add_r, Z.mul_assoc by lia.
    by rewrite Z.div_mul by (apply Z.pow_nonzero; lia).
  - rewrite <-Z.mul_assoc, <-Z.pow_add_r by lia. do 2 f_equal. lia.
Qed.

Lemma size_mult_spec u j : size_mult u = Some j → no_digits u ∧ TrimSpace u = u ∧ 0 <= j <= 40.
Proof.
  unfold size_mult. intros ([u' j']&Hf&->)%fmap_Some. apply find_some in Hf as [Hin Eu].
  apply bool_decide_eq_true in Eu. cbn in Eu. subst u'.
  assert (Forall (λ p, no_digits p.1 ∧ TrimSpace p.1 = p.1 ∧ 0 <= p.2 <= 40) size_suffixes) as HF.
  { apply (bool_decide_unpack _). vm_compute. exact I. }
  rewrite Forall_forall in HF. by apply (HF (u, j')), list_elem_of_In.
Qed.

(** A duration string has no white space around it. *)
Lemma unit_last u k : unit_of u = Some k → ∃ t b, u = t ++ [b] ∧ 0x21 <= b < 0x80.
Proof.
  unfold unit_of. intros ([u' k']&Hf&->)%fmap_Some. apply find_some in Hf as [Hin Eu].
  apply bool_decide_eq_true in Eu. cbn in Eu. subst u'.
  assert (forallb (λ p, match last p.1 with Some b => (0x21 <=? b) && (b <? 0x80) | None => false end) unitMap = true)
    as HF by by vm_compute.
  rewrite forallb_forall in HF. specialize (HF (u, k') Hin). cbn [fst] in HF.
  destruct u as [|b t _] using rev_ind; [done|]. exists t, b. split; [done|]. rewrite last_snoc in HF. lia.
Qed.

Lemma render_terms_trim ts : terms_ok ts → ts ≠ [] → total ts < 2 ^ 63 → TrimSpace (render_terms ts) = render_terms ts.
Proof.
  intros Hts Hne Hb. apply TrimSpace_visible.
  - destruct ts as [|[n u] ts']; [done|]. pose proof (at_number_terms _ Hts (Z.lt_le_incl _ _ Hb)) as Ha.
    apply Forall_cons in Hts as [[Hn [k Hk]] Hts]. destruct (unit_of_spec u k Hk) as (_&_&?).
    pose proof (total_nonneg ts' Hts). rewrite (total_cons n u k) in Hb by done.
    destruct (Itoa_head n) as (c&t&E&Hc&_); [nia|]. unfold render_terms in *. rewrite bind_cons, E.
    eexists _, _. split; [done|]. unfold is_digit in Hc. lia.
  - destruct ts as [|[n u] ts' _] using rev_ind; [done|]. apply Forall_app in Hts as [_ [_ [k Hk]]%Forall_inv].
    destruct (unit_last u k Hk) as (t&b&->&Hb'). exists b, (render_terms ts' ++ Itoa n ++ t). split; [|done].
    unfold render_terms. rewrite bind_app, bind_cons. cbn. rewrite app_nil_r. by norm_app.
Qed.

(** ** Properties *)

(** [C39] Durations: a plain number [n] is read as [n] seconds modulo 2^64
    nanoseconds, which is exact precisely up to 9223372036 seconds and wraps
    silently beyond; a Go duration string made of numbers and units, whatever
    its tag, is read as their sum. *)
Theorem Duration_values n ts tag : - 2 ^ 63 <= n < 2 ^ 63 →
  terms_ok ts → ts ≠ [] → total ts < 2 ^ 63 → tag ≠ str "!!int" →
  (∃ d, Duration_UnmarshalYAML {| Tag := str "!!int"; Value := Itoa n |} = Ok d ∧
    (d = n * second ↔ - 9223372036 <= n <= 9223372036) ∧ (d - n * second) mod 2 ^ 64 = 0) ∧
  Duration_UnmarshalYAML {| Tag := tag; Value := render_terms ts |} = Ok (total ts).
Proof.
  intros Hn Hts Hne Ht Htag. split.
  - exists (wrap64 (n * second)). unfold Duration_UnmarshalYAML. rewrite bool_decide_true by done. cbn [Value].
    rewrite ParseInt_Itoa by done. unfold second. split_and!; [done| |].
    + split; [|intros ?; apply wrap64_id; lia]. intros E. pose proof (wrap64_range (n * 1000000000)). lia.
    + unfold wrap64. rewrite <-Zminus_mod_idemp_r, <-Zminus_mod_idemp_l. Z.div_mod_to_equations. lia.
  - unfold Duration_UnmarshalYAML. cbn [Tag Value]. rewrite bool_decide_false by done.
    rewrite render_terms_trim by done. by rewrite (proj1 (ParseDuration_terms ts Hts Hne Ht)).
Qed.

Lemma Duration_values_witness :
  (∃ d, Duration_UnmarshalYAML {| Tag := str "!!int"; Value := Itoa 18446744074 |} = Ok d ∧
    (d = 18446744074 * second ↔ - 9223372036 <= 18446744074 <= 9223372036) ∧ (d - 18446744074 * second) mod 2 ^ 64 = 0) ∧
  Duration_UnmarshalYAML {| Tag := str "!!str"; Value := str "1h30m" |} = Ok 5400000000000.
Proof.
  apply (Duration_values 18446744074 [(1, str "h"); (30, str "m")] (str "!!str")).
  - lia.
  - repeat constructor; try lia; vm_compute; eauto.
  - done.
  - vm_compute. reflexivity.
  - done.
Defined.

(** Sizes: a whole number below 2^53 followed by any of the binary suffixes,
    in upper or lower case, is read as exactly that many bytes although the
    product is computed in floating point, as long as it fits an int64. *)
Lemma ByteSize_exact oor n sfx j : 0 <= n < 2 ^ 53 → Forall (λ c, is_alpha c = true) sfx →
  size_mult (ToUpper sfx) = Some j → n * 2 ^ j < 2 ^ 63 →
  ByteSize_UnmarshalYAML oor {| Tag := str "!!str"; Value := Itoa n ++ sfx |} = Ok (n * 2 ^ j).
Proof.
  intros Hn Hs Hj Hb. destruct (Itoa_is_digits n) as (Hd&Hne&_); [lia|].
  destruct (size_mult_spec _ _ Hj) as (Hnd&Htrim&Hjr). destruct (ParseFloat_integer n Hn) as (f&Ef&He&Hm).
  unfold ByteSize_UnmarshalYAML. rewrite bool_decide_false by done. cbn [Value].
  assert (TrimSpace (Itoa n ++ sfx) = Itoa n ++ sfx) as ->.
  { apply TrimSpace_visible.
    - destruct (Itoa n) as [|c t]; [done|]. exists c, (t ++ sfx). split; [done|]. apply Forall_inv in Hd.
      unfold is_digit in Hd. lia.
    - destruct sfx as [|b t _] using rev_ind.
      + rewrite app_nil_r. destruct (Itoa n) as [|b t _] using rev_ind; [done|]. exists b, t. split; [done|].
        apply Forall_app in Hd as [_ Hd%Forall_inv]. unfold is_digit in Hd. lia.
      + exists b, (Itoa n ++ t). split; [by rewrite app_assoc|]. apply Forall_app in Hs as [_ Hs%Forall_inv].
        unfold is_alpha in Hs. lia. }
  rewrite ToUpper_digits, split_number_digits, Htrim, Hj by done. destruct (Itoa n) as [|c t] eqn:En; [done|].
  rewrite Ef. unfold to_int64. rewrite (ftrunc_scaled n) by (done || lia). by btrue (n * 2 ^ j <? 2 ^ 63).
Qed.

(** ** Worked instances *)
Example size_ex : ByteSize_UnmarshalYAML (λ _, 0) {| Tag := str "!!float"; Value := str "1.5" |} = Ok 1
  ∧ ByteSize_UnmarshalYAML (λ _, 0) {| Tag := str "!!str"; Value := str " .5 kb " |} = Ok 512
  ∧ ByteSize_UnmarshalYAML (λ _, 0) {| Tag := str "!!str"; Value := str "4 X" |} = Err unknown_suffix
  ∧ ByteSize_UnmarshalYAML (λ _, 0) {| Tag := str "!!str"; Value := str "-4K" |} = Err invalid_byte_size
  ∧ ByteSize_UnmarshalYAML (λ _, 0) {| Tag := str "!!int"; Value := str "-4" |} = Ok (-4).
Proof. vm_compute. done. Qed.
Example default_invalid : Validate Default = Some base_url_required.
Proof. vm_compute. reflexivity. Qed.
