(* ===== verification/Proxy.v ===== *)
(** * [internal/proxy/handler.go]: the handler's operations

    Serving a request up to the reverse proxy, classifying the response, the body
    wrappers, the once-only finish and the finalizers.  What the reverse proxy
    (net/http/httputil) makes of a request is in Outbound.v; what it reports back
    (status, content type, reads, end, close) are arguments here.  A body
    is its content and whether reading it fails after that content; a header is
    a map from canonical names to values.  Logging, spans of time and the
    operation time-outs are left out.  Interleavings are the subject of
    Gateway.v. *)
From S2P Require Import Prelude GoBytes NetUrl Json Sha256 Canon Request Assistant Metrics Store Session Collector.
From S2P Require Config.

(** ** Requests and replies *)

Abbreviation Header := (gmap bytes (list bytes)).

Definition Get (h : Header) (k : bytes) : bytes := match h !! k with Some (v :: _) => v | _ => [] end.
Definition Set_ (h : Header) (k v : bytes) : Header := <[k := [v]]> h.

(** An unknown content length (-1) is [None]. *)
Record Request_ : Type := {
  Method : bytes;
  RequestURL : URL;
  Header_ : Header;
  Body : bytes;
  Body_fails : bool;
  ContentLength : option Z;
}.

Record reply : Type := { code : Z; content_type : bytes; text : bytes }.

(** [http.Error]: plain text with a newline. *)
Definition body_read_failed : reply := {|
  code := 400; content_type := str "text/plain; charset=utf-8";
  text := js "{'error':{'message':'failed to read request body','type':'opgate_error','code':'body_read_failed'}}" ++ [10] |}.
Definition bodyTooLarge : reply := {|
  code := 413; content_type := str "application/json";
  text := js "{'error':{'message':'request body too large','type':'opgate_error','code':'body_too_large'}}" |}.
Definition errorHandler : reply := {|
  code := 502; content_type := str "application/json";
  text := js "{'error':{'message':'upstream request failed','type':'opgate_error','code':'bad_gateway'}}" |}.

Definition h_Authorization : bytes := str "Authorization".
Definition h_ApiKeyX : bytes := str "X-Api-Key".
Definition h_ApiKey : bytes := str "Api-Key".
Definition h_Session : bytes := str "X-Opencode-Session".
Definition h_ContentLength : bytes := str "Content-Length".

(** [clientIdentity] *)
Definition credential (h : Header) : bytes :=
  if decide (Get h h_Authorization ≠ []) then Get h h_Authorization
  else if decide (Get h h_ApiKeyX ≠ []) then Get h h_ApiKeyX
  else if decide (Get h h_ApiKey ≠ []) then Get h h_ApiKey
  else str "anonymous".
Definition clientIdentity (h : Header) : bytes := HashBytes (credential h).

(** [io.ReadAll(io.LimitReader(r.Body, n))]: a limit that is not positive reads
    nothing, and an error behind the limit is not met. *)
Definition ReadAll_limited (r : Request_) (n : Z) : result unit bytes :=
  if n <=? 0 then Ok []
  else if n <=? Z.of_nat (length (Body r)) then Ok (take (Z.to_nat n) (Body r))
  else if Body_fails r then Err tt
  else Ok (Body r).

(** The Boolean is [tooLarge]. *)
Definition readBody (r : Request_) (max : Z) : result unit (bytes * bool) :=
  match ReadAll_limited r (wrap64 (max + 1)) with
  | Err e => Err e
  | Ok b => if max <? Z.of_nat (length b) then Ok ([], true) else Ok (b, false)
  end.

(** ** The request state *)

(** [collector] is the pool's name for the collector; [finished] is the state
    of the [sync.Once]. *)
Record reqState : Type := {
  requestID_ : bytes;
  clientHash : bytes;
  sessionID : bytes;
  source_ : option Source;
  historyHash : bytes;
  canonMsgs : list bytes;
  participate : bool;
  collector : option nat;
  jsonBuf : option bytes;
  jsonTrunc : bool;
  eof : bool;
  earlyFinalized : bool;
  finished : bool;
}.

Definition new_reqState (rid : bytes) : reqState := {|
  requestID_ := rid; clientHash := []; sessionID := []; source_ := None; historyHash := []; canonMsgs := [];
  participate := false; collector := None; jsonBuf := None; jsonTrunc := false; eof := false;
  earlyFinalized := false; finished := false |}.

Definition set_collector (st : reqState) (c : option nat) (b : option bytes) : reqState := {|
  requestID_ := requestID_ st; clientHash := clientHash st; sessionID := sessionID st; source_ := source_ st;
  historyHash := historyHash st; canonMsgs := canonMsgs st; participate := participate st; collector := c;
  jsonBuf := b; jsonTrunc := jsonTrunc st; eof := eof st; earlyFinalized := earlyFinalized st; finished := finished st |}.
Definition set_jsonBuf (st : reqState) (b : option bytes) (t : bool) : reqState := {|
  requestID_ := requestID_ st; clientHash := clientHash st; sessionID := sessionID st; source_ := source_ st;
  historyHash := historyHash st; canonMsgs := canonMsgs st; participate := participate st; collector := collector st;
  jsonBuf := b; jsonTrunc := t; eof := eof st; earlyFinalized := earlyFinalized st; finished := finished st |}.
Definition set_flags (st : reqState) (e ef f : bool) : reqState := {|
  requestID_ := requestID_ st; clientHash := clientHash st; sessionID := sessionID st; source_ := source_ st;
  historyHash := historyHash st; canonMsgs := canonMsgs st; participate := participate st; collector := collector st;
  jsonBuf := jsonBuf st; jsonTrunc := jsonTrunc st; eof := e; earlyFinalized := ef; finished := f |}.

(** ** Serving a request *)

Section handler.
Context {S : Type} `{SessionStore S, TempPageStore S, Metered S}.
Context (cfg : Config.Config).

(** The loop of [prepare]; [None] is the early return. *)
Fixpoint canon_messages (msgs : list bytes) : option (list bytes) :=
  match msgs with
  | [] => Some []
  | m :: msgs' =>
    match Canonicalize m with
    | Err _ => None
    | Ok c => cs ← canon_messages msgs'; Some (c :: cs)
    end
  end.

(** [uuid] is the identifier [Resolve] would generate. *)
Definition prepare (uuid : bytes) (h : Header) (body : bytes) (st : reqState) (s : S) : S * Header * reqState :=
  match ParseChatRequest body with
  | None => (s, h, st)
  | Some [] => (s, h, st)
  | Some msgs =>
    match canon_messages msgs with
    | None => (s, h, st)
    | Some cms =>
      let client := clientIdentity h in
      let '(s, dec) := Resolve uuid client cms (Get h h_Session) s in
      (s, Set_ h h_Session (SessionID dec),
       {| requestID_ := requestID_ st; clientHash := client; sessionID := SessionID dec; source_ := Some (source dec);
          historyHash := HistoryHash_ dec; canonMsgs := cms; participate := true; collector := collector st;
          jsonBuf := jsonBuf st; jsonTrunc := jsonTrunc st; eof := eof st; earlyFinalized := earlyFinalized st;
          finished := finished st |})
    end
  end.

(** The body is put back and the length corrected. *)
Definition restore (r : Request_) (h : Header) (body : bytes) : Request_ := {|
  Method := Method r; RequestURL := RequestURL r;
  Header_ := Set_ h h_ContentLength (Itoa (Z.of_nat (length body)));
  Body := body; Body_fails := false; ContentLength := Some (Z.of_nat (length body)) |}.

(** What becomes of a request: answered here, or handed to the reverse proxy
    with the state in its context. *)
Inductive disposition : Type :=
| Answered (rep : reply)
| Proxied (r : Request_) (st : option reqState).

Definition is_chat (r : Request_) : bool :=
  bool_decide (Method r = str "POST") && HasSuffix (Path (RequestURL r)) (str "/chat/completions").

Definition ServeHTTP (requestID uuid : bytes) (r : Request_) (s : S) : S * disposition :=
  if negb (is_chat r) then (record (Inc (Requests (str "passthrough"))) s, Proxied r None)
  else
    let s := record (Inc (Requests (str "chat"))) s in
    match readBody r (Config.MaxRequestBody (Config.limits cfg)) with
    | Err _ => (s, Answered body_read_failed)
    | Ok (_, true) => (s, Answered bodyTooLarge)
    | Ok (body, false) =>
      let '(s, h, st) := prepare uuid (Header_ r) body (new_reqState requestID) s in
      (s, Proxied (restore r h body) (Some st))
    end.

(** ** The response *)

Inductive body_mode : Type := RawBody | StreamBody | JsonBody.
#[export] Instance body_mode_eq_dec : EqDecision body_mode.
Proof. solve_decision. Defined.

(** [id] names the collector the pool would make. *)
Definition modifyResponse (id : nat) (st : option reqState) (status : Z) (ct : bytes) : option reqState * body_mode :=
  match st with
  | None => (None, RawBody)
  | Some st =>
    if negb (participate st) then (Some st, RawBody)
    else if (status <? 200) || (299 <? status) then (Some st, RawBody)
    else if HasPrefix ct (str "text/event-stream") then (Some (set_collector st (Some id) (jsonBuf st)), StreamBody)
    else if Contains ct (str "json") then (Some (set_collector st (collector st) (Some [])), JsonBody)
    else (Some st, RawBody)
  end.

Definition jsonBufferLimit : Z := Z.shiftl 64 20.

(** The effect of a read of [p] by [jsonBody], before the end-of-file test. *)
Definition json_read (st : reqState) (p : bytes) : reqState :=
  match p, jsonBuf st with
  | _ :: _, Some buf =>
    if Z.of_nat (length buf) + Z.of_nat (length p) <=? jsonBufferLimit
    then set_jsonBuf st (Some (buf ++ p)) (jsonTrunc st)
    else set_jsonBuf st None true
  | _, _ => st
  end.

(** The goroutine [finish] starts. *)
Inductive finalizer : Type := FinalizeStream | FinalizeJSON | FinalizeStreamOnClose.

Definition finish (st : reqState) (s : S) : S * reqState * option finalizer :=
  if finished st then (s, st, None)
  else
    let st' := set_flags st (eof st) (earlyFinalized st) true in
    if earlyFinalized st then (s, st', None)
    else if eof st then
      let s := record (ObserveSeconds StreamDuration) (record (Inc StreamCompleted) s) in
      match collector st, jsonBuf st with
      | Some _, _ => (s, st', Some FinalizeStream)
      | None, Some _ => (s, st', Some FinalizeJSON)
      | None, None => (s, st', None)
      end
    else
      match collector st with
      | Some _ => (s, st', Some FinalizeStreamOnClose)
      | None => (record (Inc StreamAborted) s, st', None)
      end.

(** End of file: the flag, then [finish]. *)
Definition on_eof (st : reqState) (s : S) : S * reqState * option finalizer :=
  finish (set_flags st true (earlyFinalized st) (finished st)) s.
Definition on_close (st : reqState) (s : S) : S * reqState * option finalizer := finish st s.

(** ** Finalizers *)

Definition putMapping (st : reqState) (assistant : bytes) (s : S) : S :=
  let full := FullState (canonMsgs st) assistant in
  let stateHash := HashBytes full in
  let '(s, r) := PutSession (clientHash st) stateHash (sessionID st) (Config.Session_TTL (Config.session_ cfg)) s in
  match r with
  | Err _ => record (Inc FinalizeError) (record (Inc SessionMappingError) s)
  | Ok _ => record (Inc FinalizeSuccess) (record (Inc SessionMappingCreated) s)
  end.

(** The measurements every stream finalizer takes after [Finalize]. *)
Definition finalize_observed (stats : Stats) (s : S) : S :=
  record (Observe PageCount (Pages stats)) (record (Observe ResponseBytes (Bytes stats))
    (record (ObserveSeconds FinalizeDuration) s)).

(** What the finalizers do with the outcome of [Finalize]; the last component is
    the message whose mapping is to be written. *)
Definition finalizeAtDone_result (st : reqState) (r : result collector_error bytes) (stats : Stats) (s : S) :
    S * reqState * option bytes :=
  let s := finalize_observed stats s in
  match r with
  | Err _ => (record (Inc FinalizeError) s, st, None)
  | Ok a =>
    (record (ObserveSeconds StreamDuration) (record (Inc StreamCompleted) s),
     set_flags st (eof st) true (finished st), Some a)
  end.

Definition finalizeStreamOnClose_result (st : reqState) (r : result collector_error bytes) (stats : Stats) (s : S) :
    S * reqState * option bytes :=
  let s := finalize_observed stats s in
  match r with
  | Err _ => (record (Inc FinalizeError) (record (Inc StreamAborted) s), st, None)
  | Ok a => (record (ObserveSeconds StreamDuration) (record (Inc StreamCompleted) s), st, Some a)
  end.

Definition finalizeStream_result (st : reqState) (r : result collector_error bytes) (stats : Stats) (s : S) :
    S * reqState * option bytes :=
  let s := finalize_observed stats s in
  match r with
  | Err _ => (record (Inc FinalizeError) s, st, None)
  | Ok a => (s, st, Some a)
  end.

(** The message of a complete JSON response. *)
Definition json_message (body : bytes) : option bytes :=
  match ParseCompletionResponse body with
  | Err _ => None
  | Ok message => match AssistantFromMessage message with Err _ => None | Ok a => Some a end
  end.

Definition finalizeJSON_result (st : reqState) (s : S) : S * option bytes :=
  match jsonTrunc st, jsonBuf st with
  | false, Some body =>
    let s := record (Observe ResponseBytes (Z.of_nat (length body))) s in
    match json_message body with
    | None => (record (Inc FinalizeError) s, None)
    | Some a => (s, Some a)
    end
  | _, _ => (record (Inc FinalizeError) s, None)
  end.

Definition put_result (st : reqState) (a : option bytes) (s : S) : S :=
  match a with Some a => putMapping st a s | None => s end.

(** The finalizers in one go, for a collector whose pages are settled. *)
Definition finalizeAtDone (st : reqState) (c : Collector) (s : S) : S * reqState :=
  let '(s, r, stats) := Finalize c s in
  let '(s, st, a) := finalizeAtDone_result st r stats s in
  (put_result st a s, st).

Definition finalizeStreamOnClose (st : reqState) (c : Collector) (s : S) : S :=
  if earlyFinalized st then s
  else
    let '(s, r, stats) := Finalize c s in
    let '(s, st, a) := finalizeStreamOnClose_result st r stats s in
    put_result st a s.

Definition finalizeStream (st : reqState) (c : Collector) (s : S) : S :=
  if earlyFinalized st then s
  else
    let '(s, r, stats) := Finalize c s in
    let '(s, st, a) := finalizeStream_result st r stats s in
    put_result st a s.

Definition finalizeJSON (st : reqState) (s : S) : S :=
  let '(s, a) := finalizeJSON_result st s in put_result st a s.

(** [abortCollector], which nothing calls. *)
Definition abortCollector (c : Collector) (s : S) : S * Collector := Abort_ c s.
End handler.

(** ** Reading the request body *)

Lemma readBody_spec r max : 0 <= max < 2 ^ 63 - 1 →
  readBody r max = if max <? Z.of_nat (length (Body r)) then Ok ([], true)
                   else if Body_fails r then Err tt else Ok (Body r, false).
Proof.
  intros Hm. unfold readBody, ReadAll_limited. rewrite wrap64_id by lia. bfalse (max + 1 <=? 0).
  destruct (Z.leb_spec (max + 1) (Z.of_nat (length (Body r)))).
  - rewrite length_take. btrue (max <? Z.of_nat (length (Body r))).
    assert (max < Z.of_nat (Z.to_nat (max + 1) `min` length (Body r))) by lia. by destruct (Z.ltb_spec max (Z.of_nat (Z.to_nat (max + 1) `min` length (Body r)))); [|lia].
  - bfalse (max <? Z.of_nat (length (Body r))). destruct (Body_fails r); [done|].
    by bfalse (max <? Z.of_nat (length (Body r))).
Qed.

(** At the largest limit the addition wraps and nothing is read. *)
Lemma readBody_wraps r : readBody r (2 ^ 63 - 1) = Ok ([], false).
Proof. done. Qed.

(** ** Canonical messages *)

Lemma canon_messages_spec msgs cms : canon_messages msgs = Some cms ↔ Forall2 (λ m c, Canonicalize m = Ok c) msgs cms.
Proof.
  revert cms. induction msgs as [|m msgs IH]; intros cms; cbn.
  - split; [intros [= <-]; constructor|by inversion 1].
  - destruct (Canonicalize m) as [c|e] eqn:E; [|split; [done|by inversion 1; congruence]].
    destruct (canon_messages msgs) as [cs|] eqn:Ec; cbn.
    + split; [intros [= <-]; constructor; [done|by apply IH]|].
      inversion 1 as [|? c' ? cs' Hc Hcs]; subst. apply IH in Hcs. congruence.
    + split; [done|]. inversion 1 as [|? c' ? cs' Hc Hcs]; subst. by apply IH in Hcs.
Qed.

(** A parsed request never fails to canonicalize. *)
Lemma canon_messages_parsed body msgs : ParseChatRequest body = Some msgs → is_Some (canon_messages msgs).
Proof.
  intros Hm%ParseChatRequest_canonical. induction Hm as [|m msgs Hm _ [cs IH]]; cbn; [eauto|].
  destruct (Canonicalize m); [|done]. rewrite IH. eauto.
Qed.

Lemma canon_messages_canonical msgs cms : canon_messages msgs = Some cms → Forall (λ c, ∃ raw, Canonicalize raw = Ok c) cms.
Proof. rewrite canon_messages_spec. induction 1; constructor; eauto. Qed.

(** Whether a body takes part in the session logic, and with which messages. *)
Definition chat_messages (body : bytes) : option (list bytes) :=
  match ParseChatRequest body with
  | None | Some [] => None
  | Some msgs => canon_messages msgs
  end.

Lemma chat_messages_texts body cms : chat_messages body = Some cms → Forall canonical_text cms.
Proof.
  unfold chat_messages. destruct (ParseChatRequest body) as [[|msg msgs]|]; try done.
  intros Hc%canon_messages_canonical. by apply canonical_all_texts.
Qed.

(** ** What [prepare] does *)

Section prepare.
Context {S : Type} `{SessionStore S, TempPageStore S, Metered S}.

Lemma prepare_eq uuid h body rid (s : S) :
  prepare uuid h body (new_reqState rid) s =
  match chat_messages body with
  | None => (s, h, new_reqState rid)
  | Some cms =>
    let '(s', dec) := Resolve uuid (clientIdentity h) cms (Get h h_Session) s in
    (s', Set_ h h_Session (SessionID dec),
     {| requestID_ := rid; clientHash := clientIdentity h; sessionID := SessionID dec; source_ := Some (source dec);
        historyHash := HistoryHash_ dec; canonMsgs := cms; participate := true; collector := None; jsonBuf := None;
        jsonTrunc := false; eof := false; earlyFinalized := false; finished := false |})
  end.
Proof.
  unfold prepare, chat_messages. by destruct (ParseChatRequest body) as [[|m msgs]|].
Qed.

Lemma Resolve_client uuid c cms cs (s : S) : cs ≠ [] → SessionID (Resolve uuid c cms cs s).2 = cs.
Proof. unfold Resolve. by destruct cs. Qed.
End prepare.

Lemma Get_Set h k v : Get (Set_ h k v) k = v.
Proof. unfold Get, Set_. by rewrite lookup_insert_eq. Qed.

(** ** The body of a JSON response *)

Inductive body_event : Type := BodyRead (p : bytes) | BodyEof | BodyClose.

Section body.
Context {S : Type} `{SessionStore S, TempPageStore S, Metered S}.

(** The finalizers a sequence of events on the body wrapper starts. *)
Fixpoint body_events (es : list body_event) (st : reqState) (s : S) : S * reqState * list finalizer :=
  match es with
  | [] => (s, st, [])
  | e :: es' =>
    let '(s, st, f) :=
      match e with
      | BodyRead p => (s, json_read st p, None)
      | BodyEof => on_eof st s
      | BodyClose => on_close st s
      end in
    let '(s, st, fs) := body_events es' st s in
    (s, st, match f with Some f => f :: fs | None => fs end)
  end.

Lemma json_read_finished st p : finished (json_read st p) = finished st.
Proof. unfold json_read. destruct p; [done|]. destruct (jsonBuf st); [|done]. by case_match. Qed.

Lemma finish_finished st (s : S) : finished (finish st s).1.2 = true.
Proof. unfold finish. destruct (finished st) eqn:E; [done|]. by repeat case_match. Qed.

Lemma finish_again st (s : S) : finished st = true → finish st s = (s, st, None).
Proof. unfold finish. by intros ->. Qed.

(** Once finished, nothing is started any more. *)
Lemma body_events_finished es st (s : S) : finished st = true →
  (body_events es st s).2 = [] ∧ (body_events es st s).1.1 = s.
Proof.
  revert st. induction es as [|e es IH]; intros st Hf; [done|]. destruct e as [p| |]; cbn [body_events].
  - destruct (IH (json_read st p)) as [Hn Hs]; [by rewrite json_read_finished|].
    by destruct (body_events es (json_read st p) s) as [[? ?] ?].
  - unfold on_eof. rewrite finish_again by done. destruct (IH (set_flags st true (earlyFinalized st) (finished st))); [done|].
    by destruct (body_events es _ s) as [[? ?] ?].
  - unfold on_close. rewrite finish_again by done. destruct (IH st); [done|]. by destruct (body_events es st s) as [[? ?] ?].
Qed.

(** The state after the reads [ps] of a fresh JSON body. *)
Definition json_reads (st : reqState) (ps : list bytes) : reqState := foldl json_read st ps.

Lemma json_reads_over st ps : jsonBuf st = None → json_reads st ps = st.
Proof.
  intros Hb. induction ps as [|p ps IH] in st, Hb |- *; [done|]. cbn.
  assert (json_read st p = st) as ->; [|by apply IH]. unfold json_read. rewrite Hb. by destruct p.
Qed.

Lemma json_reads_spec st ps buf : jsonBuf st = Some buf → Z.of_nat (length buf) <= jsonBufferLimit →
  jsonBuf (json_reads st ps) =
    if Z.of_nat (length (buf ++ concat ps)) <=? jsonBufferLimit then Some (buf ++ concat ps) else None.
Proof.
  revert st buf. induction ps as [|p ps IH]; intros st buf Hb Hl; cbn [concat json_reads foldl].
  { rewrite app_nil_r. by btrue (Z.of_nat (length buf) <=? jsonBufferLimit). }
  fold (json_reads (json_read st p) ps). unfold json_read. destruct p as [|b p]; [by apply IH|]. rewrite Hb.
  rewrite <-Nat2Z.inj_add, <-length_app, app_assoc.
  destruct (Z.leb_spec (Z.of_nat (length (buf ++ b :: p))) jsonBufferLimit) as [Hle|Hgt].
  - by apply IH.
  - rewrite json_reads_over by done. cbn [jsonBuf set_jsonBuf]. rewrite (length_app (buf ++ b :: p)).
    destruct (Z.leb_spec (Z.of_nat (length (buf ++ b :: p) + length (concat ps))) jsonBufferLimit); [lia|done].
Qed.

Lemma json_reads_flags st ps : finished (json_reads st ps) = finished st ∧ earlyFinalized (json_reads st ps) = earlyFinalized st ∧
  collector (json_reads st ps) = collector st ∧ canonMsgs (json_reads st ps) = canonMsgs st ∧
  (jsonBuf (json_reads st ps) ≠ None → jsonTrunc (json_reads st ps) = jsonTrunc st).
Proof.
  revert st. induction ps as [|p ps IH]; intros st; [done|]. cbn. fold (json_reads (json_read st p) ps).
  destruct (IH (json_read st p)) as (->&->&->&->&Ht). unfold json_read in *.
  destruct p as [|b p]; [done|]. destruct (jsonBuf st) eqn:Eb; [|done].
  destruct (_ <=? _); [done|]. split_and!; try done. intros []. by rewrite json_reads_over.
Qed.

Lemma body_events_reads ps es st (s : S) : body_events ((BodyRead <$> ps) ++ es) st s = body_events es (json_reads st ps) s.
Proof.
  revert st. induction ps as [|p ps IH]; intros st; [done|]. cbn [fmap list_fmap app body_events json_reads foldl].
  rewrite IH. fold (json_reads (json_read st p) ps). by destruct (body_events es _ s) as [[? ?] ?].
Qed.
End body.

(** ** Storing and finding a mapping *)

Section mapping.
Context {S : Type} `{PersistentSessions S}.

Lemma record_at e (s : S) c h : session_at (record e s) c h = session_at s c h.
Proof. by destruct (record_spec e s) as [-> _]. Qed.

Lemma putMapping_session cfg st a (s : S) c h : session_at (putMapping cfg st a s) c h =
  session_at (PutSession (clientHash st) (HashBytes (FullState (canonMsgs st) a)) (sessionID st)
    (Config.Session_TTL (Config.session_ cfg)) s).1 c h.
Proof. unfold putMapping. destruct (PutSession _ _ _ _ s) as [s' [[]|e]]; by rewrite !record_at. Qed.

(** A request whose history is what was stored resolves to the stored session. *)
Lemma Resolve_stored uuid c history u (s : S) id r : history ≠ [] → session_at s c (HistoryHash history) = Some id →
  (GetSession c (HistoryHash history) s).2 = Ok r →
  (Resolve uuid c (history ++ [u]) [] s).2 =
  {| SessionID := id; source := SourceResolved; HistoryHash_ := HistoryHash history |}.
Proof.
  intros Hne Hat Hg. rewrite Resolve_resolution. unfold resolution, but_last. rewrite decide_False by (by intros []).
  rewrite length_app, Nat.add_sub, take_app_length.
  rewrite (GetSession_answer _ _ _ _ Hg) in Hg. rewrite Hg, Hat.
  assert ((1 <? length history + length [u])%nat = true) as ->; [|done].
  apply Nat.ltb_lt. destruct history; [done|]. cbn. lia.
Qed.
End mapping.

(** ** Properties *)

(** What the reverse proxy is given: with a body limit below the largest
    int64, a request is answered by the gateway itself exactly when it is a chat
    request whose body is too large or cannot be read; otherwise it is forwarded
    with its method, path, body and all headers but two.  The content length is
    that of the body; the session header is set, once, to the session of a
    participating request, which is the client's own if it sent one, and is left
    alone otherwise. *)
Lemma ServeHTTP_forwards {S} `{SessionStore S, TempPageStore S, Metered S} cfg rid uuid r (s : S) :
  0 < Config.MaxRequestBody (Config.limits cfg) < 2 ^ 63 - 1 →
  match (ServeHTTP cfg rid uuid r s).2 with
  | Answered rep => is_chat r = true ∧
      ((rep = bodyTooLarge ∧ Config.MaxRequestBody (Config.limits cfg) < Z.of_nat (length (Body r))) ∨
       (rep = body_read_failed ∧ Body_fails r = true))
  | Proxied r' None => r' = r ∧ is_chat r = false
  | Proxied r' (Some st) =>
      is_chat r = true ∧ Z.of_nat (length (Body r)) <= Config.MaxRequestBody (Config.limits cfg) ∧
      Method r' = Method r ∧ RequestURL r' = RequestURL r ∧ Body r' = Body r ∧ Body_fails r' = false ∧
      ContentLength r' = Some (Z.of_nat (length (Body r))) ∧
      (∀ k, k ≠ h_Session → k ≠ h_ContentLength → Header_ r' !! k = Header_ r !! k) ∧
      Header_ r' !! h_ContentLength = Some [Itoa (Z.of_nat (length (Body r)))] ∧
      (if participate st
       then Header_ r' !! h_Session = Some [sessionID st] ∧
         (Get (Header_ r) h_Session ≠ [] → sessionID st = Get (Header_ r) h_Session)
       else Header_ r' !! h_Session = Header_ r !! h_Session)
  end.
Proof.
  intros Hmax. unfold ServeHTTP. destruct (is_chat r) eqn:Ec; [|done]. cbn [negb].
  rewrite readBody_spec by lia. destruct (Z.ltb_spec (Config.MaxRequestBody (Config.limits cfg)) (Z.of_nat (length (Body r)))).
  { split; [done|]. by left. }
  destruct (Body_fails r) eqn:Ef; [split; [done|]; by right|].
  rewrite prepare_eq. assert (h_Session ≠ h_ContentLength) as Hne by done.
  destruct (chat_messages (Body r)) as [cms|]; cbn [snd].
  - set (s1 := record _ s). pose proof (Resolve_client uuid (clientIdentity (Header_ r)) cms (Get (Header_ r) h_Session) s1) as Hcl.
    destruct (Resolve _ _ cms _ s1) as [s' dec]. cbn [snd] in *. unfold restore. cbn [participate sessionID Method RequestURL Body Body_fails Header_ ContentLength].
    split_and!; try done; unfold Set_.
    + intros k Hk1 Hk2. by rewrite !lookup_insert_ne.
    + by rewrite lookup_insert_eq.
    + by rewrite lookup_insert_ne, lookup_insert_eq.
  - unfold restore. cbn [participate new_reqState Method RequestURL Body Body_fails Header_ ContentLength]. split_and!; try done; unfold Set_.
    + intros k Hk1 Hk2. by rewrite lookup_insert_ne.
    + by rewrite lookup_insert_eq.
    + by rewrite lookup_insert_ne.
Qed.

Definition sample_gateway : Config.Config := Config.Default.
Definition chat_url : URL := {| Scheme := []; Opaque := []; Host := []; Path := str "/v1/chat/completions"; RawPath := [];
  ForceQuery := false; RawQuery := [] |}.
Definition chat_request (h : Header) (body : bytes) : Request_ :=
  {| Method := str "POST"; RequestURL := chat_url; Header_ := h; Body := body; Body_fails := false; ContentLength := None |}.
Definition sample_request : Request_ := chat_request ∅ (js "{'messages':[{'role':'user','content':'hi'}]}").

(** [C36] A body limit of 2^63-1 bytes, which the configuration accepts, makes the
    limit of the reader wrap around: every chat request is forwarded with an
    empty body and without session, whatever its body was. *)
Theorem ServeHTTP_limit_wraps {S} `{SessionStore S, TempPageStore S, Metered S} cfg rid uuid r (s : S) :
  Config.MaxRequestBody (Config.limits cfg) = 2 ^ 63 - 1 → is_chat r = true →
  ServeHTTP cfg rid uuid r s
  = (record (Inc (Requests (str "chat"))) s, Proxied (restore r (Header_ r) []) (Some (new_reqState rid))).
Proof. intros Hm Hc. unfold ServeHTTP. by rewrite Hc, Hm, readBody_wraps. Qed.

Definition unlimited : Config.Config := {|
  Config.server := Config.server Config.Default; Config.upstream := {| Config.BaseURL := str "https://up.example" |};
  Config.redis_ := Config.redis_ Config.Default; Config.session_ := Config.session_ Config.Default;
  Config.response_cache := Config.response_cache Config.Default;
  Config.limits := {| Config.MaxRequestBody := 2 ^ 63 - 1 |}; Config.logging := Config.logging Config.Default |}.

Lemma ServeHTTP_limit_wraps_witness :
  Config.Validate unlimited = None ∧
  ServeHTTP unlimited (str "r") (str "U") sample_request mem_store
  = (record (Inc (Requests (str "chat"))) mem_store,
     Proxied (restore sample_request (Header_ sample_request) []) (Some (new_reqState (str "r")))).
Proof. split; [vm_compute; reflexivity|]. apply ServeHTTP_limit_wraps; reflexivity. Defined.

(** [C35] A JSON response read in any pieces and then ended and closed: up to 64 MiB
    the finalizer is started, once, with exactly the bytes that were read; beyond,
    no finalizer is started at all, so its branch for an over-long response is
    never reached and neither a failure is counted nor a warning written; and a
    response closed before its end starts none and is counted as aborted. *)
Theorem json_body_finalized {S} `{SessionStore S, TempPageStore S, Metered S} st ps (s : S) :
  jsonBuf st = Some [] → jsonTrunc st = false → collector st = None → finished st = false → earlyFinalized st = false →
  (let '(s', st', fs) := body_events ((BodyRead <$> ps) ++ [BodyEof; BodyClose]) st s in
   s' = record (ObserveSeconds StreamDuration) (record (Inc StreamCompleted) s) ∧
   if Z.of_nat (length (concat ps)) <=? jsonBufferLimit
   then fs = [FinalizeJSON] ∧ jsonBuf st' = Some (concat ps) ∧ jsonTrunc st' = false
   else fs = []) ∧
  (let '(s', _, fs) := body_events ((BodyRead <$> ps) ++ [BodyClose]) st s in
   eof st = false → fs = [] ∧ s' = record (Inc StreamAborted) s).
Proof.
  intros Hb Ht Hc Hf He. rewrite !body_events_reads. destruct (json_reads_flags st ps) as (Hf'&He'&Hc'&_&Ht').
  pose proof (json_reads_spec st ps [] Hb ltac:(by vm_compute)) as Hj. cbn [app] in Hj.
  set (st1 := json_reads st ps) in *. split.
  - cbn [body_events]. unfold on_eof, finish. cbn [finished set_flags earlyFinalized eof collector jsonBuf].
    rewrite Hf', He', Hf, He, Hc', Hc, Hj.
    destruct (_ <=? jsonBufferLimit); cbn [body_events on_close finish finished set_flags]; [|done].
    split_and!; try done. cbn. rewrite Ht'; [done|]. by rewrite Hj.
  - cbn [body_events]. unfold on_close, finish. rewrite Hf', He', Hf, He, Hc', Hc.
    assert (eof st1 = eof st) as ->.
    { unfold st1. clear. revert st. induction ps as [|p ps IH]; intros st; [done|]. cbn. fold (json_reads (json_read st p) ps).
      rewrite IH. unfold json_read. destruct p; [done|]. destruct (jsonBuf st); [|done]. by case_match. }
    destruct (eof st); [|by intros _]. by destruct (jsonBuf st1).
Qed.

Definition json_state : reqState := set_collector (new_reqState (str "r")) None (Some []).

Lemma json_body_finalized_witness :
  (body_events ((BodyRead <$> [str "{"; []; str "}"]) ++ [BodyEof; BodyClose]) json_state mem_store).2 = [FinalizeJSON].
Proof.
  pose proof (proj1 (json_body_finalized json_state [str "{"; []; str "}"] mem_store eq_refl eq_refl eq_refl eq_refl eq_refl)) as Hf.
  revert Hf. vm_compute. intros [_ [E _]]. exact E.
Defined.

(** A request without a session of its own whose earlier messages have a mapping
    is forwarded with the session of that mapping, as soon as the store answers
    the look-up. *)
Lemma ServeHTTP_resolves {S} `{PersistentSessions S} cfg rid uuid r (s : S) history u id x :
  0 < Config.MaxRequestBody (Config.limits cfg) < 2 ^ 63 - 1 → is_chat r = true →
  Z.of_nat (length (Body r)) <= Config.MaxRequestBody (Config.limits cfg) → Body_fails r = false →
  Get (Header_ r) h_Session = [] → history ≠ [] → chat_messages (Body r) = Some (history ++ [u]) →
  session_at s (clientIdentity (Header_ r)) (HistoryHash history) = Some id →
  (GetSession (clientIdentity (Header_ r)) (HistoryHash history) (record (Inc (Requests (str "chat"))) s)).2 = Ok x →
  ∃ s' r' st, ServeHTTP cfg rid uuid r s = (s', Proxied r' (Some st)) ∧
    source_ st = Some SourceResolved ∧ sessionID st = id ∧ Header_ r' !! h_Session = Some [id].
Proof.
  intros Hmax Hchat Hlen Hbf Hcs Hne Hmsgs Hat Hget.
  unfold ServeHTTP. rewrite Hchat. cbn [negb]. rewrite readBody_spec by lia.
  bfalse (Config.MaxRequestBody (Config.limits cfg) <? Z.of_nat (length (Body r))). rewrite Hbf, prepare_eq, Hmsgs, Hcs.
  pose proof (Resolve_stored uuid (clientIdentity (Header_ r)) history u (record (Inc (Requests (str "chat"))) s) id x) as Hres.
  destruct (Resolve _ _ _ _ _) as [s3 dec]. cbn [snd] in Hres. rewrite Hres; [|done|by rewrite record_at|done].
  eexists _, _, _. split; [reflexivity|]. split; [done|]. split; [done|]. unfold restore. cbn [Header_ SessionID]. unfold Set_.
  by rewrite lookup_insert_ne, lookup_insert_eq.
Qed.

(** A mapping that was stored. *)
Lemma putMapping_stored {S} `{PersistentSessions S} cfg st a (s : S) : 0 < Config.Session_TTL (Config.session_ cfg) →
  (PutSession (clientHash st) (HashBytes (FullState (canonMsgs st) a)) (sessionID st)
     (Config.Session_TTL (Config.session_ cfg)) s).2 = Ok tt →
  session_at (putMapping cfg st a s) (clientHash st) (HistoryHash (canonMsgs st ++ [a])) = Some (sessionID st).
Proof. intros Httl Hput. rewrite putMapping_session, <-FullState_HistoryHash. by apply PutSession_stored. Qed.
