(* ===== verification/Outbound.v ===== *)
(** * What the upstream receives: [NewHandler]'s reverse proxy

    [NewHandler] builds an [httputil.ReverseProxy] whose [Rewrite] sends every
    request to the configured upstream.  This is what that proxy makes of a
    request before its transport sends it (net/http/httputil of Go 1.24.0): the
    target URL, the headers that are dropped and added, the cleaned query.  What
    the transport does and how the response comes back is outside. *)
From S2P Require Import Prelude Utf8 GoBytes NetUrl UrlFacts Json Sha256 Canon Request Metrics Store Session Collector Proxy.
From S2P Require Config.

(** ** Header names and lists *)

(** [textproto.validHeaderFieldByte] *)
Definition is_token_byte (c : Z) : bool := is_alpha c || is_digit c || one_of c "!#$%&'*+-.^_`|~".

Definition is_upper (c : Z) : bool := (65 <=? c) && (c <=? 90).
Definition is_lower (c : Z) : bool := (97 <=? c) && (c <=? 122).

Fixpoint canonical_from (upper : bool) (s : bytes) : bytes :=
  match s with
  | [] => []
  | c :: s' =>
    let c := if upper && is_lower c then c - 32 else if negb upper && is_upper c then c + 32 else c in
    c :: canonical_from (c =? 45) s'
  end.
Definition CanonicalMIMEHeaderKey (s : bytes) : bytes :=
  if forallb is_token_byte s then canonical_from true s else s.

Definition Del (h : Header) (k : bytes) : Header := delete (CanonicalMIMEHeaderKey k) h.

Fixpoint trim_left (f : Z → bool) (s : bytes) : bytes :=
  match s with c :: s' => if f c then trim_left f s' else s | [] => [] end.
Definition trim_with (f : Z → bool) (s : bytes) : bytes := reverse (trim_left f (reverse (trim_left f s))).

(** [textproto.TrimString] and [httpguts]'s optional white space. *)
Definition TrimString : bytes → bytes := trim_with (λ c, (c =? 32) || (c =? 9) || (c =? 10) || (c =? 13)).
Definition trimOWS : bytes → bytes := trim_with (λ c, (c =? 32) || (c =? 9)).

(** [httpguts.HeaderValuesContainsToken]; the token is ASCII. *)
Definition tokenEqual (t1 t2 : bytes) : bool := forallb (λ c, c <? 128) t1 && bool_decide (ToLower t1 = ToLower t2).
Definition HeaderValuesContainsToken (values : list bytes) (token : bytes) : bool :=
  existsb (λ v, existsb (λ x, tokenEqual (trimOWS x) token) (Split v 44)) values.

Definition h_Connection : bytes := str "Connection".
Definition h_Upgrade : bytes := str "Upgrade".
Definition h_Te : bytes := str "Te".
Definition h_UserAgent : bytes := str "User-Agent".
Definition values (h : Header) (k : bytes) : list bytes := default [] (h !! k).

Definition upgradeType (h : Header) : bytes :=
  if HeaderValuesContainsToken (values h h_Connection) h_Upgrade then Get h h_Upgrade else [].

Definition hopHeaders : list bytes :=
  str <$> ["Connection"; "Proxy-Connection"; "Keep-Alive"; "Proxy-Authenticate"; "Proxy-Authorization"; "Te"; "Trailer";
           "Transfer-Encoding"; "Upgrade"]%string.
Definition forwarding : list bytes :=
  str <$> ["Forwarded"; "X-Forwarded-For"; "X-Forwarded-Host"; "X-Forwarded-Proto"]%string.

(** The names a [Connection] header lists. *)
Definition connection_options (h : Header) : list bytes :=
  filter (λ x, x ≠ []) (TrimString <$> (values h h_Connection ≫= λ f, Split f 44)).

Definition removeHopByHopHeaders (h : Header) : Header := foldl Del (foldl Del h (connection_options h)) hopHeaders.

(** ** The query *)

Definition is_hex_digit (c : Z) : bool := match hex_val c with Some _ => true | None => false end.

(** Is there a semicolon or a malformed escape? *)
Fixpoint query_dirty (s : bytes) : bool :=
  match s with
  | [] => false
  | c :: s' =>
    if c =? 59 then true
    else if c =? 37 then
      match s' with
      | a :: b :: s'' => if is_hex_digit a && is_hex_digit b then query_dirty s'' else true
      | _ => true
      end
    else query_dirty s'
  end.
Definition cleanQueryParams (s : bytes) : bytes := if query_dirty s then Encode (ParseQuery s) else s.

(** ** The target *)

Definition singleJoiningSlash (a b : bytes) : bytes :=
  if HasSuffix a (str "/") && HasPrefix b (str "/") then a ++ drop 1 b
  else if negb (HasSuffix a (str "/")) && negb (HasPrefix b (str "/")) then a ++ str "/" ++ b
  else a ++ b.

(** The path and the raw path. *)
Definition joinURLPath (a b : URL) : bytes * bytes :=
  if bool_decide (RawPath a = [] ∧ RawPath b = []) then (singleJoiningSlash (Path a) (Path b), [])
  else
    let apath := EscapedPath a in
    let bpath := EscapedPath b in
    if HasSuffix apath (str "/") && HasPrefix bpath (str "/") then (Path a ++ drop 1 (Path b), apath ++ drop 1 bpath)
    else if negb (HasSuffix apath (str "/")) && negb (HasPrefix bpath (str "/")) then
      (Path a ++ str "/" ++ Path b, apath ++ str "/" ++ bpath)
    else (Path a ++ Path b, apath ++ bpath).

Definition join_query (targetQuery query : bytes) : bytes :=
  if bool_decide (targetQuery = [] ∨ query = []) then targetQuery ++ query else targetQuery ++ str "&" ++ query.

Definition set_RawQuery (u : URL) (q : bytes) : URL := {|
  Scheme := Scheme u; Opaque := Opaque u; Host := Host u; Path := Path u; RawPath := RawPath u;
  ForceQuery := ForceQuery u; RawQuery := q |}.

Definition rewriteRequestURL (u target : URL) : URL :=
  let '(path, rawpath) := joinURLPath target u in {|
  Scheme := Scheme target; Opaque := Opaque u; Host := Host target; Path := path; RawPath := rawpath;
  ForceQuery := ForceQuery u; RawQuery := join_query (RawQuery target) (RawQuery u) |}.

(** ** The outgoing request *)

(** An empty [out_Host] means the host of the URL; a body of [None] is nil. *)
Record outreq : Type := {
  out_Method : bytes;
  out_URL : URL;
  out_Host : bytes;
  out_Header : Header;
  out_Body : option bytes;
}.

(** The fields of [httputil.ReverseProxy] that say what is sent; a negative flush
    interval means that every piece of the answer is passed on at once. *)
Record ReverseProxy : Type := {
  Rewrite_ : outreq → outreq;
  FlushInterval : Z;
  ErrorHandler : reply;
}.

(** [NewHandler]'s [Rewrite], which is [pr.SetURL(upstream)]. *)
Definition Rewrite (upstream : URL) (out : outreq) : outreq := {|
  out_Method := out_Method out; out_URL := rewriteRequestURL (out_URL out) upstream; out_Host := [];
  out_Header := out_Header out; out_Body := out_Body out |}.

(** The reverse proxy [NewHandler] builds. *)
Definition NewHandler (upstream : URL) : ReverseProxy := {|
  Rewrite_ := Rewrite upstream; FlushInterval := -1; ErrorHandler := errorHandler |}.

(** The headers [ReverseProxy] sends on. *)
Definition proxy_header (h : Header) : Header :=
  let reqUpType := upgradeType h in
  let out := removeHopByHopHeaders h in
  let out := if HeaderValuesContainsToken (values h h_Te) (str "trailers") then Set_ out h_Te (str "trailers") else out in
  let out := if bool_decide (reqUpType ≠ []) then Set_ (Set_ out h_Connection h_Upgrade) h_Upgrade reqUpType else out in
  foldl Del out forwarding.
Definition default_agent (h : Header) : Header :=
  match h !! h_UserAgent with Some _ => h | None => Set_ h h_UserAgent [] end.

(** [ReverseProxy.ServeHTTP]: what is sent, or the error handler's answer if the
    protocol to upgrade to is not printable. *)
Definition proxy_request (p : ReverseProxy) (r : Request_) : result reply outreq :=
  if forallb (λ c, (32 <=? c) && (c <=? 126)) (upgradeType (Header_ r)) then
    let out := Rewrite_ p {|
      out_Method := Method r; out_URL := set_RawQuery (RequestURL r) (cleanQueryParams (RawQuery (RequestURL r)));
      out_Host := []; out_Header := proxy_header (Header_ r);
      out_Body := if bool_decide (ContentLength r = Some 0) then None else Some (Body r) |} in
    Ok {| out_Method := out_Method out; out_URL := out_URL out; out_Host := out_Host out;
          out_Header := default_agent (out_Header out); out_Body := out_Body out |}
  else Err (ErrorHandler p).

(** ** The path that is sent *)

Lemma HasPrefix_slash s : HasPrefix s (str "/") = match s with c :: _ => c =? 47 | [] => false end.
Proof. destruct s as [|c s]; [done|]. change (str "/") with [47]. unfold HasPrefix. cbn [strip_prefix]. rewrite Z.eqb_sym. by destruct (c =? 47). Qed.

Lemma HasSuffix_slash s c : HasSuffix (s ++ [c]) (str "/") = (c =? 47).
Proof. unfold HasSuffix. rewrite reverse_snoc. apply HasPrefix_slash. Qed.

(** Slashes at the ends of a path are those of its encoding. *)
Lemma escape_first_slash p : Forall is_byte p → HasPrefix (escape encodePath p) (str "/") = HasPrefix p (str "/").
Proof.
  intros Hp. destruct p as [|c p]; [done|]. apply Forall_cons in Hp as [Hc _].
  rewrite !HasPrefix_slash. change (escape encodePath (c :: p)) with (escape_byte encodePath c ++ escape encodePath p).
  apply (all_bytes (λ c, match escape_byte encodePath c with d :: _ => bool_decide ((d =? 47) = (c =? 47)) | [] => false end)) in Hc;
    [|by vm_compute]. destruct (escape_byte encodePath c); [done|]. by apply bool_decide_eq_true in Hc.
Qed.

Lemma escape_last_slash p : Forall is_byte p → HasSuffix (escape encodePath p) (str "/") = HasSuffix p (str "/").
Proof.
  intros Hp. destruct p as [|c p _] using rev_ind; [done|]. apply Forall_app in Hp as [_ [Hc _]%Forall_cons].
  rewrite HasSuffix_slash, escape_app. change (escape encodePath [c]) with (escape_byte encodePath c ++ []). rewrite app_nil_r.
  apply (all_bytes (λ c, match reverse (escape_byte encodePath c) with d :: _ => bool_decide ((d =? 47) = (c =? 47)) | [] => false end)) in Hc;
    [|by vm_compute]. destruct (escape_byte encodePath c) as [|d l _] using rev_ind; [done|].
  rewrite reverse_snoc in Hc. apply bool_decide_eq_true in Hc. by rewrite app_assoc, HasSuffix_slash.
Qed.

Lemma escape_singleJoiningSlash a b : Forall is_byte a → Forall is_byte b →
  escape encodePath (singleJoiningSlash a b) = singleJoiningSlash (escape encodePath a) (escape encodePath b).
Proof.
  intros Ha Hb. unfold singleJoiningSlash. rewrite escape_last_slash, escape_first_slash by done.
  destruct (HasSuffix a (str "/")), (HasPrefix b (str "/")) eqn:E; cbn [andb negb]; rewrite !escape_app; try done.
  apply HasPrefix_true in E as [b' ->]. done.
Qed.

Lemma singleJoiningSlash_slash a b : 47 ∈ singleJoiningSlash a b.
Proof.
  unfold singleJoiningSlash. destruct (HasSuffix a (str "/")) eqn:Ea, (HasPrefix b (str "/")) eqn:Eb; cbn [andb negb];
    rewrite ?elem_of_app; try apply HasSuffix_true in Ea as [a' ->]; try apply HasPrefix_true in Eb as [b' ->];
    rewrite ?elem_of_app; cbn; set_solver.
Qed.

(** Joining encoded paths joins the paths. *)
Lemma validEncoded_joined a b : validEncoded_path a = true → validEncoded_path b = true →
  validEncoded_path (singleJoiningSlash a b) = true.
Proof.
  unfold validEncoded_path, singleJoiningSlash. intros Ha Hb.
  destruct (HasSuffix a (str "/")), (HasPrefix b (str "/")); cbn [andb negb]; rewrite !forallb_app, Ha; try done.
  destruct b as [|c b]; [done|]. by apply andb_true_iff in Hb as [_ Hb].
Qed.

Lemma unescape_joined ea eb a b : unescape encodePath ea = Some a → unescape encodePath eb = Some b →
  unescape encodePath (singleJoiningSlash ea eb) = Some
    (if HasSuffix ea (str "/") && HasPrefix eb (str "/") then a ++ drop 1 b
     else if negb (HasSuffix ea (str "/")) && negb (HasPrefix eb (str "/")) then a ++ str "/" ++ b else a ++ b).
Proof.
  intros Ha Hb. unfold singleJoiningSlash.
  destruct (HasSuffix ea (str "/")), (HasPrefix eb (str "/")) eqn:E; cbn [andb negb]; rewrite (unescape_app _ _ _ a) by done;
    try by (cbn; rewrite Hb).
  apply HasPrefix_true in E as [eb' ->]. revert Hb. change (drop 1 (str "/" ++ eb')) with eb'.
  change (unescape encodePath (str "/" ++ eb')) with (t ← unescape encodePath eb'; Some (47 :: t)).
  destruct (unescape encodePath eb') as [b'|]; [|done]. by intros [= <-].
Qed.

(** Both ways of joining give the joined encodings. *)
Lemma join_EscapedPath u up : Forall is_byte (Path u) → Forall is_byte (Path up) → Path u ≠ str "*" → Path up ≠ str "*" →
  EscapedPath (rewriteRequestURL u up) = singleJoiningSlash (EscapedPath up) (EscapedPath u).
Proof.
  intros Hb Hbp Hs Hsp. unfold rewriteRequestURL, joinURLPath. case_bool_decide as Hraw.
  - destruct Hraw as [Hr1 Hr2]. rewrite !EscapedPath_default; cbn [RawPath Path]; try done.
    + by apply escape_singleJoiningSlash.
    + intros Heq. pose proof (singleJoiningSlash_slash (Path up) (Path u)) as Hin. rewrite Heq in Hin. set_solver by lia.
  - destruct (EscapedPath_spec u Hb Hs) as [Hv Hu]. destruct (EscapedPath_spec up Hbp Hsp) as [Hvp Hup].
    pose proof (singleJoiningSlash_slash (EscapedPath up) (EscapedPath u)) as Hin.
    pose proof (unescape_joined _ _ _ _ Hup Hu) as Hj. pose proof (validEncoded_joined _ _ Hvp Hv) as Hvj.
    assert (singleJoiningSlash (EscapedPath up) (EscapedPath u) ≠ []) as Hne by (intros E; rewrite E in Hin; by apply not_elem_of_nil in Hin).
    revert Hj Hvj Hne. unfold singleJoiningSlash.
    destruct (HasSuffix (EscapedPath up) (str "/")), (HasPrefix (EscapedPath u) (str "/")); cbn [andb negb]; intros; by apply EscapedPath_raw.
Qed.

(** ** The query that is sent *)

Lemma query_dirty_app a b : query_dirty a = false → query_dirty (a ++ b) = query_dirty b.
Proof.
  induction a as [a IH] using list_length_ind. destruct a as [|c a]; [done|]. cbn [query_dirty app].
  destruct (c =? 59); [done|]. destruct (c =? 37); [|by apply IH; cbn; lia].
  destruct a as [|x [|y a]]; [done|done|]. cbn [app]. destruct (_ && _); [|done]. by apply IH; cbn; lia.
Qed.

Lemma QueryEscape_clean s : Forall is_byte s → query_dirty (QueryEscape s) = false.
Proof.
  induction 1 as [|c s Hc Hs IH]; [done|]. change (QueryEscape (c :: s)) with (escape_byte encodeQueryComponent c ++ QueryEscape s).
  rewrite query_dirty_app; [done|]. apply negb_true_iff. revert c Hc. apply all_bytes. by vm_compute.
Qed.

Lemma setting_clean k v : Forall is_byte k → Forall is_byte v → query_dirty (setting k v) = false.
Proof. intros Hk Hv. unfold setting. rewrite query_dirty_app by by apply QueryEscape_clean. by apply QueryEscape_clean. Qed.

Lemma Join_clean l : Forall (λ s, query_dirty s = false) l → query_dirty (Join l [38]) = false.
Proof.
  induction 1 as [|s l Hs Hl IH]; [done|]. destruct l as [|s' l]; [done|].
  change (Join (s :: s' :: l) [38]) with (s ++ [38] ++ Join (s' :: l) [38]). by rewrite query_dirty_app.
Qed.

(** The cleaned query is clean and carries the same parameters. *)
Lemma cleanQueryParams_spec q : Forall is_byte q →
  query_dirty (cleanQueryParams q) = false ∧ ParseQuery (cleanQueryParams q) = ParseQuery q ∧
  (query_dirty q = false → cleanQueryParams q = q).
Proof.
  intros Hq. unfold cleanQueryParams. destruct (query_dirty q) eqn:E; [|done].
  split_and!; [|by apply ParseQuery_Encode, ParseQuery_ok|done].
  rewrite Encode_settings. apply Join_clean, settings_Forall; [by apply ParseQuery_ok|apply setting_clean].
Qed.

(** ** The headers that are sent *)

Lemma foldl_Del ks h k : foldl Del h ks !! k = if decide (k ∈ CanonicalMIMEHeaderKey <$> ks) then None else h !! k.
Proof.
  induction ks as [|x ks IH] in h |- *; [done|]. cbn [foldl fmap list_fmap]. rewrite IH. unfold Del.
  destruct (decide (k ∈ CanonicalMIMEHeaderKey <$> ks)) as [Hin|Hin]; [by rewrite decide_True by by right|].
  destruct (decide (k = CanonicalMIMEHeaderKey x)) as [->|Hne].
  - rewrite lookup_delete_eq. by rewrite decide_True by left.
  - rewrite lookup_delete_ne by done. rewrite decide_False; [done|]. by intros [|]%elem_of_cons.
Qed.

Definition named (h : Header) : list bytes := CanonicalMIMEHeaderKey <$> connection_options h.

(** Every header of a forwarded request: what is dropped, what is added back. *)
Lemma proxy_header_lookup h k : proxy_header h !! k =
  if decide (k ∈ forwarding) then None
  else if bool_decide (k = h_Upgrade ∧ upgradeType h ≠ []) then Some [upgradeType h]
  else if bool_decide (k = h_Connection ∧ upgradeType h ≠ []) then Some [h_Upgrade]
  else if bool_decide (k = h_Te) && HeaderValuesContainsToken (values h h_Te) (str "trailers") then Some [str "trailers"]
  else if decide (k ∈ hopHeaders ++ named h) then None
  else h !! k.
Proof.
  unfold proxy_header. rewrite foldl_Del. assert (CanonicalMIMEHeaderKey <$> forwarding = forwarding) as -> by by vm_compute.
  destruct (decide (k ∈ forwarding)); [done|].
  assert (∀ h', removeHopByHopHeaders h' !! k = if decide (k ∈ hopHeaders ++ named h') then None else h' !! k) as Hrem.
  { intros h'. unfold removeHopByHopHeaders. rewrite !foldl_Del. assert (CanonicalMIMEHeaderKey <$> hopHeaders = hopHeaders) as -> by by vm_compute.
    unfold named. repeat case_decide; rewrite ?elem_of_app in *; tauto. }
  rewrite <-Hrem. generalize (removeHopByHopHeaders h). intros h1. unfold Set_.
  destruct (bool_decide_reflect (upgradeType h ≠ [])) as [Hu|Hu].
  - destruct (decide (k = h_Upgrade)) as [->|Hk1]; [by rewrite lookup_insert_eq, bool_decide_true|].
    rewrite lookup_insert_ne, (bool_decide_false (k = h_Upgrade ∧ _)) by naive_solver.
    destruct (decide (k = h_Connection)) as [->|Hk2]; [by rewrite lookup_insert_eq, bool_decide_true|].
    rewrite lookup_insert_ne, (bool_decide_false (k = h_Connection ∧ _)) by naive_solver.
    destruct (HeaderValuesContainsToken _ _); rewrite ?andb_true_r, ?andb_false_r; [|done].
    case_bool_decide as Hk3; [by rewrite Hk3, lookup_insert_eq|by rewrite lookup_insert_ne].
  - rewrite !(bool_decide_false (_ ∧ _)) by tauto.
    destruct (HeaderValuesContainsToken _ _); rewrite ?andb_true_r, ?andb_false_r; [|done].
    case_bool_decide as Hk3; [by rewrite Hk3, lookup_insert_eq|by rewrite lookup_insert_ne].
Qed.

(** A header that is no hop-by-hop or forwarding header passes unless the client
    named it in a [Connection] header. *)
Definition end_to_end (k : bytes) : Prop := k ∉ hopHeaders ++ forwarding.
#[export] Instance end_to_end_dec k : Decision (end_to_end k).
Proof. unfold end_to_end. apply _. Defined.

Lemma hop_names k : k ∈ [h_Te; h_Upgrade; h_Connection] → k ∈ hopHeaders.
Proof.
  intros Hk. repeat (apply elem_of_cons in Hk as [->|Hk]; [by apply (bool_decide_eq_true_1 (_ ∈ hopHeaders)); vm_compute|]).
  by apply not_elem_of_nil in Hk.
Qed.

Lemma proxy_header_end_to_end h k : end_to_end k → proxy_header h !! k = if decide (k ∈ named h) then None else h !! k.
Proof.
  unfold end_to_end. rewrite elem_of_app. intros Hk. rewrite proxy_header_lookup, decide_False by tauto.
  rewrite !bool_decide_false; [cbn [andb]|intros ->|intros [-> _]|intros [-> _]];
    try (apply Hk; left; apply hop_names; rewrite !elem_of_cons; tauto).
  repeat case_decide; rewrite ?elem_of_app in *; tauto.
Qed.

(** ** Properties *)

(** The session of an outgoing request, and its other headers. *)
Lemma proxy_request_header up r out k : proxy_request (NewHandler up) r = Ok out → end_to_end k → k ≠ h_UserAgent →
  out_Header out !! k = if decide (k ∈ named (Header_ r)) then None else Header_ r !! k.
Proof.
  unfold proxy_request. destruct (forallb _ _); [|done]. intros [= <-] Hk Hua. cbn [out_Header Rewrite_ NewHandler Rewrite].
  rewrite <-proxy_header_end_to_end by done. unfold default_agent. destruct (proxy_header _ !! h_UserAgent); [done|].
  unfold Set_. by rewrite lookup_insert_ne.
Qed.

Lemma proxy_request_rest up r out : proxy_request (NewHandler up) r = Ok out →
  out_Method out = Method r ∧ (out_Body out = Some (Body r) ∨ out_Body out = None ∧ ContentLength r = Some 0) ∧
  ∀ k, k ∈ forwarding → out_Header out !! k = None.
Proof.
  unfold proxy_request. destruct (forallb _ _); [|done]. intros [= <-]. cbn [out_Method out_Body out_Header Rewrite_ NewHandler Rewrite].
  split_and!; [done|case_bool_decide; [by right|by left]|]. intros k Hk.
  assert (h_UserAgent ∉ forwarding) as Hua by (by apply (bool_decide_eq_true_1 (_ ∉ _)); vm_compute).
  assert (proxy_header (Header_ r) !! k = None) as Hn by (by rewrite proxy_header_lookup, decide_True).
  unfold default_agent. destruct (proxy_header _ !! h_UserAgent); [done|]. unfold Set_. rewrite lookup_insert_ne; [done|congruence].
Qed.

Lemma named_connection h h' : h !! h_Connection = h' !! h_Connection → named h = named h'.
Proof. intros Hc. unfold named, connection_options, values. by rewrite Hc. Qed.

Lemma session_sent {S} `{SessionStore S, TempPageStore S, Metered S} cfg rid uuid r (s s' : S) r' st up out :
  0 < Config.MaxRequestBody (Config.limits cfg) < 2 ^ 63 - 1 → ServeHTTP cfg rid uuid r s = (s', Proxied r' (Some st)) →
  proxy_request (NewHandler up) r' = Ok out → h_Session ∉ named (Header_ r) → out_Header out !! h_Session = Header_ r' !! h_Session.
Proof.
  intros Hmax E Ho Hn. pose proof (ServeHTTP_forwards cfg rid uuid r s Hmax) as Hf. rewrite E in Hf. cbn [snd] in Hf.
  destruct Hf as (_&_&_&_&_&_&_&Hk&_). rewrite (named_connection _ (Header_ r')) in Hn by (symmetry; by apply Hk).
  rewrite (proxy_request_header up r' out) by (done || by apply (bool_decide_eq_true_1 (end_to_end _)); vm_compute).
  by rewrite decide_False.
Qed.

(** [C7] What the upstream receives of a request: with a body limit below the
    largest int64, the gateway answers a request itself exactly when it is a chat
    request whose body is too large or cannot be read.  Otherwise, if the reverse
    proxy sends a request at all, it has the method and body of the client's; its
    headers pass, except the hop-by-hop and forwarding headers and those the client
    named in a [Connection] header; and for a request that takes part in the
    session logic the session header holds, once, the session it was given - the
    client's own if it sent one - unless the client named that header in
    [Connection], in which case the upstream gets no session at all. *)
Theorem upstream_request {S} `{SessionStore S, TempPageStore S, Metered S} cfg rid uuid r (s : S) up :
  0 < Config.MaxRequestBody (Config.limits cfg) < 2 ^ 63 - 1 → (ContentLength r = Some 0 → Body r = []) →
  match (ServeHTTP cfg rid uuid r s).2 with
  | Answered rep => is_chat r = true ∧
      ((rep = bodyTooLarge ∧ Config.MaxRequestBody (Config.limits cfg) < Z.of_nat (length (Body r))) ∨
       (rep = body_read_failed ∧ Body_fails r = true))
  | Proxied r' st => ∀ out, proxy_request (NewHandler up) r' = Ok out →
      out_Method out = Method r ∧ default [] (out_Body out) = Body r ∧ (is_chat r = false ↔ st = None) ∧
      (∀ k, k ∈ forwarding → out_Header out !! k = None) ∧
      (∀ k, end_to_end k → k ∉ [h_Session; h_ContentLength; h_UserAgent] →
        out_Header out !! k = if decide (k ∈ named (Header_ r)) then None else Header_ r !! k) ∧
      out_Header out !! h_Session =
        (if decide (h_Session ∈ named (Header_ r)) then None
         else match st with
           | Some st => if participate st then Some [sessionID st] else Header_ r !! h_Session
           | None => Header_ r !! h_Session
           end) ∧
      (∀ st', st = Some st' → participate st' = true → Get (Header_ r) h_Session ≠ [] → sessionID st' = Get (Header_ r) h_Session)
  end.
Proof.
  intros Hmax Hcl. pose proof (ServeHTTP_forwards cfg rid uuid r s Hmax) as Hf.
  assert (h_Connection ≠ h_Session ∧ h_Connection ≠ h_ContentLength ∧ h_Session ≠ h_UserAgent ∧ h_Session ≠ h_ContentLength) as (Hn1&Hn2&Hn3&Hn4) by done.
  assert (end_to_end h_Session) as He by (by apply (bool_decide_eq_true_1 (end_to_end _)); vm_compute).
  destruct (ServeHTTP cfg rid uuid r s).2 as [rep|r' st]; [done|]. intros out Ho.
  destruct (proxy_request_rest up r' out Ho) as (->&Hb&Hfw). pose proof (λ k, proxy_request_header up r' out k Ho) as Hhd.
  destruct st as [st|].
  - destruct Hf as (Hc&_&->&_&Hbd&_&Hl&Hk&_&Hs). rewrite Hbd in Hb.
    rewrite (named_connection (Header_ r') (Header_ r)) in Hhd by by apply Hk.
    split_and!; try done; [|by rewrite Hc| | |].
    + destruct Hb as [->|[-> Hz]]; [done|]. rewrite Hl in Hz. injection Hz as Hz. by destruct (Body r).
    + intros k Hk1 Hk2. rewrite !not_elem_of_cons in Hk2. rewrite Hhd, Hk; naive_solver.
    + rewrite Hhd by done. case_decide; [done|]. destruct (participate st); [by destruct Hs|done].
    + intros st' [= <-] Hp. rewrite Hp in Hs. by destruct Hs.
  - destruct Hf as [-> Hc]. split_and!; try done.
    + destruct Hb as [->|[-> Hz]]; [done|]. symmetry. by apply Hcl.
    + intros k Hk1 Hk2. rewrite !not_elem_of_cons in Hk2. apply Hhd; naive_solver.
    + by apply Hhd.
Qed.

Definition upstream_url : URL := default chat_url (Parse (str "https://up.example/v1?k=1")).
(** A request whose client names the session header in [Connection]. *)
Definition stripping_request : Request_ :=
  chat_request {[h_Connection := [str "close, x-opencode-session"]]} (js "{'messages':[{'role':'user','content':'hi'}]}").

Definition served (r : Request_) : disposition := (ServeHTTP sample_gateway (str "r") (str "U") r mem_store).2.
Definition passed (d : disposition) : Request_ := match d with Proxied r _ => r | Answered _ => sample_request end.
Definition sent (d : disposition) : outreq :=
  match proxy_request (NewHandler upstream_url) (passed d) with
  | Ok out => out
  | Err _ => {| out_Method := []; out_URL := chat_url; out_Host := []; out_Header := ∅; out_Body := None |}
  end.

Definition is_proxied (d : disposition) : bool := match d with Proxied _ _ => true | Answered _ => false end.
Definition passed_state (d : disposition) : option reqState := match d with Proxied _ st => st | Answered _ => None end.
Lemma proxied_eq d : is_proxied d = true → d = Proxied (passed d) (passed_state d).
Proof. by destruct d. Qed.

(** The session is set, and dropped again at the client's behest. *)
Lemma upstream_request_witness :
  out_Header (sent (served sample_request)) !! h_Session = Some [str "U"] ∧
  out_Body (sent (served sample_request)) = Some (Body sample_request) ∧
  out_Header (sent (served stripping_request)) !! h_Session = None ∧
  out_Body (sent (served stripping_request)) = Some (Body stripping_request).
Proof.
  pose proof (upstream_request sample_gateway (str "r") (str "U") sample_request mem_store upstream_url (conj eq_refl eq_refl) ltac:(discriminate)) as H1.
  pose proof (upstream_request sample_gateway (str "r") (str "U") stripping_request mem_store upstream_url (conj eq_refl eq_refl) ltac:(discriminate)) as H2.
  fold (served sample_request) in H1. fold (served stripping_request) in H2.
  rewrite (proxied_eq (served sample_request)) in H1 by (vm_compute; reflexivity). rewrite (proxied_eq (served stripping_request)) in H2 by (vm_compute; reflexivity).
  destruct (H1 (sent (served sample_request)) ltac:(vm_compute; reflexivity)) as (_&_&_&_&_&S1&_).
  destruct (H2 (sent (served stripping_request)) ltac:(vm_compute; reflexivity)) as (_&_&_&_&_&S2&_).
  split_and!; [rewrite S1; vm_compute; reflexivity|vm_compute; reflexivity|rewrite S2; vm_compute; reflexivity|vm_compute; reflexivity].
Defined.

(** [C12] Where a request goes: with a configuration that is accepted, the target
    is the configured base URL.  The path of the request follows that of the base,
    with one slash in between, and the whole is sent as it was written: neither
    the escapes of the client's path nor those of the base are decoded or encoded
    anew (a client's path that is not written with the bytes of a path is encoded
    in the default way).  The query follows the one of the base; it is sent as it
    was written unless it has a semicolon or a malformed escape: then exactly the
    parameters that can be read are sent. *)
Theorem upstream_target cfg r t up out :
  Config.Validate cfg = None → Forall is_byte (Config.BaseURL (Config.upstream cfg)) →
  Parse (Config.BaseURL (Config.upstream cfg)) = Some up →
  Forall is_byte t → HasPrefix t (str "/") = true → ParseRequestURI t = Some (RequestURL r) →
  proxy_request (NewHandler up) r = Ok out →
  let '(p, force, q) := cut_query t in
  Scheme (out_URL out) = Scheme up ∧ Host (out_URL out) = Host up ∧ out_Host out = [] ∧
  RequestURI (out_URL out) =
    with_query (singleJoiningSlash (EscapedPath up) (if validEncoded_path p then p else escape encodePath (Path (RequestURL r))))
      force (join_query (RawQuery up) (cleanQueryParams q)) ∧
  ParseQuery (cleanQueryParams q) = ParseQuery q ∧ (query_dirty q = false → cleanQueryParams q = q).
Proof.
  intros Hv Hbase Hup Ht Hslash Hu Ho. destruct (Config.valid_url _ (Config.Validate_valid _ Hv)) as (up'&Hup'&_&Hhost).
  rewrite Hup in Hup'. injection Hup' as <-. destruct (Parse_host _ _ Hbase Hup Hhost) as [Hpb Hpp].
  pose proof (parse_target t _ Hslash Hu) as Hc. destruct (cut_query_bytes t Ht) as [Hbp Hbq].
  destruct (cut_query t) as [[p force] q]. cbn [fst snd] in *. destruct Hc as (Hsch&Hop&_&<-&<-&Hset&Hps).
  destruct (cleanQueryParams_spec _ Hbq) as (_&Hpq&Hq). revert Ho. unfold proxy_request.
  destruct (forallb _ _); [|done]. intros [= <-]. cbn [out_URL out_Host Rewrite_ NewHandler Rewrite].
  set (u := set_RawQuery _ _). assert (Path u ≠ str "*" ∧ Forall is_byte (Path u)) as [Hstar Hbu].
  { split; [|by apply (setPath_spec p _ (RawPath (RequestURL r)))]. apply HasPrefix_true in Hps as [p' ->].
    change (str "/" ++ p') with (47 :: p') in Hset. apply setPath_slash in Hset as [p'' Hp]. cbn [u set_RawQuery Path]. by rewrite Hp. }
  assert (Path up ≠ str "*") as Hstar' by (by destruct Hpp as [->|[? ->]]).
  pose proof (join_EscapedPath u up Hbu Hpb Hstar Hstar') as He.
  assert (EscapedPath u = if validEncoded_path p then p else escape encodePath (Path (RequestURL r))) as Hce by by apply (EscapedPath_parsed u).
  rewrite Hce in He. unfold RequestURI. rewrite He.
  pose proof (singleJoiningSlash_slash (EscapedPath up) (if validEncoded_path p then p else escape encodePath (Path (RequestURL r)))) as Hin.
  unfold rewriteRequestURL in *. destruct (joinURLPath up u) as [path raw]. cbn [Scheme Host Opaque ForceQuery RawQuery set_RawQuery u].
  rewrite Hop, bool_decide_true by done. rewrite bool_decide_false; [by split_and!|].
  intros E. rewrite E in Hin. by apply not_elem_of_nil in Hin.
Qed.

Definition target_config : Config.Config := {|
  Config.server := Config.server Config.Default; Config.upstream := {| Config.BaseURL := str "https://up.example/a%2Fb/?k=1" |};
  Config.redis_ := Config.redis_ Config.Default; Config.session_ := Config.session_ Config.Default;
  Config.response_cache := Config.response_cache Config.Default; Config.limits := Config.limits Config.Default;
  Config.logging := Config.logging Config.Default |}.
Definition target_text : bytes := str "/v1/x%2fy?b=2&a=%zz&a=1;2&c".
Definition target_up : URL := default chat_url (Parse (Config.BaseURL (Config.upstream target_config))).
Definition target_request : Request_ := {|
  Method := str "GET"; RequestURL := default chat_url (ParseRequestURI target_text); Header_ := ∅; Body := []; Body_fails := false;
  ContentLength := Some 0 |}.
Definition target_out : outreq :=
  match proxy_request (NewHandler target_up) target_request with Ok out => out | Err _ => sent (Answered bodyTooLarge) end.

Lemma upstream_target_witness :
  RequestURI (out_URL target_out) = str "/a%2Fb/v1/x%2fy?k=1&b=2&c=" ∧ Host (out_URL target_out) = str "up.example".
Proof.
  pose proof (upstream_target target_config target_request target_text target_up target_out ltac:(vm_compute; reflexivity)
    (Forall_is_byte_str _) ltac:(vm_compute; reflexivity) (Forall_is_byte_str _) ltac:(vm_compute; reflexivity)
    ltac:(vm_compute; reflexivity) ltac:(vm_compute; reflexivity)) as Ht.
  change (cut_query target_text) with (str "/v1/x%2fy", false, str "b=2&a=%zz&a=1;2&c") in Ht. cbv iota beta in Ht.
  destruct Ht as (_&Hh&_&Hr&_). split; [rewrite Hr; vm_compute; reflexivity|rewrite Hh; vm_compute; reflexivity].
Defined.
