(* ===== verification/Gateway.v ===== *)
(** * The running gateway: handler, collectors and page pool together

    The handler's operations (Proxy.v) and the page pool (Pool.v) composed into
    one transition system.  A state is the pool's state and, for every request of
    the run, what the handler knows of it; [gexec] performs one atomic step of
    one goroutine: a request arriving, the response head, a read of the body, its
    end, the parts of a finalizer, the write of a mapping, or a page worker's
    step.  Every step of the gateway is a sequence of steps of the pool
    ([gexec_pool]), so the pool's invariants carry over.

    A request's messages, header and generated identifiers are given from the
    start; it does nothing before [GArrive].  While a finalizer that runs inside
    the copy goroutine has a mapping to write, that goroutine is not reading.
    [answers] is a history variable: the messages finalizers obtained, with the
    bytes they stand for. *)
From S2P Require Import Prelude GoBytes Json Sha256 Canon Request Assistant Metrics Store Session Collector Pool Proxy.
From S2P Require Config.

(** ** States *)

Record incoming : Type := { in_rid : bytes; in_uuid : bytes; in_req : Request_ }.

(** A message obtained: from a stream or a JSON body, the bytes received, and
    whether the finalizer could have missed some of them (a page had failed when
    it read them, or it was not the request's first). *)
Record answer_record : Type := { from_stream : bool; seen : bytes; lossy : bool; answer : bytes }.

Record greq : Type := {
  g_in : incoming;
  g_arrived : bool;
  g_reply : option reply;
  g_st : option reqState;
  g_responded : bool;
  g_mode : body_mode;
  g_final : option finalizer;
  g_pending : option bytes;
  answers : list answer_record;
}.

Definition new_greq (r : incoming) : greq := {|
  g_in := r; g_arrived := false; g_reply := None; g_st := None; g_responded := false; g_mode := RawBody;
  g_final := None; g_pending := None; answers := [] |}.

(** The handler answered, or the reverse proxy has the request. *)
Definition arrived (g : greq) (d : disposition) : greq :=
  match d with
  | Answered rep => {| g_in := g_in g; g_arrived := true; g_reply := Some rep; g_st := None; g_responded := true;
      g_mode := RawBody; g_final := None; g_pending := None; answers := answers g |}
  | Proxied _ st => {| g_in := g_in g; g_arrived := true; g_reply := None; g_st := st; g_responded := false;
      g_mode := RawBody; g_final := None; g_pending := None; answers := answers g |}
  end.
Definition responded (g : greq) (rep : option reply) (st : option reqState) (mode : body_mode) : greq := {|
  g_in := g_in g; g_arrived := g_arrived g; g_reply := rep; g_st := st; g_responded := true; g_mode := mode;
  g_final := g_final g; g_pending := g_pending g; answers := answers g |}.
Definition with_st (g : greq) (st : reqState) (f : option finalizer) : greq := {|
  g_in := g_in g; g_arrived := g_arrived g; g_reply := g_reply g; g_st := Some st; g_responded := g_responded g;
  g_mode := g_mode g; g_final := f; g_pending := g_pending g; answers := answers g |}.
Definition with_pending (g : greq) (a : option bytes) : greq := {|
  g_in := g_in g; g_arrived := g_arrived g; g_reply := g_reply g; g_st := g_st g; g_responded := g_responded g;
  g_mode := g_mode g; g_final := g_final g; g_pending := a; answers := answers g |}.
Definition with_answer (g : greq) (a : answer_record) : greq := {|
  g_in := g_in g; g_arrived := g_arrived g; g_reply := g_reply g; g_st := g_st g; g_responded := g_responded g;
  g_mode := g_mode g; g_final := g_final g; g_pending := Some (answer a); answers := answers g ++ [a] |}.

Inductive gevent : Type :=
| GArrive (i : nat)
| GResponse (i : nat) (status : Z) (ct : bytes)
| GUpstreamFailed (i : nat)
| GRead (i : nat) (p : bytes)
| GEof (i : nat)
| GClose (i : nat)
| GCheck (i : nat)
| GAssemble (i : nat)
| GParse (i : nat)
| GMap (i : nat)
| GTake
| GPut (k : nat)
| GSettle (k : nat)
| GStop
| GExit.

Section gateway.
Context {S : Type} `{SessionStore S, TempPageStore S, Metered S}.
Context (cfg : Config.Config) (pcfg : Collector.Config).

Record gstate : Type := { pool : @state S; reqs : list greq }.

Definition set_req (gs : gstate) (i : nat) (g : greq) : gstate := {| pool := pool gs; reqs := <[i := g]> (reqs gs) |}.
Definition set_pool (gs : gstate) (st : @state S) : gstate := {| pool := st; reqs := reqs gs |}.
Definition set_pstore (gs : gstate) (s : S) : gstate := set_pool gs (set_store (pool gs) s).

Definition ginit (s : S) (workers : nat) (rs : list incoming) : gstate := {|
  pool := init pcfg s workers (map (λ r, (in_rid r, true)) rs);
  reqs := map new_greq rs |}.

(** ** Steps *)

(** A stream finalizer has the outcome of [Finalize]: which of the three it is
    depends on where it runs. *)
Definition on_result (f : option finalizer) (at_done : bool) (st : reqState) (r : result collector_error bytes)
    (stats : Stats) (s : S) : S * reqState * option bytes :=
  if at_done then finalizeAtDone_result st r stats s
  else match f with
       | Some FinalizeStream => finalizeStream_result st r stats s
       | _ => finalizeStreamOnClose_result st r stats s
       end.

Definition is_at_done (f : phase) : bool := match f with AtDone _ => true | _ => false end.

(** The finalizer of request [i] continues with an outcome; [p] is its
    collector's process before the step and [gs] the state after it. *)
Definition deliver (gs : gstate) (i : nat) (g : greq) (p : proc) (r : result collector_error bytes) (stats : Stats) :
    option gstate :=
  st ← g_st g;
  let '(s, st', a) := on_result (g_final g) (is_at_done (ph p)) st r stats (store (pool gs)) in
  let g := with_st g st' (g_final g) in
  let g := match a with
    | Some a => with_answer g {| from_stream := true; seen := written p;
        lossy := failed (coll p) || bool_decide (results p ≠ []); answer := a |}
    | None => g
    end in
  Some (set_req (set_pstore gs s) i g).

(** End of file ([e]) or close of the body: [finish], which for a stream hands
    over to the close-time finalizer or ends the request. *)
Definition end_body (e : bool) (gs : gstate) (i : nat) (g : greq) : option gstate :=
  st ← g_st g;
  let '(s, st', f) := (if e then on_eof else on_close) st (store (pool gs)) in
  let g' := with_st g st' (match f with Some f => Some f | None => g_final g end) in
  let gs' := set_req (set_pstore gs s) i g' in
  match g_mode g with
  | StreamBody => if finished st then Some gs' else pst ← exec pcfg (EClose i) (pool gs'); Some (set_pool gs' pst)
  | _ => Some gs'
  end.

Definition gexec (e : gevent) (gs : gstate) : option gstate :=
  match e with
  | GArrive i =>
    g ← reqs gs !! i;
    if g_arrived g then None
    else
      let '(s, d) := ServeHTTP cfg (in_rid (g_in g)) (in_uuid (g_in g)) (in_req (g_in g)) (store (pool gs)) in
      Some (set_req (set_pstore gs s) i (arrived g d))
  | GResponse i status ct =>
    g ← reqs gs !! i;
    if g_arrived g && negb (g_responded g) then
      let '(st, mode) := modifyResponse i (g_st g) status ct in
      Some (set_req gs i (responded g None st mode))
    else None
  | GUpstreamFailed i =>
    g ← reqs gs !! i;
    if g_arrived g && negb (g_responded g) then Some (set_req gs i (responded g (Some errorHandler) (g_st g) RawBody))
    else None
  | GRead i p =>
    g ← reqs gs !! i;
    if decide (g_pending g = None ∧ p ≠ []) then
      match g_mode g with
      | StreamBody => pst ← exec pcfg (EWrite i p) (pool gs); Some (set_pool gs pst)
      | JsonBody =>
        st ← g_st g;
        if finished st then None else Some (set_req gs i (with_st g (json_read st p) (g_final g)))
      | RawBody => None
      end
    else None
  | GEof i => g ← reqs gs !! i; if decide (g_pending g = None ∧ g_mode g ≠ RawBody) then end_body true gs i g else None
  | GClose i => g ← reqs gs !! i; if decide (g_pending g = None ∧ g_mode g ≠ RawBody) then end_body false gs i g else None
  | GCheck i =>
    g ← reqs gs !! i;
    p ← procs (pool gs) !! i;
    pst ← exec pcfg (ECheck i) (pool gs);
    match finalize_check (coll p) with
    | Some (err, stats) => deliver (set_pool gs pst) i g p (Err err) stats
    | None => Some (set_pool gs pst)
    end
  | GAssemble i =>
    g ← reqs gs !! i;
    p ← procs (pool gs) !! i;
    pst ← exec pcfg (ERead i) (pool gs);
    let '(_, r, stats) := finalize_read (coll p) (store (pool gs)) in
    deliver (set_pool gs pst) i g p r stats
  | GParse i =>
    g ← reqs gs !! i;
    st ← g_st g;
    match g_final g with
    | Some FinalizeJSON =>
      let '(s, a) := finalizeJSON_result st (store (pool gs)) in
      let g := with_st g st None in
      let g := match a with
        | Some a => with_answer g {| from_stream := false; seen := default [] (jsonBuf st); lossy := false; answer := a |}
        | None => g
        end in
      Some (set_req (set_pstore gs s) i g)
    | _ => None
    end
  | GMap i =>
    g ← reqs gs !! i;
    st ← g_st g;
    a ← g_pending g;
    Some (set_req (set_pstore gs (putMapping cfg st a (store (pool gs)))) i (with_pending g None))
  | GTake => pst ← exec pcfg ETake (pool gs); Some (set_pool gs pst)
  | GPut k => pst ← exec pcfg (EPut k) (pool gs); Some (set_pool gs pst)
  | GSettle k => pst ← exec pcfg (ESettle k) (pool gs); Some (set_pool gs pst)
  | GStop => pst ← exec pcfg ECancel (pool gs); Some (set_pool gs pst)
  | GExit => pst ← exec pcfg EExit (pool gs); Some (set_pool gs pst)
  end.

Fixpoint gexecs (es : list gevent) (gs : gstate) : option gstate :=
  match es with
  | [] => Some gs
  | e :: es' => gs' ← gexec e gs; gexecs es' gs'
  end.

Lemma gexecs_app es es' gs : gexecs (es ++ es') gs = gs' ← gexecs es gs; gexecs es' gs'.
Proof. revert gs. induction es as [|e es IH]; intros gs; cbn [app gexecs]; [done|]. by destruct (gexec e gs); [apply IH|]. Qed.

Definition greachable (s0 : S) (workers : nat) (rs : list incoming) (gs : gstate) : Prop :=
  ∃ es, gexecs es (ginit s0 workers rs) = Some gs.

Lemma greachable_ind (s0 : S) workers rs (P : gstate → Prop) :
  P (ginit s0 workers rs) → (∀ e gs gs', P gs → gexec e gs = Some gs' → P gs') →
  ∀ gs, greachable s0 workers rs gs → P gs.
Proof.
  intros Hinit Hstep gs [es E]. revert E. generalize dependent (ginit s0 workers rs).
  induction es as [|e es IH]; intros gs0 Hg; cbn; [by intros [= <-]|].
  destruct (gexec e gs0) as [gs1|] eqn:E; [|done]. cbn. apply IH. by eapply Hstep.
Qed.
End gateway.
Arguments gstate S : clear implicits.
