(* ===== verification/GatewaySafety.v ===== *)
(** * Safety of the running gateway

    First the refinement: whatever the gateway does is something the page pool
    can do, so the pool's theorems hold of the pool inside the gateway.  Then the
    provenance of sessions: an invariant relating every mapping in the store to
    a request, the client that sent it, its messages and the answer a finalizer
    obtained. *)
From S2P Require Import Prelude GoBytes Json JsonRender Sha256 Canon Request Assistant AssistantStream.
From S2P Require Import Metrics Store Session Collector Pool Proxy Gateway.
From S2P Require Config.

(** ** Session operations on a store *)

Section session_run.
Context {S : Type} `{StoreSpec S}.

(** Reading and writing sessions and recording metrics, with well-formed client
    hashes. *)
Definition session_run (s s' : S) : Prop :=
  ∃ ops, Forall (λ o, is_session_op o = true ∧ op_ok o) ops ∧ s' = run ops s.

Lemma session_run_refl s : session_run s s.
Proof. by exists []. Qed.

Lemma session_run_trans s s' s'' : session_run s s' → session_run s' s'' → session_run s s''.
Proof.
  intros (ops&Ho&->) (ops'&Ho'&->). exists (ops ++ ops'). split; [by apply Forall_app|]. unfold run. by rewrite foldl_app.
Qed.

Lemma session_run_op o s s' : is_session_op o = true → op_ok o → session_run s s' → session_run s (run_op o s').
Proof.
  intros Ho Hk Hs. eapply session_run_trans; [done|]. exists [o]. split; [by apply Forall_singleton|done].
Qed.

Lemma session_run_record e s s' : session_run s s' → session_run s (record e s').
Proof. by apply (session_run_op (OpRecord e)). Qed.

Lemma session_run_get c h s s' : colon_free c → session_run s s' → session_run s (GetSession c h s').1.
Proof. intros Hc. by apply (session_run_op (OpGetSession c h)). Qed.

Lemma session_run_put c h id ttl s s' : colon_free c → session_run s s' → session_run s (PutSession c h id ttl s').1.
Proof. intros Hc. by apply (session_run_op (OpPutSession c h id ttl)). Qed.
End session_run.
Create HintDb session_run.
#[export] Hint Resolve session_run_refl session_run_record session_run_get session_run_put : session_run.

(** A client hash has no colon. *)
Lemma HashBytes_colon x : colon_free (HashBytes x).
Proof.
  assert (Forall is_hex (HashBytes x)) as Hh by apply EncodeToString_hex, Sum256_bytes.
  intros Hin. rewrite Forall_forall in Hh. destruct (Hh _ Hin); lia.
Qed.
Lemma clientIdentity_colon h : colon_free (clientIdentity h).
Proof. apply HashBytes_colon. Qed.
#[export] Hint Resolve clientIdentity_colon : session_run.

Section handler_ops.
Context {S : Type} `{StoreSpec S}.
Implicit Types (s : S).

Lemma Resolve_run uuid c msgs cs s s' : colon_free c → session_run s s' → session_run s (Resolve uuid c msgs cs s').1.
Proof.
  intros Hc Hs. unfold Resolve, SessionStoreErrorInc. destruct cs; [|cbn; auto with session_run].
  destruct (1 <? length msgs)%nat; [|done].
  pose proof (session_run_get c (HistoryHash (but_last msgs)) s s' Hc Hs) as Hg.
  destruct (GetSession c _ s') as [s1 [[id|]|e]]; cbn in *; auto with session_run.
Qed.

Lemma ServeHTTP_run cfg rid uuid r s : session_run s (ServeHTTP cfg rid uuid r s).1.
Proof.
  unfold ServeHTTP. destruct (negb (is_chat r)); [cbn; auto with session_run|].
  destruct (readBody _ _) as [[body []]|e]; [cbn; auto with session_run| |cbn; auto with session_run].
  rewrite prepare_eq. destruct (chat_messages body) as [cms|]; [|cbn; auto with session_run].
  set (s1 := record _ s). pose proof (Resolve_run uuid (clientIdentity (Header_ r)) cms (Get (Header_ r) h_Session) s s1
    (clientIdentity_colon _) (session_run_record _ _ _ (session_run_refl s))) as Hr.
  by destruct (Resolve _ _ _ _ s1) as [s2 d].
Qed.

Lemma finish_run st s : session_run s (finish st s).1.1.
Proof. unfold finish. repeat case_match; cbn; auto with session_run. Qed.

Lemma finalize_observed_run stats s : session_run s (finalize_observed stats s).
Proof. unfold finalize_observed. auto with session_run. Qed.

Lemma on_result_run f d st r stats s : session_run s (on_result f d st r stats s).1.1.
Proof.
  unfold on_result, finalizeAtDone_result, finalizeStream_result, finalizeStreamOnClose_result.
  pose proof (finalize_observed_run stats s). repeat case_match; cbn; auto with session_run.
Qed.

Lemma finalizeJSON_run st s : session_run s (finalizeJSON_result st s).1.
Proof. unfold finalizeJSON_result. repeat case_match; cbn; auto with session_run. Qed.

Lemma putMapping_run cfg st a s : colon_free (clientHash st) → session_run s (putMapping cfg st a s).
Proof.
  intros Hc. unfold putMapping.
  pose proof (session_run_put (clientHash st) (HashBytes (FullState (canonMsgs st) a)) (sessionID st)
    (Config.Session_TTL (Config.session_ cfg)) s s Hc (session_run_refl s)) as Hp.
  destruct (PutSession _ _ _ _ s) as [s1 [u|e]]; cbn in Hp; auto with session_run.
Qed.

(** The pool performs such operations as its [EStore] events. *)
Lemma execs_session pcfg (st : @state S) s' : session_run (store st) s' →
  ∃ es, execs pcfg es st = Some (set_store st s').
Proof.
  intros (ops&Ho&->). revert st. induction ops as [|o ops IH]; intros st; apply Forall_cons in Ho as [[Ho _] Hos] || clear Ho.
  - exists []. by destruct st.
  - destruct (IH Hos (set_store st (run_op o (store st)))) as [es Ees]. exists (EStore o :: es). cbn. by rewrite Ho.
Qed.
End handler_ops.

(** ** Refinement of the pool *)

Section refinement.
Context {S : Type} `{StoreSpec S}.
Context (cfg : Config.Config) (pcfg : Collector.Config).
Implicit Types (gs : gstate S).

Definition pool_steps (st st' : @state S) : Prop := ∃ es, execs pcfg es st = Some st'.

Lemma pool_steps_refl st : pool_steps st st.
Proof. by exists []. Qed.

Lemma pool_steps_trans st st' st'' : pool_steps st st' → pool_steps st' st'' → pool_steps st st''.
Proof. intros [es E] [es' E']. exists (es ++ es'). by rewrite execs_app, E. Qed.

Lemma pool_steps_exec e st st' st'' : exec pcfg e st = Some st' → pool_steps st' st'' → pool_steps st st''.
Proof. intros E [es Es]. exists (e :: es). cbn. by rewrite E. Qed.

Lemma pool_steps_one e st st' : exec pcfg e st = Some st' → pool_steps st st'.
Proof. intros E. eapply pool_steps_exec; [done|apply pool_steps_refl]. Qed.

Lemma pool_steps_store (st : @state S) s' : session_run (store st) s' → pool_steps st (set_store st s').
Proof. apply execs_session. Qed.

Definition colon_ok gs : Prop := ∀ i g st, reqs gs !! i = Some g → g_st g = Some st → colon_free (clientHash st).

Lemma deliver_pool gs gs' i g p r stats : deliver gs i g p r stats = Some gs' → pool_steps (pool gs) (pool gs').
Proof.
  unfold deliver. destruct (g_st g) as [st|]; cbn; [|done].
  pose proof (on_result_run (g_final g) (is_at_done (ph p)) st r stats (store (pool gs))) as Hr.
  destruct (on_result _ _ _ _ _ _) as [[s st'] a]. intros [= <-]. cbn. by apply pool_steps_store.
Qed.

Lemma end_body_pool e gs gs' i g : end_body pcfg e gs i g = Some gs' → pool_steps (pool gs) (pool gs').
Proof.
  unfold end_body. bind_some st Hst.
  assert (session_run (store (pool gs)) ((if e then on_eof else on_close) st (store (pool gs))).1.1) as Hr
    by (destruct e; apply finish_run).
  destruct ((if e then on_eof else on_close) st (store (pool gs))) as [[s st'] f]. cbn in Hr.
  apply pool_steps_store in Hr. destruct (g_mode g); try (intros [= <-]; exact Hr).
  destruct (finished st); [intros [= <-]; exact Hr|]. bind_some pst E. intros [= <-]. cbn.
  eapply pool_steps_trans; [exact Hr|]. by eapply pool_steps_one.
Qed.

Lemma lift_pool e gs gs' :
  (pst ← exec pcfg e (pool gs); Some (set_pool gs pst)) = Some gs' → pool_steps (pool gs) (pool gs').
Proof. bind_some pst E. intros [= <-]. by eapply pool_steps_one. Qed.

(** One step of the gateway is a sequence of steps of the pool. *)
Lemma gexec_pool e gs gs' : colon_ok gs → gexec cfg pcfg e gs = Some gs' → pool_steps (pool gs) (pool gs').
Proof.
  intros Hc. destruct e as [i|i status ct|i|i p|i|i|i|i|i|i| |k|k| |]; cbn [gexec];
    try (apply lift_pool); bind_some g Hg.
  - destruct (g_arrived g); [done|].
    pose proof (ServeHTTP_run cfg (in_rid (g_in g)) (in_uuid (g_in g)) (in_req (g_in g)) (store (pool gs))) as Hr.
    destruct (ServeHTTP _ _ _ _ _) as [s d]. intros [= <-]. by apply pool_steps_store.
  - destruct (_ && _); [|done].
    destruct (modifyResponse _ _ _ _) as [st mode]. intros [= <-]. apply pool_steps_refl.
  - destruct (_ && _); [|done]. intros [= <-]. apply pool_steps_refl.
  - destruct (decide _); [|done]. destruct (g_mode g); [done|apply lift_pool|].
    bind_some st Hst. destruct (finished st); [done|]. intros [= <-]. apply pool_steps_refl.
  - destruct (decide _); [|done]. apply end_body_pool.
  - destruct (decide _); [|done]. apply end_body_pool.
  - bind_some p Hp. bind_some pst E. destruct (finalize_check (coll p)) as [[err stats]|].
    + intros Hd%deliver_pool. by eapply pool_steps_exec.
    + intros [= <-]. by eapply pool_steps_one.
  - bind_some p Hp. bind_some pst E. destruct (finalize_read _ _) as [[s r] stats].
    intros Hd%deliver_pool. by eapply pool_steps_exec.
  - bind_some st Hst. destruct (g_final g) as [[]|]; try done. pose proof (finalizeJSON_run st (store (pool gs))) as Hr.
    destruct (finalizeJSON_result _ _) as [s a]. intros [= <-]. by apply pool_steps_store.
  - bind_some st Hst. bind_some a Ha. intros [= <-]. apply pool_steps_store, putMapping_run. by eapply Hc.
Qed.
End refinement.

(** ** What a step of the pool changes *)

Section pool_frame.
Context {S : Type} `{SessionStore S, TempPageStore S, Metered S}.
Context (pcfg : Collector.Config).
Implicit Types (st : @state S) (p : proc).

(** The request whose goroutine takes the step. *)
Definition acts (e : event) : option nat :=
  match e with EWrite i _ | EClose i | ECheck i | ERead i => Some i | _ => None end.

(** What others cannot change of a process. *)
Definition same_phase p p' : Prop := ph p' = ph p ∧ results p' = results p ∧ sealed (coll p') = sealed (coll p).

Lemma same_phase_refl p : same_phase p p.
Proof. done. Qed.

Lemma exec_procs e st st' : exec pcfg e st = Some st' → length (procs st') = length (procs st).
Proof. intros E. step_cases E; cbn; by rewrite ?length_insert. Qed.

Lemma exec_others e st st' j p : exec pcfg e st = Some st' → acts e ≠ Some j → procs st !! j = Some p →
  ∃ p', procs st' !! j = Some p' ∧ same_phase p p'.
Proof.
  intros E Ha Hj. step_cases E; cbn in Ha |- *; try (exists p; by repeat split);
    try (exists p; rewrite list_lookup_insert_ne by congruence; by repeat split).
  destruct (decide (owner job = j)) as [<-|Hoj]; [|exists p; by rewrite list_lookup_insert_ne].
  eexists. split; [apply list_lookup_insert_eq; by eapply lookup_lt_Some|]. simplify_eq. by destruct err.
Qed.

(** The workers leave every request where it is. *)
Lemma workers_same_phase es st st' j p : Forall worker_event es → execs pcfg es st = Some st' → procs st !! j = Some p →
  ∃ p', procs st' !! j = Some p' ∧ same_phase p p'.
Proof.
  intros Hes. revert st p. induction Hes as [|e es He Hes IH]; intros st p; cbn [execs]; [intros [= <-]; eauto using same_phase_refl|].
  bind_some st1 E. intros Es Hp. destruct (exec_others e st st1 j p E) as (p1&Hp1&Hs1); [by destruct e|done|].
  destruct (IH st1 p1 Es Hp1) as (p2&Hp2&Hs2). exists p2. split; [done|].
  destruct Hs1 as (?&?&?), Hs2 as (?&?&?). split_and!; congruence.
Qed.

Lemma exec_close i st st' p : exec pcfg (EClose i) st = Some st' → procs st !! i = Some p →
  ph p = Copying ∧ procs st' !! i = Some (set_phase p (if finalized p then Finished else AtClose FinStart)).
Proof.
  intros E Hi. apply exec_step in E. inversion E as [| |? q Hq Hph| | | | | | | | |]; simplify_eq.
  split; [done|]. apply list_lookup_insert_eq. by eapply lookup_lt_Some.
Qed.

Lemma exec_check i st st' p : exec pcfg (ECheck i) st = Some st' → procs st !! i = Some p →
  (ph p = AtDone FinStart ∨ ph p = AtClose FinStart) ∧
  procs st' !! i = Some (match finalize_check (coll p) with
                         | Some (err, _) => after_finalize p (Err err) false
                         | None => set_phase p (waiting (ph p)) end).
Proof.
  intros E Hi. apply exec_step in E.
  inversion E as [| | |? q err stats Hq Hph Hc|? q Hq Hph Hc| | | | | | |]; simplify_eq; rewrite Hc;
    (split; [done|]); apply list_lookup_insert_eq; by eapply lookup_lt_Some.
Qed.

Lemma exec_read i st st' p : exec pcfg (ERead i) st = Some st' → procs st !! i = Some p →
  (ph p = AtDone FinWait ∨ ph p = AtClose FinWait) ∧ inflight (coll p) = 0 ∧
  st' = set_proc (set_store st (finalize_read (coll p) (store st)).1.1) i
          (after_finalize p (finalize_read (coll p) (store st)).1.2 true).
Proof.
  intros E Hi. apply exec_step in E. inversion E as [| | | | |? q s r stats Hq Hph Hin Hr| | | | | |]; simplify_eq.
  by rewrite Hr.
Qed.

Lemma exec_write i b st st' p : exec pcfg (EWrite i b) st = Some st' → procs st !! i = Some p →
  ph p = Copying ∧ ∃ p', procs st' !! i = Some p' ∧ results p' = results p ∧
    (p' = p ∨ (sealed (coll p) = false ∧ (ph p' = Copying ∨ ph p' = AtDone FinStart))).
Proof.
  intros E Hi. apply exec_step in E.
  inversion E as [? ? q Hq Hph Hs Hw|? ? q qu c called Hq Hph Hs Hw| | | | | | | | | |]; simplify_eq; (split; [done|]); [eauto|].
  eexists. split; [apply list_lookup_insert_eq; by eapply lookup_lt_Some|]. split; [done|]. right.
  apply write_begin_cases in Hw as [Hsl _]. split; [done|]. by destruct called; [right|left].
Qed.
End pool_frame.

(** ** A request obtains at most one message *)

Definition count_ok (l : list (result collector_error bytes)) : nat := length (List.filter is_ok l).

Lemma count_ok_snoc l r : count_ok (l ++ [r]) = (count_ok l + if is_ok r then 1 else 0)%nat.
Proof. unfold count_ok. rewrite List.filter_app, length_app. cbn. by destruct (is_ok r). Qed.

Lemma finalized_count p : finalized p = negb (count_ok (results p) =? 0)%nat.
Proof.
  unfold finalized, count_ok. induction (results p) as [|r l IH]; [done|]. cbn. rewrite IH. by destruct (is_ok r).
Qed.

(** After its first success a collector is closed for good: it takes no more
    bytes, and its request ends when the body does. *)
Definition once (p : proc) : Prop :=
  match count_ok (results p) with
  | O => True
  | S O => ph p = Finished ∨ (ph p = Copying ∧ sealed (coll p) = true)
  | _ => False
  end.

Lemma once_le p : once p → (count_ok (results p) <= 1)%nat.
Proof. unfold once. destruct (count_ok (results p)) as [|[]]; [lia|lia|done]. Qed.

Lemma once_same p p' : same_phase p p' → once p → once p'.
Proof. unfold once. by intros (->&->&->). Qed.

Lemma once_busy p : once p → ph p ≠ Finished → ph p ≠ Copying → count_ok (results p) = 0%nat.
Proof. unfold once. destruct (count_ok (results p)) as [|[]]; [done| |done]. intros [?|[? _]]; done. Qed.

Lemma once_result p r del : once p → (ph p = AtDone FinStart ∨ ph p = AtClose FinStart ∨ ph p = AtDone FinWait ∨ ph p = AtClose FinWait) →
  (is_at_done (ph p) = true → sealed (coll p) = true) →
  once (after_finalize p r del) ∧ count_ok (results (after_finalize p r del)) = (if is_ok r then 1 else 0)%nat ∧
  count_ok (results p) = 0%nat.
Proof.
  intros Ho Hph Hs. assert (count_ok (results p) = 0)%nat as H0 by (apply once_busy; [done|by destruct Hph as [-> | [-> | [-> | ->]]]..]).
  assert (count_ok (results (after_finalize p r del)) = (if is_ok r then 1 else 0)%nat) as E.
  { cbn [results after_finalize]. rewrite count_ok_snoc. lia. }
  split_and!; [|done..]. unfold once. rewrite E. destruct (is_ok r); [|done]. cbn [ph after_finalize].
  destruct Hph as [Hp|[Hp|[Hp|Hp]]]; rewrite Hp in *; try (by left); right; (split; [done|]); cbn [coll after_finalize];
    rewrite Hp; unfold write_end; rewrite (Hs eq_refl); cbn; by rewrite (Hs eq_refl).
Qed.

Lemma once_closed p : once p → ph p = Copying → once (set_phase p (if finalized p then Finished else AtClose FinStart)).
Proof.
  unfold once. cbn [ph results coll set_phase]. rewrite finalized_count.
  destruct (count_ok (results p)) as [|[]]; intros Ho Hp; [done|by left|done].
Qed.

(** ** The invariant of requests *)

(** What a finalizer obtained is a canonical message; it is that of the bytes
    received unless a page may have been missed. *)
Definition answer_ok (r : answer_record) : Prop :=
  canonical_text (answer r) ∧
  (lossy r = false →
   if from_stream r then message_of (seen r) = Ok (answer r) else json_message (seen r) = Some (answer r)).

(** The handler's state of a request is what its headers and body determine. *)
Definition state_of (r : Request_) (st : reqState) : Prop :=
  if participate st then clientHash st = clientIdentity (Header_ r) ∧ chat_messages (Body r) = Some (canonMsgs st)
  else clientHash st = [].

Record req_ok (g : greq) (p : proc) : Prop := {
  ro_new : g_arrived g = false → g_st g = None ∧ g_responded g = false;
  ro_mode : g_responded g = false → g_mode g = RawBody;
  ro_raw : g_mode g = RawBody → answers g = [] ∧ g_pending g = None ∧ g_final g = None;
  ro_part : g_mode g ≠ RawBody → ∃ st, g_st g = Some st ∧ participate st = true;
  ro_st st : g_st g = Some st → state_of (in_req (g_in g)) st;
  ro_pend a : g_pending g = Some a → ∃ r, r ∈ answers g ∧ answer r = a;
  ro_ans : Forall answer_ok (answers g);
  ro_idle : g_mode g ≠ StreamBody → ph p = Copying ∧ results p = [];
  ro_stream : g_mode g = StreamBody → length (answers g) = count_ok (results p);
  ro_json : g_mode g = JsonBody →
    (∀ st, g_st g = Some st → finished st = false → g_final g = None ∧ answers g = []) ∧
    (g_final g ≠ None → answers g = []) ∧ (length (answers g) <= 1)%nat;
  ro_kind : g_mode g = StreamBody → (∀ st, g_st g = Some st → collector st ≠ None) ∧ g_final g ≠ Some FinalizeJSON;
  ro_once : once p;
}.

Lemma answers_le1 g p : req_ok g p → (length (answers g) <= 1)%nat.
Proof.
  intros Hr. destruct (g_mode g) eqn:Em.
  - destruct (ro_raw g p Hr Em) as [-> _]. cbn. lia.
  - rewrite (ro_stream g p Hr Em). apply once_le, Hr.
  - apply (ro_json g p Hr Em).
Qed.

Lemma req_ok_same g p p' : same_phase p p' → req_ok g p → req_ok g p'.
Proof.
  intros Hs []. split; try done; try (by eapply once_same); destruct Hs as (Hp&Hr&_); rewrite ?Hp, ?Hr; done.
Qed.

(** The same key fields. *)
Definition same_key (st st' : reqState) : Prop :=
  participate st' = participate st ∧ clientHash st' = clientHash st ∧ canonMsgs st' = canonMsgs st ∧
  sessionID st' = sessionID st ∧ collector st' = collector st.

Lemma state_of_same r st st' : same_key st st' → state_of r st → state_of r st'.
Proof. unfold state_of. by intros (->&->&->&_). Qed.

Lemma on_result_key f d st r stats {S} `{Metered S} (s : S) :
  same_key st (on_result f d st r stats s).1.2 ∧ (on_result f d st r stats s).2 = match r with Ok a => Some a | Err _ => None end.
Proof.
  unfold on_result, finalizeAtDone_result, finalizeStream_result, finalizeStreamOnClose_result.
  destruct d; [|destruct f as [[]|]]; by destruct r.
Qed.

Lemma json_read_key st p : same_key st (json_read st p).
Proof. unfold json_read. destruct p; [done|]. destruct (jsonBuf st); [|done]. by case_match. Qed.

Lemma end_key (e : bool) st {S} `{Metered S} (s : S) : same_key st ((if e then on_eof else on_close) st s).1.2 ∧
  finished ((if e then on_eof else on_close) st s).1.2 = true ∧
  (((if e then on_eof else on_close) st s).2 ≠ None → finished st = false) ∧
  (collector st ≠ None → ((if e then on_eof else on_close) st s).2 ≠ Some FinalizeJSON).
Proof.
  destruct e; unfold on_eof, on_close, finish; cbn [finished set_flags];
    (destruct (finished st) eqn:Ef; [by split_and!|]); repeat case_match; by split_and!.
Qed.

Lemma readBody_ok r max b : max < 2 ^ 63 → readBody r max = Ok (b, false) → b = Body r ∨ b = [].
Proof.
  intros Hm. unfold readBody, ReadAll_limited. set (n := wrap64 (max + 1)).
  destruct (Z.leb_spec n 0); [case_match; [done|]; intros [= <-]; by right|].
  destruct (Z.leb_spec n (Z.of_nat (length (Body r)))) as [Hle|].
  - rewrite length_take. destruct (Z.ltb_spec max (Z.of_nat (Z.to_nat n `min` length (Body r)))) as [|Hge]; [done|].
    exfalso. assert (n <= max) as Hn by lia. unfold n, wrap64 in *.
    pose proof (Z.mod_pos_bound (max + 1 + 2 ^ 63) (2 ^ 64)). destruct (decide (max + 1 < 2 ^ 63)).
    + destruct (decide (- 2 ^ 63 <= max + 1)); [rewrite Z.mod_small in Hn by lia; lia|lia].
    + assert (max + 1 = 2 ^ 63) as E by lia. rewrite E in *. by vm_compute in H.
  - destruct (Body_fails r); [done|]. case_match; [done|]. intros [= <-]. by left.
Qed.

Lemma ServeHTTP_state {S} `{SessionStore S, TempPageStore S, Metered S} cfg rid uuid r (s : S) r' st :
  Config.MaxRequestBody (Config.limits cfg) < 2 ^ 63 →
  (ServeHTTP cfg rid uuid r s).2 = Proxied r' (Some st) → state_of r st ∧ finished st = false.
Proof.
  intros Hm. unfold ServeHTTP. destruct (negb (is_chat r)); [done|].
  destruct (readBody r _) as [[body []]|e] eqn:Eb; try done. rewrite prepare_eq.
  destruct (chat_messages body) as [cms|] eqn:Ec.
  - destruct (Resolve _ _ cms _ _) as [s1 dec]. intros [= _ <-]. split; [|done]. split; [done|]. cbn.
    destruct (readBody_ok _ _ _ Hm Eb) as [->| ->]; [done|]. by vm_compute in Ec.
  - intros [= _ <-]. done.
Qed.

(** ** The invariant of states *)

Section gate_invariant.
Context {S : Type} `{StoreSpec S, !PersistentPages S}.
Context (cfg : Config.Config) (pcfg : Collector.Config).
Context (Httl : 0 < TTL pcfg) (Hlimit : Config.MaxRequestBody (Config.limits cfg) < 2 ^ 63).
Implicit Types (gs : gstate S).

Record gate_ok gs : Prop := {
  go_pool : pool_safe pcfg (pool gs);
  go_len : length (reqs gs) = length (procs (pool gs));
  go_reqs : ∀ i g p, reqs gs !! i = Some g → procs (pool gs) !! i = Some p → req_ok g p;
}.

Lemma go_proc gs i g : gate_ok gs → reqs gs !! i = Some g → ∃ p, procs (pool gs) !! i = Some p ∧ req_ok g p.
Proof.
  intros Hg Hi. destruct (lookup_lt_is_Some_2 (procs (pool gs)) i) as [p Hp].
  { rewrite <-(go_len gs Hg). by eapply lookup_lt_Some. }
  exists p. split; [done|]. by eapply go_reqs.
Qed.

Lemma gate_colon gs : gate_ok gs → colon_ok gs.
Proof.
  intros Hg i g st Hi Hst. destruct (go_proc gs i g Hg Hi) as (p&_&Hr). pose proof (ro_st g p Hr st Hst) as Hs.
  unfold state_of in Hs. destruct (participate st); [destruct Hs as [-> _]; apply clientIdentity_colon|].
  rewrite Hs. apply not_elem_of_nil.
Qed.

Lemma steps_safe st st' : pool_safe pcfg st → pool_steps pcfg st st' → pool_safe pcfg st'.
Proof. intros Hs [es E]. by eapply execs_safe. Qed.

(** Only request [i] changes. *)
Lemma gate_update gs gs' i : gate_ok gs → pool_safe pcfg (pool gs') →
  length (reqs gs') = length (reqs gs) → length (procs (pool gs')) = length (procs (pool gs)) →
  (∀ j, j ≠ i → reqs gs' !! j = reqs gs !! j) →
  (∀ j p, j ≠ i → procs (pool gs) !! j = Some p → ∃ p', procs (pool gs') !! j = Some p' ∧ same_phase p p') →
  (∀ g' p', reqs gs' !! i = Some g' → procs (pool gs') !! i = Some p' → req_ok g' p') → gate_ok gs'.
Proof.
  intros Hg Hs Hl Hl' Hreqs Hprocs Hi. split; [done|rewrite Hl, Hl'; apply Hg|].
  intros j g' p' Hj Hp'. destruct (decide (j = i)) as [->|Hne]; [by apply Hi|]. rewrite Hreqs in Hj by done.
  destruct (go_proc gs j g' Hg Hj) as (p&Hp&Hr). destruct (Hprocs j p Hne Hp) as (p''&Hp''&Hsame).
  rewrite Hp'' in Hp'. injection Hp' as <-. by eapply req_ok_same.
Qed.

(** A step of request [i] that leaves the pool's processes alone. *)
Lemma gate_local gs gs' i g' p : gate_ok gs → pool_safe pcfg (pool gs') → procs (pool gs') = procs (pool gs) →
  reqs gs' = <[i := g']> (reqs gs) → procs (pool gs) !! i = Some p → req_ok g' p → gate_ok gs'.
Proof.
  intros Hg Hs Hp Hr Hpi Hi. apply (gate_update gs _ i); [done|done|by rewrite Hr, length_insert|by rewrite Hp| | |].
  - intros j Hj. by rewrite Hr, list_lookup_insert_ne.
  - intros j q Hj Hq. rewrite Hp. exists q. split; [done|apply same_phase_refl].
  - rewrite Hr, Hp. intros g q [[_ [<- _]]|[Hne _]]%list_lookup_insert_Some Hq; [congruence|done].
Qed.

(** A step of the pool by request [i], which becomes [g']. *)
Lemma gate_exec gs gs' i g g' e pst p : gate_ok gs → reqs gs !! i = Some g → exec pcfg e (pool gs) = Some pst →
  procs (pool gs) !! i = Some p →
  (∀ j, j ≠ i → acts e ≠ Some j) → pool_safe pcfg (pool gs') → procs (pool gs') = procs pst →
  reqs gs' = <[i := g']> (reqs gs) → (∀ p', procs pst !! i = Some p' → req_ok g' p') → gate_ok gs'.
Proof.
  intros Hg Hgi E Hpi Hacts Hs Hp Hr Hi.
  apply (gate_update gs _ i); [done|done|by rewrite Hr, length_insert| | | |].
  - rewrite Hp. by eapply exec_procs.
  - intros j Hj. by rewrite Hr, list_lookup_insert_ne.
  - intros j q Hj Hq. rewrite Hp. eapply exec_others; [done|by apply Hacts|done].
  - rewrite Hr, Hp. intros g1 p1 [[_ [<- _]]|[Hne _]]%list_lookup_insert_Some; [apply Hi|done].
Qed.

(** A worker's step. *)
Lemma gate_worker gs e pst : gate_ok gs → exec pcfg e (pool gs) = Some pst → acts e = None → gate_ok (set_pool gs pst).
Proof.
  intros Hg E Ha. split.
  - cbn. eapply (exec_safe pcfg Httl); [apply Hg|done].
  - cbn. rewrite (exec_procs _ _ _ _ E). apply Hg.
  - cbn. intros i g p' Hi Hp'. destruct (go_proc gs i g Hg Hi) as (p&Hp&Hr).
    destruct (exec_others pcfg e _ _ i p E) as (p''&Hp''&Hsame); [by rewrite Ha|done|].
    rewrite Hp'' in Hp'. injection Hp' as <-. by eapply req_ok_same.
Qed.

(** *** One request *)

Lemma req_arrived g p rid uuid (s : S) : req_ok g p → g_arrived g = false →
  req_ok (arrived g (ServeHTTP cfg rid uuid (in_req (g_in g)) s).2) p.
Proof.
  intros [] Ha. destruct (ro_new0 Ha) as [_ Hresp]. pose proof (ro_mode0 Hresp) as Hraw. destruct (ro_raw0 Hraw) as (Hans&_&_).
  pose proof (ServeHTTP_state cfg rid uuid (in_req (g_in g)) s) as Hst.
  destruct (ServeHTTP _ _ _ _ _).2 as [rep|r' st]; split; cbn; rewrite ?Hans; try done; auto.
  - intros _. apply ro_idle0. by rewrite Hraw.
  - intros st' ->. by apply (Hst r' st' Hlimit).
  - intros _. apply ro_idle0. by rewrite Hraw.
Qed.

Lemma req_responded g p i status ct : req_ok g p → g_arrived g = true → g_responded g = false →
  req_ok (responded g None (modifyResponse i (g_st g) status ct).1 (modifyResponse i (g_st g) status ct).2) p.
Proof.
  intros [] Ha Hresp. pose proof (ro_mode0 Hresp) as Hraw. destruct (ro_raw0 Hraw) as (Hans&Hpend&Hfin).
  destruct (ro_idle0 ltac:(by rewrite Hraw)) as [Hph Hres].
  assert (∀ st' mode, (mode ≠ RawBody → ∃ st, st' = Some st ∧ participate st = true) →
    (∀ st, st' = Some st → state_of (in_req (g_in g)) st) →
    (mode = StreamBody → ∀ st, st' = Some st → collector st ≠ None) → req_ok (responded g None st' mode) p) as Hgen.
  { intros st' mode Hpart Hst Hk. split; cbn; rewrite ?Hans, ?Hpend, ?Hfin, ?Hres; try done; auto. by rewrite Ha. }
  unfold modifyResponse. destruct (g_st g) as [st|] eqn:Est; [|apply Hgen; done].
  specialize (ro_st0 st eq_refl). destruct (participate st) eqn:Ep; cbn [negb].
  2: { apply Hgen; [done| |done]. by intros ? [= <-]. }
  repeat case_match; apply Hgen; try done; try (by intros ? [= <-]); try (by intros _ ? [= <-]); intros _; eauto.
Qed.

Lemma req_same_st g p st st' : req_ok g p → g_st g = Some st → same_key st st' →
  (g_mode g = JsonBody → finished st' = false → finished st = false) →
  req_ok (with_st g st' (g_final g)) p.
Proof.
  intros [] Hst Hkey Hf. split; cbn; try done.
  - intros Ha. destruct (ro_new0 Ha). congruence.
  - intros Hm. destruct (ro_part0 Hm) as (st0&E&Hp). exists st'. split; [done|]. destruct Hkey as (->&_). congruence.
  - intros st'' [= <-]. eapply state_of_same; [done|]. by apply ro_st0.
  - intros Hm. destruct (ro_json0 Hm) as (Hj&?&?). split_and!; try done. intros st'' [= <-] Hf'.
    apply (Hj st Hst), Hf; done.
  - intros Hm. destruct (ro_kind0 Hm) as [Hk ?]. split; [|done]. intros st'' [= <-].
    destruct Hkey as (_&_&_&_&->). by apply Hk.
Qed.

(** A message was obtained. *)
Lemma req_answer g p p' r : req_ok g p → g_mode g ≠ RawBody → answer_ok r → once p' →
  (g_mode g ≠ StreamBody → same_phase p p') →
  (g_mode g = StreamBody → count_ok (results p') = 1%nat ∧ count_ok (results p) = 0%nat) →
  (g_mode g = JsonBody → answers g = [] ∧ g_final g = None ∧ ∀ st, g_st g = Some st → finished st = true) →
  req_ok (with_answer g r) p'.
Proof.
  intros [] Hm Hr Ho Hidle Hs Hj. split; cbn; try done.
  - intros a [= <-]. exists r. split; [|done]. set_solver.
  - by apply Forall_app, conj, Forall_singleton.
  - intros Hns. destruct (Hidle Hns) as (->&->&_). auto.
  - intros Hst. rewrite length_app, ro_stream0 by done. cbn. destruct (Hs Hst). lia.
  - intros Hjs. destruct (Hj Hjs) as (->&Hf&Hfin). split_and!; try done.
    intros st Hst Hun. rewrite Hfin in Hun; done.
Qed.

Lemma end_req e g p st (s : S) f : req_ok g p → g_st g = Some st → g_mode g ≠ RawBody →
  f = match ((if e : bool then on_eof else on_close) st s).2 with Some f => Some f | None => g_final g end →
  (∀ p', once p' → results p' = results p → (g_mode g ≠ StreamBody → ph p' = Copying) →
    req_ok (with_st g ((if e then on_eof else on_close) st s).1.2 f) p').
Proof.
  intros [] Hst Hm -> p' Ho Hr Hi. destruct (end_key e st s) as (Hkey&Hfin&Hspawn&Hjson).
  destruct ((if e then on_eof else on_close) st s) as [[s' st'] f]. cbn [fst snd] in *. split; cbn; rewrite ?Hr; try done.
  - intros Ha. destruct (ro_new0 Ha). congruence.
  - intros Hm'. destruct (ro_part0 Hm') as (st0&E&Hp). exists st'. split; [done|]. destruct Hkey as (->&_). congruence.
  - intros st'' [= <-]. eapply state_of_same; [done|]. by apply ro_st0.
  - intros Hns. split; [by apply Hi|]. by apply ro_idle0.
  - intros Hj. destruct (ro_json0 Hj) as (Hj1&Hj2&Hj3). split_and!; [|intros Hf|done].
    + intros st'' [= <-]. congruence.
    + destruct f; [|by apply Hj2]. by apply (Hj1 st Hst), Hspawn.
  - intros Hs. destruct (ro_kind0 Hs) as [Hk Hn]. split.
    + intros st'' [= <-]. destruct Hkey as (_&_&_&_&->). by apply Hk.
    + destruct f; [|done]. by apply Hjson, Hk.
Qed.

(** *** One step *)

Lemma message_text payload a : message_of payload = Ok a → canonical_text a.
Proof.
  unfold message_of. destruct (AssistantFromSSE payload) as [[c|e] d] eqn:E; [|by destruct e].
  destruct (negb d); [done|]. destruct c as [|b c']; [done|].
  intros [= <-]. by eapply AssistantFromSSE_text.
Qed.

Lemma json_message_text body a : json_message body = Some a → canonical_text a.
Proof.
  unfold json_message. destruct (ParseCompletionResponse body) as [msg|]; [|done].
  destruct (AssistantFromMessage msg) as [c|] eqn:E; [|done]. intros [= <-]. by eapply AssistantFromMessage_text.
Qed.

(** What a finalizer reads is a message, and the right one if nothing was missed. *)
Lemma read_answer (st : @state S) i p a : pool_safe pcfg st → procs st !! i = Some p → inflight (coll p) = 0 →
  (finalize_read (coll p) (store st)).1.2 = Ok a →
  answer_ok {| from_stream := true; seen := written p; lossy := failed (coll p) || bool_decide (results p ≠ []); answer := a |}.
Proof.
  intros Hst Hp Hin. pose proof (λ m, read_exact pcfg st i p m Hst Hp Hin) as Hexact. unfold finalize_read.
  destruct (GetPages _ (store st)) as [s1 [m|e]]; [|done]. destruct (DeletePages _ s1) as [s2 x]. cbn. intros Ha.
  split; [by eapply message_text|]. cbn. intros [Hf Hr]%orb_false_iff. apply bool_decide_eq_false in Hr.
  apply dec_stable in Hr. rewrite <-Ha. f_equal. symmetry. by apply Hexact.
Qed.

Lemma deliver_ok gs gs' i g p e pst r del stats : gate_ok gs → reqs gs !! i = Some g → procs (pool gs) !! i = Some p →
  exec pcfg e (pool gs) = Some pst → acts e = Some i → procs pst !! i = Some (after_finalize p r del) →
  (ph p = AtDone FinStart ∨ ph p = AtClose FinStart ∨ ph p = AtDone FinWait ∨ ph p = AtClose FinWait) →
  (∀ a, r = Ok a →
    answer_ok {| from_stream := true; seen := written p; lossy := failed (coll p) || bool_decide (results p ≠ []); answer := a |}) →
  deliver (set_pool gs pst) i g p r stats = Some gs' → pool_safe pcfg (pool gs') → gate_ok gs'.
Proof.
  intros Hg Hi Hp E Hacts Hp' Hph Hans Hd Hsafe. pose proof (go_reqs gs Hg i g p Hi Hp) as Hr.
  assert (g_mode g = StreamBody) as Hm.
  { apply dec_stable. intros Hm. destruct (ro_idle g p Hr Hm) as [Hc _]. rewrite Hc in Hph. naive_solver. }
  destruct (once_result p r del (ro_once g p Hr) Hph) as (Ho&Hcnt&Hzero).
  { intros Hd'. pose proof (po_done _ _ _ _ (ok_procs pcfg _ (safe_ok pcfg _ (go_pool gs Hg)) i p Hp)) as Hpd.
    by destruct (ph p). }
  revert Hd. unfold deliver. bind_some st Hst. cbn [pool set_pool].
  destruct (on_result_key (g_final g) (is_at_done (ph p)) st r stats (store pst)) as [Hkey Ha].
  destruct (on_result _ _ _ _ _ _) as [[s st'] a]. cbn [fst snd] in Hkey, Ha. subst a. intros [= <-].
  assert (req_ok (with_st g st' (g_final g)) p) as Hr1 by (eapply req_same_st; [done..|by rewrite Hm]).
  eapply (gate_exec gs _ i g _ e pst p); try done; [intros j Hj; rewrite Hacts; congruence|].
  intros p' Hp1. rewrite Hp' in Hp1. injection Hp1 as <-. destruct r as [a|err].
  - eapply req_answer; [exact Hr1|by cbn; rewrite Hm|by apply Hans|done|by cbn; rewrite Hm|done|by cbn; rewrite Hm].
  - destruct Hr1. split; try done; cbn; rewrite Hm in *; try done.
    intros _. cbn in ro_stream0. rewrite ro_stream0 by done. cbn in Hcnt. by rewrite Hcnt, Hzero.
Qed.

Lemma end_body_ok e gs gs' i g : gate_ok gs → reqs gs !! i = Some g → g_mode g ≠ RawBody →
  end_body pcfg e gs i g = Some gs' → pool_safe pcfg (pool gs') → gate_ok gs'.
Proof.
  intros Hg Hi Hm. destruct (go_proc gs i g Hg Hi) as (p&Hp&Hr). unfold end_body. bind_some st Hst.
  assert (∀ f, f = match ((if e : bool then on_eof else on_close) st (store (pool gs))).2 with Some f => Some f | None => g_final g end →
    ∀ p', once p' → results p' = results p → (g_mode g ≠ StreamBody → ph p' = Copying) →
    req_ok (with_st g ((if e then on_eof else on_close) st (store (pool gs))).1.2 f) p') as Hend.
  { intros f Hf. by eapply end_req. }
  assert (session_run (store (pool gs)) ((if e then on_eof else on_close) st (store (pool gs))).1.1) as Hrun
    by (destruct e; apply finish_run).
  destruct ((if e then on_eof else on_close) st (store (pool gs))) as [[s st'] f]. cbn [fst snd] in Hend, Hrun.
  specialize (Hend _ eq_refl). set (g' := with_st g st' _) in *.
  assert (req_ok g' p) as Hself by (apply Hend; [apply Hr|done|intros Hns; by apply (ro_idle g p Hr)]).
  assert (∀ gs1, gs1 = set_req (set_pstore gs s) i g' → pool_safe pcfg (pool gs1) → gate_ok gs1) as Hlocal.
  { intros gs1 -> Hs. by eapply (gate_local gs _ i g'). }
  destruct (g_mode g) eqn:Em; [done| |intros [= <-]; by apply Hlocal].
  destruct (finished st); [intros [= <-]; by apply Hlocal|]. bind_some pst E. intros [= <-] Hs.
  assert (gate_ok (set_req (set_pstore gs s) i g')) as Hg1.
  { apply Hlocal; [done|]. eapply steps_safe; [apply Hg|]. by apply pool_steps_store. }
  destruct (exec_close pcfg i _ _ p E Hp) as [Hc Hp'].
  eapply (gate_exec (set_req (set_pstore gs s) i g') _ i g' g' (EClose i) pst p); try done.
  - cbn. apply list_lookup_insert_eq. by eapply lookup_lt_Some.
  - cbn. congruence.
  - cbn. symmetry. apply list_insert_insert_eq.
  - intros p' Hp1. rewrite Hp' in Hp1. injection Hp1 as <-. apply Hend; [|done|done].
    apply once_closed; [apply Hr|done].
Qed.

Lemma parse_ok gs i g p st : gate_ok gs → reqs gs !! i = Some g → procs (pool gs) !! i = Some p → g_st g = Some st →
  g_final g = Some FinalizeJSON → req_ok g p → g_mode g = JsonBody →
  req_ok (let g' := with_st g st None in
          match (finalizeJSON_result st (store (pool gs))).2 with
          | Some a => with_answer g' {| from_stream := false; seen := default [] (jsonBuf st); lossy := false; answer := a |}
          | None => g' end) p.
Proof.
  intros Hg Hi Hp Hst Hf Hr Hm. destruct (ro_json g p Hr Hm) as (Hj&Hjf&_).
  assert (answers g = []) as Hans by (apply Hjf; by rewrite Hf).
  assert (finished st = true) as Hfin.
  { destruct (finished st) eqn:Efin; [done|]. destruct (Hj st Hst Efin). congruence. }
  assert (req_ok (with_st g st None) p) as Hr1.
  { destruct (req_same_st g p st st Hr Hst (conj eq_refl (conj eq_refl (conj eq_refl (conj eq_refl eq_refl)))) ltac:(done)).
    split; try done; cbn in *.
    - intros Hraw. by destruct (ro_raw0 Hraw) as (?&?&_).
    - intros _. split_and!; [|done|rewrite Hans; cbn; lia]. intros st' [= <-] Hun. congruence.
    - intros ?. congruence. }
  unfold finalizeJSON_result. destruct (jsonTrunc st); [done|]. destruct (jsonBuf st) as [body|]; [|done].
  destruct (json_message body) as [a|] eqn:Ea; [|done]. cbn [snd default].
  apply (req_answer _ p); [done|by cbn; rewrite Hm| |apply Hr1|done|by cbn; rewrite Hm|].
  - split; [by eapply json_message_text|done].
  - intros _. cbn. split_and!; [done|done|]. by intros st' [= <-].
Qed.

(** A read of the body. *)
Lemma gate_read gs gs' i b g p : gate_ok gs → reqs gs !! i = Some g → procs (pool gs) !! i = Some p → req_ok g p →
  gexec cfg pcfg (GRead i b) gs = Some gs' → pool_safe pcfg (pool gs') → gate_ok gs'.
Proof.
  intros Hg Hi Hp Hr. cbn [gexec]. rewrite Hi. cbn [mbind option_bind].
  destruct (decide _) as [[_ Hb]|]; [|done]. destruct (g_mode g) eqn:Hm; [done| |].
  - bind_some pst E. intros [= <-] Hs. destruct (exec_write pcfg i b _ _ p E Hp) as (Hc&p1&Hp1&Hres&Hcase).
    eapply (gate_exec gs _ i g g); try done; [intros j Hj; cbn; congruence|cbn; symmetry; by apply list_insert_id|].
    intros p' Hp'. rewrite Hp1 in Hp'. injection Hp' as <-. destruct Hcase as [->|[Hsl _]]; [done|].
    destruct Hr. split; rewrite ?Hres; try done. unfold once in *. rewrite Hres.
    destruct (count_ok (results p)) as [|[]]; [done| |done]. destruct ro_once0 as [?|[_ ?]]; congruence.
  - bind_some st Hst. destruct (finished st) eqn:Hfin; [done|]. intros [= <-] Hs.
    eapply (gate_local gs _ i); [done..|]. eapply req_same_st; [done..|apply json_read_key|]. by intros _ _.
Qed.

(** The check a finalizer starts with. *)
Lemma gate_check gs gs' i g p : gate_ok gs → reqs gs !! i = Some g → procs (pool gs) !! i = Some p → req_ok g p →
  gexec cfg pcfg (GCheck i) gs = Some gs' → pool_safe pcfg (pool gs') → gate_ok gs'.
Proof.
  intros Hg Hi Hp Hr. cbn [gexec]. rewrite Hi. cbn [mbind option_bind]. rewrite Hp. cbn [mbind option_bind].
  bind_some pst E. destruct (exec_check pcfg i _ _ p E Hp) as [Hph Hp'].
  destruct (finalize_check (coll p)) as [[err stats]|] eqn:Ec.
  - intros Hd Hs. eapply (deliver_ok gs gs' i g p (ECheck i) pst (Err err) false stats); try done. naive_solver.
  - intros [= <-] Hs. eapply (gate_exec gs _ i g g (ECheck i) pst p); try done;
      [intros j Hj; cbn; congruence|cbn; symmetry; by apply list_insert_id|].
    intros p1 Hp1. rewrite Hp' in Hp1. injection Hp1 as <-.
    assert (g_mode g = StreamBody) as Hm.
    { apply dec_stable. intros Hm. destruct (ro_idle g p Hr Hm) as [Hc _]. rewrite Hc in Hph. naive_solver. }
    pose proof (once_busy p (ro_once g p Hr) ltac:(by destruct Hph as [-> | ->]) ltac:(by destruct Hph as [-> | ->])) as Hz.
    destruct Hr. split; try done; cbn; rewrite ?Hm; try done. unfold once. cbn [results set_phase]. by rewrite Hz.
Qed.

(** The pages are read and the message built. *)
Lemma gate_assemble gs gs' i g p : gate_ok gs → reqs gs !! i = Some g → procs (pool gs) !! i = Some p → req_ok g p →
  gexec cfg pcfg (GAssemble i) gs = Some gs' → pool_safe pcfg (pool gs') → gate_ok gs'.
Proof.
  intros Hg Hi Hp Hr. cbn [gexec]. rewrite Hi. cbn [mbind option_bind]. rewrite Hp. cbn [mbind option_bind].
  bind_some pst E. destruct (exec_read pcfg i _ _ p E Hp) as (Hph&Hin&Epst).
  pose proof (λ a, read_answer (pool gs) i p a (go_pool gs Hg) Hp Hin) as Hans.
  destruct (finalize_read (coll p) (store (pool gs))) as [[s r] stats]. cbn [fst snd] in *. intros Hd Hs.
  eapply (deliver_ok gs gs' i g p (ERead i) pst r true stats); try done; [|naive_solver].
  rewrite Epst. cbn. apply list_lookup_insert_eq. by eapply lookup_lt_Some.
Qed.

Lemma gate_step e gs gs' : gate_ok gs → gexec cfg pcfg e gs = Some gs' → gate_ok gs'.
Proof.
  intros Hg E. assert (pool_safe pcfg (pool gs')) as Hs.
  { eapply steps_safe; [apply Hg|]. eapply gexec_pool; [by apply gate_colon|done]. }
  pose proof E as E0. revert E. destruct e as [i|i status ct|i|i b|i|i|i|i|i|i| |k|k| |]; cbn [gexec].
  11-15: (bind_some pst E; intros [= <-]; by eapply gate_worker).
  all: bind_some g Hi; destruct (go_proc gs i g Hg Hi) as (p&Hp&Hr).
  - destruct (g_arrived g) eqn:Ha; [done|]. pose proof (req_arrived g p (in_rid (g_in g)) (in_uuid (g_in g)) (store (pool gs)) Hr Ha) as Hr'.
    destruct (ServeHTTP _ _ _ _ _) as [s d]. intros [= <-]. by eapply (gate_local gs _ i).
  - destruct (g_arrived g && negb (g_responded g)) eqn:Ha; [|done].
    apply andb_prop in Ha as [Ha Hn%negb_true_iff]. pose proof (req_responded g p i status ct Hr Ha Hn) as Hr'.
    destruct (modifyResponse _ _ _ _) as [st mode]. intros [= <-]. by eapply (gate_local gs _ i).
  - destruct (g_arrived g && negb (g_responded g)) eqn:Ha; [|done].
    apply andb_prop in Ha as [Ha Hn%negb_true_iff]. intros [= <-]. eapply (gate_local gs _ i); [done..|].
    pose proof (ro_mode g p Hr Hn) as Hraw. destruct (ro_raw g p Hr Hraw) as (Hans&?&?). destruct Hr.
    destruct (ro_idle0 ltac:(by rewrite Hraw)). split; cbn; try done; by rewrite ?Ha, ?Hans.
  - intros _. by eapply gate_read.
  - destruct (decide _) as [[_ Hm]|]; [|done]. intros E. by eapply end_body_ok.
  - destruct (decide _) as [[_ Hm]|]; [|done]. intros E. by eapply end_body_ok.
  - intros _. by eapply gate_check.
  - intros _. by eapply gate_assemble.
  - bind_some st Hst. destruct (g_final g) as [[]|] eqn:Hf; try done.
    assert (g_mode g = JsonBody) as Hm.
    { destruct (g_mode g) eqn:Hm; [by destruct (ro_raw g p Hr Hm) as (_&_&?); congruence| |done].
      by destruct (ro_kind g p Hr Hm). }
    pose proof (parse_ok gs i g p st Hg Hi Hp Hst Hf Hr Hm) as Hr'.
    destruct (finalizeJSON_result _ _) as [s a]. intros [= <-]. eapply (gate_local gs _ i); [done..|]. by destruct a.
  - bind_some st Hst. bind_some a Ha. intros [= <-]. eapply (gate_local gs _ i); [done..|].
    destruct Hr. split; cbn; try done. intros Hraw. by destruct (ro_raw0 Hraw) as (?&?&?).
Qed.
End gate_invariant.
