(* ===== verification/Provenance.v ===== *)
(** * Where the sessions of the running gateway come from

    Every mapping in the store was made by a request of the run: its key is the
    hash of that request's credential and of its messages followed by the answer
    a finalizer obtained, its value that request's session.  With the injectivity
    of the hashes up to explicit SHA-256 collisions this gives the isolation of
    clients and conversations. *)
From S2P Require Import Prelude GoBytes Json JsonRender Sha256 Canon Request Assistant AssistantStream.
From S2P Require Import Metrics Store Session Collector Pool Proxy Gateway GatewaySafety.
From S2P Require Config.

(** ** Operations that store no session *)

Section keeps.
Context {S : Type} `{StoreSpec S}.
Implicit Types (s : S).

Definition keeps s s' : Prop := ∀ c h x, session_at s' c h = Some x → session_at s c h = Some x.

Lemma keeps_refl s : keeps s s.
Proof. by intros c h x. Qed.
Lemma keeps_trans s s' s'' : keeps s s' → keeps s' s'' → keeps s s''.
Proof. intros H1' H2' c h x Hx. by apply H1', H2'. Qed.
Lemma keeps_record e s s' : keeps s s' → keeps s (record e s').
Proof. intros Hk c h x. destruct (record_spec e s') as [-> _]. apply Hk. Qed.
Lemma keeps_put_page r n d ttl s : keeps s (PutPage r n d ttl s).1.
Proof. intros c h x Hx. apply (page_ops_sessions r n d ttl s). by left. Qed.
Lemma keeps_get_pages r s : keeps s (GetPages r s).1.
Proof. intros c h x Hx. apply (page_ops_sessions r 0 [] 0 s). by right; left. Qed.
Lemma keeps_delete_pages r s : keeps s (DeletePages r s).1.
Proof. intros c h x Hx. apply (page_ops_sessions r 0 [] 0 s). by right; right. Qed.
End keeps.
Create HintDb keeps.
#[export] Hint Resolve keeps_refl keeps_record : keeps.

Section keeps_ops.
Context {S : Type} `{StoreSpec S}.
Implicit Types (s : S).

Lemma ServeHTTP_keeps cfg rid uuid r s : keeps s (ServeHTTP cfg rid uuid r s).1.
Proof.
  unfold ServeHTTP. destruct (negb (is_chat r)); [cbn; auto with keeps|].
  destruct (readBody _ _) as [[body []]|e]; [cbn; auto with keeps| |cbn; auto with keeps].
  rewrite prepare_eq. destruct (chat_messages body) as [cms|]; [|cbn; auto with keeps].
  set (s1 := record _ s).
  assert (keeps s (Resolve uuid (clientIdentity (Header_ r)) cms (Get (Header_ r) h_Session) s1).1) as Hk.
  { intros c h x Hx%Resolve_keeps. by destruct (record_spec (Inc (Requests (str "chat"))) s) as [<- _]. }
  by destruct (Resolve _ _ _ _ s1).
Qed.

Lemma finish_keeps st s : keeps s (finish st s).1.1.
Proof. unfold finish. repeat case_match; cbn; auto with keeps. Qed.

Lemma on_result_keeps f d st r stats s : keeps s (on_result f d st r stats s).1.1.
Proof.
  unfold on_result, finalizeAtDone_result, finalizeStream_result, finalizeStreamOnClose_result, finalize_observed.
  repeat case_match; cbn; auto 6 with keeps.
Qed.

Lemma finalizeJSON_keeps st s : keeps s (finalizeJSON_result st s).1.
Proof. unfold finalizeJSON_result. repeat case_match; cbn; auto with keeps. Qed.

(** A mapping adds one session. *)
Lemma putMapping_adds cfg st a s c h x : colon_free c → colon_free (clientHash st) →
  session_at (putMapping cfg st a s) c h = Some x →
  (c = clientHash st ∧ h = HashBytes (FullState (canonMsgs st) a) ∧ x = sessionID st) ∨ session_at s c h = Some x.
Proof.
  intros Hc Hst. unfold putMapping.
  pose proof (λ Hx, PutSession_keeps (clientHash st) (HashBytes (FullState (canonMsgs st) a)) (sessionID st)
    (Config.Session_TTL (Config.session_ cfg)) s c h x Hst Hc Hx) as Hk.
  destruct (PutSession _ _ _ _ s) as [s1 [[]|e]]; intros Hx; apply Hk; by rewrite !record_at in Hx.
Qed.

Lemma finalize_read_keeps c s : keeps s (finalize_read c s).1.1.
Proof.
  unfold finalize_read. pose proof (keeps_get_pages (c_requestID c) s) as Hg.
  destruct (GetPages _ s) as [s1 [pages|e]]; [|done]. pose proof (keeps_delete_pages (c_requestID c) s1) as Hd.
  destruct (DeletePages _ s1) as [s2 r]. by eapply keeps_trans.
Qed.

Lemma worker_put_keeps pcfg job s : keeps s (worker_put pcfg job s).1.
Proof.
  unfold worker_put. pose proof (keeps_put_page (requestID job) (seq job) (data job) (TTL pcfg) s) as Hp.
  destruct (PutPage _ _ _ _ s) as [s1 [u|e]]; cbn; by apply keeps_record.
Qed.

(** No step of the pool but an explicit store operation stores a session. *)
Lemma exec_keeps_sessions pcfg e (st st' : @state S) : exec pcfg e st = Some st' → (∀ o, e ≠ EStore o) →
  keeps (store st) (store st').
Proof.
  intros E Hns. step_cases E; try apply keeps_refl; cbn.
  - pose proof (finalize_read_keeps (coll pa) (store st)) as Hks. by rewrite Hr in Hks.
  - pose proof (worker_put_keeps pcfg job (store st)) as Hks. by rewrite Hw in Hks.
  - by destruct (Hns o).
Qed.
End keeps_ops.

(** ** The provenance invariant *)

Lemma map_rids (rs : list incoming) : (map (λ r, (in_rid r, true)) rs).*1 = map in_rid rs.
Proof. induction rs as [|r rs IH]; cbn; [done|]. by rewrite <-IH. Qed.

Section provenance.
Context {S : Type} `{StoreSpec S, !PersistentPages S}.
Context (cfg : Config.Config) (pcfg : Collector.Config).
Context (Httl : 0 < TTL pcfg) (Hlimit : Config.MaxRequestBody (Config.limits cfg) < 2 ^ 63).
Implicit Types (gs : gstate S).

(** Session [x] under client [c] and state hash [h] comes from a request. *)
Definition mapped gs (c h x : bytes) : Prop :=
  ∃ i g st r, reqs gs !! i = Some g ∧ g_st g = Some st ∧ participate st = true ∧ r ∈ answers g ∧
    c = clientHash st ∧ h = HashBytes (FullState (canonMsgs st) (answer r)) ∧ x = sessionID st.

Definition same_id (st st' : reqState) : Prop :=
  participate st' = participate st ∧ clientHash st' = clientHash st ∧ canonMsgs st' = canonMsgs st ∧
  sessionID st' = sessionID st.

Lemma same_key_id st st' : same_key st st' → same_id st st'.
Proof. by intros (?&?&?&?&_). Qed.

(** A participating request keeps its identity and its answers. *)
Definition evolves (g g' : greq) : Prop := ∀ st, g_st g = Some st → participate st = true →
  ∃ st', g_st g' = Some st' ∧ same_id st st' ∧ answers g ⊆ answers g'.

Lemma evolves_same g g' : g_st g' = g_st g → answers g ⊆ answers g' → evolves g g'.
Proof. intros E Ha st Hst Hp. exists st. by rewrite E. Qed.

Lemma evolves_st g st st' f : g_st g = Some st → same_key st st' → evolves g (with_st g st' f).
Proof.
  intros E Hk st0 E0 Hp. exists st'. split; [done|]. rewrite E in E0. injection E0 as <-. split; [by apply same_key_id|done].
Qed.

Lemma evolves_answer g g' r : evolves g g' → evolves g (with_answer g' r).
Proof. intros He st Hst Hp. destruct (He st Hst Hp) as (st'&?&?&?). exists st'. split_and!; try done. cbn. set_solver. Qed.

Lemma mapped_evolves gs gs' i g' c h x : reqs gs' = <[i := g']> (reqs gs) →
  (∀ g, reqs gs !! i = Some g → evolves g g') → mapped gs c h x → mapped gs' c h x.
Proof.
  intros Er He (j&g&st&r&Hj&Hst&Hp&Hr&->&->&->). destruct (decide (j = i)) as [->|Hne].
  - destruct (He g Hj st Hst Hp) as (st'&Hst'&(Hp'&Hc&Hm&Hs)&Ha). exists i, g', st', r.
    rewrite Er, list_lookup_insert_eq by (by eapply lookup_lt_Some). split_and!; try congruence. set_solver.
  - exists j, g, st, r. by rewrite Er, list_lookup_insert_ne.
Qed.

Lemma deliver_evolves gs gs' i g p r stats : deliver gs i g p r stats = Some gs' →
  ∃ g', reqs gs' = <[i := g']> (reqs gs) ∧ evolves g g'.
Proof.
  unfold deliver. bind_some st Hst.
  destruct (on_result_key (g_final g) (is_at_done (ph p)) st r stats (store (pool gs))) as [Hk _].
  destruct (on_result _ _ _ _ _ _) as [[s st'] a]. intros [= <-]. eexists. split; [done|].
  destruct a; [apply evolves_answer|]; by eapply evolves_st.
Qed.

Lemma end_body_evolves e gs gs' i g : end_body pcfg e gs i g = Some gs' →
  ∃ g', reqs gs' = <[i := g']> (reqs gs) ∧ evolves g g'.
Proof.
  unfold end_body. bind_some st Hst. destruct (end_key e st (store (pool gs))) as [Hk _].
  destruct ((if e then on_eof else on_close) _ _) as [[s st'] f]. cbn [fst snd] in Hk. intros E.
  eexists. split; [|by eapply evolves_st]. revert E.
  destruct (g_mode g); try (by intros [= <-]). destruct (finished st); [by intros [= <-]|]. bind_some pst E. by intros [= <-].
Qed.

(** What one step does to the requests. *)
Lemma step_evolves e gs gs' : gate_ok pcfg gs → gexec cfg pcfg e gs = Some gs' →
  reqs gs' = reqs gs ∨ ∃ i g g', reqs gs !! i = Some g ∧ reqs gs' = <[i := g']> (reqs gs) ∧ evolves g g'.
Proof.
  intros Hg. destruct e as [i|i status ct|i|i b|i|i|i|i|i|i| |k|k| |]; cbn [gexec].
  11-15: (bind_some pst E; intros [= <-]; by left).
  all: bind_some g Hi; destruct (go_proc pcfg gs i g Hg Hi) as (p&Hp&Hr).
  all: enough (∀ g', reqs gs' = <[i := g']> (reqs gs) → evolves g g' → reqs gs' = reqs gs ∨
    ∃ i g g', reqs gs !! i = Some g ∧ reqs gs' = <[i := g']> (reqs gs) ∧ evolves g g') as Hlocal;
    [|intros g' ? ?; right; by exists i, g, g'].
  - destruct (g_arrived g) eqn:Ha; [done|]. destruct (ServeHTTP _ _ _ _ _) as [s d]. intros [= <-].
    eapply Hlocal; [done|]. intros st Hst. destruct (ro_new g p Hr Ha). congruence.
  - destruct (_ && _); [|done]. destruct (modifyResponse _ _ _ _) as [st' mode] eqn:Em. intros [= <-].
    eapply Hlocal; [done|]. intros st Hst Hp'. rewrite Hst in Em. cbn in Em. rewrite Hp' in Em. cbn [negb] in Em.
    cbn. repeat case_match; injection Em as <- <-; by eexists.
  - destruct (_ && _); [|done]. intros [= <-]. eapply Hlocal; [done|]. by apply evolves_same.
  - destruct (decide _); [|done]. destruct (g_mode g); [done|bind_some pst E; intros [= <-]; by left|].
    bind_some st Hst. destruct (finished st); [done|]. intros [= <-]. eapply Hlocal; [done|].
    eapply evolves_st; [done|apply json_read_key].
  - destruct (decide _); [|done]. intros (g'&?&?)%end_body_evolves. by eapply Hlocal.
  - destruct (decide _); [|done]. intros (g'&?&?)%end_body_evolves. by eapply Hlocal.
  - rewrite Hp. cbn [mbind option_bind]. bind_some pst E. destruct (finalize_check (coll p)) as [[err stats]|].
    + intros (g'&?&?)%deliver_evolves. by eapply Hlocal.
    + intros [= <-]. by left.
  - rewrite Hp. cbn [mbind option_bind]. bind_some pst E. destruct (finalize_read _ _) as [[s r] stats].
    intros (g'&?&?)%deliver_evolves. by eapply Hlocal.
  - bind_some st Hst. destruct (g_final g) as [[]|]; try done. destruct (finalizeJSON_result _ _) as [s a]. intros [= <-].
    eapply Hlocal; [done|]. destruct a; [apply evolves_answer|]; by eapply evolves_st.
  - bind_some st Hst. bind_some a Ha. intros [= <-]. eapply Hlocal; [done|]. by apply evolves_same.
Qed.

Lemma step_mapped e gs gs' c h x : gate_ok pcfg gs → gexec cfg pcfg e gs = Some gs' → mapped gs c h x → mapped gs' c h x.
Proof.
  intros Hg E Hm. destruct (step_evolves e gs gs' Hg E) as [Er|(i&g&g'&Hi&Er&Hev)].
  - destruct Hm as (i&g&st&r&?). exists i, g, st, r. by rewrite Er.
  - eapply mapped_evolves; [done| |done]. intros g0 Hi0. rewrite Hi in Hi0. by injection Hi0 as <-.
Qed.

(** *** What one step does to the sessions *)

Lemma deliver_keeps gs gs' i g p r stats : deliver gs i g p r stats = Some gs' → keeps (store (pool gs)) (store (pool gs')).
Proof.
  unfold deliver. bind_some st Hst. pose proof (on_result_keeps (g_final g) (is_at_done (ph p)) st r stats (store (pool gs))) as Hk.
  destruct (on_result _ _ _ _ _ _) as [[s st'] a]. by intros [= <-].
Qed.

Lemma lift_keeps e gs gs' : (∀ o, e ≠ EStore o) → (pst ← exec pcfg e (pool gs); Some (set_pool gs pst)) = Some gs' →
  keeps (store (pool gs)) (store (pool gs')).
Proof. intros He. bind_some pst E. intros [= <-]. by eapply exec_keeps_sessions. Qed.

Lemma end_body_keeps e gs gs' i g : end_body pcfg e gs i g = Some gs' → keeps (store (pool gs)) (store (pool gs')).
Proof.
  unfold end_body. bind_some st Hst.
  assert (keeps (store (pool gs)) ((if e then on_eof else on_close) st (store (pool gs))).1.1) as Hk
    by (destruct e; apply finish_keeps).
  destruct ((if e then on_eof else on_close) _ _) as [[s st'] f]. cbn in Hk.
  destruct (g_mode g); try (by intros [= <-]). destruct (finished st); [by intros [= <-]|].
  intros E%lift_keeps; [|done]. by eapply keeps_trans.
Qed.

(** Only a finalizer that writes its mapping stores a session. *)
Lemma step_keeps e gs gs' : gate_ok pcfg gs → gexec cfg pcfg e gs = Some gs' → (∀ i, e ≠ GMap i) →
  keeps (store (pool gs)) (store (pool gs')).
Proof.
  intros Hg E Hne. revert E. destruct e as [i|i status ct|i|i b|i|i|i|i|i|i| |k|k| |]; cbn [gexec].
  10: by destruct (Hne i).
  10-14: by apply lift_keeps.
  all: bind_some g Hi; destruct (go_proc pcfg gs i g Hg Hi) as (p&Hp&Hr).
  - destruct (g_arrived g); [done|]. pose proof (ServeHTTP_keeps cfg (in_rid (g_in g)) (in_uuid (g_in g)) (in_req (g_in g)) (store (pool gs))) as Hk.
    destruct (ServeHTTP _ _ _ _ _). by intros [= <-].
  - destruct (_ && _); [|done]. destruct (modifyResponse _ _ _ _). intros [= <-]. apply keeps_refl.
  - destruct (_ && _); [|done]. intros [= <-]. apply keeps_refl.
  - destruct (decide _); [|done]. destruct (g_mode g); [done|by apply lift_keeps|].
    bind_some st Hst. destruct (finished st); [done|]. intros [= <-]. apply keeps_refl.
  - destruct (decide _); [|done]. apply end_body_keeps.
  - destruct (decide _); [|done]. apply end_body_keeps.
  - rewrite Hp. cbn [mbind option_bind]. bind_some pst E. apply exec_keeps_sessions in E; [|done].
    destruct (finalize_check (coll p)) as [[err stats]|]; [|by intros [= <-]].
    intros Hk%deliver_keeps. by eapply keeps_trans.
  - rewrite Hp. cbn [mbind option_bind]. bind_some pst E. apply exec_keeps_sessions in E; [|done].
    destruct (finalize_read _ _) as [[s r] stats]. intros Hk%deliver_keeps. by eapply keeps_trans.
  - bind_some st Hst. destruct (g_final g) as [[]|]; try done. pose proof (finalizeJSON_keeps st (store (pool gs))) as Hk.
    destruct (finalizeJSON_result _ _) as [s a]. by intros [= <-].
Qed.

(** What it stores is the mapping of an answer that was pending. *)
Lemma map_step i gs gs' : gate_ok pcfg gs → gexec cfg pcfg (GMap i) gs = Some gs' →
  ∃ g st a, reqs gs !! i = Some g ∧ g_st g = Some st ∧ participate st = true ∧ g_pending g = Some a ∧
    (∃ r, r ∈ answers g ∧ answer r = a) ∧ store (pool gs') = putMapping cfg st a (store (pool gs)) ∧
    reqs gs' = <[i := with_pending g None]> (reqs gs).
Proof.
  intros Hg. cbn [gexec]. bind_some g Hi. destruct (go_proc pcfg gs i g Hg Hi) as (p&Hp&Hr).
  bind_some st Hst. bind_some a Ha. intros [= <-]. exists g, st, a.
  assert (g_mode g ≠ RawBody) as Hm by (intros Hm; destruct (ro_raw g p Hr Hm) as (_&?&_); congruence).
  destruct (ro_part g p Hr Hm) as (st'&Hst'&Hpart). rewrite Hst in Hst'. injection Hst' as <-.
  split_and!; try done. exact (ro_pend g p Hr a Ha).
Qed.

Lemma step_sessions e gs gs' c h x : gate_ok pcfg gs → gexec cfg pcfg e gs = Some gs' → colon_free c →
  session_at (store (pool gs')) c h = Some x → mapped gs c h x ∨ session_at (store (pool gs)) c h = Some x.
Proof.
  intros Hg E Hc Hx. assert ((∀ i, e ≠ GMap i) ∨ ∃ i, e = GMap i) as [Hne|[i ->]] by (destruct e; eauto; by left).
  - right. by apply (step_keeps e gs gs' Hg E Hne).
  - destruct (map_step i gs gs' Hg E) as (g&st&a&Hi&Hst&Hpart&_&(r&Hin&<-)&Es&_). rewrite Es in Hx.
    apply putMapping_adds in Hx; [|done|by eapply gate_colon]. destruct Hx as [(->&->&->)|Hx]; [left|by right].
    by exists i, g, st, r.
Qed.

(** *** Reachable states *)

Lemma ginit_ok s n rs : NoDup (map in_rid rs) → (∀ rid, rid ∈ map in_rid rs → ∀ k d, ¬ page_at s rid k d) →
  gate_ok pcfg (ginit pcfg s n rs).
Proof.
  intros Hnd Hpages. assert ((map (λ r, (in_rid r, true)) rs).*1 = map in_rid rs) as Erid.
  { clear. induction rs as [|r rs IH]; cbn; [done|]. by rewrite <-IH. }
  split; cbn.
  - apply init_safe; by rewrite Erid.
  - by rewrite !length_map.
  - intros i g p. rewrite map_map. change (map ?f ?l) with (f <$> l). rewrite !list_lookup_fmap.
    destruct (rs !! i) as [r|]; [|done]. intros [= <-] [= <-]. split; cbn; try done.
Qed.

(** From a store without sessions, every session of a reachable state is mapped. *)
Lemma reachable_ok_mapped s0 n rs gs : NoDup (map in_rid rs) → (∀ rid, rid ∈ map in_rid rs → ∀ k d, ¬ page_at s0 rid k d) →
  (∀ c h, session_at s0 c h = None) → greachable cfg pcfg s0 n rs gs →
  gate_ok pcfg gs ∧ ∀ c h x, colon_free c → session_at (store (pool gs)) c h = Some x → mapped gs c h x.
Proof.
  intros Hnd Hpages Hs0. apply (greachable_ind cfg pcfg s0 n rs (λ gs, gate_ok pcfg gs ∧
    ∀ c h x, colon_free c → session_at (store (pool gs)) c h = Some x → mapped gs c h x)).
  - split; [by apply ginit_ok|]. intros c h x _. cbn. by rewrite Hs0.
  - intros e gs1 gs2 [Hg Hm] E. split; [by eapply gate_step|]. intros c h x Hc Hx.
    eapply step_mapped; [done..|]. destruct (step_sessions e gs1 gs2 c h x Hg E Hc Hx); auto.
Qed.
End provenance.

(** ** Properties *)

Section redis.
Context {W : Type} `{redis W, !redis_laws W}.

(** A run from a Redis without sessions and without pages of its requests, whose
    identifiers are distinct. *)
Definition fresh_run (s0 : RedisStore W) (rs : list incoming) : Prop :=
  NoDup (map in_rid rs) ∧ (∀ rid, rid ∈ map in_rid rs → hash_at (rdb s0) (TempKey rid) = ∅) ∧
  ∀ k, str_at (rdb s0) k = None.

Lemma fresh_reachable `{!redis_persistent W} cfg pcfg (s0 : RedisStore W) n rs gs :
  0 < TTL pcfg → Config.MaxRequestBody (Config.limits cfg) < 2 ^ 63 → fresh_run s0 rs → greachable cfg pcfg s0 n rs gs →
  gate_ok pcfg gs ∧ ∀ c h x, colon_free c → session_at (store (pool gs)) c h = Some x → mapped gs c h x.
Proof.
  intros Ht Hl (Hnd&Hp&Hs). apply reachable_ok_mapped; try done.
  - intros rid Hr k d (f&_&Hf). by rewrite Hp, lookup_empty in Hf.
  - intros c h. apply Hs.
Qed.
End redis.

(** The pool's part of a run. *)
Lemma greachable_steps {W} `{redis_laws W, !redis_persistent W} cfg pcfg (s0 : RedisStore W) n rs gs :
  0 < TTL pcfg → Config.MaxRequestBody (Config.limits cfg) < 2 ^ 63 → fresh_run s0 rs → greachable cfg pcfg s0 n rs gs →
  pool_steps pcfg (pool (ginit pcfg s0 n rs)) (pool gs).
Proof.
  intros Ht Hl (Hnd&Hp&_) Hreach. assert (gate_ok pcfg (ginit pcfg s0 n rs)) as Hg0.
  { apply ginit_ok; [done|]. intros rid Hr k d (f&_&Hff). by rewrite Hp, lookup_empty in Hff. }
  apply (greachable_ind cfg pcfg s0 n rs (λ gs, gate_ok pcfg gs ∧ pool_steps pcfg (pool (ginit pcfg s0 n rs)) (pool gs)));
    [|clear Hreach|done].
  - split; [done|apply pool_steps_refl].
  - intros e gs1 gs2 [Hg Hs] E. split; [by eapply gate_step|]. eapply pool_steps_trans; [done|].
    eapply gexec_pool; [by eapply gate_colon|done].
Qed.

(** The messages of a request, in canonical form. *)
Definition conversation (r : Request_) : list bytes := default [] (chat_messages (Body r)).

(** [C6] Sessions never leak between clients or conversations.  In every
    interleaving of any number of requests, page workers and finalizers, over a
    Redis whose operations may fail but which does not expire entries during
    the run: if a new request without a session of its own resolves to a stored
    session, then some earlier request of the run has that session, sent the same
    credential and carried exactly the earlier messages, and a finalizer obtained
    exactly the last of them as its answer - or the two credentials, or the two
    message arrays, are an explicit SHA-256 collision. *)
Theorem resolved_session_origin {W} `{redis_laws W, !redis_persistent W} cfg pcfg (s0 : RedisStore W) n rs gs uuid r cms :
  0 < TTL pcfg → Config.MaxRequestBody (Config.limits cfg) < 2 ^ 63 → fresh_run s0 rs → greachable cfg pcfg s0 n rs gs →
  chat_messages (Body r) = Some cms →
  let d := (Resolve uuid (clientIdentity (Header_ r)) cms [] (store (pool gs))).2 in
  source d = SourceResolved →
  ∃ i g st a, reqs gs !! i = Some g ∧ g_st g = Some st ∧ sessionID st = SessionID d ∧ a ∈ answers g ∧ answer_ok a ∧
    let r0 := in_req (g_in g) in
    (credential (Header_ r) = credential (Header_ r0) ∨ collides (credential (Header_ r)) (credential (Header_ r0))) ∧
    (but_last cms = conversation r0 ++ [answer a] ∨
     collides (MessageArray (but_last cms)) (MessageArray (conversation r0 ++ [answer a]))).
Proof.
  intros Ht Hl Hf Hreach Hcms d Hd. destruct (fresh_reachable cfg pcfg s0 n rs gs Ht Hl Hf Hreach) as [Hg Hm].
  unfold d in *. rewrite Resolve_resolution in *. unfold resolution in *. rewrite decide_False in * by (by intros []).
  destruct (GetSession (clientIdentity (Header_ r)) (HistoryHash (but_last cms)) (store (pool gs))) as [s' [[id|]|e]] eqn:E; try done.
  cbn [snd] in *. destruct (1 <? length cms)%nat; [|done].
  apply GetSession_found, Hm in E as (i&g&st&a&Hi&Hst&Hpart&Ha&Hc&Hh&Hx); [|apply clientIdentity_colon].
  destruct (go_proc pcfg gs i g Hg Hi) as (p&_&Hr). pose proof (ro_st g p Hr st Hst) as Hs. unfold state_of in Hs.
  rewrite Hpart in Hs. destruct Hs as [Hid Hmsgs]. pose proof (ro_ans g p Hr) as Hans.
  assert (answer_ok a) as Hok by (rewrite Forall_forall in Hans; by apply Hans).
  exists i, g, st, a. split_and!; try done.
  - apply HashBytes_inj. rewrite Hid in Hc. exact Hc.
  - unfold conversation. rewrite Hmsgs. cbn [default]. apply HistoryHash_inj; [| |by rewrite Hh].
    + apply Forall_take. by eapply chat_messages_texts.
    + apply Forall_app. split; [by eapply chat_messages_texts|]. apply Forall_singleton. apply Hok.
Qed.

(** One streamed request over the whole gateway: the first piece of the answer
    fills a page, which a worker stores; the sentinel is in the second. *)
Definition run_request : incoming := {| in_rid := str "r"; in_uuid := str "S1"; in_req := sample_request |}.
Definition run_events : list gevent :=
  [GArrive 0; GResponse 0 200 (str "text/event-stream; charset=utf-8"); GRead 0 piece1; GRead 0 piece2;
   GCheck 0; GTake; GPut 0; GSettle 0; GAssemble 0; GMap 0; GEof 0; GClose 0].
Definition run_start : gstate (RedisStore MemRedis) := ginit sample_cfg mem_store 1 [run_request].
Definition run_end : gstate (RedisStore MemRedis) := default run_start (gexecs sample_gateway sample_cfg run_events run_start).

Lemma run_reachable : greachable sample_gateway sample_cfg mem_store 1 [run_request] run_end.
Proof. exists run_events. apply succeeds_default. vm_compute. reflexivity. Qed.

Lemma run_fresh : fresh_run mem_store [run_request].
Proof. split_and!; [apply NoDup_singleton|done|done]. Qed.

(** The follow-up with the answer as the client saw it. *)
Definition next_request : Request_ := chat_request ∅ (js "{'messages':[{'role':'user','content':'hi'},{'role':'assistant','content':'The quick brown fox jumps over the lazy dog. Pack my box with five dozen jugs. End.'},{'role':'user','content':'more'}]}").
Definition next_messages : list bytes := conversation next_request.

Lemma resolved_session_origin_witness :
  SessionID (Resolve (str "S2") (clientIdentity ∅) next_messages [] (store (pool run_end))).2 = str "S1" ∧
  ∃ i g st a, reqs run_end !! i = Some g ∧ g_st g = Some st ∧
    sessionID st = SessionID (Resolve (str "S2") (clientIdentity ∅) next_messages [] (store (pool run_end))).2 ∧
    a ∈ answers g ∧ answer_ok a ∧
    let r0 := in_req (g_in g) in
    (credential ∅ = credential (Header_ r0) ∨ collides (credential ∅) (credential (Header_ r0))) ∧
    (but_last next_messages = conversation r0 ++ [answer a] ∨
     collides (MessageArray (but_last next_messages)) (MessageArray (conversation r0 ++ [answer a]))).
Proof.
  split; [vm_compute; reflexivity|].
  apply (resolved_session_origin sample_gateway sample_cfg mem_store 1 [run_request] run_end (str "S2") next_request next_messages).
  - reflexivity.
  - reflexivity.
  - apply run_fresh.
  - apply run_reachable.
  - vm_compute. reflexivity.
  - vm_compute. reflexivity.
Defined.

(** [C10] A request obtains at most one answer, so at most one mapping is written
    for it, however often its stream is finalized (at the sentinel, at the end of
    the body, at its close); the answer is a canonical message, and unless a page
    failed or an earlier finalization did, it is the message of exactly the bytes
    received.  A request that does not take part, or whose response is an error
    or neither a stream nor JSON, obtains none. *)
Theorem answers_exact_once {W} `{redis_laws W, !redis_persistent W} cfg pcfg (s0 : RedisStore W) n rs gs i g :
  0 < TTL pcfg → Config.MaxRequestBody (Config.limits cfg) < 2 ^ 63 → fresh_run s0 rs → greachable cfg pcfg s0 n rs gs →
  reqs gs !! i = Some g →
  (length (answers g) <= 1)%nat ∧ (g_mode g = RawBody → answers g = []) ∧
  ∀ a, a ∈ answers g → canonical_text (answer a) ∧
    (lossy a = false → if from_stream a then message_of (seen a) = Ok (answer a) else json_message (seen a) = Some (answer a)).
Proof.
  intros Ht Hl Hf Hreach Hi. destruct (fresh_reachable cfg pcfg s0 n rs gs Ht Hl Hf Hreach) as [Hg _].
  destruct (go_proc pcfg gs i g Hg Hi) as (p&_&Hr). split_and!.
  - by apply (answers_le1 g p).
  - intros Em. by destruct (ro_raw g p Hr Em).
  - pose proof (ro_ans g p Hr) as Hans. rewrite Forall_forall in Hans. exact Hans.
Qed.

Definition run_greq : greq := default (new_greq run_request) (reqs run_end !! 0%nat).

Lemma answers_exact_once_witness : (length (answers run_greq) <= 1)%nat ∧ map lossy (answers run_greq) = [false].
Proof.
  split; [|vm_compute; reflexivity].
  refine (proj1 (answers_exact_once sample_gateway sample_cfg mem_store 1 [run_request] run_end 0 run_greq _ _ run_fresh run_reachable _));
    [vm_compute; reflexivity..|]. apply succeeds_default. vm_compute. reflexivity.
Defined.

(** [C20] The page pool inside the running gateway behaves as the page pool alone:
    whatever the handler, the finalizers and the workers do, the pool's state is
    one the pool reaches by its own steps and operations on sessions, from the
    same store with the same requests; so every theorem on reachable states of
    the pool holds in the gateway. *)
Theorem gateway_refines_pool {W} `{redis_laws W, !redis_persistent W} cfg pcfg (s0 : RedisStore W) n rs gs :
  0 < TTL pcfg → Config.MaxRequestBody (Config.limits cfg) < 2 ^ 63 → fresh_run s0 rs → greachable cfg pcfg s0 n rs gs →
  reachable pcfg s0 n (map (λ r, (in_rid r, true)) rs) (pool gs).
Proof.
  intros Ht Hl Hf Hreach. pose proof Hf as (Hnd&Hp&_). split; [by rewrite map_rids|]. split; [by rewrite map_rids|].
  by eapply greachable_steps.
Qed.

Lemma gateway_refines_pool_witness : reachable sample_cfg mem_store 1 [(str "r", true)] (pool run_end).
Proof.
  refine (gateway_refines_pool sample_gateway sample_cfg mem_store 1 [run_request] run_end _ _ run_fresh run_reachable);
    vm_compute; reflexivity.
Defined.
