(* ===== verification/EndToEnd.v ===== *)
(** * The promise of the gateway: a conversation keeps its session

    What the parts add up to.  A client sends a chat request, reads the answer as
    it streams by, and sends the next request with the messages so far, the answer
    and something new - re-serialized, in any JSON form of the same content.  If
    the mapping of the answer was stored and is still there, the second request
    is forwarded with the session of the first. *)
From S2P Require Import Prelude Utf8 GoBytes Json JsonRender Canon Request Assistant AssistantStream.
From S2P Require Import Metrics Store Session Collector DoneWatch Pool Proxy Gateway GatewaySafety Provenance.
From S2P Require Config.

(** ** The client's side *)

(** [r2] is the next turn after [r1] for a client that read [text]: the same
    credential, no session of its own; the earlier messages up to serialization,
    any JSON form of the answer, and one more message. *)
Record next_turn (cfg : Config.Config) (r1 r2 : Request_) (text : bytes) : Prop := {
  nt_chat : is_chat r2 = true;
  nt_body : Z.of_nat (length (Body r2)) <= Config.MaxRequestBody (Config.limits cfg) ∧ Body_fails r2 = false;
  nt_client : credential (Header_ r2) = credential (Header_ r1);
  nt_session : Get (Header_ r2) h_Session = [];
  nt_messages : ∃ raws echo v last, ParseChatRequest (Body r2) = Some (raws ++ [echo; last]) ∧
    canon_messages raws = chat_messages (Body r1) ∧ Decode echo = Some v ∧ any_eqv v (text_message text);
}.

Lemma canon_messages_app ms ms' cs : canon_messages (ms ++ ms') = Some cs →
  ∃ cs1 cs2, canon_messages ms = Some cs1 ∧ canon_messages ms' = Some cs2 ∧ cs = cs1 ++ cs2.
Proof.
  rewrite canon_messages_spec. intros (cs1&cs2&Hc1&Hc2&->)%Forall2_app_inv_l. exists cs1, cs2. by rewrite !canon_messages_spec.
Qed.

(** The gateway sees the earlier conversation, the answer as it rebuilds it, and
    the new message. *)
Lemma next_turn_messages cfg r1 r2 text ms : next_turn cfg r1 r2 text → chat_messages (Body r1) = Some ms →
  ∃ u, chat_messages (Body r2) = Some ((ms ++ [render WriteString (text_message text)]) ++ [u]).
Proof.
  intros [_ _ _ _ (raws&echo&v&last&Hparse&Hraws&Hv&Heq)] Hms. rewrite Hms in Hraws.
  destruct (canon_messages_parsed _ _ Hparse) as [cs Hcs].
  destruct (canon_messages_app _ _ _ Hcs) as (cs1&cs2&E1&E2&->). rewrite Hraws in E1. injection E1 as <-.
  cbn [canon_messages] in E2. rewrite (echo_canonical echo v text Hv Heq) in E2.
  destruct (Canonicalize last) as [u|]; [|done]. exists u. cbn [mbind option_bind] in E2.
  apply (inj Some) in E2 as <-.
  unfold chat_messages. rewrite Hparse. destruct (raws ++ [echo; last]) eqn:E; [by destruct raws|].
  by rewrite Hcs, <-app_assoc.
Qed.

(** What has been collected when the sentinel's line ends, or later, is the text. *)
Lemma collected_text ss k : Forall valid_utf8 ss → ss ≠ [] → (length (before_done (map text_piece ss)) < k)%nat →
  message_of (take k (full_stream (map text_piece ss))) = Ok (render WriteString (text_message (concat ss))).
Proof.
  intros Hss Hne Hk. unfold message_of. rewrite collected_message by (done || by apply text_specs_ok).
  by rewrite text_canonical.
Qed.

(** ** Properties *)

(** [C4] A conversation keeps its session.  In any run of the gateway: when a
    finalizer has rebuilt the answer [a] of request [i] from a stream of text
    pieces, seen up to its sentinel line or further, and its mapping is written with success, then at any
    later time, whatever ran in between, if that mapping is still in the store, a
    new request that is the next turn of the conversation is forwarded with the
    session of request [i], provided the store answers the look-up. *)
Theorem conversation_continues {W} `{redis_laws W, !redis_persistent W} cfg pcfg (s0 : RedisStore W) n rs
    gs gs1 gs2 es i g st a r ss k j g2 x :
  0 < TTL pcfg → 0 < Config.MaxRequestBody (Config.limits cfg) < 2 ^ 63 - 1 → 0 < Config.Session_TTL (Config.session_ cfg) →
  fresh_run s0 rs → greachable cfg pcfg s0 n rs gs →
  reqs gs !! i = Some g → g_st g = Some st → g_pending g = Some a → answers g = [r] →
  from_stream r = true → lossy r = false → Forall valid_utf8 ss → ss ≠ [] →
  seen r = take k (full_stream (map text_piece ss)) → (length (before_done (map text_piece ss)) < k)%nat →
  (PutSession (clientHash st) (HashBytes (FullState (canonMsgs st) a)) (sessionID st)
     (Config.Session_TTL (Config.session_ cfg)) (store (pool gs))).2 = Ok tt →
  gexec cfg pcfg (GMap i) gs = Some gs1 → gexecs cfg pcfg es gs1 = Some gs2 →
  let key := HistoryHash (canonMsgs st ++ [a]) in
  session_at (store (pool gs2)) (clientHash st) key = session_at (store (pool gs1)) (clientHash st) key →
  reqs gs2 !! j = Some g2 → g_arrived g2 = false → next_turn cfg (in_req (g_in g)) (in_req (g_in g2)) (concat ss) →
  (GetSession (clientHash st) key (record (Inc (Requests (str "chat"))) (store (pool gs2)))).2 = Ok x →
  ∃ gs3 g3 st3, gexec cfg pcfg (GArrive j) gs2 = Some gs3 ∧ reqs gs3 !! j = Some g3 ∧ g_reply g3 = None ∧
    g_st g3 = Some st3 ∧ source_ st3 = Some SourceResolved ∧ sessionID st3 = sessionID st.
Proof.
  intros Httl Hmax Hsttl Hf Hreach Hi Hst Hpend Hans Hfrom Hloss Hss Hne Hseen Hk Hput Emap Ees key Hkept Hj Harr Hnext Hget.
  destruct (fresh_reachable cfg pcfg s0 n rs gs Httl ltac:(lia) Hf Hreach) as [Hg _].
  destruct (go_proc pcfg gs i g Hg Hi) as (p&_&Hr).
  (* the answer is the text of the pieces *)
  assert (a = render WriteString (text_message (concat ss))) as Ea.
  { destruct (ro_pend g p Hr a Hpend) as (r'&Hin&<-). rewrite Hans in Hin. apply list_elem_of_singleton in Hin as ->.
    pose proof (ro_ans g p Hr) as Hok. rewrite Hans in Hok. apply Forall_singleton in Hok as [_ Hok].
    specialize (Hok Hloss). rewrite Hfrom, Hseen, collected_text in Hok by done. by apply (inj Ok) in Hok as <-. }
  (* the request's state is that of its messages *)
  assert (g_mode g ≠ RawBody) as Hraw by (intros Hm; destruct (ro_raw g p Hr Hm) as (_&?&_); congruence).
  destruct (ro_part g p Hr Hraw) as (st'&Hst'&Hpart). rewrite Hst in Hst'. injection Hst' as <-.
  pose proof (ro_st g p Hr st Hst) as Hs. unfold state_of in Hs. rewrite Hpart in Hs. destruct Hs as [Hid Hmsgs].
  destruct (next_turn_messages cfg _ _ _ _ Hnext Hmsgs) as [u Hu]. rewrite <-Ea in Hu.
  destruct Hnext as [Hchat [Hlen Hbf] Hcred Hcs _].
  assert (clientIdentity (Header_ (in_req (g_in g2))) = clientHash st) as Hcl by (rewrite Hid; unfold clientIdentity; by rewrite Hcred).
  (* the mapping *)
  assert (session_at (store (pool gs1)) (clientHash st) key = Some (sessionID st)) as Hat.
  { cbn [gexec] in Emap. rewrite Hi in Emap. cbn [mbind option_bind] in Emap. rewrite Hst in Emap. cbn [mbind option_bind] in Emap.
    rewrite Hpend in Emap. cbn [mbind option_bind] in Emap. injection Emap as <-. by apply putMapping_stored. }
  destruct (ServeHTTP_resolves cfg (in_rid (g_in g2)) (in_uuid (g_in g2)) (in_req (g_in g2)) (store (pool gs2))
    (canonMsgs st ++ [a]) u (sessionID st) x Hmax Hchat Hlen Hbf Hcs) as (s'&r'&st3&Eserve&Hsrc&Hsid&_);
    [by destruct (canonMsgs st)|done|rewrite Hcl; by etrans|by rewrite Hcl|].
  eexists _, _, st3. split; [cbn [gexec]; rewrite Hj; cbn [mbind option_bind]; rewrite Harr, Eserve; reflexivity|].
  split; [cbn; apply list_lookup_insert_eq; by eapply lookup_lt_Some|]. done.
Qed.

(** Two turns; the client writes the second with other white space, member order
    and escapes. *)
Definition second_turn : incoming := {| in_rid := str "r2"; in_uuid := str "S2"; in_req :=
  chat_request {[str "User-Agent" := [str "x"]]}
    (js "{'messages':[ {'content':'h\u0069', 'role':'user'}, {'role' : 'assistant', 'content':'The quick brown fox jumps over the lazy dog. Pack my box with five dozen jugs. End.'}, {'role':'user','content':'more'}], 'stream':true}") |}.
Definition two_pieces : list bytes :=
  [str "The quick brown fox jumps over the lazy dog. Pack my box with five dozen jugs. "; str "End."].

Definition turns_start : gstate (RedisStore MemRedis) := ginit sample_cfg mem_store 1 [run_request; second_turn].
Definition turns_run (es : list gevent) : gstate (RedisStore MemRedis) :=
  default turns_start (gexecs sample_gateway sample_cfg es turns_start).
Definition turns_answered : gstate (RedisStore MemRedis) := turns_run (take 9 run_events).
Definition turns_mapped : gstate (RedisStore MemRedis) :=
  default turns_start (gexec sample_gateway sample_cfg (GMap 0) turns_answered).
Definition turns_closed : gstate (RedisStore MemRedis) :=
  default turns_start (gexecs sample_gateway sample_cfg [GEof 0; GClose 0] turns_mapped).
Definition first_greq : greq := default (new_greq run_request) (reqs turns_answered !! 0%nat).
Definition first_state : reqState := default (new_reqState []) (g_st first_greq).
Definition first_record : answer_record :=
  default {| from_stream := false; seen := []; lossy := true; answer := [] |} (answers first_greq !! 0%nat).

Lemma turns_fresh : fresh_run mem_store [run_request; second_turn].
Proof. split_and!; [apply (bool_decide_unpack _); vm_compute; exact I|done|done]. Qed.

Lemma second_turn_next : next_turn sample_gateway (in_req (g_in first_greq)) (in_req second_turn) (concat two_pieces).
Proof.
  split; [vm_compute; reflexivity|split; [vm_compute; discriminate|vm_compute; reflexivity]|vm_compute; reflexivity..|].
  exists [js "{'content':'h\u0069', 'role':'user'}"],
    (js "{'role' : 'assistant', 'content':'The quick brown fox jumps over the lazy dog. Pack my box with five dozen jugs. End.'}").
  eexists _, (js "{'role':'user','content':'more'}"). split_and!.
  - vm_compute. reflexivity.
  - vm_compute. reflexivity.
  - vm_compute. reflexivity.
  - vm_compute. apply any_eqv_refl.
Qed.

Lemma conversation_continues_witness :
  ∃ gs3 g3 st3, gexec sample_gateway sample_cfg (GArrive 1) turns_closed = Some gs3 ∧ reqs gs3 !! 1%nat = Some g3 ∧
    g_reply g3 = None ∧ g_st g3 = Some st3 ∧ source_ st3 = Some SourceResolved ∧ sessionID st3 = sessionID first_state.
Proof.
  refine (conversation_continues sample_gateway sample_cfg mem_store 1 [run_request; second_turn]
    turns_answered turns_mapped turns_closed [GEof 0; GClose 0] 0 first_greq first_state (answer first_record) first_record
    two_pieces (length (seen first_record)) 1 (new_greq second_turn) (Some (str "S1"))
    _ _ _ turns_fresh _ _ _ _ _ _ _ _ _ _ _ _ _ _ _ _ _ second_turn_next _).
  - vm_compute. reflexivity.
  - split; vm_compute; reflexivity.
  - vm_compute. reflexivity.
  - exists (take 9 run_events). apply succeeds_default. vm_compute. reflexivity.
  - apply succeeds_default. vm_compute. reflexivity.
  - apply succeeds_default. vm_compute. reflexivity.
  - vm_compute. reflexivity.
  - vm_compute. reflexivity.
  - vm_compute. reflexivity.
  - vm_compute. reflexivity.
  - apply (bool_decide_unpack _). vm_compute. exact I.
  - discriminate.
  - vm_compute. reflexivity.
  - apply Nat.ltb_lt. vm_compute. reflexivity.
  - vm_compute. reflexivity.
  - apply succeeds_default. vm_compute. reflexivity.
  - apply succeeds_default. vm_compute. reflexivity.
  - vm_compute. reflexivity.
  - vm_compute. reflexivity.
  - vm_compute. reflexivity.
  - vm_compute. reflexivity.
Defined.
