(* ===== verification/Affinity.v ===== *)
(** * The mapping is written before the client sees the end of the answer

    [Write] runs the early finalizer inside the read that delivers the sentinel, so
    the client cannot send its next request before the mapping is stored.  Over a
    store that can be relied on ([ReliableStore]), and for an answer that fits the
    RAM tail, this holds in every interleaving of the gateway: [quick] is the
    invariant of a collector, [delivered] relates the bytes a request's reads have
    brought to what its collector has taken, [answered] its answers to its
    mappings.  The theorem says that the next turn then finds its session. *)
From S2P Require Import Prelude Utf8 GoBytes NetUrl UrlFacts Json JsonRender Sha256 Canon Sse Request Assistant AssistantStream.
From S2P Require Import Metrics Store Session Collector DoneWatch Pool Proxy Outbound Gateway GatewaySafety Provenance EndToEnd.
From S2P Require Config.

(** ** Short lines *)

Lemma split_from_length cur s : let '(ls, p) := split_from cur s in
  Forall (λ l, (length l <= length cur + length s)%nat) (ls ++ [p]).
Proof.
  revert cur. induction s as [|c s IH]; intros cur; cbn [split_from]; [by constructor; [lia|]|].
  destruct (c =? 10).
  - specialize (IH []). destruct (split_from [] s) as [ls p]. cbn [app]. constructor; [cbn; lia|].
    eapply Forall_impl; [exact IH|]. cbn. lia.
  - specialize (IH (cur ++ [c])). destruct (split_from _ s) as [ls p]. eapply Forall_impl; [exact IH|].
    rewrite length_app. cbn. lia.
Qed.

Lemma short_lines_small s : Z.of_nat (length s) <= scan_cap → short_lines s.
Proof.
  intros Hs. unfold short_lines, complete_lines, partial_line. pose proof (split_from_length [] s) as Hl.
  destruct (split_from [] s) as [ls p]. eapply Forall_impl; [exact Hl|]. cbn [length]. lia.
Qed.

(** ** Collectors *)

(** So much stays in the RAM tail, and the watcher does not give up on a line. *)
Definition fits (pcfg : Collector.Config) (b : bytes) : Prop :=
  Z.of_nat (length b) < PageSize pcfg ∧ Z.of_nat (length b) <= scan_cap.
Lemma fits_app pcfg a b : fits pcfg (a ++ b) → fits pcfg a.
Proof. unfold fits. rewrite length_app. lia. Qed.

Section quick.
Context {S : Type} `{StoreSpec S, !PersistentPages S, !ReliableStore S}.
Context (pcfg : Collector.Config) (Httl : 0 < TTL pcfg).
Implicit Types (p : proc) (st : @state S).

(** A collector whose bytes all fit the tail: before the sentinel it copies;
    after it, it is sealed and its first finalization gave the message. *)
Record quick p : Prop := {
  qk_seq : c_seq (coll p) = 0;
  qk_failed : failed (coll p) = false;
  qk_sealed : sealed (coll p) = has_done (written p);
  qk_phase : match results p with
    | [] => match ph p with
            | Copying => sealed (coll p) = false ∧ sawDone (coll p) = false ∧ scanBuf (coll p) = partial_line (written p)
            | AtDone _ => sealed (coll p) = true
            | AtClose _ => sealed (coll p) = false
            | Finished => False
            end
    | r :: _ => r = message_of (written p) ∧ (ph p = Copying → sealed (coll p) = true)
    end;
}.

Definition quick_ok st : Prop := ∀ i p, procs st !! i = Some p →
  pageSize (coll p) = PageSize pcfg ∧ onDone (coll p) = true ∧ (fits pcfg (written p) → quick p).

Lemma quick_update st st' i p' : quick_ok st → procs st = procs st' →
  (pageSize (coll p') = PageSize pcfg ∧ onDone (coll p') = true ∧ (fits pcfg (written p') → quick p')) →
  quick_ok (set_proc st' i p').
Proof.
  intros Hq Ep Hp' j p. cbn. rewrite <-Ep. intros [[_ [<- _]]|[_ Hj]]%list_lookup_insert_Some; [done|]. by eapply Hq.
Qed.

Lemma write_begin_onDone q i c b q' c' called : write_begin pcfg q i c b = Some (q', c', called) → onDone c' = onDone c.
Proof.
  unfold write_begin. destruct (_ || _); [done|]. destruct (pageSize _ <=? _).
  - destruct (submit _ _ _ _ _) as [q1 c1] eqn:Es. pose proof (watchDone_frame (set_tail c1 []) b) as Hf.
    destruct (watchDone _ b) as [c2 h]. intros [= <- <- <-]. destruct Hf as (_&_&_&_&_&_&->&_).
    revert Es. unfold submit. by destruct (_ <? _); intros [= <- <-].
  - pose proof (watchDone_frame (set_tail c (tail c ++ b)) b) as Hf. destruct (watchDone _ b) as [c2 h].
    intros [= <- <- <-]. by destruct Hf as (_&_&_&_&_&_&->&_).
Qed.

(** One write. *)
Lemma quick_write st i p b q c called : pool_safe pcfg st → procs st !! i = Some p → ph p = Copying →
  pageSize (coll p) = PageSize pcfg → onDone (coll p) = true →
  write_begin pcfg (queue st) i (coll p) b = Some (q, c, called) → quick p →
  fits pcfg (written p ++ b) → quick (after_write p b c called).
Proof.
  intros Hst Hp Hph Hps Hod Hw [Hseq Hfail Hsd Hphase] Hlen.
  assert (results p = []) as Hr.
  { apply write_begin_cases in Hw as (Hsl&_). destruct (results p) as [|r l]; [done|]. destruct Hphase as [_ Hs]. by rewrite Hs in Hsl. }
  rewrite Hr, Hph in Hphase. destruct Hphase as (Hsl&Hsaw&Hbuf). pose proof Hsl as Hnd. rewrite Hsd in Hnd.
  destruct (ok_procs pcfg st (safe_ok pcfg st Hst) i p Hp) as [[Hpseq _] _ _ _ Htail _ _ _].
  assert (tail (coll p) = written p) as Ht.
  { rewrite <-Htail by (unfold intact; by rewrite Hph). rewrite Hseq in Hpseq. assert (pages p = []) as -> by (apply nil_length_inv; lia). done. }
  revert Hw. unfold write_begin. rewrite Hsl, Hfail. cbn [orb]. cbn [tail pageSize set_tail].
  rewrite Ht, Hps. unfold fits in Hlen. bfalse (PageSize pcfg <=? Z.of_nat (length (written p ++ b))).
  set (c1 := set_tail (coll p) (written p ++ b)). pose proof (watchDone_frame c1 b) as Hfr.
  assert (short_lines (written p ++ b)) as Hsh by (apply short_lines_small; lia).
  destruct (short_lines_app _ _ Hsh) as [_ Hsh']. rewrite <-Hbuf in Hsh'.
  destruct (watchDone_step c1 b Hod Hsaw Hsh') as (Hhit&Hmiss&Hseal).
  assert (has_done (scanBuf c1 ++ b) = has_done (written p ++ b)) as Hhd.
  { cbn [c1 scanBuf set_tail]. by rewrite Hbuf, (has_done_app (written p)), Hnd. }
  destruct (watchDone c1 b) as [c2 hit]. cbn [fst snd] in *. intros [= <- <- <-].
  destruct Hfr as (_&E2&_&E4&_&_&_&Es&_). rewrite Hhd in Hhit, Hmiss, Hseal.
  assert (coll (after_write p b c2 hit) = c2) as Ec.
  { unfold after_write, write_end. cbn [coll]. destruct hit; [done|]. cbn [c1 sealed set_tail] in Es. by rewrite Es, Hsl. }
  split; rewrite ?Ec.
  - by rewrite E2.
  - by rewrite E4.
  - cbn [written after_write]. rewrite <-Hhit, Es. cbn [c1 sealed set_tail]. by rewrite Hsl.
  - cbn [results after_write ph written]. rewrite Hr. destruct hit; [by apply Hseal|]. rewrite Hmiss by by rewrite <-Hhit.
    cbn [sealed sawDone scanBuf set_scanBuf c1 set_tail]. split_and!; [done|done|].
    rewrite Hbuf. symmetry. apply complete_lines_app.
Qed.

Lemma after_finalize_frame p r del : pageSize (coll (after_finalize p r del)) = pageSize (coll p) ∧
  onDone (coll (after_finalize p r del)) = onDone (coll p).
Proof. unfold after_finalize, write_end. cbn. by destruct (ph p), (sealed (coll p)). Qed.

(** A finalizer's outcome, where the collector was not finalized before. *)
Lemma quick_finalize p r del : quick p → (∀ f, ph p = AtDone f → sealed (coll p) = true) →
  ph p ≠ Copying → (results p = [] → r = message_of (written p)) → quick (after_finalize p r del).
Proof.
  intros [Hseq Hfail Hsd Hphase] Hsl Hph Hr. unfold after_finalize, write_end.
  split; cbn [coll results written ph]; [by destruct (ph p), (sealed (coll p))..|rewrite <-Hsd; by destruct (ph p), (sealed (coll p)) eqn:Es; cbn; rewrite ?Es|].
  assert (∀ x : phase, match ph p with AtDone _ => Copying | _ => Finished end = Copying → ∃ f, ph p = AtDone f) as Hc.
  { intros x. destruct (ph p); try done. eauto. }
  destruct (results p) as [|r0 l]; cbn [app].
  - split; [by apply Hr|]. intros E. destruct (Hc Copying E) as [f Hf]. rewrite Hf, (Hsl f Hf). cbn. by apply (Hsl f).
  - destruct Hphase as [-> _]. split; [done|]. intros E. destruct (Hc Copying E) as [f Hf]. rewrite Hf, (Hsl f Hf). cbn. by apply (Hsl f).
Qed.

Lemma quick_step e st st' : pool_safe pcfg st → reliable (store st) → quick_ok st → exec pcfg e st = Some st' → quick_ok st'.
Proof.
  intros Hst Hrel Hquick E. step_cases E; try exact Hquick.
  - destruct (Hquick a pa Hp) as (Hps&Hod&Hqk). apply (quick_update st); [done..|].
    pose proof (write_begin_cases _ _ _ _ _ _ _ _ Hw) as (Hsl&_&Hsc&_&Hps'&_).
    assert (coll (after_write pa b c called) = c) as Ec.
    { unfold after_write, write_end. cbn [coll]. destruct called; [done|]. by rewrite Hsc. }
    rewrite Ec, Hps'. rewrite (write_begin_onDone _ _ _ _ _ _ _ Hw). split_and!; [done..|].
    cbn [written after_write]. intros Hlen. eapply quick_write; try done. by eapply Hqk, fits_app.
  - destruct (Hquick a pa Hp) as (Hps&Hod&Hqk). apply (quick_update st); [done..|]. cbn [coll set_phase written].
    split_and!; [done..|]. intros Hlen. destruct (Hqk Hlen) as [Hseq Hfail Hsd Hphase]. split; cbn [coll set_phase written results ph]; try done.
    rewrite Hph in Hphase. unfold finalized. destruct (results pa) as [|r l]; cbn [existsb]; [by destruct Hphase|].
    destruct Hphase as [-> _]. split; [done|]. by destruct (_ || _).
  - destruct (Hquick a pa Hp) as (Hps&Hod&Hqk). apply (quick_update st); [done..|].
    destruct (after_finalize_frame pa (Err err) false) as [-> ->]. split_and!; [done..|]. cbn [written after_finalize]. intros Hlen. destruct (Hqk Hlen) as [_ Hfail _ _].
    unfold finalize_check in Hc. by rewrite Hfail in Hc.
  - destruct (Hquick a pa Hp) as (Hps&Hod&Hqk). apply (quick_update st); [done..|]. cbn [coll set_phase written].
    split_and!; [done..|]. intros Hlen. destruct (Hqk Hlen) as [Hseq Hfail Hsd Hphase]. split; cbn [coll set_phase written results ph]; try done.
    destruct (results pa); [|destruct Hphase as [-> _]; split; [done|]]; by destruct Hph as [Hph|Hph]; rewrite Hph in *.
  - destruct (Hquick a pa Hp) as (Hps&Hod&Hqk). apply (quick_update st); [done..|].
    destruct (after_finalize_frame pa r true) as [-> ->]. split_and!; [done..|]. cbn [written after_finalize]. intros Hlen.
    pose proof (ok_procs pcfg st (safe_ok pcfg st Hst) a pa Hp) as Hok.
    apply quick_finalize; [by apply Hqk|intros f Hf; pose proof (po_done _ _ _ _ Hok) as Hd; by rewrite Hf in Hd|by destruct Hph as [-> | ->]|].
    intros Hres. pose proof (λ m, read_exact pcfg st a pa m Hst Hp Hin (qk_failed _ (Hqk Hlen)) Hres) as Hexact.
    pose proof (reliable_GetPages (c_requestID (coll pa)) _ Hrel) as Hgp. revert Hr. unfold finalize_read.
    destruct (GetPages _ (store st)) as [s1 [m|e]]; [|done]. destruct (DeletePages _ s1) as [s2 x]. intros [= <- <- <-].
    by rewrite (Hexact m eq_refl).
  - destruct (Hquick (owner job) pa Hp) as (Hps&Hod&Hqk). apply (quick_update st); [done..|].
    cbn [set_coll coll written]. split_and!; [by destruct err..|]. intros Hlen.
    destruct (job_owner pcfg st job (safe_ok pcfg st Hst) (busy_job st k job (Some err) Hk)) as (p'&Hp'&_&Hs&_).
    rewrite Hp in Hp'. injection Hp' as <-. pose proof (qk_seq _ (Hqk Hlen)). lia.
Qed.


(** What a step of the pool does to the store is a run of store operations. *)
Lemma exec_store e st st' : exec pcfg e st = Some st' → ∃ ops, store st' = run ops (store st).
Proof.
  intros E. step_cases E; cbn [store set_proc set_queue set_busy set_store set_phase]; try (by exists []).
  - revert Hr. unfold finalize_read. destruct (GetPages (c_requestID (coll pa)) (store st)) as [s1 [m|e]] eqn:E1.
    + destruct (DeletePages (c_requestID (coll pa)) s1) as [s2 x] eqn:E2. intros [= <- _ _].
      exists [OpGetPages (c_requestID (coll pa)); OpDeletePages (c_requestID (coll pa))]. cbn. rewrite E1. cbn. by rewrite E2.
    + intros [= <- _ _]. exists [OpGetPages (c_requestID (coll pa))]. cbn. by rewrite E1.
  - revert Hw. unfold worker_put. destruct (PutPage _ _ _ _ (store st)) as [s1 [u|x]] eqn:E1; intros [= <- _].
    + exists [OpPutPage (requestID job) (seq job) (data job) (TTL pcfg); OpRecord (Inc PageFlushSuccess)]. cbn. by rewrite E1.
    + exists [OpPutPage (requestID job) (seq job) (data job) (TTL pcfg); OpRecord (Inc PageFlushError)]. cbn. by rewrite E1.
  - by exists [o].
Qed.

Lemma run_reliable ops s : reliable s →
  reliable (run ops s) ∧ ∀ c h, is_Some (session_at s c h) → is_Some (session_at (run ops s) c h).
Proof.
  revert s. induction ops as [|o ops IH]; intros s Hs; [done|]. change (run (o :: ops) s) with (run ops (run_op o s)).
  destruct (IH (run_op o s) (reliable_op o s Hs)) as [Hr Hk]. split; [done|]. intros c h Hat. by apply Hk, reliable_session.
Qed.

Lemma quick_steps st st' : pool_safe pcfg st → reliable (store st) → quick_ok st → pool_steps pcfg st st' →
  quick_ok st' ∧ reliable (store st') ∧ ∀ c h, is_Some (session_at (store st) c h) → is_Some (session_at (store st') c h).
Proof.
  intros Hst Hrel Hquick [es E]. revert st Hst Hrel Hquick E. induction es as [|e es IH]; intros st Hst Hrel Hquick; cbn; [by intros [= <-]|].
  bind_some st1 E. intros Es. destruct (exec_store e st st1 E) as [ops Eops]. destruct (run_reliable ops _ Hrel) as [Hr1 Hk1].
  rewrite <-Eops in Hr1, Hk1. destruct (IH st1) as (Hq2&Hr2&Hk2); try done; [by eapply (exec_safe pcfg Httl)|by eapply quick_step|].
  split_and!; [done..|]. intros c h Hat. by apply Hk2, Hk1.
Qed.
End quick.

(** ** What a step does to one request *)

(** Nothing more is written. *)
Definition closed (p : proc) : bool := sealed (coll p) || failed (coll p).

Record grows (w : option bytes) (p p' : proc) : Prop := {
  gr_results : results p ⊆ results p';
  gr_closed : closed p = true → closed p' = true;
  gr_written : match w with
    | None => written p' = written p
    | Some b => (written p' = written p ++ b ∧ closed p = false) ∨ (written p' = written p ∧ closed p = true)
    end;
}.

Lemma grows_refl p : grows None p p.
Proof. by split. Qed.

Section steps.
Context {S : Type} `{StoreSpec S, !PersistentPages S}.
Context (cfg : Config.Config) (pcfg : Collector.Config) (Httl : 0 < TTL pcfg).

Lemma after_finalize_grows p r del : grows None p (after_finalize p r del).
Proof.
  split; cbn; [set_solver| |done]. unfold closed. cbn. destruct (ph p); try done. unfold write_end. by destruct (sealed (coll p)) eqn:E; cbn; rewrite ?E.
Qed.

Lemma exec_grows e (st st' : @state S) i p : exec pcfg e st = Some st' → procs st !! i = Some p →
  ∃ p', procs st' !! i = Some p' ∧ grows (match e with EWrite j b => if decide (j = i) then Some b else None | _ => None end) p p'.
Proof.
  intros E Hi.
  assert (∀ a pa pa' w, procs st !! a = Some pa → grows w pa pa' → ∀ w', (a = i → w' = w) → (a ≠ i → w' = None) →
    ∃ p', <[a := pa']> (procs st) !! i = Some p' ∧ grows w' p p') as Hupd.
  { intros a pa pa' w Ha Hg w' Hw Hw'. destruct (decide (a = i)) as [->|Hne].
    - exists pa'. rewrite Hi in Ha. injection Ha as <-. rewrite list_lookup_insert_eq by (by eapply lookup_lt_Some). by rewrite (Hw eq_refl).
    - exists p. rewrite list_lookup_insert_ne by done. rewrite Hw' by done. split; [done|apply grows_refl]. }
  step_cases E; cbn [procs set_proc set_queue set_busy set_store]; try (exists p; split; [done|apply grows_refl]).
  - exists p. split; [done|]. case_decide as Ha; [|apply grows_refl]. subst a. rewrite Hi in Hp. injection Hp as <-.
    split; [done..|]. right. split; [done|]. revert Hw. unfold write_begin, closed. destruct (_ || _); [done|].
    destruct (pageSize _ <=? _); [destruct (submit _ _ _ _ _)|]; by destruct (watchDone _ b).
  - apply (Hupd a pa _ (Some b)); try done; [|by intros; rewrite decide_True|by intros; rewrite decide_False].
    apply write_begin_cases in Hw as (Hs&Hf&_). split; [done| |left; split; [done|]]; unfold closed; by rewrite Hs, Hf.
  - by apply (Hupd a pa _ None).
  - apply (Hupd a pa _ None); try done. apply after_finalize_grows.
  - by apply (Hupd a pa _ None).
  - apply (Hupd a pa _ None); try done. apply after_finalize_grows.
  - apply (Hupd (owner job) pa _ None); try done. split; try done. unfold closed. cbn. destruct err; [by rewrite orb_true_r|done].
Qed.

(** *** The collectors under a step of the gateway *)

Lemma deliver_procs (gs gs' : gstate S) i g p r stats : deliver gs i g p r stats = Some gs' → procs (pool gs') = procs (pool gs).
Proof. unfold deliver. bind_some st Hst. destruct (on_result _ _ _ _ _ _) as [[s st'] a]. by intros [= <-]. Qed.

(** Either no collector changes, or one step of the pool is taken, a write only
    for a read of a stream. *)
Lemma gexec_procs e (gs gs' : gstate S) : gexec cfg pcfg e gs = Some gs' →
  (procs (pool gs') = procs (pool gs) ∧ ∀ i b g, e = GRead i b → reqs gs !! i = Some g → g_mode g = JsonBody) ∨
  ∃ e' st st', exec pcfg e' st = Some st' ∧ procs st = procs (pool gs) ∧ procs st' = procs (pool gs') ∧
    match e with
    | GRead i b => e' = EWrite i b ∧ ∀ g, reqs gs !! i = Some g → g_mode g = StreamBody
    | _ => ∀ i b, e' ≠ EWrite i b
    end.
Proof.
  assert (∀ e' : event, (pst ← exec pcfg e' (pool gs); Some (set_pool gs pst)) = Some gs' →
    ∃ st', exec pcfg e' (pool gs) = Some st' ∧ procs st' = procs (pool gs')) as Hlift.
  { intros e'. bind_some pst E. intros [= <-]. by exists pst. }
  assert (∀ (b : bool) i g, end_body pcfg b gs i g = Some gs' → procs (pool gs') = procs (pool gs) ∨
    ∃ st st', exec pcfg (EClose i) st = Some st' ∧ procs st = procs (pool gs) ∧ procs st' = procs (pool gs')) as Hend.
  { intros b i g. unfold end_body. bind_some st Hst. destruct ((if b then on_eof else on_close) _ _) as [[s st'] f].
    destruct (g_mode g); try (intros [= <-]; by left). destruct (finished st); [intros [= <-]; by left|].
    bind_some pst E. intros [= <-]. right. eexists _, pst. by split_and!. }
  destruct e as [i|i status ct|i|i b|i|i|i|i|i|i| |k|k| |]; cbn [gexec].
  11-15: (intros (st'&?&?)%Hlift; right; eexists _, _, st'; by split_and!).
  all: bind_some g Hi.
  - destruct (g_arrived g); [done|]. destruct (ServeHTTP _ _ _ _ _) as [s d]. intros [= <-]. by left.
  - destruct (_ && _); [|done]. destruct (modifyResponse _ _ _ _) as [st mode]. intros [= <-]. by left.
  - destruct (_ && _); [|done]. intros [= <-]. by left.
  - destruct (decide _); [|done]. destruct (g_mode g) eqn:Hm; [done| |].
    + intros (st'&?&?)%Hlift. right. eexists _, _, st'. split_and!; try done. intros g' Hg'. congruence.
    + bind_some st Hst. destruct (finished st); [done|]. intros [= <-]. left. split; [done|]. intros j b' g' [= <- <-] Hg'. congruence.
  - destruct (decide _); [|done]. intros [?|(st&st'&?&?&?)]%Hend; [by left|]. right. eexists _, st, st'. by split_and!.
  - destruct (decide _); [|done]. intros [?|(st&st'&?&?&?)]%Hend; [by left|]. right. eexists _, st, st'. by split_and!.
  - bind_some p Hp. bind_some pst E. intros Hd. right. exists (ECheck i), (pool gs), pst. split_and!; try done.
    destruct (finalize_check (coll p)) as [[err stats]|]; [by apply deliver_procs in Hd|by injection Hd as <-].
  - bind_some p Hp. bind_some pst E. destruct (finalize_read _ _) as [[s r] stats]. intros Hd. right.
    exists (ERead i), (pool gs), pst. split_and!; try done. by apply deliver_procs in Hd.
  - bind_some st Hst. destruct (g_final g) as [[]|]; try done. destruct (finalizeJSON_result _ _) as [s a]. intros [= <-]. by left.
  - bind_some st Hst. bind_some a Ha. intros [= <-]. by left.
Qed.

Definition brings (e : gevent) (i : nat) : option bytes :=
  match e with GRead j b => if decide (j = i) then Some b else None | _ => None end.

Lemma gexec_grows e (gs gs' : gstate S) i g p : gexec cfg pcfg e gs = Some gs' → reqs gs !! i = Some g → procs (pool gs) !! i = Some p →
  ∃ p', procs (pool gs') !! i = Some p' ∧ grows (if decide (g_mode g = StreamBody) then brings e i else None) p p'.
Proof.
  intros E Hi Hp. destruct (gexec_procs e gs gs' E) as [[-> Hj]|(e'&st&st'&E'&Est&Est'&Hw)].
  - exists p. split; [done|]. case_decide as Hm; [|apply grows_refl]. destruct e; cbn; try apply grows_refl.
    case_decide as Hij; [|apply grows_refl]. subst. by rewrite (Hj i p0 g eq_refl Hi) in Hm.
  - rewrite <-Est in Hp. destruct (exec_grows e' st st' i p E' Hp) as (p'&Hp'&Hg). exists p'. rewrite <-Est'. split; [done|].
    destruct e; cbn [brings].
    4: { destruct Hw as [-> Hm]. cbn in Hg. case_decide as Hij; [|by case_decide]. subst. by rewrite decide_True by by apply Hm. }
    all: destruct e'; try (by case_decide); by exfalso; eapply Hw.
Qed.

(** *** The answers under a step of the gateway *)

(** No new answer, and only [GMap] takes the pending one away; or a new one,
    pending, which for a stream is a result of its collector. *)
Definition answers_step e i (g g' : greq) (gs' : gstate S) : Prop :=
  (answers g' = answers g ∧ (g_pending g' = g_pending g ∨ (e = GMap i ∧ g_pending g' = None))) ∨
  ∃ r, answers g' = answers g ++ [r] ∧ g_pending g' = Some (answer r) ∧
    (g_mode g' = StreamBody → ∃ p', procs (pool gs') !! i = Some p' ∧ Ok (answer r) ∈ results p').

Definition req_step e i (g g' : greq) (gs' : gstate S) : Prop :=
  g_in g' = g_in g ∧ (g_arrived g' = g_arrived g ∨ e = GArrive i) ∧
  (g_mode g' = g_mode g ∨ g_mode g = RawBody) ∧ answers_step e i g g' gs'.

Lemma req_step_refl e i g gs' : req_step e i g g gs'.
Proof. split_and!; [done|by left|by left|]. left. split; [done|by left]. Qed.

Lemma deliver_step e (gs gs' : gstate S) i g p r stats p' : deliver gs i g p r stats = Some gs' →
  procs (pool gs) !! i = Some p' → r ∈ results p' →
  ∃ g', reqs gs' = <[i := g']> (reqs gs) ∧ req_step e i g g' gs'.
Proof.
  unfold deliver. bind_some st Hst. intros E Hp' Hr. revert E.
  destruct (on_result_key (g_final g) (is_at_done (ph p)) st r stats (store (pool gs))) as [_ Ha].
  destruct (on_result _ _ _ _ _ _) as [[s st'] a]. cbn [snd] in Ha. subst a. intros [= <-]. eexists. split; [done|].
  split_and!; [by destruct r|left; by destruct r|left; by destruct r|]. destruct r as [a|err]; [right|left; split; [done|by left]].
  eexists. split_and!; [done|done|]. intros _. by exists p'.
Qed.

Lemma end_body_step (b : bool) e (gs gs' : gstate S) i g : end_body pcfg b gs i g = Some gs' →
  ∃ g', reqs gs' = <[i := g']> (reqs gs) ∧ req_step e i g g' gs'.
Proof.
  unfold end_body. bind_some st Hst. destruct ((if b then on_eof else on_close) _ _) as [[s st'] f]. intros E.
  exists (with_st g st' (match f with Some f => Some f | None => g_final g end)).
  split; [|split_and!; [done|by left|by left|left; split; [done|by left]]]. revert E.
  destruct (g_mode g); try (by intros [= <-]). destruct (finished st); [by intros [= <-]|]. bind_some pst E. by intros [= <-].
Qed.

Lemma gexec_reqs e (gs gs' : gstate S) : gate_ok pcfg gs → gexec cfg pcfg e gs = Some gs' →
  reqs gs' = reqs gs ∨ ∃ i g g', reqs gs !! i = Some g ∧ reqs gs' = <[i := g']> (reqs gs) ∧ req_step e i g g' gs'.
Proof.
  intros Hg E. pose proof E as E0. revert E.
  destruct e as [i|i status ct|i|i b|i|i|i|i|i|i| |k|k| |]; cbn [gexec].
  11-15: (bind_some pst E; intros [= <-]; by left).
  all: bind_some g Hi; destruct (go_proc pcfg gs i g Hg Hi) as (p&Hp&Hr).
  all: match goal with |- _ → _ ∨ ∃ _ _ _, _ ∧ _ ∧ req_step ?e _ _ _ _ =>
    assert (∀ g', reqs gs' = <[i := g']> (reqs gs) → req_step e i g g' gs' → reqs gs' = reqs gs ∨
      ∃ i g g', reqs gs !! i = Some g ∧ reqs gs' = <[i := g']> (reqs gs) ∧ req_step e i g g' gs') as Hlocal
      by (intros g' ? ?; right; by exists i, g, g') end.
  - destruct (g_arrived g) eqn:Ha; [done|]. destruct (ServeHTTP _ _ _ _ _) as [s d]. intros [= <-].
    destruct (ro_new g p Hr Ha) as [_ Hn]. pose proof (ro_mode g p Hr Hn) as Hm. destruct (ro_raw g p Hr Hm) as (_&Hpn&_).
    eapply Hlocal; [done|]. split_and!; [by destruct d|by right|by right|]. left. rewrite Hpn. destruct d; (split; [done|by left]).
  - destruct (g_arrived g && negb (g_responded g)) eqn:Ha; [|done]. apply andb_prop in Ha as [_ Hn%negb_true_iff].
    destruct (modifyResponse _ _ _ _) as [st' mode]. intros [= <-].
    eapply Hlocal; [done|]. split_and!; [done|by left|right; by apply (ro_mode g p Hr)|]. left. split; [done|by left].
  - destruct (g_arrived g && negb (g_responded g)) eqn:Ha; [|done]. apply andb_prop in Ha as [_ Hn%negb_true_iff]. intros [= <-].
    eapply Hlocal; [done|]. split_and!; [done|by left|right; by apply (ro_mode g p Hr)|]. left. split; [done|by left].
  - destruct (decide _); [|done]. destruct (g_mode g) eqn:Hm; [done|bind_some pst E; intros [= <-]; by left|].
    bind_some st Hst. destruct (finished st); [done|]. intros [= <-]. eapply Hlocal; [done|].
    split_and!; [done|by left|by left|]. left. split; [done|by left].
  - destruct (decide _); [|done]. intros (g'&?&?)%(end_body_step _ (GEof i)). by eapply Hlocal.
  - destruct (decide _); [|done]. intros (g'&?&?)%(end_body_step _ (GClose i)). by eapply Hlocal.
  - rewrite Hp. cbn [mbind option_bind]. bind_some pst E. destruct (exec_check pcfg i _ _ p E Hp) as [_ Hp'].
    destruct (finalize_check (coll p)) as [[err stats]|]; [|intros [= <-]; by left].
    intros Hd. eapply (deliver_step (GCheck i)) in Hd as (g'&?&?); [by eapply Hlocal|exact Hp'|]. cbn. set_solver.
  - rewrite Hp. cbn [mbind option_bind]. bind_some pst E. destruct (exec_read pcfg i _ _ p E Hp) as (_&_&Hp').
    destruct (finalize_read _ _) as [[s r] stats]. cbn [fst snd] in Hp'.
    intros Hd. eapply (deliver_step (GAssemble i)) in Hd as (g'&?&?); [by eapply Hlocal| |].
    + cbn. rewrite Hp'. cbn. apply list_lookup_insert_eq. by eapply lookup_lt_Some.
    + cbn. set_solver.
  - bind_some st Hst. destruct (g_final g) as [[]|] eqn:Hf; try done.
    assert (g_mode g = JsonBody) as Hm.
    { destruct (g_mode g) eqn:Hm; [by destruct (ro_raw g p Hr Hm) as (_&_&?); congruence| |done]. by destruct (ro_kind g p Hr Hm). }
    destruct (finalizeJSON_result _ _) as [s a]. intros [= <-].
    eapply Hlocal; [done|]. destruct a as [a|]; (split_and!; [done|by left|by left|]); [right|left; split; [done|by left]].
    eexists. split_and!; [done|done|]. cbn. by rewrite Hm.
  - bind_some st Hst. bind_some a Ha. intros [= <-]. right. exists i, g, (with_pending g None). split_and!; try done.
    split_and!; [done|by left|by left|]. left. split; [done|by right].
Qed.

Lemma gexec_req e (gs gs' : gstate S) i g' : gate_ok pcfg gs → gexec cfg pcfg e gs = Some gs' → reqs gs' !! i = Some g' →
  ∃ g, reqs gs !! i = Some g ∧ req_step e i g g' gs'.
Proof.
  intros Hg E Hi. destruct (gexec_reqs e gs gs' Hg E) as [Er|(j&g&gj&Hj&Er&Hs)]; rewrite Er in Hi.
  - exists g'. split; [done|apply req_step_refl].
  - apply list_lookup_insert_Some in Hi as [(->&<-&_)|[_ Hi]]; [by exists g|]. exists g'. split; [done|apply req_step_refl].
Qed.
End steps.

(** ** Runs *)

(** The bytes the reads of a request have delivered. *)
Definition reads (i : nat) (es : list gevent) : bytes := concat (omap (λ e, brings e i) es).

Lemma reads_snoc i es e : reads i (es ++ [e]) = reads i es ++ default [] (brings e i).
Proof. unfold reads. rewrite omap_app, concat_app. cbn. destruct (brings e i); cbn; by rewrite ?app_nil_r. Qed.

Lemma brings_read e i b : brings e i = Some b → e = GRead i b.
Proof. destruct e; try done. cbn. case_decide; [|done]. intros [= ->]. congruence. Qed.

Lemma count_ok_elem a l : Ok a ∈ l → (0 < count_ok l)%nat.
Proof.
  unfold count_ok. induction l as [|r l IH]; [by intros ?%elem_of_nil|]. intros [<-|Hin]%elem_of_cons; cbn; [lia|].
  destruct (is_ok r); cbn; [lia|by apply IH].
Qed.

Section runs.
Context {S : Type} `{PersistentSessions S, !PersistentPages S, !ReliableStore S}.
Context (cfg : Config.Config) (pcfg : Collector.Config).
Context (Httl : 0 < TTL pcfg) (Hsttl : 0 < Config.Session_TTL (Config.session_ cfg)).
Context (Hlimit : Config.MaxRequestBody (Config.limits cfg) < 2 ^ 63).
Implicit Types (gs : gstate S).

(** What a request's reads have brought is what its collector took, and nothing
    is left out before the collector is closed. *)
Definition delivered (es : list gevent) gs : Prop := ∀ i g p, reqs gs !! i = Some g → procs (pool gs) !! i = Some p →
  (g_mode g = RawBody → reads i es = [] ∧ written p = []) ∧
  (g_mode g = StreamBody → ∃ rest, reads i es = written p ++ rest ∧ (rest ≠ [] → closed p = true)).

(** Every answer is pending or mapped; a stream's answers are results of its
    collector. *)
Definition stored gs (st : reqState) (a : bytes) : Prop :=
  is_Some (session_at (store (pool gs)) (clientHash st) (HistoryHash (canonMsgs st ++ [a]))).
Definition answered gs : Prop := ∀ i g r, reqs gs !! i = Some g → r ∈ answers g →
  (g_pending g = Some (answer r) ∨ ∃ st, g_st g = Some st ∧ stored gs st (answer r)) ∧
  (g_mode g = StreamBody → ∃ p, procs (pool gs) !! i = Some p ∧ Ok (answer r) ∈ results p).

Lemma read_mode i b gs gs' g : gexec cfg pcfg (GRead i b) gs = Some gs' → reqs gs !! i = Some g → g_mode g ≠ RawBody.
Proof.
  intros E Hi. destruct (gexec_procs cfg pcfg _ gs gs' E) as [[_ Hj]|(e'&st&st'&_&_&_&_&Hm)]; [by rewrite (Hj i b g)|by rewrite (Hm g)].
Qed.

Lemma delivered_step es e gs gs' : gate_ok pcfg gs → delivered es gs → gexec cfg pcfg e gs = Some gs' → delivered (es ++ [e]) gs'.
Proof.
  intros Hg Hd E i g' p' Hi' Hp'. destruct (gexec_req cfg pcfg Httl e gs gs' i g' Hg E Hi') as (g&Hi&_&_&Hmode&_).
  destruct (go_proc pcfg gs i g Hg Hi) as (p&Hp&_). destruct (Hd i g p Hi Hp) as [Hraw Hstream].
  destruct (gexec_grows cfg pcfg Httl e gs gs' i g p E Hi Hp) as (p2&Hp2&[_ Hcl Hw]). rewrite Hp' in Hp2. injection Hp2 as <-.
  assert (g_mode g = RawBody → brings e i = None) as Hnone.
  { intros Hm. destruct (brings e i) as [b|] eqn:Eb; [|done]. apply brings_read in Eb as ->.
    exfalso. exact (read_mode _ _ _ _ _ E Hi Hm). }
  rewrite reads_snoc. split.
  - intros Hm'. assert (g_mode g = RawBody) as Hm by (destruct Hmode; congruence). destruct (Hraw Hm) as [-> Hw0].
    rewrite decide_False in Hw by (by rewrite Hm). rewrite Hnone, Hw, Hw0 by done. done.
  - intros Hm'. destruct Hmode as [Hm|Hm].
    + rewrite Hm' in Hm. destruct (Hstream (eq_sym Hm)) as (rest&->&Hrest). rewrite decide_True in Hw by done.
      destruct (brings e i) as [b|]; cbn [from_option id].
      * destruct Hw as [[-> Hc]|[-> Hc]].
        -- destruct rest as [|x rest]; [exists []; by rewrite !app_nil_r|]. by rewrite Hrest in Hc.
        -- exists (rest ++ b). rewrite app_assoc. split; [done|]. intros _. by apply Hcl.
      * rewrite app_nil_r, Hw. exists rest. split; [done|]. intros Hr. by apply Hcl, Hrest.
    + destruct (Hraw Hm) as [-> Hw0]. rewrite decide_False in Hw by (by rewrite Hm). rewrite Hnone, Hw, Hw0 by done. by exists [].
Qed.

Lemma gexec_evolves e gs gs' i g' : gate_ok pcfg gs → gexec cfg pcfg e gs = Some gs' → reqs gs' !! i = Some g' →
  ∃ g, reqs gs !! i = Some g ∧ evolves g g'.
Proof.
  intros Hg E Hi. destruct (step_evolves cfg pcfg Httl Hlimit e gs gs' Hg E) as [Er|(j&g&gj&Hj&Er&Hev)]; rewrite Er in Hi.
  - exists g'. split; [done|]. by apply evolves_same.
  - apply list_lookup_insert_Some in Hi as [(->&<-&_)|[_ Hi]]; [by exists g|]. exists g'. split; [done|]. by apply evolves_same.
Qed.

(** The mapping of the answer that was pending. *)
Lemma map_stores i gs gs' g a : reliable (store (pool gs)) → reqs gs !! i = Some g → g_pending g = Some a →
  gexec cfg pcfg (GMap i) gs = Some gs' → ∃ st, g_st g = Some st ∧ stored gs' st a.
Proof.
  intros Hrel Hi Ha. cbn [gexec]. rewrite Hi. cbn [mbind option_bind]. bind_some st Hst. rewrite Ha. cbn [mbind option_bind].
  intros [= <-]. exists st. split; [done|]. unfold stored. cbn. rewrite putMapping_stored; [eauto|done|]. by apply reliable_PutSession.
Qed.

Lemma answered_step e gs gs' : gate_ok pcfg gs → gate_ok pcfg gs' → reliable (store (pool gs)) →
  (∀ c h, is_Some (session_at (store (pool gs)) c h) → is_Some (session_at (store (pool gs')) c h)) →
  answered gs → gexec cfg pcfg e gs = Some gs' → answered gs'.
Proof.
  intros Hg Hg' Hrel Hkeep Ha E i g' r Hi' Hr. destruct (gexec_req cfg pcfg Httl e gs gs' i g' Hg E Hi') as (g&Hi&_&_&Hmode&Hstep).
  destruct (gexec_evolves e gs gs' i g' Hg E Hi') as (g0&Hi0&Hev). rewrite Hi in Hi0. injection Hi0 as <-.
  destruct (go_proc pcfg gs i g Hg Hi) as (p&Hp&Hro). destruct (go_proc pcfg gs' i g' Hg' Hi') as (p'&Hp'&Hro').
  destruct Hstep as [[Ean Hpend]|(r'&Ean&Hpend&Hres)].
  - rewrite Ean in Hr. destruct (Ha i g r Hi Hr) as [Hm Hs].
    assert (g_mode g ≠ RawBody) as Hraw by (intros Hm0; destruct (ro_raw g p Hro Hm0) as [E0 _]; rewrite E0 in Hr; by apply elem_of_nil in Hr).
    assert ((∃ st, g_st g = Some st ∧ stored gs' st (answer r)) → ∃ st, g_st g' = Some st ∧ stored gs' st (answer r)) as Hevs.
    { intros (st&Hst&Hsto). destruct (ro_part g p Hro Hraw) as (st1&Hst1&Hpart). rewrite Hst in Hst1. injection Hst1 as <-.
      destruct (Hev st Hst Hpart) as (st'&Hst'&(_&Hc&Hcm&_)&_). exists st'. split; [done|]. unfold stored in *. by rewrite Hc, Hcm. }
    split.
    + destruct Hm as [Hpn|(st&Hst&Hsto)]; [|right; apply Hevs; exists st; split; [done|by apply Hkeep]].
      destruct Hpend as [->|[-> _]]; [by left|right]. apply Hevs. by apply (map_stores i gs gs' g).
    + intros Hm'. destruct Hmode as [Hmode|Hmode]; [|done]. rewrite Hmode in Hm'. destruct (Hs Hm') as (p0&Hp0&Hin).
      rewrite Hp in Hp0. injection Hp0 as <-. exists p'. split; [done|].
      destruct (gexec_grows cfg pcfg Httl e gs gs' i g p E Hi Hp) as (p2&Hp2&[Hsub _ _]). rewrite Hp' in Hp2. injection Hp2 as <-. by apply Hsub.
  - assert (answers g = []) as E0.
    { pose proof (answers_le1 g' p' Hro') as Hl.
      rewrite Ean, length_app in Hl. cbn in Hl. apply nil_length_inv. lia. }
    rewrite Ean, E0 in Hr. apply list_elem_of_singleton in Hr as ->. split; [by left|done].
Qed.

(** All of it, along a run. *)
Record run_ok (es : list gevent) gs : Prop := {
  run_gate : gate_ok pcfg gs;
  run_reliable_ : reliable (store (pool gs));
  run_quick : quick_ok pcfg (pool gs);
  run_delivered : delivered es gs;
  run_answered : answered gs;
}.

Lemma run_step es e gs gs' : run_ok es gs → gexec cfg pcfg e gs = Some gs' → run_ok (es ++ [e]) gs'.
Proof.
  intros [Hg Hrel Hq Hd Ha] E. pose proof (gate_step cfg pcfg Httl Hlimit e gs gs' Hg E) as Hg'.
  assert (pool_steps pcfg (pool gs) (pool gs')) as Hps by (eapply gexec_pool; [by eapply gate_colon|done]).
  destruct (quick_steps pcfg Httl _ _ (go_pool pcfg gs Hg) Hrel Hq Hps) as (Hq'&Hrel'&Hkeep).
  split; [done..|by apply (delivered_step es e gs)|by apply (answered_step e gs)].
Qed.

Lemma run_execs es gs0 gs : run_ok [] gs0 → gexecs cfg pcfg es gs0 = Some gs → run_ok es gs.
Proof.
  intros Hr0. revert gs. induction es as [|e es IH] using rev_ind; intros gs; [by intros [= <-]|].
  rewrite gexecs_app. bind_some gs1 E1. cbn [gexecs]. bind_some gs2 E2. intros [= <-]. eapply run_step; [by apply IH|done].
Qed.

Lemma run_init s0 n rs : reliable s0 → NoDup (map in_rid rs) → (∀ rid, rid ∈ map in_rid rs → ∀ k d, ¬ page_at s0 rid k d) →
  run_ok [] (ginit pcfg s0 n rs).
Proof.
  intros Hrel Hnd Hp. split.
  - by apply ginit_ok.
  - done.
  - intros i p. cbn. rewrite map_map. change (map ?f ?l) with (f <$> l). rewrite list_lookup_fmap.
    destruct (rs !! i) as [r|]; [|done]. by intros [= <-].
  - intros i g p. cbn. rewrite map_map. change (map ?f ?l) with (f <$> l). rewrite !list_lookup_fmap.
    destruct (rs !! i) as [r|]; [|done]. by intros [= <-] [= <-].
  - intros i g r. cbn. change (map ?f ?l) with (f <$> l). rewrite list_lookup_fmap.
    destruct (rs !! i); [|done]. intros [= <-]. cbn. by intros ?%elem_of_nil.
Qed.

(** The client has the sentinel only when the mapping is stored: the read that
    delivers it has returned, that is the copy goroutine is not inside the
    callback and nothing is pending. *)
Lemma mapped_in_time es gs i g p a : run_ok es gs → reqs gs !! i = Some g → procs (pool gs) !! i = Some p →
  g_mode g = StreamBody → (∀ f, ph p ≠ AtDone f) → g_pending g = None →
  fits pcfg (reads i es) → has_done (reads i es) = true →
  (∀ w rest, reads i es = w ++ rest → has_done w = true → message_of w = Ok a) →
  (∃ r, answers g = [r] ∧ answer r = a) ∧ ∃ st, g_st g = Some st ∧ stored gs st a.
Proof.
  intros [Hg Hrel Hq Hd Ha] Hi Hp Hm Hph Hpend Hsmall Hdone Hmsg.
  destruct (Hd i g p Hi Hp) as [_ Hs]. destruct (Hs Hm) as (rest&Ereads&Hrest). destruct (Hq i p Hp) as (_&_&Hqk).
  rewrite Ereads in Hsmall. destruct (Hqk (fits_app _ _ _ Hsmall)) as [Hseq Hfail Hsd Hphase].
  assert (sealed (coll p) = true) as Hsl.
  { destruct (sealed (coll p)) eqn:E; [done|]. destruct rest as [|x rest].
    - rewrite Ereads, app_nil_r in Hdone. congruence.
    - assert (closed p = true) as Hc by by apply Hrest. unfold closed in Hc. by rewrite E, Hfail in Hc. }
  destruct (results p) as [|r0 l] eqn:Er.
  { destruct (ph p) as [|f|f|]; try done; [by rewrite Hsl in Hphase; destruct Hphase|by destruct (Hph f)|by rewrite Hsl in Hphase]. }
  destruct Hphase as [-> _]. rewrite (Hmsg (written p) rest) in Er by (done || by rewrite <-Hsd).
  pose proof (go_reqs pcfg gs Hg i g p Hi Hp) as Hro.
  assert (length (answers g) = 1)%nat as Hl.
  { pose proof (once_le p (ro_once g p Hro)) as Hle. rewrite (ro_stream g p Hro Hm). rewrite Er in *. cbn in *. lia. }
  destruct (answers g) as [|r [|]] eqn:Ean; try done. assert (r ∈ answers g) as Hr by (rewrite Ean; left).
  destruct (Ha i g r Hi Hr) as [Hmap Hres]. destruct (Hres Hm) as (p'&Hp'&Hin). rewrite Hp in Hp'. injection Hp' as <-.
  assert (answer r = a) as <-.
  { pose proof (once_le p (ro_once g p Hro)) as Hle. rewrite Er in Hin, Hle. apply elem_of_cons in Hin as [[= ?]|Hin]; [done|].
    exfalso. apply count_ok_elem in Hin. unfold count_ok in Hle. cbn in Hle. unfold count_ok in Hin. lia. }
  split; [by exists r|]. destruct Hmap as [Hmap|Hmap]; [congruence|done].
Qed.
End runs.

(** The next turn, when the mapping is there in time. *)
Lemma next_turn_resolved {W} `{redis_laws W, !redis_persistent W, !redis_reliable W} cfg pcfg (s0 : RedisStore W) n rs es gs
    i g p text j g2 :
  0 < TTL pcfg → 0 < Config.MaxRequestBody (Config.limits cfg) < 2 ^ 63 - 1 →
  0 < Config.Session_TTL (Config.session_ cfg) → fresh_run s0 rs → healthy (rdb s0) →
  gexecs cfg pcfg es (ginit pcfg s0 n rs) = Some gs →
  reqs gs !! i = Some g → procs (pool gs) !! i = Some p → g_mode g = StreamBody → (∀ f, ph p ≠ AtDone f) → g_pending g = None →
  fits pcfg (reads i es) → has_done (reads i es) = true →
  (∀ w rest, reads i es = w ++ rest → has_done w = true → message_of w = Ok (render WriteString (text_message text))) →
  reqs gs !! j = Some g2 → next_turn cfg (in_req (g_in g)) (in_req (g_in g2)) text →
  ∃ s' r' st3, ServeHTTP cfg (in_rid (g_in g2)) (in_uuid (g_in g2)) (in_req (g_in g2)) (store (pool gs)) = (s', Proxied r' (Some st3)) ∧
    source_ st3 = Some SourceResolved ∧
    (∃ st, g_st g = Some st ∧
      mapped gs (clientHash st) (HistoryHash (canonMsgs st ++ [render WriteString (text_message text)])) (sessionID st3) ∧
      ((∀ k gk, k ≠ i → reqs gs !! k = Some gk → answers gk = []) → sessionID st3 = sessionID st)) ∧
    Header_ r' !! h_Session = Some [sessionID st3].
Proof.
  intros Httl Hmax Hsttl Hf Hhealthy E Hi Hp Hm Hph Hpend Hsmall Hdone Hmsg Hj Hnext. pose proof Hf as (Hnd&Hpages&_).
  assert (run_ok pcfg es gs) as Hrun.
  { apply (run_execs cfg pcfg Httl Hsttl ltac:(lia) es (ginit pcfg s0 n rs)); [|done]. apply run_init; try done.
    intros rid Hr k d (x&_&Hx). by rewrite Hpages, lookup_empty in Hx. }
  destruct (fresh_reachable cfg pcfg s0 n rs gs Httl ltac:(lia) Hf (ex_intro _ es E)) as [Hg Hmapped].
  destruct (mapped_in_time pcfg es gs i g p _ Hrun Hi Hp Hm Hph Hpend Hsmall Hdone Hmsg) as [_ (st&Hst&[id Hat])].
  (* the request's state is that of its messages *)
  pose proof (go_reqs pcfg gs Hg i g p Hi Hp) as Hr. destruct (ro_part g p Hr ltac:(by rewrite Hm)) as (st'&Hst'&Hpart).
  rewrite Hst in Hst'. injection Hst' as <-. pose proof (ro_st g p Hr st Hst) as Hs. unfold state_of in Hs. rewrite Hpart in Hs.
  destruct Hs as [Hid Hmsgs]. destruct (next_turn_messages cfg _ _ _ _ Hnext Hmsgs) as [u Hu].
  destruct Hnext as [Hchat [Hlen Hbf] Hcred Hcs _]. set (a := render WriteString (text_message text)) in *.
  assert (clientIdentity (Header_ (in_req (g_in g2))) = clientHash st) as Hcl by (rewrite Hid; unfold clientIdentity; by rewrite Hcred).
  set (s := store (pool gs)) in *. set (s1 := record (Inc (Requests (str "chat"))) s).
  assert (∃ x, (GetSession (clientHash st) (HistoryHash (canonMsgs st ++ [a])) s1).2 = Ok x) as [x Hx].
  { pose proof (reliable_GetSession (clientHash st) (HistoryHash (canonMsgs st ++ [a])) s1
      (reliable_op (OpRecord (Inc (Requests (str "chat")))) s (run_reliable_ pcfg es gs Hrun))) as Hok.
    destruct (GetSession _ _ s1).2 as [x|]; [by exists x|done]. }
  destruct (ServeHTTP_resolves cfg (in_rid (g_in g2)) (in_uuid (g_in g2)) (in_req (g_in g2)) s (canonMsgs st ++ [a]) u id x
    Hmax Hchat Hlen Hbf Hcs) as (s'&r'&st3&Eserve&Hsrc&Hsid&Hhd); [by destruct (canonMsgs st)|done|by rewrite Hcl|by rewrite Hcl|].
  exists s', r', st3. split; [done|]. split; [done|]. split.
  - assert (mapped gs (clientHash st) (HistoryHash (canonMsgs st ++ [a])) (sessionID st3)) as Hmap.
    { rewrite Hsid. apply Hmapped; [|exact Hat]. rewrite <-Hcl. apply clientIdentity_colon. }
    exists st. split_and!; [done|done|]. intros Honly. destruct Hmap as (k&gk&stk&rk&Hk&Hstk&_&Hrk&_&_&->).
    destruct (decide (k = i)) as [->|Hne]; [rewrite Hi in Hk; injection Hk as <-; congruence|].
    rewrite (Honly k gk Hne Hk) in Hrk. by apply elem_of_nil in Hrk.
  - by rewrite Hhd, Hsid.
Qed.

(** ** Properties *)

(** [C5] The session is there when the client needs it.  In every interleaving of
    any number of requests, page workers and finalizers, over a Redis that answers
    and forgets nothing: once a client has the sentinel of its streamed answer -
    the reads that brought it have returned - and the answer is a text that fits
    the RAM tail, the next turn of its conversation is resolved, whatever else is
    running: it is forwarded with a session stored for the same client and
    conversation, and the upstream receives that session unless the client names
    the header in [Connection].  If no other request has an answer yet, it is the
    session of the first request. *)
Theorem session_affinity {W} `{redis_laws W, !redis_persistent W, !redis_reliable W} cfg pcfg (s0 : RedisStore W) n rs es gs
    i g p text j g2 :
  0 < TTL pcfg → 0 < Config.MaxRequestBody (Config.limits cfg) < 2 ^ 63 - 1 →
  0 < Config.Session_TTL (Config.session_ cfg) → fresh_run s0 rs → healthy (rdb s0) →
  gexecs cfg pcfg es (ginit pcfg s0 n rs) = Some gs →
  reqs gs !! i = Some g → procs (pool gs) !! i = Some p → g_mode g = StreamBody → (∀ f, ph p ≠ AtDone f) → g_pending g = None →
  fits pcfg (reads i es) → has_done (reads i es) = true →
  (∀ w rest, reads i es = w ++ rest → has_done w = true → message_of w = Ok (render WriteString (text_message text))) →
  reqs gs !! j = Some g2 → next_turn cfg (in_req (g_in g)) (in_req (g_in g2)) text →
  ∃ s' r' st3, ServeHTTP cfg (in_rid (g_in g2)) (in_uuid (g_in g2)) (in_req (g_in g2)) (store (pool gs)) = (s', Proxied r' (Some st3)) ∧
    source_ st3 = Some SourceResolved ∧
    (∃ st, g_st g = Some st ∧
      mapped gs (clientHash st) (HistoryHash (canonMsgs st ++ [render WriteString (text_message text)])) (sessionID st3) ∧
      ((∀ k gk, k ≠ i → reqs gs !! k = Some gk → answers gk = []) → sessionID st3 = sessionID st)) ∧
    ∀ up out, proxy_request (NewHandler up) r' = Ok out → h_Session ∉ named (Header_ (in_req (g_in g2))) →
      out_Header out !! h_Session = Some [sessionID st3].
Proof.
  intros Httl Hmax Hsttl Hf Hhealthy E Hi Hp Hm Hph Hpend Hsmall Hdone Hmsg Hj Hnext.
  destruct (next_turn_resolved cfg pcfg s0 n rs es gs i g p text j g2) as (s'&r'&st3&Es&Hsrc&Hst&Hhd); try done.
  exists s', r', st3. split_and!; [done..|]. intros up out Hout Hnamed.
  by rewrite (session_sent cfg _ _ _ _ _ _ _ up out Hmax Es Hout Hnamed).
Qed.

(** Every prefix of a text stream that has the sentinel gives the text. *)
Lemma text_prefixes ss k w rest : Forall valid_utf8 ss → ss ≠ [] → take k (full_stream (map text_piece ss)) = w ++ rest →
  has_done w = true → message_of w = Ok (render WriteString (text_message (concat ss))).
Proof.
  intros Hss Hne E Hd. assert (w = take (length w) (full_stream (map text_piece ss)) ∧ (length w <= length (full_stream (map text_piece ss)))%nat) as [Ew Hl].
  { pose proof (f_equal (take (length w)) E) as Et. rewrite take_app_length, take_take in Et.
    pose proof (f_equal length E) as El. rewrite length_take, length_app in El. split; [|lia].
    rewrite <-Et at 1. f_equal. lia. }
  rewrite Ew in Hd |- *. rewrite has_done_take in Hd by (done || by apply text_specs_ok).
  apply bool_decide_eq_true in Hd. by apply collected_text.
Qed.

(** The two turns of EndToEnd.v, with pages large enough. *)
Definition ram_cfg : Collector.Config := {| PageSize := 4096; TTL := 1; OpTimeout := 1; MaxPendingPages := 4 |}.
Definition ram_events : list gevent :=
  [GArrive 0; GResponse 0 200 (str "text/event-stream"); GRead 0 piece1; GRead 0 piece2; GCheck 0; GAssemble 0; GMap 0].
Definition ram_start : gstate (RedisStore MemRedis) := ginit ram_cfg mem_store 1 [run_request; second_turn].
Definition ram_end : gstate (RedisStore MemRedis) := default ram_start (gexecs sample_gateway ram_cfg ram_events ram_start).
Definition ram_greq : greq := default (new_greq run_request) (reqs ram_end !! 0%nat).
Definition ram_proc : proc := default (new_proc ram_cfg [] false) (procs (pool ram_end) !! 0%nat).

Lemma session_affinity_witness : ∃ s' r' st3,
  ServeHTTP sample_gateway (str "r2") (str "S2") (in_req second_turn) (store (pool ram_end)) = (s', Proxied r' (Some st3)) ∧
  source_ st3 = Some SourceResolved.
Proof.
  assert (next_turn sample_gateway (in_req (g_in ram_greq)) (in_req second_turn) (concat two_pieces)) as Hn
    by exact second_turn_next.
  destruct (session_affinity sample_gateway ram_cfg mem_store 1 [run_request; second_turn] ram_events ram_end 0 ram_greq ram_proc
    (concat two_pieces) 1 (new_greq second_turn)) as (s'&r'&st3&E&Hs&_).
  - vm_compute. reflexivity.
  - split; vm_compute; reflexivity.
  - vm_compute. reflexivity.
  - exact turns_fresh.
  - vm_compute. reflexivity.
  - apply succeeds_default. vm_compute. reflexivity.
  - apply succeeds_default. vm_compute. reflexivity.
  - apply succeeds_default. vm_compute. reflexivity.
  - vm_compute. reflexivity.
  - intros f. vm_compute. discriminate.
  - vm_compute. reflexivity.
  - split; [vm_compute; reflexivity|vm_compute; discriminate].
  - vm_compute. reflexivity.
  - intros w rest Ew. apply (text_prefixes two_pieces (length (reads 0 ram_events)) w rest); [apply (bool_decide_unpack _); vm_compute; exact I|discriminate|].
    rewrite <-Ew. vm_compute. reflexivity.
  - vm_compute. reflexivity.
  - exact Hn.
  - exists s', r', st3. split; [exact E|exact Hs].
Defined.
