(* ===== verification/Table.v ===== *)
(** * What the gateway promises: a table of conversations

    The abstract specification of the whole program, in which there are no hashes,
    no store, no pages and no goroutines: a table from conversations - a credential
    and the messages so far - to sessions.  A request that takes part is served
    with the session its client names, or the one in the table for the messages
    before its last, or a new one; the answer it gets extends its conversation, and
    the longer conversation enters the table with the same session, once.

    [table_exec] is the specification over a store that answers and forgets
    nothing; [table_step] also allows what any other store may do, to miss and to
    lose.  Refinement.v proves that the running gateway implements both. *)
From S2P Require Import Prelude.

(** ** Requests and tables *)

(** A request that takes part: its credential, the session its client names (or
    nothing), its messages, and the identifier it gets if it needs a new one. *)
Record turn : Type := { t_credential : bytes; t_session : bytes; t_messages : list bytes; t_uuid : bytes }.

(** A client's conversation up to some message. *)
Abbreviation talk := (bytes * list bytes)%type.

(** The messages before the last. *)
Definition earlier (msgs : list bytes) : list bytes := take (length msgs - 1) msgs.
Definition history (t : turn) : talk := (t_credential t, earlier (t_messages t)).
Definition extended (t : turn) (a : bytes) : talk := (t_credential t, t_messages t ++ [a]).

(** The sessions of conversations; the session each request was served with; the
    requests whose answer has entered the table. *)
Record table : Type := { conversations : gmap talk bytes; given : gmap nat bytes; taught : gset nat }.
Definition no_table : table := {| conversations := ∅; given := ∅; taught := ∅ |}.

Definition give (T : table) (i : nat) (x : bytes) : table :=
  {| conversations := conversations T; given := <[i := x]> (given T); taught := taught T |}.
Definition mark (T : table) (i : nat) : table :=
  {| conversations := conversations T; given := given T; taught := {[i]} ∪ taught T |}.
Definition teach (T : table) (i : nat) (k : talk) (x : bytes) : table :=
  {| conversations := <[k := x]> (conversations T); given := given T; taught := {[i]} ∪ taught T |}.

Definition session_for (T : table) (t : turn) : bytes :=
  if decide (t_session t ≠ []) then t_session t
  else if (1 <? length (t_messages t))%nat then default (t_uuid t) (conversations T !! history t)
  else t_uuid t.

(** What can be seen: request [i] is forwarded with a session; its answer enters. *)
Inductive label : Type := Serve (i : nat) (session : bytes) | Learn (i : nat) (answer : bytes).

Section table.
Context (turns : list (option turn)).

Definition turn_at (i : nat) : option turn := t ← turns !! i; t.

Definition table_exec (l : label) (T : table) : option table :=
  match l with
  | Serve i x =>
    t ← turn_at i;
    if decide (given T !! i = None ∧ x = session_for T t) then Some (give T i x) else None
  | Learn i a =>
    t ← turn_at i;
    x ← given T !! i;
    if decide (i ∈ taught T) then None else Some (teach T i (extended t a) x)
  end.

Fixpoint table_execs (ls : list label) (T : table) : option table :=
  match ls with
  | [] => Some T
  | l :: ls' => T' ← table_exec l T; table_execs ls' T'
  end.

(** With [loses], a look-up may miss and an answer may be lost. *)
Inductive table_step (loses : bool) (T : table) : label → table → Prop :=
| step_exact l T' : table_exec l T = Some T' → table_step loses T l T'
| step_miss i t : loses = true → turn_at i = Some t → given T !! i = None → t_session t = [] →
    table_step loses T (Serve i (t_uuid t)) (give T i (t_uuid t))
| step_lose i t x a : loses = true → turn_at i = Some t → given T !! i = Some x → i ∉ taught T →
    table_step loses T (Learn i a) (mark T i).

Inductive table_steps (loses : bool) (T : table) : list label → table → Prop :=
| steps_nil : table_steps loses T [] T
| steps_snoc ls l T1 T2 : table_steps loses T ls T1 → table_step loses T1 l T2 → table_steps loses T (ls ++ [l]) T2.

(** ** Runs *)

Lemma table_execs_app ls ls' T : table_execs (ls ++ ls') T = T' ← table_execs ls T; table_execs ls' T'.
Proof. revert T. induction ls as [|l ls IH]; intros T; cbn; [done|]. destruct (table_exec l T); [apply IH|done]. Qed.

(** Without losses the relation is the function. *)
Lemma table_steps_exact T ls T' : table_steps false T ls T' → table_execs ls T = Some T'.
Proof.
  induction 1 as [|ls l T1 T2 _ IH Hl]; [done|]. rewrite table_execs_app, IH. cbn.
  destruct Hl as [l T2 E|i t Hf|i t x a Hf]; [|done|done]. cbn. by rewrite E.
Qed.

(** What was given stays given, and a conversation keeps its session unless it is
    learnt again. *)
Lemma table_exec_given l T T' i x : table_exec l T = Some T' → given T !! i = Some x → given T' !! i = Some x.
Proof.
  destruct l as [j y|j a]; cbn [table_exec]; bind_some t Ht.
  - case_decide as Hd; [|done]. destruct Hd as [Hn _]. intros [= <-] Hi. cbn. rewrite lookup_insert_ne; [done|]. intros ->. congruence.
  - bind_some y Hy. case_decide; [done|]. by intros [= <-].
Qed.

Definition teaches (k : talk) (l : label) : Prop :=
  match l with Learn i a => ∃ t, turn_at i = Some t ∧ extended t a = k | Serve _ _ => False end.

Lemma table_exec_keeps l T T' k x : table_exec l T = Some T' → ¬ teaches k l →
  conversations T !! k = Some x → conversations T' !! k = Some x.
Proof.
  destruct l as [j y|j a]; cbn [table_exec teaches]; bind_some t Ht.
  - case_decide; [|done]. by intros [= <-].
  - bind_some y Hy. case_decide; [done|]. intros [= <-] Hk Hx. cbn. rewrite lookup_insert_ne; [done|]. intros E. apply Hk. by exists t.
Qed.

Lemma table_execs_keeps ls T T' k x : table_execs ls T = Some T' → Forall (λ l, ¬ teaches k l) ls →
  conversations T !! k = Some x → conversations T' !! k = Some x.
Proof.
  intros E Hls. revert T E. induction Hls as [|l ls Hl Hls IH]; intros T; cbn; [by intros [= <-]|].
  bind_some T1 E1. intros E Hx. eapply IH; [done|]. by eapply table_exec_keeps.
Qed.

(** The table's promise: once the answer to a request has entered, whoever goes on
    with that conversation gets that request's session. *)
Lemma table_continues ls1 ls2 ls3 i x t a u j y t' T :
  table_execs (ls1 ++ Serve i x :: ls2 ++ Learn i a :: ls3 ++ [Serve j y]) no_table = Some T →
  turn_at i = Some t → turn_at j = Some t' →
  t_session t' = [] → t_credential t' = t_credential t → t_messages t' = t_messages t ++ [a; u] →
  Forall (λ l, ¬ teaches (extended t a) l) ls3 → y = x.
Proof.
  intros E Hi Hj Hs Hc Hm Hls. revert E. rewrite table_execs_app. bind_some T1 E1. cbn [table_execs]. bind_some T2 E2.
  rewrite table_execs_app. bind_some T3 E3. cbn [table_execs]. bind_some T4 E4. rewrite table_execs_app. bind_some T5 E5.
  cbn [table_execs]. bind_some T6 E6. intros _.
  assert (given T2 !! i = Some x) as Hg2.
  { revert E2. cbn [table_exec]. bind_some t0 H0. case_decide; [|done]. intros [= <-]. cbn. apply lookup_insert_eq. }
  assert (given T3 !! i = Some x) as Hg3.
  { clear - E3 Hg2. revert T2 E3 Hg2. induction ls2 as [|l ls2 IH]; intros T2; cbn; [by intros [= <-]|].
    bind_some T2' E. intros E' Hg. eapply IH; [done|]. by eapply table_exec_given. }
  assert (conversations T4 !! extended t a = Some x) as H4.
  { revert E4. cbn [table_exec]. rewrite Hi. cbn [mbind option_bind]. rewrite Hg3. cbn [mbind option_bind].
    case_decide; [done|]. intros [= <-]. cbn. apply lookup_insert_eq. }
  pose proof (table_execs_keeps ls3 T4 T5 _ x E5 Hls H4) as H5.
  revert E6. cbn [table_exec]. rewrite Hj. cbn [mbind option_bind]. case_decide as Hd; [|done]. intros _.
  destruct Hd as [_ ->]. unfold session_for. rewrite decide_False by (by intros []).
  rewrite Hm, length_app. cbn [length]. replace (1 <? length (t_messages t) + 2)%nat with true by (symmetry; apply Nat.ltb_lt; lia).
  assert (history t' = extended t a) as ->; [|by rewrite H5].
  unfold history, extended, earlier. rewrite Hc, Hm, length_app. cbn [length].
  replace (length (t_messages t) + 2 - 1)%nat with (length (t_messages t ++ [a])) by (rewrite length_app; cbn; lia).
  change [a; u] with ([a] ++ [u]). by rewrite app_assoc, take_app_length.
Qed.
End table.
