(* ===== verification/Refinement.v ===== *)
(** * The running gateway implements the table of conversations

    A forward simulation from the whole gateway (Gateway.v: handler, collectors,
    page workers, finalizers over a store) to the table of Table.v.  The visible
    steps are the arrival of a request that takes part, with the session header it
    is forwarded with, and the writing of a mapping; every other step is silent.
    Conversations are what the store's keys are hashes of: two that are confused
    are an explicit SHA-256 collision among the conversations of the run. *)
From S2P Require Import Prelude GoBytes Json JsonRender Sha256 Canon Request Assistant AssistantStream.
From S2P Require Import Metrics Store Session Collector Pool Proxy Gateway GatewaySafety Provenance EndToEnd Affinity Table.
From S2P Require Config.

(** ** What can be seen of a run *)

(** A request that takes part: a chat request whose body is read and has messages. *)
Definition turn_of (cfg : Config.Config) (r : incoming) : option turn :=
  let q := in_req r in
  if is_chat q && (Z.of_nat (length (Body q)) <=? Config.MaxRequestBody (Config.limits cfg)) && negb (Body_fails q) then
    cms ← chat_messages (Body q);
    Some {| t_credential := credential (Header_ q); t_session := Get (Header_ q) h_Session; t_messages := cms; t_uuid := in_uuid r |}
  else None.

Section trace.
Context {S : Type} `{SessionStore S, TempPageStore S, Metered S}.
Context (cfg : Config.Config) (pcfg : Collector.Config).
Implicit Types (gs : gstate S).

(** The session is read off the header the reverse proxy is given. *)
Definition label_of (e : gevent) gs : option label :=
  match e with
  | GArrive i =>
    g ← reqs gs !! i;
    match (ServeHTTP cfg (in_rid (g_in g)) (in_uuid (g_in g)) (in_req (g_in g)) (store (pool gs))).2 with
    | Proxied r' (Some st) => if participate st then Some (Serve i (Get (Header_ r') h_Session)) else None
    | _ => None
    end
  | GMap i => g ← reqs gs !! i; a ← g_pending g; Some (Learn i a)
  | _ => None
  end.

Fixpoint trace (es : list gevent) gs : list label :=
  match es with
  | [] => []
  | e :: es' => option_list (label_of e gs) ++ match gexec cfg pcfg e gs with Some gs' => trace es' gs' | None => [] end
  end.

Lemma trace_snoc es e gs gs1 : gexecs cfg pcfg es gs = Some gs1 → trace (es ++ [e]) gs = trace es gs ++ option_list (label_of e gs1).
Proof.
  revert gs. induction es as [|e' es IH]; intros gs; cbn [gexecs trace app].
  - intros [= <-]. destruct (gexec cfg pcfg e gs); by rewrite app_nil_r.
  - bind_some gs2 E2. intros E. by rewrite <-app_assoc, (IH gs2 E).
Qed.

(** *** An arrival *)

(** What [ServeHTTP] does with a request, in terms of its turn. *)
Lemma ServeHTTP_turn r (s : S) : 0 < Config.MaxRequestBody (Config.limits cfg) < 2 ^ 63 - 1 →
  match turn_of cfg r with
  | None => ∀ r' st, (ServeHTTP cfg (in_rid r) (in_uuid r) (in_req r) s).2 = Proxied r' (Some st) → participate st = false
  | Some t => ∃ r' st, (ServeHTTP cfg (in_rid r) (in_uuid r) (in_req r) s).2 = Proxied r' (Some st) ∧ participate st = true ∧
      clientHash st = HashBytes (t_credential t) ∧ canonMsgs st = t_messages t ∧ Get (Header_ r') h_Session = sessionID st ∧
      sessionID st = SessionID (resolution (t_uuid t) (t_session t) (t_messages t)
        (GetSession (HashBytes (t_credential t)) (HistoryHash (but_last (t_messages t))) (record (Inc (Requests (str "chat"))) s)).2)
  end.
Proof.
  intros Hmax. unfold turn_of, ServeHTTP. destruct (is_chat (in_req r)); [|done]. cbn [negb andb].
  rewrite readBody_spec by lia. set (q := in_req r). set (max := Config.MaxRequestBody (Config.limits cfg)).
  replace (Z.of_nat (length (Body q)) <=? max) with (negb (max <? Z.of_nat (length (Body q)))) by (symmetry; apply Z.leb_antisym).
  destruct (max <? Z.of_nat (length (Body q))); [done|]. destruct (Body_fails q); [done|]. cbn [negb andb]. rewrite prepare_eq.
  destruct (chat_messages (Body q)) as [cms|]; cbn [mbind option_bind]; [|by intros r' st [= _ <-]].
  cbn [t_credential t_session t_messages t_uuid]. set (s1 := record _ s).
  pose proof (Resolve_resolution (in_uuid r) (clientIdentity (Header_ q)) cms (Get (Header_ q) h_Session) s1) as Hres.
  destruct (Resolve _ _ cms _ s1) as [s2 dec]. cbn [snd] in *. eexists _, _. split; [reflexivity|].
  cbn [participate clientHash canonMsgs sessionID restore Header_]. split_and!; [done..| |by rewrite Hres].
  unfold Get at 1, Set_. rewrite lookup_insert_ne by done. by rewrite lookup_insert_eq.
Qed.
End trace.

(** ** What a step does to a request's part in the session logic *)

Section steps.
Context {S : Type} `{StoreSpec S, !PersistentPages S}.
Context (cfg : Config.Config) (pcfg : Collector.Config).
Implicit Types (gs : gstate S).

(** Who takes part later took part before, as the same. *)
Definition part_before (g g' : greq) : Prop := ∀ st', g_st g' = Some st' → participate st' = true →
  ∃ st, g_st g = Some st ∧ same_id st st'.

Lemma part_before_same g g' : g_st g' = g_st g → part_before g g'.
Proof. intros E st' Hst' _. exists st'. split; [by rewrite <-E|done]. Qed.

Lemma part_before_id g g' st st' : g_st g = Some st → g_st g' = Some st' → same_id st st' → part_before g g'.
Proof. intros E E' Hk st0 E0 _. exists st. split; [done|]. rewrite E' in E0. by injection E0 as <-. Qed.
Lemma part_before_key g g' st st' : g_st g = Some st → g_st g' = Some st' → same_key st st' → part_before g g'.
Proof. intros E E' Hk%same_key_id. by eapply part_before_id. Qed.

Lemma modifyResponse_before i g rep status ct : let '(st', mode) := modifyResponse i (g_st g) status ct in
  part_before g (responded g rep st' mode).
Proof.
  unfold modifyResponse. destruct (g_st g) as [st|] eqn:Est; [|by intros st' ?].
  repeat case_match; simplify_eq; (eapply part_before_id; [exact Est|reflexivity|done]).
Qed.

Lemma deliver_before gs gs' i g p r stats : deliver gs i g p r stats = Some gs' →
  ∃ g', reqs gs' = <[i := g']> (reqs gs) ∧ part_before g g'.
Proof.
  unfold deliver. bind_some st Hst.
  destruct (on_result_key (g_final g) (is_at_done (ph p)) st r stats (store (pool gs))) as [Hk _].
  destruct (on_result _ _ _ _ _ _) as [[s st'] a]. intros [= <-]. eexists. split; [done|].
  by eapply part_before_key; [done|destruct a|].
Qed.

Lemma end_body_before e gs gs' i g : end_body pcfg e gs i g = Some gs' →
  ∃ g', reqs gs' = <[i := g']> (reqs gs) ∧ part_before g g'.
Proof.
  unfold end_body. bind_some st Hst. destruct (end_key e st (store (pool gs))) as [Hk _].
  destruct ((if e then on_eof else on_close) _ _) as [[s st'] f]. intros E.
  exists (with_st g st' (match f with Some f => Some f | None => g_final g end)). split; [|by eapply part_before_key]. revert E.
  destruct (g_mode g); try (by intros [= <-]). destruct (finished st); [by intros [= <-]|]. bind_some pst E. by intros [= <-].
Qed.

Lemma step_before e gs gs' : gexec cfg pcfg e gs = Some gs' →
  reqs gs' = reqs gs ∨ ∃ i g g', reqs gs !! i = Some g ∧ reqs gs' = <[i := g']> (reqs gs) ∧ (e = GArrive i ∨ part_before g g').
Proof.
  destruct e as [i|i status ct|i|i b|i|i|i|i|i|i| |k|k| |]; cbn [gexec].
  11-15: (bind_some pst E; intros [= <-]; by left).
  all: bind_some g Hi.
  all: match goal with |- _ → _ ∨ ∃ _ _ _, _ ∧ _ ∧ (?e = _ ∨ _) =>
    assert (∀ g', reqs gs' = <[i := g']> (reqs gs) → e = GArrive i ∨ part_before g g' → reqs gs' = reqs gs ∨
      ∃ i g g', reqs gs !! i = Some g ∧ reqs gs' = <[i := g']> (reqs gs) ∧ (e = GArrive i ∨ part_before g g')) as Hlocal
      by (intros g' ? ?; right; by exists i, g, g') end.
  - destruct (g_arrived g); [done|]. destruct (ServeHTTP _ _ _ _ _) as [s d]. intros [= <-]. eapply Hlocal; [done|by left].
  - destruct (_ && _); [|done]. pose proof (modifyResponse_before i g None status ct) as Hm.
    destruct (modifyResponse _ _ _ _) as [st' mode]. intros [= <-]. eapply Hlocal; [done|by right].
  - destruct (_ && _); [|done]. intros [= <-]. eapply Hlocal; [done|right; by apply part_before_same].
  - destruct (decide _); [|done]. destruct (g_mode g); [done|bind_some pst E; intros [= <-]; by left|].
    bind_some st Hst. destruct (finished st); [done|]. intros [= <-]. eapply Hlocal; [done|right].
    eapply part_before_key; [done..|apply json_read_key].
  - destruct (decide _); [|done]. intros (g'&?&?)%end_body_before. eapply Hlocal; [done|by right].
  - destruct (decide _); [|done]. intros (g'&?&?)%end_body_before. eapply Hlocal; [done|by right].
  - bind_some p Hp. bind_some pst E. destruct (finalize_check (coll p)) as [[err stats]|].
    + intros (g'&?&?)%deliver_before. eapply Hlocal; [done|by right].
    + intros [= <-]. by left.
  - bind_some p Hp. bind_some pst E. destruct (finalize_read _ _) as [[s r] stats].
    intros (g'&?&?)%deliver_before. eapply Hlocal; [done|by right].
  - bind_some st Hst. destruct (g_final g) as [[]|]; try done. destruct (finalizeJSON_result _ _) as [s a]. intros [= <-].
    eapply Hlocal; [done|right]. eapply part_before_key; [done|by destruct a|done].
  - bind_some st Hst. bind_some a Ha. intros [= <-]. eapply Hlocal; [done|right; by apply part_before_same].
Qed.
End steps.

(** ** Conversations and their keys *)

Definition talks_of (cfg : Config.Config) (g : greq) : list talk :=
  match turn_of cfg (g_in g) with
  | Some t => history t :: map (λ r, extended t (answer r)) (answers g)
  | None => []
  end.

(** The key the store has for a conversation. *)
Definition key (k : talk) : bytes * bytes := (HashBytes k.1, HistoryHash k.2).

Section talks.
Context {S : Type}.
Context (cfg : Config.Config).

(** Every conversation a run is about. *)
Definition talks (gs : gstate S) : list talk := reqs gs ≫= talks_of cfg.

Lemma elem_of_talks k gs : k ∈ talks gs ↔ ∃ i g, reqs gs !! i = Some g ∧ k ∈ talks_of cfg g.
Proof.
  unfold talks. rewrite list_elem_of_bind. split.
  - intros (g&Hk&[i Hi]%list_elem_of_lookup). eauto.
  - intros (i&g&Hi&Hk). exists g. split; [done|]. by eapply list_elem_of_lookup_2.
Qed.

(** Two of them have credentials, or message arrays, that collide. *)
Definition confused (k k' : talk) : Prop := collides k.1 k'.1 ∨ collides (MessageArray k.2) (MessageArray k'.2).
#[export] Instance confused_dec k k' : Decision (confused k k').
Proof. unfold confused, collides. apply _. Defined.
Definition collision (gs : gstate S) : Prop := Exists (λ k, Exists (confused k) (talks gs)) (talks gs).

Lemma collision_mono gs gs' : talks gs ⊆ talks gs' → collision gs → collision gs'.
Proof.
  intros Hs. unfold collision. rewrite !Exists_exists. intros (k&Hk&(k'&Hk'&Hc)%Exists_exists). exists k. split; [by apply Hs|].
  apply Exists_exists. exists k'. split; [by apply Hs|done].
Qed.

Lemma key_colon k : colon_free (key k).1.
Proof. apply HashBytes_colon. Qed.
End talks.

(** ** The simulation *)

(** A store that answers and forgets nothing, by what the simulation needs. *)
Record lossless {S : Type} `{StoreSpec S} (rel : S → Prop) : Prop := {
  ll_get c h s : rel s → (GetSession c h s).2 = Ok (session_at s c h);
  ll_put c h id ttl s : rel s → 0 < ttl → session_at (PutSession c h id ttl s).1 c h = Some id;
  ll_run ops s : rel s → rel (run ops s) ∧ ∀ c h, is_Some (session_at s c h) → is_Some (session_at (run ops s) c h);
}.

Section simulation.
Context {S : Type} `{StoreSpec S, !PersistentPages S}.
Context (cfg : Config.Config) (pcfg : Collector.Config).
Context (Httl : 0 < TTL pcfg) (Hmax : 0 < Config.MaxRequestBody (Config.limits cfg) < 2 ^ 63 - 1).
Context (loses : bool) (rel : S → Prop).
Context (Hll : loses = false → lossless rel ∧ 0 < Config.Session_TTL (Config.session_ cfg)).
Implicit Types (gs : gstate S) (T : table) (s : S).

(** The requests agree with the table ... *)
Record sim_reqs (rs : list incoming) gs T : Prop := {
  sim_in : g_in <$> reqs gs = rs;
  sim_new i g : reqs gs !! i = Some g → g_arrived g = false → given T !! i = None;
  sim_given i g st : reqs gs !! i = Some g → g_st g = Some st → participate st = true →
    ∃ t, turn_of cfg (g_in g) = Some t ∧ clientHash st = HashBytes (t_credential t) ∧ canonMsgs st = t_messages t ∧
      given T !! i = Some (sessionID st);
  sim_taught i g : reqs gs !! i = Some g → i ∈ taught T → answers g ≠ [] ∧ g_pending g = None;
  sim_talk k x : conversations T !! k = Some x → k ∈ talks cfg gs;
}.

(** ... and so does the store. *)
Record sim_store s T : Prop := {
  sim_known c h x : colon_free c → session_at s c h = Some x → ∃ k, key k = (c, h) ∧ conversations T !! k = Some x;
  sim_exact : loses = false → rel s ∧ ∀ k x, conversations T !! k = Some x → is_Some (session_at s (key k).1 (key k).2);
}.

(** *** Steps of the store *)

Lemma pool_steps_run st st' : pool_steps pcfg st st' → ∃ ops, store st' = run ops (store st).
Proof.
  intros [es E]. revert st E. induction es as [|e es IH]; intros st; cbn [execs]; [intros [= <-]; by exists []|].
  bind_some st1 E. intros [ops Eops]%IH. destruct (exec_store pcfg e st st1 E) as [ops1 E1].
  exists (ops1 ++ ops). rewrite Eops, E1. unfold run. by rewrite foldl_app.
Qed.

Lemma sim_store_keeps ops s s' T : keeps s s' → s' = run ops s → sim_store s T → sim_store s' T.
Proof.
  intros Hk -> [Hkn Hex]. split.
  - intros c h x Hc Hx. by apply Hkn, Hk.
  - intros Hl. destruct (Hll Hl) as [Hlo _]. destruct (Hex Hl) as [Hr Hat], (ll_run _ Hlo ops s Hr) as [Hr' Hat']. split; [done|].
    intros k x Hx. by eapply Hat', Hat.
Qed.

(** A mapping is written: the answer enters, or is lost. *)
Lemma sim_store_learn ops st a s s' T t i : s' = putMapping cfg st a s → s' = run ops s →
  clientHash st = HashBytes (t_credential t) → canonMsgs st = t_messages t → sim_store s T →
  (sim_store s' (teach T i (extended t a) (sessionID st))) ∨ (loses = true ∧ sim_store s' (mark T i)).
Proof.
  intros Es Er Hc Hm [Hkn Hex]. set (k := extended t a).
  assert (key k = (clientHash st, HashBytes (FullState (canonMsgs st) a))) as Hkey.
  { unfold key, k, extended. cbn [fst snd]. by rewrite FullState_HistoryHash, Hc, Hm. }
  assert (∀ c h x, colon_free c → session_at s' c h = Some x → ((c, h) = key k ∧ x = sessionID st) ∨ session_at s c h = Some x) as Hadd.
  { intros c h x Hcf Hx. rewrite Es in Hx. apply putMapping_adds in Hx; [|done|rewrite Hc; apply HashBytes_colon].
    destruct Hx as [(->&->&->)|Hx]; [left|by right]. by rewrite Hkey. }
  destruct (decide (session_at s' (key k).1 (key k).2 = Some (sessionID st))) as [Hput|Hput].
  - left. split; cbn [conversations teach].
    + intros c h x Hcf Hx. destruct (decide (key k = (c, h))) as [E|Hne].
      * exists k. split; [done|]. rewrite E in Hput. cbn in Hput. rewrite lookup_insert_eq. congruence.
      * destruct (Hadd c h x Hcf Hx) as [[E _]|Hold]; [congruence|]. destruct (Hkn c h x Hcf Hold) as (k'&Hk'&HT).
        exists k'. split; [done|]. rewrite lookup_insert_ne; [done|]. intros ->. congruence.
    + intros Hl. destruct (Hll Hl) as [Hlo _]. destruct (Hex Hl) as [Hr Hat], (ll_run _ Hlo ops s Hr) as [Hr' Hat']. rewrite <-Er in Hr', Hat'.
      split; [done|]. intros k' x Hx. apply lookup_insert_Some in Hx as [[<- _]|[_ Hx]]; [by rewrite Hput|by eapply Hat', Hat].
  - right. assert (loses = true) as Hlose.
    { destruct loses; [done|]. destruct (Hll eq_refl) as [Hlo Hsttl]. destruct (Hex eq_refl) as [Hr _]. destruct Hput.
      rewrite Es, putMapping_session, Hkey. by apply (ll_put _ Hlo). }
    split; [done|]. split; cbn [conversations mark]; [|congruence].
    intros c h x Hcf Hx. destruct (Hadd c h x Hcf Hx) as [[E ->]|Hold]; [|by apply Hkn].
    rewrite <-E in Hput. cbn in Hput. congruence.
Qed.

(** *** Steps of the requests *)

Lemma talks_of_mono g g' : g_in g' = g_in g → answers g ⊆ answers g' → talks_of cfg g ⊆ talks_of cfg g'.
Proof.
  intros E Ha k. unfold talks_of. rewrite E. destruct (turn_of cfg (g_in g)) as [t|]; [|done].
  rewrite !elem_of_cons. intros [->|Hk]; [by left|right]. apply list_elem_of_fmap in Hk as (r&->&Hr). apply list_elem_of_fmap. eauto.
Qed.

Lemma req_step_mono e i g g' gs' : req_step e i g g' gs' → g_in g' = g_in g ∧ answers g ⊆ answers g'.
Proof. intros (Ein&_&_&[[-> _]|(r&->&_)]); (split; [done|]); set_solver. Qed.

Lemma step_talks e gs gs' : gate_ok pcfg gs → gexec cfg pcfg e gs = Some gs' → talks cfg gs ⊆ talks cfg gs'.
Proof.
  intros Hg E k. rewrite !elem_of_talks. intros (i&g&Hi&Hk).
  destruct (gexec_reqs cfg pcfg Httl e gs gs' Hg E) as [Er|(j&gj&gj'&Hj&Er&Hs)]; rewrite Er; [eauto|].
  destruct (decide (j = i)) as [->|Hne]; [|exists i, g; by rewrite list_lookup_insert_ne].
  rewrite Hi in Hj. injection Hj as <-. exists i, gj'. rewrite list_lookup_insert_eq by (by eapply lookup_lt_Some). split; [done|].
  destruct (req_step_mono _ _ _ _ _ Hs) as [Ein Ha]. by apply (talks_of_mono g gj').
Qed.

Lemma sim_in_step e gs gs' rs : gate_ok pcfg gs → gexec cfg pcfg e gs = Some gs' → g_in <$> reqs gs = rs → g_in <$> reqs gs' = rs.
Proof.
  intros Hg E <-. destruct (gexec_reqs cfg pcfg Httl e gs gs' Hg E) as [->|(j&gj&gj'&Hj&->&Ein&_)]; [done|].
  rewrite list_fmap_insert, Ein. apply list_insert_id. by rewrite list_lookup_fmap, Hj.
Qed.

Lemma sim_taught_step e gs gs' T i g' : gate_ok pcfg gs → gate_ok pcfg gs' → gexec cfg pcfg e gs = Some gs' →
  (∀ g, reqs gs !! i = Some g → i ∈ taught T → answers g ≠ [] ∧ g_pending g = None) →
  reqs gs' !! i = Some g' → i ∈ taught T → answers g' ≠ [] ∧ g_pending g' = None.
Proof.
  intros Hg Hg' E Ht Hi' Hin. destruct (gexec_req cfg pcfg Httl e gs gs' i g' Hg E Hi') as (g&Hi&_&_&_&Hs).
  destruct (Ht g Hi Hin) as [Ha Hp]. destruct Hs as [[-> [->|[_ ->]]]|(r&Ean&_)]; [done..|].
  destruct (go_proc pcfg gs' i g' Hg' Hi') as (p'&_&Hr'). pose proof (answers_le1 g' p' Hr') as Hl. rewrite Ean, length_app in Hl.
  cbn in Hl. destruct (answers g); [done|]. cbn in Hl. lia.
Qed.

(** A step that is no arrival. *)
Lemma sim_reqs_step e gs gs' T rs : gate_ok pcfg gs → gate_ok pcfg gs' → gexec cfg pcfg e gs = Some gs' → (∀ i, e ≠ GArrive i) →
  sim_reqs rs gs T → sim_reqs rs gs' T.
Proof.
  intros Hg Hg' E Hne [Hin Hnew Hgiven Htaught Htalk]. split.
  - by apply (sim_in_step e gs gs').
  - intros i g' Hi' Ha. destruct (gexec_req cfg pcfg Httl e gs gs' i g' Hg E Hi') as (g&Hi&_&[Ea|Ea]&_); [|by destruct (Hne i)].
    apply (Hnew i g Hi). congruence.
  - intros i g' st' Hi' Hst' Hpart. destruct (gexec_req cfg pcfg Httl e gs gs' i g' Hg E Hi') as (g&Hi&Ein&_). rewrite Ein.
    assert (part_before g g') as Hb.
    { destruct (step_before cfg pcfg e gs gs' E) as [Er|(j&gj&gj'&Hj&Er&Hb)]; rewrite Er in Hi'.
      - rewrite Hi in Hi'. injection Hi' as <-. by apply part_before_same.
      - apply list_lookup_insert_Some in Hi' as [(->&<-&_)|[_ Hi']]; [|rewrite Hi in Hi'; injection Hi' as <-; by apply part_before_same].
        rewrite Hi in Hj. injection Hj as <-. destruct Hb as [Hb|Hb]; [by destruct (Hne i)|done]. }
    destruct (Hb st' Hst' Hpart) as (st&Hst&Hp&->&->&->). apply (Hgiven i g st Hi Hst). congruence.
  - intros i g' Hi'. eapply (sim_taught_step e gs gs' T i g'); try done. intros g Hi. by apply (Htaught i g).
  - intros k x Hx. apply (step_talks e gs gs' Hg E). by eapply Htalk.
Qed.

(** *** Keys name conversations *)

Lemma turn_of_messages r t : turn_of cfg r = Some t → Forall canonical_text (t_messages t).
Proof. unfold turn_of. destruct (_ && _); [|done]. bind_some cms Hc. intros [= <-]. by eapply chat_messages_texts. Qed.

Lemma talks_canonical gs k : gate_ok pcfg gs → k ∈ talks cfg gs → Forall canonical_text k.2.
Proof.
  intros Hg (i&g&Hi&Hk)%elem_of_talks. destruct (go_proc pcfg gs i g Hg Hi) as (p&_&Hr). revert Hk. unfold talks_of.
  destruct (turn_of cfg (g_in g)) as [t|] eqn:Et; [|by intros ?%elem_of_nil]. apply turn_of_messages in Et.
  intros [->|(r&->&Hin)%list_elem_of_fmap]%elem_of_cons; [by apply Forall_take|].
  apply Forall_app. split; [done|]. apply Forall_singleton. pose proof (ro_ans g p Hr) as Ha. rewrite Forall_forall in Ha. by apply Ha.
Qed.

Lemma talk_key_inj gs k k' : gate_ok pcfg gs → ¬ collision cfg gs → k ∈ talks cfg gs → k' ∈ talks cfg gs → key k = key k' → k = k'.
Proof.
  intros Hg Hn Hk Hk' [= E1 E2]. assert (¬ confused k k') as Hc.
  { intros Hc. apply Hn. apply Exists_exists. exists k. split; [done|]. apply Exists_exists. by exists k'. }
  apply HashBytes_inj in E1 as [E1|?]; [|by destruct Hc; left].
  apply HistoryHash_inj in E2 as [E2|?]; [|by destruct Hc; right|by eapply talks_canonical..].
  destruct k, k'. cbn in *. by subst.
Qed.

(** *** One step *)

Definition turns (rs : list incoming) : list (option turn) := turn_of cfg <$> rs.

Lemma turn_at_req rs gs T i g : sim_reqs rs gs T → reqs gs !! i = Some g → turn_at (turns rs) i = turn_of cfg (g_in g).
Proof. intros Hs Hi. unfold turn_at, turns. rewrite <-(sim_in rs gs T Hs), !list_lookup_fmap, Hi. done. Qed.

(** The session of an arriving request is one the table gives. *)
Lemma serve_session gs gs' T rs i g t s0 : gate_ok pcfg gs' → ¬ collision cfg gs' →
  sim_reqs rs gs T → sim_store s0 T → reqs gs !! i = Some g → g_arrived g = false → turn_of cfg (g_in g) = Some t →
  (∀ k, k ∈ talks cfg gs → k ∈ talks cfg gs') →
  let x := SessionID (resolution (t_uuid t) (t_session t) (t_messages t)
    (GetSession (HashBytes (t_credential t)) (HistoryHash (but_last (t_messages t))) s0).2) in
  table_step (turns rs) loses T (Serve i x) (give T i x).
Proof.
  intros Hg' Hn Hreqs [Hkn Hex] Hi Ha Ht Hsub x. pose proof (sim_new rs gs T Hreqs i g Hi Ha) as Hnew.
  pose proof (turn_at_req rs gs T i g Hreqs Hi) as Hat. rewrite Ht in Hat.
  assert (x = session_for T t → table_step (turns rs) loses T (Serve i x) (give T i x)) as Hexact.
  { intros Hx. apply step_exact. cbn [table_exec]. rewrite Hat. cbn [mbind option_bind]. by rewrite decide_True. }
  unfold x, resolution, session_for in *. destruct (decide (t_session t ≠ [])) as [|Hs]; [by apply Hexact|].
  assert (t_session t = []) as Hs0 by (by destruct (t_session t); [|destruct Hs]).
  destruct (1 <? length (t_messages t))%nat; [|by destruct (GetSession _ _ _).2 as [[?|]|]; apply Hexact].
  assert (history t ∈ talks cfg gs') as Hh.
  { apply Hsub, elem_of_talks. exists i, g. split; [done|]. unfold talks_of. rewrite Ht. by left. }
  destruct (GetSession _ _ s0) as [s1 r] eqn:E. cbn [snd] in *. destruct r as [[id|]|err]; cbn [SessionID] in *.
  - apply GetSession_found, Hkn in E as (k&Hk&HT); [|apply HashBytes_colon].
    assert (k = history t) as ->; [|apply Hexact; by rewrite HT].
    eapply (talk_key_inj gs'); try done. apply Hsub. by eapply sim_talk.
  - destruct loses eqn:El; [by apply step_miss|]. apply Hexact. destruct (Hll eq_refl) as [Hlo _], (Hex eq_refl) as [Hr Hsome].
    pose proof (ll_get _ Hlo (HashBytes (t_credential t)) (HistoryHash (but_last (t_messages t))) s0 Hr) as Hget. rewrite E in Hget. injection Hget as Hget.
    destruct (conversations T !! history t) as [y|] eqn:Ey; [|done]. destruct (Hsome _ _ Ey) as [z Hz]. by pose proof (eq_trans Hget Hz).
  - destruct loses eqn:El; [by apply step_miss|]. destruct (Hll eq_refl) as [Hlo _], (Hex eq_refl) as [Hr _].
    pose proof (ll_get _ Hlo (HashBytes (t_credential t)) (HistoryHash (but_last (t_messages t))) s0 Hr) as Hget. by rewrite E in Hget.
Qed.

Record sim (rs : list incoming) gs T : Prop := {
  sim_gate : gate_ok pcfg gs;
  sim_r : sim_reqs rs gs T;
  sim_s : sim_store (store (pool gs)) T;
}.

(** What the table does at a step that may be silent. *)
Definition follows (rs : list incoming) T (l : option label) T' : Prop :=
  match l with Some l => table_step (turns rs) loses T l T' | None => T' = T end.

Lemma step_run e gs gs' : gate_ok pcfg gs → gexec cfg pcfg e gs = Some gs' → ∃ ops, store (pool gs') = run ops (store (pool gs)).
Proof. intros Hg E. apply pool_steps_run. eapply gexec_pool; [by eapply gate_colon|done]. Qed.

Lemma sim_arrive i gs gs' T rs : sim rs gs T → gate_ok pcfg gs' → ¬ collision cfg gs' → gexec cfg pcfg (GArrive i) gs = Some gs' →
  ∃ T', follows rs T (label_of cfg (GArrive i) gs) T' ∧ sim rs gs' T'.
Proof.
  intros [Hg Hr Hs] Hg' Hn E. destruct (step_run _ _ _ Hg E) as [ops Eops]. pose proof (step_talks _ _ _ Hg E) as Hsub.
  pose proof (step_keeps cfg pcfg _ _ _ Hg E ltac:(done)) as Hk. pose proof (sim_store_keeps ops _ _ T Hk Eops Hs) as Hs'.
  pose proof (sim_in_step _ _ _ rs Hg E (sim_in _ _ _ Hr)) as Hin'. pose proof E as E0. revert E0. cbn [gexec label_of].
  bind_some g Hi. cbn [mbind option_bind]. destruct (g_arrived g) eqn:Ha; [done|].
  pose proof (ServeHTTP_turn cfg (g_in g) (store (pool gs)) Hmax) as Hturn.
  destruct (ServeHTTP cfg (in_rid (g_in g)) (in_uuid (g_in g)) (in_req (g_in g)) (store (pool gs))) as [s d]. cbn [snd] in *. intros [= Egs].
  assert (reqs gs' = <[i := arrived g d]> (reqs gs)) as Er by by rewrite <-Egs.
  assert (g_arrived (arrived g d) = true ∧ answers (arrived g d) = answers g) as [Har Hans] by by destruct d.
  assert (∀ T', (∀ j, j ≠ i → given T' !! j = given T !! j) → conversations T' = conversations T → taught T' = taught T →
    (∀ st, g_st (arrived g d) = Some st → participate st = true → ∃ t, turn_of cfg (g_in g) = Some t ∧
       clientHash st = HashBytes (t_credential t) ∧ canonMsgs st = t_messages t ∧ given T' !! i = Some (sessionID st)) →
    sim_store (store (pool gs')) T' → sim rs gs' T') as Hsim.
  { intros T' Hgiven Hcv Htt Hst Hsto. split; [done| |done]. destruct Hr as [_ Hnew Hgv Ht Htk]. split; [done| | | |].
    - intros j gj. rewrite Er. intros [(->&<-&_)|[Hne Hj]]%list_lookup_insert_Some; [by rewrite Har|]. rewrite Hgiven by done. by apply Hnew.
    - intros j gj st. rewrite Er. intros [(->&<-&_)|[Hne Hj]]%list_lookup_insert_Some.
      + intros Hst' Hp. replace (g_in (arrived g d)) with (g_in g) by by destruct d. by apply Hst.
      + rewrite Hgiven by done. by apply Hgv.
    - intros j gj Hj. rewrite Htt. eapply (sim_taught_step _ gs gs' T j gj Hg Hg' E); [|done]. intros gj0. by apply Ht.
    - intros k x. rewrite Hcv. intros Hx. apply Hsub. by eapply Htk. }
  destruct (turn_of cfg (g_in g)) as [t|] eqn:Et.
  - destruct Hturn as (r'&st&->&Hpart&Hc&Hm&Hhd&Hid). rewrite Hpart. exists (give T i (Get (Header_ r') h_Session)). split.
    + rewrite Hhd, Hid. eapply (serve_session gs gs'); try done.
      eapply (sim_store_keeps [OpRecord (Inc (Requests (str "chat")))]); [apply keeps_record, keeps_refl|done|done].
    + apply Hsim; try done.
      * intros j Hne. cbn. by rewrite lookup_insert_ne.
      * intros st' [= <-] _. exists t. split_and!; try done. cbn [given give]. rewrite lookup_insert_eq. by f_equal.
      * by destruct Hs'.
  - exists T. split; [|apply Hsim; try done; intros st Hst Hp; destruct d as [|r' [st'|]]; try done; injection Hst as <-; by rewrite (Hturn r' st') in Hp].
    destruct d as [|r' [st'|]]; try done. by rewrite (Hturn r' st').
Qed.

Lemma sim_map i gs gs' T rs : sim rs gs T → gate_ok pcfg gs' → gexec cfg pcfg (GMap i) gs = Some gs' →
  ∃ T', follows rs T (label_of cfg (GMap i) gs) T' ∧ sim rs gs' T'.
Proof.
  intros [Hg Hr Hs] Hg' E. destruct (step_run _ _ _ Hg E) as [ops Eops]. pose proof (step_talks _ _ _ Hg E) as Hsub.
  destruct (map_step cfg pcfg i gs gs' Hg E) as (g&st&a&Hi&Hst&Hpart&Ha&(r&Hin&Hra)&Es&Er).
  destruct (sim_given _ _ _ Hr i g st Hi Hst Hpart) as (t&Ht&Hc&Hm&Hgiven).
  pose proof (turn_at_req rs gs T i g Hr Hi) as Hat. rewrite Ht in Hat.
  assert (i ∉ taught T) as Hnt by (intros Hti; destruct (sim_taught _ _ _ Hr i g Hi Hti); congruence).
  pose proof (sim_reqs_step _ _ _ T rs Hg Hg' E ltac:(done) Hr) as Hr'.
  cbn [label_of]. rewrite Hi. cbn [mbind option_bind]. rewrite Ha. cbn [mbind option_bind follows].
  assert (∀ T', given T' = given T → taught T' = {[i]} ∪ taught T →
    (∀ k x, conversations T' !! k = Some x → k = extended t a ∨ conversations T !! k = Some x) →
    sim_store (store (pool gs')) T' → sim rs gs' T') as Hsim.
  { intros T' Egv Ett Hcv Hsto. split; [done| |done]. destruct Hr' as [Hin' Hnew' Hgv' Ht' Htk']. split; [done|by rewrite Egv..| |].
    - intros j gj Hj. rewrite Ett, elem_of_union, elem_of_singleton. intros [->|Hti]; [|by apply (Ht' j gj)].
      rewrite Er, list_lookup_insert_eq in Hj by (by eapply lookup_lt_Some). injection Hj as <-. split; [|done].
      cbn. intros En. rewrite En in Hin. by apply elem_of_nil in Hin.
    - intros k x [->|Hx]%Hcv; [|by eapply Htk']. apply Hsub, elem_of_talks. exists i, g. split; [done|].
      unfold talks_of. rewrite Ht. right. apply list_elem_of_fmap. exists r. by rewrite Hra. }
  destruct (sim_store_learn ops st a _ _ T t i Es Eops Hc Hm Hs) as [Hsto|[Hl Hsto]].
  - exists (teach T i (extended t a) (sessionID st)). split.
    + apply step_exact. cbn [table_exec]. rewrite Hat. cbn [mbind option_bind]. rewrite Hgiven. cbn [mbind option_bind]. by rewrite decide_False.
    + apply Hsim; [done|done| |done]. intros k x. cbn. intros [[<- _]|[_ Hx]]%lookup_insert_Some; [by left|by right].
  - exists (mark T i). split; [by eapply step_lose|]. apply Hsim; [done|done| |done]. by right.
Qed.

Lemma sim_step e gs gs' T rs : sim rs gs T → ¬ collision cfg gs' → gexec cfg pcfg e gs = Some gs' →
  ∃ T', follows rs T (label_of cfg e gs) T' ∧ sim rs gs' T'.
Proof.
  intros Hs Hn E. pose proof (gate_step cfg pcfg Httl ltac:(lia) e gs gs' (sim_gate _ _ _ Hs) E) as Hg'.
  assert ((∃ i, e = GArrive i) ∨ (∃ i, e = GMap i) ∨ (∀ i, e ≠ GArrive i) ∧ (∀ i, e ≠ GMap i)) as [[i ->]|[[i ->]|[Ha Hm]]]
    by (destruct e; eauto; by right; right).
  - by apply (sim_arrive i gs).
  - by apply (sim_map i gs).
  - exists T. destruct Hs as [Hg Hr Hs]. destruct (step_run e gs gs' Hg E) as [ops Eops]. split.
    + destruct e; try done; [by destruct (Ha i)|by destruct (Hm i)].
    + split; [done|by apply (sim_reqs_step e gs)|]. by apply (sim_store_keeps ops (store (pool gs))); [eapply step_keeps| |].
Qed.

(** *** Runs *)

Lemma table_steps_follows rs T ls T1 l T2 : table_steps (turns rs) loses T ls T1 → follows rs T1 l T2 →
  table_steps (turns rs) loses T (ls ++ option_list l) T2.
Proof. destruct l as [l|]; cbn; [by apply steps_snoc|]. intros Hs ->. by rewrite app_nil_r. Qed.

Lemma gexecs_gate es gs gs' : gate_ok pcfg gs → gexecs cfg pcfg es gs = Some gs' → gate_ok pcfg gs'.
Proof.
  revert gs. induction es as [|e es IH]; intros gs Hg; cbn; [by intros [= <-]|]. bind_some gs1 E.
  apply IH. by eapply (gate_step cfg pcfg Httl ltac:(lia)).
Qed.

Lemma sim_run rs gs0 es gs : sim rs gs0 no_table → gexecs cfg pcfg es gs0 = Some gs → ¬ collision cfg gs →
  ∃ T, table_steps (turns rs) loses no_table (trace cfg pcfg es gs0) T ∧ sim rs gs T.
Proof.
  intros H0'. revert gs. induction es as [|e es IH] using rev_ind; intros gs.
  { intros [= <-] _. exists no_table. split; [constructor|done]. }
  rewrite gexecs_app. bind_some gs1 E1. cbn [gexecs]. bind_some gs2 E2. intros [= <-] Hn.
  assert (gate_ok pcfg gs1) as Hg1 by (eapply gexecs_gate; [by eapply sim_gate|done]).
  destruct (IH gs1 eq_refl) as (T&HT&Hs). { intros Hc. apply Hn. eapply collision_mono; [by eapply step_talks|done]. }
  destruct (sim_step e gs1 gs2 T rs Hs Hn E2) as (T'&Hf&Hs'). exists T'. split; [|done].
  rewrite (trace_snoc cfg pcfg es e gs0 gs1 E1). by eapply table_steps_follows.
Qed.

Lemma sim_init s0 n rs : NoDup (map in_rid rs) → (∀ rid, rid ∈ map in_rid rs → ∀ k d, ¬ page_at s0 rid k d) →
  (∀ c h, session_at s0 c h = None) → (loses = false → rel s0) → sim rs (ginit pcfg s0 n rs) no_table.
Proof.
  intros Hnd Hp Hs0 Hrel. split; [by apply ginit_ok| |].
  - assert (∀ i g, new_greq <$> rs !! i = Some g → g_st g = None) as Hst by (intros i g; destruct (rs !! i); [|done]; by intros [= <-]).
    split; cbn; change (map new_greq rs) with (new_greq <$> rs).
    + rewrite <-list_fmap_compose. apply list_fmap_id.
    + done.
    + intros i g st. rewrite list_lookup_fmap. intros Hg. by rewrite (Hst i g).
    + intros i g _ Hin. by apply not_elem_of_empty in Hin.
    + intros k x. by rewrite lookup_empty.
  - split; cbn; [intros c h x _; by rewrite Hs0|]. intros Hl. split; [by apply Hrel|]. intros k x. by rewrite lookup_empty.
Qed.
End simulation.

Lemma reliable_lossless {S} `{PersistentSessions S, !ReliableStore S} : lossless (reliable (S := S)).
Proof.
  split.
  - intros c h s Hr. pose proof (reliable_GetSession c h s Hr) as Hok. destruct (GetSession c h s).2 as [r|] eqn:E; [|done].
    by rewrite (GetSession_answer c h s r E).
  - intros c h id ttl s Hr Httl. apply PutSession_stored; [done|]. by apply reliable_PutSession.
  - intros ops s Hr. by apply run_reliable.
Qed.

Section redis.
Context {W : Type} `{redis_laws W, !redis_persistent W}.
Context (cfg : Config.Config) (pcfg : Collector.Config).
Context (Httl : 0 < TTL pcfg) (Hmax : 0 < Config.MaxRequestBody (Config.limits cfg) < 2 ^ 63 - 1).

Lemma table_run loses rel (s0 : RedisStore W) n rs es gs :
  (loses = false → lossless rel ∧ 0 < Config.Session_TTL (Config.session_ cfg)) → (loses = false → rel s0) →
  fresh_run s0 rs → gexecs cfg pcfg es (ginit pcfg s0 n rs) = Some gs →
  collision cfg gs ∨ ∃ T, table_steps (turns cfg rs) loses no_table (trace cfg pcfg es (ginit pcfg s0 n rs)) T.
Proof.
  intros Hll Hrel (Hnd&Hp&Hs0) E. destruct (decide (Exists (λ k, Exists (confused k) (talks cfg gs)) (talks cfg gs))) as [Hc|Hc]; [by left|right].
  destruct (sim_run cfg pcfg Httl Hmax loses rel Hll rs (ginit pcfg s0 n rs) es gs) as (T&HT&_); [|done|done|by exists T].
  apply sim_init; try done.
  - intros rid Hr k d (f&_&Hf). by rewrite Hp, lookup_empty in Hf.
  - intros c h. apply Hs0.
Qed.

Lemma table_run_exact `{!redis_reliable W} (s0 : RedisStore W) n rs es gs : 0 < Config.Session_TTL (Config.session_ cfg) →
  fresh_run s0 rs → healthy (rdb s0) → gexecs cfg pcfg es (ginit pcfg s0 n rs) = Some gs →
  collision cfg gs ∨ ∃ T, table_execs (turns cfg rs) (trace cfg pcfg es (ginit pcfg s0 n rs)) no_table = Some T.
Proof.
  intros Hsttl Hf Hh E. destruct (table_run false reliable s0 n rs es gs) as [Hc|(T&HT)]; try done.
  - intros _. split; [apply reliable_lossless|done].
  - by left.
  - right. exists T. by apply table_steps_exact.
Qed.
End redis.

(** ** Properties *)

(** [C1] The gateway implements the table of conversations.  In every interleaving
    of any number of requests, page workers and finalizers, over a Redis whose
    operations may fail but whose pages do not expire: what can be seen of the run - the session each request is
    forwarded with, the answers whose mapping is written, in their order - is a run
    of the table, in which a request is given the session it names, or the one the
    table has for exactly its credential and earlier messages, or a new one, and an
    answer enters under the session of its request, at most once - up to missed
    look-ups and lost answers; or two conversations of the run are an explicit
    SHA-256 collision. *)
Theorem gateway_table {W} `{redis_laws W, !redis_persistent W} cfg pcfg (s0 : RedisStore W) n rs es gs :
  0 < TTL pcfg → 0 < Config.MaxRequestBody (Config.limits cfg) < 2 ^ 63 - 1 → fresh_run s0 rs →
  gexecs cfg pcfg es (ginit pcfg s0 n rs) = Some gs →
  collision cfg gs ∨ ∃ T, table_steps (turns cfg rs) true no_table (trace cfg pcfg es (ginit pcfg s0 n rs)) T.
Proof. intros Httl Hmax. by apply (table_run cfg pcfg Httl Hmax true (λ _, True)). Qed.

(** [C2] Over a Redis that answers and forgets nothing nothing is missed and nothing
    is lost: the run is the run of the table as a function, so the order in which
    requests arrive and mappings are written determines every session, whatever the
    pages, the workers and the finalizers do in between. *)
Theorem gateway_table_exact {W} `{redis_laws W, !redis_persistent W, !redis_reliable W} cfg pcfg (s0 : RedisStore W) n rs es gs :
  0 < TTL pcfg → 0 < Config.MaxRequestBody (Config.limits cfg) < 2 ^ 63 - 1 →
  0 < Config.Session_TTL (Config.session_ cfg) → fresh_run s0 rs → healthy (rdb s0) →
  gexecs cfg pcfg es (ginit pcfg s0 n rs) = Some gs →
  collision cfg gs ∨ ∃ T, table_execs (turns cfg rs) (trace cfg pcfg es (ginit pcfg s0 n rs)) no_table = Some T.
Proof. intros Httl Hmax. by apply table_run_exact. Qed.

(** [C3] A conversation is a thread of one session.  Whenever, in a run over such a
    Redis, a request was forwarded with a session, its answer was mapped, and later
    a request arrives that has the same credential, names no session and continues
    the first with that answer and one message more, it is forwarded with the same
    session - whatever other requests, answers and finalizers come in between,
    unless one of them is itself an answer to the very same conversation. *)
Theorem conversation_thread {W} `{redis_laws W, !redis_persistent W, !redis_reliable W} cfg pcfg (s0 : RedisStore W) n rs es gs
    ls1 ls2 ls3 ls4 i x t a u j y t' :
  0 < TTL pcfg → 0 < Config.MaxRequestBody (Config.limits cfg) < 2 ^ 63 - 1 →
  0 < Config.Session_TTL (Config.session_ cfg) → fresh_run s0 rs → healthy (rdb s0) →
  gexecs cfg pcfg es (ginit pcfg s0 n rs) = Some gs →
  trace cfg pcfg es (ginit pcfg s0 n rs) = ls1 ++ Serve i x :: ls2 ++ Learn i a :: ls3 ++ Serve j y :: ls4 →
  turn_at (turns cfg rs) i = Some t → turn_at (turns cfg rs) j = Some t' →
  t_session t' = [] → t_credential t' = t_credential t → t_messages t' = t_messages t ++ [a; u] →
  Forall (λ l, ¬ teaches (turns cfg rs) (extended t a) l) ls3 →
  collision cfg gs ∨ y = x.
Proof.
  intros Httl Hmax Hsttl Hf Hh E Etr Hi Hj Hs Hc Hm Hls.
  destruct (table_run_exact cfg pcfg Httl Hmax s0 n rs es gs Hsttl Hf Hh E) as [?|[T HT]]; [by left|right].
  rewrite Etr in HT. replace (ls1 ++ Serve i x :: ls2 ++ Learn i a :: ls3 ++ Serve j y :: ls4)
    with ((ls1 ++ Serve i x :: ls2 ++ Learn i a :: ls3 ++ [Serve j y]) ++ ls4) in HT by (rewrite <-!app_assoc; cbn; by rewrite <-!app_assoc; cbn; rewrite <-!app_assoc).
  rewrite table_execs_app in HT. destruct (table_execs _ _ no_table) as [T1|] eqn:E1; [|done].
  exact (table_continues (turns cfg rs) ls1 ls2 ls3 i x t a u j y t' T1 E1 Hi Hj Hs Hc Hm Hls).
Qed.

(** Two turns of a conversation: the second arrives while the first is still open. *)
Definition thread_events : list gevent := ram_events ++ [GArrive 1].
Definition thread_end : gstate (RedisStore MemRedis) := default ram_start (gexecs sample_gateway ram_cfg thread_events ram_start).
Definition thread_answer : bytes := render WriteString (text_message (concat two_pieces)).
Definition thread_turns : list (option turn) := turns sample_gateway [run_request; second_turn].
Definition no_turn : turn := {| t_credential := []; t_session := []; t_messages := []; t_uuid := [] |}.

Lemma thread_run : gexecs sample_gateway ram_cfg thread_events ram_start = Some thread_end.
Proof. apply succeeds_default. vm_compute. reflexivity. Qed.

Lemma thread_trace : trace sample_gateway ram_cfg thread_events ram_start = [Serve 0 (str "S1"); Learn 0 thread_answer; Serve 1 (str "S1")].
Proof. vm_compute. reflexivity. Qed.

Lemma thread_collision : ¬ collision sample_gateway thread_end.
Proof. apply (bool_decide_unpack (¬ Exists (λ k, Exists (confused k) (talks sample_gateway thread_end)) (talks sample_gateway thread_end))). vm_compute. exact I. Qed.

Lemma gateway_table_witness : collision sample_gateway thread_end ∨
  ∃ T, table_steps thread_turns true no_table [Serve 0 (str "S1"); Learn 0 thread_answer; Serve 1 (str "S1")] T.
Proof.
  rewrite <-thread_trace.
  exact (gateway_table sample_gateway ram_cfg mem_store 1 [run_request; second_turn] thread_events thread_end
    ltac:(vm_compute; reflexivity) ltac:(split; vm_compute; reflexivity) turns_fresh thread_run).
Defined.

Lemma gateway_table_exact_witness : ∃ T, table_execs thread_turns [Serve 0 (str "S1"); Learn 0 thread_answer; Serve 1 (str "S1")] no_table = Some T.
Proof.
  rewrite <-thread_trace.
  destruct (gateway_table_exact sample_gateway ram_cfg mem_store 1 [run_request; second_turn] thread_events thread_end
    ltac:(vm_compute; reflexivity) ltac:(split; vm_compute; reflexivity) ltac:(vm_compute; reflexivity) turns_fresh
    ltac:(vm_compute; reflexivity) thread_run) as [Hc|HT]; [|exact HT].
  exfalso. exact (thread_collision Hc).
Defined.

Lemma conversation_thread_witness : collision sample_gateway thread_end ∨ str "S1" = str "S1".
Proof.
  apply (conversation_thread sample_gateway ram_cfg mem_store 1 [run_request; second_turn] thread_events thread_end
    [] [] [] [] 0 (str "S1") (default no_turn (turn_at thread_turns 0)) thread_answer
    (default [] (last (t_messages (default no_turn (turn_at thread_turns 1))))) 1 (str "S1") (default no_turn (turn_at thread_turns 1))).
  - vm_compute. reflexivity.
  - split; vm_compute; reflexivity.
  - vm_compute. reflexivity.
  - exact turns_fresh.
  - vm_compute. reflexivity.
  - exact thread_run.
  - exact thread_trace.
  - vm_compute. reflexivity.
  - vm_compute. reflexivity.
  - vm_compute. reflexivity.
  - vm_compute. reflexivity.
  - vm_compute. reflexivity.
  - constructor.
Defined.
