(* ===== verification/Lifecycle.v ===== *)
(** * [cmd/ocgate/main.go]: start-up, routing, the workers' life

    What the main function builds before it serves ([main_startup]: logger, store
    and ping, pool, reverse proxy, warnings) and how it ends if it cannot; the
    routes of its [http.ServeMux] as Go 1.22 and later match them, segment by decoded
    segment; and when page workers stay and leave.  The HTTP server is outside: a
    request is its target, method and escaped path; CONNECT, which the mux treats
    apart, is not modelled.  The shutdown sequence is Shutdown.v. *)
From S2P Require Import Prelude GoBytes Json NetUrl UrlFacts Metrics Store Session Collector Pool Proxy Outbound Gateway GatewaySafety Provenance.
From S2P Require Config.

(** ** Start-up *)

Inductive slog_level : Type := LevelDebug | LevelInfo | LevelWarn | LevelError.

Definition buildLogger (level : bytes) : slog_level :=
  if bool_decide (level = str "debug") then LevelDebug
  else if bool_decide (level = str "warn") then LevelWarn
  else if bool_decide (level = str "error") then LevelError
  else LevelInfo.

(** The warning about the two times to live. *)
Definition ttl_warning (cfg : Config.Config) : bool :=
  Config.Session_TTL (Config.session_ cfg) <=? Config.Cache_TTL (Config.response_cache cfg).

(** [int] is 64 bits wide. *)
Definition pool_config (cfg : Config.Config) : Collector.Config := {|
  PageSize := Config.PageSize (Config.response_cache cfg);
  TTL := Config.Cache_TTL (Config.response_cache cfg);
  OpTimeout := Config.Timeout (Config.redis_ cfg);
  MaxPendingPages := Config.MaxPendingPages (Config.response_cache cfg) |}.

(** [main.version], which a build may override. *)
Definition version : bytes := str "dev".

Inductive warning : Type := WarnTTL | WarnRedis.

(** A logger whose level is above a warning drops it. *)
Definition Warn (level : slog_level) (w : warning) : list warning :=
  match level with LevelError => [] | _ => [w] end.

(** What [main] has built when it starts to serve. *)
Record instance (W : Type) : Type := {
  i_cfg : Config.Config;
  i_level : slog_level;
  i_warnings : list warning;
  i_store : RedisStore W;
  i_pool : Collector.Config;
  i_workers : nat;
  i_proxy : ReverseProxy;
  i_listen : bytes;
}.
Arguments i_cfg {W}. Arguments i_level {W}. Arguments i_warnings {W}. Arguments i_store {W}.
Arguments i_pool {W}. Arguments i_workers {W}. Arguments i_proxy {W}. Arguments i_listen {W}.

(** It prints its version, exits with an error, or serves. *)
Inductive startup (W : Type) : Type := PrintVersion (line : bytes) | ExitLoad (e : Config.config_error) | ExitURL | Serve (i : instance W).
Arguments PrintVersion {W}. Arguments ExitLoad {W}. Arguments ExitURL {W}. Arguments Serve {W}.

Definition main_startup {W} `{redis W} (NewClient : Options → W) (showVersion : bool) (load : result Config.config_error Config.Config) : startup W :=
  if showVersion then PrintVersion (str "opgate " ++ version ++ [10])
  else match load with
    | Err e => ExitLoad e
    | Ok cfg =>
      let level := buildLogger (Config.Level (Config.logging cfg)) in
      let ttl_w := if ttl_warning cfg then Warn level WarnTTL else [] in
      let r := Config.redis_ cfg in
      let rs := NewRedisStore NewClient (Config.Addr r) (Config.DB r) (Config.Timeout r) [] in
      let '(rs, ping) := redis_Ping rs in
      let redis_w := match ping with Err _ => Warn level WarnRedis | Ok _ => [] end in
      match Parse (Config.BaseURL (Config.upstream cfg)) with
      | None => ExitURL
      | Some up => Serve {|
          i_cfg := cfg; i_level := level; i_warnings := ttl_w ++ redis_w; i_store := rs; i_pool := pool_config cfg;
          i_workers := Z.to_nat (Config.Workers (Config.response_cache cfg)); i_proxy := NewHandler up;
          i_listen := Config.Listen (Config.server cfg) |}
      end
    end.

(** The state the server starts in: the pool with its workers, over a store. *)
Definition main_start {S} `{SessionStore S, TempPageStore S, Metered S} (cfg : Config.Config) (s : S) (rs : list incoming) : gstate S :=
  ginit (pool_config cfg) s (Z.to_nat (Config.Workers (Config.response_cache cfg))) rs.

(** ** Routing *)

(** [path.Clean] of a rooted path, by components: empty ones and dots vanish, two
    dots remove the component before them. *)
Definition clean_step (acc : list bytes) (comp : bytes) : list bytes :=
  if bool_decide (comp = [] ∨ comp = str ".") then acc
  else if bool_decide (comp = str "..") then take (length acc - 1) acc
  else acc ++ [comp].
Definition clean_components (p : bytes) : list bytes := foldl clean_step [] (Split p 47).
Definition Clean (p : bytes) : bytes := 47 :: Join (clean_components p) [47].

(** [cleanPath] keeps a trailing slash. *)
Definition cleanPath (p : bytes) : bytes :=
  let p := match p with 47 :: _ => p | _ => 47 :: p end in
  let np := Clean p in
  if bool_decide (last p = Some 47 ∧ np ≠ [47]) then np ++ [47] else np.

(** [GlobalOptions] is the server's own answer to [OPTIONS *], given before the mux
    is asked; [Redirect] carries the path of the URL redirected to. *)
Inductive destination : Type :=
| BadRequest
| NotFound
| GlobalOptions
| MetricsPage
| Healthz
| Redirect (path : bytes)
| ToGateway.

(** [net/http]'s [pathUnescape]: a segment that does not decode stays as it is. *)
Definition pathUnescape (seg : bytes) : bytes := default seg (unescape encodePath seg).

(** [firstSegment]: the decoded text up to the next slash, and the rest from that
    slash on; a final slash is a segment of its own. *)
Definition firstSegment (path : bytes) : bytes * bytes :=
  if bool_decide (path = [47]) then ([47], [])
  else
    let path := drop 1 path in
    let i := default (length path) (IndexByte path 47) in
    (pathUnescape (take i path), drop i path).

(** The tree of the three patterns, matched as [routingNode.matchPath] does: a
    literal leaf needs its text, decoded, as the last segment; [/] takes the rest. *)
Definition match_pattern (path : bytes) : destination :=
  match path with
  | [] => NotFound
  | _ =>
    let '(seg, rest) := firstSegment path in
    if bool_decide (seg = str "metrics" ∧ rest = []) then MetricsPage
    else if bool_decide (seg = str "healthz" ∧ rest = []) then Healthz
    else ToGateway
  end.

(** A request that is not CONNECT: its target, method and escaped path.  The mux
    treats CONNECT separately ([None]: not modelled). *)
Definition route (requestURI method escaped : bytes) : option destination :=
  if bool_decide (requestURI = str "*" ∧ method = str "OPTIONS") then Some GlobalOptions
  else if bool_decide (requestURI = str "*") then Some BadRequest
  else if bool_decide (method = str "CONNECT") then None
  else
    let path := cleanPath escaped in
    Some (if bool_decide (path ≠ escaped) then Redirect path else match_pattern path).

(** The handler for [/healthz]. *)
Definition healthz : reply := {| code := 200; content_type := str "text/plain"; text := str "ok" ++ [10] |}.

(** The pages the program serves itself; [page] is the reply of the metrics handler. *)
Definition local_reply (page : reply) (d : destination) : option reply :=
  match d with
  | MetricsPage => Some page
  | Healthz => Some healthz
  | _ => None
  end.

(** ** Clean paths *)

Definition good_comp (c : bytes) : Prop := c ≠ [] ∧ c ≠ str "." ∧ c ≠ str ".." ∧ 47 ∉ c.

(** A rooted path of proper components, with or without a slash at its end. *)
Definition clean_path (p : bytes) : Prop :=
  p = [47] ∨ ∃ cs, cs ≠ [] ∧ Forall good_comp cs ∧ (p = 47 :: Join cs [47] ∨ p = 47 :: Join cs [47] ++ [47]).

Lemma clean_step_good acc c : Forall good_comp acc → 47 ∉ c → Forall good_comp (clean_step acc c).
Proof.
  intros Ha Hc. unfold clean_step. case_bool_decide as H1; [done|]. case_bool_decide as H2; [by apply Forall_take|].
  apply Forall_app. split; [done|]. apply Forall_singleton. unfold good_comp. tauto.
Qed.

Lemma clean_components_good p : Forall good_comp (clean_components p).
Proof.
  unfold clean_components. pose proof (Split_from_free 47 [] p (not_elem_of_nil _)) as Hl.
  change (Split_from 47 [] p) with (Split p 47) in Hl. revert Hl. generalize (Split p 47). intros comps Hl.
  assert (∀ acc, Forall good_comp acc → Forall good_comp (foldl clean_step acc comps)) as Hgen; [|by apply Hgen].
  induction Hl as [|c l Hc Hl IH]; intros acc Ha; [done|]. cbn. by apply IH, clean_step_good.
Qed.

Lemma split_slash_join cs : cs ≠ [] → Forall good_comp cs →
  Split_from 47 [] (Join cs [47]) = cs ∧ Split_from 47 [] (Join cs [47] ++ [47]) = cs ++ [[]].
Proof.
  intros Hne Hcs. induction Hcs as [|c cs (?&?&?&Hc) Hcs IH]; [done|]. destruct cs as [|c' cs].
  - cbn [Join]. by rewrite Split_from_last, Split_from_app.
  - destruct IH as [E1 E2]; [done|]. change (Join (c :: c' :: cs) [47]) with (c ++ 47 :: Join (c' :: cs) [47]).
    rewrite <-app_assoc. cbn [app]. split; rewrite Split_from_app by done; [by rewrite E1|by rewrite E2].
Qed.

Lemma clean_steps_good acc cs : Forall good_comp cs → foldl clean_step acc cs = acc ++ cs.
Proof.
  intros Hcs. revert acc. induction Hcs as [|c cs (?&?&?&_) Hcs IH]; intros acc; cbn; [by rewrite app_nil_r|].
  assert (clean_step acc c = acc ++ [c]) as ->; [|by rewrite IH, <-app_assoc].
  unfold clean_step. rewrite bool_decide_eq_false_2 by tauto. by rewrite bool_decide_eq_false_2.
Qed.

Lemma clean_components_join cs : cs ≠ [] → Forall good_comp cs →
  clean_components (47 :: Join cs [47]) = cs ∧ clean_components (47 :: Join cs [47] ++ [47]) = cs.
Proof.
  intros Hne Hcs. destruct (split_slash_join cs Hne Hcs) as [E1 E2]. unfold clean_components. unfold Split. cbn [Split_from Z.eqb Pos.eqb].
  rewrite E1, E2. cbn [foldl]. rewrite foldl_app. change (clean_step [] []) with (@nil bytes). by rewrite clean_steps_good.
Qed.

Lemma Join_last cs : cs ≠ [] → Forall good_comp cs → ∃ b, last (Join cs [47]) = Some b ∧ b ≠ 47.
Proof.
  intros Hne Hcs. induction Hcs as [|c cs (Hc&_&_&H47) Hcs IH]; [done|]. destruct cs as [|c' cs].
  - cbn [Join]. destruct c as [|b t _] using rev_ind; [done|]. exists b. rewrite last_snoc. split; [done|]. set_solver.
  - destruct IH as (b&E&Hb); [done|]. exists b. split; [|done].
    change (Join (c :: c' :: cs) [47]) with (c ++ [47] ++ Join (c' :: cs) [47]). by rewrite !last_app, E.
Qed.

Lemma Join_nil_inv cs : Forall good_comp cs → 47 :: Join cs [47] = [47] → cs = [].
Proof. intros Hcs E. destruct Hcs as [|c cs (Hc&_) Hcs]; [done|]. exfalso. by destruct c, cs. Qed.

Lemma cleanPath_clean p : clean_path (cleanPath p).
Proof.
  assert (∀ p0, clean_path (if bool_decide (last p0 = Some 47 ∧ Clean p0 ≠ [47]) then Clean p0 ++ [47] else Clean p0)) as Hgen.
  { intros p0. pose proof (clean_components_good p0) as Hg. unfold Clean, clean_path.
    destruct (decide (clean_components p0 = [])) as [E|Hne].
    + left. rewrite E. cbn. case_bool_decide as Hd; [by destruct Hd|done].
    + right. exists (clean_components p0). split_and!; [done..|]. case_bool_decide; [right|left]; by norm_app. }
  apply Hgen.
Qed.

(** The clean paths are those [cleanPath] leaves alone. *)
Lemma cleanPath_fixed p : cleanPath p = p ↔ clean_path p.
Proof.
  split.
  - intros <-. apply cleanPath_clean.
  - intros [->|(cs&Hne&Hcs&[->| ->])]; [done| |]; unfold cleanPath, Clean; destruct (clean_components_join cs Hne Hcs) as [E1 E2].
    + rewrite E1. rewrite bool_decide_eq_false_2; [done|]. intros [Hl _]. destruct (Join_last cs Hne Hcs) as (b&Eb&Hb).
      rewrite last_cons, Eb in Hl. congruence.
    + rewrite E2. rewrite bool_decide_eq_true_2; [by norm_app|]. split.
      * by rewrite app_comm_cons, last_snoc.
      * intros E. by apply Hne, Join_nil_inv.
Qed.

(** A spelling of a page's name: one segment that decodes to it. *)
Definition spells (name p : bytes) : Prop := ∃ seg, p = 47 :: seg ∧ 47 ∉ seg ∧ pathUnescape seg = name.

Lemma firstSegment_spells name p : name ≠ [47] → name ≠ [] → clean_path p →
  firstSegment p = (name, []) ↔ spells name p.
Proof.
  intros Hs Hne Hp. assert (∃ seg, p = 47 :: seg) as [seg ->] by (destruct Hp as [->|(cs&_&_&[->| ->])]; eauto).
  unfold firstSegment. case_bool_decide as E.
  - injection E as ->. split; [by intros [= <-]|]. intros (?&[= <-]&_&He). by subst name.
  - change (drop 1 (47 :: seg)) with seg. unfold spells. destruct (IndexByte seg 47) as [i|] eqn:Ei; cbn [default from_option id].
    + apply IndexByte_Some in Ei as [_ Hi]. split.
      * intros [= _ Hd]. apply lookup_lt_Some in Hi. apply (f_equal length) in Hd. rewrite length_drop in Hd. cbn in Hd. lia.
      * intros (?&[= <-]&Hn&_). destruct Hn. by eapply list_elem_of_lookup_2.
    + apply IndexByte_None in Ei. rewrite firstn_all, drop_all. split; [intros [= <-]; eauto|].
      by intros (?&[= <-]&_&->).
Qed.

Lemma match_pattern_clean p : clean_path p →
  (match_pattern p = ToGateway ↔ ¬ spells (str "metrics") p ∧ ¬ spells (str "healthz") p) ∧
  (match_pattern p = MetricsPage ↔ spells (str "metrics") p) ∧
  (match_pattern p = Healthz ↔ spells (str "healthz") p).
Proof.
  intros Hp. rewrite <-!(firstSegment_spells _ p) by done.
  assert (p ≠ []) as Hne by (by destruct Hp as [->|(cs&_&_&[->| ->])]). destruct p as [|b p]; [done|].
  unfold match_pattern. destruct (firstSegment (b :: p)) as [seg rest]. rewrite !pair_equal_spec.
  case_bool_decide as H1; [|case_bool_decide as H2]; split_and!; try naive_solver; destruct H1 as [-> ->] || destruct H2 as [-> ->]; naive_solver.
Qed.

(** ** The page workers' life *)

Section workers.
Context {S : Type} `{SessionStore S, TempPageStore S, Metered S}.
Context (pcfg : Collector.Config).
Implicit Types (st : @state S).

(** Only [Stop] cancels, nothing takes it back, and workers leave only then. *)
Lemma exec_workers e st st' : exec pcfg e st = Some st' →
  (cancelled st = true → cancelled st' = true) ∧ (cancelled st' = false → workers st' = workers st).
Proof. intros E. step_cases E; cbn; auto; done. Qed.

Lemma execs_workers es st st' : execs pcfg es st = Some st' →
  (cancelled st = true → cancelled st' = true) ∧ (cancelled st' = false → workers st' = workers st).
Proof.
  revert st. induction es as [|e es IH]; intros st; cbn [execs]; [by intros [= <-]|].
  bind_some st1 E. intros Es. destruct (exec_workers e st st1 E) as [Hc Hw], (IH st1 Es) as [Hc' Hw']. split; [auto|].
  intros Hn. rewrite Hw' by done. apply Hw. destruct (cancelled st1); [|done]. by rewrite Hc' in Hn.
Qed.

(** Idle workers leave one after the other. *)
Lemma all_exit st : cancelled st = true → busy st = [] →
  ∃ st', execs pcfg (replicate (workers st) EExit) st = Some st' ∧ workers st' = O ∧ busy st' = [].
Proof.
  intros Hc Hb. remember (workers st) as n eqn:En. revert st Hc Hb En. induction n as [|n IH]; intros st Hc Hb En.
  { exists st. done. }
  cbn [replicate execs exec]. rewrite Hc, Hb, <-En. cbn [andb length Nat.ltb Nat.leb mbind option_bind]. apply IH; done.
Qed.
End workers.

(** The gateway's steps that are a worker's. *)
Definition lift_event (e : event) : gevent :=
  match e with EPut k => GPut k | ESettle k => GSettle k | _ => GTake end.
Definition worker_gevent (e : gevent) : Prop := match e with GTake | GPut _ | GSettle _ => True | _ => False end.

Lemma lift_execs {S} `{SessionStore S, TempPageStore S, Metered S} cfg pcfg es (gs : gstate S) st' :
  Forall worker_event es → execs pcfg es (pool gs) = Some st' →
  gexecs cfg pcfg (map lift_event es) gs = Some (set_pool gs st').
Proof.
  intros Hes. revert gs. induction Hes as [|e es He Hes IH]; intros gs; cbn [execs map gexecs].
  - intros [= <-]. by destruct gs.
  - bind_some st1 E. intros Es. assert (gexec cfg pcfg (lift_event e) gs = Some (set_pool gs st1)) as ->.
    { destruct e; try done; cbn [lift_event gexec]; by rewrite E. }
    cbn [mbind option_bind]. by rewrite (IH (set_pool gs st1)).
Qed.

Lemma lift_workers es : Forall worker_event es → Forall worker_gevent (map lift_event es).
Proof. induction 1 as [|e es He Hes IH]; constructor; [by destruct e|done]. Qed.

(** A valid configuration has workers, and they stay until [Stop]. *)
Lemma workers_live {W} `{redis_laws W, !redis_persistent W} cfg (s0 : RedisStore W) rs gs :
  Config.valid cfg → Config.MaxRequestBody (Config.limits cfg) < 2 ^ 63 → fresh_run s0 rs →
  greachable cfg (pool_config cfg) s0 (Z.to_nat (Config.Workers (Config.response_cache cfg))) rs gs →
  cancelled (pool gs) = false → (0 < workers (pool gs))%nat.
Proof.
  intros Hv Hlim Hf Hreach Hcan. pose proof (Config.valid_cache cfg Hv : 0 < TTL (pool_config cfg)) as Httl.
  destruct (greachable_steps cfg (pool_config cfg) s0 _ rs gs Httl Hlim Hf Hreach) as [es Es].
  destruct (execs_workers _ _ _ _ Es) as [_ Hw]. rewrite (Hw Hcan). cbn. pose proof (Config.valid_workers cfg Hv). lia.
Qed.

(** A ping stores nothing. *)
Lemma ping_fresh {W} `{redis_laws W} (w w' : W) r ms rqs : send [PING] w = (w', r) → NoDup (map in_rid rqs) →
  (∀ k, str_at w k = None ∧ hash_at w k = ∅) → fresh_run {| rdb := w'; m := ms |} rqs.
Proof.
  intros E Hnd Hw. assert (w' = (send [PING] w).1) as -> by (by rewrite E). cbn [rdb]. split; [done|]. split.
  - intros rid _. apply map_empty. intros f. apply eq_None_not_Some. intros [x Hx]. apply send_hash in Hx as [Hx|Hx].
    + by apply list_elem_of_singleton in Hx.
    + destruct (Hw (TempKey rid)) as [_ Hk]. by rewrite Hk, lookup_empty in Hx.
  - intros k. apply eq_None_not_Some. intros [x Hx]. apply send_str in Hx as [[ttl Hx]|Hx].
    + by apply list_elem_of_singleton in Hx.
    + destruct (Hw k) as [Hk _]. congruence.
Qed.

(** ** Properties *)

(** [C14] The running gateway never wedges on its page cache: with a configuration
    that [Load] accepted, from every state reached before [Stop], page workers
    alone can bring the pool to a state from which a finalizer that waits for its
    pages goes on to read them. *)
Theorem finalizer_progress {W} `{redis_laws W, !redis_persistent W} ReadFile Unmarshal path cfg (s0 : RedisStore W) rs gs i p :
  Config.Load ReadFile Unmarshal path = Ok cfg → Config.MaxRequestBody (Config.limits cfg) < 2 ^ 63 →
  fresh_run s0 rs →
  greachable cfg (pool_config cfg) s0 (Z.to_nat (Config.Workers (Config.response_cache cfg))) rs gs →
  cancelled (pool gs) = false → procs (pool gs) !! i = Some p → (ph p = AtDone FinWait ∨ ph p = AtClose FinWait) →
  ∃ es gs', Forall worker_gevent es ∧ gexecs cfg (pool_config cfg) es gs = Some gs' ∧
    is_Some (gexec cfg (pool_config cfg) (GAssemble i) gs').
Proof.
  intros Hload Hlim Hf Hreach Hcan Hp Hph. apply Config.Load_valid in Hload.
  pose proof (Config.valid_cache cfg Hload : 0 < TTL (pool_config cfg)) as Httl.
  destruct (fresh_reachable cfg (pool_config cfg) s0 _ rs gs Httl Hlim Hf Hreach) as [Hg _].
  pose proof (workers_live cfg s0 rs gs Hload Hlim Hf Hreach Hcan) as Hwork.
  destruct (drain_all (pool_config cfg) (pool gs) (safe_ok _ _ (go_pool _ gs Hg)) Hwork) as (es&st'&Hes&E&Hq&Hb&_).
  exists (map lift_event es), (set_pool gs st'). split; [by apply lift_workers|]. split; [by apply lift_execs|].
  pose proof (execs_keep (pool_config cfg) es _ _ (safe_ok _ _ (go_pool _ gs Hg)) E) as Hok.
  destruct (workers_same_phase (pool_config cfg) es (pool gs) st' i p Hes E Hp) as (p'&Hp'&Hsame).
  assert (inflight (coll p') = 0) as Hin.
  { rewrite (po_inflight _ _ _ _ (ok_procs _ st' Hok i p' Hp')). unfold jobs. by rewrite Hq, Hb. }
  destruct (lookup_lt_is_Some_2 (reqs gs) i) as [g Hi].
  { rewrite (go_len _ gs Hg). by eapply lookup_lt_Some. }
  pose proof (go_reqs _ gs Hg i g p Hi Hp) as Hr.
  assert (∃ st, g_st g = Some st) as [st Hst].
  { destruct (decide (g_mode g = RawBody)) as [Hm|Hm].
    - destruct (ro_idle g p Hr) as [Hc _]; [by rewrite Hm|]. rewrite Hc in Hph. by destruct Hph.
    - destruct (ro_part g p Hr Hm) as (st&?&_). by exists st. }
  destruct Hsame as (Hph'&_). cbn [gexec reqs set_pool pool]. rewrite Hi. cbn [mbind option_bind]. rewrite Hp'. cbn [mbind option_bind exec].
  rewrite Hp'. cbn [mbind option_bind]. rewrite Hph', Hin. cbn [Z.eqb].
  destruct (finalize_read (coll p') (store st')) as [[s r] stats].
  destruct Hph as [-> | ->]; cbn [mbind option_bind]; unfold deliver; rewrite Hst; cbn [mbind option_bind];
    destruct (on_result _ _ _ _ _ _) as [[? ?] ?]; eauto.
Qed.

Definition demo_config : Config.Config := {|
  Config.server := Config.server Config.Default; Config.upstream := {| Config.BaseURL := str "https://up.example/v1" |};
  Config.redis_ := Config.redis_ Config.Default; Config.session_ := Config.session_ Config.Default;
  Config.response_cache := {| Config.PageSize := 100; Config.Cache_TTL := 60 * Config.second; Config.Workers := 2; Config.MaxPendingPages := 4 |};
  Config.limits := Config.limits Config.Default; Config.logging := Config.logging Config.Default |}.

Definition demo_start : gstate (RedisStore MemRedis) := main_start demo_config mem_store [run_request].
Definition demo_waiting : gstate (RedisStore MemRedis) :=
  default demo_start (gexecs demo_config (pool_config demo_config) (take 5 run_events) demo_start).
Definition demo_proc : proc := default (new_proc sample_cfg [] false) (procs (pool demo_waiting) !! 0%nat).

Lemma finalizer_progress_witness : ∃ es gs', Forall worker_gevent es ∧
  gexecs demo_config (pool_config demo_config) es demo_waiting = Some gs' ∧
  is_Some (gexec demo_config (pool_config demo_config) (GAssemble 0) gs').
Proof.
  refine (finalizer_progress (λ _, Some []) (λ _ _, Some demo_config) (str "config.yml") demo_config mem_store
    [run_request] demo_waiting 0 demo_proc _ _ run_fresh _ _ _ _).
  - vm_compute. reflexivity.
  - vm_compute. reflexivity.
  - exists (take 5 run_events). apply succeeds_default. vm_compute. reflexivity.
  - vm_compute. reflexivity.
  - apply succeeds_default. vm_compute. reflexivity.
  - left. vm_compute. reflexivity.
Defined.

Lemma elem_of_Warn (b : bool) level w : w ∈ (if b then Warn level w else []) ↔ level ≠ LevelError ∧ b = true.
Proof. destruct b, level; cbn; set_solver. Qed.

(** [C13] What [main] serves with.  Whatever the file, the decoder and Redis do, it
    either prints the version, reports what [Load] rejected, or serves; the error
    branch for the upstream URL is dead.  When it serves, the reverse proxy goes to
    an http or https URL with a host, there are workers, pages and time to live are
    positive; an unreachable Redis or times to live the wrong way round are only
    warned of, and only below level [error]; and the start-up has stored nothing:
    over an empty Redis the first state is one the theorems about runs start from. *)
Theorem main_serves {W} `{redis_laws W} NewClient v ReadFile Unmarshal path :
  match main_startup (W := W) NewClient v (Config.Load ReadFile Unmarshal path) with
  | PrintVersion _ => v = true
  | ExitLoad e => v = false ∧ Config.Load ReadFile Unmarshal path = Err e
  | ExitURL => False
  | Serve i => ∃ up, v = false ∧ Config.Load ReadFile Unmarshal path = Ok (i_cfg i) ∧
      let r := Config.redis_ (i_cfg i) in
      let w := NewClient {| Addr := Config.Addr r; DB := Config.DB r; DialTimeout := Config.Timeout r;
        ReadTimeout := Config.Timeout r; WriteTimeout := Config.Timeout r |} in
      Parse (Config.BaseURL (Config.upstream (i_cfg i))) = Some up ∧
      (Scheme up = str "http" ∨ Scheme up = str "https") ∧ Host up ≠ [] ∧ i_proxy i = NewHandler up ∧
      (0 < i_workers i)%nat ∧ 0 < PageSize (i_pool i) ∧ 0 < TTL (i_pool i) ∧ 0 < OpTimeout (i_pool i) ∧ 0 < MaxPendingPages (i_pool i) ∧
      (WarnTTL ∈ i_warnings i ↔ i_level i ≠ LevelError ∧ Config.Session_TTL (Config.session_ (i_cfg i)) <= Config.Cache_TTL (Config.response_cache (i_cfg i))) ∧
      (WarnRedis ∈ i_warnings i ↔ i_level i ≠ LevelError ∧ is_ok (send [PING] w).2 = false) ∧
      recorded (i_store i) = [] ∧
      ∀ rqs, NoDup (map in_rid rqs) → (∀ k, str_at w k = None ∧ hash_at w k = ∅) →
        fresh_run (i_store i) rqs ∧ main_start (i_cfg i) (i_store i) rqs = ginit (i_pool i) (i_store i) (i_workers i) rqs
  end.
Proof.
  unfold main_startup. destruct v; [done|]. destruct (Config.Load ReadFile Unmarshal path) as [cfg|e] eqn:E; [|done].
  apply Config.Load_valid in E as Hv. destruct (Config.valid_url cfg Hv) as (up&Hup&Hs&Hh). rewrite Hup. unfold redis_Ping.
  set (w := rdb (NewRedisStore _ _ _ _ _)). destruct (send [PING] w) as [w' r] eqn:Ep. exists up. cbn zeta. cbn [i_cfg i_proxy i_workers i_pool i_warnings i_level i_store].
  destruct Hv.
  do 6 (split; [done|]). split; [lia|]. do 4 (split; [done|]). split; [|split; [|split; [done|]]].
  - rewrite elem_of_app, elem_of_Warn. unfold ttl_warning. rewrite Z.leb_le. destruct r; unfold Warn; destruct (buildLogger _); set_solver.
  - change w with (NewClient {| Addr := Config.Addr (Config.redis_ cfg); DB := Config.DB (Config.redis_ cfg); DialTimeout := Config.Timeout (Config.redis_ cfg);
      ReadTimeout := Config.Timeout (Config.redis_ cfg); WriteTimeout := Config.Timeout (Config.redis_ cfg) |}) in Ep. rewrite Ep.
    rewrite elem_of_app. destruct r; unfold Warn; destruct (ttl_warning cfg), (buildLogger _); cbn; set_solver.
  - intros rqs Hnd Hw. split; [|done]. apply (ping_fresh w w' r _ rqs Ep Hnd). exact Hw.
Qed.

Definition demo_served : startup MemRedis :=
  main_startup (λ _, rdb mem_store) false (Config.Load (λ _, Some []) (λ _ _, Some demo_config) (str "config.yml")).
Definition served_workers {W} (s : startup W) : option nat := match s with Serve i => Some (i_workers i) | _ => None end.

Lemma main_serves_witness : ∃ i, demo_served = Serve i ∧ i_workers i = 2%nat ∧ fresh_run (i_store i) [run_request].
Proof.
  pose proof (main_serves (λ _, rdb mem_store) false (λ _, Some []) (λ _ _, Some demo_config) (str "config.yml")) as Hs.
  assert (served_workers demo_served = Some 2%nat) as Hw by (vm_compute; reflexivity).
  fold demo_served in Hs. destruct demo_served as [| | |i]; [discriminate Hw..|].
  exists i. split; [reflexivity|]. split; [injection Hw as Hw; exact Hw|].
  destruct Hs as (up&_&_&Hs). do 12 (destruct Hs as [_ Hs]). apply Hs; [|split; reflexivity].
  apply (bool_decide_unpack _). vm_compute. exact I.
Defined.

(** [C37] [Stop] returns: once the workers are cancelled, whatever is queued or
    being written, there is a run of theirs - finishing the pages they hold, then
    leaving - after which none is left, and none can come back. *)
Theorem stop_returns {W} `{redis_laws W} pcfg (s0 : RedisStore W) n rqs st :
  reachable pcfg s0 n rqs st → cancelled st = true →
  ∃ es st', Forall (λ e, worker_event e ∨ e = EExit) es ∧ execs pcfg es st = Some st' ∧ workers st' = O ∧ busy st' = [] ∧
    ∀ e st'', exec pcfg e st' = Some st'' → workers st'' = O ∧ busy st'' = [].
Proof.
  intros Hst%reachable_ok Hc. destruct (finish_all pcfg st Hst) as (es&st1&Hes&E1&_&Hb1&_).
  destruct (execs_workers pcfg es st st1 E1) as [Hc1 _].
  destruct (all_exit pcfg st1 (Hc1 Hc) Hb1) as (st2&E2&Hw2&Hb2).
  exists (es ++ replicate (workers st1) EExit), st2. split_and!; try done.
  - apply Forall_app. split; [eapply Forall_impl; [exact Hes|]; by left|]. apply Forall_replicate. by right.
  - by rewrite execs_app, E1.
  - intros e st3 E3. by apply (no_workers pcfg e st2).
Qed.

Lemma stop_returns_witness : ∃ es st', Forall (λ e, worker_event e ∨ e = EExit) es ∧
  execs sample_cfg es (run_sample [] (take 4 sample_events ++ [ECancel])) = Some st' ∧ workers st' = O ∧ busy st' = [] ∧
  ∀ e st'', exec sample_cfg e st' = Some st'' → workers st'' = O ∧ busy st'' = [].
Proof.
  refine (stop_returns sample_cfg (mem_store_with []) 1 [(str "r", true)] _
    (sample_reachable [] (take 4 sample_events ++ [ECancel]) _ _) _); vm_compute; reflexivity.
Defined.

(** [C38] Which requests reach the gateway handler: those with a clean path - proper
    components, no dots, no double slash - other than the spellings of the two pages
    the process serves itself.  A spelling is one segment that decodes to the page's
    name, so percent-encoding does not get past the local pages, and these answer
    under no other path.  Every path that is not clean is answered with a redirect to
    a clean one and never proxied, so the proxy is not transparent for it. *)
Theorem route_gateway uri method p : uri ≠ str "*" → method ≠ str "CONNECT" →
  (route uri method p = Some ToGateway ↔ clean_path p ∧ ¬ spells (str "metrics") p ∧ ¬ spells (str "healthz") p) ∧
  (route uri method p = Some MetricsPage ↔ clean_path p ∧ spells (str "metrics") p) ∧
  (route uri method p = Some Healthz ↔ clean_path p ∧ spells (str "healthz") p) ∧
  (¬ clean_path p → ∃ q, route uri method p = Some (Redirect q) ∧ clean_path q).
Proof.
  intros Hu Hm. unfold route. rewrite bool_decide_eq_false_2 by naive_solver. rewrite !bool_decide_eq_false_2 by done.
  pose proof (match_pattern_clean p) as Hmatch. pose proof (cleanPath_clean p) as Hq. rewrite <-!(cleanPath_fixed p) in *.
  case_bool_decide as Hd; [|rewrite Hd; destruct (Hmatch Hd) as (<-&<-&<-)].
  - split_and!; [split; [done|by intros [? _]]..|eauto].
  - split_and!; [split; [by intros [= <-]|by intros [_ ->]]..|by intros []].
Qed.

Lemma route_gateway_witness :
  route (str "/%6detrics") (str "GET") (str "/%6detrics") = Some MetricsPage ∧
  route (str "/") (str "POST") (str "/v1/chat/completions") = Some ToGateway ∧
  ∃ q, route (str "/") (str "POST") (str "/v1//chat/completions") = Some (Redirect q) ∧ clean_path q.
Proof.
  split_and!.
  - refine (proj2 (proj1 (proj2 (route_gateway (str "/%6detrics") (str "GET") (str "/%6detrics") _ _))) _); [done|done|].
    split; [rewrite <-cleanPath_fixed; vm_compute; reflexivity|].
    exists (str "%6detrics"). split_and!; [done|apply (bool_decide_unpack _); vm_compute; exact I|vm_compute; reflexivity].
  - refine (proj2 (proj1 (route_gateway (str "/") (str "POST") (str "/v1/chat/completions") _ _)) _); [done|done|].
    split; [rewrite <-cleanPath_fixed; vm_compute; reflexivity|].
    split; intros (seg&[= <-]&Hs&_); apply Hs; apply (bool_decide_unpack _); vm_compute; exact I.
  - refine (proj2 (proj2 (proj2 (route_gateway (str "/") (str "POST") (str "/v1//chat/completions") _ _))) _); [done|done|].
    rewrite <-cleanPath_fixed. vm_compute. discriminate.
Defined.

(** ** Worked instances *)
Example route_ex : route (str "/x") (str "POST") (str "/v1/chat/completions") = Some ToGateway
  ∧ route (str "/x") (str "GET") (str "/v1/../metrics") = Some (Redirect (str "/metrics"))
  ∧ route (str "/x") (str "GET") (str "/a/./b/") = Some (Redirect (str "/a/b/"))
  ∧ route (str "/x") (str "GET") (str "/healthz") = Some Healthz
  ∧ route (str "/x") (str "GET") (str "/%68ealthz") = Some Healthz
  ∧ route (str "/x") (str "GET") (str "/metrics%2F") = Some ToGateway
  ∧ route (str "/x") (str "GET") (str "/metrics/") = Some ToGateway
  ∧ route (str "/x") (str "GET") (str "/") = Some ToGateway
  ∧ route (str "*") (str "OPTIONS") [] = Some GlobalOptions ∧ route (str "*") (str "GET") [] = Some BadRequest.
Proof. vm_compute. done. Qed.

(** The error branch after parsing the upstream URL is never taken: a loaded
    configuration's URL parses. *)
Lemma startup_url {W} `{redis W} NewClient ReadFile Unmarshal path v : main_startup NewClient v (Config.Load ReadFile Unmarshal path) ≠ ExitURL.
Proof.
  unfold main_startup. destruct v; [done|]. destruct (Config.Load ReadFile Unmarshal path) as [cfg|e] eqn:E; [|done].
  apply Config.Load_valid in E. destruct (Config.valid_url cfg E) as (u&->&_). by destruct (redis_Ping _).
Qed.
