(* ===== verification/Smoke.v ===== *)
(** * [scripts/smoke/main.go]: the smoke test

    The program starts the gateway between a mock upstream and a miniredis, posts
    two turns of a conversation and checks what the upstream has recorded.  The
    mock's handler, the configuration it writes, the requests and the checks are
    definitions; the gateway in the middle is that of Gateway.v with the reverse
    proxy of Outbound.v.  The theorem: the checks pass in every interleaving of the
    gateway.  Starting processes, sleeping and printing are outside; a request is
    recorded by the mock when the gateway forwards it. *)
From S2P Require Import Prelude Utf8 GoBytes NetUrl UrlFacts Json JsonRender Sha256 Canon Sse Request Assistant AssistantStream.
From S2P Require Import Metrics Store Session Collector DoneWatch Pool Proxy Outbound Gateway GatewaySafety Provenance EndToEnd Affinity Lifecycle.
From S2P Require Config.

(** ** The mock upstream *)

(** [upstream.sessions] *)
Abbreviation mock_state := (list bytes).

Definition mock_chunk (c : bytes) : bytes :=
  js "data: {'choices':[{'index':0,'delta':{'content':'" ++ c ++ js "'}}]}" ++ [10; 10].
Definition mock_writes : list bytes :=
  (mock_chunk <$> [str "mock "; str "smoke "; str "ok"]) ++ [str "data: [DONE]" ++ [10; 10]].

Record mock_reply : Type := { mock_status : Z; mock_type : bytes; mock_body : list bytes }.

(** The handler for [/v1/chat/completions]; the mux answers anything else. *)
Definition mock_handler (path : bytes) (h : Header) (ss : mock_state) : mock_state * mock_reply :=
  if bool_decide (path = str "/v1/chat/completions") then
    (ss ++ [Get h h_Session], {| mock_status := 200; mock_type := str "text/event-stream"; mock_body := mock_writes |})
  else (ss, {| mock_status := 404; mock_type := str "text/plain; charset=utf-8"; mock_body := [str "404 page not found" ++ [10]] |}).

(** ** The configuration file *)

Definition scalar (s : string) : Config.Node := {| Config.Tag := str "!!str"; Config.Value := str s |}.

(** What the text denotes, decoded by the types of internal/config. *)
Definition smoke_config (oor : GoNum.fl → Z) (addr : bytes) : result Config.config_error Config.Config :=
  timeout ← Config.Duration_UnmarshalYAML (scalar "2s");
  ttl ← Config.Duration_UnmarshalYAML (scalar "168h");
  page_size ← Config.ByteSize_UnmarshalYAML oor (scalar "4KiB");
  cache_ttl ← Config.Duration_UnmarshalYAML (scalar "30m");
  max_request_body ← Config.ByteSize_UnmarshalYAML oor (scalar "32MiB");
  Ok {|
    Config.server := {| Config.Listen := str "127.0.0.1:18098" |};
    Config.upstream := {| Config.BaseURL := str "http://127.0.0.1:18099/v1" |};
    Config.redis_ := {| Config.Addr := addr; Config.DB := 0; Config.Timeout := timeout |};
    Config.session_ := {| Config.Session_TTL := ttl |};
    Config.response_cache := {| Config.PageSize := page_size; Config.Cache_TTL := cache_ttl; Config.Workers := 2; Config.MaxPendingPages := 4 |};
    Config.limits := {| Config.MaxRequestBody := max_request_body |};
    Config.logging := {| Config.Level := str "info" |} |}.

(** ** The client *)

Definition client_url : URL := default chat_url (ParseRequestURI (str "/chat/completions")).

(** [client.Post]: Go's client adds the last two headers. *)
Definition post (body : bytes) : Request_ := {|
  Method := str "POST"; RequestURL := client_url;
  Header_ := {[str "Content-Type" := [str "application/json"]; h_UserAgent := [str "Go-http-client/1.1"]; str "Accept-Encoding" := [str "gzip"]]};
  Body := body; Body_fails := false; ContentLength := Some (Z.of_nat (length body)) |}.

Definition body1 : bytes := js "{'model':'m','stream':true,'messages':[{'role':'user','content':'hi'}]}".
Definition body2 : bytes :=
  js "{'model':'m','stream':true,'messages':[{'role':'user','content':'hi'},{'role':'assistant','content':'mock smoke ok'},{'role':'user','content':'again'}]}".

(** [client.Get] of a path the process serves itself. *)
Definition get (page : reply) (path : bytes) : option reply := d ← route path (str "GET") path; local_reply page d.

(** The checks, in their order; [None] is [SMOKE OK]. *)
Inductive failure : Type := Unhealthy | StreamIncomplete | WrongCount | AffinityBroken | MetricsMissing (want : bytes).

Definition wanted : list bytes :=
  str <$> ["opgate_session_resolve_hit_total"; "opgate_session_mapping_created_total"; "opgate_page_flush_success_total"]%string.

Definition checks (health : option reply) (b1 b2 : bytes) (ss : mock_state) (metricsText : bytes) : option failure :=
  if match health with Some r => negb (code r =? 200) | None => true end then Some Unhealthy
  else if negb (Contains b1 (str "[DONE]")) || negb (Contains b2 (str "[DONE]")) then Some StreamIncomplete
  else match ss with
  | [s1; s2] =>
    if bool_decide (s1 = []) || bool_decide (s1 ≠ s2) then Some AffinityBroken
    else match filter (λ w, Contains metricsText w = false) wanted with w :: _ => Some (MetricsMissing w) | [] => None end
  | _ => Some WrongCount
  end.

(** ** The whole *)

Section smoke.
Context {W : Type} `{redis_laws W, !redis_persistent W, !redis_reliable W}.
Context (cfg : Config.Config) (up : URL).

(** What the mock gets of request [i], if it arrives in this state. *)
Definition forwarded (gs : gstate (RedisStore W)) (i : nat) : option outreq :=
  g ← reqs gs !! i;
  match (ServeHTTP cfg (in_rid (g_in g)) (in_uuid (g_in g)) (in_req (g_in g)) (store (pool gs))).2 with
  | Proxied r' _ => match proxy_request (NewHandler up) r' with Ok out => Some out | Err _ => None end
  | Answered _ => None
  end.

Definition mock_receives (out : outreq) (ss : mock_state) : mock_state :=
  match ParseRequestURI (RequestURI (out_URL out)) with
  | Some u => (mock_handler (Path u) (out_Header out) ss).1
  | None => ss
  end.

(** A step of the gateway, with what the mock records. *)
Definition smoke_step (e : gevent) (s : gstate (RedisStore W) * mock_state) : option (gstate (RedisStore W) * mock_state) :=
  gs' ← gexec cfg (pool_config cfg) e s.1;
  Some (gs', match e with
    | GArrive i => match forwarded s.1 i with Some out => mock_receives out s.2 | None => s.2 end
    | _ => s.2
    end).

Fixpoint smoke_run (es : list gevent) (s : gstate (RedisStore W) * mock_state) : option (gstate (RedisStore W) * mock_state) :=
  match es with
  | [] => Some s
  | e :: es' => s' ← smoke_step e s; smoke_run es' s'
  end.

Lemma smoke_run_app es es' s : smoke_run (es ++ es') s = s' ← smoke_run es s; smoke_run es' s'.
Proof. revert s. induction es as [|e es IH]; intros s; cbn; [done|]. destruct (smoke_step e s); [apply IH|done]. Qed.

Lemma smoke_run_gexecs es gs ss gs' ss' : smoke_run es (gs, ss) = Some (gs', ss') → gexecs cfg (pool_config cfg) es gs = Some gs'.
Proof.
  revert gs ss. induction es as [|e es IH]; intros gs ss; cbn; [by intros [= <- _]|]. unfold smoke_step. cbn [fst snd].
  destruct (gexec _ _ e gs) as [gs1|]; [|done]. cbn [mbind option_bind]. apply IH.
Qed.
End smoke.

(** ** What the parts do *)

Definition smoke_cfg (addr : bytes) : Config.Config := {|
  Config.server := {| Config.Listen := str "127.0.0.1:18098" |};
  Config.upstream := {| Config.BaseURL := str "http://127.0.0.1:18099/v1" |};
  Config.redis_ := {| Config.Addr := addr; Config.DB := 0; Config.Timeout := 2000000000 |};
  Config.session_ := {| Config.Session_TTL := 604800000000000 |};
  Config.response_cache := {| Config.PageSize := 4096; Config.Cache_TTL := 1800000000000; Config.Workers := 2; Config.MaxPendingPages := 4 |};
  Config.limits := {| Config.MaxRequestBody := 33554432 |};
  Config.logging := {| Config.Level := str "info" |} |}.

Lemma smoke_config_eq oor addr : smoke_config oor addr = Ok (smoke_cfg addr).
Proof.
  unfold smoke_config.
  assert (Config.Duration_UnmarshalYAML (scalar "2s") = Ok 2000000000) as -> by (vm_compute; reflexivity).
  assert (Config.Duration_UnmarshalYAML (scalar "168h") = Ok 604800000000000) as -> by (vm_compute; reflexivity).
  assert (Config.ByteSize_UnmarshalYAML oor (scalar "4KiB") = Ok 4096) as -> by (vm_compute; reflexivity).
  assert (Config.Duration_UnmarshalYAML (scalar "30m") = Ok 1800000000000) as -> by (vm_compute; reflexivity).
  assert (Config.ByteSize_UnmarshalYAML oor (scalar "32MiB") = Ok 33554432) as -> by (vm_compute; reflexivity).
  reflexivity.
Qed.

(** With any Redis address it is accepted. *)
Lemma smoke_config_valid addr : TrimSpace addr ≠ [] → Config.Validate (smoke_cfg addr) = None.
Proof.
  intros Ha. unfold Config.Validate. cbn [smoke_cfg Config.upstream Config.BaseURL Config.redis_ Config.Addr].
  rewrite bool_decide_false by (by vm_compute). rewrite (bool_decide_false (TrimSpace addr = [])) by done.
  destruct (Parse (str "http://127.0.0.1:18099/v1")) as [u|] eqn:E; [|by vm_compute in E].
  assert (Scheme u = str "http" ∧ Host u ≠ []) as [-> Hh] by (vm_compute in E; injection E as <-; by split).
  rewrite bool_decide_false by (by intros [? _]). by rewrite bool_decide_false.
Qed.

Definition smoke_up : URL := default chat_url (Parse (str "http://127.0.0.1:18099/v1")).

(** A forwarded request reaches the mock's handler. *)
Lemma mock_gets r ss : RequestURL r = client_url → Header_ r !! h_Connection = None →
  ∃ out, proxy_request (NewHandler smoke_up) r = Ok out ∧ mock_receives out ss = ss ++ [Get (out_Header out) h_Session].
Proof.
  intros Hu Hc. assert (upgradeType (Header_ r) = []) as Hup by (unfold upgradeType, values; by rewrite Hc).
  unfold proxy_request. rewrite Hup. cbn [forallb]. eexists. split; [reflexivity|].
  unfold mock_receives. cbn [out_URL Rewrite_ NewHandler Rewrite out_Header]. rewrite Hu.
  assert (ParseRequestURI (RequestURI (rewriteRequestURL (set_RawQuery client_url (cleanQueryParams (RawQuery client_url))) smoke_up)) =
    Some {| Scheme := []; Opaque := []; Host := []; Path := str "/v1/chat/completions"; RawPath := []; ForceQuery := false; RawQuery := [] |})
    as -> by (vm_compute; reflexivity).
  unfold mock_handler. cbn [Path]. by rewrite bool_decide_true.
Qed.

(** What the handler makes of a post, with any body that takes part. *)
Lemma post_forwarded {S} `{SessionStore S, TempPageStore S, Metered S} addr rid uuid body cms (s : S) :
  Z.of_nat (length body) <= 33554432 → chat_messages body = Some cms →
  ∃ s' r' st, ServeHTTP (smoke_cfg addr) rid uuid (post body) s = (s', Proxied r' (Some st)) ∧ participate st = true ∧
    RequestURL r' = client_url ∧ Header_ r' !! h_Connection = None ∧ Header_ r' !! h_Session = Some [sessionID st] ∧
    ((length cms <= 1)%nat → sessionID st = uuid).
Proof.
  intros Hlen Hcms. unfold ServeHTTP. assert (is_chat (post body) = true) as -> by (unfold is_chat; by vm_compute).
  cbn [negb]. rewrite readBody_spec by (cbn; lia). cbn [smoke_cfg Config.limits Config.MaxRequestBody Body Body_fails post].
  bfalse (33554432 <? Z.of_nat (length body)). rewrite prepare_eq, Hcms. cbn [Header_].
  assert (Get (Header_ (post body)) h_Session = []) as Hg by (by vm_compute).
  change {[str "Content-Type" := [str "application/json"]; h_UserAgent := [str "Go-http-client/1.1"]; str "Accept-Encoding" := [str "gzip"]]}
    with (Header_ (post body)). rewrite Hg. set (s1 := record _ s).
  pose proof (Resolve_resolution uuid (clientIdentity (Header_ (post body))) cms [] s1) as Hres.
  destruct (Resolve _ _ cms [] s1) as [s2 dec]. cbn [snd] in Hres. eexists _, _, _. split; [reflexivity|].
  cbn [participate sessionID RequestURL Header_ restore]. split_and!; try done.
  intros Hl. rewrite Hres. unfold resolution. rewrite decide_False by (by intros []).
  assert ((1 <? length cms)%nat = false) as -> by (apply Nat.ltb_ge; lia). by destruct (GetSession _ _ s1).2 as [[id|]|].
Qed.

(** ** A run of the test *)

Section test.
Context {W : Type} `{redis_laws W, !redis_persistent W, !redis_reliable W}.
Context (addr rid1 rid2 u1 u2 : bytes) (s0 : RedisStore W).
Implicit Types (gs : gstate (RedisStore W)) (ss : mock_state).

Definition first : incoming := {| in_rid := rid1; in_uuid := u1; in_req := post body1 |}.
Definition second : incoming := {| in_rid := rid2; in_uuid := u2; in_req := post body2 |}.
Definition smoke_start : gstate (RedisStore W) := main_start (smoke_cfg addr) s0 [first; second].
Definition smoke_runs (es : list gevent) gs ss : Prop := smoke_run (smoke_cfg addr) smoke_up es (smoke_start, []) = Some (gs, ss).

Lemma smoke_ttl : 0 < TTL (pool_config (smoke_cfg addr)).
Proof. done. Qed.
Lemma smoke_limit : Config.MaxRequestBody (Config.limits (smoke_cfg addr)) < 2 ^ 63.
Proof. done. Qed.

Lemma smoke_run_snoc es e gs ss : smoke_runs (es ++ [e]) gs ss →
  ∃ gs1 ss1, smoke_runs es gs1 ss1 ∧ gexec (smoke_cfg addr) (pool_config (smoke_cfg addr)) e gs1 = Some gs ∧
    ss = match e with
         | GArrive i => match forwarded (smoke_cfg addr) smoke_up gs1 i with Some out => mock_receives out ss1 | None => ss1 end
         | _ => ss1
         end.
Proof.
  unfold smoke_runs. rewrite smoke_run_app. destruct (smoke_run _ _ es _) as [[gs1 ss1]|]; [|done]. cbn [mbind option_bind smoke_run].
  unfold smoke_step. cbn [fst snd]. destruct (gexec _ _ e gs1) as [gs2|] eqn:E; [|done]. cbn [mbind option_bind]. intros [= <- <-]. by exists gs1, ss1.
Qed.

Lemma smoke_gate es gs ss : fresh_run s0 [first; second] → smoke_runs es gs ss → gate_ok (pool_config (smoke_cfg addr)) gs.
Proof.
  intros Hf Hr. eapply (fresh_reachable (smoke_cfg addr) (pool_config (smoke_cfg addr)) s0 2); [done|done|exact Hf|].
  exists es. by eapply smoke_run_gexecs.
Qed.

(** What arrives is forwarded and recorded. *)
Lemma smoke_arrive gs gs' i g body cms : gexec (smoke_cfg addr) (pool_config (smoke_cfg addr)) (GArrive i) gs = Some gs' →
  reqs gs !! i = Some g → in_req (g_in g) = post body → Z.of_nat (length body) <= 33554432 → chat_messages body = Some cms →
  g_arrived g = false ∧ ∃ out g' st, forwarded (smoke_cfg addr) smoke_up gs i = Some out ∧ reqs gs' = <[i := g']> (reqs gs) ∧
    g_in g' = g_in g ∧ g_arrived g' = true ∧ g_st g' = Some st ∧ participate st = true ∧
    ((length cms <= 1)%nat → sessionID st = in_uuid (g_in g)) ∧
    (∃ s' r', ServeHTTP (smoke_cfg addr) (in_rid (g_in g)) (in_uuid (g_in g)) (in_req (g_in g)) (store (pool gs)) = (s', Proxied r' (Some st))) ∧
    out_Header out !! h_Session = Some [sessionID st] ∧ ∀ ss, mock_receives out ss = ss ++ [sessionID st].
Proof.
  intros E Hi Hreq Hlen Hcms. cbn [gexec] in E. rewrite Hi in E. cbn [mbind option_bind] in E. unfold forwarded. rewrite Hi. cbn [mbind option_bind].
  destruct (g_arrived g); [done|]. split; [done|]. rewrite Hreq in *.
  destruct (post_forwarded addr (in_rid (g_in g)) (in_uuid (g_in g)) body cms (store (pool gs)) Hlen Hcms) as (s'&r'&st&Es&Hpart&Hu&Hc&Hs&Hnew).
  rewrite Es in E |- *. cbn [snd]. destruct (mock_gets r' [] Hu Hc) as (out&Ho&_). rewrite Ho. apply (inj Some) in E as <-.
  assert (h_Session ∉ named (Header_ r')) as Hn.
  { unfold named, connection_options, values. rewrite Hc. by apply not_elem_of_nil. }
  assert (out_Header out !! h_Session = Some [sessionID st]) as Hos.
  { rewrite (proxy_request_header smoke_up r' out) by (done || by apply (bool_decide_eq_true_1 (end_to_end _)); vm_compute). by rewrite decide_False. }
  eexists out, _, st. split_and!; try done; [by eexists _, _|]. intros ss. destruct (mock_gets r' ss Hu Hc) as (out'&Ho'&Hrec). rewrite Ho in Ho'. injection Ho' as <-.
  rewrite Hrec. unfold Get. by rewrite Hos.
Qed.

(** Before the second post. *)
Record before_second gs ss : Prop := {
  bs_two : length (reqs gs) = 2%nat;
  bs_reqs : ∃ g0 g1, reqs gs !! 0%nat = Some g0 ∧ reqs gs !! 1%nat = Some g1 ∧ g_in g0 = first ∧ g_in g1 = second ∧ g_arrived g1 = false ∧
    (g_arrived g0 = false ∧ ss = [] ∨
     g_arrived g0 = true ∧ ss = [u1] ∧ ∃ st, g_st g0 = Some st ∧ participate st = true ∧ sessionID st = u1);
}.

Definition body_messages (b : bytes) : list bytes := default [] (chat_messages b).
Lemma body1_messages : chat_messages body1 = Some (body_messages body1).
Proof. apply succeeds_default. vm_compute. reflexivity. Qed.
Lemma body2_messages : chat_messages body2 = Some (body_messages body2).
Proof. apply succeeds_default. vm_compute. reflexivity. Qed.

Lemma gexec_backwards e gs gs' i g : gate_ok (pool_config (smoke_cfg addr)) gs →
  gexec (smoke_cfg addr) (pool_config (smoke_cfg addr)) e gs = Some gs' → reqs gs !! i = Some g → 
  ∃ g', reqs gs' !! i = Some g' ∧ g_in g' = g_in g ∧ (g_arrived g' = g_arrived g ∨ e = GArrive i) ∧ evolves g g'.
Proof.
  intros Hg E Hi. assert (is_Some (reqs gs' !! i)) as [g' Hi'].
  { apply lookup_lt_is_Some. pose proof (lookup_lt_Some _ _ _ Hi) as Hl.
    destruct (gexec_reqs (smoke_cfg addr) (pool_config (smoke_cfg addr)) smoke_ttl e gs gs' Hg E) as [->|(j&gj&gj'&_&->&_)]; by rewrite ?length_insert. }
  exists g'. split; [done|]. destruct (gexec_req (smoke_cfg addr) (pool_config (smoke_cfg addr)) smoke_ttl e gs gs' i g' Hg E Hi') as (g0&Hi0&Hin&Harr&_).
  destruct (gexec_evolves (smoke_cfg addr) (pool_config (smoke_cfg addr)) smoke_ttl smoke_limit e gs gs' i g' Hg E Hi') as (g00&Hi00&Hev).
  rewrite Hi in Hi0, Hi00. injection Hi0 as <-. injection Hi00 as <-. done.
Qed.

Lemma gexec_two e gs gs' : gate_ok (pool_config (smoke_cfg addr)) gs → length (reqs gs) = 2%nat →
  gexec (smoke_cfg addr) (pool_config (smoke_cfg addr)) e gs = Some gs' → length (reqs gs') = 2%nat ∧ ∀ i, e = GArrive i → i = 0%nat ∨ i = 1%nat.
Proof.
  intros Hg Hl E. split.
  - destruct (gexec_reqs (smoke_cfg addr) (pool_config (smoke_cfg addr)) smoke_ttl e gs gs' Hg E) as [->|(j&gj&gj'&_&->&_)]; by rewrite ?length_insert.
  - intros i ->. cbn [gexec] in E. destruct (reqs gs !! i) as [g|] eqn:Hi; [|done]. apply lookup_lt_Some in Hi. lia.
Qed.

Lemma smoke_before es gs ss : fresh_run s0 [first; second] → smoke_runs es gs ss → GArrive 1 ∉ es → before_second gs ss.
Proof.
  intros Hf. revert gs ss. induction es as [|e es IH] using rev_ind; intros gs ss Hrun Hne.
  { injection Hrun as <- <-. split; [done|]. eexists _, _. split_and!; [done..|by left]. }
  destruct (smoke_run_snoc es e gs ss Hrun) as (gs1&ss1&Hrun1&E&Hss). rewrite elem_of_app, list_elem_of_singleton in Hne.
  pose proof (smoke_gate es gs1 ss1 Hf Hrun1) as Hg. destruct (IH gs1 ss1 Hrun1 ltac:(tauto)) as [Hl (g0&g1&Hi0&Hi1&Hin0&Hin1&Ha1&Hc)].
  destruct (gexec_backwards e gs1 gs 0 g0 Hg E Hi0) as (g0'&Hi0'&Hin0'&Ha0'&Hev0).
  destruct (gexec_backwards e gs1 gs 1 g1 Hg E Hi1) as (g1'&Hi1'&Hin1'&Ha1'&_).
  destruct (gexec_two e gs1 gs Hg Hl E) as [Hl' Hwho].
  assert (g_arrived g1' = false) as Ha1'' by (destruct Ha1' as [Heq|Heq]; [congruence|rewrite Heq in Hne; tauto]).
  split; [done|]. exists g0', g1'. split_and!; try congruence. assert ((∃ i, e = GArrive i) ∨ ¬ ∃ i, e = GArrive i) as [[i ->]|Hno]
    by (destruct e; [left; by eexists|right; by intros [? [=]]..]).
  - assert (i = 0%nat) as -> by (destruct (Hwho i eq_refl) as [->| ->]; [done|tauto]).
    destruct (smoke_arrive gs1 gs 0 g0 body1 (body_messages body1) E Hi0) as (Ha0&out&g&st&Hfw&Er&_&Harr&Hst&Hpart&Hnew&_&_&Hrec);
      [by rewrite Hin0|by vm_compute|apply body1_messages|].
    right. rewrite Er, list_lookup_insert_eq in Hi0' by (by eapply lookup_lt_Some). injection Hi0' as ->.
    assert (sessionID st = u1) as Hid by (rewrite Hnew, Hin0; [done|by vm_compute; lia]).
    destruct Hc as [[_ ->]|[? _]]; [|congruence]. rewrite Hss, Hfw, Hrec, Hid. split_and!; [done|done|by exists st].
  - assert (ss = ss1) as -> by (rewrite Hss; destruct e; try done; by destruct Hno; eexists).
    destruct Ha0' as [Ha0'|Heq]; [|by destruct Hno; eexists].
    destruct Hc as [[Ha0 ->]|(Ha0&->&st&Hst&Hpart&Hid)]; [left; split; [congruence|done]|right].
    split_and!; [congruence|done|]. destruct (Hev0 st Hst Hpart) as (st'&Hst'&(Hp'&_&_&Hs')&_). exists st'. split_and!; congruence.
Qed.

(** Once both have arrived nothing more is recorded. *)
Lemma smoke_quiet es gs ss gs' ss' : gate_ok (pool_config (smoke_cfg addr)) gs → length (reqs gs) = 2%nat →
  (∀ i g, reqs gs !! i = Some g → g_arrived g = true) → smoke_run (smoke_cfg addr) smoke_up es (gs, ss) = Some (gs', ss') → ss' = ss.
Proof.
  revert gs ss. induction es as [|e es IH]; intros gs ss Hg Hl Harr; cbn [smoke_run]; [by intros [= _ ->]|].
  unfold smoke_step. cbn [fst snd]. destruct (gexec _ _ e gs) as [gs1|] eqn:E; [|done]. cbn [mbind option_bind].
  assert (∀ i, e ≠ GArrive i) as Hno.
  { intros i ->. cbn [gexec] in E. destruct (reqs gs !! i) as [g|] eqn:Hi; [|done]. cbn [mbind option_bind] in E. by rewrite (Harr i g Hi) in E. }
  replace (match e with GArrive i => _ | _ => ss end) with ss by (destruct e; try done; by edestruct Hno).
  apply IH; [by eapply (gate_step (smoke_cfg addr) (pool_config (smoke_cfg addr)) smoke_ttl smoke_limit)|by apply (gexec_two e gs gs1 Hg Hl E)|].
  intros i g' Hi'. destruct (gexec_req (smoke_cfg addr) (pool_config (smoke_cfg addr)) smoke_ttl e gs gs1 i g' Hg E Hi') as (g&Hi&_&[Ha|Ha]&_);
    [rewrite Ha; by eapply Harr|by edestruct Hno].
Qed.
End test.

(** The client's second body is the next turn after the mock's answer. *)
Lemma smoke_next addr : next_turn (smoke_cfg addr) (post body1) (post body2) (str "mock smoke ok").
Proof.
  split; [vm_compute; reflexivity|split; [vm_compute; discriminate|vm_compute; reflexivity]|vm_compute; reflexivity..|].
  exists [js "{'role':'user','content':'hi'}"], (js "{'role':'assistant','content':'mock smoke ok'}").
  eexists _, (js "{'role':'user','content':'again'}"). split_and!; [vm_compute; reflexivity..|]. vm_compute. apply any_eqv_refl.
Qed.

(** The answer, however much of the stream after the sentinel has been read. *)
Lemma mock_answer w rest : concat mock_writes = w ++ rest → has_done w = true →
  message_of w = Ok (render WriteString (text_message (str "mock smoke ok"))).
Proof.
  intros E Hd. assert (w = take (length w) (concat mock_writes) ∧ (length w <= length (concat mock_writes))%nat) as [Ew Hl].
  { rewrite E, take_app_length, length_app. split; [done|lia]. }
  assert (forallb (λ n, implb (has_done (take n (concat mock_writes)))
    (bool_decide (message_of (take n (concat mock_writes)) = Ok (render WriteString (text_message (str "mock smoke ok"))))))
    (List.seq 0 (S (length (concat mock_writes)))) = true) as Hall by (vm_compute; reflexivity).
  rewrite forallb_forall in Hall. specialize (Hall (length w) ltac:(apply in_seq; lia)). rewrite <-Ew, Hd in Hall.
  by apply bool_decide_eq_true in Hall.
Qed.

(** ** Properties *)

(** What the client waits for before its second post: it has the first answer, so
    the reads that brought it have returned. *)
Definition first_answered {W} (es : list gevent) (gs : gstate (RedisStore W)) : Prop :=
  GArrive 1 ∉ es ∧ reads 0 es = concat mock_writes ∧
  ∃ g p, reqs gs !! 0%nat = Some g ∧ procs (pool gs) !! 0%nat = Some p ∧ g_mode g = StreamBody ∧ (∀ f, ph p ≠ AtDone f) ∧ g_pending g = None.

(** [C8] The smoke test passes, whatever the schedule.  With the configuration it
    writes and a Redis that answers and forgets nothing: in every run of the gateway
    in which the client sends its second request after it has read the first answer
    to the end, the mock upstream records exactly two requests with the same
    session, the identifier generated for the first; so, if the second answer is
    read to its end as well, every check of the test passes, provided the page
    of the metrics handler names the counters. *)
Theorem smoke_passes {W} `{redis_laws W, !redis_persistent W, !redis_reliable W} addr rid1 rid2 u1 u2 (s0 : RedisStore W) es1 es2 gs1 ss1 gs ss page :
  fresh_run s0 [first rid1 u1; second rid2 u2] → healthy (rdb s0) → u1 ≠ [] →
  smoke_runs addr rid1 rid2 u1 u2 s0 es1 gs1 ss1 → first_answered es1 gs1 →
  smoke_run (smoke_cfg addr) smoke_up (GArrive 1 :: es2) (gs1, ss1) = Some (gs, ss) →
  ss = [u1; u1] ∧
  (reads 1 es2 = concat mock_writes → Forall (λ w, Contains (text page) w = true) wanted →
   checks (get page (str "/healthz")) (reads 0 es1) (reads 1 es2) ss (from_option text [] (get page (str "/metrics"))) = None).
Proof.
  intros Hf Hh Hu Hrun (Hne&Hreads&g0&p0&Hi0&Hp0&Hm&Hph&Hpend) Hrest.
  enough (ss = [u1; u1]) as Hss.
  { split; [done|]. intros Hr2 Hw. unfold checks.
    assert (get page (str "/metrics") = Some page) as -> by (vm_compute; reflexivity). cbn [from_option].
    assert (get page (str "/healthz") = Some healthz) as -> by (vm_compute; reflexivity). cbn [healthz code Z.eqb Pos.eqb negb]. rewrite Hreads, Hr2, Hss.
    assert (Contains (concat mock_writes) (str "[DONE]") = true) as -> by (vm_compute; reflexivity). cbn [negb orb].
    rewrite !bool_decide_false by (done || by intros []). cbn [orb].
    assert (filter (λ w, Contains (text page) w = false) wanted = []) as ->; [|done].
    clear - Hw. induction Hw as [|w l Hw Hl IH]; [done|]. rewrite filter_cons, Hw. by rewrite decide_False. }
  destruct (smoke_before addr rid1 rid2 u1 u2 s0 es1 gs1 ss1 Hf Hrun Hne) as [Hl (g0'&g1&Hi0'&Hi1&Hin0&Hin1&Ha1&Hc)].
  rewrite Hi0 in Hi0'. injection Hi0' as <-. pose proof (smoke_gate addr rid1 rid2 u1 u2 s0 es1 gs1 ss1 Hf Hrun) as Hg.
  (* the first request has arrived *)
  assert (g_arrived g0 = true ∧ ss1 = [u1] ∧ ∃ st, g_st g0 = Some st ∧ participate st = true ∧ sessionID st = u1) as (Ha0&->&st&Hst&_&Hid).
  { destruct Hc as [[Ha0 _]|?]; [|done]. pose proof (go_reqs _ gs1 Hg 0%nat g0 p0 Hi0 Hp0) as Hr.
    destruct (ro_new g0 p0 Hr Ha0) as [_ Hn]. by rewrite (ro_mode g0 p0 Hr Hn) in Hm. }
  (* the second arrives *)
  cbn [smoke_run] in Hrest. unfold smoke_step in Hrest. cbn [fst snd] in Hrest.
  destruct (gexec _ _ (GArrive 1) gs1) as [gs2|] eqn:E; [|done]. cbn [mbind option_bind] in Hrest.
  destruct (smoke_arrive addr gs1 gs2 1 g1 body2 (body_messages body2) E Hi1) as
    (_&out&g1'&st3&Hfw&Er&_&Harr&_&_&_&(s'&r'&Es)&_&Hrec); [by rewrite Hin1|by vm_compute|apply body2_messages|].
  rewrite Hfw, Hrec in Hrest.
  pose proof (next_turn_resolved (smoke_cfg addr) (pool_config (smoke_cfg addr)) s0 2 [first rid1 u1; second rid2 u2] es1 gs1 0 g0 p0
    (str "mock smoke ok") 1 g1) as Haff. rewrite Hin0, Hin1, Hreads in Haff. 
  destruct Haff as (s''&r''&st4&Es'&_&(st'&Hst'&_&Honly)&_); try done.
  - by eapply smoke_run_gexecs.
  - apply mock_answer.
  - apply smoke_next.
  - rewrite Hin1, Es' in Es. injection Es as <- <- <-. rewrite Hst in Hst'. injection Hst' as <-. rewrite Honly, Hid in Hrest.
    + change ([u1] ++ [u1]) with [u1; u1] in Hrest.
      pose proof (gate_step (smoke_cfg addr) _ (smoke_ttl addr) (smoke_limit addr) _ _ _ Hg E) as Hg2.
      destruct (gexec_two addr _ gs1 gs2 Hg Hl E) as [Hl2 _].
      apply (smoke_quiet addr es2 gs2 [u1; u1] gs ss Hg2 Hl2); [|done].
      intros i g. rewrite Er. intros [[_ [<- _]]|[Hne1 Hi]]%list_lookup_insert_Some; [done|].
      destruct i as [|[|i]]; [congruence|done|]. apply lookup_lt_Some in Hi. lia.
    + intros k gk Hk Hgk. destruct k as [|[|k]]; [done| |apply lookup_lt_Some in Hgk; lia]. rewrite Hi1 in Hgk. injection Hgk as <-.
      destruct (go_proc _ gs1 1%nat g1 Hg Hi1) as (p1&_&Hr). destruct (ro_new g1 p1 Hr Ha1) as [_ Hn].
      by destruct (ro_raw g1 p1 Hr (ro_mode g1 p1 Hr Hn)).
Qed.

(** One schedule: the first answer in three pieces that cut lines apart. *)
Definition answer_events (i : nat) : list gevent :=
  [GArrive i; GResponse i 200 (str "text/event-stream"); GRead i (take 50 (concat mock_writes));
   GRead i (take 120 (drop 50 (concat mock_writes))); GRead i (drop 170 (concat mock_writes)); GCheck i; GAssemble i; GMap i; GEof i; GClose i].
Definition demo_smoke_start : gstate (RedisStore MemRedis) := smoke_start (str "127.0.0.1:7000") (str "r1") (str "r2") (str "U1") (str "U2") mem_store.
Definition demo_run (es : list gevent) : gstate (RedisStore MemRedis) * mock_state :=
  default (demo_smoke_start, []) (smoke_run (smoke_cfg (str "127.0.0.1:7000")) smoke_up es (demo_smoke_start, [])).
Definition demo_first : gstate (RedisStore MemRedis) * mock_state := demo_run (answer_events 0).
Definition demo_both : gstate (RedisStore MemRedis) * mock_state :=
  default demo_first (smoke_run (smoke_cfg (str "127.0.0.1:7000")) smoke_up (GArrive 1 :: drop 1 (answer_events 1)) demo_first).
Definition demo_greq : greq := default (new_greq run_request) (reqs demo_first.1 !! 0%nat).
Definition demo_process : proc := default (new_proc ram_cfg [] false) (procs (pool demo_first.1) !! 0%nat).

Lemma smoke_passes_witness : demo_both.2 = [str "U1"; str "U1"].
Proof.
  refine (proj1 (smoke_passes (str "127.0.0.1:7000") (str "r1") (str "r2") (str "U1") (str "U2") mem_store (answer_events 0) (drop 1 (answer_events 1))
    demo_first.1 demo_first.2 demo_both.1 demo_both.2 healthz _ _ _ _ _ _)).
  - split_and!; [apply (bool_decide_unpack _); vm_compute; exact I|done|done].
  - reflexivity.
  - discriminate.
  - unfold smoke_runs. rewrite <-surjective_pairing. apply succeeds_default. vm_compute. reflexivity.
  - split; [unfold answer_events; rewrite !not_elem_of_cons; split_and!; [discriminate..|apply not_elem_of_nil]|]. split; [vm_compute; reflexivity|].
    exists demo_greq, demo_process. split_and!; [apply succeeds_default; vm_compute; reflexivity..|vm_compute; reflexivity| |vm_compute; reflexivity].
    intros f. vm_compute. discriminate.
  - rewrite <-!surjective_pairing. apply succeeds_default. vm_compute. reflexivity.
Defined.
