(* ===== verification/Shutdown.v ===== *)
(** * Graceful shutdown: [main] after the signal, [Pool.Drain], [Handler.WaitFinalize]

    The last part of main.go as a state machine around the running gateway:
    [Shutdown] of the HTTP server, [Drain], [WaitFinalize], [Stop], and the store's
    [Close].  The first
    three give up after a time-out, which is a choice of the environment here; the
    state remembers whether one of them did.  [finalizeWG] is the handler's wait
    group, the number of finalizer goroutines that have not ended.  If
    [ListenAndServe] itself fails while serving, the process exits at once. *)
From S2P Require Import Prelude GoBytes Json Metrics Store Session Collector Pool Proxy Gateway GatewaySafety Provenance Lifecycle.
From S2P Require Config.

(** ** What the waits look at *)

(** The copy goroutine has closed the body. *)
Definition closed (f : phase) : bool := match f with AtClose _ | Finished => true | _ => false end.

(** The handler has returned: it answered, or the reverse proxy is through with
    the response and closed its body. *)
Definition returned (g : greq) (p : proc) : bool :=
  g_responded g &&
  match g_mode g with
  | RawBody => true
  | StreamBody => closed (ph p)
  | JsonBody => match g_st g with Some st => finished st | None => false end
  end.

(** The finalizer goroutine of a request has not ended: between the [Add] in
    [finish] and the deferred [Done], after its last store operation. *)
Definition finalizing (g : greq) (p : proc) : bool :=
  match g_mode g with
  | RawBody => false
  | JsonBody => match g_final g, g_pending g with Some FinalizeJSON, _ | _, Some _ => true | _, _ => false end
  | StreamBody =>
    match ph p with
    | AtClose _ => true
    | Finished => match g_pending g with Some _ => true | None => false end
    | _ => false
    end
  end.

(** A store that [main] can close. *)
Class Closer (S : Type) : Type := Close : S → S * result redis_err unit.
#[export] Instance RedisStore_closer {W} `{redis W} : Closer (RedisStore W) := redis_Close.

Section shutdown.
Context {S : Type} `{SessionStore S, TempPageStore S, Metered S, !Closer S}.
Context (cfg : Config.Config) (pcfg : Collector.Config).

Definition requests (gs : gstate S) : list (greq * proc) := zip (reqs gs) (procs (pool gs)).
Definition idle (gs : gstate S) : bool := forallb (λ '(g, p), negb (g_arrived g) || returned g p) (requests gs).
Definition finalizeWG (gs : gstate S) : nat := length (List.filter (λ '(g, p), finalizing g p) (requests gs)).

(** [Drain] returns when it finds the queue empty. *)
Definition drained (gs : gstate S) : bool := bool_decide (queue (pool gs) = []).

(** [Stop] cancels the workers and returns when all of them have left. *)
Definition stopped (gs : gstate S) : bool := (workers (pool gs) =? 0)%nat.

(** ** The shutdown sequence *)

(** Where [main] is: serving, ended by an error of the server, in one of its four
    waits, or after them. *)
Inductive stage : Type := Serving | Failed | InShutdown | InDrain | InWaitFinalize | InStop | Exited.

(** [closed_store] is the store once [main] has closed it. *)
Record server : Type := { gate : gstate S; stage_ : stage; timed_out : bool; closed_store : option S }.

Definition boot (gs : gstate S) : server := {| gate := gs; stage_ := Serving; timed_out := false; closed_store := None |}.

(** [MServeError]: [ListenAndServe] fails, and [main] exits at once.  [MWait t]: the wait [main] is in ends, by its time-out if [t]. *)
Inductive sevent : Type := MGate (e : gevent) | MServeError | MSignal | MWait (t : bool).

(** No request arrives once the server has been shut down (the listener is
    closed and every connection with it); [Stop] is [main]'s. *)
Definition allowed (e : gevent) (s : server) : bool :=
  match e, stage_ s with
  | GStop, _ | _, Exited | _, Failed => false
  | GArrive _, Serving | GArrive _, InShutdown => true
  | GArrive _, _ => timed_out s
  | _, _ => true
  end.

Definition proceed (s : server) (gs : gstate S) (next : stage) (t : bool) : server :=
  {| gate := gs; stage_ := next; timed_out := timed_out s || t; closed_store := closed_store s |}.
Definition with_gate (s : server) (gs : gstate S) : server :=
  {| gate := gs; stage_ := stage_ s; timed_out := timed_out s; closed_store := closed_store s |}.

(** [Close]'s error is dropped. *)
Definition close_store (s : server) : server :=
  {| gate := gate s; stage_ := stage_ s; timed_out := timed_out s; closed_store := Some (Close (store (pool (gate s)))).1 |}.

Definition sexec (e : sevent) (s : server) : option server :=
  match e with
  | MGate e =>
    if allowed e s then
      gs ← gexec cfg pcfg e (gate s); Some (with_gate s gs)
    else None
  | MServeError => match stage_ s with Serving => Some (proceed s (gate s) Failed false) | _ => None end
  | MSignal => match stage_ s with Serving => Some (proceed s (gate s) InShutdown false) | _ => None end
  | MWait t =>
    match stage_ s with
    | InShutdown => if t || idle (gate s) then Some (proceed s (gate s) InDrain t) else None
    | InDrain => if t || drained (gate s) then Some (proceed s (gate s) InWaitFinalize t) else None
    | InWaitFinalize =>
      if t || (finalizeWG (gate s) =? 0)%nat then gs ← gexec cfg pcfg GStop (gate s); Some (proceed s gs InStop t) else None
    | InStop => if negb t && stopped (gate s) then Some (close_store (proceed s (gate s) Exited false)) else None
    | _ => None
    end
  end.

Fixpoint sexecs (es : list sevent) (s : server) : option server :=
  match es with
  | [] => Some s
  | e :: es' => s' ← sexec e s; sexecs es' s'
  end.

Lemma sexecs_app es es' s : sexecs (es ++ es') s = s' ← sexecs es s; sexecs es' s'.
Proof. revert s. induction es as [|e es IH]; intros s; cbn; [done|]. destruct (sexec e s); [apply IH|done]. Qed.

Definition sreachable (s0 : S) (n : nat) (rs : list incoming) (s : server) : Prop :=
  ∃ es, sexecs es (boot (ginit pcfg s0 n rs)) = Some s.

(** The gateway inside the server runs as it does alone. *)
Lemma sreachable_gate s0 n rs s : sreachable s0 n rs s → greachable cfg pcfg s0 n rs (gate s).
Proof.
  intros [es E]. assert (greachable cfg pcfg s0 n rs (gate (boot (ginit pcfg s0 n rs)))) as H0' by by exists [].
  revert E H0'. generalize (boot (ginit pcfg s0 n rs)). induction es as [|e es IH]; intros s1; cbn [sexecs].
  { by intros [= <-]. }
  bind_some s2 E. intros Es Hr. apply (IH s2 Es). clear IH Es es.
  assert (∀ ge gs, gexec cfg pcfg ge (gate s1) = Some gs → greachable cfg pcfg s0 n rs gs) as Hstep.
  { intros ge gs Eg. destruct Hr as [ges Er]. exists (ges ++ [ge]). rewrite gexecs_app, Er. cbn [mbind option_bind gexecs]. by rewrite Eg. }
  revert E. destruct e as [ge| | |t]; cbn [sexec].
  - destruct (allowed ge s1); [|done]. bind_some gs Eg. intros [= <-]. by eapply Hstep.
  - destruct (stage_ s1); try done. by intros [= <-].
  - destruct (stage_ s1); try done. by intros [= <-].
  - destruct (stage_ s1); try done.
    + destruct (t || _); [|done]. by intros [= <-].
    + destruct (t || _); [|done]. by intros [= <-].
    + destruct (t || _); [|done]. bind_some gs Eg. intros [= <-]. by eapply Hstep.
    + destruct (negb t && _); [|done]. by intros [= <-].
Qed.
End shutdown.
Arguments server S : clear implicits.

(** ** The gateway once its handlers have returned *)

(** The request whose goroutine takes the step. *)
Definition gacts (e : gevent) : option nat :=
  match e with
  | GArrive i | GResponse i _ _ | GUpstreamFailed i | GRead i _ | GEof i | GClose i
  | GCheck i | GAssemble i | GParse i | GMap i => Some i
  | _ => None
  end.

(** How far a finalizer is from its end. *)
Definition rank (g : greq) (p : proc) : nat :=
  let pending := match g_pending g with Some _ => 1 | None => 0 end%nat in
  match g_mode g with
  | RawBody => 0
  | JsonBody => match g_final g with Some FinalizeJSON => 2 | _ => 0 end + pending
  | StreamBody => match ph p with AtClose FinStart => 3 | AtClose FinWait => 2 | Finished => pending | _ => 0 end
  end%nat.

Lemma finalizing_rank g p : finalizing g p = (0 <? rank g p)%nat.
Proof.
  unfold finalizing, rank. destruct (g_mode g), (g_final g) as [[]|], (g_pending g), (ph p) as [|[]|[]|]; done.
Qed.

Definition settled (g : greq) (p : proc) : Prop := g_arrived g = true → returned g p = true.

(** Its handler's part of a request does not change any more. *)
Record same_view (g g' : greq) : Prop := {
  sv_arrived : g_arrived g' = g_arrived g;
  sv_responded : g_responded g' = g_responded g;
  sv_mode : g_mode g' = g_mode g;
  sv_finished st : g_st g = Some st → finished st = true → ∃ st', g_st g' = Some st' ∧ finished st' = true;
}.

Lemma settled_view g g' p p' : same_view g g' → (closed (ph p) = true → closed (ph p') = true) → settled g p → settled g' p'.
Proof.
  intros [Ha Hr Hm Hf] Hc Hs. unfold settled, returned in *. rewrite Ha, Hr, Hm. intros Harr.
  specialize (Hs Harr). destruct (g_responded g); [|done]. destruct (g_mode g); [done|auto|].
  destruct (g_st g) as [st|]; [|done]. by destruct (Hf st eq_refl Hs) as (st'&->&?).
Qed.

Lemma settled_same g p p' : same_phase p p' → settled g p → settled g p'.
Proof. intros (E&_) Hs. unfold settled, returned. by rewrite E. Qed.

Lemma rank_same g p p' : same_phase p p' → rank g p' = rank g p.
Proof. intros (E&_). unfold rank. by rewrite E. Qed.

Lemma on_result_finished f d st r stats {S} `{Metered S} (s : S) : finished (on_result f d st r stats s).1.2 = finished st.
Proof. unfold on_result. destruct d; [|destruct f as [[]|]]; by destruct r. Qed.

Section after_shutdown.
Context {S : Type} `{StoreSpec S, !PersistentPages S}.
Context (cfg : Config.Config) (pcfg : Collector.Config).
Context (Httl : 0 < TTL pcfg) (Hlimit : Config.MaxRequestBody (Config.limits cfg) < 2 ^ 63).
Implicit Types (gs : gstate S) (g : greq) (p : proc).

(** A step of request [i] alone. *)
Record acted gs gs' (i : nat) g' p' : Prop := {
  ac_reqs : reqs gs' = <[i := g']> (reqs gs);
  ac_procs : procs (pool gs') = <[i := p']> (procs (pool gs));
  ac_queue : queue (pool gs') = queue (pool gs);
  ac_busy : busy (pool gs') = busy (pool gs);
  ac_workers : workers (pool gs') = workers (pool gs);
  ac_cancelled : cancelled (pool gs') = cancelled (pool gs);
}.

(** What such a step leaves behind. *)
Definition advances gs gs' i g p : Prop :=
  ∃ g' p', acted gs gs' i g' p' ∧ settled g' p' ∧ (rank g' p' <= rank g p)%nat.
Definition completes gs gs' i g p : Prop :=
  ∃ g' p', acted gs gs' i g' p' ∧ settled g' p' ∧ (rank g' p' < rank g p)%nat.

Lemma completes_advances gs gs' i g p : completes gs gs' i g p → advances gs gs' i g p.
Proof. intros (g'&p'&?&?&?). exists g', p'. split_and!; [done..|lia]. Qed.

Lemma settled_mode g p : req_ok g p → settled g p → g_mode g ≠ RawBody → returned g p = true.
Proof.
  intros Hr Hs Hm. apply Hs. destruct (g_arrived g) eqn:Ha; [done|]. exfalso. apply Hm, (ro_mode g p Hr).
  by destruct (ro_new g p Hr Ha).
Qed.

Lemma settled_stream g p : req_ok g p → settled g p → g_mode g = StreamBody → closed (ph p) = true.
Proof.
  intros Hr Hs Hm. pose proof (settled_mode g p Hr Hs) as Hret. unfold returned in Hret. rewrite Hm in Hret.
  by apply andb_prop in Hret as [_ ?].
Qed.

Lemma settled_json g p : req_ok g p → settled g p → g_mode g = JsonBody → ∃ st, g_st g = Some st ∧ finished st = true.
Proof.
  intros Hr Hs Hm. pose proof (settled_mode g p Hr Hs) as Hret. unfold returned in Hret. rewrite Hm in Hret.
  apply andb_prop in Hret as [_ Hret]; [|done]. destruct (g_st g) as [st|]; [eauto|done].
Qed.

(** A collector that takes a step is a stream's. *)
Lemma busy_stream g p : req_ok g p → ph p ≠ Copying → g_mode g = StreamBody.
Proof. intros Hr Hph. apply dec_stable. intros Hm. by destruct (ro_idle g p Hr Hm). Qed.

(** A request at rest. *)
Lemma settled_rest g p : req_ok g p → settled g p → rank g p = 0%nat → g_pending g = None ∧ (ph p = Copying ∨ ph p = Finished).
Proof.
  intros Hr Hs Hz. unfold rank in Hz. destruct (g_mode g) eqn:Hm.
  - split; [by apply (ro_raw g p Hr Hm)|]. left. apply (ro_idle g p Hr). by rewrite Hm.
  - pose proof (settled_stream g p Hr Hs Hm) as Hc. destruct (ph p) as [|?|[]|]; try done.
    split; [by destruct (g_pending g)|by right].
  - split; [destruct (g_final g) as [[]|], (g_pending g); (done || lia)|]. left. apply (ro_idle g p Hr). by rewrite Hm.
Qed.

(** The continuation of a finalizer. *)
Lemma deliver_acted gs gs1 gs' i g p p' r stats : settled g p → g_mode g = StreamBody → ph p' = Finished →
  acted gs gs1 i g p' → (2 <= rank g p)%nat → deliver gs1 i g p r stats = Some gs' → completes gs gs' i g p.
Proof.
  intros Hs Hm Hph [Er Ep Eq Eb Ew Ec] Hrank. unfold deliver. bind_some st Hst.
  pose proof (on_result_finished (g_final g) (is_at_done (ph p)) st r stats (store (pool gs1))) as Hfin.
  destruct (on_result _ _ _ _ _ _) as [[s st'] a]. cbn in Hfin. intros [= <-].
  eexists _, p'. split_and!; [split; cbn; try done|..].
  - rewrite Er. apply list_insert_insert_eq.
  - eapply (settled_view g _ p); [|by rewrite Hph|done].
    destruct a; split; cbn; try done; intros st0 E0 Hf0; exists st'; (split; [done|]); congruence.
  - unfold rank at 1. destruct a; cbn; rewrite Hm, Hph; [lia|destruct (g_pending g); lia].
Qed.

Lemma check_completes gs gs' i g p : gate_ok pcfg gs → reqs gs !! i = Some g → procs (pool gs) !! i = Some p →
  settled g p → gexec cfg pcfg (GCheck i) gs = Some gs' → completes gs gs' i g p.
Proof.
  intros Hg Hi Hp Hs. pose proof (go_reqs _ gs Hg i g p Hi Hp) as Hr. cbn [gexec]. rewrite Hi, Hp. cbn [mbind option_bind].
  bind_some pst E. apply exec_step in E.
  inversion E as [| | |? q err stats Hq Hph Hc|? q Hq Hph Hc| | | | | | |]; simplify_eq; rewrite Hc;
    (assert (g_mode g = StreamBody) as Hm by (eapply busy_stream; [done|by destruct Hph as [-> | ->]]));
    pose proof (settled_stream g p Hr Hs Hm) as Hcl; (destruct Hph as [Hph|Hph]; [by rewrite Hph in Hcl|]).
  - intros Hd. eapply (deliver_acted gs _ gs' i g p (after_finalize p (Err err) false)); [done..| | | |exact Hd].
    + unfold after_finalize. cbn. by rewrite Hph.
    + split; cbn; try done. symmetry. by apply list_insert_id.
    + unfold rank. rewrite Hm, Hph. lia.
  - intros [= <-]. eexists g, _. split_and!; [split; cbn; [by rewrite list_insert_id|done..]|..].
    + eapply (settled_view g _ p); [by split; eauto|by rewrite Hph|done].
    + unfold rank. rewrite Hm. cbn [ph set_phase]. rewrite Hph. cbn. lia.
Qed.

Lemma assemble_completes gs gs' i g p : gate_ok pcfg gs → reqs gs !! i = Some g → procs (pool gs) !! i = Some p →
  settled g p → gexec cfg pcfg (GAssemble i) gs = Some gs' → completes gs gs' i g p.
Proof.
  intros Hg Hi Hp Hs. pose proof (go_reqs _ gs Hg i g p Hi Hp) as Hr. cbn [gexec]. rewrite Hi, Hp. cbn [mbind option_bind].
  bind_some pst E. destruct (exec_read pcfg i _ _ p E Hp) as (Hph&_&->).
  assert (g_mode g = StreamBody) as Hm by (eapply busy_stream; [done|by destruct Hph as [-> | ->]]).
  pose proof (settled_stream g p Hr Hs Hm) as Hcl. destruct Hph as [Hph|Hph]; [by rewrite Hph in Hcl|].
  destruct (finalize_read _ _) as [[s r] stats]. intros Hd.
  eapply (deliver_acted gs _ gs' i g p (after_finalize p r true)); [done..| | | |exact Hd].
  - unfold after_finalize. cbn. by rewrite Hph.
  - split; cbn; try done. symmetry. by apply list_insert_id.
  - unfold rank. by rewrite Hm, Hph.
Qed.

Lemma parse_completes gs gs' i g p : gate_ok pcfg gs → reqs gs !! i = Some g → procs (pool gs) !! i = Some p →
  settled g p → gexec cfg pcfg (GParse i) gs = Some gs' → completes gs gs' i g p.
Proof.
  intros Hg Hi Hp Hs. pose proof (go_reqs _ gs Hg i g p Hi Hp) as Hr. cbn [gexec]. rewrite Hi. cbn [mbind option_bind].
  bind_some st Hst. destruct (g_final g) as [[]|] eqn:Hf; try done.
  assert (g_mode g = JsonBody) as Hm.
  { destruct (g_mode g) eqn:Hm; [by destruct (ro_raw g p Hr Hm) as (_&_&?); congruence| |done].
    by destruct (ro_kind g p Hr Hm). }
  destruct (finalizeJSON_result _ _) as [s a]. intros [= <-]. eexists _, p.
  split_and!; [split; cbn; try done; symmetry; by apply list_insert_id|..].
  - eapply (settled_view g _ p); [|done..]. destruct a; split; cbn; try done; intros st0 E0 Hf0; exists st; split; congruence.
  - unfold rank. destruct a; cbn; rewrite Hm, Hf; destruct (g_pending g); lia.
Qed.

(** The write of a mapping. *)
Lemma map_advances gs gs' i g p : reqs gs !! i = Some g → procs (pool gs) !! i = Some p →
  settled g p → gexec cfg pcfg (GMap i) gs = Some gs' →
  advances gs gs' i g p ∧ (g_mode g = JsonBody ∨ g_mode g = StreamBody ∧ ph p = Finished → completes gs gs' i g p).
Proof.
  intros Hi Hp Hs. cbn [gexec]. rewrite Hi. cbn [mbind option_bind]. bind_some st Hst. bind_some a Ha. intros [= <-].
  assert (acted gs (set_req (set_pstore gs (putMapping cfg st a (store (pool gs)))) i (with_pending g None)) i (with_pending g None) p) as Hact
    by (split; cbn; try done; symmetry; by apply list_insert_id).
  assert (settled (with_pending g None) p) as Hs' by (eapply (settled_view g _ p); [split; cbn; eauto|done..]).
  split; [|intros Hm]; exists (with_pending g None), p; (split_and!; [done..|]); unfold rank; cbn; rewrite Ha.
  - destruct (g_mode g); [lia|destruct (ph p) as [|?|[]|]; lia|lia].
  - destruct Hm as [-> |[-> ->]]; lia.
Qed.

(** End of file and close find nothing left to do. *)
Lemma end_advances (e : bool) gs gs' i g p : gate_ok pcfg gs → reqs gs !! i = Some g → procs (pool gs) !! i = Some p →
  settled g p → g_mode g ≠ RawBody → end_body pcfg e gs i g = Some gs' → advances gs gs' i g p.
Proof.
  intros Hg Hi Hp Hs Hm. pose proof (go_reqs _ gs Hg i g p Hi Hp) as Hr. unfold end_body. bind_some st Hst.
  destruct (end_key e st (store (pool gs))) as (_&Hfin&Hspawn&_).
  destruct ((if e then on_eof else on_close) st (store (pool gs))) as [[s st'] f]. cbn [fst snd] in *.
  intros E. assert (finished st = true) as Hold.
  { destruct (g_mode g) eqn:Em; [done| |by destruct (settled_json g p Hr Hs Em) as (?&?&?); congruence].
    destruct (finished st); [done|]. revert E. bind_some pst Ec. destruct (exec_close pcfg i _ _ p Ec Hp) as [Hc _].
    pose proof (settled_stream g p Hr Hs Em) as Hcl. by rewrite Hc in Hcl. }
  assert (f = None) as ->. { destruct f; [|done]. rewrite Hspawn in Hold by done. done. }
  rewrite Hold in E. assert (gs' = set_req (set_pstore gs s) i (with_st g st' (g_final g))) as -> by (destruct (g_mode g); congruence).
  exists (with_st g st' (g_final g)), p. split_and!; [split; cbn; try done; symmetry; by apply list_insert_id| |done].
  eapply (settled_view g _ p); [split; cbn; eauto|done..].
Qed.

(** Once a handler has returned, only its finalizer acts, and it gets on. *)
Lemma actor_advances e gs gs' i g p : gate_ok pcfg gs → reqs gs !! i = Some g → procs (pool gs) !! i = Some p →
  settled g p → gacts e = Some i → (∀ j, e ≠ GArrive j) → gexec cfg pcfg e gs = Some gs' → advances gs gs' i g p.
Proof.
  intros Hg Hi Hp Hs Hacts Hne E. pose proof (go_reqs _ gs Hg i g p Hi Hp) as Hr.
  assert (g_arrived g && negb (g_responded g) = false) as Hover.
  { destruct (g_arrived g) eqn:Ha; [|done]. pose proof (Hs Ha) as Hret. unfold returned in Hret.
    apply andb_prop in Hret as [-> _]. done. }
  destruct e; cbn [gacts] in Hacts; try done; injection Hacts as ->.
  - by destruct (Hne i).
  - cbn [gexec] in E. by rewrite Hi in E; cbn [mbind option_bind] in E; rewrite Hover in E.
  - cbn [gexec] in E. by rewrite Hi in E; cbn [mbind option_bind] in E; rewrite Hover in E.
  - cbn [gexec] in E. rewrite Hi in E. cbn [mbind option_bind] in E.
    destruct (decide _); [|done]. destruct (g_mode g) eqn:Hm; [done| |].
    + revert E. bind_some pst Ew. destruct (exec_write pcfg i _ _ _ p Ew Hp) as (Hc&_).
      pose proof (settled_stream g p Hr Hs Hm) as Hcl. by rewrite Hc in Hcl.
    + destruct (settled_json g p Hr Hs Hm) as (st&Est&Hfin). rewrite Est in E. cbn [mbind option_bind] in E. by rewrite Hfin in E.
  - cbn [gexec] in E. rewrite Hi in E. cbn [mbind option_bind] in E.
    destruct (decide _) as [[_ Hm]|]; [|done]. by eapply end_advances.
  - cbn [gexec] in E. rewrite Hi in E. cbn [mbind option_bind] in E.
    destruct (decide _) as [[_ Hm]|]; [|done]. by eapply end_advances.
  - eapply completes_advances, check_completes; done.
  - eapply completes_advances, assemble_completes; done.
  - eapply completes_advances, parse_completes; done.
  - by eapply map_advances.
Qed.

(** *** All requests *)

(** Every handler has returned, as [Shutdown] saw it. *)
Definition all_settled gs : Prop := ∀ i g p, reqs gs !! i = Some g → procs (pool gs) !! i = Some p → settled g p.
Definition all_final gs : Prop := ∀ i g p, reqs gs !! i = Some g → procs (pool gs) !! i = Some p → rank g p = 0%nat.

Lemma requests_lookup gs i g p : requests gs !! i = Some (g, p) ↔ reqs gs !! i = Some g ∧ procs (pool gs) !! i = Some p.
Proof. unfold requests. rewrite lookup_zip_with_Some. split; [intros (?&?&?&?&?); by simplify_eq|intros []; eauto]. Qed.

Lemma idle_settled gs : idle gs = true ↔ all_settled gs.
Proof.
  unfold idle, all_settled. rewrite forallb_forall. split.
  - intros Hi i g p Eg Ep Ha. specialize (Hi (g, p)). cbn in Hi. rewrite Ha in Hi. apply Hi, list_elem_of_In.
    eapply list_elem_of_lookup_2. by apply requests_lookup.
  - intros Hs [g p] [i Hi]%list_elem_of_In%list_elem_of_lookup_1. apply requests_lookup in Hi as [Eg Ep].
    specialize (Hs i g p Eg Ep). unfold settled in Hs. destruct (g_arrived g); [by rewrite Hs|done].
Qed.

Lemma finalizeWG_final gs : finalizeWG gs = 0%nat ↔ all_final gs.
Proof.
  unfold finalizeWG, all_final. split.
  - intros Hl%length_zero_iff_nil i g p Eg Ep. assert ((g, p) ∉ List.filter (λ '(g, p), finalizing g p) (requests gs)) as Hn by (rewrite Hl; apply not_elem_of_nil).
    destruct (Nat.ltb_spec 0 (rank g p)) as [Hlt|]; [|lia]. exfalso. apply Hn, list_elem_of_In, filter_In. split.
    + apply list_elem_of_In. eapply list_elem_of_lookup_2. by apply requests_lookup.
    + rewrite finalizing_rank. by apply Nat.ltb_lt.
  - intros Hf. destruct (List.filter _ _) as [|[g p] l] eqn:E; [done|]. exfalso.
    assert (In (g, p) (List.filter (λ '(g, p), finalizing g p) (requests gs))) as [Hin Hfin]%filter_In by (rewrite E; by left).
    apply list_elem_of_In, list_elem_of_lookup_1 in Hin as [i [Eg Ep]%requests_lookup].
    rewrite finalizing_rank, (Hf i g p Eg Ep) in Hfin. done.
Qed.

Lemma gexec_actor e gs gs' i : gacts e = Some i → gexec cfg pcfg e gs = Some gs' → ∃ g, reqs gs !! i = Some g.
Proof.
  destruct e; try done; intros [= ->]; cbn [gexec]; destruct (reqs gs !! i) as [g|]; try done; eauto.
Qed.

(** The steps of the workers and [Stop] are the pool's. *)
Lemma gexec_worker e gs gs' : gacts e = None → gexec cfg pcfg e gs = Some gs' →
  ∃ pe pst, exec pcfg pe (pool gs) = Some pst ∧ acts pe = None ∧ gs' = set_pool gs pst.
Proof.
  destruct e; try done; intros _; cbn [gexec]; bind_some pst E; intros [= <-]; eexists _, pst; (split; [exact E|done]).
Qed.

Lemma exec_queue pe (st st' : @state S) : exec pcfg pe st = Some st' → acts pe = None → queue st = [] → queue st' = [].
Proof. intros E Ha Hq0. by step_cases E; cbn in *; try done; rewrite Hq0 in Hq. Qed.

Lemma acted_each (P : greq → proc → Prop) gs gs' i g' p' : acted gs gs' i g' p' → P g' p' →
  (∀ j g p, reqs gs !! j = Some g → procs (pool gs) !! j = Some p → P g p) →
  ∀ j g p, reqs gs' !! j = Some g → procs (pool gs') !! j = Some p → P g p.
Proof.
  intros [Er Ep _ _ _ _] Hi Hall j g p. rewrite Er, Ep.
  intros [(->&->&_)|(Hj&Hg)]%list_lookup_insert_Some [(Hj'&->&_)|(Hj'&Hp)]%list_lookup_insert_Some; [done|congruence|congruence|eauto].
Qed.

Lemma worker_each (P : greq → proc → Prop) gs pe pst : gate_ok pcfg gs → exec pcfg pe (pool gs) = Some pst → acts pe = None →
  (∀ g p p', same_phase p p' → P g p → P g p') →
  (∀ j g p, reqs gs !! j = Some g → procs (pool gs) !! j = Some p → P g p) →
  ∀ j g p, reqs gs !! j = Some g → procs pst !! j = Some p → P g p.
Proof.
  intros Hg E Ha Hsame Hall j g p' Eg Ep'. destruct (go_proc pcfg gs j g Hg Eg) as (p&Ep&_).
  destruct (exec_others pcfg pe _ _ j p E) as (p''&Ep''&Hs); [by rewrite Ha|done|].
  rewrite Ep'' in Ep'. injection Ep' as ->. eauto.
Qed.

(** With no handler running, nothing is queued any more and no finalizer starts. *)
Lemma quiet_step e gs gs' : gate_ok pcfg gs → all_settled gs → (∀ j, e ≠ GArrive j) → gexec cfg pcfg e gs = Some gs' →
  all_settled gs' ∧ (all_final gs → all_final gs') ∧ (queue (pool gs) = [] → queue (pool gs') = []).
Proof.
  intros Hg Hs Hne E. destruct (gacts e) as [i|] eqn:Ha.
  - destruct (gexec_actor e gs gs' i Ha E) as [g Hi]. destruct (go_proc pcfg gs i g Hg Hi) as (p&Hp&_).
    destruct (actor_advances e gs gs' i g p Hg Hi Hp (Hs i g p Hi Hp) Ha Hne E) as (g'&p'&Hact&Hset&Hrank).
    split_and!.
    + exact (acted_each settled gs gs' i g' p' Hact Hset Hs).
    + intros Hf. rewrite (Hf i g p Hi Hp) in Hrank. exact (acted_each (λ g p, rank g p = 0%nat) gs gs' i g' p' Hact ltac:(cbn; lia) Hf).
    + by rewrite (ac_queue _ _ _ _ _ Hact).
  - destruct (gexec_worker e gs gs' Ha E) as (pe&pst&Ep&Hpe&->). split_and!.
    + exact (worker_each settled gs pe pst Hg Ep Hpe settled_same Hs).
    + intros Hf. refine (worker_each (λ g p, rank g p = 0%nat) gs pe pst Hg Ep Hpe _ Hf). intros g p p' Hsame <-. by apply rank_same.
    + by apply (exec_queue pe).
Qed.

Lemma exec_cancelled pe (st st' : @state S) : exec pcfg pe st = Some st' → pe ≠ ECancel → cancelled st' = cancelled st.
Proof. intros E Hn. by step_cases E. Qed.

Lemma deliver_cancelled gs gs' i g p r stats : deliver gs i g p r stats = Some gs' → cancelled (pool gs') = cancelled (pool gs).
Proof. unfold deliver. bind_some st Hst. destruct (on_result _ _ _ _ _ _) as [[s st'] a]. by intros [= <-]. Qed.

Lemma gexec_cancelled e gs gs' : gexec cfg pcfg e gs = Some gs' → e ≠ GStop → cancelled (pool gs') = cancelled (pool gs).
Proof.
  assert (∀ b i g, end_body pcfg b gs i g = Some gs' → cancelled (pool gs') = cancelled (pool gs)) as Hend.
  { intros b i g. unfold end_body. bind_some st Hst. destruct ((if b then on_eof else on_close) st _) as [[s st'] f].
    destruct (g_mode g); [by intros [= <-]| |by intros [= <-]]. destruct (finished st); [by intros [= <-]|].
    bind_some pst E. intros [= <-]. cbn [pool set_pool]. by rewrite (exec_cancelled _ _ _ E). }
  destruct e; cbn [gexec]; try bind_some g Hi; intros E Hn.
  - destruct (g_arrived g); [done|]. destruct (ServeHTTP _ _ _ _ _) as [s d]. by injection E as <-.
  - destruct (_ && _); [|done]. destruct (modifyResponse _ _ _ _). by injection E as <-.
  - destruct (_ && _); [|done]. by injection E as <-.
  - destruct (decide _); [|done]. destruct (g_mode g); [done| |].
    + revert E. bind_some pst E. intros [= <-]. by rewrite <-(exec_cancelled _ _ _ E).
    + revert E. bind_some st E. destruct (finished st); [done|]. by intros [= <-].
  - destruct (decide _); [|done]. by eapply Hend.
  - destruct (decide _); [|done]. by eapply Hend.
  - revert E. bind_some p Hp. bind_some pst E. rewrite <-(exec_cancelled _ _ _ E) by done.
    destruct (finalize_check _) as [[err stats]|]; [|by intros [= <-]]. by intros ->%deliver_cancelled.
  - revert E. bind_some p Hp. bind_some pst E. rewrite <-(exec_cancelled _ _ _ E) by done.
    destruct (finalize_read _ _) as [[s r] stats]. by intros ->%deliver_cancelled.
  - revert E. bind_some st Hst. destruct (g_final g) as [[]|]; try done. destruct (finalizeJSON_result _ _) as [s a]. by intros [= <-].
  - revert E. bind_some st Hst. bind_some a Ha. by intros [= <-].
  - by injection E as <-; rewrite <-(exec_cancelled _ _ _ Hi).
  - by injection E as <-; rewrite <-(exec_cancelled _ _ _ Hi).
  - by injection E as <-; rewrite <-(exec_cancelled _ _ _ Hi).
  - done.
  - by injection E as <-; rewrite <-(exec_cancelled _ _ _ Hi).
Qed.

(** *** The finalizers that are left *)

Definition finalizer_gevent (e : gevent) : Prop :=
  match e with GCheck _ | GAssemble _ | GParse _ | GMap _ => True | _ => False end.

(** A finalizer that has not ended can take a step, once its pages are settled. *)
Lemma finalizer_enabled gs i g p : gate_ok pcfg gs → reqs gs !! i = Some g → procs (pool gs) !! i = Some p →
  settled g p → inflight (coll p) = 0 → (0 < rank g p)%nat →
  ∃ e gs', finalizer_gevent e ∧ gexec cfg pcfg e gs = Some gs' ∧ completes gs gs' i g p.
Proof.
  intros Hg Hi Hp Hs Hin Hrank. pose proof (go_reqs _ gs Hg i g p Hi Hp) as Hr.
  assert (g_mode g ≠ RawBody) as Hraw by (intros Hm; unfold rank in Hrank; rewrite Hm in Hrank; lia).
  destruct (ro_part g p Hr Hraw) as (st&Hst&_).
  assert (∀ a, g_pending g = Some a → g_mode g = JsonBody ∨ g_mode g = StreamBody ∧ ph p = Finished →
    ∃ e gs', finalizer_gevent e ∧ gexec cfg pcfg e gs = Some gs' ∧ completes gs gs' i g p) as Hmap.
  { intros a Ha Hm. assert (is_Some (gexec cfg pcfg (GMap i) gs)) as [gs' E].
    { cbn [gexec]. rewrite Hi. cbn [mbind option_bind]. rewrite Hst. cbn [mbind option_bind]. rewrite Ha. cbn [mbind option_bind]. eauto. }
    exists (GMap i), gs'. split_and!; [done..|]. by eapply map_advances. }
  assert (∀ r stats gs1, is_Some (deliver gs1 i g p r stats)) as Hdeliver.
  { intros r stats gs1. unfold deliver. rewrite Hst. cbn [mbind option_bind]. destruct (on_result _ _ _ _ _ _) as [[? ?] ?]. eauto. }
  unfold rank in Hrank. destruct (g_mode g) eqn:Hm; [done| |].
  - destruct (ph p) as [|?|[]|] eqn:Hph; [lia..| | |].
    + assert (is_Some (gexec cfg pcfg (GCheck i) gs)) as [gs' E].
      { cbn [gexec]. rewrite Hi. cbn [mbind option_bind]. rewrite Hp. cbn [mbind option_bind exec]. rewrite Hp. cbn [mbind option_bind]. rewrite Hph.
        destruct (finalize_check (coll p)) as [[err stats]|]; cbn [mbind option_bind]; [apply Hdeliver|eauto]. }
      exists (GCheck i), gs'. split_and!; [done..|]. by eapply check_completes.
    + assert (is_Some (gexec cfg pcfg (GAssemble i) gs)) as [gs' E].
      { cbn [gexec]. rewrite Hi. cbn [mbind option_bind]. rewrite Hp. cbn [mbind option_bind exec]. rewrite Hp. cbn [mbind option_bind]. rewrite Hph, Hin.
        cbn [Z.eqb]. destruct (finalize_read (coll p) (store (pool gs))) as [[s r] stats]. cbn [mbind option_bind]. apply Hdeliver. }
      exists (GAssemble i), gs'. split_and!; [done..|]. by eapply assemble_completes.
    + destruct (g_pending g) as [a|] eqn:Ha; [|lia]. eapply Hmap; eauto.
  - destruct (decide (is_Some (g_pending g))) as [[a Ha]|Hn]; [eapply Hmap; eauto|].
    destruct (g_pending g); [by destruct Hn|]. destruct (g_final g) as [[]|] eqn:Hf; try (cbn in Hrank; lia).
    assert (is_Some (gexec cfg pcfg (GParse i) gs)) as [gs' E].
    { cbn [gexec]. rewrite Hi. cbn [mbind option_bind]. rewrite Hst. cbn [mbind option_bind]. rewrite Hf.
      destruct (finalizeJSON_result _ _). eauto. }
    exists (GParse i), gs'. split_and!; [done..|]. by eapply parse_completes.
Qed.

Definition total_rank gs : nat := sum_list (zip_with rank (reqs gs) (procs (pool gs))).

Lemma acted_total gs gs' i g p g' p' : reqs gs !! i = Some g → procs (pool gs) !! i = Some p →
  acted gs gs' i g' p' → (total_rank gs' + rank g p = total_rank gs + rank g' p')%nat.
Proof.
  intros Hi Hp [Er Ep _ _ _ _]. unfold total_rank. rewrite Er, Ep, <-insert_zip_with. apply sum_list_insert.
  apply lookup_zip_with_Some. eauto.
Qed.

(** What holds while [main] waits for the finalizers. *)
Record draining gs : Prop := {
  dr_ok : gate_ok pcfg gs;
  dr_settled : all_settled gs;
  dr_queue : queue (pool gs) = [];
  dr_busy : busy (pool gs) = [];
}.

Lemma draining_inflight gs i p : draining gs → procs (pool gs) !! i = Some p → inflight (coll p) = 0.
Proof.
  intros [Hok _ Hq Hb] Hp. rewrite (po_inflight _ _ _ _ (ok_procs _ _ (safe_ok _ _ (go_pool _ gs Hok)) i p Hp)).
  unfold jobs. by rewrite Hq, Hb.
Qed.

Lemma finish_finalizers gs : draining gs →
  ∃ es gs', Forall finalizer_gevent es ∧ gexecs cfg pcfg es gs = Some gs' ∧ draining gs' ∧ all_final gs' ∧
    workers (pool gs') = workers (pool gs) ∧ cancelled (pool gs') = cancelled (pool gs).
Proof.
  remember (total_rank gs) as n eqn:En. revert gs En. induction n as [n IH] using lt_wf_ind. intros gs -> Hd.
  destruct (decide (finalizeWG gs = 0%nat)) as [Hz|Hnz].
  { exists [], gs. split_and!; try done. by apply finalizeWG_final. }
  assert (∃ i g p, reqs gs !! i = Some g ∧ procs (pool gs) !! i = Some p ∧ (0 < rank g p)%nat) as (i&g&p&Hi&Hp&Hrank).
  { unfold finalizeWG in Hnz. destruct (List.filter _ _) as [|[g p] l] eqn:E; [done|].
    assert (In (g, p) (List.filter (λ '(g, p), finalizing g p) (requests gs))) as [Hin Hfin]%filter_In by (rewrite E; by left).
    apply list_elem_of_In, list_elem_of_lookup_1 in Hin as [i [Eg Ep]%requests_lookup].
    exists i, g, p. split_and!; [done..|]. rewrite finalizing_rank in Hfin. by apply Nat.ltb_lt. }
  destruct (finalizer_enabled gs i g p (dr_ok gs Hd) Hi Hp (dr_settled gs Hd i g p Hi Hp)) as (e&gs1&He&E&(g'&p'&Hact&Hs'&Hlt));
    [by eapply draining_inflight|done|].
  pose proof (acted_total gs gs1 i g p g' p' Hi Hp Hact) as Htot. destruct Hact as [Er Ep Eq Eb Ew Ec] eqn:Ha.
  assert (draining gs1) as Hd1.
  { destruct Hd as [Hok Hset Hq Hb]. split; [by eapply gate_step| |by rewrite Eq|by rewrite Eb].
    exact (acted_each settled gs gs1 i g' p' Hact Hs' Hset). }
  destruct (IH (total_rank gs1) ltac:(lia) gs1 eq_refl Hd1) as (es&gs2&Hes&E2&Hd2&Hf2&Hw2&Hc2).
  exists (e :: es), gs2. split_and!; [by constructor| |done|done|congruence|congruence].
  cbn [gexecs]. by rewrite E.
Qed.
End after_shutdown.

(** ** The invariant of the sequence *)

Definition stage_no (s : stage) : nat :=
  match s with Serving | Failed => 0 | InShutdown => 1 | InDrain => 2 | InWaitFinalize => 3 | InStop => 4 | Exited => 5 end.

Section invariant.
Context {S : Type} `{StoreSpec S, !PersistentPages S, !Closer S}.
Context (cfg : Config.Config) (pcfg : Collector.Config).
Context (Httl : 0 < TTL pcfg) (Hlimit : Config.MaxRequestBody (Config.limits cfg) < 2 ^ 63).
Implicit Types (s : server S).

(** What the waits that did not give up have established. *)
Record stage_ok s : Prop := {
  so_gate : gate_ok pcfg (gate s);
  so_running : (stage_no (stage_ s) < 4)%nat → cancelled (pool (gate s)) = false;
  so_stopped : (4 <= stage_no (stage_ s))%nat → cancelled (pool (gate s)) = true;
  so_settled : timed_out s = false → (2 <= stage_no (stage_ s))%nat → all_settled (gate s);
  so_drained : timed_out s = false → (3 <= stage_no (stage_ s))%nat → queue (pool (gate s)) = [];
  so_final : timed_out s = false → (4 <= stage_no (stage_ s))%nat → all_final (gate s);
  so_exited : (5 <= stage_no (stage_ s))%nat → workers (pool (gate s)) = O;
  so_open : (stage_no (stage_ s) < 5)%nat → closed_store s = None;
  so_closed : (5 <= stage_no (stage_ s))%nat → closed_store s = Some (Close (store (pool (gate s)))).1;
}.

Lemma stage_gate e s gs : stage_ok s → allowed e s = true → gexec cfg pcfg e (gate s) = Some gs →
  stage_ok (with_gate s gs).
Proof.
  intros [Hg Hrun Hstop Hset Hq Hfin Hex Hopen Hclosed] Ha E.
  assert (e ≠ GStop) as Hns by (by intros ->).
  assert (stage_ s ≠ Exited ∧ stage_ s ≠ Failed) as [Hne Hne'] by (split; intros Est; unfold allowed in Ha; rewrite Est in Ha; by destruct e).
  assert (timed_out s = false → (2 <= stage_no (stage_ s))%nat → ∀ j, e ≠ GArrive j) as Harr.
  { intros Ht Hno j ->. unfold allowed in Ha. destruct (stage_ s); cbn in Hno; try lia; congruence. }
  pose proof (gexec_cancelled cfg pcfg e _ _ E Hns) as Hc.
  split; cbn [gate stage_ timed_out closed_store with_gate]; rewrite ?Hc; try done.
  - by eapply gate_step.
  - intros Ht Hno. by destruct (quiet_step cfg pcfg e (gate s) gs Hg (Hset Ht Hno) (Harr Ht Hno) E) as (?&_).
  - intros Ht Hno. destruct (quiet_step cfg pcfg e (gate s) gs Hg (Hset Ht ltac:(lia)) (Harr Ht ltac:(lia)) E) as (_&_&Hq'). auto.
  - intros Ht Hno. destruct (quiet_step cfg pcfg e (gate s) gs Hg (Hset Ht ltac:(lia)) (Harr Ht ltac:(lia)) E) as (_&Hf'&_). auto.
  - intros Hno. destruct (stage_ s); cbn in Hno; try lia. done.
  - intros Hno. destruct (stage_ s); cbn in Hno; try lia. done.
Qed.

(** A clause that held before. *)
Ltac held_before := intros; match goal with H : _ → _ |- _ => apply H; solve [assumption | lia] end.

Lemma stage_step e s s' : stage_ok s → sexec cfg pcfg e s = Some s' → stage_ok s'.
Proof.
  intros Hs. destruct e as [e| | |t]; cbn [sexec].
  - destruct (allowed e s) eqn:Ha; [|done]. bind_some gs E. intros [= <-]. by eapply stage_gate.
  - destruct Hs. destruct (stage_ s) eqn:Est; try done. intros [= <-]. split; cbn in *; try done; try lia; held_before.
  - destruct Hs. destruct (stage_ s) eqn:Est; try done. intros [= <-]. split; cbn in *; try done; try lia; held_before.
  - destruct Hs as [Hg Hrun Hstop Hset Hq Hfin Hex Hopen Hclosed]. destruct (stage_ s) eqn:Est; try done; cbn in *.
    + destruct (t || idle (gate s)) eqn:Et; [|done]. intros [= <-]. split; cbn; try done; try lia; try held_before.
      intros [_ ->]%orb_false_iff _. by apply idle_settled.
    + destruct (t || _) eqn:Et; [|done]. intros [= <-]. split; cbn; try done; try lia; try held_before.
      * intros [Ht _]%orb_false_iff _. held_before.
      * intros [_ ->]%orb_false_iff _. by apply bool_decide_eq_true in Et.
    + destruct (t || _) eqn:Et; [|done]. intros [= <-]. split; cbn; try done; try lia; try held_before.
      * by eapply (gate_step cfg pcfg Httl Hlimit GStop).
      * intros [Ht _]%orb_false_iff _. held_before.
      * intros [Ht _]%orb_false_iff _. held_before.
      * intros [_ ->]%orb_false_iff _. apply Nat.eqb_eq in Et. by apply finalizeWG_final in Et.
    + destruct (negb t && _) eqn:Et; [|done]. apply andb_prop in Et as [_ Et%Nat.eqb_eq].
      intros [= <-]. split; cbn; rewrite ?orb_false_r; try done; try lia; held_before.
Qed.
End invariant.

(** ** Runs of the process *)

Section runs.
Context {W : Type} `{redis_laws W, !redis_persistent W}.
Context (cfg : Config.Config) (pcfg : Collector.Config).
Context (Httl : 0 < TTL pcfg) (Hlimit : Config.MaxRequestBody (Config.limits cfg) < 2 ^ 63).

Lemma sreachable_ok (s0 : RedisStore W) n rs s : fresh_run s0 rs → sreachable cfg pcfg s0 n rs s → stage_ok pcfg s.
Proof.
  intros Hf [es E]. assert (stage_ok pcfg (boot (ginit pcfg s0 n rs))) as Hboot.
  { destruct (fresh_reachable cfg pcfg s0 n rs (ginit pcfg s0 n rs) Httl Hlimit Hf) as [Hg _]; [by exists []|].
    split; cbn; try done; lia. }
  revert E Hboot. generalize (boot (ginit pcfg s0 n rs)). induction es as [|e es IH]; intros s1; cbn [sexecs]; [by intros [= <-]|].
  bind_some s2 E. intros Es Hs. apply (IH s2 Es). by eapply (stage_step cfg pcfg Httl Hlimit).
Qed.

(** What [main] does by itself, its workers and its finalizers. *)
Definition own_step (e : sevent) : Prop :=
  match e with
  | MGate e => worker_gevent e ∨ finalizer_gevent e ∨ e = GExit
  | MServeError | MSignal => False
  | MWait t => t = false
  end.

(** Runs of the gateway are runs of the server. *)
Lemma lift_gexecs es (s : server (RedisStore W)) gs : Forall (λ e, own_step (MGate e)) es → (0 < stage_no (stage_ s) < 5)%nat →
  gexecs cfg pcfg es (gate s) = Some gs →
  sexecs cfg pcfg (map MGate es) s = Some (with_gate s gs).
Proof.
  intros Hes Hne. revert s Hne. induction Hes as [|e es He Hes IH]; intros s Hne; cbn [gexecs map sexecs].
  { intros [= <-]. by destruct s. }
  bind_some gs1 E. intros Es. assert (allowed e s = true) as Ha.
  { unfold allowed. destruct He as [He|[He|He]]; destruct (stage_ s); cbn in Hne; try lia; by destruct e. }
  cbn [sexec]. rewrite Ha, E. cbn [mbind option_bind].
  exact (IH (with_gate s gs1) Hne Es).
Qed.

Lemma lift_exits n (gs : gstate (RedisStore W)) st : execs pcfg (replicate n EExit) (pool gs) = Some st →
  gexecs cfg pcfg (replicate n GExit) gs = Some (set_pool gs st).
Proof.
  revert gs. induction n as [|n IH]; intros gs; cbn [replicate execs gexecs]; [intros [= <-]; by destruct gs|].
  bind_some st1 E. intros Es. cbn [gexec]. rewrite E. cbn [mbind option_bind]. by rewrite (IH (set_pool gs st1)).
Qed.

(** Workers keep what [Shutdown] established. *)
Lemma workers_quiet es (gs gs' : gstate (RedisStore W)) : Forall worker_gevent es → gate_ok pcfg gs → all_settled gs →
  gexecs cfg pcfg es gs = Some gs' → gate_ok pcfg gs' ∧ all_settled gs' ∧ cancelled (pool gs') = cancelled (pool gs).
Proof.
  intros Hes. revert gs. induction Hes as [|e es He Hes IH]; intros gs Hg Hs; cbn [gexecs]; [by intros [= <-]|].
  bind_some gs1 E. intros Es.
  destruct (quiet_step cfg pcfg e gs gs1 Hg Hs) as (Hs1&_); [by intros j ->|done|].
  destruct (IH gs1) as (?&?&Hc); [by eapply gate_step|done..|]. split_and!; [done..|].
  rewrite Hc. eapply gexec_cancelled; [exact E|by intros ->].
Qed.

(** Each wait of [main] after [Shutdown] can end without its time-out. *)
Lemma drain_ends s : stage_ok pcfg s → stage_ s = InDrain → timed_out s = false → (0 < workers (pool (gate s)))%nat →
  ∃ es s', Forall own_step es ∧ sexecs cfg pcfg es s = Some s' ∧ draining pcfg (gate s') ∧ stage_ s' = InWaitFinalize ∧
    timed_out s' = false.
Proof.
  intros Hs Est Ht Hw. pose proof (so_gate _ s Hs) as Hg.
  pose proof (so_settled _ s Hs Ht ltac:(rewrite Est; cbn; lia)) as Hset.
  destruct (drain_all pcfg (pool (gate s)) (safe_ok _ _ (go_pool _ _ Hg)) Hw) as (es&st&Hes&E&Hq&Hb&_).
  pose proof (lift_execs cfg pcfg es (gate s) st Hes E) as Eg. pose proof (lift_workers es Hes) as Hwes.
  destruct (workers_quiet _ _ _ Hwes Hg Hset Eg) as (Hg1&Hset1&_).
  exists (map MGate (map lift_event es) ++ [MWait false]), (proceed s (set_pool (gate s) st) InWaitFinalize false).
  split_and!; [|..|by cbn; rewrite Ht].
  - apply Forall_app. split; [|by repeat constructor]. apply Forall_map. eapply Forall_impl; [exact Hwes|]. by left.
  - rewrite sexecs_app, (lift_gexecs _ s _ ltac:(by eapply Forall_impl; [exact Hwes|left]) ltac:(rewrite Est; cbn; lia) Eg).
    cbn [mbind option_bind sexecs sexec stage_ gate with_gate]. rewrite Est. cbn [orb]. unfold drained. cbn [pool set_pool]. by rewrite bool_decide_eq_true_2.
  - by split.
  - done.
Qed.

Lemma finalizers_end s : draining pcfg (gate s) → stage_ s = InWaitFinalize → timed_out s = false →
  ∃ es s', Forall own_step es ∧ sexecs cfg pcfg es s = Some s' ∧ busy (pool (gate s')) = [] ∧
    cancelled (pool (gate s')) = true ∧ stage_ s' = InStop ∧ timed_out s' = false.
Proof.
  intros Hd Est Ht. destruct (finish_finalizers cfg pcfg Httl Hlimit (gate s) Hd) as (es&gs&Hes&E&Hd'&Hf%finalizeWG_final&_).
  destruct (gexec cfg pcfg GStop gs) as [gs'|] eqn:Estop; [|done].
  exists (map MGate es ++ [MWait false]), (proceed s gs' InStop false). cbn [gexec exec mbind option_bind] in Estop. injection Estop as <-.
  split_and!; [| | | | |by cbn; rewrite Ht]; try done.
  - apply Forall_app. split; [|by repeat constructor]. apply Forall_map. eapply Forall_impl; [exact Hes|]. intros e He. right. by left.
  - rewrite sexecs_app, (lift_gexecs _ s gs); [|eapply Forall_impl; [exact Hes|]; intros e He; right; by left|rewrite Est; cbn; lia|done].
    cbn [mbind option_bind sexecs sexec stage_ gate with_gate]. by rewrite Est, Hf.
  - apply Hd'.
Qed.

Lemma stop_ends s : busy (pool (gate s)) = [] → cancelled (pool (gate s)) = true → stage_ s = InStop → timed_out s = false →
  ∃ es s', Forall own_step es ∧ sexecs cfg pcfg es s = Some s' ∧ stage_ s' = Exited ∧ timed_out s' = false.
Proof.
  intros Hb Hc Est Ht. destruct (all_exit pcfg (pool (gate s)) Hc Hb) as (st&E&Hw&_).
  pose proof (lift_exits _ (gate s) st E) as Eg.
  exists (map MGate (replicate (workers (pool (gate s))) GExit) ++ [MWait false]), (close_store (proceed s (set_pool (gate s) st) Exited false)).
  assert (Forall (λ e, own_step (MGate e)) (replicate (workers (pool (gate s))) GExit)) as Hown
    by (apply Forall_replicate; right; by right).
  split_and!; [| |done|by cbn; rewrite Ht].
  - apply Forall_app. split; [by apply Forall_map|by repeat constructor].
  - rewrite sexecs_app, (lift_gexecs _ s _ Hown ltac:(rewrite Est; cbn; lia) Eg).
    cbn [mbind option_bind sexecs sexec stage_ gate with_gate]. rewrite Est. unfold stopped. cbn [negb andb pool set_pool]. by rewrite Hw.
Qed.
End runs.

(** ** Properties *)

(** A client that hangs up in the middle of a stream while the server is asked to
    stop, with a page still queued. *)
Definition halt_events : list sevent :=
  [MGate (GArrive 0); MGate (GResponse 0 200 (str "text/event-stream")); MGate (GRead 0 piece1); MSignal;
   MGate (GClose 0); MWait false].
Definition exit_events : list sevent :=
  map MGate [GTake; GPut 0; GSettle 0] ++ [MWait false] ++ map MGate [GCheck 0; GAssemble 0] ++
  [MWait false; MGate GExit; MGate GExit; MWait false].
Definition demo_server : server (RedisStore MemRedis) := boot demo_start.
Definition demo_draining : server (RedisStore MemRedis) :=
  default demo_server (sexecs demo_config (pool_config demo_config) halt_events demo_server).
Definition demo_exited : server (RedisStore MemRedis) :=
  default demo_server (sexecs demo_config (pool_config demo_config) (halt_events ++ exit_events) demo_server).
Definition exited_greq : greq := default (new_greq run_request) (reqs (gate demo_exited) !! 0%nat).
Definition exited_proc : proc := default demo_proc (procs (pool (gate demo_exited)) !! 0%nat).

(** [C16] A shutdown none of whose waits gave up loses nothing: when the process
    ends every handler has returned, no finalizer is left and no message is
    without its mapping written, nothing is queued or being written, and every
    page of a collector that has not failed or been finalized is in the store,
    which was closed after the last worker had left. *)
Theorem clean_shutdown {W} `{redis_laws W, !redis_persistent W} cfg pcfg (s0 : RedisStore W) n rs s i g p :
  0 < TTL pcfg → Config.MaxRequestBody (Config.limits cfg) < 2 ^ 63 → fresh_run s0 rs →
  sreachable cfg pcfg s0 n rs s → stage_ s = Exited → timed_out s = false →
  reqs (gate s) !! i = Some g → procs (pool (gate s)) !! i = Some p →
  (g_arrived g = true → returned g p = true) ∧ finalizing g p = false ∧ g_pending g = None ∧
  (ph p = Copying ∨ ph p = Finished) ∧ inflight (coll p) = 0 ∧
  queue (pool (gate s)) = [] ∧ busy (pool (gate s)) = [] ∧ workers (pool (gate s)) = O ∧
  closed_store s = Some (redis_Close (store (pool (gate s)))).1 ∧
  (failed (coll p) = false → deleted p = false → ∀ k, 1 <= k <= c_seq (coll p) →
     held (store (pool (gate s))) (c_requestID (coll p)) k).
Proof.
  intros Httl Hlim Hf Hreach Est Ht Hi Hp.
  destruct (sreachable_ok cfg pcfg Httl Hlim s0 n rs s Hf Hreach) as [Hg _ _ Hset Hq Hfin Hex _ Hclosed].
  rewrite Est in *. cbn in *. specialize (Hset Ht ltac:(lia) i g p Hi Hp). specialize (Hfin Ht ltac:(lia) i g p Hi Hp).
  specialize (Hq Ht ltac:(lia)). specialize (Hex ltac:(lia)). pose proof (safe_ok _ _ (go_pool _ _ Hg)) as Hok.
  assert (busy (pool (gate s)) = []) as Hb by (pose proof (ok_busy _ _ Hok); apply nil_length_inv; lia).
  assert (jobs (pool (gate s)) = []) as Hjobs by (unfold jobs; by rewrite Hq, Hb).
  pose proof (go_reqs _ _ Hg i g p Hi Hp) as Hr.
  destruct (settled_rest g p Hr Hset Hfin) as [Hpend Hph].
  split_and!; try done.
  - by rewrite finalizing_rank, Hfin.
  - rewrite (po_inflight _ _ _ _ (ok_procs _ _ Hok i p Hp)). by rewrite Hjobs.
  - apply Hclosed. lia.
  - intros Hnf Hnd k Hk. destruct (safe_procs _ _ (go_pool _ _ Hg) i p Hp Hnf Hnd k Hk) as [?|(j&Hj&_)]; [done|].
    rewrite Hjobs in Hj. by apply not_elem_of_nil in Hj.
Qed.

Lemma clean_shutdown_witness : finalizing exited_greq exited_proc = false ∧ inflight (coll exited_proc) = 0.
Proof.
  refine (let H := clean_shutdown demo_config (pool_config demo_config) mem_store 2 [run_request] demo_exited 0
    exited_greq exited_proc _ _ run_fresh _ _ _ _ _ in
    conj (proj1 (proj2 H)) (proj1 (proj2 (proj2 (proj2 (proj2 H)))))).
  - vm_compute. reflexivity.
  - vm_compute. reflexivity.
  - exists (halt_events ++ exit_events). apply succeeds_default. vm_compute. reflexivity.
  - vm_compute. reflexivity.
  - vm_compute. reflexivity.
  - apply succeeds_default. vm_compute. reflexivity.
  - apply succeeds_default. vm_compute. reflexivity.
Defined.

(** [C17] The shutdown sequence gets through: once the HTTP server's [Shutdown] has
    returned with every handler done, there is a run of the workers, the
    finalizers and [main] itself - no other step, no time-out - that drains the
    queue, ends every finalizer, stops the workers and ends the process. *)
Theorem shutdown_completes {W} `{redis_laws W, !redis_persistent W} ReadFile Unmarshal path cfg (s0 : RedisStore W) rs s :
  Config.Load ReadFile Unmarshal path = Ok cfg → Config.MaxRequestBody (Config.limits cfg) < 2 ^ 63 → fresh_run s0 rs →
  sreachable cfg (pool_config cfg) s0 (Z.to_nat (Config.Workers (Config.response_cache cfg))) rs s →
  stage_ s = InDrain → timed_out s = false →
  ∃ es s', Forall own_step es ∧ sexecs cfg (pool_config cfg) es s = Some s' ∧ stage_ s' = Exited ∧ timed_out s' = false.
Proof.
  intros Hload%Config.Load_valid Hlim Hf Hreach Est Ht.
  pose proof (Config.valid_cache cfg Hload : 0 < TTL (pool_config cfg)) as Httl.
  pose proof (sreachable_ok cfg _ Httl Hlim s0 _ rs s Hf Hreach) as Hs.
  pose proof (so_running _ s Hs ltac:(rewrite Est; cbn; lia)) as Hc.
  pose proof (workers_live cfg s0 rs (gate s) Hload Hlim Hf (sreachable_gate _ _ _ _ _ _ Hreach) Hc) as Hw.
  destruct (drain_ends cfg _ Httl Hlim s Hs Est Ht Hw) as (es1&s1&H1&E1&Hd&Est1&Ht1).
  destruct (finalizers_end cfg _ Httl Hlim s1 Hd Est1 Ht1) as (es2&s2&H2&E2&Hb&Hc2&Est2&Ht2).
  destruct (stop_ends cfg (pool_config cfg) s2 Hb Hc2 Est2 Ht2) as (es3&s3&H3&E3&Est3&Ht3).
  exists (es1 ++ es2 ++ es3), s3. split_and!; [|by rewrite sexecs_app, E1; cbn; rewrite sexecs_app, E2|done..].
  by rewrite !Forall_app.
Qed.

Lemma shutdown_completes_witness : ∃ es s', Forall own_step es ∧
  sexecs demo_config (pool_config demo_config) es demo_draining = Some s' ∧ stage_ s' = Exited ∧ timed_out s' = false.
Proof.
  refine (shutdown_completes (λ _, Some []) (λ _ _, Some demo_config) (str "config.yml") demo_config mem_store
    [run_request] demo_draining _ _ run_fresh _ _ _).
  - vm_compute. reflexivity.
  - vm_compute. reflexivity.
  - exists halt_events. apply succeeds_default. vm_compute. reflexivity.
  - vm_compute. reflexivity.
  - vm_compute. reflexivity.
Defined.

(** The waits matter: [main] moves on with a page still queued only by a time-out. *)
Example drain_waits : sexec demo_config (pool_config demo_config) (MWait false) demo_draining = None
  ∧ succeeds (sexec demo_config (pool_config demo_config) (MWait true) demo_draining) = true.
Proof. vm_compute. done. Qed.
